(* ===== verification/_CoqProject ===== *)
-Q . S2P
Prelude.v
RustStr.v
PatchText.v
PatchParser.v
PatchUpdate.v
PatchApply.v
ExecPolicy.v
PolicyBuild.v
StreamText.v
TaggedLines.v
HeadTail.v
Truncate.v
OutputStore.v
StreamCapture.v
PathUri.v
PathLaws.v
PathJoin.v
PathTheorems.v
NativePath.v
Permissions.v
PermissionLaws.v
PermissionTransforms.v
RolloutScan.v
Rollout.v
RolloutWriter.v
RolloutRecovery.v
ResponseItems.v
History.v
NetAddr.v
HostPattern.v
HostLaws.v
NetworkConfig.v
NetworkConstraints.v
NetworkRuntime.v
NetworkTheorems.v
NetworkRuns.v
PromptHistory.v
PromptBatch.v
PromptTrim.v
ShellSyntax.v
ShellTheorems.v
CommandSafety.v
CommandTheorems.v
PowerShell.v
PowerShellTheorems.v
ExecApproval.v
ExecRules.v
ApprovalTheorems.v
ApprovalExamples.v
Interaction.v
ExecutorPolicy.v
ToolSandbox.v
ToolApprovals.v
Orchestrator.v
ToolRuntimes.v
ExecTool.v
ToolPhases.v
ToolTheorems.v
SessionApprovals.v
ToolConsent.v
ToolExamples.v
Tasks.v
NetworkApproval.v
NetworkProtocol.v
NetworkConsent.v
NetworkExamples.v
