(* ===== verification/Prelude.v ===== *)
(** * A verification of the core logic of the Codex agent

    The program under codex-rs/ is a coding agent: a model proposes patches and
    commands; the agent reads them, decides by policy and by asking whether they
    may run and in which sandbox, applies the patches, shows, stores and shortens
    output, parses the text the model streams, and keeps the conversation and the
    prompts on disk. This development models the parts that decide what happens
    to the user's files, which commands run and under which permissions, which
    hosts are reached, and what is kept of streamed and stored data, and proves
    that they do what they are meant to. All paths below are under codex-rs/.

    ** The parts and where they are modelled

    What the code uses of Rust
    - Prelude.v, RustStr.v: [result] and [outcome] (a result or a panic) with
      their binds; [usize] as [N] with saturating and checked operations; strings
      as lists of Unicode scalar values with their UTF-8 lengths, byte offsets,
      char boundaries, encoding and incremental decoding, [lines], [trim], [find]
      and the like; sorting, orders, hints and tactics.
    - Interaction.v: asynchronous code as a tree of the calls it waits for; the
      environment may answer anything and may drop the task at any call.

    Patches (apply-patch/src/)
    - PatchText.v: text_file.rs (TextFile) and seek_sequence.rs (Seek).
    - PatchParser.v: parser.rs (PatchSyntax, PatchParse) and streaming_parser.rs
      (Streaming); the state of the parser is the record of the source, one
      definition per method.
    - PatchUpdate.v: file_update.rs, on the lines of PatchText and the chunks of
      PatchParser.
    - PatchApply.v: the application half of lib.rs, a state monad over a file
      system. The file system trait and paths are classes ([FileSystem],
      [PathOps]); [FlatFileSystem] states the laws the theorems need (a successful
      write or removal at a plain path changes that entry only, a write refused as
      not found and the creation of parents change no file, a failed removal has
      removed the file or left it); [MapFs] is an instance.

    Policies for commands (execpolicy/src/, shell-command/src/, core/src/)
    - ExecPolicy.v: decision.rs, error.rs, executable_name.rs (Decisions), rule.rs
      (Rules) and policy.rs (Policies). Absolute paths are the class [ExecPaths].
    - PolicyBuild.v: parser.rs (Builder), amend.rs and sandbox_migration.rs
      (PolicyFiles). The Starlark evaluator is a parameter that yields the calls
      of the builtins; JSON and message rendering are classes.
    - ShellSyntax.v, ShellTheorems.v: bash.rs and the detection of a shell;
      PowerShell.v, PowerShellTheorems.v: powershell.rs and
      command_safety/powershell_tree_sitter.rs. Both read a syntax tree; the
      tree-sitter grammars are parameters.
    - CommandSafety.v, CommandTheorems.v: the classifiers of dangerous commands.
    - ExecApproval.v, ExecRules.v: core/src/exec_policy.rs with its submodules,
      the requirement of a command line, and the loading and amending of the
      policy in force; ApprovalTheorems.v and ApprovalExamples.v.

    Permissions and paths (utils/path-uri/src/, protocol/src/, sandboxing/src/)
    - PathUri.v, PathLaws.v, PathJoin.v, PathTheorems.v: `file:` URIs as executor
      paths, over a URL library with its laws ([UrlLib], [UrlLaws], with the
      instance [PlainUrl]); NativePath.v: native path text and configuration
      paths.
    - Permissions.v, PermissionLaws.v: file system policies of
      protocol/src/permissions.rs; ExecutorPolicy.v: permissions/target.rs and
      deny_read_validator.rs; PermissionTransforms.v:
      sandboxing/src/policy_transforms.rs with the profiles of models.rs.

    From a tool call to its execution (core/src/tools/ and its neighbours)
    - ExecTool.v: the arguments of [exec_command] to a request; ToolRuntimes.v:
      the permissions of a call, the assessment of a patch (safety.rs), and the
      command and patch tools.
    - ToolSandbox.v: which sandbox; ToolApprovals.v: asking hooks, reviewer and
      user, and the store of approvals; Orchestrator.v: orchestrator.rs, approval,
      attempt and retry over the class [ToolRuntime], whose instances are the
      tools of ToolRuntimes.v.
    - NetworkApproval.v: network_approval.rs, requests of the proxy that no list
      decides, as concurrent tasks over the shared service (Tasks.v: tasks that may
      be dropped where they wait, and the rule that lifts a protocol to every
      interleaving); NetworkProtocol.v holds the protocol and its invariant,
      NetworkConsent.v the theorems, NetworkExamples.v concrete runs.
    - ToolPhases.v, ToolTheorems.v, SessionApprovals.v, ToolConsent.v hold the
      theorems, ToolExamples.v their instances on concrete calls.

    The network proxy (network-proxy/src/)
    - NetAddr.v, HostPattern.v, HostLaws.v: addresses, hosts and domain patterns
      of policy.rs.
    - NetworkConfig.v, NetworkConstraints.v: config.rs, socket_path.rs and the
      checks of state.rs; NetworkRuntime.v, NetworkTheorems.v, NetworkRuns.v: the
      running state of runtime.rs, with edits that race.

    Streams and output (utils/, core/src/)
    - StreamText.v: utils/stream-parser/src/ stream_text.rs, inline_hidden_tag.rs
      (InlineTags), citation.rs (Citations), utf8_stream.rs (Utf8Stream). The
      class [StreamTextParser] is the trait; [ChunkInvariant] is its promise that
      only the concatenation of the chunks matters, which each parser discharges
      and the UTF-8 wrapper is proved against.
    - TaggedLines.v: tagged_line_parser.rs (Tagged), proposed_plan.rs (Plans),
      assistant_text.rs (Assistant).
    - HeadTail.v: core/src/unified_exec/head_tail_buffer.rs.
    - Truncate.v: utils/string/src/truncate.rs (Truncation) and
      utils/output-truncation/src/lib.rs (OutputTruncation).
    - OutputStore.v, StreamCapture.v: core/src/tools/output_store.rs: the store
      with its critical sections, paging and search, and the concurrent capture
      of a live stream as a state machine in which every access to shared state
      is a step.

    What is kept of a session (rollout/src/, message-history/src/, core/src/)
    - RolloutScan.v, Rollout.v, RolloutWriter.v, RolloutRecovery.v: the records of
      a session, reading them backwards and forwards, and the writer, over files
      whose every operation may fail, half way too.
    - ResponseItems.v, History.v: the items of a conversation and the pairing of
      calls with outputs (core/src/context_manager/normalize.rs).
    - PromptHistory.v, PromptBatch.v, PromptTrim.v: the history of prompts.

    ** What the theorems show

    - Patches. Text survives splitting and rebuilding; the search is sound and
      complete; the streaming parser does not depend on the chunking, accepts
      what the grammar prints and returns only well-formed hunks; updating a
      file never panics and is the line edit the patch states; a whole
      application refines one abstract step per hunk, never panics, and its
      delta, when marked exact, replays and undoes what really happened, also
      after a failure. [move_onto_itself_deletes] records a defect.
    - Policies. Matching is the stated token-wise relation; a check is the
      strictest verdict of all stored rules; merging, adding rules, resolving
      host executables, compiling domains and listing prefixes behave as their
      specifications; every reachable policy is well formed; the examples in a
      policy file are enforced; saving rules is append-only and idempotent.
    - Commands. The commands taken from a script are those of its syntax tree, in
      order, and nothing of an accepted script is left unread; the classifier of
      dangerous commands is reachability through at most eight wrappers; the
      requirement of a command line is determined by the verdicts on the commands
      it runs; managed requirements stay in force; an accepted amendment is not
      asked about again.
    - Paths and permissions. Constructors and operations give valid URIs and do
      not panic; joining is lexical resolution; the most specific entry of a
      policy decides and denials win ties; matchers of denied reads fail closed;
      what is granted is within what was requested.
    - Tool calls. In every log of the orchestrator, whatever the environment
      answers: nothing that needs consent runs before it was given; the sandbox
      is left only with leave, and not by a policy that denies reads; a command
      that asks to escalate runs only after consent or a rule; a patch nobody was
      asked about writes only where the sandbox may; an answer from the store of
      approvals goes back to answers of the user, in any interleaving of tasks.
      The examples at the end of ToolExamples.v show what the code does at the
      corners.
    - Requests of the proxy. In every interleaving, drops included, a host is
      allowed only after somebody said yes to it and not against a denial that
      stood throughout; every request is answered, no waiter is left behind, and
      the two rounds given to [wait_for_decision] are enough.
      [saved_denial_forgotten] records a defect.
    - Network. Which hosts are blocked is stated on patterns; edits of the domain
      lists are atomic under concurrent changes; an accepted configuration keeps
      the managed constraints; non-public addresses are the listed ranges; the
      log of blocked requests is the newest part of what happened.
    - Streams. Hidden tags, citations, tag lines, plans and the pipeline of them
      give for every chunking the reference reading of the whole text, and bytes
      cut inside characters give what text gives.
    - Output. The head/tail buffer is the summary of everything written;
      truncation respects its limits and reports exact counts; the shrinking of
      MCP results terminates; the store's quotas hold in every interleaving; a
      recovered stream is complete; paging through ASCII text loses nothing, and
      [paging_skips_text] shows that other text can be skipped.
    - Files of a session. A backward scan yields the records in reverse order; the
      rollout keeps every acknowledged record in order through failures, catches
      up when they end, and numbers without reuse; every call of a normalized
      history has its output; batches of prompts are what the whole file says,
      and following their cursors ends and visits every row.

    ** Bounds and fuel

    Recursion is structural wherever the source loops over data. Where it is not,
    the fuel is computed from the input and proved to be enough, or the theorems
    about the definition say what it returns: [push_loop] of StreamText (one more
    than the length of the pending and the new text; each turn but the last
    consumes a tag), [preview_loop] of Truncate (the byte limit plus one;
    [mcp_truncation_terminates]), [lossy] and [pages] of OutputStore, the
    ancestors of a path in PathUri.v, the loops of the backward scanner
    (RolloutScan.v) and of the batches (PromptHistory.v), whose readers deliver at
    least a byte or fail, and the walks over syntax trees of ShellSyntax.v and
    PowerShell.v (the number of nodes). The recursion of the dangerous-command
    classifier is bounded by the eight wrappers of the source itself. The retry
    loops of concurrent edits take the list of states they meet. Machine integers
    are [N] with explicit saturation at [usize_max] = 2^64 - 1 where the source
    saturates; other sums of lengths are of data in memory.

    ** What is not modelled

    The user interfaces, the app server and the command line dispatch requests;
    the session, the turns and the model client are asynchronous glue around
    services; the sandboxes themselves (Seatbelt, Landlock, Windows) are system
    calls and generated profiles; the listeners of the proxy, TLS interception and
    the credential broker are network input and output. Processes are not run:
    the execution of a tool is a call with any answer. tree-sitter, the url,
    globset and shlex crates, serde_json and the Starlark evaluator are
    parameters, with the documented facts the theorems need as laws and an
    instance for each that satisfies them. Within the parts: the unified diff for
    display, [RequirementsExecPolicy], the invocation parsing of apply-patch,
    [with_serialization_allowance] (floating point), conversions through the
    host's own path type, the compression and discovery of rollout files, token
    accounting of the history, telemetry and rendered messages. Files of patches
    are text, so that a failing write is cut between characters. The capture takes
    a successful [write_all] to have reached the file, and the channel to be a
    bounded FIFO. *)

From stdpp Require Export prelude gmap sorting.
From stdpp Require Import strings pretty.

Declare Scope codex_scope.
Delimit Scope codex_scope with codex.
#[global] Open Scope codex_scope.

(** ** Results

    [result E A] is Rust's [Result<A, E>]; the error type comes first so that
    [result E] is a monad and stdpp's [x ← c; k] is the [?] operator. *)
Inductive result (E A : Type) : Type :=
| Ok (a : A)
| Err (e : E).
Arguments Ok {E A} _.
Arguments Err {E A} _.

#[export] Instance result_ret E : MRet (result E) := fun A a => Ok a.
#[export] Instance result_bind E : MBind (result E) := fun A B f c =>
  match c with Ok a => f a | Err e => Err e end.
#[export] Instance result_fmap E : FMap (result E) := fun A B f c =>
  match c with Ok a => Ok (f a) | Err e => Err e end.

Definition map_err {E E' A} (f : E -> E') (c : result E A) : result E' A :=
  match c with Ok a => Ok a | Err e => Err (f e) end.

Definition ok {E A} (c : result E A) : option A :=
  match c with Ok a => Some a | Err _ => None end.

Definition is_ok {E A} (c : result E A) : bool :=
  match c with Ok _ => true | Err _ => false end.

Definition ok_or {E A} (o : option A) (e : E) : result E A :=
  match o with Some a => Ok a | None => Err e end.

(** [collect::<Result<Vec<_>, _>>()]: the first error wins. *)
Fixpoint try_map {E A B} (f : A -> result E B) (l : list A) : result E (list B) :=
  match l with
  | [] => Ok []
  | x :: l => y ← f x; ys ← try_map f l; Ok (y :: ys)
  end.

(** An [outcome] can also be a panic (an out-of-range index or slice, an
    underflowing subtraction, a failed assertion). *)
Inductive outcome (E A : Type) : Type :=
| Return (a : A)
| Throw (e : E)
| Panic.
Arguments Return {E A} _.
Arguments Throw {E A} _.
Arguments Panic {E A}.

#[export] Instance outcome_ret E : MRet (outcome E) := fun A a => Return a.
#[export] Instance outcome_bind E : MBind (outcome E) := fun A B f c =>
  match c with Return a => f a | Throw e => Throw e | Panic => Panic end.
#[export] Instance outcome_fmap E : FMap (outcome E) := fun A B f c =>
  match c with Return a => Return (f a) | Throw e => Throw e | Panic => Panic end.

Lemma outcome_bind_Return {E A B} (c : outcome E A) (f : A -> outcome E B) b :
  c ≫= f = Return b -> exists a, c = Return a /\ f a = Return b.
Proof. destruct c; naive_solver. Qed.

Lemma result_bind_Ok {E A B} (c : result E A) (f : A -> result E B) b :
  c ≫= f = Ok b -> exists a, c = Ok a /\ f a = Ok b.
Proof. destruct c; naive_solver. Qed.

Lemma try_map_Ok {E A B} (f : A -> result E B) l ys :
  try_map f l = Ok ys <-> Forall2 (fun x y => f x = Ok y) l ys.
Proof.
  revert ys; induction l as [|x l IH]; intros ys; simpl.
  - split; [intros [= <-]; constructor | by inversion 1].
  - split.
    + intros (y & Hy & (zs & Hzs & [= <-])%result_bind_Ok)%result_bind_Ok.
      constructor; [done | by apply IH].
    + inversion 1 as [|? y ? zs Hy Hzs]; simplify_eq. rewrite Hy. simpl.
      by apply IH in Hzs as ->.
Qed.

(** ** Machine integers

    [usize] and [u64] values are [N]; [saturating_sub] is [N.sub]. *)
Definition usize_max : N := 18446744073709551615.
Definition saturating_add (a b : N) : N := N.min (a + b) usize_max.
Definition saturating_mul (a b : N) : N := N.min (a * b) usize_max.
Definition checked_sub (a b : N) : option N :=
  if (b <=? a)%N then Some (a - b)%N else None.

Lemma saturating_add_fits a b :
  (a + b <= usize_max)%N -> saturating_add a b = (a + b)%N.
Proof. unfold saturating_add. lia. Qed.

Lemma saturating_mul_fits a b :
  (a * b <= usize_max)%N -> saturating_mul a b = (a * b)%N.
Proof. unfold saturating_mul. lia. Qed.

Lemma saturating_add_assoc a b c :
  saturating_add (saturating_add a b) c = saturating_add a (saturating_add b c).
Proof. unfold saturating_add. lia. Qed.

#[global] Opaque usize_max.

(** The length of a vector as a [usize]. *)
Definition lenN {A} (l : list A) : N := N.of_nat (length l).

Lemma lenN_nil {A} : lenN (@nil A) = 0%N. Proof. done. Qed.
Lemma lenN_cons {A} (x : A) l : lenN (x :: l) = (1 + lenN l)%N.
Proof. unfold lenN. simpl. lia. Qed.
Lemma lenN_app {A} (l k : list A) : lenN (l ++ k) = (lenN l + lenN k)%N.
Proof. unfold lenN. rewrite length_app. lia. Qed.

(** [&v[..n]] and [&v[n..]], clipped at the end of the vector. *)
Definition takeN {A} (n : N) (l : list A) : list A := take (N.to_nat n) l.
Definition dropN {A} (n : N) (l : list A) : list A := drop (N.to_nat n) l.

Lemma lenN_takeN {A} n (l : list A) : lenN (takeN n l) = N.min n (lenN l).
Proof. unfold lenN, takeN. rewrite length_take. lia. Qed.
Lemma lenN_dropN {A} n (l : list A) : lenN (dropN n l) = (lenN l - n)%N.
Proof. unfold lenN, dropN. rewrite length_drop. lia. Qed.
Lemma dropN_dropN {A} n m (l : list A) : dropN n (dropN m l) = dropN (m + n) l.
Proof. unfold dropN. rewrite drop_drop. f_equal. lia. Qed.
Lemma takeN_dropN {A} n (l : list A) : takeN n l ++ dropN n l = l.
Proof. apply take_drop. Qed.

Create Rewrite HintDb lens.
#[export] Hint Rewrite @lenN_nil @lenN_cons @lenN_app @lenN_takeN @lenN_dropN : lens.
#[export] Hint Rewrite @length_app @length_take @length_drop @length_fmap
  @length_reverse @length_nil @length_cons : lens.

(** [lens] normalises the lengths in the goal and closes it with [lia]. *)
Ltac lens := autorewrite with lens in *; simpl in *; try lia.

(** ** Vectors *)

(** [Vec::retain] *)
Definition retain {A} (f : A -> bool) (l : list A) : list A :=
  filter (fun x => Is_true (f x)) l.

(** [last_mut]: update the last element in place. *)
Definition update_last {A} (f : A -> A) (l : list A) : list A :=
  match reverse l with
  | [] => []
  | x :: r => reverse r ++ [f x]
  end.

Lemma update_last_snoc {A} (f : A -> A) l x : update_last f (l ++ [x]) = l ++ [f x].
Proof. unfold update_last. rewrite reverse_snoc. by rewrite reverse_involutive. Qed.

Lemma update_last_nil {A} (f : A -> A) : update_last f [] = [].
Proof. done. Qed.

Lemma last_Some_snoc {A} (l : list A) x : last l = Some x -> exists k, l = k ++ [x].
Proof.
  destruct l as [|y k _] using rev_ind; [done|].
  rewrite last_snoc. intros [= ->]. by exists k.
Qed.

Lemma take_le_eq {A} n m (a b : list A) :
  n <= m -> take m a = take m b -> take n a = take n b.
Proof.
  intros Hnm Hm. replace n with (n `min` m) by lia.
  by rewrite <- !take_take, Hm.
Qed.

(** [Iterator::find_map] *)
Fixpoint find_map {A B} (f : A -> option B) (l : list A) : option B :=
  match l with
  | [] => None
  | x :: l => match f x with Some y => Some y | None => find_map f l end
  end.

Lemma find_map_None {A B} (f : A -> option B) l : find_map f l = None <-> forall x, x ∈ l -> f x = None.
Proof.
  induction l as [|x l IH]; simpl; [split; [intros _ y Hy; by apply not_elem_of_nil in Hy|done]|].
  destruct (f x) eqn:Hx.
  - split; [done|]. intros H. rewrite (H x) in Hx by left. done.
  - rewrite IH. split; [intros H y [->|Hy]%elem_of_cons; auto|intros H y Hy; apply H; by right].
Qed.

Lemma find_map_Some {A B} (f : A -> option B) l b : find_map f l = Some b -> exists x, x ∈ l /\ f x = Some b.
Proof.
  induction l as [|x l IH]; simpl; [done|]. destruct (f x) eqn:Hx.
  - intros [= ->]. exists x. split; [left|done].
  - intros (y & Hy & ?)%IH. exists y. split; [by right|done].
Qed.

(** The elements of a list, paired with their positions ([enumerate]). *)
Definition enumerate {A} (l : list A) : list (nat * A) := imap pair l.

(** ** Derived orders: [Ord] on vectors and [sort] *)

Class Ordering {A} (cmp : A -> A -> comparison) : Prop := {
  cmp_eq x y : cmp x y = Eq <-> x = y;
  cmp_opp x y : cmp y x = CompOpp (cmp x y);
  cmp_le_trans x y z : cmp x y <> Gt -> cmp y z <> Gt -> cmp x z <> Gt;
}.

#[export] Instance N_ordering : Ordering N.compare.
Proof.
  split; [apply N.compare_eq_iff|intros; apply N.compare_antisym|].
  intros x y z. rewrite !N.compare_gt_iff. lia.
Qed.

Section Lexicographic.
Context {A : Type} (cmp : A -> A -> comparison) {ordering : Ordering cmp}.

Fixpoint lex (l k : list A) : comparison :=
  match l, k with
  | [], [] => Eq
  | [], _ :: _ => Lt
  | _ :: _, [] => Gt
  | x :: l, y :: k => match cmp x y with Eq => lex l k | c => c end
  end.

Lemma cmp_lt_trans x y z : cmp x y = Lt -> cmp y z <> Gt -> cmp x z = Lt.
Proof.
  intros H1 H2. assert (H3 : cmp x z <> Gt) by (apply (cmp_le_trans x y z); congruence).
  destruct (cmp x z) eqn:E; [|done..]. apply cmp_eq in E as <-.
  rewrite cmp_opp, H1 in H2. done.
Qed.
Lemma cmp_lt_trans_r x y z : cmp x y <> Gt -> cmp y z = Lt -> cmp x z = Lt.
Proof.
  intros H1 H2. assert (H3 : cmp x z <> Gt) by (apply (cmp_le_trans x y z); congruence).
  destruct (cmp x z) eqn:E; [|done..]. apply cmp_eq in E as <-.
  rewrite cmp_opp, H2 in H1. done.
Qed.

#[export] Instance lex_ordering : Ordering lex.
Proof.
  split.
  - intros l. induction l as [|x l IH]; intros [|y k]; simpl; try done.
    destruct (cmp x y) eqn:E.
    + apply cmp_eq in E as ->. rewrite IH. naive_solver.
    + split; [done|]. intros [= -> _]. assert (cmp y y = Eq) by by apply cmp_eq. congruence.
    + split; [done|]. intros [= -> _]. assert (cmp y y = Eq) by by apply cmp_eq. congruence.
  - intros l. induction l as [|x l IH]; intros [|y k]; simpl; try done.
    rewrite (cmp_opp x y). destruct (cmp x y); simpl; auto.
  - intros l. induction l as [|x l IH]; intros [|y k] [|z m]; simpl; try done.
    destruct (cmp x y) eqn:E1; [| |done].
    + apply cmp_eq in E1 as ->. destruct (cmp y z); [apply IH|done|done].
    + intros _. destruct (cmp y z) eqn:E2; [| |done];
        intros _; by rewrite (cmp_lt_trans x y z) by congruence.
Qed.
End Lexicographic.

Section Sort.
Context {A : Type} (cmp : A -> A -> comparison) {ordering : Ordering cmp}.

Definition cmp_le (x y : A) : Prop := cmp x y <> Gt.
#[export] Instance cmp_le_dec : RelDecision cmp_le.
Proof. intros x y. unfold cmp_le. destruct (cmp x y); (by left) || (by right; intros H). Defined.
#[export] Instance cmp_le_preorder : PreOrder cmp_le.
Proof.
  split.
  - intros x. unfold cmp_le. by rewrite (proj2 (cmp_eq x x) eq_refl).
  - intros x y z. apply cmp_le_trans.
Qed.
#[export] Instance cmp_le_antisymm : AntiSymm (=) cmp_le.
Proof.
  intros x y. unfold cmp_le. rewrite (cmp_opp (cmp := cmp) x y). intros H1 H2. apply cmp_eq.
  by destruct (cmp x y).
Qed.
#[export] Instance cmp_le_total : Total cmp_le.
Proof. intros x y. unfold cmp_le. rewrite (cmp_opp (cmp := cmp) x y). destruct (cmp x y); [by left..|by right]. Qed.

(** [Vec::sort] and [Vec::dedup]. *)
Definition sort (l : list A) : list A := merge_sort cmp_le l.

Fixpoint dedup (l : list A) : list A :=
  match l with
  | [] => []
  | x :: l =>
      match dedup l with
      | [] => [x]
      | y :: r => match cmp x y with Eq => y :: r | _ => x :: y :: r end
      end
  end.

Definition cmp_lt (x y : A) : Prop := cmp x y = Lt.

Lemma dedup_elem l x : x ∈ dedup l <-> x ∈ l.
Proof.
  induction l as [|y l IH]; simpl; [done|]. rewrite elem_of_cons, <- IH.
  destruct (dedup l) as [|z r]; [by rewrite elem_of_cons|].
  destruct (cmp y z) eqn:E; rewrite !elem_of_cons; [|tauto..].
  apply cmp_eq in E as ->. tauto.
Qed.
Lemma dedup_nil l : dedup l = [] -> l = [].
Proof. destruct l; simpl; [done|]. destruct (dedup l); [done|]. by destruct (cmp _ _). Qed.
Lemma dedup_head l : head (dedup l) = head l \/ l = [].
Proof.
  induction l as [|x l IH]; simpl; [by right|]. left.
  destruct (dedup l) as [|y r]; [done|]. destruct (cmp x y) eqn:E; [|done..].
  by apply cmp_eq in E as ->.
Qed.

(** Sorting and removing duplicates gives the strictly increasing list of the
    elements. *)
Lemma dedup_sorted l : StronglySorted cmp_le l -> StronglySorted cmp_lt (dedup l).
Proof.
  induction 1 as [|x l Hs IH Hx]; simpl; [constructor|].
  destruct (dedup l) as [|y r] eqn:E; [by repeat constructor|].
  destruct (cmp x y) eqn:Hxy; [done|..].
  - constructor; [done|]. constructor; [done|]. inversion IH as [|? ? ? Hr]; subst.
    eapply Forall_impl; [exact Hr|]. intros z Hz. unfold cmp_lt in *.
    eapply cmp_lt_trans; [done|exact Hxy|]. congruence.
  - rewrite Forall_forall in Hx. assert (Hy : y ∈ l).
    { apply dedup_elem. rewrite E. by left. }
    by destruct (Hx _ Hy).
Qed.

Lemma strictly_sorted_unique l k :
  StronglySorted cmp_lt l -> StronglySorted cmp_lt k -> (forall x, x ∈ l <-> x ∈ k) -> l = k.
Proof.
  assert (Hirr : forall x, ~ cmp_lt x x).
  { intros x H. unfold cmp_lt in H. by rewrite (proj2 (cmp_eq x x) eq_refl) in H. }
  assert (Has : forall x y, cmp_lt x y -> ~ cmp_lt y x).
  { intros x y H H'. unfold cmp_lt in *. by rewrite (cmp_opp (cmp := cmp) x y), H in H'. }
  intros Hl. revert k. induction Hl as [|x l Hl IH Hx]; intros k Hk Heq.
  - destruct k as [|y k]; [done|]. exfalso. apply (not_elem_of_nil y), Heq. left.
  - destruct Hk as [|y k Hk Hy].
    { exfalso. apply (not_elem_of_nil x), Heq. left. }
    rewrite Forall_forall in Hx, Hy.
    assert (x = y) as ->.
    { destruct (proj1 (elem_of_cons _ _ _) (proj1 (Heq x) ltac:(left))) as [|Hxk]; [done|].
      destruct (proj1 (elem_of_cons _ _ _) (proj2 (Heq y) ltac:(left))) as [|Hyl]; [done|].
      destruct (Has x y); auto. }
    f_equal. apply IH; [done|]. intros z. specialize (Heq z). rewrite !elem_of_cons in Heq.
    split; intros Hz.
    + destruct (proj1 Heq (or_intror Hz)) as [->|]; [|done]. exfalso. apply (Hirr y). auto.
    + destruct (proj2 Heq (or_intror Hz)) as [->|]; [|done]. exfalso. apply (Hirr y). auto.
Qed.

Lemma sort_dedup_sorted l : StronglySorted cmp_lt (dedup (sort l)).
Proof. apply dedup_sorted. unfold sort. apply StronglySorted_merge_sort; apply _. Qed.
Lemma sort_dedup_elem l x : x ∈ dedup (sort l) <-> x ∈ l.
Proof. rewrite dedup_elem. unfold sort. by rewrite merge_sort_Permutation. Qed.
Lemma sort_dedup_unique l k : (forall x, x ∈ l <-> x ∈ k) -> dedup (sort l) = dedup (sort k).
Proof.
  intros H. apply strictly_sorted_unique; [apply sort_dedup_sorted..|].
  intros x. by rewrite !sort_dedup_elem.
Qed.
End Sort.

(** [Ord] of strings (in UTF-8, byte order is code point order) and of vectors
    of strings. *)
Definition str_cmp : list N -> list N -> comparison := lex N.compare.
Definition strs_cmp : list (list N) -> list (list N) -> comparison := lex str_cmp.
#[export] Instance str_ordering : Ordering str_cmp := _.
#[export] Instance strs_ordering : Ordering strs_cmp := _.
