(* ===== verification/RustStr.v ===== *)
(** * RustStr: the part of Rust's [str], [String] and [char] the sources use

    A [char] is its Unicode scalar value and a string is the list of its chars.
    A position that the sources keep as a byte offset on a char boundary is a
    number of chars here wherever only slicing depends on it; where the byte
    count itself matters ([str::len], [floor_char_boundary], UTF-8 decoding) it
    is computed from the UTF-8 width of each char. *)

From Stdlib Require Import ZifyBool.
From S2P Require Import Prelude.
From stdpp Require Import strings pretty.
From Stdlib Require Import Ascii.
From Stdlib Require String.
Export String.StringSyntax.

Abbreviation char := N (only parsing).
Abbreviation str := (list N) (only parsing).

(** ** Literals *)

(** An ASCII string literal. *)
Fixpoint lit (s : String.string) : str :=
  match s with
  | String.EmptyString => []
  | String.String c s => N_of_ascii c :: lit s
  end.
Arguments lit _%_string_scope : simpl never.

Definition nl : char := 10%N.
Definition cr : char := 13%N.
Definition dquote : char := 34%N.
(** U+2026, the ellipsis of the truncation markers *)
Definition ellipsis : char := 8230%N.

(** [{n}] of a [format!] with an unsigned integer. *)
Definition show (n : N) : str := lit (pretty n).

(** ** Character classes *)

Definition in_range (lo hi c : N) : bool := (lo <=? c)%N && (c <=? hi)%N.

(** [char::is_whitespace]: the Unicode [White_Space] property. *)
Definition is_whitespace (c : char) : bool :=
  in_range 9 13 c || (c =? 32)%N || (c =? 133)%N || (c =? 160)%N
  || (c =? 5760)%N || in_range 8192 8202 c || (c =? 8232)%N || (c =? 8233)%N
  || (c =? 8239)%N || (c =? 8287)%N || (c =? 12288)%N.

Definition is_ascii_digit (c : char) : bool := in_range 48 57 c.

Definition ascii_lower (c : char) : char :=
  if in_range 65 90 c then (c + 32)%N else c.
Definition to_ascii_lowercase (s : str) : str := ascii_lower <$> s.
Definition is_ascii_uppercase (c : char) : bool := in_range 65 90 c.
Definition is_ascii_lowercase (c : char) : bool := in_range 97 122 c.
Definition is_ascii_alphabetic (c : char) : bool := is_ascii_uppercase c || is_ascii_lowercase c.
Definition ascii_upper (c : char) : char :=
  if is_ascii_lowercase c then (c - 32)%N else c.

(** ** Equality, prefixes and suffixes *)

Fixpoint str_eqb (s t : str) : bool :=
  match s, t with
  | [], [] => true
  | a :: s, b :: t => (a =? b)%N && str_eqb s t
  | _, _ => false
  end.

Definition eq_ignore_ascii_case (s t : str) : bool :=
  str_eqb (to_ascii_lowercase s) (to_ascii_lowercase t).

Definition is_empty {A} (s : list A) : bool :=
  match s with [] => true | _ => false end.

Fixpoint strip_prefix (p s : str) : option str :=
  match p, s with
  | [], _ => Some s
  | a :: p, b :: s => if (a =? b)%N then strip_prefix p s else None
  | _ :: _, [] => None
  end.

Definition starts_with (p s : str) : bool :=
  match strip_prefix p s with Some _ => true | None => false end.

Definition strip_suffix (p s : str) : option str :=
  reverse <$> strip_prefix (reverse p) (reverse s).

Definition ends_with (p s : str) : bool :=
  match strip_suffix p s with Some _ => true | None => false end.

(** ** Trimming *)

Fixpoint trim_start_matches (f : char -> bool) (s : str) : str :=
  match s with
  | [] => []
  | c :: s' => if f c then trim_start_matches f s' else s
  end.
Definition trim_end_matches (f : char -> bool) (s : str) : str :=
  reverse (trim_start_matches f (reverse s)).
Definition trim_start : str -> str := trim_start_matches is_whitespace.
Definition trim_end : str -> str := trim_end_matches is_whitespace.
Definition trim (s : str) : str := trim_start (trim_end s).

(** ** Searching and splitting *)

(** [str::find] with a string pattern. *)
Fixpoint find (needle s : str) : option nat :=
  if starts_with needle s then Some 0
  else match s with
       | [] => None
       | _ :: s' => S <$> find needle s'
       end.

Definition contains (needle s : str) : bool :=
  match find needle s with Some _ => true | None => false end.
Definition contains_char (c : char) (s : str) : bool := existsb (N.eqb c) s.

(** [split_once] and [rsplit_once] with a char. *)
Fixpoint split_once (c : char) (s : str) : option (str * str) :=
  match s with
  | [] => None
  | d :: s' =>
      if (d =? c)%N then Some ([], s')
      else '(a, b) ← split_once c s'; Some (d :: a, b)
  end.
Definition rsplit_once (c : char) (s : str) : option (str * str) :=
  '(a, b) ← split_once c (reverse s); Some (reverse b, reverse a).

(** [split_inclusive('\n')] *)
Fixpoint split_inclusive (s : str) : list str :=
  match s with
  | [] => []
  | c :: s' =>
      if (c =? nl)%N then [c] :: split_inclusive s'
      else match split_inclusive s' with
           | [] => [[c]]
           | l :: ls => (c :: l) :: ls
           end
  end.

Definition chomp (line : str) : str :=
  match strip_suffix [nl] line with
  | None => line
  | Some l => default l (strip_suffix [cr] l)
  end.

(** [str::lines]: a line ends at LF or CRLF; a lone trailing CR stays. *)
Definition lines (s : str) : list str := chomp <$> split_inclusive s.

(** [str::split] at each char of a class, and at one char. *)
Fixpoint split_by (f : char -> bool) (s : str) : list str :=
  match s with
  | [] => [[]]
  | d :: s =>
      if f d then [] :: split_by f s
      else match split_by f s with [] => [[d]] | p :: ps => (d :: p) :: ps end
  end.
Definition split_on (c : char) : str -> list str := split_by (fun d => d =? c)%N.

(** [str::replace] of one char by another. *)
Definition replace_char (c d : char) (s : str) : str :=
  (fun x => if (x =? c)%N then d else x) <$> s.

(** [<[_]>::join] *)
Fixpoint join (sep : str) (l : list str) : str :=
  match l with
  | [] => []
  | [x] => x
  | x :: l => x ++ sep ++ join sep l
  end.

(** ** UTF-8 *)

Definition len_utf8 (c : char) : N :=
  if (c <? 128)%N then 1 else if (c <? 2048)%N then 2
  else if (c <? 65536)%N then 3 else 4.

(** [str::len] *)
Fixpoint blen (s : str) : N :=
  match s with [] => 0%N | c :: s => (len_utf8 c + blen s)%N end.

(** The longest prefix of at most [n] bytes, and what is left after dropping
    whole chars until at least [n] bytes are gone: the slices
    [&s[..s.floor_char_boundary(n)]] and [&s[s.ceil_char_boundary(n)..]]. *)
Fixpoint byte_prefix (n : N) (s : str) : str :=
  match s with
  | [] => []
  | c :: s' =>
      if (len_utf8 c <=? n)%N then c :: byte_prefix (n - len_utf8 c) s' else []
  end.
Fixpoint byte_drop (n : N) (s : str) : str :=
  match s with
  | [] => []
  | c :: s' => if (n =? 0)%N then s else byte_drop (n - len_utf8 c) s'
  end.

Definition floor_char_boundary (s : str) (n : N) : N := blen (byte_prefix n s).
Definition ceil_char_boundary (s : str) (n : N) : N := (blen s - blen (byte_drop n s))%N.
Definition is_char_boundary (s : str) (n : N) : bool := (floor_char_boundary s n =? n)%N.

(** [char::encode_utf8] *)
Definition encode_char (c : char) : list N :=
  (if c <? 128 then [c]
   else if c <? 2048 then [192 + c / 64; 128 + c mod 64]
   else if c <? 65536 then [224 + c / 4096; 128 + (c / 64) mod 64; 128 + c mod 64]
   else [240 + c / 262144; 128 + (c / 4096) mod 64; 128 + (c / 64) mod 64; 128 + c mod 64])%N.
Definition as_bytes (s : str) : list N := s ≫= encode_char.

(** Scalar values: everything up to U+10FFFF except the surrogates. *)
Definition valid_char (c : char) : bool :=
  (c <? 55296)%N || in_range 57344 1114111 c.
Definition valid_str (s : str) : Prop := Forall (fun c => valid_char c = true) s.

(** [std::str::from_utf8], as the library's validator scans the bytes: the
    chars decoded before the first problem and, if there is one, the
    [error_len] it reports ([None] when the input ends inside a char). *)
Inductive utf8_end := Utf8Done | Utf8Bad (error_len : option N).

Definition is_cont (b : N) : bool := in_range 128 191 b.

Definition second_ok (b0 b1 : N) : bool :=
  (if b0 =? 224 then in_range 160 191 b1
   else if b0 =? 237 then in_range 128 159 b1
   else if b0 =? 240 then in_range 144 191 b1
   else if b0 =? 244 then in_range 128 143 b1
   else is_cont b1)%N.

Fixpoint decode (bs : list N) : list N * utf8_end :=
  let bad n := ([], Utf8Bad (Some n)) in
  let short := ([], Utf8Bad None) in
  let emit c r := (c :: r.1, r.2) in
  match bs with
  | [] => ([], Utf8Done)
  | b0 :: r0 =>
      if (b0 <? 128)%N then emit b0 (decode r0)
      else if in_range 194 223 b0 then
        match r0 with
        | [] => short
        | b1 :: r1 =>
            if is_cont b1 then emit ((b0 - 192) * 64 + (b1 - 128))%N (decode r1)
            else bad 1%N
        end
      else if in_range 224 239 b0 then
        match r0 with
        | [] => short
        | b1 :: r1 =>
            if second_ok b0 b1 then
              match r1 with
              | [] => short
              | b2 :: r2 =>
                  if is_cont b2 then
                    emit ((b0 - 224) * 4096 + (b1 - 128) * 64 + (b2 - 128))%N (decode r2)
                  else bad 2%N
              end
            else bad 1%N
        end
      else if in_range 240 244 b0 then
        match r0 with
        | [] => short
        | b1 :: r1 =>
            if second_ok b0 b1 then
              match r1 with
              | [] => short
              | b2 :: r2 =>
                  if is_cont b2 then
                    match r2 with
                    | [] => short
                    | b3 :: r3 =>
                        if is_cont b3 then
                          emit ((b0 - 240) * 262144 + (b1 - 128) * 4096
                                + (b2 - 128) * 64 + (b3 - 128))%N (decode r3)
                        else bad 3%N
                    end
                  else bad 2%N
              end
            else bad 1%N
        end
      else bad 1%N
  end.

Record Utf8Error := mkUtf8Error { valid_up_to : N; error_len : option N }.

Definition from_utf8 (bs : list N) : result Utf8Error str :=
  match decode bs with
  | (s, Utf8Done) => Ok s
  | (s, Utf8Bad e) => Err (mkUtf8Error (blen s) e)
  end.

(** [String::from_utf8_lossy]: each ill-formed sequence becomes U+FFFD. *)
Fixpoint lossy (fuel : nat) (bs : list N) : str :=
  match fuel with
  | O => []
  | S fuel =>
      match decode bs with
      | (s, Utf8Done) => s
      | (s, Utf8Bad None) => s ++ [65533%N]
      | (s, Utf8Bad (Some n)) => s ++ 65533%N :: lossy fuel (dropN (blen s + n) bs)
      end
  end.
Definition from_utf8_lossy (bs : list N) : str := lossy (S (length bs)) bs.

(** ** Lemmas *)

Lemma str_eqb_eq s t : str_eqb s t = true <-> s = t.
Proof.
  revert t. induction s as [|a s IH]; intros [|b t]; simpl; try done.
  rewrite andb_true_iff, N.eqb_eq, IH. naive_solver.
Qed.
Lemma str_eqb_spec s t : Bool.reflect (s = t) (str_eqb s t).
Proof. apply iff_reflect. by rewrite str_eqb_eq. Qed.
Lemma str_eqb_refl s : str_eqb s s = true.
Proof. by apply str_eqb_eq. Qed.

Lemma strip_prefix_Some p s t : strip_prefix p s = Some t <-> s = p ++ t.
Proof.
  revert s. induction p as [|a p IH]; intros [|b s]; simpl; try naive_solver.
  destruct (N.eqb_spec a b) as [->|Hne]; [rewrite IH|]; naive_solver.
Qed.
Lemma strip_prefix_app p t : strip_prefix p (p ++ t) = Some t.
Proof. by apply strip_prefix_Some. Qed.
Lemma strip_prefix_None p s : strip_prefix p s = None <-> ~ exists t, s = p ++ t.
Proof.
  destruct (strip_prefix p s) as [t|] eqn:H.
  - apply strip_prefix_Some in H as ->. naive_solver.
  - split; [|done]. intros _ [t ->]. by rewrite strip_prefix_app in H.
Qed.

Lemma starts_with_spec p s : starts_with p s = true <-> exists t, s = p ++ t.
Proof.
  unfold starts_with. destruct (strip_prefix p s) as [t|] eqn:H.
  - apply strip_prefix_Some in H as ->. naive_solver.
  - apply strip_prefix_None in H. naive_solver.
Qed.

Lemma strip_suffix_Some p s t : strip_suffix p s = Some t <-> s = t ++ p.
Proof.
  unfold strip_suffix. rewrite fmap_Some. setoid_rewrite strip_prefix_Some. split.
  - intros (u & Hu & ->). rewrite <- (reverse_involutive s), Hu, reverse_app.
    by rewrite reverse_involutive.
  - intros ->. exists (reverse t). by rewrite reverse_app, reverse_involutive.
Qed.
Lemma strip_suffix_app p t : strip_suffix p (t ++ p) = Some t.
Proof. by apply strip_suffix_Some. Qed.
Lemma strip_suffix_None p s : strip_suffix p s = None <-> forall t, s <> t ++ p.
Proof.
  destruct (strip_suffix p s) as [t|] eqn:H.
  - apply strip_suffix_Some in H. naive_solver.
  - split; [|done]. intros _ t ->. by rewrite strip_suffix_app in H.
Qed.
Lemma ends_with_spec p s : ends_with p s = true <-> exists t, s = t ++ p.
Proof.
  unfold ends_with. destruct (strip_suffix p s) as [t|] eqn:H.
  - apply strip_suffix_Some in H. naive_solver.
  - rewrite strip_suffix_None in H. naive_solver.
Qed.

Lemma trim_end_cons c s :
  trim_end (c :: s) = if is_empty (trim_end s) && is_whitespace c then [] else c :: trim_end s.
Proof.
  unfold trim_end, trim_end_matches. rewrite reverse_cons.
  assert (H : forall r, trim_start_matches is_whitespace (r ++ [c])
    = match trim_start_matches is_whitespace r with
      | [] => if is_whitespace c then [] else [c]
      | t => t ++ [c]
      end).
  { induction r as [|d r IH]; simpl; [done|]. by destruct (is_whitespace d). }
  rewrite H. destruct (trim_start_matches is_whitespace (reverse s)) as [|d t] eqn:Ht.
  - simpl. by destruct (is_whitespace c).
  - destruct (reverse (d :: t)) as [|e u] eqn:Hr.
    + apply (f_equal length) in Hr. rewrite length_reverse in Hr. done.
    + rewrite reverse_app, Hr. done.
Qed.

Lemma trim_end_cons_nonspace c s :
  is_whitespace c = false -> trim_end (c :: s) = c :: trim_end s.
Proof. intros H. rewrite trim_end_cons, H. by rewrite andb_false_r. Qed.

Lemma trim_end_app_nonspace s t c u :
  trim_end t = c :: u -> trim_end (s ++ t) = s ++ trim_end t.
Proof.
  intros Ht. induction s as [|d s IH]; [done|].
  rewrite <- !app_comm_cons, trim_end_cons, IH.
  destruct (s ++ trim_end t) eqn:E; [|done].
  apply app_nil in E as [_ E]. congruence.
Qed.

Lemma trim_start_nonspace c s :
  is_whitespace c = false -> trim_start (c :: s) = c :: s.
Proof. unfold trim_start. simpl. by intros ->. Qed.

Lemma trim_nonspace c s :
  is_whitespace c = false -> trim (c :: s) = c :: trim_end s.
Proof. intros H. unfold trim. by rewrite trim_end_cons_nonspace, trim_start_nonspace. Qed.

Lemma trim_end_snoc_space s c :
  is_whitespace c = true -> trim_end (s ++ [c]) = trim_end s.
Proof. intros H. unfold trim_end, trim_end_matches. rewrite reverse_snoc. simpl. by rewrite H. Qed.

Lemma length_trim_end s : length (trim_end s) <= length s.
Proof.
  unfold trim_end, trim_end_matches. rewrite length_reverse, <- (length_reverse s).
  induction (reverse s) as [|c r IH]; simpl; [lia|]. case_match; simpl; lia.
Qed.

(** Comparisons decided by the first char. *)
Lemma strip_prefix_head_ne a p s :
  head p = Some a -> head s <> Some a -> strip_prefix p s = None.
Proof.
  destruct p as [|b p], s as [|c s]; simpl; try done. intros [= ->] Hne.
  by destruct (N.eqb_spec a c) as [->|].
Qed.
Lemma str_eqb_head_ne a s t :
  head t = Some a -> head s <> Some a -> str_eqb s t = false.
Proof.
  destruct s as [|c s], t as [|b t]; simpl; try done. intros [= ->] Hne.
  by destruct (N.eqb_spec c a) as [->|].
Qed.

(** Lines *)

Lemma split_inclusive_concat s : concat (split_inclusive s) = s.
Proof.
  induction s as [|c s IH]; simpl; [done|].
  destruct (N.eqb_spec c nl) as [->|?]; simpl; [by rewrite IH|].
  destruct (split_inclusive s); simpl in *; [by rewrite <- IH | by rewrite <- IH].
Qed.

Lemma split_inclusive_line l s :
  nl ∉ l -> split_inclusive (l ++ nl :: s) = (l ++ [nl]) :: split_inclusive s.
Proof.
  induction l as [|c l IH]; simpl; intros Hnl; [done|].
  destruct (N.eqb_spec c nl) as [->|?]; [set_solver|]. by rewrite IH by set_solver.
Qed.

Lemma split_inclusive_last l : nl ∉ l -> l <> [] -> split_inclusive l = [l].
Proof.
  induction l as [|c l IH]; [done|]. simpl. intros Hnl _.
  destruct (N.eqb_spec c nl) as [->|?]; [set_solver|].
  destruct l as [|d l]; [done|]. by rewrite IH by set_solver.
Qed.

(** A line that survives [lines] and the streaming parser unchanged. *)
Definition line_ok (l : str) : Prop := (nl ∉ l) /\ strip_suffix [cr] l = None.

Lemma line_ok_app m l :
  nl ∉ m -> strip_suffix [cr] m = None -> line_ok l -> line_ok (m ++ l).
Proof.
  rewrite strip_suffix_None. intros Hm Hcr [Hl Hcr']. split; [set_solver|].
  rewrite strip_suffix_None in *. intros t Ht.
  destruct l as [|c l _] using rev_ind.
  - rewrite app_nil_r in Ht. by destruct (Hcr t).
  - rewrite app_assoc in Ht. apply app_inj_2 in Ht as [_ [= ->]]; [|done].
    by destruct (Hcr' l).
Qed.

Lemma line_ok_trimmed p : nl ∉ p -> trim_end p = p -> line_ok p.
Proof.
  intros Hnl Ht. split; [done|]. apply strip_suffix_None. intros t ->.
  rewrite trim_end_snoc_space in Ht by done.
  pose proof (length_trim_end t) as Hle. rewrite Ht, length_app in Hle. simpl in Hle. lia.
Qed.

Lemma chomp_line l : line_ok l -> chomp (l ++ [nl]) = l.
Proof. intros [_ Hcr]. unfold chomp. rewrite strip_suffix_app, Hcr. done. Qed.

Lemma chomp_no_nl l : nl ∉ l -> chomp l = l.
Proof.
  intros Hnl. unfold chomp. destruct (strip_suffix [nl] l) as [t|] eqn:H; [|done].
  apply strip_suffix_Some in H as ->. set_solver.
Qed.

Lemma lines_join ls l :
  Forall line_ok ls -> nl ∉ l -> l <> [] ->
  lines (join [nl] (ls ++ [l])) = ls ++ [l].
Proof.
  intros Hls Hnl Hne. unfold lines. induction Hls as [|x ls Hx _ IH]; simpl.
  - rewrite split_inclusive_last by done. simpl. by rewrite chomp_no_nl.
  - destruct (ls ++ [l]) as [|y k] eqn:E; [by destruct ls|].
    destruct Hx as [Hx1 Hx2].
    change (join [nl] (x :: y :: k)) with (x ++ nl :: join [nl] (y :: k)).
    rewrite split_inclusive_line by done. csimpl. rewrite chomp_line by done.
    f_equal. done.
Qed.

Lemma join_snoc ls l : join [nl] (ls ++ [l]) = (ls ≫= (fun x => x ++ [nl])) ++ l.
Proof.
  induction ls as [|x ls IH]; [done|]. simpl.
  destruct (ls ++ [l]) as [|y k] eqn:E; [by destruct ls|].
  rewrite IH, <- !app_assoc. done.
Qed.

Lemma split_inclusive_app s t :
  split_inclusive ((s ++ [nl]) ++ t) = split_inclusive (s ++ [nl]) ++ split_inclusive t.
Proof.
  induction s as [|c s IH]; simpl; [done|].
  destruct (c =? nl)%N; [by rewrite IH|]. rewrite IH.
  destruct (split_inclusive (s ++ [nl])) eqn:E; [|done].
  apply (f_equal (@concat N)) in E. rewrite split_inclusive_concat in E. by destruct s.
Qed.

(** Terminating the last line of a text. *)
Lemma lines_terminate_char s c :
  c <> nl -> c <> cr -> lines ((s ++ [c]) ++ [nl]) = lines (s ++ [c]).
Proof.
  intros Hcn Hc.
  assert (H : forall s, exists init x, split_inclusive (s ++ [c]) = init ++ [x ++ [c]]
    /\ split_inclusive ((s ++ [c]) ++ [nl]) = init ++ [(x ++ [c]) ++ [nl]] /\ nl ∉ x).
  { clear s. induction s as [|d s (init & x & H1 & H2 & H3)].
    - exists [], []. simpl. destruct (N.eqb_spec c nl); [done|]. split_and!; [done|done|set_solver].
    - simpl. destruct (N.eqb_spec d nl) as [->|Hd].
      + exists ([nl] :: init), x. by rewrite H1, H2.
      + rewrite H1, H2. destruct init as [|l ls]; simpl.
        * exists [], (d :: x). split_and!; [done|done|set_solver].
        * by exists ((d :: l) :: ls), x. }
  destruct (H s) as (init & x & H1 & H2 & H3). unfold lines. rewrite H1, H2, !fmap_app.
  simpl. f_equal. f_equal. rewrite chomp_line, chomp_no_nl; [done|set_solver|].
  split; [set_solver|]. apply strip_suffix_None. intros t Ht.
  apply app_inj_2 in Ht as [_ [= ->]]; [|done]. done.
Qed.

Lemma lines_terminate s c :
  is_whitespace c = false -> lines ((s ++ [c]) ++ [nl]) = lines (s ++ [c]).
Proof. intros Hc. apply lines_terminate_char; by intros ->. Qed.

Lemma lines_app_nl s t : lines ((s ++ [nl]) ++ t) = lines (s ++ [nl]) ++ lines t.
Proof. unfold lines. by rewrite split_inclusive_app, fmap_app. Qed.
Lemma lines_single l : line_ok l -> lines (l ++ [nl]) = [l].
Proof.
  intros Hl. unfold lines. rewrite split_inclusive_line by apply Hl. csimpl. by rewrite chomp_line.
Qed.

(** The pieces of [split_inclusive]: lines with their terminator, the last of
    them perhaps without. *)
Definition terminated (l : str) : Prop := exists k, l = k ++ [nl] /\ nl ∉ k.
Definition pieces (ls : list str) : Prop :=
  exists init tail, ls = init ++ tail /\ Forall terminated init
    /\ (tail = [] \/ exists l, tail = [l] /\ l <> [] /\ nl ∉ l).

Lemma split_inclusive_pieces s : pieces (split_inclusive s).
Proof.
  induction s as [|c s (init & tail & E & Hi & Ht)]; simpl.
  { exists [], []. by repeat split; [constructor|left]. }
  rewrite E. destruct (N.eqb_spec c nl) as [->|Hc].
  - exists ([nl] :: init), tail. split_and!; [done| |done]. constructor; [|done].
    exists []. split; [done|apply not_elem_of_nil].
  - destruct init as [|l init]; simpl.
    + destruct Ht as [->|(l & -> & Hl & Hn)].
      * exists [], [[c]]. split_and!; [done|constructor|]. right. exists [c]. split_and!; [done..|].
        by rewrite list_elem_of_singleton.
      * exists [], [c :: l]. split_and!; [done|constructor|]. right. exists (c :: l).
        split_and!; [done..|]. rewrite not_elem_of_cons. auto.
    + inversion Hi as [|? ? (k & -> & Hk) Hi']; subst. exists ((c :: k ++ [nl]) :: init), tail.
      split_and!; [done| |done]. constructor; [|done]. exists (c :: k). split; [done|].
      rewrite not_elem_of_cons. auto.
Qed.

Lemma split_inclusive_of_pieces ls : pieces ls -> split_inclusive (concat ls) = ls.
Proof.
  intros (init & tail & -> & Hi & Ht). induction Hi as [|l init (k & -> & Hk) _ IH]; simpl.
  - destruct Ht as [->|(l & -> & Hl & Hn)]; simpl; [done|]. rewrite app_nil_r.
    by apply split_inclusive_last.
  - rewrite <- app_assoc. simpl. rewrite split_inclusive_line by done. by rewrite IH.
Qed.

Lemma pieces_filter f ls : pieces ls -> pieces (List.filter f ls).
Proof.
  intros (init & tail & -> & Hi & Ht). rewrite List.filter_app.
  exists (List.filter f init), (List.filter f tail). split_and!; [done| |].
  - rewrite Forall_forall in *. intros x. rewrite list_elem_of_In, filter_In, <- list_elem_of_In.
    intros [Hx _]. by apply Hi.
  - destruct Ht as [->|(l & -> & Hl & Hn)]; simpl; [by left|]. destruct (f l); [right|by left]. eauto.
Qed.

Lemma lines_app_line s c t :
  is_whitespace c = false -> lines ((s ++ [c]) ++ nl :: t) = lines (s ++ [c]) ++ lines t.
Proof.
  intros Hc. rewrite <- (lines_terminate s c) by done. unfold lines.
  rewrite (app_assoc _ [nl] t : _ ++ nl :: t = _), split_inclusive_app, fmap_app. done.
Qed.

Lemma trim_end_last s : trim_end s = s -> s <> [] -> exists t c, s = t ++ [c] /\ is_whitespace c = false.
Proof.
  destruct s as [|c t _] using rev_ind; [done|]. intros Ht _. exists t, c. split; [done|].
  destruct (is_whitespace c) eqn:Hc; [|done]. rewrite trim_end_snoc_space in Ht by done.
  pose proof (length_trim_end t) as H. rewrite Ht, length_app in H. simpl in H. lia.
Qed.

(** ** Characters that survive trimming, searching and splitting *)

Lemma trim_start_matches_suffix f s : exists t, s = t ++ trim_start_matches f s.
Proof.
  induction s as [|c s [t IH]]; simpl; [by exists []|]. destruct (f c); [|by exists []].
  exists (c :: t). simpl. by rewrite <- IH.
Qed.
Lemma trim_start_matches_sub f s c : c ∈ trim_start_matches f s -> c ∈ s.
Proof. intros H. destruct (trim_start_matches_suffix f s) as [t ->]. apply elem_of_app. by right. Qed.
Lemma trim_end_matches_sub f s c : c ∈ trim_end_matches f s -> c ∈ s.
Proof.
  unfold trim_end_matches. rewrite elem_of_reverse. intros H%trim_start_matches_sub.
  by rewrite elem_of_reverse in H.
Qed.
Lemma trim_sub s c : c ∈ trim s -> c ∈ s.
Proof. intros H%trim_start_matches_sub. by apply trim_end_matches_sub in H. Qed.

Lemma trim_end_matches_id f s :
  (forall c, last s = Some c -> f c = false) -> trim_end_matches f s = s.
Proof.
  unfold trim_end_matches. destruct s as [|c s _] using rev_ind; [done|].
  rewrite last_snoc, reverse_snoc. intros H. simpl. rewrite (H c eq_refl).
  by rewrite reverse_cons, reverse_involutive.
Qed.
Lemma trim_id s : Forall (fun c => is_whitespace c = false) s -> trim s = s.
Proof.
  intros H. unfold trim, trim_end. rewrite trim_end_matches_id.
  - destruct H as [|c s Hc]; [done|]. by apply trim_start_nonspace.
  - intros c Hc%last_Some_elem_of. rewrite Forall_forall in H. by apply H.
Qed.

Lemma contains_char_spec c s : contains_char c s = true <-> c ∈ s.
Proof.
  unfold contains_char. rewrite existsb_exists, list_elem_of_In.
  setoid_rewrite N.eqb_eq. naive_solver.
Qed.
Lemma contains_char_false c s : contains_char c s = false <-> c ∉ s.
Proof. rewrite <- contains_char_spec. by destruct (contains_char c s). Qed.

Lemma contains_sub needle s c : contains needle s = true -> c ∈ needle -> c ∈ s.
Proof.
  unfold contains. induction s as [|d s IH]; simpl.
  - destruct (starts_with needle []) eqn:H; [|done]. apply starts_with_spec in H as [t H].
    symmetry in H. apply app_nil in H as [-> _]. done.
  - destruct (starts_with needle (d :: s)) eqn:H.
    + apply starts_with_spec in H as [t ->]. intros _ Hc. apply elem_of_app. by left.
    + destruct (find needle s); [|done]. intros _ Hc. right. by apply IH.
Qed.

Lemma split_once_Some c s a b : split_once c s = Some (a, b) <-> s = a ++ c :: b /\ c ∉ a.
Proof.
  revert a. induction s as [|d s IH]; intros a; simpl.
  - split; [done|]. intros [H _]. by destruct a.
  - destruct (N.eqb_spec d c) as [->|Hne].
    + split.
      * intros [= <- <-]. split; [done|]. apply not_elem_of_nil.
      * intros [H Ha]. destruct a as [|e a]; [by injection H as ->|].
        injection H as -> _. by destruct Ha; left.
    + split.
      * destruct (split_once c s) as [[a' b']|]; [|done]. intros [= <- <-].
        destruct (proj1 (IH a') eq_refl) as [-> Ha]. split; [done|].
        rewrite not_elem_of_cons. auto.
      * intros [H Ha]. destruct a as [|e a]; [by injection H as -> _|].
        injection H as <- ->. apply not_elem_of_cons in Ha as [_ Ha].
        by rewrite (proj2 (IH a) (conj eq_refl Ha)).
Qed.
Lemma rsplit_once_Some c s a b : rsplit_once c s = Some (a, b) <-> s = a ++ c :: b /\ c ∉ b.
Proof.
  unfold rsplit_once. split.
  - destruct (split_once c (reverse s)) as [[x y]|] eqn:H; [|done]. intros [= <- <-].
    apply split_once_Some in H as [H Hx]. split; [|by rewrite elem_of_reverse].
    apply (f_equal reverse) in H. rewrite reverse_involutive in H. rewrite H, reverse_app, reverse_cons.
    by rewrite <- app_assoc.
  - intros [-> Hb]. rewrite reverse_app, reverse_cons, <- app_assoc. simpl.
    rewrite (proj2 (split_once_Some c _ (reverse b) (reverse a))); simpl.
    + by rewrite !reverse_involutive.
    + split; [done|]. by rewrite elem_of_reverse.
Qed.

(** ** Occurrences *)

Definition occurs (n s : str) (j : nat) : Prop := exists t, drop j s = n ++ t.

Lemma find_Some n s i :
  find n s = Some i <-> i <= length s /\ occurs n s i /\ forall j, j < i -> ~ occurs n s j.
Proof.
  revert i. induction s as [|c s IH]; intros i; simpl.
  - destruct (starts_with n []) eqn:H.
    + apply starts_with_spec in H as [t H]. split.
      * intros [= <-]. split_and!; [lia|by exists t|lia].
      * intros (Hi & _). f_equal. lia.
    + split; [done|]. intros (Hi & [t Ht] & _). rewrite drop_nil in Ht.
      assert (starts_with n [] = true) by (apply starts_with_spec; eauto). congruence.
  - destruct (starts_with n (c :: s)) eqn:H.
    + apply starts_with_spec in H as [t H]. split.
      * intros [= <-]. split_and!; [lia|by exists t|lia].
      * intros (Hi & _ & Hno). destruct i; [done|]. destruct (Hno 0); [lia|]. by exists t.
    + assert (H0 : ~ occurs n (c :: s) 0).
      { intros [t Ht]. assert (starts_with n (c :: s) = true) by (apply starts_with_spec; eauto). congruence. }
      destruct i as [|i].
      * split; [by destruct (find n s)|]. by intros (_ & ? & _).
      * assert (fmap S (find n s) = Some (S i) <-> find n s = Some i) as ->.
        { destruct (find n s); simpl; naive_solver. }
        rewrite IH. split.
        -- intros (Hi & Ho & Hno). split_and!; [lia|done|]. intros [|j] Hj; [done|].
           apply (Hno j). lia.
        -- intros (Hi & Ho & Hno). split_and!; [lia|done|]. intros j Hj. apply (Hno (S j)). lia.
Qed.

Lemma find_None n s : find n s = None <-> forall j, j <= length s -> ~ occurs n s j.
Proof.
  split.
  - intros H j Hj Ho.
    assert (Hex : forall j, j <= length s -> occurs n s j -> find n s <> None).
    { clear. induction s as [|c s IH]; intros j Hj [t Ht]; simpl in *.
      - rewrite drop_nil in Ht. by rewrite (proj2 (starts_with_spec n [])) by eauto.
      - destruct (starts_with n (c :: s)) eqn:E; [done|]. destruct j as [|j].
        + assert (starts_with n (c :: s) = true) by (apply starts_with_spec; eauto). congruence.
        + assert (find n s <> None) by (apply (IH j); [lia|by exists t]).
          by destruct (find n s). }
    by apply (Hex j).
  - intros H. destruct (find n s) as [i|] eqn:E; [|done]. apply find_Some in E as (Hi & Ho & _).
    by destruct (H i).
Qed.

Lemma occurs_app n s t j : j <= length s -> occurs n s j -> occurs n (s ++ t) j.
Proof. intros Hj [u Hu]. exists (u ++ t). rewrite drop_app_le by done. by rewrite Hu, app_assoc. Qed.
Lemma occurs_app_inv n s t j :
  j + length n <= length s -> occurs n (s ++ t) j -> occurs n s j.
Proof.
  intros Hj [u Hu]. rewrite drop_app_le in Hu by lia.
  exists (drop (length n) (drop j s)).
  rewrite <- (take_drop (length n) (drop j s)) at 1. f_equal.
  apply (f_equal (take (length n))) in Hu.
  rewrite take_app_le in Hu by (rewrite length_drop; lia). by rewrite take_app_length in Hu.
Qed.

Lemma occurs_len n s j : n <> [] -> occurs n s j -> j + length n <= length s.
Proof.
  intros Hn [t Ht]. apply (f_equal length) in Ht. rewrite length_drop, length_app in Ht.
  destruct n; [done|]. simpl in *. lia.
Qed.

Lemma find_app_l n s t i : n <> [] -> find n s = Some i -> find n (s ++ t) = Some i.
Proof.
  intros Hn (Hi & Ho & Hno)%find_Some. pose proof (occurs_len _ _ _ Hn Ho).
  apply find_Some. split_and!; [rewrite length_app; lia|by apply occurs_app|].
  intros j Hj Ho'. apply (Hno j); [done|]. eapply occurs_app_inv; [|done]. lia.
Qed.

Lemma find_drop_None n s k : find n s = None -> find n (drop k s) = None.
Proof.
  rewrite !find_None. intros H j Hj [t Ht]. rewrite length_drop in Hj. rewrite drop_drop in Ht.
  destruct (decide (k <= length s)).
  - apply (H (k + j)); [lia|]. by exists t.
  - rewrite drop_ge in Ht by lia. apply (H (length s)); [done|]. exists t. by rewrite drop_ge by lia.
Qed.

(** Skipping a stretch without occurrences. *)
Lemma find_skip n s m :
  m <= length s -> (forall j, j < m -> ~ occurs n s j) ->
  find n s = (fun i => m + i) <$> find n (drop m s).
Proof.
  intros Hm Hno. destruct (find n (drop m s)) as [i|] eqn:E; simpl.
  - apply find_Some in E as (Hi & [t Ht] & Hno'). rewrite length_drop in Hi. rewrite drop_drop in Ht.
    apply find_Some. split_and!; [lia|by exists t|]. intros j Hj [u Hu].
    destruct (decide (j < m)); [by apply (Hno j); [|exists u]|].
    apply (Hno' (j - m)); [lia|]. exists u. rewrite drop_drop. by replace (m + (j - m)) with j by lia.
  - rewrite find_None in E |- *. intros j Hj [u Hu].
    destruct (decide (j < m)); [by apply (Hno j); [|exists u]|].
    apply (E (j - m)); [rewrite length_drop; lia|]. exists u. rewrite drop_drop.
    by replace (m + (j - m)) with j by lia.
Qed.

(** ** Decoding what was encoded *)

Lemma div64 c : (c = (c / 64) * 64 + c mod 64)%N /\ (c mod 64 < 64)%N.
Proof. pose proof (N.div_mod c 64 ltac:(done)). pose proof (N.mod_lt c 64 ltac:(done)). lia. Qed.

(** The bytes of a char, by length, with the facts the decoder tests. *)
Variant encoding (c : char) : list N -> Prop :=
| enc1 : (c < 128)%N -> encoding c [c]
| enc2 b0 b1 :
    (194 <= b0 <= 223)%N -> (128 <= b1 <= 191)%N -> c = ((b0 - 192) * 64 + (b1 - 128))%N ->
    encoding c [b0; b1]
| enc3 b0 b1 b2 :
    (224 <= b0 <= 239)%N -> second_ok b0 b1 = true -> (128 <= b2 <= 191)%N ->
    c = ((b0 - 224) * 4096 + (b1 - 128) * 64 + (b2 - 128))%N -> encoding c [b0; b1; b2]
| enc4 b0 b1 b2 b3 :
    (240 <= b0 <= 244)%N -> second_ok b0 b1 = true -> (128 <= b2 <= 191)%N -> (128 <= b3 <= 191)%N ->
    c = ((b0 - 240) * 262144 + (b1 - 128) * 4096 + (b2 - 128) * 64 + (b3 - 128))%N ->
    encoding c [b0; b1; b2; b3].

Lemma encode_char_spec c : valid_char c = true -> encoding c (encode_char c).
Proof.
  intros Hv. unfold encode_char, valid_char, in_range in *.
  destruct (div64 c) as [H1 H1'].
  destruct (div64 (c / 64)) as [H2 H2'].
  destruct (div64 (c / 64 / 64)) as [H3 H3'].
  assert (E1 : (c / 64 / 64 = c / 4096)%N) by (by rewrite N.Div0.div_div).
  assert (E2 : (c / 64 / 64 / 64 = c / 262144)%N) by (by rewrite !N.Div0.div_div).
  rewrite E2, !E1 in *.
  revert H1 H1' H2 H2' H3 H3'. generalize (c mod 64)%N, (c / 64)%N as q1. intros r0 q1.
  generalize (q1 mod 64)%N, (c / 4096)%N as q2. intros r1 q2.
  generalize (q2 mod 64)%N, (c / 262144)%N as q3. intros r2 q3 H1 H1' H2 H2' H3 H3'. clear E1 E2.
  destruct (N.ltb_spec c 128); [by apply enc1|].
  destruct (N.ltb_spec c 2048); [apply enc2; lia|].
  destruct (N.ltb_spec c 65536).
  - apply enc3; [lia| |lia|lia]. unfold second_ok, in_range, is_cont.
    repeat case_match; unfold in_range; lia.
  - apply enc4; [lia| |lia|lia|lia]. unfold second_ok, in_range, is_cont.
    repeat case_match; unfold in_range; lia.
Qed.

Lemma decode_char c r :
  valid_char c = true -> decode (encode_char c ++ r) = (c :: (decode r).1, (decode r).2).
Proof.
  intros Hv%encode_char_spec.
  destruct Hv as [H|b0 b1 H0 H1 ->|b0 b1 b2 H0 H1 H2 ->|b0 b1 b2 b3 H0 H1 H2 H3 ->];
    cbn [app decode]; rewrite ?H1; unfold is_cont, in_range;
    repeat (match goal with |- context [if ?b then _ else _] => destruct b eqn:? end; try lia);
    done.
Qed.

Lemma decode_app s r :
  valid_str s -> decode (as_bytes s ++ r) = (s ++ (decode r).1, (decode r).2).
Proof.
  induction 1 as [|c s Hc _ IH]; [apply surjective_pairing|].
  unfold as_bytes. csimpl. fold (as_bytes s). rewrite <- app_assoc, decode_char by done.
  by rewrite IH.
Qed.

(** A char cut short is an incomplete sequence, never an invalid one. *)
Lemma decode_cut c p q :
  valid_char c = true -> encode_char c = p ++ q -> p <> [] -> q <> [] ->
  decode p = ([], Utf8Bad None).
Proof.
  intros Hv%encode_char_spec Hpq Hp Hq. rewrite Hpq in Hv.
  destruct p as [|x0 p]; [done|]. destruct q as [|y0 q]; [done|].
  remember ((x0 :: p) ++ y0 :: q) as l eqn:Hl.
  destruct Hv as [H|b0 b1 H0 H1 ->|b0 b1 b2 H0 H1 H2 ->|b0 b1 b2 b3 H0 H1 H2 H3 ->];
    destruct p as [|x1 [|x2 [|x3 p]]]; simplify_eq/=; try (by destruct p);
    rewrite ?H1; unfold is_cont, in_range;
    repeat (match goal with |- context [if ?b then _ else _] => destruct b eqn:? end; try lia);
    done.
Qed.

Lemma length_encode_char c : lenN (encode_char c) = len_utf8 c.
Proof. unfold encode_char, len_utf8. repeat case_match; done. Qed.
Lemma length_as_bytes s : lenN (as_bytes s) = blen s.
Proof.
  induction s as [|c s IH]; [done|]. unfold as_bytes. csimpl. fold (as_bytes s).
  by rewrite lenN_app, length_encode_char, IH.
Qed.
Lemma encode_char_ne c : encode_char c <> [].
Proof. unfold encode_char. by repeat case_match. Qed.

(** A prefix of encoded text is encoded text followed by less than a char. *)
Lemma as_bytes_prefix s p q :
  as_bytes s = p ++ q ->
  exists s1 s2 cut, s = s1 ++ s2 /\ p = as_bytes s1 ++ cut
    /\ (cut = [] \/ exists c s3 rest, s2 = c :: s3 /\ encode_char c = cut ++ rest /\ rest <> []).
Proof.
  revert p. induction s as [|c s IH]; intros p.
  - intros H. symmetry in H. apply app_nil in H as [-> ->]. exists [], [], []. split_and!; [done..|by left].
  - unfold as_bytes. csimpl. fold (as_bytes s). intros H.
    apply app_eq_app in H as (k & [[Hc Hq]|[Hp Hs]]).
    + destruct k as [|x k].
      * rewrite app_nil_r in Hc. exists [c], s, []. split_and!; [done| |by left].
        unfold as_bytes. csimpl. by rewrite !app_nil_r.
      * exists [], (c :: s), p. split_and!; [done..|]. right. exists c, s, (x :: k). by split_and!.
    + destruct (IH k Hs) as (s1 & s2 & cut & -> & -> & Hcut). exists (c :: s1), s2, cut.
      split_and!; [done| |done]. rewrite Hp. unfold as_bytes. csimpl. by rewrite app_assoc.
Qed.

(** ** UTF-8: what decodes is the encoding of its text *)

Lemma encoding_inv c bs : encoding c bs -> valid_char c = true /\ encode_char c = bs.
Proof.
  intros [H|b0 b1 H0 H1 ->|b0 b1 b2 H0 H1 H2 ->|b0 b1 b2 b3 H0 H1 H2 H3 ->].
  - unfold valid_char, encode_char, in_range. split; [lia|].
    by destruct (N.ltb_spec c 128); [|lia].
  - set (c := ((b0 - 192) * 64 + (b1 - 128))%N).
    assert (Hq : (c / 64 = b0 - 192)%N) by (unfold c; symmetry; apply (N.div_unique _ _ _ (b1 - 128)); lia).
    assert (Hr : (c mod 64 = b1 - 128)%N) by (unfold c; symmetry; apply (N.mod_unique _ _ (b0 - 192)); lia).
    unfold valid_char, encode_char, in_range. rewrite Hq, Hr. split; [lia|].
    destruct (N.ltb_spec c 128); [lia|]. destruct (N.ltb_spec c 2048); [|lia].
    repeat f_equal; lia.
  - assert (H1' : (128 <= b1 <= 191)%N /\ (b0 = 224 -> 160 <= b1)%N /\ (b0 = 237 -> b1 <= 159)%N).
    { unfold second_ok, is_cont, in_range in H1. repeat case_match; lia. }
    set (c := ((b0 - 224) * 4096 + (b1 - 128) * 64 + (b2 - 128))%N).
    assert (Hq : (c / 64 = (b0 - 224) * 64 + (b1 - 128))%N).
    { unfold c; symmetry; apply (N.div_unique _ _ _ (b2 - 128)); lia. }
    assert (Hr : (c mod 64 = b2 - 128)%N).
    { unfold c; symmetry; apply (N.mod_unique _ _ ((b0 - 224) * 64 + (b1 - 128))); lia. }
    assert (Hq2 : (c / 4096 = b0 - 224)%N).
    { unfold c; symmetry; apply (N.div_unique _ _ _ ((b1 - 128) * 64 + (b2 - 128))); lia. }
    assert (Hr2 : (((b0 - 224) * 64 + (b1 - 128)) mod 64 = b1 - 128)%N).
    { symmetry; apply (N.mod_unique _ _ (b0 - 224)); lia. }
    unfold valid_char, encode_char, in_range. rewrite Hq2, Hq, Hr, Hr2. split; [lia|].
    destruct (N.ltb_spec c 128); [lia|]. destruct (N.ltb_spec c 2048); [lia|].
    destruct (N.ltb_spec c 65536); [|lia]. repeat f_equal; lia.
  - assert (H1' : (128 <= b1 <= 191)%N /\ (b0 = 240 -> 144 <= b1)%N /\ (b0 = 244 -> b1 <= 143)%N).
    { unfold second_ok, is_cont, in_range in H1. repeat case_match; lia. }
    set (c := ((b0 - 240) * 262144 + (b1 - 128) * 4096 + (b2 - 128) * 64 + (b3 - 128))%N).
    set (q1 := ((b0 - 240) * 4096 + (b1 - 128) * 64 + (b2 - 128))%N).
    set (q2 := ((b0 - 240) * 64 + (b1 - 128))%N).
    assert (Hq : (c / 64 = q1)%N) by (unfold c, q1; symmetry; apply (N.div_unique _ _ _ (b3 - 128)); lia).
    assert (Hr : (c mod 64 = b3 - 128)%N) by (unfold c; symmetry; apply (N.mod_unique _ _ q1); unfold q1; lia).
    assert (Hq2 : (c / 4096 = q2)%N).
    { unfold c, q2; symmetry; apply (N.div_unique _ _ _ ((b2 - 128) * 64 + (b3 - 128))); lia. }
    assert (Hr2 : (q1 mod 64 = b2 - 128)%N) by (unfold q1; symmetry; apply (N.mod_unique _ _ q2); unfold q2; lia).
    assert (Hq3 : (c / 262144 = b0 - 240)%N).
    { unfold c; symmetry; apply (N.div_unique _ _ _ ((b1 - 128) * 4096 + (b2 - 128) * 64 + (b3 - 128))); lia. }
    assert (Hr3 : (q2 mod 64 = b1 - 128)%N) by (unfold q2; symmetry; apply (N.mod_unique _ _ (b0 - 240)); lia).
    unfold valid_char, encode_char, in_range. rewrite Hq3, Hq2, Hq, Hr, Hr2, Hr3. split; [lia|].
    destruct (N.ltb_spec c 128); [lia|]. destruct (N.ltb_spec c 2048); [lia|].
    destruct (N.ltb_spec c 65536); [lia|]. repeat f_equal; lia.
Qed.

(** One char of a successful decoding. *)
Lemma decode_step bs s :
  decode bs = (s, Utf8Done) ->
  (bs = [] /\ s = []) \/
  exists c enc r s', s = c :: s' /\ bs = enc ++ r /\ encoding c enc /\ decode r = (s', Utf8Done).
Proof.
  destruct bs as [|b0 bs]; [intros [= <-]; by left|]. intros Hd. right.
  assert (Hemit : forall c r, (c :: (decode r).1, (decode r).2) = (s, Utf8Done) ->
            s = c :: (decode r).1 /\ decode r = ((decode r).1, Utf8Done)).
  { intros c r [= <- <-]. split; [done|apply surjective_pairing]. }
  cbn [decode] in Hd.
  destruct (N.ltb_spec b0 128).
  { destruct (Hemit _ _ Hd) as [-> Hr]. exists b0, [b0], bs. eexists. by repeat (split || apply enc1). }
  unfold is_cont, in_range in Hd.
  destruct (_ && _) eqn:E1 in Hd.
  { destruct bs as [|b1 bs]; [done|]. destruct (_ && _) eqn:E2 in Hd; [|done].
    destruct (Hemit _ _ Hd) as [-> Hr]. eexists _, [b0; b1], bs, _.
    split_and!; [done|done|apply enc2; lia|done]. }
  destruct (_ && _) eqn:E2 in Hd.
  { destruct bs as [|b1 bs]; [done|]. destruct (second_ok b0 b1) eqn:E3; [|done].
    destruct bs as [|b2 bs]; [done|]. destruct (_ && _) eqn:E4 in Hd; [|done].
    destruct (Hemit _ _ Hd) as [-> Hr]. eexists _, [b0; b1; b2], bs, _.
    split_and!; [done|done|apply enc3; lia|done]. }
  destruct (_ && _) eqn:E3 in Hd; [|done].
  destruct bs as [|b1 bs]; [done|]. destruct (second_ok b0 b1) eqn:E4; [|done].
  destruct bs as [|b2 bs]; [done|]. destruct (_ && _) eqn:E5 in Hd; [|done].
  destruct bs as [|b3 bs]; [done|]. destruct (_ && _) eqn:E6 in Hd; [|done].
  destruct (Hemit _ _ Hd) as [-> Hr]. eexists _, [b0; b1; b2; b3], bs, _.
  split_and!; [done|done|apply enc4; lia|done].
Qed.

Lemma decode_done bs s : decode bs = (s, Utf8Done) -> valid_str s /\ as_bytes s = bs.
Proof.
  revert bs. induction s as [|c s IH]; intros bs [[-> ?]|(c' & enc & r & s' & ? & -> & He & Hr)]%decode_step;
    simplify_eq; [by repeat constructor|].
  apply encoding_inv in He as [Hv <-]. apply IH in Hr as [Hs <-]. by repeat constructor.
Qed.

Lemma from_utf8_Ok bs s : from_utf8 bs = Ok s <-> valid_str s /\ as_bytes s = bs.
Proof.
  unfold from_utf8. split.
  - destruct (decode bs) as [t []] eqn:E; [|done]. intros [= ->]. by apply decode_done.
  - intros [Hv <-]. rewrite <- (app_nil_r (as_bytes s)), decode_app by done. simpl.
    by rewrite app_nil_r.
Qed.

Lemma as_bytes_app s t : as_bytes (s ++ t) = as_bytes s ++ as_bytes t.
Proof. apply bind_app. Qed.
Lemma as_bytes_cons c s : as_bytes (c :: s) = encode_char c ++ as_bytes s.
Proof. done. Qed.

(** ASCII text is its bytes. *)
Definition ascii (s : str) : Prop := Forall (fun c => (c < 128)%N) s.
Lemma encode_char_ascii c : (c < 128)%N -> encode_char c = [c].
Proof. intros H. unfold encode_char. by destruct (N.ltb_spec c 128); [|lia]. Qed.
Lemma as_bytes_ascii s : ascii s -> as_bytes s = s.
Proof. induction 1 as [|c s Hc _ IH]; [done|]. by rewrite as_bytes_cons, IH, encode_char_ascii. Qed.

(** Lower-casing commutes with encoding. *)
Lemma ascii_lower_high c : (128 <= c)%N -> ascii_lower c = c.
Proof. unfold ascii_lower, in_range. case_match; lia. Qed.
Lemma ascii_lower_idem c : ascii_lower (ascii_lower c) = ascii_lower c.
Proof. unfold ascii_lower, in_range. repeat case_match; lia. Qed.
Lemma encode_char_lower c : encode_char (ascii_lower c) = to_ascii_lowercase (encode_char c).
Proof.
  destruct (N.ltb_spec c 128) as [H|H].
  - rewrite (encode_char_ascii c), encode_char_ascii; [done| |done].
    unfold ascii_lower, in_range. case_match; lia.
  - rewrite ascii_lower_high by done. symmetry. unfold to_ascii_lowercase.
    transitivity (id <$> encode_char c); [|apply list_fmap_id].
    apply list_fmap_ext. intros i b Hb%list_elem_of_lookup_2. apply ascii_lower_high.
    unfold encode_char in Hb. rewrite (proj2 (N.ltb_ge c 128)) in Hb by done.
    unfold id. revert Hb. generalize (c / 64)%N, (c / 4096)%N, (c / 262144)%N, (c mod 64)%N.
    intros q1 q2 q3 r. generalize (q1 mod 64)%N, (q2 mod 64)%N. intros r1 r2.
    repeat case_match; rewrite !elem_of_cons, elem_of_nil; lia.
Qed.
Lemma as_bytes_lower s : as_bytes (to_ascii_lowercase s) = to_ascii_lowercase (as_bytes s).
Proof.
  induction s as [|c s IH]; [done|].
  change (to_ascii_lowercase (c :: s)) with (ascii_lower c :: to_ascii_lowercase s).
  rewrite !as_bytes_cons, IH, encode_char_lower. unfold to_ascii_lowercase. by rewrite fmap_app.
Qed.
Lemma valid_str_lower s : valid_str s -> valid_str (to_ascii_lowercase s).
Proof.
  induction 1 as [|c s Hc _ IH]; constructor; [|done].
  unfold valid_char, ascii_lower, in_range in *. case_match; lia.
Qed.

(** ** Splitting and joining *)

Lemma split_by_ne f s : split_by f s <> [].
Proof. induction s as [|d s IH]; simpl; [done|]. destruct (f d); [done|]. by destruct (split_by f s). Qed.

Lemma split_by_app f s d t :
  Forall (fun c => f c = false) s -> f d = true -> split_by f (s ++ d :: t) = s :: split_by f t.
Proof. induction 1 as [|c s Hc _ IH]; intros Hd; simpl; [by rewrite Hd|]. by rewrite Hc, IH. Qed.

Lemma split_by_none f s : Forall (fun c => f c = false) s -> split_by f s = [s].
Proof. induction 1 as [|c s Hc _ IH]; simpl; [done|]. by rewrite Hc, IH. Qed.

Lemma split_on_join c ss :
  Forall (fun s => c ∉ s) ss -> ss <> [] -> split_on c (join [c] ss) = ss.
Proof.
  intros Hss Hne. destruct Hss as [|s ss Hs Hss]; [done|]. clear Hne. revert s Hs.
  assert (Hok : forall s, c ∉ s -> Forall (fun d => (d =? c)%N = false) s).
  { intros s H. apply Forall_forall. intros d Hd. apply N.eqb_neq. by intros ->. }
  induction Hss as [|t ss Ht Hss IH]; intros s Hs; unfold split_on.
  - apply split_by_none; auto.
  - change (join [c] (s :: t :: ss)) with (s ++ c :: join [c] (t :: ss)).
    rewrite split_by_app by (auto using N.eqb_refl). f_equal. by apply IH.
Qed.

Lemma split_by_pieces f s : Forall (Forall (fun c => f c = false)) (split_by f s).
Proof.
  induction s as [|d s IH]; simpl; [by repeat constructor|]. destruct (f d) eqn:E; [by constructor|].
  destruct (split_by f s); [by repeat constructor|]. inversion IH; subst. by repeat constructor.
Qed.

Lemma join_split_on c s : join [c] (split_on c s) = s.
Proof.
  induction s as [|d s IH]; [done|]. unfold split_on in *. simpl.
  destruct (N.eqb_spec d c) as [->|].
  - destruct (split_by _ s) eqn:E; [by apply split_by_ne in E|]. by rewrite <- IH.
  - destruct (split_by _ s) as [|p [|q ps]] eqn:E; [by apply split_by_ne in E|..]; by rewrite <- IH.
Qed.
