(* ===== verification/PatchText.v ===== *)
(** * PatchText: logical lines and line search of apply_patch

    [Module TextFile] models apply-patch/src/text_file.rs: a file as logical
    lines that keep their own terminators. [Module Seek] models
    apply-patch/src/seek_sequence.rs: the four passes that locate a block of
    lines with decreasing strictness. *)

From S2P Require Import Prelude RustStr.

Module TextFile.

(** [(start index, number of old lines, new lines)] *)
Definition Replacement : Type := nat * nat * list str.

Inductive LineEnding := Lf | CrLf | Cr.

Definition as_str (e : LineEnding) : str :=
  match e with Lf => [nl] | CrLf => [cr; nl] | Cr => [cr] end.

Record SourceLine := mkLine { text : str; ending : option LineEnding }.
Record SourceFile := mkFile { file_lines : list SourceLine; preferred_ending : LineEnding }.

(** The [while cursor < contents.len()] loop of [SourceFile::parse]: [rest] is
    [contents[cursor..]] and [line] is [contents[line_start..cursor]]. *)
Fixpoint parse_loop (rest line : str) (lines : list SourceLine)
    (preferred : option LineEnding) : SourceFile :=
  let push e := lines ++ [mkLine line (Some e)] in
  let pref e := Some (default e preferred) in
  match rest with
  | [] =>
      mkFile (if is_empty line then lines else lines ++ [mkLine line None])
             (default Lf preferred)
  | c :: rest' =>
      if (c =? cr)%N then
        match rest' with
        | d :: rest'' =>
            if (d =? nl)%N then parse_loop rest'' [] (push CrLf) (pref CrLf)
            else parse_loop rest' [] (push Cr) (pref Cr)
        | [] => parse_loop rest' [] (push Cr) (pref Cr)
        end
      else if (c =? nl)%N then parse_loop rest' [] (push Lf) (pref Lf)
      else parse_loop rest' (line ++ [c]) lines preferred
  end.

Definition parse (contents : str) : SourceFile := parse_loop contents [] [] None.

Definition line_texts (f : SourceFile) : list str := text <$> file_lines f.

(** The replacement loop of [apply_replacements]; [None] is the underflow of
    [*start_idx - source_index] (the [debug_assert!]). *)
Fixpoint replace_loop (pref : LineEnding) (replacements : list Replacement)
    (source_lines : list SourceLine) (source_index : nat)
    (new_lines : list SourceLine) : option (list SourceLine) :=
  match replacements with
  | [] => Some (new_lines ++ source_lines)
  | (start_idx, old_len, new_segment) :: rs =>
      if start_idx <? source_index then None
      else
        let keep := start_idx - source_index in
        replace_loop pref rs (drop old_len (drop keep source_lines))
          (start_idx + old_len)
          (new_lines ++ take keep source_lines
             ++ ((fun t => mkLine t (Some pref)) <$> new_segment))
  end.

Definition terminate (pref : LineEnding) (l : SourceLine) : SourceLine :=
  mkLine (text l) (Some (default pref (ending l))).

Definition apply_replacements (f : SourceFile) (rs : list Replacement) : option SourceFile :=
  new_lines ← replace_loop (preferred_ending f) rs (file_lines f) 0 [];
  Some (mkFile (terminate (preferred_ending f) <$> new_lines) (preferred_ending f)).

Definition line_contents (l : SourceLine) : str :=
  text l ++ match ending l with Some e => as_str e | None => [] end.
Definition into_contents (f : SourceFile) : str := file_lines f ≫= line_contents.

(** ** Parsing keeps every byte *)

Lemma parse_loop_contents rest line lines preferred :
  into_contents (parse_loop rest line lines preferred)
  = (lines ≫= line_contents) ++ line ++ rest.
Proof.
  remember (length rest) as n eqn:Hn.
  revert rest Hn line lines preferred.
  induction (lt_wf n) as [n _ IH]; intros rest -> line lines preferred.
  assert (Hstep : forall rest' line' e pref',
    length rest' < length rest ->
    rest = line' ++ rest' -> line' = as_str e ->
    into_contents (parse_loop rest' [] (lines ++ [mkLine line (Some e)]) pref')
    = (lines ≫= line_contents) ++ line ++ rest).
  { intros rest' line' e pref' Hlt Hrest Hline. rewrite (IH (length rest')) by done.
    rewrite bind_app, Hrest, Hline. unfold line_contents at 2. simpl.
    by rewrite app_nil_r, <- !app_assoc. }
  destruct rest as [|c rest]; simpl in *.
  - unfold into_contents. destruct line as [|a line]; simpl.
    + by rewrite app_nil_r.
    + rewrite bind_app. simpl. unfold line_contents at 2. simpl. by rewrite !app_nil_r.
  - destruct (N.eqb_spec c cr) as [->|Hcr].
    + destruct rest as [|d rest]; [by apply (Hstep [] [cr] Cr); simpl; [lia|..]|].
      destruct (N.eqb_spec d nl) as [->|Hnl].
      * by apply (Hstep rest [cr; nl] CrLf); simpl; [lia|..].
      * by apply (Hstep (d :: rest) [cr] Cr); simpl; [lia|..].
    + destruct (N.eqb_spec c nl) as [->|Hnl].
      * by apply (Hstep rest [nl] Lf); simpl; [lia|..].
      * rewrite (IH (length rest)) by (simpl; lia || done). by rewrite <- !app_assoc.
Qed.

(** Splitting a file into logical lines and rebuilding it is the identity:
    no byte of the original is lost, whatever mix of LF, CRLF and CR terminators
    it has and whether or not its last line is terminated. *)
Theorem parse_into_contents (contents : str) :
  into_contents (parse contents) = contents.
Proof. unfold parse. by rewrite parse_loop_contents. Qed.

(** ** Replacements against the original line numbers *)

(** Source-ordered, non-overlapping and within the first [n] lines. *)
Fixpoint replacements_ok (from : nat) (rs : list Replacement) (n : nat) : Prop :=
  match rs with
  | [] => True
  | (s, o, _) :: rs => from <= s /\ s + o <= n /\ replacements_ok (s + o) rs n
  end.

(** One replacement, and a list of them applied from the last to the first, so
    that each start index means the line of the original file. *)
Definition replace_at {A} (r : nat * nat * list A) (l : list A) : list A :=
  take r.1.1 l ++ r.2 ++ drop (r.1.1 + r.1.2) l.
Definition replace_all {A} (rs : list (nat * nat * list A)) (l : list A) : list A :=
  foldr replace_at l rs.

(** The lines a replacement inserts. *)
Definition inserted (pref : LineEnding) (r : Replacement) : nat * nat * list SourceLine :=
  (r.1, (fun t => mkLine t (Some pref)) <$> r.2).

Lemma replacements_ok_weaken from from' rs n :
  from' <= from -> replacements_ok from rs n -> replacements_ok from' rs n.
Proof. destruct rs as [|[[s o] ?] rs]; simpl; [done|]. intros ? (?&?&?). split_and!; [lia|..]; done. Qed.

Lemma replace_all_prefix {A} rs (L : list A) (f : Replacement -> nat * nat * list A) k :
  (forall r, (f r).1 = r.1) ->
  replacements_ok k rs (length L) ->
  take k (replace_all (f <$> rs) L) = take k L.
Proof.
  intros Hf. revert k. induction rs as [|[[s o] new] rs IH]; intros k Hok; [done|].
  destruct Hok as (Hks & Hso & Hok).
  change (replace_all (f <$> (s, o, new) :: rs) L)
    with (replace_at (f (s, o, new)) (replace_all (f <$> rs) L)).
  unfold replace_at. rewrite Hf. simpl.
  rewrite (take_le_eq s (s + o) _ L) by (lia || by apply IH).
  rewrite take_app_le by lens. rewrite take_take. f_equal. lia.
Qed.

Lemma replace_loop_correct pref rs L k new :
  k <= length L -> replacements_ok k rs (length L) ->
  replace_loop pref rs (drop k L) k new
  = Some (new ++ drop k (replace_all (inserted pref <$> rs) L)).
Proof.
  revert k new. induction rs as [|[[s o] seg] rs IH]; intros k new Hk Hok; [done|].
  destruct Hok as (Hks & Hso & Hok). simpl.
  destruct (Nat.ltb_spec s k) as [?|_]; [lia|].
  replace (drop o (drop (s - k) (drop k L))) with (drop (s + o) L)
    by (rewrite !drop_drop; f_equal; lia).
  rewrite IH by (done || lia). f_equal. rewrite <- !app_assoc. f_equal.
  unfold replace_all at 2. simpl. unfold replace_at. simpl.
  fold (replace_all (inserted pref <$> rs) L).
  rewrite (take_le_eq s (s + o) _ L) by (lia || by apply replace_all_prefix).
  rewrite drop_app_le by lens. rewrite skipn_firstn_comm. done.
Qed.

Lemma replace_at_fmap {A B} (f : A -> B) r (l : list A) :
  f <$> replace_at r l = replace_at (r.1, f <$> r.2) (f <$> l).
Proof. unfold replace_at. simpl. by rewrite !fmap_app, fmap_take, fmap_drop. Qed.

Lemma replace_all_texts pref rs (L : list SourceLine) :
  text <$> replace_all (inserted pref <$> rs) L = replace_all rs (text <$> L).
Proof.
  induction rs as [|r rs IH]; [done|].
  change (text <$> replace_at (inserted pref r) (replace_all (inserted pref <$> rs) L)
          = replace_at r (replace_all rs (text <$> L))).
  rewrite replace_at_fmap, IH. unfold inserted. simpl.
  rewrite <- list_fmap_compose. unfold compose. simpl. rewrite list_fmap_id.
  by destruct r.
Qed.

Lemma apply_replacements_spec (f : SourceFile) (rs : list Replacement) :
  replacements_ok 0 rs (length (file_lines f)) ->
  exists f', apply_replacements f rs = Some f'
    /\ file_lines f' = terminate (preferred_ending f)
         <$> replace_all (inserted (preferred_ending f) <$> rs) (file_lines f)
    /\ line_texts f' = replace_all rs (line_texts f)
    /\ Forall (fun l => is_Some (ending l)) (file_lines f').
Proof.
  intros Hok. unfold apply_replacements.
  rewrite (replace_loop_correct _ rs (file_lines f) 0 [] (Nat.le_0_l _) Hok
    : replace_loop _ rs (file_lines f) 0 [] = _).
  simpl. eexists; split_and!; [done|done|..].
  - unfold line_texts. simpl.
    rewrite <- (replace_all_texts (preferred_ending f)), <- list_fmap_compose.
    by apply list_fmap_ext.
  - apply Forall_fmap, Forall_true. intros l. simpl. eauto.
Qed.

(** On source-ordered, non-overlapping replacements [apply_replacements]
    does not panic; the resulting lines are the original lines with every
    replacement applied at its original line number, kept lines keep their own
    terminator, inserted lines get the preferred one, and every line ends up
    terminated. *)
Theorem apply_replacements_correct (f : SourceFile) (rs : list Replacement) :
  replacements_ok 0 rs (length (file_lines f)) ->
  exists f', apply_replacements f rs = Some f'
    /\ file_lines f' = terminate (preferred_ending f)
         <$> replace_all (inserted (preferred_ending f) <$> rs) (file_lines f)
    /\ line_texts f' = replace_all rs (line_texts f)
    /\ Forall (fun l => is_Some (ending l)) (file_lines f').
Proof. apply apply_replacements_spec. Qed.

Lemma apply_replacements_correct_witness :
  let f := parse (lit "a" ++ [cr; nl] ++ lit "b" ++ [nl] ++ lit "c") in
  exists f', apply_replacements f [(1, 1, [lit "x"; lit "y"])] = Some f'
    /\ into_contents f'
       = lit "a" ++ [cr; nl] ++ lit "x" ++ [cr; nl] ++ lit "y" ++ [cr; nl] ++ lit "c" ++ [cr; nl].
Proof.
  simpl.
  destruct (apply_replacements_correct
    (parse (lit "a" ++ [cr; nl] ++ lit "b" ++ [nl] ++ lit "c"))
    [(1, 1, [lit "x"; lit "y"])]) as (f' & Hf & _).
  - vm_compute. lia.
  - exists f'. split; [exact Hf|]. vm_compute in Hf. by injection Hf as <-.
Defined.

End TextFile.

Module Seek.

Definition normalise_char (c : char) : char :=
  (if (in_range 8208 8213 c || (c =? 8722))%N then 45
   else if in_range 8216 8219 c then 39
   else if in_range 8220 8223 c then 34
   else if ((c =? 160) || in_range 8194 8202 c || (c =? 8239) || (c =? 8287) || (c =? 12288))%N
   then 32 else c)%N.
Definition normalise (s : str) : str := normalise_char <$> trim s.

(** One candidate position: every pattern line against the line it faces. *)
Fixpoint matches_at (eqv : str -> str -> bool) (lines pattern : list str) : bool :=
  match pattern, lines with
  | [], _ => true
  | p :: pattern, l :: lines => eqv l p && matches_at eqv lines pattern
  | _ :: _, [] => false
  end.

(** [for i in lo..=hi { if f(i) { return Some(i) } }] *)
Definition first_in (f : nat -> bool) (lo hi : nat) : option nat :=
  List.find f (seq lo (S hi - lo)).

Definition same_by (f : str -> str) (l p : str) : bool := str_eqb (f l) (f p).

(** Where the search starts: at the end of the file for an [eof] chunk. *)
Definition search_start (lines pattern : list str) (start : nat) (eof : bool) : nat :=
  if eof && (length pattern <=? length lines)
  then Nat.max (length lines - length pattern) start else start.

Definition pass (f : str -> str) (lines pattern : list str) (lo : nat) : option nat :=
  first_in (fun i => matches_at (same_by f) (drop i lines) pattern)
           lo (length lines - length pattern).

Definition seek_sequence (lines pattern : list str) (start : nat) (eof : bool) : option nat :=
  if is_empty pattern then Some start
  else if length lines <? length pattern then None
  else
    let lo := search_start lines pattern start eof in
    match pass id lines pattern lo with
    | Some i => Some i
    | None =>
        match pass trim_end lines pattern lo with
        | Some i => Some i
        | None =>
            match pass trim lines pattern lo with
            | Some i => Some i
            | None => pass normalise lines pattern lo
            end
        end
    end.

(** ** Each pass, and how the passes nest *)

Definition match_lines (f : str -> str) (lines pattern : list str) (i : nat) : Prop :=
  f <$> take (length pattern) (drop i lines) = f <$> pattern.

Lemma matches_at_spec f lines pattern :
  matches_at (same_by f) lines pattern = true
  <-> f <$> take (length pattern) lines = f <$> pattern.
Proof.
  revert lines. induction pattern as [|p pattern IH]; intros [|l lines]; csimpl; try done.
  rewrite andb_true_iff, IH. unfold same_by. rewrite str_eqb_eq.
  split; [intros [-> ->]; done | intros [= -> ->]; done].
Qed.

Lemma first_in_Some f lo hi i :
  first_in f lo hi = Some i ->
  lo <= i <= hi /\ f i = true /\ forall j, lo <= j < i -> f j = false.
Proof.
  unfold first_in. remember (S hi - lo) as n eqn:Hn.
  revert lo Hn. induction n as [|n IH]; intros lo Hn; simpl; [done|].
  destruct (f lo) eqn:Hf; [intros [= ->]; split_and!; (lia || done)|].
  intros (?&?&Hlt)%IH; [|lia]. split_and!; [lia|lia|done|].
  intros j Hj. destruct (decide (j = lo)) as [->|]; [done|]. apply Hlt. lia.
Qed.

Lemma first_in_None f lo hi :
  first_in f lo hi = None <-> forall j, lo <= j <= hi -> f j = false.
Proof.
  unfold first_in. split.
  - intros Hnone j Hj. eapply List.find_none in Hnone; [done|]. apply in_seq. lia.
  - intros Hall. destruct (List.find f _) as [i|] eqn:Hf; [|done].
    apply List.find_some in Hf as [Hin Hi]. apply in_seq in Hin.
    rewrite Hall in Hi; [done|lia].
Qed.

Lemma pass_Some f lines pattern lo i :
  pass f lines pattern lo = Some i ->
  lo <= i <= length lines - length pattern /\ match_lines f lines pattern i
  /\ forall j, lo <= j < i -> ~ match_lines f lines pattern j.
Proof.
  intros (?&Hm&Hlt)%first_in_Some. split_and!; [lia|lia|..].
  - by apply matches_at_spec in Hm.
  - intros j Hj Hmj. apply matches_at_spec in Hmj. specialize (Hlt j Hj).
    simpl in Hlt. congruence.
Qed.

Lemma pass_None f lines pattern lo :
  pass f lines pattern lo = None <->
  forall j, lo <= j <= length lines - length pattern -> ~ match_lines f lines pattern j.
Proof.
  unfold pass. rewrite first_in_None. split; intros Hall j Hj.
  - intros Hm. apply matches_at_spec in Hm. specialize (Hall j Hj). simpl in *. congruence.
  - destruct (matches_at _ _ _) eqn:Hm; [|done].
    apply matches_at_spec in Hm. by destruct (Hall j Hj).
Qed.

(** Equality under a function survives a coarser function. *)
Lemma match_lines_coarser g f lines pattern i :
  match_lines f lines pattern i -> match_lines (g ∘ f) lines pattern i.
Proof. unfold match_lines. intros H. rewrite !list_fmap_compose. by rewrite H. Qed.

Lemma match_lines_normalise f lines pattern i :
  f = id \/ f = trim_end \/ f = trim \/ f = normalise ->
  match_lines f lines pattern i -> match_lines normalise lines pattern i.
Proof.
  assert (Htrim : match_lines trim lines pattern i -> match_lines normalise lines pattern i)
    by exact (match_lines_coarser (fmap normalise_char) trim lines pattern i).
  intros Hf. destruct_or! Hf; subst f; intros H; [..|done]; apply Htrim; [..|done].
  - exact (match_lines_coarser trim id _ _ _ H).
  - exact (match_lines_coarser trim_start trim_end _ _ _ H).
Qed.

(** The pass that answered. *)
Lemma seek_sequence_pass lines pattern start eof i :
  pattern <> [] -> seek_sequence lines pattern start eof = Some i ->
  length pattern <= length lines /\
  exists f, (f = id \/ f = trim_end \/ f = trim \/ f = normalise)
    /\ pass f lines pattern (search_start lines pattern start eof) = Some i.
Proof.
  intros Hne. unfold seek_sequence. destruct pattern as [|p ps]; [done|]. simpl is_empty.
  destruct (Nat.ltb_spec (length lines) (length (p :: ps))) as [?|Hle]; [done|].
  intros H. split; [done|].
  repeat match type of H with
  | match ?c with _ => _ end = _ => destruct c eqn:?; [simplify_eq; eauto 8|]
  end. eauto 8.
Qed.

Lemma search_start_bounds lines pattern start eof :
  length pattern <= length lines ->
  start <= search_start lines pattern start eof
  /\ (eof = true -> length lines - length pattern <= search_start lines pattern start eof).
Proof.
  intros Hle. unfold search_start. destruct eof; simpl; [|split; [lia|done]].
  destruct (Nat.leb_spec (length pattern) (length lines)); lia.
Qed.

Lemma seek_sequence_match lines pattern start eof i :
  pattern <> [] -> seek_sequence lines pattern start eof = Some i ->
  start <= i /\ i + length pattern <= length lines
  /\ normalise <$> take (length pattern) (drop i lines) = normalise <$> pattern
  /\ (eof = true -> i = length lines - length pattern).
Proof.
  intros Hne Hs. destruct (seek_sequence_pass _ _ _ _ _ Hne Hs) as (Hle & f & Hf & Hp).
  apply pass_Some in Hp as (Hi & Hm & _).
  destruct (search_start_bounds lines pattern start eof Hle) as [Hlo Heof].
  split_and!; [lia|lia|by eapply match_lines_normalise|].
  intros He. specialize (Heof He). lia.
Qed.

Lemma seek_sequence_bounds lines pattern start eof i :
  start <= length lines -> seek_sequence lines pattern start eof = Some i ->
  start <= i /\ i + length pattern <= length lines.
Proof.
  intros Hle Hs. destruct pattern as [|p ps].
  - injection Hs as ->. simpl. lia.
  - apply seek_sequence_match in Hs; [|done]. tauto.
Qed.

(** A non-empty pattern is only ever found at or after [start], entirely
    inside the file, and at a place where every line agrees with the pattern
    once whitespace is trimmed and typographic punctuation is folded. For an
    end-of-file chunk the only possible answer is the last block of the file:
    the search does not fall back to [start]. *)
Theorem seek_sequence_sound lines pattern start eof i :
  pattern <> [] -> seek_sequence lines pattern start eof = Some i ->
  start <= i /\ i + length pattern <= length lines
  /\ normalise <$> take (length pattern) (drop i lines) = normalise <$> pattern
  /\ (eof = true -> i = length lines - length pattern).
Proof. apply seek_sequence_match. Qed.

Lemma seek_sequence_sound_witness :
  seek_sequence [lit "a"; lit " b "; lit "b"] [lit "b"] 1 true = Some 2
  /\ 1 <= 2.
Proof.
  assert (H : seek_sequence [lit "a"; lit " b "; lit "b"] [lit "b"] 1 true = Some 2)
    by (vm_compute; reflexivity).
  split; [exact H|].
  exact (proj1 (seek_sequence_sound _ _ _ _ _
    (fun E : [lit "b"] = [] => ltac:(discriminate E)) H)).
Defined.

(** The search is complete and prefers strictness over position: it fails
    exactly when no admissible position matches even after normalisation, and
    when some position matches verbatim the answer is the first such one, even
    if an earlier position matches more loosely. *)
Theorem seek_sequence_complete lines pattern start eof :
  pattern <> [] -> length pattern <= length lines ->
  let admissible i := search_start lines pattern start eof <= i /\ i + length pattern <= length lines in
  (seek_sequence lines pattern start eof = None <->
   forall i, admissible i ->
     normalise <$> take (length pattern) (drop i lines) <> normalise <$> pattern)
  /\ (forall i, admissible i -> take (length pattern) (drop i lines) = pattern ->
      (forall j, admissible j -> j < i -> take (length pattern) (drop j lines) <> pattern) ->
      seek_sequence lines pattern start eof = Some i).
Proof.
  intros Hne Hle admissible.
  assert (Hexact : forall i, match_lines id lines pattern i <-> take (length pattern) (drop i lines) = pattern).
  { intros i. unfold match_lines. by rewrite !list_fmap_id. }
  split.
  - split.
    + unfold seek_sequence. destruct pattern as [|p ps]; [done|]. simpl is_empty.
      destruct (Nat.ltb_spec (length lines) (length (p :: ps))) as [?|_]; [lia|].
      repeat case_match; try done. intros Hn i [? ?].
      apply (proj1 (pass_None _ _ _ _) Hn). lia.
    + intros Hall. destruct (seek_sequence lines pattern start eof) as [i|] eqn:Hs; [|done].
      destruct (seek_sequence_pass _ _ _ _ _ Hne Hs) as (_ & f & Hf & Hp).
      apply pass_Some in Hp as (Hi & Hm & _).
      destruct (Hall i); [split; lia|]. by eapply match_lines_normalise.
  - intros i [Hi1 Hi2] Hm Hmin.
    assert (Hp : pass id lines pattern (search_start lines pattern start eof) = Some i).
    { destruct (pass id lines pattern _) as [j|] eqn:Hp.
      - apply pass_Some in Hp as (Hj & Hmj & Hlt). f_equal.
        destruct (lt_eq_lt_dec i j) as [[?|?]|?]; [|done|].
        + destruct (Hlt i); [lia|]. by apply Hexact.
        + destruct (Hmin j); [split; lia|lia|by apply Hexact].
      - destruct (proj1 (pass_None _ _ _ _) Hp i); [lia|]. by apply Hexact. }
    unfold seek_sequence. destruct pattern; [done|]. simpl is_empty.
    destruct (Nat.ltb_spec (length lines) (length (l :: pattern))); [lia|]. by rewrite Hp.
Qed.

Lemma seek_sequence_complete_witness :
  seek_sequence [lit " x"; lit "x"] [lit "x"] 0 false = Some 1.
Proof.
  apply (seek_sequence_complete [lit " x"; lit "x"] [lit "x"] 0 false); simpl.
  - discriminate.
  - lia.
  - unfold search_start. simpl. lia.
  - reflexivity.
  - intros j _ Hj. assert (j = 0) as -> by lia. discriminate.
Defined.

End Seek.
