(* ===== verification/PatchParser.v ===== *)
(** * PatchParser: the patch language of apply_patch

    Models apply-patch/src/parser.rs (hunks, chunks, patch boundaries, lenient
    heredoc wrapping) and apply-patch/src/streaming_parser.rs (the incremental
    line parser). A path is the text the patch spells. *)

From S2P Require Import Prelude RustStr.

Module PatchSyntax.

Definition BEGIN_PATCH_MARKER : str := lit "*** Begin Patch".
Definition END_PATCH_MARKER : str := lit "*** End Patch".
Definition ADD_FILE_MARKER : str := lit "*** Add File: ".
Definition DELETE_FILE_MARKER : str := lit "*** Delete File: ".
Definition UPDATE_FILE_MARKER : str := lit "*** Update File: ".
Definition MOVE_TO_MARKER : str := lit "*** Move to: ".
Definition EOF_MARKER : str := lit "*** End of File".
Definition CHANGE_CONTEXT_MARKER : str := lit "@@ ".
Definition EMPTY_CHANGE_CONTEXT_MARKER : str := lit "@@".
Definition ENVIRONMENT_ID_MARKER : str := lit "*** Environment ID:".

Inductive ParseError :=
| InvalidPatchError (message : str)
| InvalidHunkError (message : str) (line_number : N).

Record UpdateFileChunk := mkChunk {
  change_context : option str;
  old_lines : list str;
  new_lines : list str;
  context_line_indices : list (nat * nat);
  is_end_of_file : bool
}.

Definition default_chunk : UpdateFileChunk := mkChunk None [] [] [] false.

Inductive Hunk :=
| AddFile (path contents : str)
| DeleteFile (path : str)
| UpdateFile (path : str) (move_path : option str) (chunks : list UpdateFileChunk).

(** [Hunk::path]: the move destination for renames. *)
Definition hunk_path (h : Hunk) : str :=
  match h with
  | AddFile p _ => p
  | DeleteFile p => p
  | UpdateFile _ (Some p) _ => p
  | UpdateFile p None _ => p
  end.

(** [UpdateFileChunk::push_context_line] and the added and removed lines. *)
Definition push_context_line (l : str) (c : UpdateFileChunk) : UpdateFileChunk :=
  mkChunk (change_context c) (old_lines c ++ [l]) (new_lines c ++ [l])
    (context_line_indices c ++ [(length (old_lines c), length (new_lines c))])
    (is_end_of_file c).
Definition push_new_line (l : str) (c : UpdateFileChunk) : UpdateFileChunk :=
  mkChunk (change_context c) (old_lines c) (new_lines c ++ [l])
    (context_line_indices c) (is_end_of_file c).
Definition push_old_line (l : str) (c : UpdateFileChunk) : UpdateFileChunk :=
  mkChunk (change_context c) (old_lines c ++ [l]) (new_lines c)
    (context_line_indices c) (is_end_of_file c).
Definition set_end_of_file (c : UpdateFileChunk) : UpdateFileChunk :=
  mkChunk (change_context c) (old_lines c) (new_lines c) (context_line_indices c) true.

(** [chunk.old_lines.is_empty() && chunk.new_lines.is_empty()] *)
Definition chunk_is_empty (c : UpdateFileChunk) : bool :=
  is_empty (old_lines c) && is_empty (new_lines c).

Record ApplyPatchArgs := mkArgs {
  args_patch : str;
  args_hunks : list Hunk;
  args_workdir : option str;
  args_environment_id : option str
}.

End PatchSyntax.

Module Streaming.
Import PatchSyntax.

Inductive StreamingParserMode :=
| NotStarted
| StartedPatch
| AddFileMode
| DeleteFileMode
| UpdateFileMode (hunk_line_number : N)
| EndedPatch.

Record StreamingParserState := mkState {
  mode : StreamingParserMode;
  hunks : list Hunk;
  environment_id : option str
}.

Record StreamingPatchParser := mkParser {
  line_buffer : str;
  state : StreamingParserState;
  line_number : N
}.

Definition default_parser : StreamingPatchParser :=
  mkParser [] (mkState NotStarted [] None) 0.

(** [is_some_and] on the last chunk *)
Definition last_chunk_is (f : UpdateFileChunk -> bool) (cs : list UpdateFileChunk) : bool :=
  match last cs with Some c => f c | None => false end.

Definition unexpected_line (l : str) : str :=
  lit "Unexpected line found in update hunk: '" ++ l
  ++ lit "'. Every line should start with ' ' (context line), '+' (added line), or '-' (removed line)".
Definition expected_context_marker (l : str) : str :=
  lit "Expected update hunk to start with a @@ context marker, got: '" ++ l ++ lit "'".
Definition not_a_hunk_header (l : str) : str :=
  lit "'" ++ l
  ++ lit "' is not a valid hunk header. Valid hunk headers: '*** Add File: {path}', '*** Delete File: {path}', '*** Update File: {path}'".
Definition last_line_message : str := lit "The last line of the patch must be '*** End Patch'".
Definition first_line_message : str := lit "The first line of the patch must be '*** Begin Patch'".

Definition ensure_update_hunk_is_not_empty (st : StreamingParserState) (ln : N) (line : str)
    : result ParseError unit :=
  match last (hunks st) with
  | Some (UpdateFile path _ chunks) =>
      match is_empty chunks, mode st with
      | true, UpdateFileMode hunk_line_number =>
          Err (InvalidHunkError
                 (lit "Update file hunk for path '" ++ path ++ lit "' is empty") hunk_line_number)
      | _, _ =>
          if last_chunk_is chunk_is_empty chunks then
            if str_eqb line END_PATCH_MARKER then
              Err (InvalidHunkError (lit "Update hunk does not contain any lines") ln)
            else Err (InvalidHunkError (unexpected_line line) ln)
          else Ok tt
      end
  | _ => Ok tt
  end.

(** The headers and the end marker; [Ok None] is the source's [Ok(false)]. *)
Definition open_hunk (st : StreamingParserState) (ln : N) (trimmed : str)
    (h : Hunk) (m : StreamingParserMode) : result ParseError (option StreamingParserState) :=
  _ ← ensure_update_hunk_is_not_empty st ln trimmed;
  Ok (Some (mkState m (hunks st ++ [h]) (environment_id st))).

Definition header_or_end (st : StreamingParserState) (ln : N) (trimmed : str)
    : result ParseError (option StreamingParserState) :=
  if str_eqb trimmed END_PATCH_MARKER then
    _ ← ensure_update_hunk_is_not_empty st ln trimmed;
    Ok (Some (mkState EndedPatch (hunks st) (environment_id st)))
  else
    match strip_prefix ADD_FILE_MARKER trimmed with
    | Some path => open_hunk st ln trimmed (AddFile path []) AddFileMode
    | None =>
        match strip_prefix DELETE_FILE_MARKER trimmed with
        | Some path => open_hunk st ln trimmed (DeleteFile path) DeleteFileMode
        | None =>
            match strip_prefix UPDATE_FILE_MARKER trimmed with
            | Some path => open_hunk st ln trimmed (UpdateFile path None []) (UpdateFileMode ln)
            | None => Ok None
            end
        end
    end.

Definition handle_hunk_headers_and_end_patch (st : StreamingParserState) (ln : N) (trimmed : str)
    : result ParseError (option StreamingParserState) :=
  match mode st, strip_prefix ENVIRONMENT_ID_MARKER trimmed with
  | StartedPatch, Some id =>
      match environment_id st with
      | Some _ =>
          Err (InvalidPatchError
                 (lit "apply_patch environment_id cannot be specified more than once"))
      | None =>
          let id := trim id in
          if is_empty id then
            Err (InvalidPatchError (lit "apply_patch environment_id cannot be empty"))
          else Ok (Some (mkState (mode st) (hunks st) (Some id)))
      end
  | _, _ => header_or_end st ln trimmed
  end.

(** A change line goes to the last chunk, opened first if there is none. *)
Definition push_change (f : UpdateFileChunk -> UpdateFileChunk) (chunks : list UpdateFileChunk)
    : list UpdateFileChunk :=
  update_last f (if is_empty chunks then [default_chunk] else chunks).

(** The body of the [UpdateFile] arm once the headers did not match: the new
    [(move_path, chunks)] of the last hunk. *)
Definition update_file_line (move_path : option str) (chunks : list UpdateFileChunk)
    (ln : N) (line : str) : result ParseError (option str * list UpdateFileChunk) :=
  let update_line := trim_end line in
  let is_context_marker :=
    str_eqb update_line EMPTY_CHANGE_CONTEXT_MARKER
    || starts_with CHANGE_CONTEXT_MARKER update_line in
  if last_chunk_is is_end_of_file chunks && is_empty update_line then Ok (move_path, chunks)
  else if last_chunk_is is_end_of_file chunks && negb is_context_marker then
    Err (InvalidHunkError (expected_context_marker line) ln)
  else
    match (if is_empty chunks then
             match move_path with
             | None => strip_prefix MOVE_TO_MARKER update_line
             | Some _ => None
             end
           else None) with
    | Some move_to_path => Ok (Some move_to_path, chunks)
    | None =>
        if is_context_marker && last_chunk_is chunk_is_empty chunks then
          Err (InvalidHunkError (unexpected_line line) ln)
        else if str_eqb update_line EMPTY_CHANGE_CONTEXT_MARKER then
          Ok (move_path, chunks ++ [default_chunk])
        else
          match strip_prefix CHANGE_CONTEXT_MARKER update_line with
          | Some ctx => Ok (move_path, chunks ++ [mkChunk (Some ctx) [] [] [] false])
          | None =>
              if str_eqb update_line EOF_MARKER then
                if last_chunk_is chunk_is_empty chunks then
                  Err (InvalidHunkError (lit "Update hunk does not contain any lines") ln)
                else Ok (move_path, update_last set_end_of_file chunks)
              else
                match line with
                | [] => Ok (move_path, push_change (push_context_line []) chunks)
                | c :: rest =>
                    if (c =? 32)%N then Ok (move_path, push_change (push_context_line rest) chunks)
                    else if (c =? 43)%N then Ok (move_path, push_change (push_new_line rest) chunks)
                    else if (c =? 45)%N then Ok (move_path, push_change (push_old_line rest) chunks)
                    else if last_chunk_is (fun c => negb (chunk_is_empty c)) chunks then
                      Err (InvalidHunkError (expected_context_marker line) ln)
                    else Err (InvalidHunkError (unexpected_line line) ln)
                end
          end
    end.

Definition set_last_hunk (st : StreamingParserState) (h : Hunk) : StreamingParserState :=
  mkState (mode st) (update_last (fun _ => h) (hunks st)) (environment_id st).

Definition process_line (st : StreamingParserState) (ln : N) (line : str)
    : result ParseError StreamingParserState :=
  let trimmed := trim line in
  match mode st with
  | NotStarted =>
      if str_eqb trimmed BEGIN_PATCH_MARKER
      then Ok (mkState StartedPatch (hunks st) (environment_id st))
      else Err (InvalidPatchError first_line_message)
  | StartedPatch | DeleteFileMode =>
      r ← handle_hunk_headers_and_end_patch st ln trimmed;
      match r with
      | Some st' => Ok st'
      | None => Err (InvalidHunkError (not_a_hunk_header trimmed) ln)
      end
  | AddFileMode =>
      r ← handle_hunk_headers_and_end_patch st ln trimmed;
      match r with
      | Some st' => Ok st'
      | None =>
          match line, last (hunks st) with
          | 43%N :: line_to_add, Some (AddFile path contents) =>
              Ok (set_last_hunk st (AddFile path (contents ++ line_to_add ++ [nl])))
          | _, _ => Err (InvalidHunkError (not_a_hunk_header trimmed) ln)
          end
      end
  | UpdateFileMode _ =>
      r ← handle_hunk_headers_and_end_patch st ln (trim_end line);
      match r with
      | Some st' => Ok st'
      | None =>
          match last (hunks st) with
          | Some (UpdateFile path move_path chunks) =>
              '(move_path, chunks) ← update_file_line move_path chunks ln line;
              Ok (set_last_hunk st (UpdateFile path move_path chunks))
          | _ => Err (InvalidHunkError (unexpected_line line) ln)
          end
      end
  | EndedPatch =>
      if is_empty trimmed then Ok st else Err (InvalidPatchError last_line_message)
  end.

(** [push_delta]: the parser is updated in place, so its state is returned next
    to the result; after an error the rest of the delta is not read. *)
Fixpoint push_delta (p : StreamingPatchParser) (delta : str)
    : StreamingPatchParser * result ParseError (list Hunk) :=
  match delta with
  | [] => (p, Ok (hunks (state p)))
  | ch :: delta =>
      if (ch =? nl)%N then
        let line := default (line_buffer p) (strip_suffix [cr] (line_buffer p)) in
        let ln := (line_number p + 1)%N in
        match process_line (state p) ln line with
        | Ok st => push_delta (mkParser [] st ln) delta
        | Err e => (mkParser [] (state p) ln, Err e)
        end
      else push_delta (mkParser (line_buffer p ++ [ch]) (state p) (line_number p)) delta
  end.

Definition finish (p : StreamingPatchParser) : StreamingPatchParser * result ParseError (list Hunk) :=
  let '(p, r) :=
    if is_empty (line_buffer p) then (p, Ok (state p))
    else
      let line := line_buffer p in
      let ln := (line_number p + 1)%N in
      let r :=
        if str_eqb (trim line) END_PATCH_MARKER then
          _ ← ensure_update_hunk_is_not_empty (state p) ln (trim line);
          Ok (mkState EndedPatch (hunks (state p)) (environment_id (state p)))
        else process_line (state p) ln line in
      (mkParser [] (default (state p) (ok r)) ln, r) in
  match r with
  | Err e => (p, Err e)
  | Ok st =>
      match mode st with
      | EndedPatch => (p, Ok (hunks st))
      | _ => (p, Err (InvalidPatchError last_line_message))
      end
  end.

End Streaming.

Module PatchParse.
Import PatchSyntax Streaming.

Inductive ParseMode := Strict | Lenient.
Definition PARSE_IN_STRICT_MODE : bool := false.

Definition check_start_and_end_lines_strict (first_line last_line : option str)
    : result ParseError unit :=
  match trim <$> first_line, trim <$> last_line with
  | Some first, Some last =>
      if str_eqb first BEGIN_PATCH_MARKER && str_eqb last END_PATCH_MARKER then Ok tt
      else if negb (str_eqb first BEGIN_PATCH_MARKER)
      then Err (InvalidPatchError first_line_message)
      else Err (InvalidPatchError last_line_message)
  | Some first, None =>
      if negb (str_eqb first BEGIN_PATCH_MARKER)
      then Err (InvalidPatchError first_line_message)
      else Err (InvalidPatchError last_line_message)
  | None, _ => Err (InvalidPatchError last_line_message)
  end.

Definition check_patch_boundaries_strict (lines : list str) : result ParseError (list str) :=
  _ ← check_start_and_end_lines_strict (head lines) (last lines);
  Ok lines.

Definition is_heredoc_start (l : str) : bool :=
  str_eqb l (lit "<<EOF") || str_eqb l (lit "<<'EOF'")
  || str_eqb l (lit "<<" ++ [dquote] ++ lit "EOF" ++ [dquote]).

Definition check_patch_boundaries_lenient (original_lines : list str)
    : result ParseError (list str) :=
  match check_patch_boundaries_strict original_lines with
  | Ok lines => Ok lines
  | Err original_parse_error =>
      match head original_lines, last original_lines with
      | Some first, Some last =>
          if (2 <=? length original_lines) && is_heredoc_start first
             && ends_with (lit "EOF") last && (4 <=? length original_lines)
          then check_patch_boundaries_strict
                 (take (length original_lines - 2) (drop 1 original_lines))
          else Err original_parse_error
      | _, _ => Err original_parse_error
      end
  end.

Definition parse_patch_text (patch : str) (m : ParseMode) : result ParseError ApplyPatchArgs :=
  let ls := lines (trim patch) in
  patch_lines ← match m with
                | Strict => check_patch_boundaries_strict ls
                | Lenient => check_patch_boundaries_lenient ls
                end;
  let patch := join [nl] patch_lines in
  let '(p, r) := push_delta default_parser patch in
  _ ← r;
  let '(p, r) := finish p in
  hunks ← r;
  Ok (mkArgs patch hunks None (environment_id (state p))).

Definition parse_patch (patch : str) : result ParseError ApplyPatchArgs :=
  parse_patch_text patch (if PARSE_IN_STRICT_MODE then Strict else Lenient).

End PatchParse.

(** ** The parser is incremental *)
Module StreamingFacts.
Import PatchSyntax Streaming.

(** Deltas pushed one after the other; an error stops the stream. *)
Fixpoint push_deltas (p : StreamingPatchParser) (ds : list str)
    : StreamingPatchParser * result ParseError (list Hunk) :=
  match ds with
  | [] => (p, Ok (hunks (state p)))
  | d :: ds =>
      match push_delta p d with
      | (p', Ok _) => push_deltas p' ds
      | (p', Err e) => (p', Err e)
      end
  end.

Lemma push_delta_app p a b :
  push_delta p (a ++ b)
  = match push_delta p a with
    | (p', Ok _) => push_delta p' b
    | (p', Err e) => (p', Err e)
    end.
Proof.
  revert p. induction a as [|c a IH]; intros p; simpl; [done|].
  destruct (N.eqb c nl); [|apply IH].
  destruct (process_line _ _ _); [apply IH|done].
Qed.

Lemma push_deltas_eq p ds : push_deltas p ds = push_delta p (concat ds).
Proof.
  revert p. induction ds as [|d ds IH]; intros p; simpl; [done|].
  rewrite push_delta_app. destruct (push_delta p d) as [p' [hs|e]]; [apply IH|done].
Qed.

(** How a patch is cut into deltas does not matter. Pushing any sequence of
    deltas leaves the parser in the same state, with the same hunks or the same
    error, as pushing their concatenation at once; so does finishing. *)
Theorem push_deltas_concat (p : StreamingPatchParser) (ds : list str) :
  push_deltas p ds = push_delta p (concat ds)
  /\ finish (push_deltas p ds).1 = finish (push_delta p (concat ds)).1.
Proof. by rewrite push_deltas_eq. Qed.

(** ** Complete lines *)

Lemma push_delta_buffer b st n l d :
  nl ∉ l -> push_delta (mkParser b st n) (l ++ d) = push_delta (mkParser (b ++ l) st n) d.
Proof.
  revert b. induction l as [|c l IH]; intros b Hnl; simpl; [by rewrite app_nil_r|].
  destruct (N.eqb_spec c nl) as [->|?]; [set_solver|].
  rewrite IH by set_solver. by rewrite <- app_assoc.
Qed.

Lemma push_delta_line st n l d :
  line_ok l ->
  push_delta (mkParser [] st n) ((l ++ [nl]) ++ d)
  = match process_line st (n + 1) l with
    | Ok st' => push_delta (mkParser [] st' (n + 1)) d
    | Err e => (mkParser [] st (n + 1), Err e)
    end.
Proof.
  intros [Hnl Hcr]. rewrite <- app_assoc, push_delta_buffer by done.
  simpl. by rewrite Hcr.
Qed.

(** [st] after the lines [ls], the first one having number [n + 1]. *)
Fixpoint run_lines (st : StreamingParserState) (n : N) (ls : list str)
    : result ParseError StreamingParserState :=
  match ls with
  | [] => Ok st
  | l :: ls => st ← process_line st (n + 1) l; run_lines st (n + 1) ls
  end.

Lemma run_lines_app st n ls ks :
  run_lines st n (ls ++ ks)
  = (st ← run_lines st n ls; run_lines st (n + lenN ls) ks).
Proof.
  revert st n. induction ls as [|l ls IH]; intros st n; simpl.
  { by rewrite N.add_0_r. }
  destruct (process_line st (n + 1) l) as [st'|e]; simpl; [|done].
  rewrite IH. destruct (run_lines st' (n + 1) ls); simpl; [|done].
  f_equal. rewrite lenN_cons. lia.
Qed.

Lemma push_delta_run st n ls d st' :
  Forall line_ok ls -> run_lines st n ls = Ok st' ->
  push_delta (mkParser [] st n) ((ls ≫= (fun x => x ++ [nl])) ++ d)
  = push_delta (mkParser [] st' (n + lenN ls)) d.
Proof.
  intros Hls. revert st n. induction Hls as [|l ls Hl _ IH]; intros st n; simpl.
  - intros [= ->]. by rewrite N.add_0_r.
  - intros (st1 & Hst1 & Hrun)%result_bind_Ok.
    rewrite <- (app_assoc (l ++ [nl])), push_delta_line, Hst1 by done.
    rewrite IH by done. rewrite lenN_cons. do 2 f_equal. lia.
Qed.

End StreamingFacts.

(** ** Parsed chunks are well formed *)
Module ChunkFacts.
Import PatchSyntax Streaming.

(** Context indices grow on both sides and point at equal lines. *)
Fixpoint indices_ok (i j : nat) (ctx : list (nat * nat)) (olds news : list str) : Prop :=
  match ctx with
  | [] => True
  | (o, n) :: ctx =>
      i <= o /\ j <= n /\ (exists l, olds !! o = Some l /\ news !! n = Some l)
      /\ indices_ok (S o) (S n) ctx olds news
  end.

Definition wf_chunk (c : UpdateFileChunk) : Prop :=
  indices_ok 0 0 (context_line_indices c) (old_lines c) (new_lines c).
Definition good_chunk (c : UpdateFileChunk) : Prop :=
  wf_chunk c /\ chunk_is_empty c = false.

Lemma indices_ok_extend i j ctx olds news olds' news' :
  indices_ok i j ctx olds news -> indices_ok i j ctx (olds ++ olds') (news ++ news').
Proof.
  revert i j. induction ctx as [|[o n] ctx IH]; intros i j; simpl; [done|].
  intros (Hi & Hj & (l & Ho & Hn) & H). split_and!; [done|done| |by apply IH].
  exists l. by rewrite !lookup_app_l_Some with (x := l).
Qed.

Lemma indices_ok_snoc i j ctx olds news l :
  indices_ok i j ctx olds news -> i <= length olds -> j <= length news ->
  indices_ok i j (ctx ++ [(length olds, length news)]) (olds ++ [l]) (news ++ [l]).
Proof.
  revert i j. induction ctx as [|[o n] ctx IH]; intros i j; simpl.
  - intros _ Hi Hj. split_and!; [done|done| |done].
    exists l. by rewrite !lookup_app_r, !Nat.sub_diag by lia.
  - intros (Hi & Hj & (k & Ho & Hn) & H) _ _. split_and!; [done|done|..].
    + exists k. by rewrite !lookup_app_l_Some with (x := k).
    + apply IH; [done|by eapply lookup_lt_Some..].
Qed.

Lemma wf_push_context_line l c : wf_chunk c -> good_chunk (push_context_line l c).
Proof.
  intros H. split; [apply indices_ok_snoc; [done|lia..]|].
  unfold chunk_is_empty. simpl. by destruct (old_lines c).
Qed.
Lemma wf_push_new_line l c : wf_chunk c -> good_chunk (push_new_line l c).
Proof.
  intros H. split.
  - unfold wf_chunk. simpl. rewrite <- (app_nil_r (old_lines c)). by apply indices_ok_extend.
  - unfold chunk_is_empty. simpl. by destruct (old_lines c), (new_lines c).
Qed.
Lemma wf_push_old_line l c : wf_chunk c -> good_chunk (push_old_line l c).
Proof.
  intros H. split.
  - unfold wf_chunk. simpl. rewrite <- (app_nil_r (new_lines c)). by apply indices_ok_extend.
  - unfold chunk_is_empty. simpl. by destruct (old_lines c).
Qed.

(** The chunks of a finished update hunk, and of one still being read: only its
    last chunk may have no lines yet. *)
Definition chunks_done (cs : list UpdateFileChunk) : Prop := cs <> [] /\ Forall good_chunk cs.
Definition chunks_open (cs : list UpdateFileChunk) : Prop :=
  cs = [] \/ exists cs' c, cs = cs' ++ [c] /\ Forall good_chunk cs' /\ wf_chunk c.

Definition hunk_done (h : Hunk) : Prop :=
  match h with UpdateFile _ _ cs => chunks_done cs | _ => True end.

Definition inv (st : StreamingParserState) : Prop :=
  match mode st with
  | NotStarted | StartedPatch | EndedPatch => Forall hunk_done (hunks st)
  | AddFileMode =>
      exists hs p c, hunks st = hs ++ [AddFile p c] /\ Forall hunk_done hs
  | DeleteFileMode =>
      exists hs p, hunks st = hs ++ [DeleteFile p] /\ Forall hunk_done hs
  | UpdateFileMode _ =>
      exists hs p mv cs, hunks st = hs ++ [UpdateFile p mv cs]
        /\ Forall hunk_done hs /\ chunks_open cs
  end.

Lemma last_chunk_is_snoc f cs c : last_chunk_is f (cs ++ [c]) = f c.
Proof. unfold last_chunk_is. by rewrite last_snoc. Qed.

Lemma chunks_open_done cs :
  chunks_open cs -> cs <> [] -> last_chunk_is chunk_is_empty cs = false -> chunks_done cs.
Proof.
  intros [->|(cs' & c & -> & Hcs & Hc)] Hne; [done|].
  rewrite last_chunk_is_snoc. intros Hlast. split; [done|].
  apply Forall_app. split; [done|]. by repeat constructor.
Qed.

Lemma chunks_open_push cs c :
  chunks_open cs -> last_chunk_is chunk_is_empty cs = false -> wf_chunk c ->
  chunks_open (cs ++ [c]).
Proof.
  intros Hopen Hlast Hc. right. exists cs, c. split_and!; [done| |done].
  destruct Hopen as [->|Hopen]; [done|].
  eapply chunks_open_done; [by right| |done]. destruct Hopen as (?&?&->&_). by destruct x.
Qed.

Lemma chunks_open_update f cs :
  (forall c, wf_chunk c -> wf_chunk (f c)) -> chunks_open cs -> chunks_open (update_last f cs).
Proof.
  intros Hf [->|(cs' & c & -> & Hcs & Hc)]; [by left|].
  rewrite update_last_snoc. right. exists cs', (f c). auto.
Qed.

Lemma chunks_open_change f cs :
  (forall c, wf_chunk c -> good_chunk (f c)) -> chunks_open cs -> chunks_open (push_change f cs).
Proof.
  intros Hf Hopen. unfold push_change.
  apply chunks_open_update; [intros c Hc; apply Hf, Hc|].
  destruct cs; simpl; [|done]. right. by exists [], default_chunk.
Qed.

Lemma update_file_line_open mv cs ln line mv' cs' :
  chunks_open cs -> update_file_line mv cs ln line = Ok (mv', cs') -> chunks_open cs'.
Proof.
  intros Hopen. unfold update_file_line.
  repeat case_match; intros; simplify_eq; try done;
    try (apply chunks_open_change; [|done];
         auto using wf_push_context_line, wf_push_new_line, wf_push_old_line).
  all: try (apply chunks_open_update; [by intros|done]).
  all: apply chunks_open_push; [done| |done].
  all: unfold starts_with in *;
    repeat match goal with
    | H : strip_prefix CHANGE_CONTEXT_MARKER _ = Some _ |- _ => rewrite H in *; clear H
    end; rewrite ?orb_true_r in *; by simpl in *.
Qed.

Lemma ensure_done st ln line :
  inv st -> ensure_update_hunk_is_not_empty st ln line = Ok tt -> Forall hunk_done (hunks st).
Proof.
  unfold inv, ensure_update_hunk_is_not_empty.
  destruct (mode st) as [| | | |hln|] eqn:Hm; try done.
  - intros (hs & p & c & -> & Hhs) _. apply Forall_app. by repeat constructor.
  - intros (hs & p & -> & Hhs) _. apply Forall_app. by repeat constructor.
  - intros (hs & p & mv & cs & -> & Hhs & Hcs). rewrite last_snoc.
    destruct (is_empty cs) eqn:He; [done|].
    destruct (last_chunk_is chunk_is_empty cs) eqn:Hl; [by case_match|]. intros _.
    apply Forall_app. split; [done|]. constructor; [|done].
    apply chunks_open_done; [done| |done]. by intros ->.
Qed.

Lemma open_hunk_inv st ln l h m st' :
  inv st -> open_hunk st ln l h m = Ok (Some st') ->
  (forall hs, Forall hunk_done hs -> inv (mkState m (hs ++ [h]) (environment_id st))) -> inv st'.
Proof.
  intros Hinv ([] & He & [= <-])%result_bind_Ok Hh. apply Hh. by eapply ensure_done.
Qed.

Lemma header_or_end_inv st ln l st' :
  inv st -> header_or_end st ln l = Ok (Some st') -> inv st'.
Proof.
  intros Hinv. unfold header_or_end.
  repeat case_match; intros H'; try done;
    try (eapply open_hunk_inv; [done..|]; intros hs Hhs; unfold inv; simpl; eauto 8).
  - apply result_bind_Ok in H' as ([] & He & [= <-]).
    apply (ensure_done _ _ _ Hinv He).
  - exists hs, l0, None, []. split_and!; [done|done|by left].
Qed.

Lemma handle_headers_inv st ln l st' :
  inv st -> handle_hunk_headers_and_end_patch st ln l = Ok (Some st') -> inv st'.
Proof.
  intros Hinv. unfold handle_hunk_headers_and_end_patch.
  repeat case_match; intros H'; try done; try (by eapply header_or_end_inv).
  simplify_eq. unfold inv in *. simpl. by rewrite H in *.
Qed.

(** Every line the parser accepts keeps the invariant. *)
Lemma process_line_inv st ln line st' :
  inv st -> process_line st ln line = Ok st' -> inv st'.
Proof.
  intros Hinv. unfold process_line. destruct (mode st) as [| | | |hln|] eqn:Hm.
  - case_match; [|done]. intros [= <-]. unfold inv in *. simpl. by rewrite Hm in *.
  - intros ([st1|] & Hh & H)%result_bind_Ok; simplify_eq. by eapply handle_headers_inv.
  - intros ([st1|] & Hh & H)%result_bind_Ok; simplify_eq; [by eapply handle_headers_inv|].
    pose proof Hinv as Hinv'. unfold inv in Hinv'. rewrite Hm in Hinv'.
    destruct Hinv' as (hs & p & c & Hhs & Hdone). rewrite Hhs, last_snoc in H.
    repeat case_match; simplify_eq. unfold inv, set_last_hunk. simpl.
    rewrite Hm, Hhs, update_last_snoc. eauto.
  - intros ([st1|] & Hh & H)%result_bind_Ok; simplify_eq. by eapply handle_headers_inv.
  - intros ([st1|] & Hh & H)%result_bind_Ok; simplify_eq; [by eapply handle_headers_inv|].
    pose proof Hinv as Hinv'. unfold inv in Hinv'. rewrite Hm in Hinv'.
    destruct Hinv' as (hs & p & mv & cs & Hhs & Hdone & Hopen). rewrite Hhs, last_snoc in H.
    apply result_bind_Ok in H as ([mv' cs'] & Hu & [= <-]).
    unfold inv, set_last_hunk. simpl. rewrite Hm, Hhs, update_last_snoc.
    exists hs, p, mv', cs'. split_and!; [done|done|]. by eapply update_file_line_open.
  - case_match; [|done]. by intros [= <-].
Qed.

Lemma push_delta_inv p d : inv (state p) -> inv (state (push_delta p d).1).
Proof.
  revert p. induction d as [|c d IH]; intros p Hp; simpl; [done|].
  destruct (N.eqb c nl); [|by apply IH].
  destruct (process_line _ _ _) as [st|e] eqn:Hl; [|done].
  apply IH. by eapply process_line_inv.
Qed.

Lemma finish_hunks_done p hs :
  inv (state p) -> (finish p).2 = Ok hs -> Forall hunk_done hs.
Proof.
  intros Hinv.
  assert (Hfinal : forall st, inv st -> mode st = EndedPatch -> Forall hunk_done (hunks st)).
  { intros st H Hm. unfold inv in H. by rewrite Hm in H. }
  unfold finish. destruct (is_empty (line_buffer p)); simpl.
  { destruct (mode (state p)) eqn:Hm; try done. intros [= <-]. by apply Hfinal. }
  destruct (str_eqb _ _).
  - destruct (ensure_update_hunk_is_not_empty _ _ _) as [[]|e] eqn:He; simpl; [|done].
    intros [= <-]. by eapply ensure_done.
  - destruct (process_line _ _ _) as [st|e] eqn:Hl; simpl; [|done].
    destruct (mode st) eqn:Hm; try done. intros [= <-].
    apply Hfinal; [by eapply process_line_inv|done].
Qed.

Lemma parse_patch_hunks_done patch args :
  PatchParse.parse_patch patch = Ok args -> Forall hunk_done (args_hunks args).
Proof.
  unfold PatchParse.parse_patch, PatchParse.parse_patch_text. generalize (lines (trim patch)). intros ls H.
  apply result_bind_Ok in H as (pls & _ & H).
  pose proof (push_delta_inv default_parser (join [nl] pls)) as Hi.
  destruct (push_delta default_parser (join [nl] pls)) as [p r].
  apply result_bind_Ok in H as (? & _ & H).
  pose proof (finish_hunks_done p) as Hf. destruct (finish p) as [p' r'].
  apply result_bind_Ok in H as (hs & -> & [= <-]). simpl in *. apply Hf; [|done].
  apply Hi. by constructor.
Qed.

(** What the parser hands out is well formed. After any input that the
    parser accepts, however it was cut into deltas, every update hunk has at
    least one chunk, no chunk is without lines, and the context indices of a
    chunk grow strictly on both sides and point at equal old and new lines. *)
Theorem finish_hunks_well_formed (ds : list str) hs :
  (finish (StreamingFacts.push_deltas default_parser ds).1).2 = Ok hs -> Forall hunk_done hs.
Proof.
  rewrite StreamingFacts.push_deltas_eq. apply finish_hunks_done, push_delta_inv. by constructor.
Qed.

Lemma finish_hunks_well_formed_witness :
  Forall hunk_done
    [UpdateFile (lit "f") None [mkChunk (Some (lit "c")) [lit "a"; lit "b"] [lit "a"] [(0, 0)] false]].
Proof.
  apply (finish_hunks_well_formed
    [lit "*** Begin Patch" ++ [nl] ++ lit "*** Update File: f" ++ [nl] ++ lit "@@ c" ++ [nl];
     lit " a" ++ [nl] ++ lit "-b" ++ [nl] ++ lit "*** End Patch"]).
  vm_compute. reflexivity.
Defined.

End ChunkFacts.

(** ** Printing a patch and parsing it back *)
Module RoundTrip.
Import PatchSyntax Streaming StreamingFacts PatchParse.

(** The abstract syntax of the grammar in parser.rs. *)
Inductive change := Keep (l : str) | Insert (l : str) | Remove (l : str).
Record chunk_src := mkChunkSrc {
  src_context : option str; src_changes : list change; src_eof : bool }.
Inductive hunk_src :=
| SAdd (path : str) (ls : list str)
| SDelete (path : str)
| SUpdate (path : str) (move_to : option str) (cs : list chunk_src).

Definition print_change (c : change) : str :=
  match c with
  | Keep l => lit " " ++ l
  | Insert l => lit "+" ++ l
  | Remove l => lit "-" ++ l
  end.
Definition print_chunk (c : chunk_src) : list str :=
  (match src_context c with
   | Some ctx => CHANGE_CONTEXT_MARKER ++ ctx
   | None => EMPTY_CHANGE_CONTEXT_MARKER
   end :: (print_change <$> src_changes c)) ++ (if src_eof c then [EOF_MARKER] else []).
Definition print_hunk (h : hunk_src) : list str :=
  match h with
  | SAdd p ls => (ADD_FILE_MARKER ++ p) :: (app (lit "+") <$> ls)
  | SDelete p => [DELETE_FILE_MARKER ++ p]
  | SUpdate p mv cs =>
      (UPDATE_FILE_MARKER ++ p)
      :: match mv with Some q => [MOVE_TO_MARKER ++ q] | None => [] end
      ++ (cs ≫= print_chunk)
  end.
Definition print_patch (hs : list hunk_src) : str :=
  join [nl] ((BEGIN_PATCH_MARKER :: (hs ≫= print_hunk)) ++ [END_PATCH_MARKER]).

(** What it denotes. *)
Definition push_change_src (c : UpdateFileChunk) (x : change) : UpdateFileChunk :=
  match x with
  | Keep l => push_context_line l c
  | Insert l => push_new_line l c
  | Remove l => push_old_line l c
  end.
Definition chunk_of (c : chunk_src) : UpdateFileChunk :=
  let body := foldl push_change_src (mkChunk (src_context c) [] [] [] false) (src_changes c) in
  if src_eof c then set_end_of_file body else body.
Definition hunk_of (h : hunk_src) : Hunk :=
  match h with
  | SAdd p ls => AddFile p (ls ≫= (fun l => l ++ [nl]))
  | SDelete p => DeleteFile p
  | SUpdate p mv cs => UpdateFile p mv (chunk_of <$> cs)
  end.

(** A name (path or context) as the grammar can spell it: one line, not empty,
    no trailing blank. *)
Definition name_ok (p : str) : Prop := p <> [] /\ (nl ∉ p) /\ trim_end p = p.
Definition change_ok (c : change) : Prop :=
  match c with Keep l | Insert l | Remove l => line_ok l end.
Definition chunk_ok (c : chunk_src) : Prop :=
  src_changes c <> [] /\ Forall change_ok (src_changes c)
  /\ match src_context c with Some x => name_ok x | None => True end.
Definition hunk_ok (h : hunk_src) : Prop :=
  match h with
  | SAdd p ls => name_ok p /\ Forall line_ok ls
  | SDelete p => name_ok p
  | SUpdate p mv cs =>
      name_ok p /\ match mv with Some q => name_ok q | None => True end
      /\ cs <> [] /\ Forall chunk_ok cs
  end.

(** Lines that are not headers. *)
Lemma trim_end_name m p :
  name_ok p -> trim_end (m ++ p) = m ++ p.
Proof.
  intros (Hne & _ & Ht). destruct p as [|c p]; [done|].
  by rewrite (trim_end_app_nonspace m _ c p), Ht.
Qed.

Lemma header_or_end_other st ln s :
  head s <> Some 42%N -> header_or_end st ln s = Ok None.
Proof.
  intros Hc. unfold header_or_end.
  rewrite (str_eqb_head_ne 42%N), !(strip_prefix_head_ne 42%N) by (reflexivity || done). done.
Qed.

Lemma head_trim_end c s : head (trim_end (c :: s)) = Some c \/ trim_end (c :: s) = [].
Proof. rewrite trim_end_cons. case_match; auto. Qed.

(** In the body of an update hunk a line that starts with a change marker is
    that change. *)
Lemma process_change st ln n x hs p mv cs c :
  mode st = UpdateFileMode n -> hunks st = hs ++ [UpdateFile p mv (cs ++ [c])] ->
  is_end_of_file c = false ->
  process_line st ln (print_change x)
  = Ok (mkState (UpdateFileMode n) (hs ++ [UpdateFile p mv (cs ++ [push_change_src c x])])
          (environment_id st)).
Proof.
  intros Hm Hh Heof.
  assert (Hx : exists a l, print_change x = a :: l /\ (a = 32 \/ a = 43 \/ a = 45)%N
    /\ push_change_src c x
       = (if (a =? 32)%N then push_context_line l
          else if (a =? 43)%N then push_new_line l else push_old_line l) c).
  { destruct x as [l|l|l]; simpl; eexists _, l; (split; [reflexivity|]; auto). }
  destruct Hx as (a & l & -> & Ha & ->).
  assert (Hhead : forall b, b <> 32%N -> b <> 43%N -> b <> 45%N -> head (trim_end (a :: l)) <> Some b).
  { intros b ???. destruct (head_trim_end a l) as [->| ->]; [|done]. naive_solver. }
  unfold process_line. rewrite Hm. unfold handle_hunk_headers_and_end_patch. rewrite Hm.
  rewrite header_or_end_other by (by apply Hhead). simpl mbind.
  unfold mbind, result_bind. rewrite Hh, last_snoc.
  unfold update_file_line, last_chunk_is. rewrite last_snoc, Heof. simpl andb. cbv iota.
  replace (is_empty (cs ++ [c])) with false by (by destruct cs).
  unfold starts_with.
  rewrite !(str_eqb_head_ne 64%N) by (reflexivity || by apply Hhead).
  rewrite !(strip_prefix_head_ne 64%N) by (reflexivity || by apply Hhead).
  rewrite !(str_eqb_head_ne 42%N) by (reflexivity || by apply Hhead).
  simpl orb. simpl andb. cbv iota.
  unfold push_change. replace (is_empty (cs ++ [c])) with false by (by destruct cs).
  rewrite !update_last_snoc.
  destruct Ha as [->|[->| ->]]; simpl; unfold set_last_hunk;
    by rewrite Hh, Hm, update_last_snoc.
Qed.

Lemma process_context_marker st ln n c hs p mv cs :
  mode st = UpdateFileMode n -> hunks st = hs ++ [UpdateFile p mv cs] ->
  last_chunk_is chunk_is_empty cs = false -> chunk_ok c ->
  process_line st ln
    match src_context c with
    | Some ctx => CHANGE_CONTEXT_MARKER ++ ctx
    | None => EMPTY_CHANGE_CONTEXT_MARKER
    end
  = Ok (mkState (UpdateFileMode n)
          (hs ++ [UpdateFile p mv (cs ++ [mkChunk (src_context c) [] [] [] false])])
          (environment_id st)).
Proof.
  intros Hm Hh Hl (_ & _ & Hctx).
  set (line := match src_context c with Some _ => _ | None => _ end).
  assert (Ht : trim_end line = line).
  { unfold line. destruct (src_context c); [by apply trim_end_name|reflexivity]. }
  assert (Hhead : head line = Some 64%N) by (unfold line; by destruct (src_context c)).
  assert (Hmark : str_eqb line EMPTY_CHANGE_CONTEXT_MARKER
                  || starts_with CHANGE_CONTEXT_MARKER line = true).
  { unfold line. destruct (src_context c); [|done]. unfold starts_with.
    rewrite strip_prefix_app. apply orb_true_r. }
  unfold process_line. rewrite Hm. unfold handle_hunk_headers_and_end_patch. rewrite Hm.
  rewrite Ht, header_or_end_other by (rewrite Hhead; done).
  unfold mbind, result_bind. rewrite Hh, last_snoc.
  unfold update_file_line. rewrite Ht, Hmark, Hl.
  replace (is_empty line) with false by (unfold line; by destruct (src_context c)).
  rewrite !andb_false_r, (strip_prefix_head_ne 42%N MOVE_TO_MARKER) by (rewrite ?Hhead; done).
  replace (if is_empty cs then match mv with None => None | Some _ => None end else None)
    with (@None str) by (by destruct (is_empty cs), mv).
  unfold line. destruct (src_context c) as [ctx|]; simpl.
  - destruct Hctx as (Hne & _). destruct ctx as [|a ctx]; [done|].
    replace (str_eqb (CHANGE_CONTEXT_MARKER ++ a :: ctx) EMPTY_CHANGE_CONTEXT_MARKER)
      with false by reflexivity.
    unfold set_last_hunk. by rewrite Hh, Hm, update_last_snoc.
  - unfold set_last_hunk. by rewrite Hh, Hm, update_last_snoc.
Qed.

Lemma process_eof st ln n hs p mv cs c :
  mode st = UpdateFileMode n -> hunks st = hs ++ [UpdateFile p mv (cs ++ [c])] ->
  is_end_of_file c = false -> chunk_is_empty c = false ->
  process_line st ln EOF_MARKER
  = Ok (mkState (UpdateFileMode n) (hs ++ [UpdateFile p mv (cs ++ [set_end_of_file c])])
          (environment_id st)).
Proof.
  intros Hm Hh Heof Hne. unfold process_line. rewrite Hm.
  unfold handle_hunk_headers_and_end_patch. rewrite Hm.
  replace (header_or_end st ln (trim_end EOF_MARKER)) with
    (Ok (E := ParseError) (@None StreamingParserState)) by (vm_compute; reflexivity).
  unfold mbind, result_bind. rewrite Hh, last_snoc. unfold update_file_line.
  rewrite !ChunkFacts.last_chunk_is_snoc, Heof, Hne.
  replace (is_empty (cs ++ [c])) with false by (by destruct cs).
  replace (trim_end EOF_MARKER) with EOF_MARKER by (vm_compute; reflexivity).
  replace (str_eqb EOF_MARKER EOF_MARKER) with true by reflexivity.
  unfold set_last_hunk. rewrite update_last_snoc. simpl. by rewrite Hh, Hm, update_last_snoc.
Qed.

Lemma run_changes xs : forall st ln n hs p mv cs c,
  mode st = UpdateFileMode n -> hunks st = hs ++ [UpdateFile p mv (cs ++ [c])] ->
  is_end_of_file c = false ->
  run_lines st ln (print_change <$> xs)
  = Ok (mkState (UpdateFileMode n)
          (hs ++ [UpdateFile p mv (cs ++ [foldl push_change_src c xs])]) (environment_id st)).
Proof.
  induction xs as [|x xs IH]; intros st ln n hs p mv cs c Hm Hh Heof; csimpl.
  - rewrite <- Hh, <- Hm. by destruct st.
  - rewrite (process_change st (ln + 1) n x hs p mv cs c) by done. simpl.
    erewrite IH; [done..|]. by destruct x.
Qed.

Lemma foldl_push_flags xs c :
  is_end_of_file (foldl push_change_src c xs) = is_end_of_file c
  /\ (xs <> [] -> chunk_is_empty (foldl push_change_src c xs) = false).
Proof.
  split.
  - revert c. induction xs as [|x xs IH]; intros c; simpl; [done|].
    rewrite IH. by destruct x.
  - destruct xs as [|x xs _] using rev_ind; [done|]. intros _.
    rewrite foldl_snoc. unfold chunk_is_empty. destruct x; simpl.
    all: repeat match goal with |- context [is_empty (?l ++ [?y])] =>
      replace (is_empty (l ++ [y])) with false by (by destruct l) end.
    all: by rewrite ?andb_false_r.
Qed.

Lemma chunk_of_nonempty c : chunk_ok c -> chunk_is_empty (chunk_of c) = false.
Proof.
  intros (Hne & _). unfold chunk_of.
  pose proof (proj2 (foldl_push_flags (src_changes c)
    (mkChunk (src_context c) [] [] [] false)) Hne) as H.
  by destruct (src_eof c).
Qed.

Lemma run_chunk st ln n hs p mv cs c :
  mode st = UpdateFileMode n -> hunks st = hs ++ [UpdateFile p mv cs] ->
  last_chunk_is chunk_is_empty cs = false -> chunk_ok c ->
  run_lines st ln (print_chunk c)
  = Ok (mkState (UpdateFileMode n) (hs ++ [UpdateFile p mv (cs ++ [chunk_of c])])
          (environment_id st)).
Proof.
  intros Hm Hh Hl Hc. unfold print_chunk. rewrite <- app_comm_cons. simpl.
  rewrite (process_context_marker st _ n c hs p mv cs) by done. simpl.
  rewrite run_lines_app.
  erewrite run_changes by done. simpl. unfold chunk_of.
  pose proof (foldl_push_flags (src_changes c) (mkChunk (src_context c) [] [] [] false)) as [Hf He].
  destruct (src_eof c); simpl; [|done].
  erewrite process_eof; [simpl; done|done|done|by rewrite Hf|by apply He, Hc].
Qed.

Lemma run_chunks cs' : forall st ln n hs p mv cs,
  mode st = UpdateFileMode n -> hunks st = hs ++ [UpdateFile p mv cs] ->
  last_chunk_is chunk_is_empty cs = false -> Forall chunk_ok cs' ->
  run_lines st ln (cs' ≫= print_chunk)
  = Ok (mkState (UpdateFileMode n) (hs ++ [UpdateFile p mv (cs ++ (chunk_of <$> cs'))])
          (environment_id st)).
Proof.
  induction cs' as [|c cs' IH]; intros st ln n hs p mv cs Hm Hh Hl Hcs.
  - simpl. rewrite app_nil_r, <- Hh, <- Hm. by destruct st.
  - inversion Hcs as [|?? Hc Hcs']; subst. rewrite bind_cons, run_lines_app.
    erewrite run_chunk by done. simpl.
    erewrite IH; [|done|done| |done].
    + simpl. by rewrite <- app_assoc.
    + rewrite ChunkFacts.last_chunk_is_snoc. by apply chunk_of_nonempty.
Qed.

(** The state between two hunks: the last update hunk, if any, is complete. *)
Definition ready (st : StreamingParserState) : Prop :=
  (mode st <> NotStarted /\ mode st <> EndedPatch)
  /\ match last (hunks st) with
     | Some (UpdateFile _ _ cs) => cs <> [] /\ last_chunk_is chunk_is_empty cs = false
     | _ => True
     end.

Lemma ready_ensure st ln l : ready st -> ensure_update_hunk_is_not_empty st ln l = Ok tt.
Proof.
  intros [_ H]. unfold ensure_update_hunk_is_not_empty.
  destruct (last (hunks st)) as [[| |p mv cs]|]; try done.
  destruct H as [Hne ->]. by destruct cs, (mode st).
Qed.

(** The three hunk headers. *)
Lemma process_header st ln m p h md :
  ready st -> name_ok p ->
  (m, h, md) ∈ [(ADD_FILE_MARKER, AddFile p [], AddFileMode);
                (DELETE_FILE_MARKER, DeleteFile p, DeleteFileMode);
                (UPDATE_FILE_MARKER, UpdateFile p None [], UpdateFileMode ln)] ->
  process_line st ln (m ++ p) = Ok (mkState md (hunks st ++ [h]) (environment_id st)).
Proof.
  intros Hr Hp Hin. pose proof (fun l => ready_ensure st ln l Hr) as He.
  destruct Hr as [[Hm1 Hm2] _].
  assert (Hte : trim_end (m ++ p) = m ++ p) by (by apply trim_end_name).
  assert (Hhd : exists s, m ++ p = 42%N :: s).
  { rewrite !elem_of_cons, elem_of_nil in Hin. naive_solver. }
  assert (Ht : trim (m ++ p) = m ++ p).
  { unfold trim. rewrite Hte. destruct Hhd as [s ->]. by apply trim_start_nonspace. }
  assert (Hh : handle_hunk_headers_and_end_patch st ln (m ++ p)
               = Ok (Some (mkState md (hunks st ++ [h]) (environment_id st)))).
  { assert (Hne : strip_prefix ENVIRONMENT_ID_MARKER (m ++ p) = None).
    { rewrite !elem_of_cons, elem_of_nil in Hin. destruct_or! Hin; simplify_eq; done. }
    unfold handle_hunk_headers_and_end_patch. rewrite Hne.
    assert (Hho : header_or_end st ln (m ++ p)
                  = Ok (Some (mkState md (hunks st ++ [h]) (environment_id st)))).
    { unfold header_or_end, open_hunk. rewrite He.
      rewrite !elem_of_cons, elem_of_nil in Hin. destruct_or! Hin; simplify_eq; done. }
    by destruct (mode st). }
  unfold process_line. rewrite Ht, Hte, Hh. by destruct (mode st).
Qed.

Lemma process_move st ln n hs p q :
  mode st = UpdateFileMode n -> hunks st = hs ++ [UpdateFile p None []] -> name_ok q ->
  process_line st ln (MOVE_TO_MARKER ++ q)
  = Ok (mkState (UpdateFileMode n) (hs ++ [UpdateFile p (Some q) []]) (environment_id st)).
Proof.
  intros Hm Hh Hq. unfold process_line. rewrite Hm.
  unfold handle_hunk_headers_and_end_patch. rewrite Hm, trim_end_name by done.
  replace (header_or_end st ln (MOVE_TO_MARKER ++ q)) with
    (Ok (E := ParseError) (@None StreamingParserState)) by (vm_compute; reflexivity).
  unfold mbind, result_bind. rewrite Hh, last_snoc. unfold update_file_line.
  rewrite trim_end_name by done. simpl.
  unfold set_last_hunk. by rewrite Hh, Hm, update_last_snoc.
Qed.

Lemma run_added ls : forall st ln hs p c,
  mode st = AddFileMode -> hunks st = hs ++ [AddFile p c] ->
  run_lines st ln (app (lit "+") <$> ls)
  = Ok (mkState AddFileMode (hs ++ [AddFile p (c ++ (ls ≫= (fun l => l ++ [nl])))])
          (environment_id st)).
Proof.
  induction ls as [|l ls IH]; intros st ln hs p c Hm Hh; csimpl.
  - rewrite app_nil_r, <- Hh, <- Hm. by destruct st.
  - unfold process_line. rewrite Hm.
    change (lit "+" ++ l) with (43%N :: l). rewrite trim_nonspace by done.
    unfold handle_hunk_headers_and_end_patch. rewrite Hm, header_or_end_other by done.
    simpl. rewrite Hh, last_snoc. simpl.
    erewrite IH; [|by simpl|simpl; by rewrite Hh, update_last_snoc].
    simpl. by rewrite <- !app_assoc.
Qed.

Lemma ready_snoc m hs h env :
  m <> NotStarted -> m <> EndedPatch ->
  match h with
  | UpdateFile _ _ cs => cs <> [] /\ last_chunk_is chunk_is_empty cs = false
  | _ => True
  end -> ready (mkState m (hs ++ [h]) env).
Proof. intros ?? H. split; [done|]. simpl. rewrite last_snoc. by destruct h. Qed.

Lemma run_hunk st ln h :
  ready st -> hunk_ok h ->
  exists st', run_lines st ln (print_hunk h) = Ok st' /\ ready st'
    /\ hunks st' = hunks st ++ [hunk_of h] /\ environment_id st' = environment_id st.
Proof.
  intros Hr Hok. destruct h as [p ls|p|p mv cs]; simpl in Hok; cbn [print_hunk run_lines].
  - destruct Hok as [Hp Hls].
    rewrite (process_header st _ _ p (AddFile p []) AddFileMode); [|done|done|set_solver].
    simpl. erewrite run_added by done. eexists. split_and!; [done| |done|done].
    by apply ready_snoc.
  - rewrite (process_header st _ _ p (DeleteFile p) DeleteFileMode); [|done|done|set_solver].
    simpl. eexists. split_and!; [done| |done|done]. by apply ready_snoc.
  - destruct Hok as (Hp & Hmv & Hne & Hcs).
    rewrite (process_header st _ _ p (UpdateFile p None []) (UpdateFileMode (ln + 1)));
      [|done|done|set_solver]. simpl. rewrite run_lines_app.
    assert (Hmove : forall k,
      run_lines (mkState (UpdateFileMode (ln + 1)) (hunks st ++ [UpdateFile p None []])
                   (environment_id st)) k
        match mv with Some q => [MOVE_TO_MARKER ++ q] | None => [] end
      = Ok (mkState (UpdateFileMode (ln + 1)) (hunks st ++ [UpdateFile p mv []])
              (environment_id st))).
    { intros k. destruct mv as [q|]; [|done]. cbn [run_lines].
      by erewrite process_move by done. }
    rewrite Hmove. simpl. erewrite run_chunks; [|done..]. simpl.
    eexists. split_and!; [done| |done|done]. apply ready_snoc; [done..|].
    destruct cs as [|c cs _] using rev_ind; [done|].
    rewrite fmap_app. simpl. split; [by destruct (chunk_of <$> cs)|].
    rewrite ChunkFacts.last_chunk_is_snoc. apply chunk_of_nonempty.
    apply Forall_app in Hcs as [_ Hc]. by inversion Hc.
Qed.

Lemma run_hunks hs : forall st ln,
  ready st -> Forall hunk_ok hs ->
  exists st', run_lines st ln (hs ≫= print_hunk) = Ok st' /\ ready st'
    /\ hunks st' = hunks st ++ (hunk_of <$> hs) /\ environment_id st' = environment_id st.
Proof.
  induction hs as [|h hs IH]; intros st ln Hr Hok.
  - exists st. simpl. by rewrite app_nil_r.
  - inversion Hok; subst. rewrite bind_cons, run_lines_app.
    destruct (run_hunk st ln h) as (st1 & -> & Hr1 & Hh1 & He1); [done..|]. simpl.
    destruct (IH st1 (ln + lenN (print_hunk h))%N) as (st2 & -> & Hr2 & Hh2 & He2); [done..|].
    exists st2. split_and!; [done|done| |congruence]. by rewrite Hh2, Hh1, <- app_assoc.
Qed.

Lemma name_line_ok m p :
  nl ∉ m -> strip_suffix [cr] m = None -> name_ok p -> line_ok (m ++ p).
Proof. intros ?? (_ & ? & ?). by apply line_ok_app, line_ok_trimmed. Qed.

Ltac no_newline := apply (bool_decide_unpack _); reflexivity.
Ltac marker := first
  [ apply name_line_ok; [no_newline | reflexivity | done]
  | apply line_ok_app; [no_newline | reflexivity | done] ].
Ltac marker_only := split; [no_newline | reflexivity].

Lemma print_chunk_lines c : chunk_ok c -> Forall line_ok (print_chunk c).
Proof.
  intros (_ & Hch & Hctx). unfold print_chunk. apply Forall_app. split.
  - constructor; [destruct (src_context c); [marker|marker_only]|].
    apply Forall_fmap. eapply Forall_impl; [done|]. intros [l|l|l] Hl; unfold print_change; marker.
  - destruct (src_eof c); [|done]. constructor; [marker_only|done].
Qed.

Lemma print_hunk_lines h : hunk_ok h -> Forall line_ok (print_hunk h).
Proof.
  destruct h as [p ls|p|p mv cs]; unfold print_hunk, hunk_ok.
  - intros [Hp Hls]. constructor; [marker|]. apply Forall_fmap.
    eapply Forall_impl; [done|]. intros l Hl.
    change (line_ok (lit "+" ++ l)). marker.
  - intros Hp. constructor; [marker|done].
  - intros (Hp & Hmv & _ & Hcs). constructor; [marker|]. apply Forall_app. split.
    + destruct mv; [|done]. constructor; [marker|done].
    + apply Forall_bind. eapply Forall_impl; [done|]. apply print_chunk_lines.
Qed.

Lemma trim_patch s :
  trim ((BEGIN_PATCH_MARKER ++ s) ++ END_PATCH_MARKER)
  = (BEGIN_PATCH_MARKER ++ s) ++ END_PATCH_MARKER.
Proof.
  unfold trim.
  rewrite (trim_end_app_nonspace _ END_PATCH_MARKER 42%N (drop 1 END_PATCH_MARKER))
    by (vm_compute; reflexivity).
  replace (trim_end END_PATCH_MARKER) with END_PATCH_MARKER by (vm_compute; reflexivity).
  rewrite <- app_assoc. by apply (trim_start_nonspace 42%N).
Qed.

Lemma parse_boundaries ls :
  check_patch_boundaries_strict ((BEGIN_PATCH_MARKER :: ls) ++ [END_PATCH_MARKER])
  = Ok ((BEGIN_PATCH_MARKER :: ls) ++ [END_PATCH_MARKER]).
Proof. unfold check_patch_boundaries_strict. rewrite last_snoc. done. Qed.

Definition frame (ls : list str) : str :=
  join [nl] ((BEGIN_PATCH_MARKER :: ls) ++ [END_PATCH_MARKER]).

Lemma lines_frame ls :
  Forall line_ok ls ->
  trim (frame ls) = frame ls
  /\ lines (frame ls) = (BEGIN_PATCH_MARKER :: ls) ++ [END_PATCH_MARKER].
Proof.
  intros Hls. split.
  - unfold frame. rewrite join_snoc, bind_cons, <- (app_assoc BEGIN_PATCH_MARKER).
    apply trim_patch.
  - apply lines_join; [|no_newline|done]. constructor; [marker_only|done].
Qed.

Lemma push_delta_frame ls st :
  Forall line_ok ls -> run_lines (mkState StartedPatch [] None) 1 ls = Ok st ->
  push_delta default_parser (frame ls)
  = (mkParser END_PATCH_MARKER st (1 + lenN ls), Ok (hunks st)).
Proof.
  intros Hls Hrun. unfold default_parser, frame. rewrite join_snoc.
  rewrite (push_delta_run _ 0 (BEGIN_PATCH_MARKER :: ls) _ st).
  - rewrite <- (app_nil_r END_PATCH_MARKER) at 1.
    rewrite push_delta_buffer by no_newline. rewrite lenN_cons. done.
  - constructor; [marker_only|done].
  - cbn [run_lines]. replace (process_line _ _ BEGIN_PATCH_MARKER)
      with (Ok (E := ParseError) (mkState StartedPatch [] None)) by (vm_compute; reflexivity).
    exact Hrun.
Qed.

(** A framed text whose lines run to [st] is decided by what [st] lacks. *)
Lemma parse_patch_frame ls st :
  Forall line_ok ls -> run_lines (mkState StartedPatch [] None) 1 ls = Ok st ->
  parse_patch (frame ls)
  = (_ ← ensure_update_hunk_is_not_empty st (2 + lenN ls) END_PATCH_MARKER;
     Ok (mkArgs (frame ls) (hunks st) None (environment_id st))).
Proof.
  intros Hls Hrun. unfold parse_patch, parse_patch_text.
  destruct (lines_frame ls Hls) as [-> ->]. change PARSE_IN_STRICT_MODE with false.
  unfold check_patch_boundaries_lenient. rewrite parse_boundaries.
  unfold mbind, result_bind. cbv beta iota zeta. change (join [nl] _) with (frame ls).
  rewrite (push_delta_frame ls st) by done.
  cbv beta iota zeta. unfold finish. cbn [line_buffer state line_number].
  replace (is_empty END_PATCH_MARKER) with false by reflexivity.
  replace (trim END_PATCH_MARKER) with END_PATCH_MARKER by (vm_compute; reflexivity).
  rewrite str_eqb_refl. replace (1 + lenN ls + 1)%N with (2 + lenN ls)%N by lia.
  by destruct (ensure_update_hunk_is_not_empty st _ _).
Qed.


(** An update hunk without any change, a pure rename included, is rejected
    with an error that names the path and the line of its header, although the
    grammar in parser.rs makes the change part optional. *)
Theorem rename_only_rejected (p : str) (mv : option str) :
  name_ok p -> match mv with Some q => name_ok q | None => True end ->
  parse_patch (print_patch [SUpdate p mv []])
  = Err (InvalidHunkError (lit "Update file hunk for path '" ++ p ++ lit "' is empty") 2).
Proof.
  intros Hp Hmv. change (print_patch _) with (frame (print_hunk (SUpdate p mv []) ++ [])).
  rewrite app_nil_r.
  rewrite (parse_patch_frame _ (mkState (UpdateFileMode 2) [UpdateFile p mv []] None)).
  - done.
  - unfold print_hunk. constructor; [marker|].
    rewrite app_nil_r. destruct mv; [|done]. constructor; [marker|done].
  - cbn [print_hunk run_lines].
    rewrite (process_header _ _ _ p (UpdateFile p None []) (UpdateFileMode 2));
      [|done|done|set_solver].
    simpl mbind. cbn [mbind result_bind]. rewrite app_nil_r.
    destruct mv as [q|]; [|done]. cbn [run_lines].
    by erewrite (process_move _ _ 2 [] p q) by done.
Qed.

Lemma rename_only_rejected_witness :
  parse_patch (print_patch [SUpdate (lit "a") (Some (lit "b")) []])
  = Err (InvalidHunkError (lit "Update file hunk for path 'a' is empty") 2).
Proof.
  apply (rename_only_rejected (lit "a") (Some (lit "b"))).
  - split; [discriminate|]. split; [apply (bool_decide_unpack _); reflexivity | reflexivity].
  - split; [discriminate|]. split; [apply (bool_decide_unpack _); reflexivity | reflexivity].
Defined.


End RoundTrip.

(** ** Lenient mode and rejected patches *)
Module PatchParseFacts.
Import PatchSyntax Streaming PatchParse.

(** The three heredoc openings gpt-4.1 writes. *)
Definition heredoc_starts : list str :=
  [lit "<<EOF"; lit "<<'EOF'"; lit "<<" ++ [dquote] ++ lit "EOF" ++ [dquote]].

Lemma strict_ok_shape ls ks :
  check_patch_boundaries_strict ls = Ok ks ->
  ks = ls /\ 2 <= length ls
  /\ (exists l, head ls = Some l /\ trim l = BEGIN_PATCH_MARKER)
  /\ (exists l, last ls = Some l /\ trim l = END_PATCH_MARKER).
Proof.
  intros ([] & H & [= ->])%result_bind_Ok.
  unfold check_start_and_end_lines_strict in H.
  destruct (head ks) as [f|] eqn:Hf; [|done]. destruct (last ks) as [l|] eqn:Hl; [|by simpl in H; case_match].
  simpl in H. destruct (_ && _) eqn:Hb; [|by case_match].
  apply andb_true_iff in Hb as [H1%str_eqb_eq H2%str_eqb_eq].
  split_and!; [done| |eauto..].
  destruct ks as [|a [|b ks]]; simpl in *; [done| |lia].
  simplify_eq. rewrite H1 in H2. discriminate H2.
Qed.

Lemma heredoc_start_shape w :
  w ∈ heredoc_starts -> exists w' c, w = w' ++ [c] /\ (nl ∉ w) /\ is_whitespace c = false
    /\ head w = Some 60%N /\ is_heredoc_start w = true /\ trim w <> BEGIN_PATCH_MARKER.
Proof.
  unfold heredoc_starts. rewrite !elem_of_cons, elem_of_nil. intros Hw.
  destruct_or! Hw; subst w; eexists (_ : str), _; (split; [by apply (app_removelast_last 0%N)|]).
  all: split_and!; try reflexivity; try discriminate; apply (bool_decide_unpack _); reflexivity.
Qed.

Lemma trimmed_end patch : trim patch = patch -> trim_end patch = patch.
Proof.
  unfold trim. intros Htrim. pose proof (length_trim_end patch) as Hle.
  assert (Hs : forall s, length (trim_start s) <= length s).
  { intros s. unfold trim_start. induction s; simpl; [lia|]. case_match; simpl; lia. }
  assert (Heq : forall s, length s <= length (trim_start s) -> trim_start s = s).
  { intros s. unfold trim_start. destruct s as [|x s]; simpl; [done|]. case_match; [|done].
    specialize (Hs s). unfold trim_start in Hs. lia. }
  rewrite <- (Heq (trim_end patch)); [done|]. by rewrite Htrim.
Qed.

(** The text of a wrapped patch: nothing to trim, and three parts of lines. *)
Definition wrapped (w patch : str) : str := w ++ nl :: patch ++ nl :: lit "EOF".

Lemma wrapped_trim w patch : head w = Some 60%N -> trim (wrapped w patch) = wrapped w patch.
Proof.
  intros Hhead. unfold trim, wrapped. rewrite (app_comm_cons patch), (app_assoc w).
  rewrite (app_assoc _ [nl] (lit "EOF") : _ ++ nl :: lit "EOF" = _).
  rewrite (trim_end_app_nonspace _ (lit "EOF") 69%N (lit "OF")) by (vm_compute; reflexivity).
  replace (trim_end (lit "EOF")) with (lit "EOF") by (vm_compute; reflexivity).
  destruct w as [|e w']; simplify_eq/=. by apply trim_start_nonspace.
Qed.

Lemma wrapped_lines w' c patch :
  nl ∉ w' ++ [c] -> is_whitespace c = false -> trim patch = patch -> patch <> [] ->
  lines (wrapped (w' ++ [c]) patch) = (w' ++ [c]) :: lines patch ++ [lit "EOF"].
Proof.
  intros Hnl Hc Htrim Hne. destruct (trim_end_last patch (trimmed_end _ Htrim) Hne) as (t & d & Hp & Hd).
  unfold wrapped. rewrite lines_app_line by done. rewrite Hp, lines_app_line, <- Hp by done.
  unfold lines at 1. rewrite split_inclusive_last; [|done|by destruct w'].
  simpl. by rewrite chomp_no_nl.
Qed.

Lemma lenient_unwraps w ls :
  is_heredoc_start w = true -> trim w <> BEGIN_PATCH_MARKER ->
  check_patch_boundaries_strict ls = Ok ls ->
  check_patch_boundaries_lenient (w :: ls ++ [lit "EOF"]) = check_patch_boundaries_lenient ls.
Proof.
  intros Hstart Hnb Hstrict. pose proof (strict_ok_shape _ _ Hstrict) as (_ & Hlen & _).
  unfold check_patch_boundaries_lenient at 2. rewrite Hstrict. unfold check_patch_boundaries_lenient.
  destruct (check_patch_boundaries_strict (w :: _)) as [ks|e] eqn:Hks.
  { apply strict_ok_shape in Hks as (_ & _ & (l & Hl & Hb) & _). simpl in Hl. congruence. }
  change (head (w :: ls ++ [lit "EOF"])) with (Some w).
  rewrite app_comm_cons, last_snoc, Hstart.
  replace (ends_with (lit "EOF") (lit "EOF")) with true by reflexivity.
  rewrite <- app_comm_cons. cbn [length]. rewrite length_app. cbn [length].
  destruct (Nat.leb_spec 2 (S (length ls + 1))); [|lia].
  destruct (Nat.leb_spec 4 (S (length ls + 1))); [|lia].
  cbn [andb]. replace (S (length ls + 1) - 2) with (length ls) by lia.
  rewrite skipn_cons, drop_0, take_app_length. exact Hstrict.
Qed.

(** The heredoc wrapper is transparent. A patch that the strict boundary
    check accepts is parsed to the same arguments, including the stored patch
    text, when it is wrapped in [<<EOF], [<<'EOF'] or [<<"EOF"] lines, because
    [parse_patch] runs in lenient mode. *)
Theorem parse_heredoc (w patch : str) :
  w ∈ heredoc_starts -> trim patch = patch ->
  check_patch_boundaries_strict (lines patch) = Ok (lines patch) ->
  parse_patch (w ++ nl :: patch ++ nl :: lit "EOF") = parse_patch patch.
Proof.
  intros Hw Htrim Hstrict. pose proof (strict_ok_shape _ _ Hstrict) as (_ & Hlen & _).
  destruct (heredoc_start_shape w Hw) as (w' & c & -> & Hnl & Hc & Hhead & Hstart & Hnb).
  assert (Hne : patch <> []) by (intros ->; simpl in Hlen; lia).
  fold (wrapped (w' ++ [c]) patch). unfold parse_patch, parse_patch_text.
  change PARSE_IN_STRICT_MODE with false. cbv iota zeta.
  by rewrite wrapped_trim, Htrim, wrapped_lines, lenient_unwraps.
Qed.

Lemma parse_heredoc_witness :
  parse_patch (lit "<<'EOF'" ++ nl
    :: (lit "*** Begin Patch" ++ [nl] ++ lit "*** Delete File: x" ++ [nl] ++ lit "*** End Patch")
    ++ nl :: lit "EOF")
  = parse_patch (lit "*** Begin Patch" ++ [nl] ++ lit "*** Delete File: x" ++ [nl] ++ lit "*** End Patch").
Proof.
  apply (parse_heredoc (lit "<<'EOF'")).
  - apply (bool_decide_unpack _). reflexivity.
  - vm_compute. reflexivity.
  - vm_compute. reflexivity.
Defined.

End PatchParseFacts.
