(* ===== verification/PatchUpdate.v ===== *)
(** * PatchUpdate: from chunks to new file contents

    Models apply-patch/src/file_update.rs: locating every chunk of an update
    hunk in the original lines, turning it into replacements that leave context
    lines in place, and rebuilding the file. An out-of-range slice or an
    underflowing subtraction is [Panic]. *)

From S2P Require Import Prelude RustStr PatchText PatchParser.
Import PatchSyntax TextFile Seek ChunkFacts.

Module FileUpdate.

Section Errors.
Context {E : Type} (ComputeReplacements : str -> E).

(** [for &(old_context, new_context) in &chunk.context_line_indices] *)
Fixpoint context_loop (start_idx : nat) (pattern new_slice : list str)
    (ctx : list (nat * nat)) (old_start new_start : nat) (replacements : list Replacement)
    : outcome E (nat * nat * list Replacement) :=
  match ctx with
  | [] => Return (old_start, new_start, replacements)
  | (old_context, new_context) :: ctx =>
      if (length pattern <=? old_context) || (length new_slice <=? new_context)
      then Return (old_start, new_start, replacements)
      else if negb (old_start =? old_context) || negb (new_start =? new_context) then
        if (old_context <? old_start) || (new_context <? new_start) then Panic
        else
          context_loop start_idx pattern new_slice ctx (S old_context) (S new_context)
            (replacements ++
              [(start_idx + old_start, old_context - old_start,
                take (new_context - new_start) (drop new_start new_slice))])
      else context_loop start_idx pattern new_slice ctx (S old_context) (S new_context) replacements
  end.

(** The replacements of one located chunk. *)
Definition chunk_replacements (start_idx : nat) (pattern new_slice : list str)
    (ctx : list (nat * nat)) (replacements : list Replacement)
    : outcome E (list Replacement) :=
  '(old_start, new_start, replacements) ←
    context_loop start_idx pattern new_slice ctx 0 0 replacements;
  if negb (old_start =? length pattern) || negb (new_start =? length new_slice) then
    if (length pattern <? old_start) || (length new_slice <? new_start) then Panic
    else Return (replacements ++
           [(start_idx + old_start, length pattern - old_start, drop new_start new_slice)])
  else Return replacements.

(** [v.last().is_some_and(String::is_empty)] *)
Definition ends_with_empty (ls : list str) : bool :=
  match last ls with Some l => is_empty l | None => false end.

Definition drop_last (ls : list str) : list str := take (length ls - 1) ls.

(** Where the old lines are, and what is then matched and inserted: a search
    that fails is retried without a trailing empty line. *)
Definition locate (original_lines : list str) (chunk : UpdateFileChunk) (line_index : nat)
    : option nat * list str * list str :=
  let pattern := old_lines chunk in
  let new_slice := new_lines chunk in
  match seek_sequence original_lines pattern line_index (is_end_of_file chunk) with
  | Some i => (Some i, pattern, new_slice)
  | None =>
      if ends_with_empty pattern then
        let pattern := drop_last pattern in
        let new_slice := if ends_with_empty new_slice then drop_last new_slice else new_slice in
        (seek_sequence original_lines pattern line_index (is_end_of_file chunk), pattern, new_slice)
      else (None, pattern, new_slice)
  end.

Definition find_context (original_lines : list str) (path : str) (chunk : UpdateFileChunk)
    (line_index : nat) : outcome E nat :=
  match change_context chunk with
  | None => Return line_index
  | Some ctx_line =>
      match seek_sequence original_lines [ctx_line] line_index false with
      | Some idx => Return (idx + 1)
      | None =>
          Throw (ComputeReplacements
                   (lit "Failed to find context '" ++ ctx_line ++ lit "' in " ++ path))
      end
  end.

Fixpoint compute_loop (original_lines : list str) (path : str) (chunks : list UpdateFileChunk)
    (replacements : list Replacement) (line_index : nat) : outcome E (list Replacement) :=
  match chunks with
  | [] => Return replacements
  | chunk :: chunks =>
      line_index ← find_context original_lines path chunk line_index;
      if is_empty (old_lines chunk) then
        compute_loop original_lines path chunks
          (replacements ++ [(length original_lines, 0, new_lines chunk)]) line_index
      else
        match locate original_lines chunk line_index with
        | (Some start_idx, pattern, new_slice) =>
            replacements ← chunk_replacements start_idx pattern new_slice
                             (context_line_indices chunk) replacements;
            compute_loop original_lines path chunks replacements (start_idx + length pattern)
        | (None, _, _) =>
            Throw (ComputeReplacements
                     (lit "Failed to find expected lines in " ++ path ++ lit ":" ++ [nl]
                      ++ join [nl] (old_lines chunk)))
        end
  end.

(** [replacements.sort_by_key(|(index, _, _)| *index)], a stable sort. *)
Fixpoint insert_by_start (r : Replacement) (rs : list Replacement) : list Replacement :=
  match rs with
  | [] => [r]
  | x :: rs => if r.1.1 <=? x.1.1 then r :: x :: rs else x :: insert_by_start r rs
  end.
Definition sort_by_start (rs : list Replacement) : list Replacement :=
  foldr insert_by_start [] rs.

Definition compute_replacements (original_lines : list str) (path : str)
    (chunks : list UpdateFileChunk) : outcome E (list Replacement) :=
  replacements ← compute_loop original_lines path chunks [] 0;
  Return (sort_by_start replacements).

(** The pure part of [derive_new_contents_from_chunks], after the read. *)
Definition new_contents_from_chunks (original_contents path_text : str)
    (chunks : list UpdateFileChunk) : outcome E str :=
  let source_file := parse original_contents in
  replacements ← compute_replacements (line_texts source_file) path_text chunks;
  match apply_replacements source_file replacements with
  | Some f => Return (into_contents f)
  | None => Panic
  end.

End Errors.

(** ** Sorting *)

Lemma insert_by_start_perm r rs : insert_by_start r rs ≡ₚ r :: rs.
Proof.
  induction rs as [|x rs IH]; simpl; [done|]. case_match; [done|].
  rewrite IH. by rewrite Permutation_swap.
Qed.
Lemma sort_by_start_perm rs : sort_by_start rs ≡ₚ rs.
Proof. induction rs as [|r rs IH]; simpl; [done|]. by rewrite insert_by_start_perm, IH. Qed.

(** Two replacements in the order they were computed: the first ends before the
    second starts, or is an insertion at the end of the file. *)
Definition before (n : nat) (a b : Replacement) : Prop :=
  a.1.1 + a.1.2 <= b.1.1 \/ (a.1.1 = n /\ a.1.2 = 0).
Definition within (n : nat) (r : Replacement) : Prop := r.1.1 + r.1.2 <= n.

Lemma insert_ok n r rs from :
  from <= r.1.1 -> within n r -> Forall (within n) rs -> Forall (before n r) rs ->
  replacements_ok from rs n -> replacements_ok from (insert_by_start r rs) n.
Proof.
  intros Hfrom Hr Hw Hb. revert from Hfrom.
  induction rs as [|x rs IH]; intros from Hfrom Hok; simpl.
  - destruct r as [[s o] ?]. unfold within in Hr. simpl in *. lia.
  - inversion Hw as [|?? Hwx Hwr]; inversion Hb as [|?? Hbx Hbr]; subst.
    destruct r as [[s o] new], x as [[s' o'] new'].
    unfold within, before in *. simpl in *. destruct Hok as (H1 & H2 & H3).
    destruct (Nat.leb_spec s s') as [Hle|Hlt].
    + simpl. split_and!; [lia|lia|lia|lia|done].
    + simpl. split_and!; [lia|lia|]. apply IH; [done|done|lia|done].
Qed.

Lemma sort_ok n rs :
  Forall (within n) rs -> ForallOrdPairs (before n) rs -> replacements_ok 0 (sort_by_start rs) n.
Proof.
  intros Hw Hb. induction Hb as [|r rs Hr Hb IH]; simpl; [done|].
  inversion Hw; subst. apply insert_ok; [lia|done|..|by apply IH].
  - by rewrite sort_by_start_perm.
  - by rewrite sort_by_start_perm.
Qed.

(** ** One located chunk *)

Lemma replace_at_inside {A} (pre mid post new : list A) o e :
  o <= e <= length mid ->
  replace_at (length pre + o, e - o, new) (pre ++ mid ++ post)
  = pre ++ take o mid ++ new ++ drop e mid ++ post.
Proof.
  intros H. unfold replace_at. cbn [fst snd].
  rewrite take_app_add, take_app_le by lia. rewrite <- app_assoc. do 3 f_equal.
  replace (length pre + o + (e - o)) with (length pre + e) by lia.
  rewrite drop_app_add, drop_app_le by lia. done.
Qed.

Section Located.
Context {E : Type} (start : nat) (pattern new_slice olds news : list str).
Hypothesis Hpat : pattern `prefix_of` olds.
Hypothesis Hnew : new_slice `prefix_of` news.

(** [chunk_replacements] from the middle of the context loop. *)
Definition chunk_from (ctx : list (nat * nat)) (os ns : nat) (rs : list Replacement)
    : outcome E (list Replacement) :=
  '(old_start, new_start, replacements) ← context_loop start pattern new_slice ctx os ns rs;
  if negb (old_start =? length pattern) || negb (new_start =? length new_slice) then
    if (length pattern <? old_start) || (length new_slice <? new_start) then Panic
    else Return (replacements ++
           [(start + old_start, length pattern - old_start, drop new_start new_slice)])
  else Return replacements.

(** What the replacements of a chunk must do from [(os, ns)] on. *)
Definition chunk_done_from (os ns : nat) (rs : list Replacement) : Prop :=
  replacements_ok (start + os) rs (start + length pattern)
  /\ forall A B, length A = start ->
     replace_all rs (A ++ pattern ++ B) = A ++ take os pattern ++ drop ns new_slice ++ B.

Lemma chunk_tail_ok os ns rs :
  os <= length pattern -> ns <= length new_slice ->
  exists rs', (if negb (os =? length pattern) || negb (ns =? length new_slice) then
    if (length pattern <? os) || (length new_slice <? ns) then Panic
    else Return (rs ++ [(start + os, length pattern - os, drop ns new_slice)])
    else Return rs) = Return (E := E) (rs ++ rs') /\ chunk_done_from os ns rs'.
Proof.
  intros Ho Hn.
  destruct (Nat.ltb_spec (length pattern) os); [lia|].
  destruct (Nat.ltb_spec (length new_slice) ns); [lia|]. cbn [orb].
  destruct (negb (os =? length pattern) || negb (ns =? length new_slice)) eqn:Hb.
  - eexists. split; [done|]. split; [simpl; lia|]. intros A B <-.
    unfold replace_all. cbn [foldr]. rewrite replace_at_inside by lia.
    by rewrite drop_all.
  - apply orb_false_iff in Hb as [H1%negb_false_iff%Nat.eqb_eq H2%negb_false_iff%Nat.eqb_eq].
    subst os ns. exists []. rewrite app_nil_r. split; [done|]. split; [done|].
    intros A B HA. by rewrite drop_all, firstn_all.
Qed.

Lemma chunk_from_ok ctx : forall os ns rs,
  indices_ok os ns ctx olds news -> os <= length pattern -> ns <= length new_slice ->
  exists rs', chunk_from ctx os ns rs = Return (rs ++ rs') /\ chunk_done_from os ns rs'.
Proof.
  induction ctx as [|[oc nc] ctx IH]; intros os ns rs Hidx Ho Hn.
  { by apply chunk_tail_ok. }
  destruct Hidx as (Hoc & Hnc & (l & Hlo & Hln) & Hidx).
  unfold chunk_from. cbn [context_loop].
  destruct ((length pattern <=? oc) || (length new_slice <=? nc)) eqn:Hbrk.
  { by apply chunk_tail_ok. }
  apply orb_false_iff in Hbrk as [Hbo%Nat.leb_gt Hbn%Nat.leb_gt].
  assert (Hpo : pattern !! oc = Some l).
  { destruct Hpat as [k ->]. by rewrite lookup_app_l in Hlo. }
  assert (Hnn : new_slice !! nc = Some l).
  { destruct Hnew as [k ->]. by rewrite lookup_app_l in Hln. }
  assert (Hdrop : take (S oc) pattern ++ drop (S nc) new_slice
                  = take oc pattern ++ drop nc new_slice).
  { rewrite (take_S_r _ _ l), (drop_S new_slice l nc), <- app_assoc by done. done. }
  destruct (negb (os =? oc) || negb (ns =? nc)) eqn:Hb.
  - destruct (Nat.ltb_spec oc os); [lia|]. destruct (Nat.ltb_spec nc ns); [lia|]. cbn [orb].
    destruct (IH (S oc) (S nc) (rs ++ [(start + os, oc - os, take (nc - ns) (drop ns new_slice))])
                Hidx) as (rs' & Hrs & Hok & Hall); [lia|lia|].
    unfold chunk_from in Hrs. rewrite Hrs. rewrite <- app_assoc. eexists. split; [done|].
    split.
    + simpl. split_and!; [lia|lia|]. eapply replacements_ok_weaken; [|done]. lia.
    + intros A B HA. unfold replace_all in *. cbn [app foldr]. rewrite Hall by done. rewrite <- HA.
      rewrite (app_assoc (take _ _)), Hdrop, replace_at_inside by lens.
      rewrite take_app_le, take_take, Nat.min_l by lens. do 2 f_equal.
      rewrite drop_app_ge by lens. rewrite length_take, Nat.min_l, Nat.sub_diag, drop_0 by lia.
      rewrite app_assoc. f_equal. rewrite <- (take_drop (nc - ns) (drop ns new_slice)) at 2.
      rewrite drop_drop. do 2 f_equal. lia.
  - apply orb_false_iff in Hb as [H1%negb_false_iff%Nat.eqb_eq H2%negb_false_iff%Nat.eqb_eq].
    subst oc nc. destruct (IH (S os) (S ns) rs Hidx) as (rs' & Hrs & Hok & Hall); [lia|lia|].
    exists rs'. split; [exact Hrs|]. split.
    + eapply replacements_ok_weaken; [|done]. lia.
    + intros A B HA. rewrite Hall by done. by rewrite (app_assoc (take _ _)), Hdrop, <- app_assoc.
Qed.

End Located.
Lemma chunk_replacements_ok {E} start pattern new_slice c rs :
  wf_chunk c -> pattern `prefix_of` old_lines c -> new_slice `prefix_of` new_lines c ->
  exists rs', chunk_replacements (E := E) start pattern new_slice (context_line_indices c) rs
              = Return (rs ++ rs')
    /\ replacements_ok start rs' (start + length pattern)
    /\ forall A B, length A = start ->
       replace_all rs' (A ++ pattern ++ B) = A ++ new_slice ++ B.
Proof.
  intros Hwf Hp Hn.
  destruct (chunk_from_ok (E := E) start pattern new_slice _ _ Hp Hn _ 0 0 rs Hwf)
    as (rs' & Hrs & Hok & Hall); [lia..|].
  exists rs'. split; [exact Hrs|]. by rewrite Nat.add_0_r in Hok.
Qed.

(** ** All chunks *)

Section Compute.
Context {E : Type} (mk : str -> E) (L : list str) (path : str).

Lemma find_context_bounds c li li' :
  li <= length L -> find_context mk L path c li = Return li' -> li <= li' <= length L.
Proof.
  intros Hle. unfold find_context. destruct (change_context c); [|intros [= ->]; lia].
  destruct (seek_sequence _ _ _ _) as [i|] eqn:Hs; [|done]. intros [= <-].
  apply seek_sequence_bounds in Hs; [|done]. simpl in Hs. lia.
Qed.

Lemma drop_last_prefix (ls : list str) : drop_last ls `prefix_of` ls.
Proof. exists (drop (length ls - 1) ls). symmetry. apply take_drop. Qed.

Lemma locate_bounds c li i pattern new_slice :
  li <= length L -> locate L c li = (Some i, pattern, new_slice) ->
  li <= i /\ i + length pattern <= length L
  /\ pattern `prefix_of` old_lines c /\ new_slice `prefix_of` new_lines c.
Proof.
  intros Hle. unfold locate.
  destruct (seek_sequence L (old_lines c) li _) as [j|] eqn:Hs.
  - intros [= -> <- <-]. apply seek_sequence_bounds in Hs; [|done]. by split_and!; [lia|lia|..].
  - destruct (ends_with_empty (old_lines c)); [|done]. intros [= Hs' <- <-].
    apply seek_sequence_bounds in Hs'; [|done]. split_and!; [lia|lia|apply drop_last_prefix|].
    case_match; [apply drop_last_prefix|done].
Qed.

(** The replacements found so far end before [li], apart from insertions at the
    end of the file. *)
Definition found_ok (rs : list Replacement) (li : nat) : Prop :=
  li <= length L /\ Forall (within (length L)) rs
  /\ ForallOrdPairs (before (length L)) rs
  /\ Forall (fun r => r.1.1 + r.1.2 <= li \/ (r.1.1 = length L /\ r.1.2 = 0)) rs.

Lemma ForallOrdPairs_app {A} (R : A -> A -> Prop) l k :
  ForallOrdPairs R l -> ForallOrdPairs R k -> Forall (fun x => Forall (R x) k) l ->
  ForallOrdPairs R (l ++ k).
Proof.
  intros Hl Hk Hlk. induction Hl as [|x l Hx Hl IH]; simpl; [done|].
  inversion Hlk; subst. constructor; [by apply Forall_app|by apply IH].
Qed.

Lemma replacements_ok_pairs from rs n :
  replacements_ok from rs n ->
  Forall (fun r => from <= r.1.1 /\ r.1.1 + r.1.2 <= n) rs /\ ForallOrdPairs (before n) rs.
Proof.
  revert from. induction rs as [|[[s o] new] rs IH]; intros from Hok; [split; constructor|].
  destruct Hok as (H1 & H2 & H3). destruct (IH _ H3) as [Hf Hp]. split.
  - constructor; [done|]. eapply Forall_impl; [done|]. simpl. intros x Hx. lia.
  - constructor; [|done]. eapply Forall_impl; [done|]. intros x Hx. left. simpl in *. lia.
Qed.

Lemma found_ok_app rs li rs' s e :
  found_ok rs li -> li <= s -> s <= e <= length L -> replacements_ok s rs' e ->
  found_ok (rs ++ rs') e.
Proof.
  intros (Hli & Hw & Hp & Hend) Hs He Hok.
  assert (Hok' : replacements_ok s rs' (length L)).
  { clear -Hok He. destruct He as [_ He]. revert s Hok.
    induction rs' as [|[[a b] c] rs' IH]; intros s; simpl; [done|].
    intros (?&?&?). split_and!; [lia|lia|by apply IH]. }
  destruct (replacements_ok_pairs _ _ _ Hok) as [Hf _].
  destruct (replacements_ok_pairs _ _ _ Hok') as [Hf' Hp'].
  split_and!; [lia| | |].
  - apply Forall_app. split; [done|]. eapply Forall_impl; [exact Hf'|].
    intros x Hx. unfold within. simpl in *. lia.
  - apply ForallOrdPairs_app; [done|done|]. eapply Forall_impl; [exact Hend|].
    intros x Hx. eapply Forall_impl; [exact Hf|]. intros y Hy. unfold before. simpl in *. lia.
  - apply Forall_app. split.
    + eapply Forall_impl; [exact Hend|]. intros x Hx. simpl in *. lia.
    + eapply Forall_impl; [exact Hf|]. intros x Hx. simpl in *. lia.
Qed.

Lemma found_ok_append rs li new :
  found_ok rs li -> found_ok (rs ++ [(length L, 0, new)]) li.
Proof.
  intros (Hli & Hw & Hp & Hend). split_and!; [done|..].
  - apply Forall_app. split; [done|]. constructor; [unfold within; simpl; lia|done].
  - apply ForallOrdPairs_app; [done|by repeat constructor|].
    eapply Forall_impl; [exact Hw|]. intros x Hx. constructor; [|done].
    left. unfold within in Hx. simpl. lia.
  - apply Forall_app. split; [done|]. constructor; [by right|done].
Qed.

Lemma compute_loop_ok cs : forall rs li,
  Forall wf_chunk cs -> found_ok rs li ->
  match compute_loop mk L path cs rs li with
  | Return rs' => exists li', found_ok rs' li'
  | Throw _ => True
  | Panic => False
  end.
Proof.
  induction cs as [|c cs IH]; intros rs li Hwf Hrs; [by exists li|].
  inversion Hwf as [|?? Hc Hcs]; subst. cbn [compute_loop].
  pose proof (proj1 Hrs) as Hli.
  destruct (find_context mk L path c li) as [li1| |] eqn:Hctx; simpl; [|done|].
  2: { unfold find_context in Hctx. by repeat case_match. }
  apply find_context_bounds in Hctx as [Hli1 Hli1']; [|done].
  assert (Hrs1 : found_ok rs li1).
  { destruct Hrs as (_ & Hw & Hp & He). split_and!; [done..|].
    eapply Forall_impl; [exact He|]. intros x Hx. simpl in *. lia. }
  destruct (is_empty (old_lines c)); [by apply IH, found_ok_append|].
  destruct (locate L c li1) as [[[i|] pattern] new_slice] eqn:Hloc; [|done].
  apply locate_bounds in Hloc as (Hi & Hin & Hpat & Hnew); [|done].
  destruct (chunk_replacements_ok (E := E) i pattern new_slice c rs Hc Hpat Hnew)
    as (rs' & -> & Hok & _). simpl.
  apply IH; [done|]. apply (found_ok_app rs li1 rs' i); [done|lia|lia|done].
Qed.

Lemma compute_replacements_ok cs :
  Forall wf_chunk cs ->
  match compute_replacements mk L path cs with
  | Return rs => replacements_ok 0 rs (length L)
  | Throw _ => True
  | Panic => False
  end.
Proof.
  intros Hwf. unfold compute_replacements.
  pose proof (compute_loop_ok cs [] 0 Hwf) as H.
  destruct (compute_loop mk L path cs [] 0) as [rs| |]; simpl; [|done|].
  - destruct H as (li & _ & Hw & Hp & _); [|by apply sort_ok].
    split_and!; [lia|by constructor..].
  - apply H. split_and!; [lia|by constructor..].
Qed.

End Compute.

Lemma new_contents_ok {E} (mk : str -> E) (contents path : str) (cs : list UpdateFileChunk) :
  Forall wf_chunk cs ->
  (exists e, new_contents_from_chunks mk contents path cs = Throw e) \/
  (exists rs f, replacements_ok 0 rs (length (file_lines (parse contents)))
    /\ new_contents_from_chunks mk contents path cs = Return (into_contents f)
    /\ line_texts f = replace_all rs (line_texts (parse contents))
    /\ Forall (fun l => is_Some (ending l)) (file_lines f)).
Proof.
  intros Hwf. unfold new_contents_from_chunks.
  pose proof (compute_replacements_ok mk (line_texts (parse contents)) path cs Hwf) as H.
  destruct (compute_replacements _ _ _ _) as [rs|e|] eqn:Hc; simpl; [|eauto|done].
  unfold line_texts in H. rewrite length_fmap in H.
  destruct (apply_replacements_spec (parse contents) rs H) as (f & -> & _ & Ht & He).
  right. eauto 10.
Qed.

(** Updating a file is safe. For the well-formed chunks the parser
    produces, no index, slice or subtraction of the update goes out of range:
    the outcome is the error that names the missing context or lines, or new
    contents in which every line is terminated and whose lines are the original
    ones with source-ordered, disjoint replacements applied. *)
Theorem update_never_panics {E} (mk : str -> E) (contents path : str) (cs : list UpdateFileChunk) :
  Forall wf_chunk cs ->
  (exists e, new_contents_from_chunks mk contents path cs = Throw e) \/
  (exists rs f, replacements_ok 0 rs (length (file_lines (parse contents)))
    /\ new_contents_from_chunks mk contents path cs = Return (into_contents f)
    /\ line_texts f = replace_all rs (line_texts (parse contents))
    /\ Forall (fun l => is_Some (ending l)) (file_lines f)).
Proof. apply new_contents_ok. Qed.

Lemma update_never_panics_witness :
  (exists e, new_contents_from_chunks id (lit "a" ++ [nl] ++ lit "b") (lit "p")
     [mkChunk None [lit "a"; lit "b"] [lit "a"; lit "c"] [(0, 0)] false] = Throw e) \/
  (exists rs f, replacements_ok 0 rs (length (file_lines (parse (lit "a" ++ [nl] ++ lit "b"))))
    /\ new_contents_from_chunks id (lit "a" ++ [nl] ++ lit "b") (lit "p")
         [mkChunk None [lit "a"; lit "b"] [lit "a"; lit "c"] [(0, 0)] false] = Return (into_contents f)
    /\ line_texts f = replace_all rs (line_texts (parse (lit "a" ++ [nl] ++ lit "b")))
    /\ Forall (fun l => is_Some (ending l)) (file_lines f)).
Proof.
  apply (update_never_panics id (lit "a" ++ [nl] ++ lit "b") (lit "p")).
  constructor; [|constructor]. unfold wf_chunk. simpl. split; [lia|]. split; [lia|].
  split; [exists (lit "a"); done|done].
Defined.

(** ** What an update means when its lines are there verbatim *)

(** [exact_edit L k cs out]: reading [L] from line [k], the chunks [cs] replace
    their old lines, found where [seek_sequence] finds them, and give [out]. *)
Inductive exact_edit (L : list str) : nat -> list UpdateFileChunk -> list str -> Prop :=
| exact_nil k : k <= length L -> exact_edit L k [] (drop k L)
| exact_cons k c cs k1 i out :
    k <= length L ->
    (match change_context c with
     | None => k1 = k
     | Some ctx => exists j, seek_sequence L [ctx] k false = Some j /\ k1 = j + 1
     end) ->
    old_lines c <> [] ->
    seek_sequence L (old_lines c) k1 (is_end_of_file c) = Some i ->
    take (length (old_lines c)) (drop i L) = old_lines c ->
    exact_edit L (i + length (old_lines c)) cs out ->
    exact_edit L k (c :: cs) (take (i - k) (drop k L) ++ new_lines c ++ out).

Lemma replacements_ok_app from rs mid rs' n :
  replacements_ok from rs mid -> replacements_ok mid rs' n -> from <= mid -> mid <= n ->
  replacements_ok from (rs ++ rs') n.
Proof.
  revert from. induction rs as [|[[s o] new] rs IH]; intros from; simpl.
  - intros _ H Hle _. by eapply replacements_ok_weaken.
  - intros (?&?&?) ? ??. split_and!; [lia|lia|]. apply IH; [done|done|lia|done].
Qed.

Lemma sort_by_start_id from rs n : replacements_ok from rs n -> sort_by_start rs = rs.
Proof.
  revert from. induction rs as [|[[s o] new] rs IH]; intros from; simpl; [done|].
  intros (_ & _ & H). rewrite (IH (s + o)) by done. destruct rs as [|[[s' o'] new'] rs]; [done|].
  simpl in *. destruct (Nat.leb_spec s s'); [done|lia].
Qed.

Lemma exact_edit_compute {E} (mk : str -> E) L path k cs out :
  exact_edit L k cs out -> Forall wf_chunk cs -> forall rs,
  exists rs', compute_loop mk L path cs rs k = Return (rs ++ rs')
    /\ replacements_ok k rs' (length L) /\ replace_all rs' L = take k L ++ out.
Proof.
  induction 1 as [k Hk|k c cs k1 i out Hk Hctx Hne Hseek Hex Hedit IH]; intros Hwf rs.
  { exists []. simpl. rewrite app_nil_r, take_drop. auto. }
  inversion Hwf as [|?? Hc Hcs]; subst. cbn [compute_loop].
  assert (Hfc : find_context mk L path c k = Return k1 /\ k <= k1 <= length L).
  { unfold find_context. destruct (change_context c) as [ctx|]; [|subst; split; [done|lia]].
    destruct Hctx as (j & Hj & ->). rewrite Hj. split; [done|].
    apply seek_sequence_bounds in Hj; [|done]. simpl in Hj. lia. }
  destruct Hfc as [-> Hk1]. simpl.
  destruct (is_empty (old_lines c)) eqn:He; [by destruct (old_lines c)|]. clear He.
  unfold locate. rewrite Hseek.
  apply seek_sequence_bounds in Hseek; [|lia]. destruct Hseek as [Hi Hin].
  destruct (chunk_replacements_ok (E := E) i (old_lines c) (new_lines c) c rs Hc)
    as (rs1 & -> & Hok1 & Hall1); [done|done|]. simpl.
  destruct (IH Hcs (rs ++ rs1)) as (rs2 & Hrs2 & Hok2 & Hall2).
  exists (rs1 ++ rs2). rewrite Hrs2, <- app_assoc. split; [done|]. split.
  - eapply replacements_ok_app; [eapply replacements_ok_weaken; [|done]|done|..]; lia.
  - transitivity (replace_all rs1 (replace_all rs2 L)); [apply foldr_app|]. rewrite Hall2.
    rewrite <- take_take_drop, Hex, <- app_assoc, Hall1 by (rewrite length_take; lia).
    rewrite (app_assoc (take k L)), take_take_drop. do 2 f_equal. lia.
Qed.

(** An update does what the patch says. When the old lines of every chunk
    are in the file verbatim where the search looks, the new contents consist,
    line by line, of the original with each chunk's old lines replaced by its
    new lines, whatever context lines the chunk marks. *)
Theorem update_exact {E} (mk : str -> E) (contents path : str) cs out :
  Forall wf_chunk cs -> exact_edit (line_texts (parse contents)) 0 cs out ->
  exists f, new_contents_from_chunks mk contents path cs = Return (into_contents f)
    /\ line_texts f = out.
Proof.
  intros Hwf Hedit.
  destruct (exact_edit_compute mk _ path 0 cs out Hedit Hwf []) as (rs & Hrs & Hok & Hall).
  unfold new_contents_from_chunks, compute_replacements. rewrite Hrs. simpl.
  rewrite (sort_by_start_id 0 rs _ Hok).
  unfold line_texts in Hok. rewrite length_fmap in Hok.
  destruct (apply_replacements_spec (parse contents) rs Hok) as (f & -> & _ & Ht & _).
  exists f. split; [done|]. by rewrite Ht, Hall.
Qed.

Lemma update_exact_witness :
  exists f, new_contents_from_chunks id (lit "a" ++ [nl] ++ lit "b" ++ [nl] ++ lit "c") (lit "p")
      [mkChunk (Some (lit "a")) [lit "b"] [lit "x"; lit "y"] [] false] = Return (into_contents f)
    /\ line_texts f = [lit "a"; lit "x"; lit "y"; lit "c"].
Proof.
  apply (update_exact id (lit "a" ++ [nl] ++ lit "b" ++ [nl] ++ lit "c") (lit "p")).
  - constructor; [exact I|constructor].
  - apply (exact_cons [lit "a"; lit "b"; lit "c"] 0
      (mkChunk (Some (lit "a")) [lit "b"] [lit "x"; lit "y"] [] false) [] 1 1 [lit "c"]).
    + simpl. lia.
    + exists 0. split; [vm_compute; reflexivity|reflexivity].
    + discriminate.
    + vm_compute. reflexivity.
    + reflexivity.
    + apply (exact_nil [lit "a"; lit "b"; lit "c"] 2). simpl. lia.
Defined.

End FileUpdate.
