(* ===== verification/PatchApply.v ===== *)
(** * PatchApply: applying parsed hunks to a file system

    Models the application half of apply-patch/src/lib.rs. The file system is
    the trait [ExecutorFileSystem] and paths are [PathUri]s: both are classes
    here, so the loop over the hunks is written against their operations and
    the theorems are proved for every implementation that satisfies the stated
    laws. [MapFs] is such an implementation. *)

From S2P Require Import Prelude RustStr PatchText PatchParser PatchUpdate.
Import PatchSyntax.

Inductive ErrorKind := NotFound | AlreadyExists | InvalidInput | OtherKind.
Record IoErrorValue := mkIo { io_kind : ErrorKind; io_message : str }.

(** The path operations the code uses: [PathUri::join], [parent] and
    [inferred_native_path_string]. *)
Class PathOps (Uri UriError : Type) := {
  join_uri : Uri -> str -> result UriError Uri;
  parent_uri : Uri -> option Uri;
  native_path : Uri -> str;
  uri_error_message : UriError -> str;
}.

Record FileMetadata := mkMeta { is_directory : bool; is_file : bool; is_symlink : bool }.

(** The operations of [ExecutorFileSystem] the code uses, in one sandbox
    context; the boolean is [follow_symlinks]. Reads do not change the state. *)
Class FileSystem (Uri Fs : Type) := {
  read_file_text : Uri -> bool -> Fs -> result IoErrorValue str;
  get_metadata : Uri -> bool -> Fs -> result IoErrorValue FileMetadata;
  write_file : Uri -> str -> bool -> Fs -> Fs * result IoErrorValue unit;
  create_directory : Uri -> bool -> Fs -> Fs * result IoErrorValue unit;
  remove : Uri -> bool -> Fs -> Fs * result IoErrorValue unit;
}.

(** [std::io::Write]: [write_all] of a formatted string. *)
Class Writer (W : Type) := { write_all : str -> W -> W * result IoErrorValue unit }.

Module Apply.

Section Apply.
Context {Uri UriError Fs : Type} {paths_ops : PathOps Uri UriError} {files : FileSystem Uri Fs}.

Inductive ApplyPatchError :=
| ParseErrorE (e : ParseError)
| IoErrorE (context : str) (source : IoErrorValue)
| ComputeReplacements (message : str)
| PathUriE (e : UriError)
| ImplicitInvocation.

(** The [anyhow] errors that reach the end of the loop. *)
Inductive AnyError :=
| AnyMessage (m : str)
| AnyUri (e : UriError)
| AnyPatch (e : ApplyPatchError)
| AnyIo (context : str) (source : IoErrorValue).

Inductive AppliedPatchFileChange :=
| ChangeAdd (content : str) (overwritten_content : option str)
| ChangeDelete (content : str)
| ChangeUpdate (move_path : option Uri) (old_content : str)
    (overwritten_move_content : option str) (new_content : str).

Record AppliedPatchChange := mkChange { change_path : Uri; change : AppliedPatchFileChange }.
Record AppliedPatchDelta := mkDelta { changes : list AppliedPatchChange; exact : bool }.

Definition empty_delta : AppliedPatchDelta := mkDelta [] true.
(** [AppliedPatchDelta::append] *)
Definition append_delta (d e : AppliedPatchDelta) : AppliedPatchDelta :=
  mkDelta (changes d ++ changes e) (exact d && exact e).

Record AffectedPaths := mkAffected { added : list str; modified : list str; deleted : list str }.

(** The file system and the delta threaded through the loop. *)
Record World := mkWorld { w_fs : Fs; w_delta : AppliedPatchDelta }.
Definition M (A : Type) : Type := World -> World * outcome AnyError A.

#[local] Instance M_ret : MRet M := fun A a w => (w, Return a).
#[local] Instance M_bind : MBind M := fun A B k m w =>
  match m w with
  | (w, Return a) => k a w
  | (w, Throw e) => (w, Throw e)
  | (w, Panic) => (w, Panic)
  end.

Definition throw {A} (e : AnyError) : M A := fun w => (w, Throw e).
Definition query {A} (f : Fs -> A) : M A := fun w => (w, Return (f (w_fs w))).
Definition command {A} (f : Fs -> Fs * A) : M A := fun w =>
  let '(s, a) := f (w_fs w) in (mkWorld s (w_delta w), Return a).
Definition update_delta (f : AppliedPatchDelta -> AppliedPatchDelta) : M unit := fun w =>
  (mkWorld (w_fs w) (f (w_delta w)), Return tt).
(** [delta.exact = false] and [delta.exact &= b] *)
Definition and_exact (b : bool) : M unit :=
  update_delta (fun d => mkDelta (changes d) (exact d && b)).
Definition push_applied (c : AppliedPatchChange) : M unit :=
  update_delta (fun d => mkDelta (changes d ++ [c]) (exact d)).

(** [?] on a result, and on an io result with context. *)
Definition lift {A E} (f : E -> AnyError) (r : result E A) : M A :=
  match r with Ok a => mret a | Err e => throw (f e) end.

(** [try_write!] *)
Definition try_write {A} (r : result AnyError A) : M A :=
  match r with
  | Ok a => mret a
  | Err e => and_exact false ≫= fun _ => throw e
  end.

Definition with_path (prefix : str) (p : Uri) : str := prefix ++ native_path p.

Section Options.
Context (follow_symlinks : bool).

Definition note_existing_path_delta_support (path : Uri) : M unit :=
  m ← query (get_metadata path follow_symlinks);
  match m with
  | Ok m => if is_file m && negb (is_symlink m) then mret tt else and_exact false
  | Err e => match io_kind e with NotFound => mret tt | _ => and_exact false end
  end.

Definition read_optional_file_text_for_delta (path : Uri) : M (option str) :=
  _ ← note_existing_path_delta_support path;
  r ← query (read_file_text path follow_symlinks);
  match r with
  | Ok content => mret (Some content)
  | Err e =>
      match io_kind e with
      | NotFound => mret None
      | _ => _ ← and_exact false; mret None
      end
  end.

Definition write_file_with_missing_parent_retry (path : Uri) (contents : str)
    : M (result AnyError unit) :=
  r ← command (write_file path contents follow_symlinks);
  let failed e := AnyIo (with_path (lit "Failed to write file ") path) e in
  match r with
  | Ok _ => mret (Ok tt)
  | Err e =>
      match io_kind e with
      | NotFound =>
          d ← match parent_uri path with
              | None => mret (Ok tt)
              | Some parent => command (create_directory parent follow_symlinks)
              end;
          match d with
          | Err e =>
              mret (Err (AnyIo (with_path (lit "Failed to create parent directories for ") path) e))
          | Ok _ =>
              r ← command (write_file path contents follow_symlinks);
              mret (map_err failed r)
          end
      | _ => mret (Err (failed e))
      end
  end.

Definition ensure_not_directory (path : Uri) : M (result IoErrorValue unit) :=
  m ← query (get_metadata path follow_symlinks);
  mret (match m with
        | Err e => Err e
        | Ok m => if is_directory m then Err (mkIo InvalidInput (lit "path is a directory")) else Ok tt
        end).

Definition remove_failure_was_side_effect_free (path : Uri) (expected : option str) : M bool :=
  match expected with
  | None => mret false
  | Some expected =>
      r ← query (read_file_text path follow_symlinks);
      mret (match r with Ok content => str_eqb content expected | Err _ => false end)
  end.

(** [derive_new_contents_from_chunks]: the read, then the pure update. *)
Definition derive_new_contents_from_chunks (path : Uri) (chunks : list UpdateFileChunk)
    : M (str * str) :=
  r ← query (read_file_text path follow_symlinks);
  original_contents ←
    lift (fun e => AnyPatch (IoErrorE (with_path (lit "Failed to read file to update ") path) e)) r;
  match FileUpdate.new_contents_from_chunks ComputeReplacements original_contents
          (native_path path) chunks with
  | Return new_contents => mret (original_contents, new_contents)
  | Throw e => throw (AnyPatch e)
  | Panic => fun w => (w, Panic)
  end.

(** Removing a file after checking that it is no directory; a failed removal
    keeps the delta exact only if the file is still there unchanged. *)
Definition checked_remove (prefix : str) (path : Uri) (expected : option str) : M unit :=
  let failed e := AnyIo (with_path prefix path) e in
  d ← ensure_not_directory path;
  _ ← lift failed d;
  r ← command (remove path follow_symlinks);
  match r with
  | Ok _ => mret tt
  | Err e =>
      unchanged ← remove_failure_was_side_effect_free path expected;
      _ ← and_exact unchanged;
      throw (failed e)
  end.

(** [Hunk::resolve_path] *)
Definition resolve_path (cwd : Uri) (h : Hunk) : result UriError Uri :=
  join_uri cwd (match h with UpdateFile path _ _ => path | _ => hunk_path h end).

(** [delta.changes[dest_write_change_index] = ...] *)
Definition set_change (i : nat) (c : AppliedPatchChange) : M unit :=
  update_delta (fun d => mkDelta (<[i := c]> (changes d)) (exact d)).

Definition apply_add (path : Uri) (contents : str) : M unit :=
  overwritten_content ← read_optional_file_text_for_delta path;
  r ← write_file_with_missing_parent_retry path contents;
  _ ← try_write r;
  push_applied (mkChange path (ChangeAdd contents overwritten_content)).

Definition apply_delete (path : Uri) : M unit :=
  _ ← note_existing_path_delta_support path;
  r ← query (read_file_text path follow_symlinks);
  let deleted_content := ok r in
  _ ← match deleted_content with None => and_exact false | Some _ => mret tt end;
  _ ← checked_remove (lit "Failed to delete file ") path deleted_content;
  match deleted_content with
  | Some content => push_applied (mkChange path (ChangeDelete content))
  | None => mret tt
  end.

Definition apply_update (cwd path : Uri) (move_path : option str) (chunks : list UpdateFileChunk)
    : M unit :=
  _ ← note_existing_path_delta_support path;
  '(original_contents, new_contents) ← derive_new_contents_from_chunks path chunks;
  match move_path with
  | Some dest =>
      dest_uri ← lift AnyUri (join_uri cwd dest);
      overwritten_move_content ← read_optional_file_text_for_delta dest_uri;
      r ← write_file_with_missing_parent_retry dest_uri new_contents;
      _ ← try_write r;
      index ← (fun w => (w, Return (length (changes (w_delta w)))));
      _ ← push_applied (mkChange dest_uri (ChangeAdd new_contents overwritten_move_content));
      _ ← checked_remove (lit "Failed to remove original ") path (Some original_contents);
      set_change index
        (mkChange path
           (ChangeUpdate (Some dest_uri) original_contents overwritten_move_content new_contents))
  | None =>
      r ← command (write_file path new_contents follow_symlinks);
      _ ← try_write (map_err (AnyIo (with_path (lit "Failed to write file ") path)) r);
      push_applied (mkChange path (ChangeUpdate None original_contents None new_contents))
  end.

(** One iteration of the loop; the affected path is listed only on success. *)
Definition apply_hunk (cwd : Uri) (h : Hunk) (paths : AffectedPaths) : M AffectedPaths :=
  path_uri ← lift AnyUri (resolve_path cwd h);
  match h with
  | AddFile _ contents =>
      _ ← apply_add path_uri contents;
      mret (mkAffected (added paths ++ [hunk_path h]) (modified paths) (deleted paths))
  | DeleteFile _ =>
      _ ← apply_delete path_uri;
      mret (mkAffected (added paths) (modified paths) (deleted paths ++ [hunk_path h]))
  | UpdateFile _ move_path chunks =>
      _ ← apply_update cwd path_uri move_path chunks;
      mret (mkAffected (added paths) (modified paths ++ [hunk_path h]) (deleted paths))
  end.

Fixpoint apply_loop (cwd : Uri) (hs : list Hunk) (paths : AffectedPaths) : M AffectedPaths :=
  match hs with
  | [] => mret paths
  | h :: hs => paths ← apply_hunk cwd h paths; apply_loop cwd hs paths
  end.

Definition apply_hunks_to_files (cwd : Uri) (hs : list Hunk) : M AffectedPaths :=
  if is_empty hs then throw (AnyMessage (lit "No files were modified."))
  else apply_loop cwd hs (mkAffected [] [] []).

End Options.

(** ** The entry points and what they print *)

Section Print.
Context {W : Type} {out : Writer W}.

Definition writeln (line : str) (w : W) : W * result IoErrorValue unit := write_all (line ++ [nl]) w.

Fixpoint write_lines (ls : list str) (w : W) : W * result IoErrorValue unit :=
  match ls with
  | [] => (w, Ok tt)
  | l :: ls =>
      match writeln l w with
      | (w, Ok _) => write_lines ls w
      | (w, Err e) => (w, Err e)
      end
  end.

Definition print_summary (affected : AffectedPaths) (w : W) : W * result IoErrorValue unit :=
  write_lines
    (lit "Success. Updated the following files:"
     :: ((fun p => lit "A " ++ p) <$> added affected)
     ++ ((fun p => lit "M " ++ p) <$> modified affected)
     ++ ((fun p => lit "D " ++ p) <$> deleted affected)) w.

(** [Display] of the errors. *)
Definition parse_error_message (e : ParseError) : str :=
  match e with
  | InvalidPatchError m => lit "invalid patch: " ++ m
  | InvalidHunkError m n => lit "invalid hunk at line " ++ show n ++ lit ", " ++ m
  end.
Definition patch_error_message (e : ApplyPatchError) : str :=
  match e with
  | ParseErrorE e => parse_error_message e
  | IoErrorE context source => context ++ lit ": " ++ io_message source
  | ComputeReplacements m => m
  | PathUriE e => uri_error_message e
  | ImplicitInvocation =>
      lit "patch detected without explicit call to apply_patch. Rerun as ["
      ++ [dquote] ++ lit "apply_patch" ++ [dquote] ++ lit ", " ++ [dquote] ++ lit "<patch>"
      ++ [dquote] ++ lit "]"
  end.
Definition any_message (e : AnyError) : str :=
  match e with
  | AnyMessage m => m
  | AnyUri e => uri_error_message e
  | AnyPatch e => patch_error_message e
  | AnyIo context _ => context
  end.

(** [ApplyPatchError::from(std::io::Error)] *)
Definition from_io (e : IoErrorValue) : ApplyPatchError := IoErrorE (lit "I/O error") e.

(** An [anyhow] error downcasts to the [std::io::Error] it carries, with or
    without context. *)
Definition into_patch_error (e : AnyError) : ApplyPatchError :=
  match e with
  | AnyIo _ io => from_io io
  | _ => IoErrorE (any_message e) (mkIo OtherKind (any_message e))
  end.

Record ApplyPatchFailure := mkFailure { failure_error : ApplyPatchError; failure_delta : AppliedPatchDelta }.
Definition without_delta (e : ApplyPatchError) : ApplyPatchFailure := mkFailure e empty_delta.

(** The state of an application: the file system, standard output and error. *)
Record Io := mkIoState { io_fs : Fs; io_out : W; io_err : W }.

Definition apply_hunks_with_options (hunks : list Hunk) (follow_symlinks : bool) (cwd : Uri) (s : Io)
    : Io * outcome ApplyPatchFailure AppliedPatchDelta :=
  match apply_hunks_to_files follow_symlinks cwd hunks (mkWorld (io_fs s) empty_delta) with
  | (w, Return affected) =>
      let '(o, r) := print_summary affected (io_out s) in
      (mkIoState (w_fs w) o (io_err s),
       match r with
       | Ok _ => Return (w_delta w)
       | Err e => Throw (mkFailure (from_io e) (w_delta w))
       end)
  | (w, Throw error) =>
      let '(o, r) := writeln (any_message error) (io_err s) in
      (mkIoState (w_fs w) (io_out s) o,
       Throw (mkFailure (match r with Ok _ => into_patch_error error | Err e => from_io e end)
                (w_delta w)))
  | (w, Panic) => (mkIoState (w_fs w) (io_out s) (io_err s), Panic)
  end.

Definition apply_patch_with_options (patch : str) (follow_symlinks : bool) (cwd : Uri) (s : Io)
    : Io * outcome ApplyPatchFailure AppliedPatchDelta :=
  match PatchParse.parse_patch patch with
  | Ok source => apply_hunks_with_options (args_hunks source) follow_symlinks cwd s
  | Err e =>
      let line := match e with
        | InvalidPatchError m => lit "Invalid patch: " ++ m
        | InvalidHunkError m n => lit "Invalid patch hunk on line " ++ show n ++ lit ": " ++ m
        end in
      let '(o, r) := writeln line (io_err s) in
      (mkIoState (io_fs s) (io_out s) o,
       Throw (without_delta (match r with Ok _ => ParseErrorE e | Err e => from_io e end)))
  end.

(** [ApplyPatchOptions::default] follows symlinks. *)
Definition apply_patch (patch : str) (cwd : Uri) (s : Io) : Io * outcome ApplyPatchFailure AppliedPatchDelta :=
  apply_patch_with_options patch true cwd s.

Definition apply_hunks (hunks : list Hunk) (cwd : Uri) (s : Io)
    : Io * outcome ApplyPatchFailure AppliedPatchDelta :=
  apply_hunks_with_options hunks true cwd s.

(** The delta a caller receives, on success and on failure. *)
Definition reported (r : outcome ApplyPatchFailure AppliedPatchDelta) : option AppliedPatchDelta :=
  match r with
  | Return d => Some d
  | Throw f => Some (failure_delta f)
  | Panic => None
  end.
End Print.

(** ** Laws of a file system without aliased paths *)

Section Laws.
Context {uri_eq : EqDecision Uri} {uri_countable : Countable Uri}.

(** A regular file that is no symlink, or nothing at all. *)
Definition plain (fl : bool) (s : Fs) (p : Uri) : Prop :=
  match get_metadata p fl s with
  | Ok m => is_file m = true /\ is_symlink m = false
  | Err e => io_kind e = NotFound
  end.

(** [view s] is the text files of [s]. A successful write or removal at a plain
    path changes that entry only; a write that fails with [NotFound] and the
    creation of parent directories change no file; a failed removal
    has removed the file or left it as it was. *)
Class FlatFileSystem := {
  view : Fs -> gmap Uri str;
  read_view p fl s c : read_file_text p fl s = Ok c -> view s !! p = Some c;
  read_missing p fl s e :
    read_file_text p fl s = Err e -> io_kind e = NotFound -> view s !! p = None;
  write_view p c fl s s' :
    plain fl s p -> write_file p c fl s = (s', Ok tt) -> view s' = <[p := c]> (view s);
  write_not_found p c fl s s' e :
    write_file p c fl s = (s', Err e) -> io_kind e = NotFound ->
    view s' = view s /\ (plain fl s p -> plain fl s' p);
  mkdir_view p q fl s s' r :
    parent_uri p = Some q -> create_directory q fl s = (s', r) ->
    view s' = view s /\ (plain fl s p -> plain fl s' p);
  remove_view p fl s s' : remove p fl s = (s', Ok tt) -> view s' = delete p (view s);
  remove_failed p fl s s' e :
    remove p fl s = (s', Err e) -> view s' = view s \/ view s' = delete p (view s);
}.

(** Replaying and undoing a recorded change on a map of files. *)
Definition replay_change (m : gmap Uri str) (c : AppliedPatchChange) : gmap Uri str :=
  let p := change_path c in
  match change c with
  | ChangeAdd content _ => <[p := content]> m
  | ChangeDelete _ => delete p m
  | ChangeUpdate None _ _ new => <[p := new]> m
  | ChangeUpdate (Some d) _ _ new => delete p (<[d := new]> m)
  end.
Definition restore (p : Uri) (o : option str) (m : gmap Uri str) : gmap Uri str :=
  match o with Some c => <[p := c]> m | None => delete p m end.
Definition undo_change (c : AppliedPatchChange) (m : gmap Uri str) : gmap Uri str :=
  let p := change_path c in
  match change c with
  | ChangeAdd _ overwritten => restore p overwritten m
  | ChangeDelete content => <[p := content]> m
  | ChangeUpdate None old _ _ => <[p := old]> m
  | ChangeUpdate (Some d) old overwritten _ => <[p := old]> (restore d overwritten m)
  end.
Definition replay (cs : list AppliedPatchChange) (m : gmap Uri str) : gmap Uri str :=
  foldl replay_change m cs.
Definition undo (cs : list AppliedPatchChange) (m : gmap Uri str) : gmap Uri str :=
  foldr undo_change m cs.

Lemma restore_id p (m : gmap Uri str) : restore p (m !! p) m = m.
Proof.
  unfold restore. destruct (m !! p) eqn:H; [by apply insert_id|by apply delete_id].
Qed.
Lemma restore_insert p o c (m : gmap Uri str) : restore p o (<[p := c]> m) = restore p o m.
Proof. destruct o; simpl; [apply insert_insert_eq|apply delete_insert_eq]. Qed.

(** ** A program logic for the loop *)

Definition hoare {A} (P : World -> Prop) (m : M A) (Q : A -> World -> Prop)
    (X : World -> Prop) : Prop :=
  forall w, P w -> match m w with
  | (w', Return a) => Q a w'
  | (w', Throw _) => X w'
  | (w', Panic) => X w'
  end.

Lemma hoare_bind {A B} P (m : M A) (k : A -> M B) Q' Q X :
  hoare P m Q' X -> (forall a, hoare (Q' a) (k a) Q X) -> hoare P (m ≫= k) Q X.
Proof.
  intros Hm Hk w Hw. specialize (Hm w Hw). unfold mbind, M_bind.
  destruct (m w) as [w' [a| |]]; [|done..]. by apply Hk.
Qed.
Lemma hoare_ret {A} (a : A) P (Q : A -> World -> Prop) X :
  (forall w, P w -> Q a w) -> hoare P (mret a) Q X.
Proof. intros H w Hw. by apply H. Qed.
Lemma hoare_throw {A} e P (Q : A -> World -> Prop) (X : World -> Prop) :
  (forall w, P w -> X w) -> hoare P (throw e) Q X.
Proof. intros H w Hw. by apply H. Qed.
Lemma hoare_conseq {A} (P P' : World -> Prop) (m : M A) Q X :
  hoare P m Q X -> (forall w, P' w -> P w) -> hoare P' m Q X.
Proof. intros H HP w Hw. by apply H, HP. Qed.

Section Faithful.
Context {flat : FlatFileSystem} (fl : bool) (s0 : Fs).

(** The delta, while it is exact, describes how to get from [s0] to [m] and
    back. *)
Definition describes (cs : list AppliedPatchChange) (m : gmap Uri str) : Prop :=
  m = replay cs (view s0) /\ undo cs m = view s0.
Definition inv (w : World) : Prop :=
  exact (w_delta w) = true -> describes (changes (w_delta w)) (view (w_fs w)).

(** The file system is [s]; if the delta is still exact it describes [s] and
    [P] holds. *)
Definition here (s : Fs) (P : Prop) (w : World) : Prop :=
  w_fs w = s /\ (exact (w_delta w) = true -> describes (changes (w_delta w)) (view s) /\ P).

Lemma here_inv s P w : here s P w -> inv w.
Proof. intros [Hs H] He. rewrite Hs. by apply H. Qed.

Lemma describes_snoc cs m c m' :
  describes cs m -> m' = replay_change m c -> undo_change c m' = m -> describes (cs ++ [c]) m'.
Proof.
  intros [H1 H2] Hm' Hu. unfold describes, replay, undo in *. split.
  - by rewrite foldl_snoc, <- H1.
  - by rewrite foldr_app, <- H2, <- Hu at 1.
Qed.

Lemma note_spec p s P :
  hoare (here s P) (note_existing_path_delta_support fl p)
    (fun _ => here s (P /\ plain fl s p)) inv.
Proof.
  intros w [Hs H]. unfold note_existing_path_delta_support, query. unfold mbind, M_bind. simpl.
  assert (Hyes : plain fl s p -> here s (P /\ plain fl s p) w).
  { intros Hp. split; [done|]. intros He. destruct (H He). auto. }
  assert (Hno : here s (P /\ plain fl s p)
    (mkWorld (w_fs w) (mkDelta (changes (w_delta w)) (exact (w_delta w) && false)))).
  { split; [done|]. simpl. by rewrite andb_false_r. }
  rewrite Hs. destruct (get_metadata p fl s) as [m|e] eqn:Hm; simpl.
  - destruct (is_file m) eqn:Hf; [destruct (is_symlink m) eqn:Hy|]; simpl; [done| |done].
    apply Hyes. unfold plain. by rewrite Hm.
  - destruct (io_kind e) eqn:Hk; simpl; [|done..]. apply Hyes. unfold plain. by rewrite Hm.
Qed.

Lemma read_optional_spec p s P :
  hoare (here s P) (read_optional_file_text_for_delta fl p)
    (fun o => here s (P /\ plain fl s p /\ view s !! p = o)) inv.
Proof.
  eapply hoare_bind; [apply note_spec|]. intros _ w [Hs H].
  unfold query, mbind, M_bind. simpl. rewrite Hs.
  destruct (read_file_text p fl s) as [c|e] eqn:Hr; simpl.
  - split; [done|]. intros He. apply read_view in Hr. destruct (H He) as (? & ? & ?). by split_and!.
  - destruct (io_kind e) eqn:Hk; simpl; (split; [done|]); simpl; rewrite ?andb_false_r; [|by intros..].
    intros He. pose proof (read_missing _ _ _ _ Hr Hk).
    destruct (H He) as (? & ? & ?). by split_and!.
Qed.

(** Writing leaves the delta to be completed: it still describes [s]. *)
Definition written (s : Fs) (P : Prop) (p : Uri) (c : str) (r : result AnyError unit) (w : World)
    : Prop :=
  exact (w_delta w) = true -> r = Ok tt ->
  describes (changes (w_delta w)) (view s) /\ P /\ view (w_fs w) = <[p := c]> (view s).

Lemma write_retry_spec p c s P :
  hoare (here s (P /\ plain fl s p)) (write_file_with_missing_parent_retry fl p c)
    (written s P p c) inv.
Proof.
  intros w [Hs H]. unfold write_file_with_missing_parent_retry, command, mbind, M_bind.
  rewrite Hs. destruct (write_file p c fl s) as [s1 [[]|e]] eqn:Hw; simpl.
  { intros He _. destruct (H He) as (? & ? & Hp). split_and!; [done..|]. by eapply write_view. }
  destruct (io_kind e) eqn:Hk; simpl; try done.
  destruct (write_not_found _ _ _ _ _ _ Hw Hk) as [Hv1 Hp1].
  destruct (parent_uri p) as [q|] eqn:Hq; simpl.
  - destruct (create_directory q fl s1) as [s2 [[]|e2]] eqn:Hd; simpl; [|done].
    destruct (mkdir_view _ _ _ _ _ _ Hq Hd) as [Hv2 Hp2].
    destruct (write_file p c fl s2) as [s3 [[]|e3]] eqn:Hw3; simpl; [|done].
    intros He _. destruct (H He) as (? & ? & Hp). split_and!; [done..|].
    rewrite <- Hv1, <- Hv2. eapply write_view; [|done]. auto.
  - destruct (write_file p c fl s1) as [s3 [[]|e3]] eqn:Hw3; simpl; [|done].
    intros He _. destruct (H He) as (? & ? & Hp). split_and!; [done..|].
    rewrite <- Hv1. eapply write_view; [|done]. auto.
Qed.

Lemma lift_spec {A E} (f : E -> AnyError) (r : result E A) (P : World -> Prop)
    (X : World -> Prop) :
  (forall w, P w -> X w) -> hoare P (lift f r) (fun a w => P w /\ r = Ok a) X.
Proof. intros HX w Hw. destruct r; simpl; auto. Qed.

Lemma try_write_spec s P p c r :
  hoare (written s P p c r) (try_write r) (fun _ => written s P p c (Ok tt)) inv.
Proof.
  intros w Hw. destruct r as [[]|e]; simpl; [done|].
  intros He. simpl in He. by rewrite andb_false_r in He.
Qed.

(** The delta is right, and while it is exact [P] still holds and the files went
    to a state that [R] accepts. *)
Definition settled (P : Prop) (R : gmap Uri str -> Prop) (w : World) : Prop :=
  inv w /\ (exact (w_delta w) = true -> P /\ R (view (w_fs w))).

(** Recording the change that completes the delta. *)
Lemma push_spec s P p c ch :
  (P -> <[p := c]> (view s) = replay_change (view s) ch
        /\ undo_change ch (<[p := c]> (view s)) = view s) ->
  hoare (written s P p c (Ok tt)) (push_applied ch)
    (fun _ => settled P (eq (<[p := c]> (view s)))) inv.
Proof.
  intros Hch w Hw. simpl in *. split; intros He; simpl in *;
    destruct (Hw He eq_refl) as (Hd & HP & Hv); [|done].
  destruct (Hch HP) as [H1 H2]. rewrite Hv. eapply describes_snoc; [exact Hd|done..].
Qed.

Lemma settled_weaken P P' (R R' : gmap Uri str -> Prop) w :
  (P -> P') -> (forall m, P -> R m -> R' m) -> settled P R w -> settled P' R' w.
Proof. intros HP HR [Hi H]. split; [done|]. intros He. destruct (H He). auto. Qed.

Lemma hoare_post {A} P (m : M A) (Q Q' : A -> World -> Prop) X :
  hoare P m Q X -> (forall a w, Q a w -> Q' a w) -> hoare P m Q' X.
Proof.
  intros H HQ w Hw. specialize (H w Hw). destruct (m w) as [w' [a| |]]; [|done..]. by apply HQ.
Qed.

Lemma apply_add_spec p c s P :
  hoare (here s P) (apply_add fl p c) (fun _ => settled P (eq (<[p := c]> (view s)))) inv.
Proof.
  eapply hoare_bind; [apply read_optional_spec|].
  intros o. eapply hoare_bind.
  { eapply hoare_conseq; [apply (write_retry_spec p c s (P /\ view s !! p = o))|].
    intros w [Hs H]. split; [done|]. intros He. destruct (H He) as (? & ? & ? & ?). auto. }
  intros r. eapply hoare_bind; [apply try_write_spec|]. intros ?.
  eapply hoare_post; [apply push_spec|].
  - intros [_ Ho]. split; [done|]. change (restore p o (<[p := c]> (view s)) = view s).
    rewrite restore_insert, <- Ho. apply restore_id.
  - intros ? w. by apply settled_weaken; [intros []|].
Qed.

(** A removal that reports success deletes the entry; one that reports failure
    leaves a delta that is inexact or still right. *)
Lemma checked_remove_spec prefix p expected s P :
  hoare (here s P) (checked_remove fl prefix p expected)
    (fun _ w => exact (w_delta w) = true ->
       view (w_fs w) = delete p (view s) /\ describes (changes (w_delta w)) (view s) /\ P) inv.
Proof.
  intros w [Hs Hi]. unfold checked_remove, ensure_not_directory, query, command, mbind, M_bind.
  assert (Hinv : inv w) by (intros He; rewrite Hs; by apply Hi).
  rewrite Hs. simpl. destruct (get_metadata p fl s) as [m|e]; simpl; [|done].
  destruct (is_directory m); simpl; [done|]. rewrite Hs.
  destruct (remove p fl s) as [s' [[]|e]] eqn:Hr; simpl.
  { intros He. split; [by eapply remove_view|]. by apply Hi. }
  destruct expected as [c|]; simpl; intros He; simpl in *;
    apply andb_true_iff in He as [He Hu]; [|done].
  destruct (read_file_text p fl s') as [c'|] eqn:Hc; simpl in Hu; [|done].
  apply read_view in Hc. destruct (remove_failed _ _ _ _ _ Hr) as [->|Hd].
  - by apply Hi.
  - rewrite Hd, lookup_delete_eq in Hc. done.
Qed.

Lemma checked_remove_changes prefix p expected w :
  changes (w_delta (checked_remove fl prefix p expected w).1) = changes (w_delta w).
Proof.
  unfold checked_remove, ensure_not_directory, query, command, mbind, M_bind. simpl.
  destruct (get_metadata p fl (w_fs w)) as [m|e]; simpl; [|done].
  destruct (is_directory m); simpl; [done|].
  destruct (remove p fl (w_fs w)) as [s' [[]|e]]; simpl; [done|].
  by destruct expected.
Qed.

Lemma read_spec p s P :
  hoare (here s P) (query (read_file_text p fl))
    (fun r => here s (P /\ forall c, r = Ok c -> view s !! p = Some c)) inv.
Proof.
  intros w [Hs H]. unfold query. split; [done|]. intros He. destruct (H He) as [Hd HP].
  split_and!; [done..|]. intros c Hc. simpl in Hc. rewrite Hs in Hc. by eapply read_view.
Qed.

Lemma apply_delete_spec p s P :
  hoare (here s P) (apply_delete fl p)
    (fun _ => settled P (fun m => is_Some (view s !! p) /\ delete p (view s) = m)) inv.
Proof.
  eapply hoare_bind; [apply note_spec|].
  intros ?. eapply hoare_bind; [apply read_spec|]. intros r.
  apply (hoare_bind _ _ _ (fun _ => here s (P /\ exists c, ok r = Some c /\ view s !! p = Some c))).
  { intros w [Hs H]. destruct r as [c|e]; simpl; (split; [done|]); simpl;
      [|by rewrite andb_false_r].
    intros He. destruct (H He) as (? & (? & _) & HK). split_and!; [done..|].
    exists c. split; [done|]. by apply HK. }
  intros ?. eapply hoare_bind; [apply checked_remove_spec|].
  intros ? w Hw. destruct (ok r) as [c|] eqn:Hr; simpl.
  - split; intros He; simpl in *;
      destruct (Hw He) as (Hv & Hd & HP & (c' & [= <-] & Hc)); rewrite Hv; [|by rewrite Hc].
    eapply describes_snoc; [exact Hd|done|].
    change (<[p := c]> (delete p (view s)) = view s). rewrite insert_delete_eq. by apply insert_id.
  - split; intros He; by destruct (Hw He) as (_ & _ & _ & (? & ? & _)).
Qed.

Definition derived (p : Uri) (chunks : list UpdateFileChunk) (old new : str) : Prop :=
  FileUpdate.new_contents_from_chunks ComputeReplacements old (native_path p) chunks
  = Return new.

Lemma derive_spec p chunks s P :
  hoare (here s P) (derive_new_contents_from_chunks fl p chunks)
    (fun r => here s (P /\ view s !! p = Some r.1 /\ derived p chunks r.1 r.2)) inv.
Proof.
  eapply hoare_bind; [apply read_spec|]. intros r. eapply hoare_bind.
  { apply lift_spec. intros w. apply here_inv. }
  intros c w [[Hs H] ->]. assert (Hinv : inv w) by (intros He; rewrite Hs; by apply H).
  destruct (FileUpdate.new_contents_from_chunks _ _ _ _) eqn:Hn; simpl; [|done..].
  split; [done|]. intros He. destruct (H He) as (? & ? & HK). split_and!; [done..| |done]. by apply HK.
Qed.

(** Undoing a recorded move. *)
Lemma undo_move p d old new (m : gmap Uri str) :
  m !! p = Some old ->
  <[p := old]> (restore d (m !! d) (delete p (<[d := new]> m))) = m.
Proof.
  intros Hp. apply map_eq. intros q. destruct (decide (q = p)) as [->|Hq].
  { by rewrite lookup_insert_eq. }
  rewrite lookup_insert_ne by done. unfold restore. destruct (decide (q = d)) as [->|Hd].
  - destruct (m !! d) eqn:E; [by rewrite lookup_insert_eq|by rewrite lookup_delete_eq].
  - destruct (m !! d) eqn:E; rewrite ?lookup_insert_ne, ?lookup_delete_ne by done;
      rewrite ?lookup_insert_ne; done.
Qed.

Lemma apply_move_spec p dest old new s P :
  hoare (here s (P /\ view s !! p = Some old))
    (overwritten_move_content ← read_optional_file_text_for_delta fl dest;
     r ← write_file_with_missing_parent_retry fl dest new;
     _ ← try_write r;
     index ← (fun w => (w, Return (length (changes (w_delta w)))));
     _ ← push_applied (mkChange dest (ChangeAdd new overwritten_move_content));
     _ ← checked_remove fl (lit "Failed to remove original ") p (Some old);
     set_change index (mkChange p (ChangeUpdate (Some dest) old overwritten_move_content new)))
    (fun _ => settled P (eq (delete p (<[dest := new]> (view s))))) inv.
Proof.
  eapply hoare_bind; [apply read_optional_spec|]. intros o. eapply hoare_bind.
  { eapply hoare_conseq;
      [apply (write_retry_spec dest new s ((P /\ view s !! p = Some old) /\ view s !! dest = o))|].
    intros w [Hs H]. split; [done|]. intros He. destruct (H He) as (? & ? & ? & ?). auto. }
  intros r. eapply hoare_bind; [apply try_write_spec|]. intros ? w Hw.
  set (add := mkChange dest (ChangeAdd new o)).
  set (w1 := mkWorld (w_fs w) (mkDelta (changes (w_delta w) ++ [add]) (exact (w_delta w)))).
  set (K := view (w_fs w) = <[dest := new]> (view s) /\ describes (changes (w_delta w)) (view s)
    /\ P /\ view s !! p = Some old /\ view s !! dest = o).
  assert (H1 : here (w_fs w) K w1).
  { split; [done|]. intros He. destruct (Hw He eq_refl) as (Hd & [[HP Hp] Ho] & Hv).
    split; [|by split_and!]. simpl. rewrite Hv. eapply describes_snoc; [exact Hd|done|].
    change (restore dest o (<[dest := new]> (view s)) = view s).
    rewrite restore_insert, <- Ho. apply restore_id. }
  unfold mbind, M_bind. simpl. fold add. fold w1.
  pose proof (checked_remove_spec (lit "Failed to remove original ") p (Some old) _ K w1 H1) as H2.
  pose proof (checked_remove_changes (lit "Failed to remove original ") p (Some old) w1) as H3.
  destruct (checked_remove _ _ _ _ w1) as [w2 [[]| |]]; simpl in *; [|done..].
  split; intros He; simpl in *; destruct (H2 He) as (Hv2 & _ & Hv & Hd & HP & Hp & Ho);
    rewrite Hv2, Hv; [|done].
  rewrite H3, insert_app_r_alt, Nat.sub_diag by lia. simpl.
  eapply describes_snoc; [exact Hd|done|].
  change (<[p := old]> (restore dest o (delete p (<[dest := new]> (view s)))) = view s).
  rewrite <- Ho. by apply undo_move.
Qed.

Lemma rewrite_in_place_spec p old new s P :
  hoare (here s (P /\ plain fl s p /\ view s !! p = Some old))
    (r ← command (write_file p new fl);
     _ ← try_write (map_err (AnyIo (with_path (lit "Failed to write file ") p)) r);
     push_applied (mkChange p (ChangeUpdate None old None new)))
    (fun _ => settled P (eq (<[p := new]> (view s)))) inv.
Proof.
  apply (hoare_bind _ _ _ (fun r => written s (P /\ view s !! p = Some old) p new
    (map_err (AnyIo (with_path (lit "Failed to write file ") p)) r))).
  - intros w [Hs H]. unfold command. rewrite Hs.
    destruct (write_file p new fl s) as [s' [[]|e]] eqn:Hw; simpl; intros He Hr; [|done].
    destruct (H He) as (? & ? & ? & ?). split_and!; [done..|]. by eapply write_view.
  - intros r. eapply hoare_bind; [apply try_write_spec|]. intros ?.
    eapply hoare_post; [apply push_spec|].
    + intros [_ Ho]. split; [done|]. change (<[p := old]> (<[p := new]> (view s)) = view s).
      rewrite insert_insert_eq. by apply insert_id.
    + intros ? w. by apply settled_weaken; [intros []|].
Qed.

(** What a hunk asks for, on the map of files. *)
Inductive hunk_step (cwd : Uri) : Hunk -> gmap Uri str -> gmap Uri str -> Prop :=
| step_add path p contents m :
    join_uri cwd path = Ok p -> hunk_step cwd (AddFile path contents) m (<[p := contents]> m)
| step_delete path p old m :
    join_uri cwd path = Ok p -> m !! p = Some old ->
    hunk_step cwd (DeleteFile path) m (delete p m)
| step_update path p chunks old new m :
    join_uri cwd path = Ok p -> m !! p = Some old -> derived p chunks old new ->
    hunk_step cwd (UpdateFile path None chunks) m (<[p := new]> m)
| step_move path p dest d chunks old new m :
    join_uri cwd path = Ok p -> join_uri cwd dest = Ok d -> m !! p = Some old ->
    derived p chunks old new ->
    hunk_step cwd (UpdateFile path (Some dest) chunks) m (delete p (<[d := new]> m)).

(** The hunks, one after the other. *)
Inductive hunk_steps (cwd : Uri) : list Hunk -> gmap Uri str -> gmap Uri str -> Prop :=
| steps_nil m : hunk_steps cwd [] m m
| steps_snoc hs h m m' m'' :
    hunk_steps cwd hs m m' -> hunk_step cwd h m' m'' -> hunk_steps cwd (hs ++ [h]) m m''.

Lemma apply_update_spec cwd path p mv chunks s P :
  join_uri cwd path = Ok p ->
  hoare (here s P) (apply_update fl cwd p mv chunks)
    (fun _ => settled P (hunk_step cwd (UpdateFile path mv chunks) (view s))) inv.
Proof.
  intros Hpath. eapply hoare_bind; [apply note_spec|].
  intros ?. eapply hoare_bind; [apply derive_spec|]. intros [old new]. destruct mv as [dest|]; simpl.
  - eapply hoare_bind; [apply lift_spec; intros w; apply here_inv|].
    intros d. eapply hoare_post; [eapply hoare_conseq|].
    + apply (apply_move_spec p d old new s
        (P /\ join_uri cwd dest = Ok d /\ view s !! p = Some old /\ derived p chunks old new)).
    + intros w [[Hs H] ?]. split; [done|]. intros He.
      destruct (H He) as (? & [] & ? & ?). by split_and!.
    + intros ? w. apply settled_weaken; [by intros []|].
      intros m (_ & ? & ? & ?) <-. by eapply step_move.
  - eapply hoare_post; [eapply hoare_conseq|].
    + apply (rewrite_in_place_spec p old new s
        (P /\ view s !! p = Some old /\ derived p chunks old new)).
    + intros w [Hs H]. split; [done|]. intros He. destruct (H He) as (? & [] & ? & ?). by split_and!.
    + intros ? w. apply settled_weaken; [by intros []|]. intros m (_ & ? & ?) <-. by eapply step_update.
Qed.

Lemma apply_hunk_spec cwd h paths s P :
  hoare (here s P) (apply_hunk fl cwd h paths)
    (fun _ => settled P (hunk_step cwd h (view s))) inv.
Proof.
  eapply hoare_bind; [apply lift_spec; intros w; apply here_inv|]. intros u.
  destruct h as [path c|path|path mv chunks].
  - apply (hoare_bind _ _ _ (fun _ => settled P (hunk_step cwd (AddFile path c) (view s)))).
    + intros w [Hw Hu].
      pose proof (apply_add_spec u c s P w Hw) as H. destruct (apply_add fl u c w) as [w' [[]| |]]; [|done..].
      revert H. apply settled_weaken; [done|]. intros m _ <-. by constructor.
    + intros ?. by apply hoare_ret.
  - apply (hoare_bind _ _ _ (fun _ => settled P (hunk_step cwd (DeleteFile path) (view s)))).
    + intros w [Hw Hu].
      pose proof (apply_delete_spec u s P w Hw) as H. destruct (apply_delete fl u w) as [w' [[]| |]]; [|done..].
      revert H. apply settled_weaken; [done|]. intros m _ [[old ?] <-]. by econstructor.
    + intros ?. by apply hoare_ret.
  - apply (hoare_bind _ _ _ (fun _ => settled P (hunk_step cwd (UpdateFile path mv chunks) (view s)))).
    + intros w [Hw Hu]. exact (apply_update_spec cwd path u mv chunks s P Hu w Hw).
    + intros ?. by apply hoare_ret.
Qed.

Lemma apply_loop_spec cwd hs0 hs paths :
  hoare (fun w => inv w /\ (exact (w_delta w) = true ->
            hunk_steps cwd hs0 (view s0) (view (w_fs w))))
    (apply_loop fl cwd hs paths)
    (fun _ w => inv w /\ (exact (w_delta w) = true ->
            hunk_steps cwd (hs0 ++ hs) (view s0) (view (w_fs w)))) inv.
Proof.
  revert hs0 paths. induction hs as [|h hs IH]; intros hs0 paths; simpl.
  - apply hoare_ret. by rewrite app_nil_r.
  - rewrite cons_middle, app_assoc. eapply hoare_bind; [|intros ps; apply IH].
    intros w [Hi Hr].
    pose proof (apply_hunk_spec cwd h paths (w_fs w) (hunk_steps cwd hs0 (view s0) (view (w_fs w))) w) as H.
    destruct (apply_hunk fl cwd h paths w) as [w' [ps| |]]; [|apply H; split; [done|]; auto..].
    destruct H as [Hi' H]; [split; [done|]; auto|]. split; [done|]. intros He.
    destruct (H He). by eapply steps_snoc.
Qed.

Lemma apply_hunks_to_files_spec cwd hs :
  hoare (fun w => w = mkWorld s0 empty_delta) (apply_hunks_to_files fl cwd hs)
    (fun _ w => inv w /\ (exact (w_delta w) = true ->
            hunk_steps cwd hs (view s0) (view (w_fs w)))) inv.
Proof.
  unfold apply_hunks_to_files. destruct (is_empty hs); [by apply hoare_throw; intros w ->|].
  eapply hoare_conseq; [apply (apply_loop_spec cwd [])|]. intros w ->. split; [done|]. constructor.
Qed.

End Faithful.

Section EntryPoint.
Context {flat : FlatFileSystem} {W : Type} {out : Writer W}.

(** Either the files were never touched, or the hunks of the patch ran. *)
Lemma apply_patch_cases patch fl cwd (s s' : Io (W := W)) r :
  apply_patch_with_options patch fl cwd s = (s', r) ->
  (io_fs s' = io_fs s /\ reported r = Some empty_delta /\ forall d, r <> Return d) \/
  exists args w o, PatchParse.parse_patch patch = Ok args
    /\ apply_hunks_to_files fl cwd (args_hunks args) (mkWorld (io_fs s) empty_delta) = (w, o)
    /\ io_fs s' = w_fs w
    /\ (forall d, reported r = Some d -> d = w_delta w)
    /\ (forall d, r = Return d -> exists a, o = Return a).
Proof.
  unfold apply_patch_with_options. destruct (PatchParse.parse_patch patch) as [args|e].
  - unfold apply_hunks_with_options.
    destruct (apply_hunks_to_files _ _ _ _) as [w [a|e|]] eqn:Hw; intros H; right.
    + destruct (print_summary a (io_out s)) as [o ro].
      destruct ro; simplify_eq; exists args, w, (Return a); split_and!; naive_solver.
    + destruct (writeln _ _) as [o ro].
      destruct ro; simplify_eq; exists args, w, (Throw e); split_and!; naive_solver.
    + simplify_eq. exists args, w, Panic. split_and!; naive_solver.
  - destruct (writeln _ _) as [o ro]. intros H. left. destruct ro; simplify_eq; by split_and!.
Qed.

(** C1: the delta tells the truth. Whatever an application of a patch does,
    succeed or fail half way, if the delta it reports is marked exact then
    replaying the recorded changes on the initial files gives the final files,
    and undoing them in reverse order gives the initial files back. *)
Theorem apply_patch_delta_faithful patch fl cwd (s s' : Io (W := W)) r d :
  apply_patch_with_options patch fl cwd s = (s', r) ->
  reported r = Some d -> exact d = true ->
  view (io_fs s') = replay (changes d) (view (io_fs s))
  /\ undo (changes d) (view (io_fs s')) = view (io_fs s).
Proof.
  intros H Hd He. apply apply_patch_cases in H as [(-> & Hr & _)|(args & w & o & _ & Hw & -> & Hr & _)].
  - rewrite Hd in Hr. by injection Hr as ->.
  - pose proof (apply_hunks_to_files_spec fl (io_fs s) cwd (args_hunks args) _ eq_refl) as H.
    rewrite Hw in H. rewrite (Hr _ Hd) in *. destruct o; [destruct H as [H _]|..]; by apply H.
Qed.

(** C2: a successful application with an exact delta did what the patch
    says: the files moved through one step per hunk, in patch order, where an
    addition sets the contents, a deletion removes an existing file, an update
    replaces the contents by what the chunks derive from them, and a move also
    removes the original. *)
Theorem apply_patch_refines patch fl cwd (s s' : Io (W := W)) d :
  apply_patch_with_options patch fl cwd s = (s', Return d) -> exact d = true ->
  exists args, PatchParse.parse_patch patch = Ok args
    /\ hunk_steps cwd (args_hunks args) (view (io_fs s)) (view (io_fs s')).
Proof.
  intros H He. apply apply_patch_cases in H as [(_ & _ & Hn)|(args & w & o & Hp & Hw & -> & Hr & Ho)].
  { by destruct (Hn d). }
  exists args. split; [done|]. destruct (Ho d eq_refl) as [a ->].
  pose proof (apply_hunks_to_files_spec fl (io_fs s) cwd (args_hunks args) _ eq_refl) as H.
  rewrite Hw in H. rewrite (Hr d eq_refl) in He. by apply H.
Qed.

End EntryPoint.
End Laws.

(** ** Panics and summaries, for any file system *)

Definition total {A} (m : M A) : Prop := forall w, (m w).2 <> Panic.

Lemma total_bind {A B} (m : M A) (k : A -> M B) :
  total m -> (forall a, total (k a)) -> total (m ≫= k).
Proof.
  intros Hm Hk w. specialize (Hm w). unfold mbind, M_bind.
  destruct (m w) as [w' [a| |]]; [apply Hk|done..].
Qed.
Lemma total_ret {A} (a : A) : total (mret a).
Proof. done. Qed.
Lemma total_throw {A} e : total (throw e : M A).
Proof. done. Qed.
Lemma total_query {A} (f : Fs -> A) : total (query f).
Proof. done. Qed.
Lemma total_command {A} (f : Fs -> Fs * A) : total (command f).
Proof. intros w. unfold command. by destruct (f (w_fs w)). Qed.
Lemma total_update f : total (update_delta f).
Proof. done. Qed.
Lemma total_reader {A} (f : World -> A) : total (fun w => (w, Return (f w))).
Proof. done. Qed.

Create HintDb total.
#[local] Hint Resolve total_ret total_throw total_query total_command total_update total_reader : total.
Ltac solve_total := repeat (first
  [ solve [auto with total] | apply total_bind; [|intros ?]
  | progress unfold lift, try_write, and_exact, push_applied, set_change | case_match ]).

Lemma total_checked_remove fl prefix p e : total (checked_remove fl prefix p e).
Proof. unfold checked_remove, ensure_not_directory, remove_failure_was_side_effect_free. solve_total. Qed.
Lemma total_note fl p : total (note_existing_path_delta_support fl p).
Proof. unfold note_existing_path_delta_support. solve_total. Qed.
#[local] Hint Resolve total_checked_remove total_note : total.
Lemma total_read_optional fl p : total (read_optional_file_text_for_delta fl p).
Proof. unfold read_optional_file_text_for_delta. solve_total. Qed.
Lemma total_write fl p c : total (write_file_with_missing_parent_retry fl p c).
Proof. unfold write_file_with_missing_parent_retry. solve_total. Qed.
#[local] Hint Resolve total_read_optional total_write : total.

(** The only place where a panic could come from is the text update. *)
Lemma total_derive fl p chunks :
  Forall ChunkFacts.wf_chunk chunks -> total (derive_new_contents_from_chunks fl p chunks).
Proof.
  intros Hc. unfold derive_new_contents_from_chunks. apply total_bind; [auto with total|intros r].
  apply total_bind; [solve_total|intros original].
  destruct (FileUpdate.new_contents_ok ComputeReplacements original (native_path p) chunks Hc)
    as [[e ->]|(rs & f & _ & -> & _)]; auto with total.
Qed.

Lemma total_apply_hunk fl cwd h paths :
  ChunkFacts.hunk_done h -> total (apply_hunk fl cwd h paths).
Proof.
  intros Hh. unfold apply_hunk. apply total_bind; [solve_total|intros u].
  destruct h as [path c|path|path mv chunks].
  - unfold apply_add. solve_total.
  - unfold apply_delete. solve_total.
  - assert (Hc : Forall ChunkFacts.wf_chunk chunks).
    { destruct Hh as [_ Hh]. eapply Forall_impl; [exact Hh|]. by intros c []. }
    apply total_bind; [|solve_total]. unfold apply_update.
    apply total_bind; [solve_total|intros ?]. apply total_bind; [by apply total_derive|].
    intros [old new]. solve_total.
Qed.

Lemma total_apply_loop fl cwd hs paths :
  Forall ChunkFacts.hunk_done hs -> total (apply_loop fl cwd hs paths).
Proof.
  intros H. revert paths. induction H as [|h hs Hh _ IH]; intros paths; simpl; [done|].
  apply total_bind; [by apply total_apply_hunk|done].
Qed.

(** No patch text makes the application panic, whatever the file system
    and the output streams do: the result is a delta or a reported failure. *)
Theorem apply_patch_never_panics {W : Type} {out : Writer W} patch fl cwd (s : Io (W := W)) :
  (apply_patch_with_options patch fl cwd s).2 <> Panic.
Proof.
  unfold apply_patch_with_options. destruct (PatchParse.parse_patch patch) as [args|e] eqn:Hp.
  - assert (H : total (apply_hunks_to_files fl cwd (args_hunks args))).
    { unfold apply_hunks_to_files. destruct (is_empty _); [done|].
      by apply total_apply_loop, (ChunkFacts.parse_patch_hunks_done patch). }
    specialize (H (mkWorld (io_fs s) empty_delta)). unfold apply_hunks_with_options.
    destruct (apply_hunks_to_files _ _ _ _) as [w [a|x|]]; [..|done].
    + by destruct (print_summary a (io_out s)) as [? []].
    + by destruct (writeln _ _) as [? []].
  - by destruct (writeln _ _) as [? []].
Qed.

(** The paths a successful run lists. *)
Definition is_add (h : Hunk) : bool := match h with AddFile _ _ => true | _ => false end.
Definition is_delete (h : Hunk) : bool := match h with DeleteFile _ => true | _ => false end.
Definition is_update (h : Hunk) : bool := match h with UpdateFile _ _ _ => true | _ => false end.
Definition listed (f : Hunk -> bool) (hs : list Hunk) : list str :=
  hunk_path <$> List.filter f hs.

Lemma apply_hunk_paths fl cwd h ps w w' ps' :
  apply_hunk fl cwd h ps w = (w', Return ps') ->
  ps' = mkAffected (added ps ++ listed is_add [h]) (modified ps ++ listed is_update [h])
          (deleted ps ++ listed is_delete [h]).
Proof.
  unfold apply_hunk, mbind, M_bind. destruct (resolve_path cwd h); simpl; [|done].
  destruct h; simpl.
  - destruct (apply_add _ _ _ _) as [? [[]| |]]; [|done..]. intros [= _ <-].
    unfold listed. simpl. by rewrite !app_nil_r.
  - destruct (apply_delete _ _ _) as [? [[]| |]]; [|done..]. intros [= _ <-].
    unfold listed. simpl. by rewrite !app_nil_r.
  - destruct (apply_update _ _ _ _ _ _) as [? [[]| |]]; [|done..]. intros [= _ <-].
    unfold listed. simpl. by rewrite !app_nil_r.
Qed.

Lemma apply_loop_paths fl cwd hs ps w w' ps' :
  apply_loop fl cwd hs ps w = (w', Return ps') ->
  ps' = mkAffected (added ps ++ listed is_add hs) (modified ps ++ listed is_update hs)
          (deleted ps ++ listed is_delete hs).
Proof.
  revert ps w. induction hs as [|h hs IH]; intros ps w; simpl.
  - intros [= _ <-]. unfold listed. simpl. rewrite !app_nil_r. by destruct ps.
  - unfold mbind, M_bind. destruct (apply_hunk _ _ _ _ _) as [w1 [ps1| |]] eqn:Hh; [|done..].
    apply apply_hunk_paths in Hh as ->. intros H. apply IH in H as ->. simpl.
    unfold listed. destruct h; simpl; by rewrite ?app_nil_r, <- ?app_assoc.
Qed.

(** A successful application lists every hunk once, under its kind, in
    patch order; a moved file is listed under its new name. *)
Theorem apply_hunks_summary fl cwd hs w w' ps :
  apply_hunks_to_files fl cwd hs w = (w', Return ps) ->
  ps = mkAffected (listed is_add hs) (listed is_update hs) (listed is_delete hs).
Proof.
  unfold apply_hunks_to_files. destruct (is_empty hs); [done|]. apply apply_loop_paths.
Qed.

Section Move.
Context {uri_eq : EqDecision Uri} {uri_countable : Countable Uri} {flat : FlatFileSystem}.

(** Moving a file onto itself destroys it. When the move target resolves
    to the path being updated, a successful run with an exact delta leaves no
    file there: the new contents are written and then removed as the original. *)
Theorem move_onto_itself_deletes fl cwd path dest p chunks s w ps :
  join_uri cwd path = Ok p -> join_uri cwd dest = Ok p ->
  apply_hunks_to_files fl cwd [UpdateFile path (Some dest) chunks] (mkWorld s empty_delta)
    = (w, Return ps) ->
  exact (w_delta w) = true ->
  is_Some (view s !! p) /\ view (w_fs w) = delete p (view s).
Proof.
  intros Hp Hd Hw He.
  pose proof (apply_hunks_to_files_spec fl s cwd [UpdateFile path (Some dest) chunks] _ eq_refl) as H.
  rewrite Hw in H. destruct H as [_ H]. specialize (H He).
  inversion H as [|hs h m m' m'' Hs Hh Heq]; subst.
  assert (hs = [] /\ h = UpdateFile path (Some dest) chunks) as [-> ->].
  { by destruct hs as [|? [|]]; simplify_eq/=. }
  assert (m' = view s) as ->.
  { inversion Hs as [|hs' ? ? ? ? ? ? Hnil]; [done|]. by destruct hs'. }
  inversion Hh as [| | |? p' ? d ? old new ? Hp' Hd' Hold]; subst.
  rewrite Hp in Hp'. rewrite Hd in Hd'. injection Hp' as <-. injection Hd' as <-.
  split; [by eexists|]. by rewrite delete_insert_eq.
Qed.
End Move.

End Apply.
End Apply.

(** ** A file system that satisfies the laws *)
Module MapFs.

Record State := mkState { files : gmap str str; dirs : gset str }.

Definition slash : char := 47%N.
Definition not_found : IoErrorValue := mkIo NotFound (lit "no such file").
Definition refused : IoErrorValue := mkIo OtherKind (lit "not permitted").

Definition parent (p : str) : option str := fst <$> rsplit_once slash p.

#[export] Instance path_ops : PathOps str str := {
  join_uri cwd p := if is_empty p then Err (lit "empty path") else Ok (cwd ++ slash :: p);
  parent_uri := parent;
  native_path p := p;
  uri_error_message m := m;
}.

Definition metadata (p : str) (s : State) : result IoErrorValue FileMetadata :=
  if decide (p ∈ dirs s) then Ok (mkMeta true false false)
  else match files s !! p with
       | Some _ => Ok (mkMeta false true false)
       | None => Err not_found
       end.

#[export] Instance file_system : FileSystem str State := {
  read_file_text p _ s := ok_or (files s !! p) not_found;
  get_metadata p _ s := metadata p s;
  write_file p c _ s :=
    if decide (p ∈ dirs s) then (s, Err refused)
    else match parent p with
         | Some q =>
             if decide (q ∈ dirs s) then (mkState (<[p := c]> (files s)) (dirs s), Ok tt)
             else (s, Err not_found)
         | None => (mkState (<[p := c]> (files s)) (dirs s), Ok tt)
         end;
  create_directory q _ s :=
    match files s !! q with
    | Some _ => (s, Err refused)
    | None => (mkState (files s) ({[q]} ∪ dirs s), Ok tt)
    end;
  remove p _ s :=
    match files s !! p with
    | Some _ => (mkState (delete p (files s)) (dirs s), Ok tt)
    | None => (s, Err not_found)
    end;
}.

Lemma parent_ne p q : parent p = Some q -> p <> q.
Proof.
  unfold parent, rsplit_once. intros H ->.
  destruct (split_once slash (reverse q)) as [[a b]|] eqn:E; [|done].
  apply (inj Some) in H. simpl in H. apply (f_equal length) in H. rewrite length_reverse in H.
  assert (Hlen : forall s a b, split_once slash s = Some (a, b) -> length b < length s).
  { clear. induction s as [|c s IH]; intros a b; simpl; [done|].
    case_match; [intros [= <- <-]; lia|].
    destruct (split_once slash s) as [[a' b']|]; [|done]. intros [= <- <-].
    specialize (IH a' b' eq_refl). lia. }
  apply Hlen in E. rewrite length_reverse in E. lia.
Qed.

#[export] Program Instance flat : Apply.FlatFileSystem := {| Apply.view := files |}.
Next Obligation. intros p fl s c. simpl. by destruct (files s !! p); simpl; [intros [= <-]|]. Qed.
Next Obligation. intros p fl s e. simpl. by destruct (files s !! p). Qed.
Next Obligation. intros p c fl s s' _. simpl. repeat case_match; by intros [= <-]. Qed.
Next Obligation. intros p c fl s s' e. simpl. repeat case_match; by intros [= <- <-]. Qed.
Next Obligation.
  intros p q fl s s' r Hq. simpl. case_match; intros [= <- <-]; [done|]. split; [done|].
  unfold Apply.plain. simpl. unfold metadata. simpl. apply parent_ne in Hq.
  destruct (decide (p ∈ {[q]} ∪ dirs s)) as [Hin|];
    [|destruct (decide (p ∈ dirs s)); [by intros []|done]].
  rewrite decide_True; [done|]. apply elem_of_union in Hin as [Hin|]; [|done].
  apply elem_of_singleton in Hin. done.
Qed.
Next Obligation. intros p fl s s'. simpl. case_match; by intros [= <-]. Qed.
Next Obligation. intros p fl s s' e. simpl. case_match; intros [= <- <-]. by left. Qed.

(** Standard output and error as strings. *)
#[export] Instance string_writer : Writer str := { write_all l w := (w ++ l, Ok tt) }.

End MapFs.

(** ** Concrete applications *)
Module ApplyExamples.
Import Apply MapFs.

Definition fs0 : State :=
  mkState (<[lit "/a" := lit "one" ++ [nl]]> {[lit "/b" := lit "two" ++ [nl]]}) {[ [] ]}.
Definition io0 : Io (W := str) := mkIoState fs0 [] [].
Definition patch_of (ls : list str) : str :=
  join [nl] ([lit "*** Begin Patch"] ++ ls ++ [lit "*** End Patch"]).
Definition run (ls : list str) := apply_patch_with_options (patch_of ls) true [] io0.
Definition delta_of (ls : list str) : AppliedPatchDelta := default empty_delta (reported (run ls).2).

(** Updates and moves. *)
Definition succeeding : list str :=
  [lit "*** Update File: a"; lit "*** Move to: d/m"; lit "@@"; lit "-one"; lit "+uno";
   lit "*** Update File: b"; lit "@@"; lit " two"; lit "+tres"].

(** Adds a file below a missing directory, then stops at a hunk whose lines
    cannot be found. *)
Definition stopping : list str :=
  [lit "*** Add File: d/n"; lit "+x"; lit "*** Update File: b"; lit "@@"; lit "-nope"; lit "+x"].

Lemma apply_patch_delta_faithful_witness :
  (exists f, (run stopping).2 = Throw f) /\ length (changes (delta_of stopping)) = 1
  /\ view (io_fs (run stopping).1) = replay (changes (delta_of stopping)) (view fs0)
  /\ undo (changes (delta_of stopping)) (view (io_fs (run stopping).1)) = view fs0.
Proof.
  split; [eexists; vm_compute; reflexivity|]. split; [vm_compute; reflexivity|].
  apply (apply_patch_delta_faithful (patch_of stopping) true [] io0 _ (run stopping).2).
  - apply surjective_pairing.
  - vm_compute. reflexivity.
  - vm_compute. reflexivity.
Defined.

Lemma apply_patch_refines_witness :
  exists args, PatchParse.parse_patch (patch_of succeeding) = Ok args
    /\ hunk_steps [] (args_hunks args) (view fs0) (view (io_fs (run succeeding).1)).
Proof.
  apply (apply_patch_refines (patch_of succeeding) true [] io0 _ (delta_of succeeding)).
  - change (run succeeding = ((run succeeding).1, Return (delta_of succeeding))).
    vm_compute. reflexivity.
  - vm_compute. reflexivity.
Defined.

Definition hunks1 : list Hunk := [AddFile (lit "n") (lit "x"); DeleteFile (lit "a")].
Lemma apply_hunks_summary_witness :
  mkAffected [lit "n"] [] [lit "a"]
  = mkAffected (listed is_add hunks1) (listed is_update hunks1) (listed is_delete hunks1).
Proof.
  apply (apply_hunks_summary (UriError := str) true [] hunks1 (mkWorld fs0 empty_delta)
    (apply_hunks_to_files (UriError := str) true [] hunks1 (mkWorld fs0 empty_delta)).1).
  vm_compute. reflexivity.
Defined.

Definition self_move : list Hunk :=
  [UpdateFile (lit "a") (Some (lit "a")) [mkChunk None [lit "one"] [lit "uno"] [] false]].
Lemma move_onto_itself_deletes_witness :
  is_Some (view fs0 !! lit "/a")
  /\ view (w_fs (apply_hunks_to_files (UriError := str) true [] self_move (mkWorld fs0 empty_delta)).1)
     = delete (lit "/a") (view fs0).
Proof.
  apply (move_onto_itself_deletes (UriError := str) true [] (lit "a") (lit "a") (lit "/a")
    [mkChunk None [lit "one"] [lit "uno"] [] false] fs0 _ (mkAffected [] [lit "a"] [])).
  - reflexivity.
  - reflexivity.
  - vm_compute. reflexivity.
  - vm_compute. reflexivity.
Defined.

End ApplyExamples.
