(* ===== verification/ExecPolicy.v ===== *)
(** * ExecPolicy: command and network rules and their evaluation

    Models the execpolicy crate: [Decision] (decision.rs), [Error] (error.rs),
    patterns, rules and host normalisation (rule.rs) and [Policy] with its
    evaluation (policy.rs). [rules_by_program] is a multimap: a map from a
    program name to the rules inserted under it, in insertion order. The
    resolution of a command word to an absolute path depends on the process
    (working directory, home directory), so it is a class. *)

From Stdlib Require Import ZifyBool.
From S2P Require Import Prelude RustStr.

Module Decisions.

Inductive Decision := Allow | Prompt | Forbidden.
#[export] Instance Decision_eq : EqDecision Decision.
Proof. solve_decision. Defined.

Record TextPosition := mkPos { line : N; column : N }.
Record TextRange := mkRange { range_start : TextPosition; range_end : TextPosition }.
Record ErrorLocation := mkLoc { loc_path : str; loc_range : TextRange }.

(** The resolved span of a Starlark error, with zero-based positions. *)
Record Span := mkSpan { span_file : str; span_begin : TextPosition; span_end : TextPosition }.

Inductive Error :=
| InvalidDecision (raw : str)
| InvalidPattern (m : str)
| InvalidExample (m : str)
| InvalidRule (m : str)
| ExampleDidNotMatch (rules examples : list str) (location : option ErrorLocation)
| ExampleDidMatch (rule example : str) (location : option ErrorLocation)
| Starlark (m : str) (span : option Span).

(** [Error::with_location] *)
Definition with_location (loc : ErrorLocation) (e : Error) : Error :=
  match e with
  | ExampleDidNotMatch rules examples None => ExampleDidNotMatch rules examples (Some loc)
  | ExampleDidMatch rule example None => ExampleDidMatch rule example (Some loc)
  | other => other
  end.

(** [Error::location] *)
Definition location (e : Error) : option ErrorLocation :=
  let one_based p := mkPos (line p + 1) (column p + 1) in
  match e with
  | ExampleDidNotMatch _ _ l | ExampleDidMatch _ _ l => l
  | Starlark _ span =>
      (fun s => mkLoc (span_file s) (mkRange (one_based (span_begin s)) (one_based (span_end s))))
        <$> span
  | _ => None
  end.

(** [Decision::parse] *)
Definition parse (raw : str) : result Error Decision :=
  if str_eqb raw (lit "allow") then Ok Allow
  else if str_eqb raw (lit "prompt") then Ok Prompt
  else if str_eqb raw (lit "forbidden") then Ok Forbidden
  else Err (InvalidDecision raw).

(** The derived [Ord]: declaration order. *)
Definition rank (d : Decision) : nat :=
  match d with Allow => 0 | Prompt => 1 | Forbidden => 2 end.
Definition decision_le (a b : Decision) : Prop := rank a <= rank b.
Definition decision_max (a b : Decision) : Decision := if rank a <=? rank b then b else a.

(** [Iterator::max]: the greatest element, or nothing of an empty iterator. *)
Fixpoint max_decision (ds : list Decision) : option Decision :=
  match ds with
  | [] => None
  | d :: ds => Some (match max_decision ds with None => d | Some e => decision_max d e end)
  end.

#[export] Instance decision_le_preorder : PreOrder decision_le.
Proof. split; [intros d; unfold decision_le; lia|intros a b c; unfold decision_le; lia]. Qed.
#[export] Instance decision_le_antisymm : AntiSymm (=) decision_le.
Proof. intros [] []; unfold decision_le; simpl; intros; done || lia. Qed.

Lemma decision_max_spec a b c :
  decision_le (decision_max a b) c <-> decision_le a c /\ decision_le b c.
Proof. unfold decision_max, decision_le. destruct (Nat.leb_spec (rank a) (rank b)); lia. Qed.
Lemma decision_max_or a b : decision_max a b = a \/ decision_max a b = b.
Proof. unfold decision_max. destruct (_ <=? _); auto. Qed.

(** The maximum is an element and an upper bound. *)
Lemma max_decision_spec ds d :
  max_decision ds = Some d <-> d ∈ ds /\ Forall (fun e => decision_le e d) ds.
Proof.
  assert (Hs : forall ds d, max_decision ds = Some d -> d ∈ ds /\ Forall (fun e => decision_le e d) ds).
  { clear. induction ds as [|e ds IH]; intros d; simpl; [done|]. intros [= <-].
    destruct (max_decision ds) as [m|] eqn:Hm.
    - destruct (IH m eq_refl) as [Hin Hall].
      pose proof (proj1 (decision_max_spec e m (decision_max e m)) ltac:(reflexivity)) as [H1 H2].
      split.
      + destruct (decision_max_or e m) as [->| ->]; [by left|by right].
      + constructor; [done|]. eapply Forall_impl; [exact Hall|]. intros x Hx. etrans; [exact Hx|exact H2].
    - destruct ds; [|done]. split; [by left|]. by repeat constructor. }
  split; [apply Hs|]. intros [Hin Hall].
  destruct (max_decision ds) as [m|] eqn:Hm.
  - destruct (Hs _ _ Hm) as [Hin' Hall']. rewrite Forall_forall in Hall, Hall'.
    f_equal. apply (anti_symm decision_le); auto.
  - destruct ds; [by apply not_elem_of_nil in Hin|done].
Qed.

Lemma max_decision_app ds es :
  max_decision (ds ++ es) =
  match max_decision ds, max_decision es with
  | Some d, Some e => Some (decision_max d e)
  | Some d, None => Some d
  | None, o => o
  end.
Proof.
  induction ds as [|d ds IH]; simpl; [done|]. rewrite IH.
  destruct (max_decision ds) as [a|], (max_decision es) as [b|]; simpl; try done.
  by destruct d, a, b.
Qed.

End Decisions.

Module Rules.
Import Decisions.

Inductive PatternToken :=
| Single (expected : str)
| Alts (alternatives : list str).

(** [PatternToken::matches] *)
Definition token_matches (t : PatternToken) (token : str) : bool :=
  match t with
  | Single expected => str_eqb expected token
  | Alts alternatives => existsb (fun alt => str_eqb alt token) alternatives
  end.
Definition alternatives (t : PatternToken) : list str :=
  match t with Single expected => [expected] | Alts alts => alts end.

Record PrefixPattern := mkPattern { first : str; rest : list PatternToken }.

Definition matches_prefix (p : PrefixPattern) (cmd : list str) : option (list str) :=
  let pattern_length := length (rest p) + 1 in
  match cmd with
  | [] => None
  | c0 :: _ =>
      if (length cmd <? pattern_length) || negb (str_eqb c0 (first p)) then None
      else if forallb (fun '(t, c) => token_matches t c)
                (zip (rest p) (drop 1 (take pattern_length cmd)))
      then Some (take pattern_length cmd)
      else None
  end.

Section Paths.
Context {AbsolutePath : Type}.

Inductive RuleMatch :=
| PrefixRuleMatch (matched_prefix : list str) (decision : Decision)
    (resolved_program : option AbsolutePath) (justification : option str)
| HeuristicsRuleMatch (command : list str) (decision : Decision).

Definition match_decision (m : RuleMatch) : Decision :=
  match m with PrefixRuleMatch _ d _ _ => d | HeuristicsRuleMatch _ d => d end.
Definition with_resolved_program (p : AbsolutePath) (m : RuleMatch) : RuleMatch :=
  match m with
  | PrefixRuleMatch matched d _ j => PrefixRuleMatch matched d (Some p) j
  | other => other
  end.
End Paths.
Arguments RuleMatch : clear implicits.

Record PrefixRule := mkRule {
  pattern : PrefixPattern;
  decision : Decision;
  justification : option str;
}.

(** [Rule::program] and [Rule::matches] of [PrefixRule]. *)
Definition program (r : PrefixRule) : str := first (pattern r).
Definition rule_matches {P} (r : PrefixRule) (cmd : list str) : option (RuleMatch P) :=
  (fun matched => PrefixRuleMatch matched (decision r) None (justification r))
    <$> matches_prefix (pattern r) cmd.

Inductive NetworkRuleProtocol := Http | Https | Socks5Tcp | Socks5Udp.

Definition parse_protocol (raw : str) : result Error NetworkRuleProtocol :=
  if str_eqb raw (lit "http") then Ok Http
  else if str_eqb raw (lit "https") || str_eqb raw (lit "https_connect")
          || str_eqb raw (lit "http-connect") then Ok Https
  else if str_eqb raw (lit "socks5_tcp") then Ok Socks5Tcp
  else if str_eqb raw (lit "socks5_udp") then Ok Socks5Udp
  else Err (InvalidRule
    (lit "network_rule protocol must be one of http, https, socks5_tcp, socks5_udp (got "
     ++ raw ++ lit ")")).

Definition as_policy_string (p : NetworkRuleProtocol) : str :=
  match p with
  | Http => lit "http"
  | Https => lit "https"
  | Socks5Tcp => lit "socks5_tcp"
  | Socks5Udp => lit "socks5_udp"
  end.

Record NetworkRule := mkNetworkRule {
  host : str;
  protocol : NetworkRuleProtocol;
  net_decision : Decision;
  net_justification : option str;
}.

(** A non-empty run of ASCII digits. *)
Definition is_port (port : str) : bool := negb (is_empty port) && forallb is_ascii_digit port.
Definition colon : char := 58%N.

(** The brackets of an IPv6 literal, or a port after a single colon, are
    dropped. *)
Definition strip_port (raw host : str) : result Error str :=
  match strip_prefix (lit "[") host with
  | Some stripped =>
      match split_once 93 stripped with
      | None => Err (InvalidRule (lit "network_rule host has an invalid bracketed IPv6 literal"))
      | Some (inside, rest) =>
          let port_ok := match strip_prefix [colon] rest with Some port => is_port port | None => false end in
          if negb (is_empty rest) && negb port_ok
          then Err (InvalidRule (lit "network_rule host contains an unsupported suffix: " ++ raw))
          else Ok inside
      end
  | None =>
      Ok (if length (List.filter (N.eqb colon) host) =? 1
          then match rsplit_once colon host with
               | Some (candidate, port) =>
                   if negb (is_empty candidate) && is_port port then candidate else host
               | None => host
               end
          else host)
  end.

Definition normalize_network_rule_host (raw : str) : result Error str :=
  let host := trim raw in
  if is_empty host then Err (InvalidRule (lit "network_rule host cannot be empty"))
  else if contains (lit "://") host || contains_char 47 host || contains_char 63 host
          || contains_char 35 host
  then Err (InvalidRule
    (lit "network_rule host must be a hostname or IP literal (without scheme or path)"))
  else
    host ← strip_port raw host;
    let normalized := to_ascii_lowercase (trim (trim_end_matches (N.eqb 46) host)) in
    if is_empty normalized then Err (InvalidRule (lit "network_rule host cannot be empty"))
    else if contains_char 42 normalized
    then Err (InvalidRule
      (lit "network_rule host must be a specific host; wildcards are not allowed"))
    else if existsb is_whitespace normalized
    then Err (InvalidRule (lit "network_rule host cannot contain whitespace"))
    else Ok normalized.

(** *** What a pattern matches *)

Lemma token_matches_spec t c : token_matches t c = true <-> c ∈ alternatives t.
Proof.
  destruct t as [e|alts]; simpl.
  - rewrite str_eqb_eq, list_elem_of_singleton. naive_solver.
  - rewrite existsb_exists, list_elem_of_In. setoid_rewrite str_eqb_eq. naive_solver.
Qed.

Lemma zip_matches_spec ts cs :
  length cs = length ts ->
  forallb (fun '(t, c) => token_matches t c) (zip ts cs) = true
  <-> Forall2 (fun t c => c ∈ alternatives t) ts cs.
Proof.
  revert cs. induction ts as [|t ts IH]; intros [|c cs]; simpl; try done.
  intros [= H]. rewrite andb_true_iff, token_matches_spec, Forall2_cons, IH by done. done.
Qed.

(** The reference: the command starts with the program name followed by one of
    the alternatives of each further token. *)
Definition pattern_spec (p : PrefixPattern) (cmd matched : list str) : Prop :=
  exists toks, matched = first p :: toks /\ matched `prefix_of` cmd
    /\ Forall2 (fun t c => c ∈ alternatives t) (rest p) toks.

Lemma matches_prefix_iff p cmd matched :
  matches_prefix p cmd = Some matched <-> pattern_spec p cmd matched.
Proof.
  unfold matches_prefix, pattern_spec. destruct cmd as [|c0 cmd].
  { split; [done|]. intros (toks & -> & Hp & _). by apply prefix_nil_not in Hp. }
  rewrite Nat.add_1_r. cbn [length drop take].
  destruct (Nat.ltb_spec (S (length cmd)) (S (length (rest p)))) as [Hlt|Hle]; cbn [orb].
  { split; [done|]. intros (toks & -> & Hp & H2). apply prefix_length in Hp. simpl in Hp.
    apply Forall2_length in H2. lia. }
  destruct (str_eqb_spec c0 (first p)) as [->|Hne]; cbn [negb].
  2:{ split; [done|]. intros (toks & -> & [k [= -> _]] & _). done. }
  rewrite drop_0.
  destruct (forallb _ _) eqn:Hf.
  - apply zip_matches_spec in Hf; [|rewrite length_take; lia]. split.
    + intros [= <-]. eexists. split_and!; [done| |done].
      apply prefix_cons, prefix_take.
    + intros (toks & -> & Hp & H2). apply prefix_cons_inv_2 in Hp as [k ->].
      by rewrite (Forall2_length _ _ _ H2), take_app_length.
  - split; [done|]. intros (toks & -> & Hp & H2). apply prefix_cons_inv_2 in Hp as [k ->].
    rewrite (Forall2_length _ _ _ H2), take_app_length in Hf.
    apply zip_matches_spec in H2; [congruence|by apply Forall2_length in H2].
Qed.

(** A prefix pattern matches exactly the commands that start with its
    program name and then, token by token, with one of the listed alternatives;
    the match it reports is that prefix of the command. *)
Theorem matches_prefix_correct p cmd matched :
  matches_prefix p cmd = Some matched <-> pattern_spec p cmd matched.
Proof. apply matches_prefix_iff. Qed.

(** *** Host names *)

(** What a stored host may contain: no ASCII capital, white space, wildcard or
    URL punctuation. *)
Definition host_char (c : char) : Prop :=
  is_whitespace c = false /\ in_range 65 90 c = false
  /\ c <> 42%N /\ c <> 47%N /\ c <> 63%N /\ c <> 35%N.

Lemma strip_port_sub raw h h' c : strip_port raw h = Ok h' -> c ∈ h' -> c ∈ h.
Proof.
  unfold strip_port. destruct (strip_prefix (lit "[") h) as [st|] eqn:Hb.
  - apply strip_prefix_Some in Hb as ->. destruct (split_once 93 st) as [[a b]|] eqn:Hs; [|done].
    apply split_once_Some in Hs as [-> _]. case_match; [done|]. intros [= <-] Hc.
    rewrite !elem_of_app. tauto.
  - intros [= <-]. destruct (_ =? 1); [|done].
    destruct (rsplit_once colon h) as [[a b]|] eqn:Hs; [|done].
    apply rsplit_once_Some in Hs as [-> _]. case_match; [|done]. intros Hc.
    rewrite elem_of_app. tauto.
Qed.

Lemma ascii_lower_not_upper c : in_range 65 90 (ascii_lower c) = false.
Proof. unfold ascii_lower, in_range. case_match; lia. Qed.
Lemma ascii_lower_special c d : (d < 65)%N -> ascii_lower c = d -> c = d.
Proof. unfold ascii_lower, in_range. case_match; lia. Qed.

Definition clean_host (h : str) : Prop := h <> [] /\ Forall host_char h.

Lemma normalize_clean raw h : normalize_network_rule_host raw = Ok h -> clean_host h.
Proof.
  unfold normalize_network_rule_host. destruct (is_empty (trim raw)); [done|].
  destruct (contains _ _ || _ || _ || _) eqn:Hc; [done|].
  repeat rewrite orb_false_iff in Hc. destruct Hc as [[[_ H47] H63] H35].
  apply contains_char_false in H47, H63, H35.
  intros (h1 & Hs & H)%result_bind_Ok. revert H. set (n := to_ascii_lowercase _).
  destruct (is_empty n) eqn:Hn; [done|]. destruct (contains_char 42 n) eqn:H42; [done|].
  destruct (existsb is_whitespace n) eqn:Hw; [done|]. intros [= <-]. split; [by destruct n|].
  apply contains_char_false in H42. apply Forall_forall. intros c Hin.
  assert (Hsub : exists c', c = ascii_lower c' /\ c' ∈ trim raw).
  { apply list_elem_of_fmap in Hin as (c' & -> & Hin). exists c'. split; [done|].
    apply trim_sub, trim_end_matches_sub in Hin. by eapply strip_port_sub. }
  destruct Hsub as (c' & Hc' & Hin'). split_and!.
  - apply not_true_iff_false. intros Hc. apply not_true_iff_false in Hw. apply Hw, existsb_exists.
    exists c. by rewrite <- list_elem_of_In.
  - rewrite Hc'. apply ascii_lower_not_upper.
  - by intros ->.
  - intros ->. symmetry in Hc'. apply ascii_lower_special in Hc'; [|done]. by subst.
  - intros ->. symmetry in Hc'. apply ascii_lower_special in Hc'; [|done]. by subst.
  - intros ->. symmetry in Hc'. apply ascii_lower_special in Hc'; [|done]. by subst.
Qed.

(** A host accepted for a network rule is stored in a clean form: it is
    not empty and has no ASCII capital, white space, wildcard, slash, question
    mark or hash, whatever the text it was written as. *)
Theorem normalize_host_clean raw h :
  normalize_network_rule_host raw = Ok h -> h <> [] /\ Forall host_char h.
Proof. apply normalize_clean. Qed.

Lemma normalize_host_clean_witness :
  lit "example.com" <> [] /\ Forall host_char (lit "example.com").
Proof.
  apply (normalize_host_clean (lit " Example.COM.:443 ")). vm_compute. reflexivity.
Defined.

(** A plain host name: letters, digits, dots and dashes, not ending in a dot. *)
Definition plain_host_char (c : char) : bool :=
  in_range 97 122 c || in_range 65 90 c || is_ascii_digit c || (c =? 45)%N || (c =? 46)%N.
Definition plain_host (h : str) : Prop :=
  h <> [] /\ Forall (fun c => plain_host_char c = true) h /\ last h <> Some 46%N.

Lemma plain_host_char_facts c :
  plain_host_char c = true ->
  is_whitespace c = false /\ c <> 47%N /\ c <> 63%N /\ c <> 35%N /\ c <> 42%N /\ c <> colon /\ c <> 91%N
  /\ plain_host_char (ascii_lower c) = true.
Proof.
  unfold plain_host_char, is_whitespace, is_ascii_digit, ascii_lower, in_range, colon.
  intros H. case_match; split_and!; lia.
Qed.

(** An optional final dot or port. *)
Inductive host_suffix : str -> Prop :=
| no_suffix : host_suffix []
| dot_suffix : host_suffix [46%N]
| port_suffix port : is_port port = true -> host_suffix (colon :: port).

Lemma is_port_facts port :
  is_port port = true -> port <> [] /\ Forall (fun c => is_ascii_digit c = true) port.
Proof.
  unfold is_port. rewrite andb_true_iff, negb_true_iff, forallb_forall.
  intros [Hne H]. split; [by destruct port|]. apply Forall_forall. intros c Hc. apply H.
  by apply list_elem_of_In.
Qed.

(** Characters that pass the first checks. *)
Definition quiet (c : char) : Prop :=
  is_whitespace c = false /\ c <> 47%N /\ c <> 63%N /\ c <> 35%N /\ c <> 91%N.

Lemma host_quiet h suf : plain_host h -> host_suffix suf -> Forall quiet (h ++ suf).
Proof.
  intros (_ & H & _) Hs. apply Forall_app. split.
  - eapply Forall_impl; [exact H|]. intros c Hc%plain_host_char_facts. unfold quiet. tauto.
  - destruct Hs as [| |port Hp]; [constructor|..].
    { constructor; [by split_and!|constructor]. }
    constructor; [by split_and!|]. apply is_port_facts in Hp as [_ Hp].
    eapply Forall_impl; [exact Hp|]. unfold quiet, is_whitespace, is_ascii_digit, in_range. intros c Hc.
    split_and!; lia.
Qed.

Lemma no_colons h : Forall (fun c => c <> colon) h -> List.filter (N.eqb colon) h = [].
Proof.
  induction 1 as [|c h Hc _ IH]; cbn [List.filter]; [done|]. by rewrite (proj2 (N.eqb_neq colon c)) by congruence.
Qed.

Lemma strip_port_plain raw h suf :
  plain_host h -> host_suffix suf ->
  exists h', strip_port raw (h ++ suf) = Ok h' /\ trim_end_matches (N.eqb 46) h' = h.
Proof.
  intros Hh Hs. pose proof (host_quiet _ _ Hh Hs) as Hq. destruct Hh as (Hne & Hc & Hl).
  unfold strip_port.
  assert (strip_prefix (lit "[") (h ++ suf) = None) as ->.
  { apply (strip_prefix_head_ne 91%N); [done|]. intros E. destruct h as [|c h]; [done|].
    apply Forall_cons in Hq as [Hq _]. injection E as ->. by destruct Hq as (_ & _ & _ & _ & ?). }
  assert (Hnc : Forall (fun c => c <> colon) h).
  { eapply Forall_impl; [exact Hc|]. intros c H%plain_host_char_facts. tauto. }
  assert (Hid : trim_end_matches (N.eqb 46) h = h).
  { apply trim_end_matches_id. intros c E. apply N.eqb_neq. congruence. }
  destruct Hs as [| |port Hp].
  - rewrite app_nil_r, no_colons by done. eauto.
  - rewrite no_colons by (apply Forall_app; split; [done|by apply Forall_singleton]).
    exists (h ++ [46%N]). split; [done|]. unfold trim_end_matches. rewrite reverse_snoc. exact Hid.
  - pose proof Hp as [Hpne Hd]%is_port_facts.
    assert (Hpc : Forall (fun c => c <> colon) port).
    { eapply Forall_impl; [exact Hd|]. unfold is_ascii_digit, in_range, colon. intros c H. lia. }
    rewrite List.filter_app. simpl. rewrite !no_colons by done. simpl.
    rewrite (proj2 (rsplit_once_Some colon _ h port)), Hp.
    + exists h. split; [|done]. by destruct h.
    + split; [done|]. intros Hin. rewrite Forall_forall in Hpc. by apply Hpc in Hin.
Qed.

(** The spellings of a host name agree. A plain host name, written with
    any capitals and with or without a final dot or a port, is accepted and
    stored as its lower-case form. *)
Theorem normalize_plain_host h suf :
  plain_host h -> host_suffix suf ->
  normalize_network_rule_host (h ++ suf) = Ok (to_ascii_lowercase h).
Proof.
  intros Hh Hs. pose proof (host_quiet _ _ Hh Hs) as Hq. unfold normalize_network_rule_host.
  assert (Hno : forall d, (d = 47 \/ d = 63 \/ d = 35)%N -> d ∉ h ++ suf).
  { intros d Hd Hin. rewrite Forall_forall in Hq. apply Hq in Hin. unfold quiet in Hin. naive_solver. }
  rewrite trim_id by (eapply Forall_impl; [exact Hq|]; by intros c []).
  destruct (is_empty (h ++ suf)) eqn:He; [by destruct Hh, h|].
  assert (contains (lit "://") (h ++ suf) = false) as ->.
  { apply not_true_iff_false. intros Hc. apply (Hno 47%N); [auto|]. eapply contains_sub; [exact Hc|].
    apply (bool_decide_unpack _). reflexivity. }
  rewrite !(proj2 (contains_char_false _ _)) by (apply Hno; auto). cbn [orb].
  destruct (strip_port_plain (h ++ suf) h suf Hh Hs) as (h' & -> & Ht). cbn [mbind result_bind].
  rewrite Ht. destruct Hh as (Hne & Hc & _).
  rewrite trim_id by (eapply Forall_impl; [exact Hc|]; intros c K%plain_host_char_facts; tauto).
  assert (Hl : Forall (fun c => plain_host_char c = true) (to_ascii_lowercase h)).
  { apply Forall_fmap. eapply Forall_impl; [exact Hc|]. intros c K%plain_host_char_facts. apply K. }
  destruct (is_empty (to_ascii_lowercase h)) eqn:E; [by destruct h|].
  rewrite (proj2 (contains_char_false _ _)); cycle 1.
  { rewrite Forall_forall in Hl. intros K%Hl%plain_host_char_facts. tauto. }
  destruct (existsb _ _) eqn:Ew; [|done]. apply existsb_exists in Ew as (c & Hin & Hw).
  rewrite <- list_elem_of_In in Hin. rewrite Forall_forall in Hl.
  apply Hl, plain_host_char_facts in Hin. destruct Hin. congruence.
Qed.

Lemma normalize_plain_host_witness :
  normalize_network_rule_host (lit "API.Example.com" ++ lit ":8443") = Ok (lit "api.example.com").
Proof.
  apply (normalize_plain_host (lit "API.Example.com") (lit ":8443")).
  - split_and!; [discriminate|by repeat constructor|discriminate].
  - apply (port_suffix (lit "8443")). reflexivity.
Defined.

End Rules.

(** ** Policies and their evaluation *)

(** [AbsolutePathBuf::try_from] (with the text of its error) and
    [Path::file_name], which depend on the process and the platform. *)
Class ExecPaths (AbsolutePath : Type) := {
  path_eqb : AbsolutePath -> AbsolutePath -> bool;
  absolute_path : str -> result str AbsolutePath;
  file_name : AbsolutePath -> option str;
}.

Module Policies.
Import Decisions Rules.

(** [executable_lookup_key] off Windows is the identity. *)
Definition executable_lookup_key (raw : str) : str := raw.

Record MatchOptions := mkOptions { resolve_host_executables : bool }.
Definition default_options : MatchOptions := mkOptions false.

Section Policy.
Context {AbsolutePath : Type} {exec_paths : ExecPaths AbsolutePath}.

Definition executable_path_lookup_key (p : AbsolutePath) : option str :=
  executable_lookup_key <$> file_name p.

Record Policy := mkPolicy {
  rules_by_program : gmap str (list PrefixRule);
  network_rules : list NetworkRule;
  host_executables_by_name : gmap str (list AbsolutePath);
}.
Definition empty_policy : Policy := mkPolicy ∅ [] ∅.

(** [MultiMap::insert] *)
Definition multi_insert (k : str) (r : PrefixRule) (m : gmap str (list PrefixRule))
    : gmap str (list PrefixRule) :=
  <[k := default [] (m !! k) ++ [r]]> m.

Definition add_prefix_rule (prefix : list str) (d : Decision) (p : Policy) : result Error Policy :=
  match prefix with
  | [] => Err (InvalidPattern (lit "prefix cannot be empty"))
  | first_token :: rest =>
      Ok (mkPolicy
        (multi_insert first_token (mkRule (mkPattern first_token (Single <$> rest)) d None)
           (rules_by_program p))
        (network_rules p) (host_executables_by_name p))
  end.

Definition add_network_rule (host : str) (protocol : NetworkRuleProtocol) (d : Decision)
    (justification : option str) (p : Policy) : result Error Policy :=
  host ← normalize_network_rule_host host;
  if match justification with Some raw => is_empty (trim raw) | None => false end
  then Err (InvalidRule (lit "justification cannot be empty"))
  else Ok (mkPolicy (rules_by_program p)
             (network_rules p ++ [mkNetworkRule host protocol d justification])
             (host_executables_by_name p)).

Definition set_host_executable_paths (name : str) (paths : list AbsolutePath) (p : Policy) : Policy :=
  mkPolicy (rules_by_program p) (network_rules p) (<[name := paths]> (host_executables_by_name p)).

(** [iter_all] visits the programs in an unspecified order: [entries] is the
    overlay's rules in that order. *)
Definition merge_rules (entries : list (str * list PrefixRule)) (m : gmap str (list PrefixRule))
    : gmap str (list PrefixRule) :=
  foldl (fun m '(program, rules) => foldl (fun m r => multi_insert program r m) m rules) m entries.

Definition merge_overlay (entries : list (str * list PrefixRule)) (p overlay : Policy) : Policy :=
  mkPolicy (merge_rules entries (rules_by_program p))
    (network_rules p ++ network_rules overlay)
    (host_executables_by_name overlay ∪ host_executables_by_name p).

Definition upsert_domain (host : str) (entries : list str) : list str :=
  retain (fun e => negb (str_eqb e host)) entries ++ [host].

Fixpoint compile_domains (rules : list NetworkRule) (allowed denied : list str)
    : list str * list str :=
  match rules with
  | [] => (allowed, denied)
  | r :: rules =>
      let others := retain (fun e => negb (str_eqb e (host r))) in
      match net_decision r with
      | Allow => compile_domains rules (upsert_domain (host r) allowed) (others denied)
      | Forbidden => compile_domains rules (others allowed) (upsert_domain (host r) denied)
      | Prompt => compile_domains rules allowed denied
      end
  end.
Definition compiled_network_domains (p : Policy) : list str * list str :=
  compile_domains (network_rules p) [] [].

Definition match_exact_rules (p : Policy) (cmd : list str)
    : option (list (RuleMatch AbsolutePath)) :=
  match cmd with
  | [] => None
  | c :: _ =>
      Some (match rules_by_program p !! c with
            | Some rules => omap (fun r => rule_matches r cmd) rules
            | None => []
            end)
  end.

Definition match_host_executable_rules (p : Policy) (cmd : list str)
    : list (RuleMatch AbsolutePath) :=
  match cmd with
  | [] => []
  | c :: args =>
      match absolute_path c with
      | Err _ => []
      | Ok prog =>
          match executable_path_lookup_key prog with
          | None => []
          | Some basename =>
              match rules_by_program p !! basename with
              | None => []
              | Some rules =>
                  if match host_executables_by_name p !! basename with
                     | Some paths => negb (existsb (path_eqb prog) paths)
                     | None => false
                     end
                  then []
                  else with_resolved_program prog
                         <$> omap (fun r => rule_matches r (basename :: args)) rules
              end
          end
      end
  end.

Definition matches_for_command_with_options (p : Policy) (cmd : list str)
    (heuristics_fallback : option (list str -> Decision)) (options : MatchOptions)
    : list (RuleMatch AbsolutePath) :=
  let non_empty o := match o with Some (_ :: _) => o | _ => None end in
  let matched_rules :=
    match non_empty (match_exact_rules p cmd) with
    | Some ms => ms
    | None =>
        default [] (non_empty (if resolve_host_executables options
                               then Some (match_host_executable_rules p cmd) else None))
    end in
  match matched_rules, heuristics_fallback with
  | [], Some h => [HeuristicsRuleMatch cmd (h cmd)]
  | _, _ => matched_rules
  end.
Definition matches_for_command p cmd h := matches_for_command_with_options p cmd h default_options.

Record Evaluation := mkEvaluation {
  eval_decision : Decision;
  matched_rules : list (RuleMatch AbsolutePath);
}.

Definition is_match (e : Evaluation) : bool :=
  existsb (fun m => match m with HeuristicsRuleMatch _ _ => false | _ => true end) (matched_rules e).

(** [expect] panics on an empty list. *)
Definition from_matches (ms : list (RuleMatch AbsolutePath)) : outcome Error Evaluation :=
  match max_decision (match_decision <$> ms) with
  | Some d => Return (mkEvaluation d ms)
  | None => Panic
  end.

Definition check_with_options (p : Policy) (cmd : list str) (h : list str -> Decision)
    (options : MatchOptions) : outcome Error Evaluation :=
  from_matches (matches_for_command_with_options p cmd (Some h) options).
Definition check p cmd h := check_with_options p cmd h default_options.

Definition check_multiple_with_options (p : Policy) (commands : list (list str))
    (h : list str -> Decision) (options : MatchOptions) : outcome Error Evaluation :=
  from_matches (commands ≫= fun cmd => matches_for_command_with_options p cmd (Some h) options).
Definition check_multiple p commands h := check_multiple_with_options p commands h default_options.

(** [render_pattern_token] *)
Definition render_pattern_token (t : PatternToken) : str :=
  match t with
  | Single value => value
  | Alts alts => lit "[" ++ join (lit "|") alts ++ lit "]"
  end.

Definition allowed_prefix (r : PrefixRule) : option (list str) :=
  match decision r with
  | Allow => Some (first (pattern r) :: (render_pattern_token <$> rest (pattern r)))
  | _ => None
  end.

Definition get_allowed_prefixes (entries : list (str * list PrefixRule)) : list (list str) :=
  dedup strs_cmp (sort strs_cmp (entries ≫= fun '(_, rules) => omap allowed_prefix rules)).

(** ** The index by program *)

(** The rules stored under a program. *)
Definition rules_of (m : gmap str (list PrefixRule)) (k : str) : list PrefixRule :=
  default [] (m !! k).
Definition stored (p : Policy) (r : PrefixRule) : Prop := exists k, r ∈ rules_of (rules_by_program p) k.
(** Every rule is stored under its own program. *)
Definition indexed (p : Policy) : Prop :=
  forall k r, r ∈ rules_of (rules_by_program p) k -> program r = k.

Lemma rules_of_multi_insert k r m k' :
  rules_of (multi_insert k r m) k' = rules_of m k' ++ (if decide (k = k') then [r] else []).
Proof.
  unfold rules_of, multi_insert. destruct (decide (k = k')) as [->|Hne].
  - by rewrite lookup_insert_eq.
  - by rewrite lookup_insert_ne, app_nil_r by done.
Qed.

Lemma rules_of_insert_all k rs m k' :
  rules_of (foldl (fun m r => multi_insert k r m) m rs) k'
  = rules_of m k' ++ (if decide (k = k') then rs else []).
Proof.
  revert m. induction rs as [|r rs IH]; intros m; simpl.
  - by destruct (decide _); rewrite app_nil_r.
  - rewrite IH, rules_of_multi_insert. destruct (decide (k = k')); [|by rewrite !app_nil_r].
    by rewrite <- app_assoc.
Qed.

Lemma rules_of_list_to_map k' rs es k :
  rules_of (list_to_map ((k', rs) :: es)) k
  = if decide (k' = k) then rs else rules_of (list_to_map es) k.
Proof.
  unfold rules_of. rewrite list_to_map_cons. destruct (decide (k' = k)) as [->|Hne].
  - by rewrite lookup_insert_eq.
  - by rewrite lookup_insert_ne by done.
Qed.

Lemma rules_of_merge entries m k :
  NoDup entries.*1 ->
  rules_of (merge_rules entries m) k = rules_of m k ++ rules_of (list_to_map entries) k.
Proof.
  revert m. induction entries as [|[k' rs] es IH]; intros m.
  - intros _. unfold rules_of at 3. rewrite list_to_map_nil, lookup_empty. by rewrite app_nil_r.
  - intros [Hk Hnd]%NoDup_cons. unfold merge_rules in *. cbn [foldl].
    rewrite IH, rules_of_insert_all, rules_of_list_to_map by done.
    destruct (decide (k' = k)) as [->|Hne]; [|by rewrite app_nil_r].
    rewrite <- app_assoc. f_equal. unfold rules_of.
    rewrite not_elem_of_list_to_map_1 by done. apply app_nil_r.
Qed.

Lemma rules_of_merge_overlay entries p overlay k :
  entries ≡ₚ map_to_list (rules_by_program overlay) ->
  rules_of (rules_by_program (merge_overlay entries p overlay)) k
  = rules_of (rules_by_program p) k ++ rules_of (rules_by_program overlay) k.
Proof.
  intros He. simpl. assert (Hnd : NoDup entries.*1).
  { rewrite He. apply NoDup_fst_map_to_list. }
  rewrite rules_of_merge by done. f_equal.
  rewrite (list_to_map_proper _ _ Hnd He). by rewrite list_to_map_to_list.
Qed.

(** The matches of the exact lookup. *)
Definition exact_matches (p : Policy) (cmd : list str) : list (RuleMatch AbsolutePath) :=
  match cmd with
  | [] => []
  | c :: _ => omap (fun r => rule_matches r cmd) (rules_of (rules_by_program p) c)
  end.

Lemma matches_default p cmd h :
  matches_for_command_with_options p cmd (Some h) default_options =
  match exact_matches p cmd with [] => [HeuristicsRuleMatch cmd (h cmd)] | ms => ms end.
Proof.
  unfold matches_for_command_with_options, match_exact_rules, exact_matches, rules_of.
  destruct cmd as [|c cmd]; simpl; [done|].
  destruct (rules_by_program p !! c) as [rs|]; simpl; [|done].
  by destruct (omap _ rs).
Qed.

Lemma matches_nonempty p cmd h o : matches_for_command_with_options p cmd (Some h) o <> [].
Proof.
  unfold matches_for_command_with_options. generalize (match_exact_rules p cmd).
  intros [[|m ms]|]; simpl; try done;
    destruct (resolve_host_executables o); simpl; try done;
    by destruct (match_host_executable_rules p cmd).
Qed.

Lemma exact_matches_elem p cmd m :
  indexed p ->
  m ∈ exact_matches p cmd <-> exists r, stored p r /\ rule_matches r cmd = Some m.
Proof.
  intros Hi. unfold exact_matches, stored. destruct cmd as [|c cmd].
  - split; [by intros ?%not_elem_of_nil|]. intros (r & _ & Hm). unfold rule_matches in Hm. done.
  - rewrite list_elem_of_omap. split.
    + intros (r & Hr & Hm). eauto.
    + intros (r & [k Hr] & Hm). exists r. split; [|done].
      pose proof (Hi _ _ Hr) as Hk. unfold program in Hk.
      unfold rule_matches in Hm. apply fmap_Some in Hm as (mt & Hm & _).
      apply matches_prefix_iff in Hm as (toks & -> & [l [= -> _]] & _). by rewrite Hk.
Qed.

Lemma from_matches_Return ms ev :
  from_matches ms = Return ev <->
  matched_rules ev = ms /\ max_decision (match_decision <$> ms) = Some (eval_decision ev).
Proof.
  unfold from_matches. destruct (max_decision _) as [d|].
  - split; [by intros [= <-]|]. intros [<- [= ->]]. by destruct ev.
  - split; [done|]. by intros [_ ?].
Qed.

Lemma max_decision_ne ds : ds <> [] -> exists d, max_decision ds = Some d.
Proof. destruct ds; [done|]. simpl. eauto. Qed.

(** ** Evaluation *)

Lemma check_Return p cmd h o : exists ev, check_with_options p cmd h o = Return ev.
Proof.
  unfold check_with_options.
  destruct (max_decision_ne (match_decision <$> matches_for_command_with_options p cmd (Some h) o))
    as [d Hd].
  - intros H%fmap_nil_inv. by apply matches_nonempty in H.
  - eexists (mkEvaluation d _). by apply from_matches_Return.
Qed.

Lemma check_multiple_cons p cmd cmds h o e :
  check_with_options p cmd h o = Return e ->
  check_multiple_with_options p (cmd :: cmds) h o =
  match check_multiple_with_options p cmds h o with
  | Return e' => Return (mkEvaluation (decision_max (eval_decision e) (eval_decision e'))
                           (matched_rules e ++ matched_rules e'))
  | _ => Return e
  end.
Proof.
  unfold check_with_options, check_multiple_with_options.
  intros [Hm Hd]%from_matches_Return. unfold from_matches. csimpl.
  rewrite fmap_app, max_decision_app, Hd, <- Hm.
  set (ms := cmds ≫= _). destruct (max_decision (match_decision <$> ms)) as [d|] eqn:E; simpl; [done|].
  destruct ms; [|done]. rewrite app_nil_r. by destruct e.
Qed.

(** Evaluation is total on what the caller may pass and takes the
    strictest verdict. Checking a list of commands panics exactly on the empty
    list; otherwise its decision is an upper bound of the decision of every
    command checked alone, and one of them attains it. *)
Theorem check_multiple_strictest p commands h o :
  match commands with
  | [] => check_multiple_with_options p commands h o = Panic
  | _ :: _ => exists ev, check_multiple_with_options p commands h o = Return ev
      /\ (forall cmd, cmd ∈ commands -> exists e, check_with_options p cmd h o = Return e
            /\ decision_le (eval_decision e) (eval_decision ev))
      /\ (exists cmd e, cmd ∈ commands /\ check_with_options p cmd h o = Return e
            /\ eval_decision e = eval_decision ev)
  end.
Proof.
  induction commands as [|cmd cmds IH]; [done|].
  destruct (check_Return p cmd h o) as [e He]. rewrite (check_multiple_cons _ _ _ _ _ _ He).
  destruct cmds as [|cmd' cmds].
  - rewrite IH. exists e. split_and!; [done| |by exists cmd, e; split_and!; [left|..]].
    intros c ->%list_elem_of_singleton. by exists e.
  - destruct IH as (ev & -> & Hall & (c & e' & Hc & He' & Heq)). eexists. split; [done|]. simpl.
    pose proof (proj1 (decision_max_spec (eval_decision e) (eval_decision ev) _) ltac:(reflexivity))
      as [H1 H2]. split.
    + intros c' [->|Hc']%elem_of_cons; [by exists e|]. destruct (Hall _ Hc') as (e'' & -> & Hle).
      exists e''. split; [done|]. etrans; [exact Hle|exact H2].
    + destruct (decision_max_or (eval_decision e) (eval_decision ev)) as [->| ->].
      * exists cmd, e. split_and!; [left|done..].
      * exists c, e'. split_and!; [by right|done..].
Qed.

(** What evaluation without host resolution should compute: the strictest of
    the stored rules whose pattern matches, or the fallback. *)
Definition verdict (p : Policy) (cmd : list str) (h : list str -> Decision) (d : Decision) : Prop :=
  let applies r := stored p r /\ exists m, pattern_spec (pattern r) cmd m in
  (exists r, applies r /\ decision r = d) /\ (forall r, applies r -> decision_le (decision r) d)
  \/ (~ exists r, applies r) /\ d = h cmd.

Lemma rule_matches_pattern r cmd (m : RuleMatch AbsolutePath) :
  rule_matches r cmd = Some m ->
  match_decision m = decision r /\ exists mt, pattern_spec (pattern r) cmd mt.
Proof.
  unfold rule_matches. intros (mt & Hm & ->)%fmap_Some. split; [done|].
  exists mt. by apply matches_prefix_iff.
Qed.
Lemma pattern_rule_matches r cmd mt :
  pattern_spec (pattern r) cmd mt ->
  exists m : RuleMatch AbsolutePath, rule_matches r cmd = Some m /\ match_decision m = decision r.
Proof. intros Hm%matches_prefix_iff. unfold rule_matches. rewrite Hm. simpl. eauto. Qed.

Lemma check_verdict p cmd h ev :
  indexed p -> check p cmd h = Return ev -> verdict p cmd h (eval_decision ev).
Proof.
  intros Hi [Hm Hd]%from_matches_Return. rewrite matches_default in Hd.
  pose proof (exact_matches_elem p cmd) as Hel. destruct (exact_matches p cmd) as [|m ms] eqn:E.
  - right. split; [|by injection Hd].
    intros (r & Hs & mt & Hp). destruct (pattern_rule_matches _ _ _ Hp) as (m & Hrm & _).
    apply (not_elem_of_nil m), Hel; eauto.
  - left. apply max_decision_spec in Hd as [Hin Hall]. split.
    + apply list_elem_of_fmap in Hin as (m' & Heq & Hin). apply Hel in Hin as (r & Hs & Hrm); [|done].
      apply rule_matches_pattern in Hrm as [Hdec Hp]. exists r. split; [done|]. congruence.
    + intros r (Hs & mt & Hp). destruct (pattern_rule_matches _ _ _ Hp) as (m' & Hrm & <-).
      rewrite Forall_forall in Hall. apply Hall, list_elem_of_fmap_2, Hel; eauto.
Qed.

(** Looking rules up by program loses nothing. For a policy whose rules
    are filed under their own program, checking a command returns the strictest
    decision among ALL stored rules whose pattern matches the command, and the
    heuristic's decision when there is none. *)
Theorem check_complete p cmd h :
  indexed p -> exists ev, check p cmd h = Return ev /\ verdict p cmd h (eval_decision ev).
Proof.
  intros Hi. destruct (check_Return p cmd h default_options) as [ev Hev].
  exists ev. split; [done|]. by apply check_verdict.
Qed.

(** ** Changing a policy *)

Lemma exact_matches_merge entries p overlay cmd :
  entries ≡ₚ map_to_list (rules_by_program overlay) ->
  exact_matches (merge_overlay entries p overlay) cmd
  = exact_matches p cmd ++ exact_matches overlay cmd.
Proof.
  intros He. unfold exact_matches. destruct cmd as [|c cmd]; [done|].
  by rewrite rules_of_merge_overlay, omap_app by done.
Qed.

Lemma exact_matches_prefix p cmd :
  Forall (fun m => match m with HeuristicsRuleMatch _ _ => False | _ => True end)
    (exact_matches p cmd).
Proof.
  unfold exact_matches. destruct cmd as [|c cmd]; [constructor|]. apply Forall_forall.
  intros m (r & _ & Hm)%list_elem_of_omap. by apply fmap_Some in Hm as (? & _ & ->).
Qed.

(** The outcome of a check, by whether an exact rule applied. *)
Lemma check_cases p cmd h ev :
  check p cmd h = Return ev ->
  max_decision (match_decision <$> exact_matches p cmd)
    = (if is_match ev then Some (eval_decision ev) else None)
  /\ (is_match ev = false -> eval_decision ev = h cmd).
Proof.
  intros [Hm Hd]%from_matches_Return. rewrite matches_default in Hm, Hd.
  pose proof (exact_matches_prefix p cmd) as Hp. unfold is_match. rewrite Hm.
  destruct (exact_matches p cmd) as [|m ms]; simpl.
  - split; [done|]. simpl in Hd. congruence.
  - apply Forall_cons in Hp as [Hp _]. by destruct m.
Qed.

(** The decision after combining two lists of exact matches. *)
Definition combine_decisions (m1 m2 : bool) (d1 d2 fallback : Decision) : Decision :=
  match m1, m2 with
  | true, true => decision_max d1 d2
  | true, false => d1
  | false, true => d2
  | false, false => fallback
  end.

(** An overlay can only add its own verdict. Where the base policy has a
    rule for a command, the merged policy decides at least as strictly as the
    base and as the overlay; rules of one side alone keep their decision; the
    heuristic is used only when neither side has a rule. The order in which the
    overlay's programs are visited does not matter. *)
Theorem merge_overlay_decision entries p overlay cmd h e1 e2 e :
  entries ≡ₚ map_to_list (rules_by_program overlay) ->
  check p cmd h = Return e1 -> check overlay cmd h = Return e2 ->
  check (merge_overlay entries p overlay) cmd h = Return e ->
  is_match e = is_match e1 || is_match e2
  /\ eval_decision e
     = combine_decisions (is_match e1) (is_match e2) (eval_decision e1) (eval_decision e2) (h cmd).
Proof.
  intros He H1%check_cases H2%check_cases H%check_cases.
  rewrite (exact_matches_merge _ _ _ _ He) in H.
  destruct H1 as [H1 _], H2 as [H2 _], H as [H Hf].
  rewrite fmap_app, max_decision_app, H1, H2 in H.
  destruct (is_match e1), (is_match e2), (is_match e); simpl in *; split; try congruence; auto.
Qed.

Lemma exact_matches_added k r p cmd :
  exact_matches (mkPolicy (multi_insert k r (rules_by_program p)) (network_rules p)
                   (host_executables_by_name p)) cmd
  = exact_matches p cmd
    ++ match cmd with
       | [] => []
       | c :: _ => if decide (k = c) then omap (fun r => rule_matches r cmd) [r] else []
       end.
Proof.
  unfold exact_matches. destruct cmd as [|c cmd]; [done|]. simpl rules_by_program.
  rewrite rules_of_multi_insert, omap_app. by destruct (decide (k = c)).
Qed.

Lemma single_rule_matches t ts d cmd :
  match cmd with
  | [] => []
  | c :: _ => if decide (t = c)
              then omap (fun r => @rule_matches AbsolutePath r cmd)
                     [mkRule (mkPattern t (Single <$> ts)) d None]
              else []
  end
  = if decide ((t :: ts) `prefix_of` cmd) then [PrefixRuleMatch (t :: ts) d None None] else [].
Proof.
  assert (Hspec : forall m, pattern_spec (mkPattern t (Single <$> ts)) cmd m
    <-> m = t :: ts /\ (t :: ts) `prefix_of` cmd).
  { intros m. unfold pattern_spec. simpl. split.
    - intros (toks & -> & Hp & H2). assert (toks = ts) as ->; [|done].
      apply Forall2_fmap_l in H2. clear Hp. induction H2 as [|x y ? ? Hxy _ IH]; [done|].
      apply list_elem_of_singleton in Hxy. by subst.
    - intros [-> Hp]. exists ts. split_and!; [done..|]. apply Forall2_fmap_l.
      clear Hp. induction ts as [|x l IH]; constructor; [left|done]. }
  destruct cmd as [|c cmd].
  { rewrite decide_False; [done|]. apply prefix_nil_not. }
  destruct (decide ((t :: ts) `prefix_of` c :: cmd)) as [Hp|Hp].
  - assert (t = c) as -> by (by destruct Hp as [k [= -> _]]). rewrite decide_True by done.
    csimpl. unfold rule_matches. simpl pattern.
    by rewrite (proj2 (matches_prefix_iff _ _ _) (proj2 (Hspec _) (conj eq_refl Hp))).
  - destruct (decide (t = c)) as [->|]; [|done]. csimpl. unfold rule_matches. simpl pattern.
    destruct (matches_prefix _ _) as [m|] eqn:Hm; [|done].
    apply matches_prefix_iff, Hspec in Hm as [_ ?]. done.
Qed.

(** Adding a prefix rule. It is rejected exactly for the empty prefix;
    afterwards a command that starts with the prefix is decided by the new rule
    together with what applied before, and every other command is evaluated as
    before. *)
Theorem add_prefix_rule_effect prefix d p cmd h ev :
  check p cmd h = Return ev ->
  match add_prefix_rule prefix d p with
  | Err _ => prefix = []
  | Ok p' => prefix <> [] /\ exists ev', check p' cmd h = Return ev' /\
      if decide (prefix `prefix_of` cmd)
      then is_match ev' = true
           /\ eval_decision ev' = (if is_match ev then decision_max (eval_decision ev) d else d)
      else ev' = ev
  end.
Proof.
  intros Hev. destruct prefix as [|t ts]; simpl; [done|]. split; [done|].
  pose proof (exact_matches_added t (mkRule (mkPattern t (Single <$> ts)) d None) p cmd) as Hadd.
  rewrite single_rule_matches in Hadd. set (p' := mkPolicy (multi_insert _ _ _) _ _) in *.
  destruct (check_Return p' cmd h default_options) as [ev' Hev']. exists ev'. split; [done|].
  destruct (decide ((t :: ts) `prefix_of` cmd)) as [Hp|Hp].
  - apply check_cases in Hev' as [H' _]. apply check_cases in Hev as [H _].
    rewrite Hadd, fmap_app, max_decision_app, H in H'.
    change (max_decision (match_decision <$> _)) with (Some d) in H'. cbv beta iota in H'.
    destruct (is_match ev), (is_match ev'); simplify_eq; by split.
  - rewrite app_nil_r in Hadd. unfold check, check_with_options in Hev, Hev'.
    rewrite matches_default in Hev, Hev'. rewrite Hadd in Hev'. congruence.
Qed.

(** ** Host executables *)

(** Resolving a program path to its name is guarded. Every match the
    host lookup adds carries the resolved path, is by a rule stored under the
    file name of that path, and, if the policy lists paths for that name, the
    resolved path is one of them. *)
Theorem host_match_guarded p cmd m :
  m ∈ match_host_executable_rules p cmd ->
  exists c args prog name r matched,
    cmd = c :: args /\ absolute_path c = Ok prog /\ executable_path_lookup_key prog = Some name
    /\ r ∈ rules_of (rules_by_program p) name
    /\ pattern_spec (pattern r) (name :: args) matched
    /\ m = PrefixRuleMatch matched (decision r) (Some prog) (justification r)
    /\ (forall paths, host_executables_by_name p !! name = Some paths ->
          exists q, q ∈ paths /\ path_eqb prog q = true).
Proof.
  unfold match_host_executable_rules. destruct cmd as [|c args]; [by intros ?%not_elem_of_nil|].
  destruct (absolute_path c) as [prog|e] eqn:Hc; [|by intros ?%not_elem_of_nil].
  destruct (executable_path_lookup_key prog) as [name|] eqn:Hn; [|by intros ?%not_elem_of_nil].
  destruct (rules_by_program p !! name) as [rules|] eqn:Hr; [|by intros ?%not_elem_of_nil].
  destruct (match _ with Some _ => _ | None => _ end) eqn:Hg; [by intros ?%not_elem_of_nil|].
  intros (m' & -> & (r & Hin & Hm)%list_elem_of_omap)%list_elem_of_fmap.
  apply fmap_Some in Hm as (matched & Hm & ->). apply matches_prefix_iff in Hm.
  exists c, args, prog, name, r, matched. unfold rules_of. rewrite Hr. split_and!; try done.
  intros paths Hp. rewrite Hp in Hg. apply negb_false_iff, existsb_exists in Hg as (q & Hq & ?).
  exists q. by rewrite list_elem_of_In.
Qed.

(** ** Network rules *)

(** The last rule for a host that is not a prompt decides. *)
Fixpoint last_network_decision (rules : list NetworkRule) (h : str) (acc : option Decision)
    : option Decision :=
  match rules with
  | [] => acc
  | r :: rules =>
      last_network_decision rules h
        (match net_decision r with
         | Prompt => acc
         | d => if str_eqb (host r) h then Some d else acc
         end)
  end.

Definition domains_ok (allowed denied : list str) : Prop :=
  NoDup allowed /\ NoDup denied /\ (forall h, h ∈ allowed -> h ∉ denied).
Definition domain_decision (allowed denied : list str) (h : str) : option Decision :=
  if decide (h ∈ allowed) then Some Allow else if decide (h ∈ denied) then Some Forbidden else None.

Lemma retain_others h l e : e ∈ retain (fun e => negb (str_eqb e h)) l <-> e <> h /\ e ∈ l.
Proof.
  unfold retain. rewrite list_elem_of_filter.
  destruct (str_eqb_spec e h) as [->|]; simpl; naive_solver.
Qed.
Lemma retain_NoDup {A} (f : A -> bool) l : NoDup l -> NoDup (retain f l).
Proof. apply NoDup_filter. Qed.
Lemma upsert_elem h l e : e ∈ upsert_domain h l <-> e = h \/ e ∈ l.
Proof.
  unfold upsert_domain. rewrite elem_of_app, retain_others, list_elem_of_singleton.
  destruct (decide (e = h)); tauto.
Qed.
Lemma upsert_NoDup h l : NoDup l -> NoDup (upsert_domain h l).
Proof.
  intros H. unfold upsert_domain. apply NoDup_app. split_and!; [by apply retain_NoDup| |apply NoDup_singleton].
  intros e [Hne _]%retain_others ->%list_elem_of_singleton. done.
Qed.

Lemma compile_domains_ok rules allowed denied :
  domains_ok allowed denied ->
  let r := compile_domains rules allowed denied in
  domains_ok r.1 r.2 /\ forall h, domain_decision r.1 r.2 h
    = last_network_decision rules h (domain_decision allowed denied h).
Proof.
  revert allowed denied. induction rules as [|r rules IH]; intros allowed denied Hok; simpl; [done|].
  destruct Hok as (Ha & Hd & Hdis).
  destruct (net_decision r) eqn:E; [| by apply IH |].
  - destruct (IH (upsert_domain (host r) allowed)
      (retain (fun e => negb (str_eqb e (host r))) denied)) as [H1 H2].
    { split_and!; [by apply upsert_NoDup|by apply retain_NoDup|].
      intros h. rewrite upsert_elem, retain_others. naive_solver. }
    split; [done|]. intros h. rewrite H2. f_equal. unfold domain_decision.
    destruct (str_eqb_spec (host r) h) as [->|Hne];
      repeat (destruct (decide _)); rewrite ?upsert_elem, ?retain_others in *; naive_solver.
  - destruct (IH (retain (fun e => negb (str_eqb e (host r))) allowed)
      (upsert_domain (host r) denied)) as [H1 H2].
    { split_and!; [by apply retain_NoDup|by apply upsert_NoDup|].
      intros h. rewrite upsert_elem, retain_others. naive_solver. }
    split; [done|]. intros h. rewrite H2. f_equal. unfold domain_decision.
    destruct (str_eqb_spec (host r) h) as [->|Hne];
      repeat (destruct (decide _)); rewrite ?upsert_elem, ?retain_others in *; naive_solver.
Qed.

(** The compiled domain lists are a function of the last word. No host is
    listed twice or in both lists, and a host is allowed (denied) exactly when
    the last rule for it that is not a prompt allows (forbids) it. *)
Theorem compiled_domains_last_rule_wins p :
  let r := compiled_network_domains p in
  domains_ok r.1 r.2
  /\ forall h, domain_decision r.1 r.2 h = last_network_decision (network_rules p) h None.
Proof. apply compile_domains_ok. repeat split; try constructor. by intros h ?%not_elem_of_nil. Qed.

(** The allowed prefixes are reported in strictly increasing order, are
    the renderings of exactly the stored allow rules, and do not depend on the
    order in which the rule map is visited. *)
Theorem allowed_prefixes_canonical p entries entries' :
  entries ≡ₚ map_to_list (rules_by_program p) -> entries' ≡ₚ map_to_list (rules_by_program p) ->
  StronglySorted (cmp_lt strs_cmp) (get_allowed_prefixes entries)
  /\ get_allowed_prefixes entries = get_allowed_prefixes entries'
  /\ forall x, x ∈ get_allowed_prefixes entries
       <-> exists r, stored p r /\ allowed_prefix r = Some x.
Proof.
  intros H H'. unfold get_allowed_prefixes. split_and!.
  - apply (sort_dedup_sorted strs_cmp).
  - apply (sort_dedup_unique strs_cmp). intros x. by rewrite H, <- H'.
  - intros x. rewrite (sort_dedup_elem strs_cmp), H, list_elem_of_bind. split.
    + intros ([k rs] & (r & Hr & Hx)%list_elem_of_omap & Hk). apply elem_of_map_to_list in Hk.
      exists r. split; [|done]. exists k. unfold rules_of. by rewrite Hk.
    + intros (r & [k Hr] & Hx). unfold rules_of in Hr.
      destruct (rules_by_program p !! k) as [rs|] eqn:E; [|by apply not_elem_of_nil in Hr].
      exists (k, rs). split; [|by apply elem_of_map_to_list]. apply list_elem_of_omap. eauto.
Qed.

End Policy.
Arguments Policy : clear implicits.
Arguments Evaluation : clear implicits.
End Policies.

(** ** Concrete evaluations *)
Module PolicyExamples.
Import Decisions Rules Policies.

(** Absolute Unix paths. *)
#[export] Instance unix_paths : ExecPaths str := {
  path_eqb := str_eqb;
  absolute_path c := if starts_with (lit "/") c then Ok c else Err (lit "relative path");
  file_name p := snd <$> rsplit_once 47 p;
}.

Definition git_push : PrefixRule :=
  mkRule (mkPattern (lit "git") [Alts [lit "push"; lit "fetch"]]) Prompt None.
Definition git_any : PrefixRule := mkRule (mkPattern (lit "git") []) Allow (Some (lit "vcs")).
Definition base : Policy str :=
  mkPolicy {[lit "git" := [git_push; git_any]]} [] {[lit "git" := [lit "/usr/bin/git"]]}.
Definition overlay : Policy str :=
  mkPolicy {[lit "git" := [mkRule (mkPattern (lit "git") [Single (lit "push")]) Forbidden None]]} [] ∅.
Definition heuristic (_ : list str) : Decision := Prompt.
Definition push : list str := [lit "git"; lit "push"; lit "-f"].

Lemma base_indexed : indexed base.
Proof.
  intros k r. unfold rules_of. simpl rules_by_program. destruct (decide (k = lit "git")) as [->|Hne].
  - rewrite lookup_singleton_eq. simpl. rewrite !elem_of_cons. intros [->|[->|H%not_elem_of_nil]]; done.
  - rewrite lookup_singleton_ne by done. by intros ?%not_elem_of_nil.
Qed.

Lemma check_complete_witness :
  exists ev, check base push heuristic = Return ev /\ verdict base push heuristic (eval_decision ev).
Proof. apply (check_complete base push heuristic). exact base_indexed. Defined.

Definition evaluate (p : Policy str) : Evaluation str :=
  match check p push heuristic with Return e => e | _ => mkEvaluation Allow [] end.
Definition merged : Policy str := merge_overlay (map_to_list (rules_by_program overlay)) base overlay.

Lemma merge_overlay_decision_witness :
  is_match (evaluate merged) = is_match (evaluate base) || is_match (evaluate overlay)
  /\ eval_decision (evaluate merged)
     = combine_decisions (is_match (evaluate base)) (is_match (evaluate overlay))
         (eval_decision (evaluate base)) (eval_decision (evaluate overlay)) (heuristic push).
Proof.
  apply (merge_overlay_decision (map_to_list (rules_by_program overlay)) base overlay push heuristic).
  - reflexivity.
  - vm_compute. reflexivity.
  - vm_compute. reflexivity.
  - vm_compute. reflexivity.
Defined.

Lemma add_prefix_rule_effect_witness :
  match add_prefix_rule [lit "git"; lit "push"] Forbidden base with
  | Err _ => [lit "git"; lit "push"] = []
  | Ok p' => [lit "git"; lit "push"] <> [] /\ exists ev', check p' push heuristic = Return ev' /\
      if decide ([lit "git"; lit "push"] `prefix_of` push)
      then is_match ev' = true /\ eval_decision ev' = decision_max Prompt Forbidden
      else ev' = mkEvaluation Prompt (exact_matches base push)
  end.
Proof.
  apply (add_prefix_rule_effect [lit "git"; lit "push"] Forbidden base push heuristic
    (mkEvaluation Prompt (exact_matches base push))).
  vm_compute. reflexivity.
Defined.

Definition git_path : list str := [lit "/usr/bin/git"; lit "status"].
Definition git_path_match : RuleMatch str :=
  PrefixRuleMatch [lit "git"] Allow (Some (lit "/usr/bin/git")) (Some (lit "vcs")).
Lemma host_match_guarded_witness :
  exists c args prog name r matched,
    git_path = c :: args /\ absolute_path c = Ok prog /\ executable_path_lookup_key prog = Some name
    /\ r ∈ rules_of (rules_by_program base) name
    /\ pattern_spec (pattern r) (name :: args) matched
    /\ git_path_match = PrefixRuleMatch matched (decision r) (Some prog) (justification r)
    /\ (forall paths, host_executables_by_name base !! name = Some paths ->
          exists q, q ∈ paths /\ path_eqb prog q = true).
Proof.
  apply (host_match_guarded base git_path git_path_match).
  replace (match_host_executable_rules base git_path) with [git_path_match]
    by (vm_compute; reflexivity).
  left.
Defined.

Lemma allowed_prefixes_canonical_witness :
  let es := map_to_list (rules_by_program base) in
  StronglySorted (cmp_lt strs_cmp) (get_allowed_prefixes es)
  /\ get_allowed_prefixes es = get_allowed_prefixes (reverse es)
  /\ forall x, x ∈ get_allowed_prefixes es <-> exists r, stored base r /\ allowed_prefix r = Some x.
Proof.
  apply (allowed_prefixes_canonical base (map_to_list (rules_by_program base))
    (reverse (map_to_list (rules_by_program base)))); [reflexivity|].
  apply reverse_Permutation.
Defined.

End PolicyExamples.
