(* ===== verification/PolicyBuild.v ===== *)
(** * PolicyBuild: from policy files to policies, and back

    Models the builder behind the policy language (parser.rs of execpolicy):
    the builtins [prefix_rule], [network_rule] and [host_executable], the
    validation of their examples (rule.rs), and the two programs that edit
    policy files, amend.rs and sandbox_migration.rs. Starlark itself is a
    parameter: a policy file is evaluated by an interpreter that is known here
    by the sequence of builtin calls it makes. *)

From Stdlib Require Import ZifyBool.
From S2P Require Import Prelude RustStr ExecPolicy.
Import Decisions Rules Policies.

(** The Starlark values the builtins receive. *)
#[local] Unset Elimination Schemes.
Inductive Value :=
| VString (s : str)
| VList (items : list Value)
| VOther (ty : str).
#[local] Set Elimination Schemes.

(** [shlex] and the [Debug] renderings in error messages. *)
Class Render (AbsolutePath : Type) := {
  shlex_split : str -> option (list str);
  shlex_try_join : list str -> option str;
  debug_rule : PrefixRule -> str;
  debug_match : RuleMatch AbsolutePath -> str;
}.

Module Builder.

(** [get_type] and [unpack_str] *)
Definition get_type (v : Value) : str :=
  match v with VString _ => lit "string" | VList _ => lit "list" | VOther ty => ty end.
Definition unpack_str (v : Value) : option str :=
  match v with VString s => Some s | _ => None end.

(** [std::path::Path] on Unix: components, split at slashes. *)
Inductive Component := RootDir | CurDir | ParentDir | Normal (s : str).
Definition is_absolute (s : str) : bool := starts_with (lit "/") s.
Definition component (s : str) : Component :=
  if str_eqb s (lit "..") then ParentDir else Normal s.
Definition components (s : str) : list Component :=
  let parts := split_on 47 s in
  let lead := if is_absolute s then [RootDir]
              else match parts with p :: _ => if str_eqb p (lit ".") then [CurDir] else [] | [] => [] end in
  lead ++ (component <$> List.filter (fun p => negb (is_empty p) && negb (str_eqb p (lit "."))) parts).
Definition path_file_name (s : str) : option str :=
  match last (components s) with Some (Normal n) => Some n | _ => None end.

(** [Path::parent], as the components left. *)
Definition path_parent (s : str) : option (list Component) :=
  match reverse (components s) with
  | [] | RootDir :: _ => None
  | _ :: r => Some (reverse r)
  end.

(** *** Parsing the arguments of the builtins *)

Definition parse_pattern_token (v : Value) : result Error PatternToken :=
  match v with
  | VString s => Ok (Single s)
  | VList items =>
      tokens ← try_map (fun v => ok_or (unpack_str v) (InvalidPattern
                 (lit "pattern alternative must be a string (got " ++ get_type v ++ lit ")"))) items;
      match tokens with
      | [] => Err (InvalidPattern (lit "pattern alternatives cannot be empty"))
      | [single] => Ok (Single single)
      | _ => Ok (Alts tokens)
      end
  | VOther _ => Err (InvalidPattern
      (lit "pattern element must be a string or list of strings (got " ++ get_type v ++ lit ")"))
  end.

Definition parse_pattern (items : list Value) : result Error (list PatternToken) :=
  tokens ← try_map parse_pattern_token items;
  match tokens with
  | [] => Err (InvalidPattern (lit "pattern cannot be empty"))
  | _ => Ok tokens
  end.

Definition validate_host_executable_name (name : str) : result Error unit :=
  if is_empty name then Err (InvalidRule (lit "host_executable name cannot be empty"))
  else if negb (length (components name) =? 1)
          || negb (match path_file_name name with Some n => str_eqb n name | None => false end)
  then Err (InvalidRule
    (lit "host_executable name must be a bare executable name (got " ++ name ++ lit ")"))
  else Ok tt.

Definition parse_network_rule_decision (raw : str) : result Error Decision :=
  if str_eqb raw (lit "deny") then Ok Forbidden else parse raw.

Definition parse_justification (j : option str) : result Error (option str) :=
  match j with
  | Some raw =>
      if is_empty (trim raw) then Err (InvalidRule (lit "justification cannot be empty"))
      else Ok (Some raw)
  | None => Ok None
  end.

(** [error_location_from_file_span] *)
Definition error_location_from_file_span (s : Span) : ErrorLocation :=
  mkLoc (span_file s)
    (mkRange (mkPos (line (span_begin s) + 1) (column (span_begin s) + 1))
             (mkPos (line (span_end s) + 1) (column (span_end s) + 1))).

Definition attach_validation_location (location : option ErrorLocation) (e : Error) : Error :=
  match location with Some l => with_location l e | None => e end.

Section Build.
Context {AbsolutePath : Type} {exec_paths : ExecPaths AbsolutePath} {render : Render AbsolutePath}.

Definition parse_string_example (raw : str) : result Error (list str) :=
  tokens ← ok_or (shlex_split raw) (InvalidExample (lit "example string has invalid shell syntax"));
  match tokens with
  | [] => Err (InvalidExample (lit "example cannot be an empty string"))
  | _ => Ok tokens
  end.
Definition parse_list_example (items : list Value) : result Error (list str) :=
  tokens ← try_map (fun v => ok_or (unpack_str v) (InvalidExample
             (lit "example tokens must be strings (got " ++ get_type v ++ lit ")"))) items;
  match tokens with
  | [] => Err (InvalidExample (lit "example cannot be an empty list"))
  | _ => Ok tokens
  end.
Definition parse_example (v : Value) : result Error (list str) :=
  match v with
  | VString raw => parse_string_example raw
  | VList items => parse_list_example items
  | VOther _ => Err (InvalidExample
      (lit "example must be a string or list of strings (got " ++ get_type v ++ lit ")"))
  end.
Definition parse_examples (items : option (list Value)) : result Error (list (list str)) :=
  match items with Some items => try_map parse_example items | None => Ok [] end.

Definition parse_literal_absolute_path (raw : str) : result Error AbsolutePath :=
  if negb (is_absolute raw)
  then Err (InvalidRule (lit "host_executable paths must be absolute (got " ++ raw ++ lit ")"))
  else map_err (fun e => InvalidRule (lit "invalid absolute path `" ++ raw ++ lit "`: " ++ e))
         (absolute_path raw).

(** *** The builder *)

Record PendingExampleValidation := mkPending {
  pending_rules : list PrefixRule;
  pending_matches : list (list str);
  pending_not_matches : list (list str);
  pending_location : option ErrorLocation;
}.

Record PolicyBuilder := mkBuilder {
  b_rules : gmap str (list PrefixRule);
  b_network : list NetworkRule;
  b_hosts : gmap str (list AbsolutePath);
  b_pending : list PendingExampleValidation;
}.
Definition new_builder : PolicyBuilder := mkBuilder ∅ [] ∅ [].

Definition add_rule (r : PrefixRule) (b : PolicyBuilder) : PolicyBuilder :=
  mkBuilder (multi_insert (program r) r (b_rules b)) (b_network b) (b_hosts b) (b_pending b).
Definition builder_add_network_rule (r : NetworkRule) (b : PolicyBuilder) : PolicyBuilder :=
  mkBuilder (b_rules b) (b_network b ++ [r]) (b_hosts b) (b_pending b).
Definition add_host_executable (name : str) (paths : list AbsolutePath) (b : PolicyBuilder)
    : PolicyBuilder :=
  mkBuilder (b_rules b) (b_network b) (<[name := paths]> (b_hosts b)) (b_pending b).
Definition add_pending_example_validation (v : PendingExampleValidation) (b : PolicyBuilder)
    : PolicyBuilder :=
  mkBuilder (b_rules b) (b_network b) (b_hosts b) (b_pending b ++ [v]).
Definition build (b : PolicyBuilder) : Policy AbsolutePath :=
  mkPolicy (b_rules b) (b_network b) (b_hosts b).

(** *** The builtins: an error leaves the builder as it was *)

Definition rules_for (tokens : list PatternToken) (d : Decision) (j : option str) : list PrefixRule :=
  match tokens with
  | [] => []
  | first_token :: remaining =>
      (fun head => mkRule (mkPattern head remaining) d j) <$> alternatives first_token
  end.

Definition prefix_rule (pattern : list Value) (decision : option str)
    (matches not_matches : option (list Value)) (justification : option str)
    (call_site : option Span) (b : PolicyBuilder) : result Error PolicyBuilder :=
  decision ← match decision with Some raw => parse raw | None => Ok Allow end;
  justification ← parse_justification justification;
  pattern_tokens ← parse_pattern pattern;
  matches ← parse_examples matches;
  not_matches ← parse_examples not_matches;
  let location := error_location_from_file_span <$> call_site in
  match pattern_tokens with
  | [] => Err (InvalidPattern (lit "pattern cannot be empty"))
  | _ :: _ =>
      let rules := rules_for pattern_tokens decision justification in
      Ok (foldl (fun b r => add_rule r b)
            (add_pending_example_validation (mkPending rules matches not_matches location) b) rules)
  end.

Definition network_rule (host protocol decision : str) (justification : option str)
    (b : PolicyBuilder) : result Error PolicyBuilder :=
  protocol ← parse_protocol protocol;
  decision ← parse_network_rule_decision decision;
  justification ← parse_justification justification;
  host ← normalize_network_rule_host host;
  Ok (builder_add_network_rule (mkNetworkRule host protocol decision justification) b).

Fixpoint parse_host_paths (name : str) (values : list Value) (parsed_paths : list AbsolutePath)
    : result Error (list AbsolutePath) :=
  match values with
  | [] => Ok parsed_paths
  | v :: values =>
      raw ← ok_or (unpack_str v) (InvalidRule
              (lit "host_executable paths must be strings (got " ++ get_type v ++ lit ")"));
      path ← parse_literal_absolute_path raw;
      let wrong := InvalidRule
        (lit "host_executable path `" ++ raw ++ lit "` must have basename `" ++ name ++ lit "`") in
      match executable_path_lookup_key path with
      | None => Err wrong
      | Some path_name =>
          if negb (str_eqb path_name (executable_lookup_key name)) then Err wrong
          else parse_host_paths name values
                 (if existsb (fun existing => path_eqb existing path) parsed_paths
                  then parsed_paths else parsed_paths ++ [path])
      end
  end.
Definition host_executable (name : str) (paths : list Value) (b : PolicyBuilder)
    : result Error PolicyBuilder :=
  _ ← validate_host_executable_name name;
  parsed_paths ← parse_host_paths name paths [];
  Ok (add_host_executable (executable_lookup_key name) parsed_paths b).

(** *** Validating the examples of a rule *)

Definition resolving : MatchOptions := mkOptions true.
Definition render_example (example : list str) : str :=
  default (lit "unable to render example") (shlex_try_join example).

Definition validate_match_examples (p : Policy AbsolutePath) (rules : list PrefixRule)
    (matches : list (list str)) : result Error unit :=
  let unmatched_examples := render_example <$>
    List.filter (fun e => is_empty (matches_for_command_with_options p e None resolving)) matches in
  if is_empty unmatched_examples then Ok tt
  else Err (ExampleDidNotMatch (debug_rule <$> rules) unmatched_examples None).

Fixpoint validate_not_match_examples (p : Policy AbsolutePath) (not_matches : list (list str))
    : result Error unit :=
  match not_matches with
  | [] => Ok tt
  | e :: not_matches =>
      match matches_for_command_with_options p e None resolving with
      | m :: _ => Err (ExampleDidMatch (debug_match m) (render_example e) None)
      | [] => validate_not_match_examples p not_matches
      end
  end.

(** The policy an example is checked against: the rules of its own call and
    the host executables known so far. *)
Definition validation_policy (b : PolicyBuilder) (v : PendingExampleValidation) : Policy AbsolutePath :=
  mkPolicy (foldl (fun m r => multi_insert (program r) r m) ∅ (pending_rules v)) [] (b_hosts b).

Fixpoint validate_all (b : PolicyBuilder) (vs : list PendingExampleValidation) : result Error unit :=
  match vs with
  | [] => Ok tt
  | v :: vs =>
      let policy := validation_policy b v in
      let located {A} (r : result Error A) := map_err (attach_validation_location (pending_location v)) r in
      _ ← located (validate_not_match_examples policy (pending_not_matches v));
      _ ← located (validate_match_examples policy (pending_rules v) (pending_matches v));
      validate_all b vs
  end.
Definition validate_pending_examples_from (start : nat) (b : PolicyBuilder) : result Error unit :=
  validate_all b (drop start (b_pending b)).

(** *** Running a policy file *)

Inductive Call :=
| PrefixRuleCall (pattern : list Value) (decision : option str)
    (matches not_matches : option (list Value)) (justification : option str) (site : option Span)
| NetworkRuleCall (host protocol decision : str) (justification : option str)
| HostExecutableCall (name : str) (paths : list Value).

Definition run_call (c : Call) (b : PolicyBuilder) : result Error PolicyBuilder :=
  match c with
  | PrefixRuleCall pattern decision matches not_matches justification site =>
      prefix_rule pattern decision matches not_matches justification site b
  | NetworkRuleCall host protocol decision justification =>
      network_rule host protocol decision justification b
  | HostExecutableCall name paths => host_executable name paths b
  end.

(** The calls of an evaluation, up to the first that fails; what was added
    before a failure stays in the builder. *)
Fixpoint run_calls (cs : list Call) (b : PolicyBuilder) : PolicyBuilder * result Error unit :=
  match cs with
  | [] => (b, Ok tt)
  | c :: cs =>
      match run_call c b with
      | Ok b => run_calls cs b
      | Err e => (b, Err e)
      end
  end.

(** [PolicyParser::parse]. [interpret] gives the calls an evaluation makes and
    the error it ends with by itself, if any; [report] is how Starlark wraps
    the failure of a builtin. *)
Definition parse_policy (interpret : str -> str -> list Call * option Error) (report : Error -> Error)
    (policy_identifier policy_file_contents : str) (b : PolicyBuilder)
    : PolicyBuilder * result Error unit :=
  let pending_validation_count := length (b_pending b) in
  let '(calls, failure) := interpret policy_identifier policy_file_contents in
  match run_calls calls b with
  | (b, Err e) => (b, Err (report e))
  | (b, Ok _) =>
      match failure with
      | Some e => (b, Err e)
      | None => (b, validate_pending_examples_from pending_validation_count b)
      end
  end.

(** ** The invariant of policies *)

(** The paths listed for a name have it as their file name, each once. *)
Definition paths_for (name : str) (paths : list AbsolutePath) : Prop :=
  Forall (fun q => executable_path_lookup_key q = Some name) paths
  /\ forall i j q q', i < j -> paths !! i = Some q -> paths !! j = Some q' -> path_eqb q q' = false.
Definition hosts_ok (m : gmap str (list AbsolutePath)) : Prop :=
  map_Forall paths_for m.
Definition network_ok (rs : list NetworkRule) : Prop := Forall (fun r => clean_host (host r)) rs.
Definition policy_wf (p : Policy AbsolutePath) : Prop :=
  indexed p /\ network_ok (network_rules p) /\ hosts_ok (host_executables_by_name p).

Lemma indexed_insert (r : PrefixRule) (m : gmap str (list PrefixRule)) (n : list NetworkRule) (h : gmap str (list AbsolutePath)) :
  indexed (mkPolicy m n h) -> indexed (mkPolicy (multi_insert (program r) r m) n h).
Proof.
  intros H k r'. simpl. rewrite rules_of_multi_insert, elem_of_app. intros [Hr|Hr].
  - by apply (H k r').
  - destruct (decide (program r = k)) as [<-|]; [|by apply not_elem_of_nil in Hr].
    by apply list_elem_of_singleton in Hr as ->.
Qed.

Lemma foldl_add_rule_wf rs b :
  policy_wf (build b) -> policy_wf (build (foldl (fun b r => add_rule r b) b rs)).
Proof.
  revert b. induction rs as [|r rs IH]; intros b H; simpl; [done|]. apply IH.
  destruct H as (Hi & Hn & Hh). split_and!; [|done..]. by apply indexed_insert.
Qed.

Lemma parse_host_paths_ok name vs acc paths :
  paths_for (executable_lookup_key name) acc ->
  parse_host_paths name vs acc = Ok paths -> paths_for (executable_lookup_key name) paths.
Proof.
  revert acc. induction vs as [|v vs IH]; intros acc Hacc; simpl; [by intros [= <-]|].
  intros (raw & _ & (path & _ & H)%result_bind_Ok)%result_bind_Ok. revert H.
  destruct (executable_path_lookup_key path) as [n|] eqn:Hn; [|done].
  destruct (str_eqb_spec n (executable_lookup_key name)) as [->|]; simpl; [|done]. apply IH.
  destruct (existsb _ acc) eqn:He; [done|]. destruct Hacc as [Hall Hdup]. split.
  - apply Forall_app. split; [done|]. by apply Forall_singleton.
  - intros i j q q' Hij Hi Hj. apply lookup_app_Some in Hj as [Hj|[Hle Hj]].
    + apply Hdup with i j; [done| |done]. apply lookup_lt_Some in Hj.
      by rewrite lookup_app_l in Hi by lia.
    + apply list_lookup_singleton_Some in Hj as [Hj <-].
      rewrite lookup_app_l in Hi by lia. apply not_true_iff_false. intros Hq.
      apply not_true_iff_false in He. apply He, existsb_exists. exists q. split; [|done].
      rewrite <- list_elem_of_In. by eapply list_elem_of_lookup_2.
Qed.

Lemma run_call_wf c b b' : policy_wf (build b) -> run_call c b = Ok b' -> policy_wf (build b').
Proof.
  intros Hwf. destruct c as [pat dec ms nms j site|h pr dec j|name paths]; simpl.
  - unfold prefix_rule.
    intros (d & _ & (j' & _ & (toks & _ & (m & _ & (nm & _ & H)%result_bind_Ok)%result_bind_Ok)%result_bind_Ok)%result_bind_Ok)%result_bind_Ok.
    destruct toks; [done|]. injection H as <-. by apply foldl_add_rule_wf.
  - unfold network_rule.
    intros (p & _ & (d & _ & (j' & _ & (h' & Hh & [= <-])%result_bind_Ok)%result_bind_Ok)%result_bind_Ok)%result_bind_Ok.
    destruct Hwf as (? & ? & ?). split_and!; [done| |done]. simpl. apply Forall_app. split; [done|].
    apply Forall_singleton. by eapply normalize_clean.
  - unfold host_executable. intros (_ & _ & (ps & Hps & [= <-])%result_bind_Ok)%result_bind_Ok.
    destruct Hwf as (? & ? & ?). split_and!; [done..|]. simpl. apply map_Forall_insert_2; [|done].
    eapply parse_host_paths_ok; [|done]. split; [constructor|]. intros ? ? ? ? ?. by rewrite lookup_nil.
Qed.

Lemma run_calls_wf cs b : policy_wf (build b) -> policy_wf (build (run_calls cs b).1).
Proof.
  revert b. induction cs as [|c cs IH]; intros b H; simpl; [done|].
  destruct (run_call c b) as [b'|e] eqn:E; [|done]. apply IH. by eapply run_call_wf.
Qed.

(** The policies a program can get hold of: parsed from any files, extended
    and overlaid. The caller of [set_host_executable_paths] vouches for the
    paths. *)
Inductive reachable : Policy AbsolutePath -> Prop :=
| reach_empty : reachable empty_policy
| reach_parse b interpret report name contents :
    reachable (build b) ->
    reachable (build (parse_policy interpret report name contents b).1)
| reach_add_prefix p p' prefix d :
    reachable p -> add_prefix_rule prefix d p = Ok p' -> reachable p'
| reach_add_network p p' h proto d j :
    reachable p -> add_network_rule h proto d j p = Ok p' -> reachable p'
| reach_set_hosts p name paths :
    reachable p -> paths_for name paths -> reachable (set_host_executable_paths name paths p)
| reach_merge p q entries :
    reachable p -> reachable q -> entries ≡ₚ map_to_list (rules_by_program q) ->
    reachable (merge_overlay entries p q).

Lemma add_prefix_rule_wf prefix d p p' :
  policy_wf p -> add_prefix_rule prefix d p = Ok p' -> policy_wf p'.
Proof.
  intros (Hi & Hn & Hh). destruct prefix as [|t ts]; simpl; [done|]. intros [= <-].
  split_and!; [|done..].
  apply (indexed_insert (mkRule (mkPattern t (Single <$> ts)) d None)). by destruct p.
Qed.
Lemma add_network_rule_wf h proto d j p p' :
  policy_wf p -> add_network_rule h proto d j p = Ok p' -> policy_wf p'.
Proof.
  intros (Hi & Hn & Hh). unfold add_network_rule. intros (h' & Hh' & H)%result_bind_Ok.
  revert H. case_match; [done|]. intros [= <-]. split_and!; [done| |done]. simpl.
  apply Forall_app. split; [done|]. apply Forall_singleton. by eapply normalize_clean.
Qed.
Lemma merge_overlay_wf entries p q :
  policy_wf p -> policy_wf q -> entries ≡ₚ map_to_list (rules_by_program q) ->
  policy_wf (merge_overlay entries p q).
Proof.
  intros (Hi & Hn & Hh) (Hi' & Hn' & Hh') He. split_and!.
  - intros k r. rewrite rules_of_merge_overlay, elem_of_app by done.
    intros [Hr|Hr]; [by apply (Hi k r)|by apply (Hi' k r)].
  - by apply Forall_app.
  - simpl. by apply map_Forall_union_2.
Qed.

(** Every policy a program can build is well formed: each rule is filed
    under its program, each network host is clean, and the paths listed for an
    executable carry its name without repetition. Policies parsed from files
    that fail half way are included. *)
Theorem reachable_policy_wf p : reachable p -> policy_wf p.
Proof.
  induction 1 as [|b interpret report name contents _ IH|? ? ? ? ? IH|? ? ? ? ? ? ? IH
                  |p name paths _ (Hi & Hn & Hh)|? ? ? ? IH1 ? IH2].
  - split_and!; [|constructor|apply map_Forall_empty]. intros k r. unfold rules_of. simpl.
    rewrite lookup_empty. by intros ?%not_elem_of_nil.
  - unfold parse_policy. destruct (interpret name contents) as [calls failure].
    pose proof (run_calls_wf calls b IH) as H. destruct (run_calls calls b) as [b' [[]|e]]; [|done].
    by destruct failure.
  - by eapply add_prefix_rule_wf.
  - by eapply add_network_rule_wf.
  - split_and!; [done..|]. simpl. by apply map_Forall_insert_2.
  - by apply merge_overlay_wf.
Qed.

(** ** What the builtins mean *)

Lemma stored_insert (r x : PrefixRule) (m : gmap str (list PrefixRule)) (n : list NetworkRule)
    (h : gmap str (list AbsolutePath)) :
  stored (mkPolicy (multi_insert (program r) r m) n h) x <-> stored (mkPolicy m n h) x \/ x = r.
Proof.
  unfold stored. simpl. setoid_rewrite rules_of_multi_insert. setoid_rewrite elem_of_app. split.
  - intros (k & [Hx|Hx]); [eauto|]. destruct (decide (program r = k)); [|by apply not_elem_of_nil in Hx].
    apply list_elem_of_singleton in Hx. auto.
  - intros [[k Hx]| ->]; [eauto|]. exists (program r). rewrite decide_True by done. right. left.
Qed.

Lemma stored_add_rules rs b x :
  stored (build (foldl (fun b r => add_rule r b) b rs)) x <-> stored (build b) x \/ x ∈ rs.
Proof.
  revert b. induction rs as [|r rs IH]; intros b; simpl.
  - split; [auto|]. by intros [|?%not_elem_of_nil].
  - rewrite IH, elem_of_cons. unfold add_rule at 1, build at 1. simpl. rewrite stored_insert.
    unfold build. tauto.
Qed.

Lemma rules_for_spec toks d j cmd :
  toks <> [] ->
  (exists r m, r ∈ rules_for toks d j /\ pattern_spec (pattern r) cmd m)
  <-> exists m, m `prefix_of` cmd /\ Forall2 (fun t c => c ∈ alternatives t) toks m.
Proof.
  destruct toks as [|t ts]; [done|]. intros _. simpl. split.
  - intros (r & m & (hd & -> & Hh)%list_elem_of_fmap & (toks & -> & Hp & H2)). simpl in *.
    exists (hd :: toks). split; [done|]. by constructor.
  - intros (m & Hp & H2). inversion H2 as [|? c ? toks Hc H2']; subst.
    exists (mkRule (mkPattern c ts) d j), (c :: toks). split.
    + apply list_elem_of_fmap. eauto.
    + exists toks. by split_and!.
Qed.

(** What a [prefix_rule] statement adds. When it is accepted the policy
    gains rules with the stated decision that match exactly the commands
    starting, token by token, with one of the alternatives written for each
    element of the pattern, the first element included; all other rules stay. *)
Theorem prefix_rule_meaning pat dec ms nms j site b b' :
  prefix_rule pat dec ms nms j site b = Ok b' ->
  exists toks d, parse_pattern pat = Ok toks
    /\ match dec with Some raw => parse raw = Ok d | None => d = Allow end
    /\ (forall r, stored (build b') r <-> stored (build b) r \/ r ∈ rules_for toks d j)
    /\ Forall (fun r => decision r = d) (rules_for toks d j)
    /\ forall cmd, (exists r m, r ∈ rules_for toks d j /\ pattern_spec (pattern r) cmd m)
         <-> exists m, m `prefix_of` cmd /\ Forall2 (fun t c => c ∈ alternatives t) toks m.
Proof.
  unfold prefix_rule.
  intros (d & Hd & (j' & Hj & (toks & Ht & (m & _ & (nm & _ & H)%result_bind_Ok)%result_bind_Ok)%result_bind_Ok)%result_bind_Ok)%result_bind_Ok.
  assert (j' = j) as ->.
  { unfold parse_justification in Hj. destruct j; [destruct (is_empty _)|]; congruence. }
  exists toks, d. assert (Hne : toks <> []) by (by destruct toks).
  split_and!; [done| | | |by intros; apply rules_for_spec].
  - destruct dec; [done|]. by injection Hd.
  - intros r. destruct toks as [|t ts]; [done|]. injection H as <-. rewrite stored_add_rules. done.
  - destruct toks as [|t ts]; [done|]. apply Forall_fmap, Forall_true. done.
Qed.

(** *** Examples *)

Definition is_matched (p : Policy AbsolutePath) (e : list str) : Prop :=
  matches_for_command_with_options p e None resolving <> [].

Lemma validate_match_examples_Ok p rs ms :
  validate_match_examples p rs ms = Ok tt <-> Forall (is_matched p) ms.
Proof.
  unfold validate_match_examples, is_matched. rewrite Forall_forall.
  destruct (List.filter _ ms) as [|e es] eqn:E; csimpl.
  - split; [|done]. intros _ x Hx Hm. assert (Hin : In x (List.filter (fun e =>
      is_empty (matches_for_command_with_options p e None resolving)) ms)).
    { apply filter_In. rewrite Hm, <- list_elem_of_In. done. }
    by rewrite E in Hin.
  - split; [done|]. intros H. assert (Hin : In e (e :: es)) by (by left).
    rewrite <- E in Hin. apply filter_In in Hin as [Hin He]. rewrite <- list_elem_of_In in Hin.
    apply H in Hin. by destruct (matches_for_command_with_options p e None resolving).
Qed.

Lemma validate_not_match_examples_Ok p nms :
  validate_not_match_examples p nms = Ok tt <-> Forall (fun e => ~ is_matched p e) nms.
Proof.
  unfold is_matched. induction nms as [|e nms IH]; simpl; [split; [constructor|done]|].
  rewrite Forall_cons. destruct (matches_for_command_with_options p e None resolving).
  - rewrite IH. tauto.
  - split; [done|]. intros [H _]. by destruct H.
Qed.

(** The promise of a rule's examples. *)
Definition examples_hold (b : PolicyBuilder) (v : PendingExampleValidation) : Prop :=
  Forall (fun e => ~ is_matched (validation_policy b v) e) (pending_not_matches v)
  /\ Forall (is_matched (validation_policy b v)) (pending_matches v).

Lemma validate_all_Ok b vs : validate_all b vs = Ok tt <-> Forall (examples_hold b) vs.
Proof.
  unfold examples_hold. induction vs as [|v vs IH]; simpl; [split; [constructor|done]|].
  rewrite Forall_cons, <- validate_not_match_examples_Ok, <- (validate_match_examples_Ok _ (pending_rules v)), <- IH.
  destruct (validate_not_match_examples _ _) as [[]|e]; simpl; [|naive_solver].
  destruct (validate_match_examples _ _ _) as [[]|e]; simpl; naive_solver.
Qed.

(** The examples written beside a rule are a checked contract. Parsing a
    file succeeds exactly when the interpreter and every builtin succeed and,
    for each rule the file added, no negative example is matched by that rule
    and every positive example is (host executables resolved). *)
Theorem parse_policy_examples interpret report name contents b b' r :
  parse_policy interpret report name contents b = (b', r) ->
  r = Ok tt <->
  (run_calls (interpret name contents).1 b = (b', Ok tt) /\ (interpret name contents).2 = None
   /\ Forall (examples_hold b') (drop (length (b_pending b)) (b_pending b'))).
Proof.
  unfold parse_policy. destruct (interpret name contents) as [calls failure]. simpl.
  destruct (run_calls calls b) as [b1 [[]|e]].
  - destruct failure as [f|].
    + intros [= <- <-]. split; [done|]. by intros (_ & ? & _).
    + intros [= <- <-]. unfold validate_pending_examples_from. rewrite validate_all_Ok. naive_solver.
  - intros [= <- <-]. split; [done|]. by intros (? & _).
Qed.

End Build.
End Builder.

(** ** Editing policy files *)
Module PolicyFiles.

Inductive AmendError (E : Type) :=
| EmptyPrefix
| InvalidNetworkRule (m : str)
| MissingParent (path : str)
| CreatePolicyDir (dir : list Builder.Component) (source : E)
| SerializePrefix
| SerializeNetworkRule
| OpenPolicyFile (path : str) (source : E)
| WritePolicyFile (path : str) (source : E)
| LockPolicyFile (path : str) (source : E)
| SeekPolicyFile (path : str) (source : E)
| ReadPolicyFile (path : str) (source : E)
| PolicyMetadata (path : str) (source : E).
Arguments EmptyPrefix {E}. Arguments InvalidNetworkRule {E}. Arguments MissingParent {E}.
Arguments CreatePolicyDir {E}. Arguments SerializePrefix {E}. Arguments SerializeNetworkRule {E}.
Arguments OpenPolicyFile {E}. Arguments WritePolicyFile {E}. Arguments LockPolicyFile {E}.
Arguments SeekPolicyFile {E}. Arguments ReadPolicyFile {E}. Arguments PolicyMetadata {E}.

(** [serde_json]: one string, and a list of strings. *)
Class Json := {
  to_string : str -> option str;
  from_str : str -> option (list str);
}.

Section Files.
Context {E : Type} {json : Json}.

(** The failures the environment may inject: the error a call ends with, if
    any. A failing write may already have written a part of the line (cut between
    characters: the file is kept as text). *)
Record Faults := mkFaults {
  dir_fault : option E;
  open_fault : option E;
  lock_fault : option E;
  seek_fault : option E;
  read_fault : option E;
  newline_fault : option E;
  line_fault : option (E * nat);
}.
Definition no_faults : Faults := mkFaults None None None None None None None.

(** The contents of the policy file; [None] when it does not exist. *)
Definition File : Type := option str.

Definition append_locked_line (f : Faults) (policy_path line : str) (file : File)
    : File * result (AmendError E) unit :=
  match open_fault f with
  | Some e => (file, Err (OpenPolicyFile policy_path e))
  | None =>
  let contents := default [] file in
  match lock_fault f with
  | Some e => (Some contents, Err (LockPolicyFile policy_path e))
  | None =>
  match seek_fault f with
  | Some e => (Some contents, Err (SeekPolicyFile policy_path e))
  | None =>
  match read_fault f with
  | Some e => (Some contents, Err (ReadPolicyFile policy_path e))
  | None =>
  if existsb (fun existing => str_eqb existing line) (lines contents) then (Some contents, Ok tt)
  else
    let needs_newline := negb (is_empty contents) && negb (ends_with [nl] contents) in
    match (if needs_newline then newline_fault f else None) with
    | Some e => (Some contents, Err (WritePolicyFile policy_path e))
    | None =>
        let contents := if needs_newline then contents ++ [nl] else contents in
        match line_fault f with
        | Some (e, n) => (Some (contents ++ take n (line ++ [nl])), Err (WritePolicyFile policy_path e))
        | None => (Some (contents ++ line ++ [nl]), Ok tt)
        end
    end
  end end end end.

Definition append_rule_line (f : Faults) (already_exists : E -> bool) (policy_path rule : str)
    (file : File) : File * result (AmendError E) unit :=
  match Builder.path_parent policy_path with
  | None => (file, Err (MissingParent policy_path))
  | Some dir =>
      match dir_fault f with
      | Some e =>
          if already_exists e then append_locked_line f policy_path rule file
          else (file, Err (CreatePolicyDir dir e))
      | None => append_locked_line f policy_path rule file
      end
  end.

(** The saved text of an allow rule. *)
Definition allow_head : str := lit "prefix_rule(pattern=".
Definition allow_tail : str := lit ", decision=" ++ [dquote] ++ lit "allow" ++ [dquote] ++ lit ")".
Definition pattern_text (tokens : list str) : str := lit "[" ++ join (lit ", ") tokens ++ lit "]".
Definition allow_rule (tokens : list str) : str := allow_head ++ pattern_text tokens ++ allow_tail.

Definition serialize_all (l : list str) : option (list str) := mapM to_string l.

Definition blocking_append_allow_prefix_rule (f : Faults) (already_exists : E -> bool)
    (policy_path : str) (prefix : list str) (file : File) : File * result (AmendError E) unit :=
  match prefix with
  | [] => (file, Err EmptyPrefix)
  | _ =>
      match serialize_all prefix with
      | None => (file, Err SerializePrefix)
      | Some tokens => append_rule_line f already_exists policy_path (allow_rule tokens) file
      end
  end.

(** [error.to_string()] of the errors [normalize_network_rule_host] produces. *)
Definition rule_error_message (e : Error) : str :=
  match e with InvalidRule m => lit "invalid rule: " ++ m | _ => [] end.

Definition network_decision_word (d : Decision) : str :=
  match d with Allow => lit "allow" | Prompt => lit "prompt" | Forbidden => lit "deny" end.

Definition network_rule_line (host protocol decision : str) (justification : option str) : str :=
  lit "network_rule(" ++ join (lit ", ")
    ([lit "host=" ++ host; lit "protocol=" ++ protocol; lit "decision=" ++ decision]
     ++ match justification with Some j => [lit "justification=" ++ j] | None => [] end)
  ++ lit ")".

Definition blocking_append_network_rule (f : Faults) (already_exists : E -> bool) (policy_path : str)
    (host : str) (protocol : NetworkRuleProtocol) (decision : Decision) (justification : option str)
    (file : File) : File * result (AmendError E) unit :=
  match normalize_network_rule_host host with
  | Err e => (file, Err (InvalidNetworkRule (rule_error_message e)))
  | Ok host =>
      if match justification with Some raw => is_empty (trim raw) | None => false end
      then (file, Err (InvalidNetworkRule (lit "justification cannot be empty")))
      else
        match (h ← to_string host; p ← to_string (as_policy_string protocol);
               d ← to_string (network_decision_word decision);
               j ← match justification with
                   | Some j => Some <$> to_string j
                   | None => Some None
                   end;
               Some (network_rule_line h p d j)) with
        | None => (file, Err SerializeNetworkRule)
        | Some rule => append_rule_line f already_exists policy_path rule file
        end
  end.

(** *** The one-shot clean-up of saved allow rules *)

Definition should_remove_rule (banned : list (list str)) (l : str) : bool :=
  let l := default l (strip_suffix [nl] l) in
  let l := default l (strip_suffix [cr] l) in
  match (rest ← strip_prefix allow_head l; strip_suffix allow_tail rest) with
  | None => false
  | Some pattern =>
      match from_str pattern with
      | None => false
      | Some prefix => bool_decide (to_ascii_lowercase <$> prefix ∈ banned)
      end
  end.

Definition strip_banned_allow_rules (contents : str) (banned_prefixes : list (list str)) : str :=
  let banned : list (list str) :=
    (fun p : list str => to_ascii_lowercase <$> p) <$> banned_prefixes in
  concat (List.filter (fun l => negb (should_remove_rule banned l)) (split_inclusive contents)).

(** The failures of the migration's file accesses. A failed overwrite or
    truncation leaves some text behind. *)
Record MigrationFaults := mkMigrationFaults {
  exists_fault : option E;
  first_read_fault : option E;
  reopen_fault : option E;
  second_read_fault : option E;
  rewind_fault : option E;
  overwrite_fault : option (E * str);
  set_len_fault : option (E * str);
  marker_fault : option E;
}.
Definition no_migration_faults : MigrationFaults :=
  mkMigrationFaults None None None None None None None None.

(** The part of [clean_rules_file] that holds the file open, with the text it
    reads there. *)
Definition rewrite_rules_file (f : MigrationFaults) (banned : list (list str)) (contents : str)
    : File * result E unit :=
  match second_read_fault f with
  | Some e => (Some contents, Err e)
  | None =>
  let retained := strip_banned_allow_rules contents banned in
  if str_eqb retained contents then (Some contents, Ok tt)
  else
    match rewind_fault f with
    | Some e => (Some contents, Err e)
    | None =>
    match overwrite_fault f with
    | Some (e, torn) => (Some torn, Err e)
    | None =>
    match set_len_fault f with
    | Some (e, torn) => (Some torn, Err e)
    | None => (Some retained, Ok tt)
    end end end
  end.

(** The file may change between the two reads: [reread] is what the second
    open finds. A missing file is nothing to do, at both. *)
Definition clean_rules_file (f : MigrationFaults) (banned : list (list str)) (file reread : File)
    : File * result E unit :=
  match file with
  | None => (file, Ok tt)
  | Some contents =>
      match first_read_fault f with
      | Some e => (file, Err e)
      | None =>
          if str_eqb (strip_banned_allow_rules contents banned) contents then (file, Ok tt)
          else match reread with
               | None => (None, Ok tt)
               | Some contents =>
                   match reopen_fault f with
                   | Some e => (reread, Err e)
                   | None => rewrite_rules_file f banned contents
                   end
               end
      end
  end.

(** The marker file in the home directory, and the policy file. *)
Record Home := mkHome { marker : bool; policy : File }.
Definition prefix_rule_migration (f : MigrationFaults) (banned : list (list str)) (reread : File)
    (h : Home) : Home * result E unit :=
  match exists_fault f with
  | Some e => (h, Err e)
  | None =>
      if marker h then (h, Ok tt)
      else
        match clean_rules_file f banned (policy h) reread with
        | (file, Err e) => (mkHome false file, Err e)
        | (file, Ok _) =>
            match marker_fault f with
            | Some e => (mkHome false file, Err e)
            | None => (mkHome true file, Ok tt)
            end
        end
  end.

(** ** Appending *)

Lemma existsb_lines l ls : existsb (fun e => str_eqb e l) ls = true <-> l ∈ ls.
Proof.
  rewrite existsb_exists, list_elem_of_In. setoid_rewrite str_eqb_eq. naive_solver.
Qed.

Lemma lines_append_line c l :
  line_ok l -> last c <> Some cr ->
  lines ((if negb (is_empty c) && negb (ends_with [nl] c) then c ++ [nl] else c) ++ l ++ [nl])
  = lines c ++ [l].
Proof.
  intros Hl Hcr. rewrite <- (lines_single l) by done.
  destruct c as [|x c _] using rev_ind; [done|]. rewrite last_snoc in Hcr.
  assert (is_empty (c ++ [x]) = false) as -> by (by destruct c). cbn [negb andb].
  destruct (ends_with [nl] (c ++ [x])) eqn:Hn; cbn [negb].
  - apply ends_with_spec in Hn as [t Hn]. apply app_inj_2 in Hn as [-> [= ->]]; [|done].
    apply lines_app_nl.
  - assert (x <> nl).
    { intros ->. apply not_true_iff_false in Hn. apply Hn, ends_with_spec. eauto. }
    rewrite lines_app_nl, lines_terminate_char; congruence.
Qed.

(** What one append does to the file, whatever fails. *)
Lemma append_locked_line_grows f path l file :
  let r := append_locked_line f path l file in
  default [] file `prefix_of` default [] r.1.
Proof.
  unfold append_locked_line. repeat (case_match; simpl; try done).
  all: try (eexists; rewrite <- ?app_assoc; reflexivity).
Qed.

Lemma append_locked_line_Ok f path l file :
  let r := append_locked_line f path l file in
  r.2 = Ok tt -> line_ok l -> last (default [] file) <> Some cr ->
  exists c, r.1 = Some c
    /\ (if decide (l ∈ lines (default [] file)) then c = default [] file
        else lines c = lines (default [] file) ++ [l]).
Proof.
  unfold append_locked_line. set (c0 := default [] file).
  destruct (open_fault f); [done|]. destruct (lock_fault f); [done|].
  destruct (seek_fault f); [done|]. destruct (read_fault f); [done|].
  destruct (existsb _ _) eqn:Hex; simpl.
  { intros _ _ _. exists c0. split; [done|]. apply existsb_lines in Hex. by rewrite decide_True. }
  assert (l ∉ lines c0).
  { intros Hin. apply existsb_lines in Hin. congruence. }
  case_match; [done|]. destruct (line_fault f) as [[]|]; [done|]. intros _ Hl Hcr.
  eexists. split; [done|]. rewrite decide_False by done. by apply lines_append_line.
Qed.

Lemma append_locked_line_again f path l file :
  l ∈ lines (default [] file) ->
  default [] (append_locked_line f path l file).1 = default [] file.
Proof.
  intros Hin%existsb_lines. unfold append_locked_line. rewrite Hin. by repeat case_match.
Qed.

(** The directory step either stops before the file is touched or passes on. *)
Lemma append_rule_line_cases f ae path rule file :
  (exists e, append_rule_line f ae path rule file = (file, Err e))
  \/ append_rule_line f ae path rule file = append_locked_line f path rule file.
Proof. unfold append_rule_line. repeat case_match; eauto. Qed.

(** Saving a rule is append-only and idempotent. Whatever fails, the old
    contents stay a prefix of the file. On success the rule is a line of the
    file; if it was there before the file is unchanged, otherwise exactly that
    line was added after the old lines; saving it again, under any faults,
    changes nothing. (The old text must not end in a bare carriage return.) *)
Theorem append_rule_line_safe f ae path rule file file' r :
  append_rule_line f ae path rule file = (file', r) ->
  line_ok rule -> last (default [] file) <> Some cr ->
  default [] file `prefix_of` default [] file'
  /\ (r = Ok tt ->
       rule ∈ lines (default [] file')
       /\ lines (default [] file')
          = lines (default [] file) ++ (if decide (rule ∈ lines (default [] file)) then [] else [rule])
       /\ forall f', default [] (append_rule_line f' ae path rule file').1 = default [] file').
Proof.
  intros H Hl Hcr. destruct (append_rule_line_cases f ae path rule file) as [[e He]|He];
    rewrite He in H.
  { injection H as <- <-. split; [done|]. done. }
  pose proof (append_locked_line_grows f path rule file) as Hg.
  pose proof (append_locked_line_Ok f path rule file) as Hok.
  rewrite H in Hg, Hok. simpl in Hg, Hok. split; [done|]. intros ->.
  destruct (Hok eq_refl Hl Hcr) as (c & -> & Hc). simpl.
  assert (Hin : rule ∈ lines c /\ lines c = lines (default [] file)
    ++ (if decide (rule ∈ lines (default [] file)) then [] else [rule])).
  { destruct (decide _) as [Hin|Hnin]; [by subst; rewrite app_nil_r|]. rewrite Hc. split; [|done].
    apply elem_of_app. right. left. }
  destruct Hin as [Hin Hlines]. split_and!; [done..|]. intros f'.
  destruct (append_rule_line_cases f' ae path rule (Some c)) as [[e ->]|He']; [done|].
  rewrite He'. by apply (append_locked_line_again f' path rule (Some c)).
Qed.

(** ** Cleaning *)

Definition banned_line (banned_prefixes : list (list str)) (l : str) : bool :=
  should_remove_rule ((fun p : list str => to_ascii_lowercase <$> p) <$> banned_prefixes) l.

Lemma strip_eq c banned :
  strip_banned_allow_rules c banned
  = concat (List.filter (fun l => negb (banned_line banned l)) (split_inclusive c)).
Proof. done. Qed.

Lemma strip_lines c banned :
  split_inclusive (strip_banned_allow_rules c banned)
  = List.filter (fun l => negb (banned_line banned l)) (split_inclusive c).
Proof.
  unfold strip_banned_allow_rules. apply split_inclusive_of_pieces.
  apply pieces_filter, split_inclusive_pieces.
Qed.

Lemma filter_idem {A} (g : A -> bool) l : List.filter g (List.filter g l) = List.filter g l.
Proof.
  induction l as [|x l IH]; simpl; [done|]. destruct (g x) eqn:Hg; simpl; rewrite ?Hg, IH; done.
Qed.

Lemma strip_idem c banned :
  strip_banned_allow_rules (strip_banned_allow_rules c banned) banned
  = strip_banned_allow_rules c banned.
Proof. rewrite strip_eq, strip_lines, filter_idem. by rewrite <- strip_eq. Qed.

(** No banned line is left. *)
Definition cleaned (banned : list (list str)) (file : File) : Prop :=
  match file with Some c => strip_banned_allow_rules c banned = c | None => True end.

Lemma clean_rules_file_cleaned f banned file reread file' :
  clean_rules_file f banned file reread = (file', Ok tt) -> cleaned banned file'.
Proof.
  unfold clean_rules_file, rewrite_rules_file. intros H.
  destruct file as [c|]; [|by simplify_eq]. destruct (first_read_fault f); [done|].
  destruct (str_eqb _ c) eqn:E1; [simplify_eq; by apply str_eqb_eq|].
  destruct reread as [c2|]; [|by simplify_eq]. destruct (reopen_fault f); [done|].
  destruct (second_read_fault f); [done|].
  destruct (str_eqb _ c2) eqn:E2; [simplify_eq; by apply str_eqb_eq|].
  destruct (rewind_fault f); [done|]. destruct (overwrite_fault f) as [[]|]; [done|].
  destruct (set_len_fault f) as [[]|]; [done|]. simplify_eq. apply strip_idem.
Qed.

Lemma migration_once f banned reread h h' r :
  prefix_rule_migration f banned reread h = (h', r) ->
  (r = Ok tt -> marker h' = true /\ (marker h = false -> cleaned banned (policy h')))
  /\ (r <> Ok tt -> marker h' = marker h).
Proof.
  unfold prefix_rule_migration. intros H. destruct (exists_fault f); [by simplify_eq|].
  destruct (marker h) eqn:Hm; [simplify_eq; by rewrite Hm|].
  destruct (clean_rules_file f banned (policy h) reread) as [file [[]|e]] eqn:Hc; [|by simplify_eq].
  destruct (marker_fault f); simplify_eq; [done|]. split; [|done]. split; [done|].
  intros _. by eapply clean_rules_file_cleaned.
Qed.

(** The clean-up removes exactly the banned lines. The lines that remain
    are the others, byte for byte and in order (their terminators included), and
    cleaning twice is cleaning once. The migration runs to the end once: under
    any I/O failures and a policy file that changes under it, success means that
    the marker is set and, the first time, no banned line is left; an error
    leaves the marker as it was, so the next start tries again; and with the
    marker set nothing is changed any more, not even rules saved later. *)
Theorem strip_banned_exact c banned :
  split_inclusive (strip_banned_allow_rules c banned)
    = List.filter (fun l => negb (banned_line banned l)) (split_inclusive c)
  /\ strip_banned_allow_rules (strip_banned_allow_rules c banned) banned
     = strip_banned_allow_rules c banned
  /\ (forall f reread h h' r, prefix_rule_migration f banned reread h = (h', r) ->
        (r = Ok tt -> marker h' = true /\ (marker h = false -> cleaned banned (policy h')))
        /\ (r <> Ok tt -> marker h' = marker h))
  /\ (forall f reread file, (prefix_rule_migration f banned reread (mkHome true file)).1 = mkHome true file).
Proof.
  split_and!; [apply strip_lines|apply strip_idem|intros; by eapply migration_once|].
  intros f reread file. unfold prefix_rule_migration. by destruct (exists_fault f).
Qed.

(** Saved allow rules as the clean-up reads them. *)
Lemma banned_line_allow_rule banned prefix tokens :
  nl ∉ allow_rule tokens -> from_str (pattern_text tokens) = Some prefix ->
  to_ascii_lowercase <$> prefix ∈ (fun p : list str => to_ascii_lowercase <$> p) <$> banned ->
  banned_line banned (allow_rule tokens ++ [nl]) = true.
Proof.
  intros Hnl Hj Hb. unfold banned_line, should_remove_rule. rewrite strip_suffix_app. cbn [from_option id].
  assert (strip_suffix [cr] (allow_rule tokens) = None) as ->.
  { apply strip_suffix_None. intros t Ht. apply (f_equal last) in Ht.
    unfold allow_rule in Ht. rewrite last_snoc, app_assoc, last_app in Ht. done. }
  cbn [from_option id]. unfold allow_rule. rewrite strip_prefix_app. cbn [mbind option_bind].
  rewrite strip_suffix_app, Hj. by apply bool_decide_eq_true.
Qed.

(** Saving an allow rule for a banned prefix and then cleaning leaves the
    file as cleaning alone would: the text that amend.rs writes is the text the
    clean-up recognises. (JSON reads back the list it printed and prints no
    line break.) *)
Theorem append_then_strip ae path prefix tokens banned c :
  serialize_all prefix = Some tokens -> prefix <> [] ->
  from_str (pattern_text tokens) = Some prefix ->
  Forall (fun t => nl ∉ t) tokens ->
  prefix ∈ banned -> Builder.path_parent path <> None ->
  (c = [] \/ exists k, c = k ++ [nl]) -> allow_rule tokens ∉ lines c ->
  exists c', blocking_append_allow_prefix_rule no_faults ae path prefix (Some c) = (Some c', Ok tt)
    /\ strip_banned_allow_rules c' banned = strip_banned_allow_rules c banned.
Proof.
  intros Hs Hne Hj Hnl Hb Hp Hc Hnew.
  assert (Hr : nl ∉ allow_rule tokens).
  { unfold allow_rule, pattern_text. rewrite !not_elem_of_app. split_and!; try (apply (bool_decide_unpack _); reflexivity).
    clear -Hnl. induction Hnl as [|t ts Ht _ IH]; [apply not_elem_of_nil|].
    destruct ts as [|u ts]; [done|]. cbn [join]. rewrite !not_elem_of_app. split_and!; [done| |done].
    apply (bool_decide_unpack _). reflexivity. }
  exists (c ++ allow_rule tokens ++ [nl]). split.
  - unfold blocking_append_allow_prefix_rule. destruct prefix; [done|]. rewrite Hs.
    unfold append_rule_line. destruct (Builder.path_parent path); [|done]. simpl.
    unfold append_locked_line. simpl.
    destruct (existsb _ _) eqn:Hex; [by apply existsb_lines in Hex|].
    assert (negb (is_empty c) && negb (ends_with [nl] c) = false) as ->; [|done].
    destruct Hc as [->|[k ->]]; [done|]. apply andb_false_iff. right. apply negb_false_iff.
    apply ends_with_spec. eauto.
  - rewrite !strip_eq.
    assert (split_inclusive (c ++ allow_rule tokens ++ [nl])
      = split_inclusive c ++ [allow_rule tokens ++ [nl]]) as ->.
    { pose proof (split_inclusive_line (allow_rule tokens) [] Hr) as H1.
      destruct Hc as [->|[k ->]]; [exact H1|]. rewrite split_inclusive_app. f_equal. exact H1. }
    rewrite List.filter_app, concat_app. cbn [List.filter].
    rewrite (banned_line_allow_rule banned prefix); [|done..|by apply (list_elem_of_fmap_2 _ _ prefix)].
    cbn [negb concat]. by rewrite app_nil_r.
Qed.

End Files.
End PolicyFiles.

(** ** Concrete files *)
Module BuildExamples.
Import Builder PolicyFiles PolicyExamples.

(** Words separated by single blanks, and quoting with double quotes only. *)
#[export] Instance simple_render : Render str := {
  shlex_split s := Some (List.filter (fun w => negb (is_empty w)) (split_on 32 s));
  shlex_try_join ws := Some (join (lit " ") ws);
  debug_rule r := program r;
  debug_match _ := [];
}.
Fixpoint read_strings (fuel : nat) (s : str) : option (list str) :=
  match fuel with
  | O => None
  | S fuel =>
      match split_once dquote s with
      | Some ([], s) =>
          '(w, s) ← split_once dquote s;
          match strip_prefix (lit ", ") s with
          | Some s => cons w <$> read_strings fuel s
          | None => if str_eqb s (lit "]") then Some [w] else None
          end
      | _ => None
      end
  end.
#[export] Instance simple_json : Json := {
  to_string s := if contains_char dquote s || contains_char nl s then None
                 else Some ([dquote] ++ s ++ [dquote]);
  from_str s := match strip_prefix (lit "[") s with
                | Some s => read_strings (length s) s
                | None => None
                end;
}.

Definition b0 : PolicyBuilder (AbsolutePath := str) := new_builder.

Definition git_call : Call :=
  PrefixRuleCall [VString (lit "git"); VList [VString (lit "push"); VString (lit "fetch")]]
    (Some (lit "prompt")) (Some [VString (lit "git push origin")]) (Some [VString (lit "git status")])
    None None.
Definition calls : list Call :=
  [git_call; NetworkRuleCall (lit "Example.com:443") (lit "https") (lit "deny") None;
   HostExecutableCall (lit "git") [VString (lit "/usr/bin/git"); VString (lit "/usr/bin/git")]].
Definition interpret (_ _ : str) : list Call * option Error := (calls, None).
Definition parsed : PolicyBuilder (AbsolutePath := str) * result Error unit := parse_policy interpret id [] [] b0.

Lemma reachable_policy_wf_witness : policy_wf (build parsed.1).
Proof.
  apply (reachable_policy_wf (build parsed.1)).
  apply (reach_parse b0 interpret id [] []). apply reach_empty.
Defined.

Definition git_built : PolicyBuilder (AbsolutePath := str) :=
  match run_call git_call b0 with Ok b => b | Err _ => b0 end.
Lemma prefix_rule_meaning_witness :
  exists toks d, parse_pattern [VString (lit "git"); VList [VString (lit "push"); VString (lit "fetch")]] = Ok toks
    /\ parse (lit "prompt") = Ok d
    /\ (forall r, stored (build git_built) r <-> stored (build b0) r \/ r ∈ rules_for toks d None)
    /\ Forall (fun r => decision r = d) (rules_for toks d None)
    /\ forall cmd, (exists r m, r ∈ rules_for toks d None /\ pattern_spec (pattern r) cmd m)
         <-> exists m, m `prefix_of` cmd /\ Forall2 (fun t c => c ∈ alternatives t) toks m.
Proof.
  apply (prefix_rule_meaning [VString (lit "git"); VList [VString (lit "push"); VString (lit "fetch")]]
    (Some (lit "prompt")) (Some [VString (lit "git push origin")]) (Some [VString (lit "git status")])
    None None b0 git_built).
  vm_compute. reflexivity.
Defined.

Lemma parse_policy_examples_witness :
  Ok (E := Error) tt = Ok tt <->
  (run_calls calls b0 = (parsed.1, Ok tt) /\ @None Error = None
   /\ Forall (examples_hold parsed.1) (drop 0 (b_pending parsed.1))).
Proof.
  apply (parse_policy_examples interpret id [] [] b0 parsed.1 (Ok tt)).
  vm_compute. reflexivity.
Defined.

Definition saved : str := allow_rule [[dquote] ++ lit "rm" ++ [dquote]].
Lemma append_rule_line_safe_witness :
  lit "x" `prefix_of` lit "x" ++ [nl] ++ saved ++ [nl]
  /\ (Ok (E := AmendError unit) tt = Ok tt ->
       saved ∈ lines (lit "x" ++ [nl] ++ saved ++ [nl])
       /\ lines (lit "x" ++ [nl] ++ saved ++ [nl])
          = lines (lit "x") ++ (if decide (saved ∈ lines (lit "x")) then [] else [saved])
       /\ forall f' : Faults (E := unit),
            default [] (append_rule_line f' (fun _ => false) (lit "/p") saved
              (Some (lit "x" ++ [nl] ++ saved ++ [nl]))).1 = lit "x" ++ [nl] ++ saved ++ [nl]).
Proof.
  apply (append_rule_line_safe (E := unit) no_faults (fun _ => false) (lit "/p") saved (Some (lit "x"))
    (Some (lit "x" ++ [nl] ++ saved ++ [nl])) (Ok tt)).
  - vm_compute. reflexivity.
  - split; [apply (bool_decide_unpack _); reflexivity|reflexivity].
  - discriminate.
Defined.

Lemma append_then_strip_witness :
  exists c', blocking_append_allow_prefix_rule (E := unit) no_faults (fun _ => false) (lit "/p")
      [lit "rm"] (Some (lit "x" ++ [nl])) = (Some c', Ok tt)
    /\ strip_banned_allow_rules c' [[lit "rm"]]
       = strip_banned_allow_rules (lit "x" ++ [nl]) [[lit "rm"]].
Proof.
  apply (append_then_strip (E := unit) (fun _ => false) (lit "/p") [lit "rm"]
    [[dquote] ++ lit "rm" ++ [dquote]] [[lit "rm"]] (lit "x" ++ [nl])).
  - reflexivity.
  - discriminate.
  - reflexivity.
  - repeat constructor. apply (bool_decide_unpack _). reflexivity.
  - left.
  - discriminate.
  - right. by exists (lit "x").
  - apply (bool_decide_unpack _). reflexivity.
Defined.

End BuildExamples.
