(* ===== verification/StreamText.v ===== *)
(** * StreamText: hiding inline tags in a text stream

    Models utils/stream-parser: the trait [StreamTextParser] (stream_text.rs),
    [InlineHiddenTagParser] (inline_hidden_tag.rs), the citation parser built on
    it (citation.rs) and the byte-level wrapper [Utf8StreamParser]
    (utf8_stream.rs). Strings are lists of chars, so the byte offsets of the
    code, which all lie on char boundaries, are char counts here. *)

From Stdlib Require Import ZifyBool.
From S2P Require Import Prelude RustStr.

(** ** The interface *)

Record StreamTextChunk (T : Type) := mkChunk { visible_text : str; extracted : list T }.
Arguments mkChunk {T}. Arguments visible_text {T}. Arguments extracted {T}.

Definition default_chunk {T} : StreamTextChunk T := mkChunk [] [].
Definition chunk_is_empty {T} (c : StreamTextChunk T) : bool :=
  is_empty (visible_text c) && is_empty (extracted c).
(** Appending what a later call produced. *)
Definition chunk_app {T} (a b : StreamTextChunk T) : StreamTextChunk T :=
  mkChunk (visible_text a ++ visible_text b) (extracted a ++ extracted b).

Lemma chunk_app_nil_l {T} (a : StreamTextChunk T) : chunk_app default_chunk a = a.
Proof. by destruct a. Qed.
Lemma chunk_app_nil_r {T} (a : StreamTextChunk T) : chunk_app a default_chunk = a.
Proof. destruct a. unfold chunk_app. simpl. by rewrite !app_nil_r. Qed.
Lemma chunk_app_assoc {T} (a b c : StreamTextChunk T) :
  chunk_app (chunk_app a b) c = chunk_app a (chunk_app b c).
Proof. unfold chunk_app. simpl. by rewrite !app_assoc. Qed.

Class StreamTextParser (P : Type) (T : Type) := {
  push_str : str -> P -> P * StreamTextChunk T;
  finish : P -> P * StreamTextChunk T;
}.

(** All chunks, then the end of the stream. *)
Fixpoint push_all `{StreamTextParser P T} (ds : list str) (p : P) : P * StreamTextChunk T :=
  match ds with
  | [] => (p, default_chunk)
  | d :: ds =>
      let '(p, out) := push_str d p in
      let '(p, rest) := push_all ds p in
      (p, chunk_app out rest)
  end.
Definition run_stream `{StreamTextParser P T} (ds : list str) (p : P) : StreamTextChunk T :=
  let '(p, out) := push_all ds p in chunk_app out (finish p).2.

(** What a parser promises its clients: the chunking of the stream is
    invisible. [reachable] are the states between two calls. *)
Class ChunkInvariant {P T} (parser : StreamTextParser P T) := {
  reachable : P -> Prop;
  denote : P -> str -> StreamTextChunk T;
  push_reachable d p : reachable p -> reachable (push_str d p).1;
  push_denote d p t :
    reachable p -> denote p (d ++ t) = chunk_app (push_str d p).2 (denote (push_str d p).1 t);
  finish_denote p : reachable p -> (finish p).2 = denote p [];
}.

Lemma run_stream_denote {P T} {parser : StreamTextParser P T} {laws : ChunkInvariant parser} ds p :
  reachable p -> run_stream ds p = denote p (concat ds).
Proof.
  unfold run_stream. revert p. induction ds as [|d ds IH]; intros p Hp; simpl.
  - rewrite chunk_app_nil_l. by apply finish_denote.
  - rewrite push_denote by done. pose proof (push_reachable d p Hp) as Hp'.
    destruct (push_str d p) as [p' out]. simpl in *. specialize (IH p' Hp').
    destruct (push_all ds p') as [p'' rest]. by rewrite chunk_app_assoc, IH.
Qed.

(** ** Inline tags *)
Module InlineTags.

Record ExtractedInlineTag (T : Type) := mkExtracted { tag : T; content : str }.
Arguments mkExtracted {T}. Arguments tag {T}. Arguments content {T}.
Record InlineTagSpec (T : Type) := mkSpec { spec_tag : T; open : str; close : str }.
Arguments mkSpec {T}. Arguments spec_tag {T}. Arguments open {T}. Arguments close {T}.
Record ActiveTag (T : Type) := mkActive { active_tag : T; active_close : str; active_content : str }.
Arguments mkActive {T}. Arguments active_tag {T}. Arguments active_close {T}.
Arguments active_content {T}.

Record InlineHiddenTagParser (T : Type) := mkParser {
  specs : list (InlineTagSpec T);
  pending : str;
  active : option (ActiveTag T);
}.
Arguments mkParser {T}. Arguments specs {T}. Arguments pending {T}. Arguments active {T}.

(** [longest_suffix_prefix_len]: the loop over [(1..=max).rev()]. *)
Fixpoint suffix_prefix_loop (k : nat) (s needle : str) : nat :=
  match k with
  | O => 0
  | S k' => if ends_with (take k needle) s then k else suffix_prefix_loop k' s needle
  end.
Definition longest_suffix_prefix_len (s needle : str) : nat :=
  suffix_prefix_loop (length s `min` (length needle - 1)) s needle.

Section Parser.
Context {T : Type}.

(** The constructor's assertions. *)
Definition new_parser (specs : list (InlineTagSpec T)) : outcome unit (InlineHiddenTagParser T) :=
  if is_empty specs || existsb (fun s => is_empty (open s) || is_empty (close s)) specs then Panic
  else Return (mkParser specs [] None).

(** [min_by] over (position, longer delimiter first, index). *)
Definition better (a b : nat * nat * nat) : bool :=
  let '(pos_a, len_a, idx_a) := a in
  let '(pos_b, len_b, idx_b) := b in
  (pos_a <? pos_b) || ((pos_a =? pos_b) && ((len_b <? len_a) || ((len_a =? len_b) && (idx_a <=? idx_b)))).
Definition find_next_open (specs : list (InlineTagSpec T)) (pending : str) : option (nat * nat) :=
  let candidates := omap (fun '(idx, spec) =>
      (fun pos => (pos, length (open spec), idx)) <$> find (open spec) pending)
    (enumerate specs) in
  match candidates with
  | [] => None
  | c :: cs =>
      let '(pos, _, idx) := foldl (fun a b => if better a b then a else b) c cs in Some (pos, idx)
  end.
Definition max_open_prefix_suffix_len (specs : list (InlineTagSpec T)) (pending : str) : nat :=
  max_list ((fun spec => longest_suffix_prefix_len pending (open spec)) <$> specs).

(** The loop of [push_str]: every turn that goes on consumes a delimiter, so
    the length of the text bounds the number of turns. *)
Fixpoint push_loop (fuel : nat) (specs : list (InlineTagSpec T)) (text : str)
    (act : option (ActiveTag T)) (out : StreamTextChunk (ExtractedInlineTag T))
    : option (str * option (ActiveTag T) * StreamTextChunk (ExtractedInlineTag T)) :=
  match fuel with
  | O => None
  | S fuel =>
      match act with
      | Some a =>
          match find (active_close a) text with
          | Some close_idx =>
              push_loop fuel specs (drop (close_idx + length (active_close a)) text) None
                (mkChunk (visible_text out) (extracted out
                   ++ [mkExtracted (active_tag a) (active_content a ++ take close_idx text)]))
          | None =>
              let keep := longest_suffix_prefix_len text (active_close a) in
              let n := length text - keep in
              Some (drop n text,
                    Some (mkActive (active_tag a) (active_close a) (active_content a ++ take n text)),
                    out)
          end
      | None =>
          match find_next_open specs text with
          | Some (open_idx, spec_idx) =>
              match specs !! spec_idx with
              | None => None
              | Some spec =>
                  push_loop fuel specs (drop (open_idx + length (open spec)) text)
                    (Some (mkActive (spec_tag spec) (close spec) []))
                    (mkChunk (visible_text out ++ take open_idx text) (extracted out))
              end
          | None =>
              let keep := max_open_prefix_suffix_len specs text in
              let n := length text - keep in
              Some (drop n text, None, mkChunk (visible_text out ++ take n text) (extracted out))
          end
      end
  end.

Definition inline_push_str (chunk : str) (p : InlineHiddenTagParser T)
    : InlineHiddenTagParser T * StreamTextChunk (ExtractedInlineTag T) :=
  let text := pending p ++ chunk in
  match push_loop (S (length text)) (specs p) text (active p) default_chunk with
  | Some (rest, act, out) => (mkParser (specs p) rest act, out)
  | None => (p, default_chunk)
  end.

Definition inline_finish (p : InlineHiddenTagParser T)
    : InlineHiddenTagParser T * StreamTextChunk (ExtractedInlineTag T) :=
  match active p with
  | Some a =>
      (mkParser (specs p) [] None,
       mkChunk [] [mkExtracted (active_tag a) (active_content a ++ pending p)])
  | None => (mkParser (specs p) [] None, mkChunk (pending p) [])
  end.

#[export] Instance inline_parser : StreamTextParser (InlineHiddenTagParser T) (ExtractedInlineTag T) := {
  push_str := inline_push_str;
  finish := inline_finish;
}.

End Parser.

(** *** The delimiter that may be starting at the end of the text *)

Lemma suffix_prefix_loop_spec K s n :
  let k := suffix_prefix_loop K s n in
  k <= K /\ forall j, k < j -> j <= K -> ends_with (take j n) s = false.
Proof.
  induction K as [|K [IH1 IH2]]; simpl; [split; [done|lia]|].
  destruct (ends_with (take (S K) n) s) eqn:E; [split; [done|lia]|].
  split; [lia|]. intros j Hj1 Hj2. destruct (decide (j = S K)) as [->|]; [done|]. apply IH2; lia.
Qed.

Lemma longest_spec s n :
  let k := longest_suffix_prefix_len s n in
  k <= length s /\ forall j, k < j -> j <= length s -> j < length n -> ends_with (take j n) s = false.
Proof.
  unfold longest_suffix_prefix_len.
  destruct (suffix_prefix_loop_spec (length s `min` (length n - 1)) s n) as [H1 H2].
  split; [lia|]. intros j Hj1 Hj2 Hj3. apply H2; lia.
Qed.

(** No occurrence can start in the text given out. *)
Lemma find_keep n s t :
  n <> [] -> find n s = None ->
  let m := length s - longest_suffix_prefix_len s n in
  find n (s ++ t) = (fun i => m + i) <$> find n (drop m s ++ t).
Proof.
  intros Hn Hnone m. destruct (longest_spec s n) as [Hk Hlong].
  assert (Hm : m <= length s) by lia.
  rewrite (find_skip n (s ++ t) m), drop_app_le; [done|done|rewrite length_app; lia|].
  intros j Hj Ho. rewrite find_None in Hnone.
  destruct (decide (j + length n <= length s)) as [Hin|Hout].
  { apply (Hnone j); [lia|]. by eapply occurs_app_inv. }
  assert (Hf : ends_with (take (length s - j) n) s = false) by (apply Hlong; lia).
  apply not_true_iff_false in Hf. apply Hf, ends_with_spec. exists (take j s).
  destruct Ho as [u Hu]. rewrite drop_app_le in Hu by lia.
  rewrite <- (take_drop j s) at 1. f_equal.
  apply (f_equal (take (length s - j))) in Hu.
  rewrite take_app_le in Hu by (rewrite length_drop; lia).
  rewrite take_ge in Hu by (rewrite length_drop; lia). rewrite Hu.
  rewrite take_app_le by lia. done.
Qed.

Lemma drop_past {A} m i (s t : list A) :
  m <= length s -> drop (m + i) (s ++ t) = drop i (drop m s ++ t).
Proof. intros Hm. by rewrite <- drop_app_le, drop_drop by done. Qed.
Lemma take_past {A} m i (s t : list A) :
  m <= length s -> take (m + i) (s ++ t) = take m s ++ take i (drop m s ++ t).
Proof.
  intros Hm. rewrite <- (take_drop m s) at 1. rewrite <- app_assoc.
  rewrite take_app, length_take, Nat.min_l by lia.
  rewrite (take_ge (take m s)) by (rewrite length_take; lia).
  f_equal. f_equal. lia.
Qed.

(** *** The meaning of a text with one kind of tag *)
Section OneTag.
Context {T : Type} (spec : InlineTagSpec T).
Hypothesis open_ne : open spec <> [].
Hypothesis close_ne : close spec <> [].

(** Outside a tag everything up to the next opening delimiter is visible;
    inside, everything up to the next closing delimiter is the content; a tag
    still open at the end is closed there. *)
Fixpoint scan_fuel (fuel : nat) (act : option str) (s : str)
    : StreamTextChunk (ExtractedInlineTag T) :=
  match fuel with
  | O => default_chunk
  | S fuel =>
      match act with
      | Some body =>
          match find (close spec) s with
          | Some i =>
              chunk_app (mkChunk [] [mkExtracted (spec_tag spec) (body ++ take i s)])
                (scan_fuel fuel None (drop (i + length (close spec)) s))
          | None => mkChunk [] [mkExtracted (spec_tag spec) (body ++ s)]
          end
      | None =>
          match find (open spec) s with
          | Some i =>
              chunk_app (mkChunk (take i s) [])
                (scan_fuel fuel (Some []) (drop (i + length (open spec)) s))
          | None => mkChunk s []
          end
      end
  end.
Definition scan (act : option str) (s : str) : StreamTextChunk (ExtractedInlineTag T) :=
  scan_fuel (S (length s)) act s.

Lemma find_drop_shorter n s i : n <> [] -> find n s = Some i -> length (drop (i + length n) s) < length s.
Proof.
  intros Hn (Hi & Ho & _)%find_Some. apply occurs_len in Ho; [|done]. rewrite length_drop.
  destruct n; simpl in *; [done|lia].
Qed.

Lemma scan_fuel_enough fuel fuel' act s :
  length s < fuel -> length s < fuel' -> scan_fuel fuel act s = scan_fuel fuel' act s.
Proof.
  revert fuel' act s. induction fuel as [|fuel IH]; intros [|fuel'] act s Hf Hf'; try lia.
  simpl. destruct act as [body|].
  - destruct (find (close spec) s) as [i|] eqn:E; [|done]. f_equal.
    apply find_drop_shorter in E; [|done]. apply IH; lia.
  - destruct (find (open spec) s) as [i|] eqn:E; [|done]. f_equal.
    apply find_drop_shorter in E; [|done]. apply IH; lia.
Qed.

Lemma scan_eq act s :
  scan act s =
  match act with
  | Some body =>
      match find (close spec) s with
      | Some i =>
          chunk_app (mkChunk [] [mkExtracted (spec_tag spec) (body ++ take i s)])
            (scan None (drop (i + length (close spec)) s))
      | None => mkChunk [] [mkExtracted (spec_tag spec) (body ++ s)]
      end
  | None =>
      match find (open spec) s with
      | Some i =>
          chunk_app (mkChunk (take i s) []) (scan (Some []) (drop (i + length (open spec)) s))
      | None => mkChunk s []
      end
  end.
Proof.
  unfold scan at 1. simpl. destruct act as [body|].
  - destruct (find (close spec) s) as [i|] eqn:E; [|done]. f_equal.
    apply find_drop_shorter in E; [|done]. apply scan_fuel_enough; lia.
  - destruct (find (open spec) s) as [i|] eqn:E; [|done]. f_equal.
    apply find_drop_shorter in E; [|done]. apply scan_fuel_enough; lia.
Qed.

(** Text given out before the part that is kept. *)
Lemma scan_inside_keep body s t :
  find (close spec) s = None ->
  let m := length s - longest_suffix_prefix_len s (close spec) in
  scan (Some body) (s ++ t) = scan (Some (body ++ take m s)) (drop m s ++ t).
Proof.
  intros Hnone m. rewrite (scan_eq (Some body)), (scan_eq (Some (body ++ take m s))).
  assert (Hm : m <= length s) by lia.
  rewrite (find_keep _ _ _ close_ne Hnone). fold m.
  destruct (find (close spec) (drop m s ++ t)) as [i|]; cbn [fmap option_fmap option_map].
  - f_equal.
    + f_equal. f_equal. f_equal. rewrite <- app_assoc. f_equal. by apply take_past.
    + f_equal. rewrite <- Nat.add_assoc. by apply drop_past.
  - f_equal. f_equal. f_equal. rewrite <- app_assoc. f_equal. by rewrite app_assoc, take_drop.
Qed.

Lemma scan_outside_keep s t :
  find (open spec) s = None ->
  let m := length s - longest_suffix_prefix_len s (open spec) in
  scan None (s ++ t) = chunk_app (mkChunk (take m s) []) (scan None (drop m s ++ t)).
Proof.
  intros Hnone m. rewrite (scan_eq None (s ++ t)), (scan_eq None (drop m s ++ t)).
  assert (Hm : m <= length s) by lia.
  rewrite (find_keep _ _ _ open_ne Hnone). fold m.
  destruct (find (open spec) (drop m s ++ t)) as [i|]; cbn [fmap option_fmap option_map].
  - rewrite <- chunk_app_assoc. f_equal.
    + unfold chunk_app. simpl. f_equal. by apply take_past.
    + f_equal. rewrite <- Nat.add_assoc. by apply drop_past.
  - unfold chunk_app. simpl. by rewrite app_assoc, take_drop.
Qed.

(** *** The parser computes it, whatever the chunks *)

Definition act_ok (a : option (ActiveTag T)) : Prop :=
  match a with
  | Some a => active_tag a = spec_tag spec /\ active_close a = close spec
  | None => True
  end.
(** Nothing is left in the buffer that a delimiter could be found in. *)
Definition settled (a : option (ActiveTag T)) (rest : str) : Prop :=
  match a with Some _ => find (close spec) rest = None | None => find (open spec) rest = None end.

Lemma find_next_open_one s :
  find_next_open [spec] s = (fun i => (i, 0)) <$> find (open spec) s.
Proof. unfold find_next_open, enumerate. csimpl. by destruct (find (open spec) s). Qed.
Lemma max_open_one s :
  max_open_prefix_suffix_len [spec] s = longest_suffix_prefix_len s (open spec).
Proof. unfold max_open_prefix_suffix_len. csimpl. lia. Qed.

Lemma find_split n s t i :
  n <> [] -> find n s = Some i ->
  take i (s ++ t) = take i s /\ drop (i + length n) (s ++ t) = drop (i + length n) s ++ t.
Proof.
  intros Hn (Hi & Ho & _)%find_Some. apply occurs_len in Ho; [|done].
  by rewrite take_app_le, drop_app_le by lia.
Qed.

Lemma push_loop_scan fuel text act out :
  length text < fuel -> act_ok act ->
  exists rest act' out', push_loop fuel [spec] text act out = Some (rest, act', out')
    /\ act_ok act' /\ settled act' rest
    /\ forall t, chunk_app out (scan (active_content <$> act) (text ++ t))
         = chunk_app out' (scan (active_content <$> act') (rest ++ t)).
Proof.
  revert text act out. induction fuel as [|fuel IH]; intros text act out Hf Hact; [lia|].
  simpl. destruct act as [a|].
  - destruct Hact as [Htag Hclose]. rewrite Hclose.
    destruct (find (close spec) text) as [i|] eqn:E.
    + pose proof (find_drop_shorter _ _ _ close_ne E) as Hlen.
      destruct (IH (drop (i + length (close spec)) text) None
        (mkChunk (visible_text out) (extracted out
           ++ [mkExtracted (active_tag a) (active_content a ++ take i text)])))
        as (rest & act' & out' & Hp & Ha & Hs & Ht); [lia|done|].
      exists rest, act', out'. split_and!; [done..|]. intros t. rewrite <- Ht. simpl.
      rewrite scan_eq, (find_app_l _ _ t _ close_ne E).
      destruct (find_split _ _ t _ close_ne E) as [-> ->].
      rewrite <- chunk_app_assoc. f_equal. unfold chunk_app. simpl. by rewrite app_nil_r, Htag.
    + eexists _, _, _. split; [done|]. split_and!; [done| |].
      * simpl. by apply find_drop_None.
      * intros t. simpl. f_equal. by apply scan_inside_keep.
  - rewrite find_next_open_one. destruct (find (open spec) text) as [i|] eqn:E; simpl.
    + pose proof (find_drop_shorter _ _ _ open_ne E) as Hlen.
      destruct (IH (drop (i + length (open spec)) text) (Some (mkActive (spec_tag spec) (close spec) []))
        (mkChunk (visible_text out ++ take i text) (extracted out)))
        as (rest & act' & out' & Hp & Ha & Hs & Ht); [lia|done|].
      exists rest, act', out'. split_and!; [done..|]. intros t. rewrite <- Ht. simpl.
      rewrite scan_eq, (find_app_l _ _ t _ open_ne E).
      destruct (find_split _ _ t _ open_ne E) as [-> ->].
      rewrite <- chunk_app_assoc. f_equal. unfold chunk_app. simpl. by rewrite app_nil_r.
    + rewrite max_open_one. eexists _, _, _. split; [done|]. split_and!; [done| |].
      * simpl. by apply find_drop_None.
      * intros t. simpl. rewrite scan_outside_keep by done. rewrite <- chunk_app_assoc. f_equal.
        unfold chunk_app. simpl. by rewrite app_nil_r.
Qed.

Definition inline_reachable (p : InlineHiddenTagParser T) : Prop :=
  specs p = [spec] /\ act_ok (active p) /\ settled (active p) (pending p).

Lemma inline_push d p :
  inline_reachable p ->
  inline_reachable (inline_push_str d p).1
  /\ forall t, scan (active_content <$> active p) ((pending p ++ d) ++ t)
       = chunk_app (inline_push_str d p).2
           (scan (active_content <$> active (inline_push_str d p).1)
              (pending (inline_push_str d p).1 ++ t)).
Proof.
  intros (Hs & Ha & _). unfold inline_push_str. rewrite Hs.
  destruct (push_loop_scan (S (length (pending p ++ d))) (pending p ++ d) (active p) default_chunk)
    as (rest & act' & out' & -> & Ha' & Hs' & Ht); [lia|done|].
  split; [done|]. intros t. rewrite <- Ht. by rewrite chunk_app_nil_l.
Qed.

#[export] Instance inline_chunk_invariant : ChunkInvariant (inline_parser (T := T)).
Proof.
  refine {| reachable := inline_reachable;
            denote := fun p t => scan (active_content <$> active p) (pending p ++ t) |}.
  - intros d p Hp. by apply inline_push.
  - intros d p t Hp. simpl. rewrite app_assoc. by apply inline_push.
  - intros p (Hs & Ha & Hset). simpl. unfold inline_finish. rewrite app_nil_r, scan_eq.
    destruct (active p) as [a|]; simpl in *; rewrite Hset; [|done].
    by destruct Ha as [-> _].
Defined.

(** Hiding a tag does not depend on how the stream is cut. Pushing any
    chunks one after the other and finishing gives, in total, the reference
    reading of the whole text: visible text outside the tags, the contents of
    the tags in order, and a tag left open closed at the end. *)
Theorem inline_stream_correct ds :
  run_stream ds (mkParser [spec] [] None) = scan None (concat ds).
Proof.
  rewrite (run_stream_denote (laws := inline_chunk_invariant)); [done|].
  split_and!; [done..|]. apply find_None. simpl. intros j Hj [t Ht]. rewrite drop_nil in Ht.
  by destruct (open spec).
Qed.

End OneTag.

Lemma inline_stream_correct_witness :
  run_stream [lit "a <"; lit "b>x</b"; lit "> c <b>y"] (mkParser [mkSpec tt (lit "<b>") (lit "</b>")] [] None)
  = mkChunk (lit "a  c ") [mkExtracted tt (lit "x"); mkExtracted tt (lit "y")].
Proof.
  apply (inline_stream_correct (mkSpec tt (lit "<b>") (lit "</b>")) ltac:(discriminate) ltac:(discriminate)
    [lit "a <"; lit "b>x</b"; lit "> c <b>y"]).
Defined.

End InlineTags.

(** ** Citations *)
Module Citations.
Import InlineTags.

Inductive CitationTag := Citation.
Definition CITATION_OPEN : str := lit "<oai-mem-citation>".
Definition CITATION_CLOSE : str := lit "</oai-mem-citation>".
Definition citation_spec : InlineTagSpec CitationTag := mkSpec Citation CITATION_OPEN CITATION_CLOSE.

Record CitationStreamParser := mkCitations { inner : InlineHiddenTagParser CitationTag }.
Definition new_citations : CitationStreamParser := mkCitations (mkParser [citation_spec] [] None).

Definition bodies (c : StreamTextChunk (ExtractedInlineTag CitationTag)) : StreamTextChunk str :=
  mkChunk (visible_text c) (content <$> extracted c).

#[export] Instance citation_parser : StreamTextParser CitationStreamParser str := {
  push_str chunk p := let '(q, out) := push_str chunk (inner p) in (mkCitations q, bodies out);
  finish p := let '(q, out) := finish (inner p) in (mkCitations q, bodies out);
}.

Definition strip_citations (text : str) : str * list str :=
  let '(p, out) := push_str text new_citations in
  let '(_, tail) := finish p in
  let out := chunk_app out tail in
  (visible_text out, extracted out).

Lemma bodies_app a b : bodies (chunk_app a b) = chunk_app (bodies a) (bodies b).
Proof. unfold bodies, chunk_app. simpl. by rewrite fmap_app. Qed.

Lemma citation_open_ne : open citation_spec <> [].
Proof. discriminate. Qed.
Lemma citation_close_ne : close citation_spec <> [].
Proof. discriminate. Qed.

Lemma citation_push d p :
  push_str d p = (mkCitations (push_str d (inner p)).1, bodies (push_str d (inner p)).2).
Proof. simpl. by destruct (inline_push_str d (inner p)). Qed.
Lemma citation_finish p :
  finish p = (mkCitations (finish (inner p)).1, bodies (finish (inner p)).2).
Proof. simpl. by destruct (inline_finish (inner p)). Qed.

(** The promise of the inner parser carries over. *)
#[export] Instance citation_chunk_invariant : ChunkInvariant citation_parser.
Proof.
  pose (laws := inline_chunk_invariant citation_spec citation_open_ne citation_close_ne).
  refine {| reachable := fun p => reachable (inner p);
            denote := fun p t => bodies (denote (inner p) t) |}.
  - intros d p Hp. rewrite citation_push. by apply (push_reachable d (inner p)).
  - intros d p t Hp. rewrite citation_push, (push_denote d (inner p) t Hp). apply bodies_app.
  - intros p Hp. rewrite citation_finish, <- (finish_denote (inner p) Hp). done.
Defined.

Lemma new_citations_reachable : reachable new_citations.
Proof. split_and!; done. Qed.

(** The reference reading of a text with citations. *)
Definition citations_of (text : str) : StreamTextChunk str :=
  bodies (scan citation_spec None text).

Lemma citation_stream ds : run_stream ds new_citations = citations_of (concat ds).
Proof. by rewrite (run_stream_denote ds _ new_citations_reachable). Qed.

Lemma strip_citations_eq text :
  strip_citations text = (visible_text (citations_of text), extracted (citations_of text)).
Proof.
  pose proof (citation_stream [text]) as H. unfold run_stream in H. cbn [concat push_all] in H.
  rewrite app_nil_r in H. unfold strip_citations. rewrite <- H.
  destruct (push_str text new_citations) as [p out]. cbv beta iota in H |- *.
  destruct (finish p) as [p' tail]. by rewrite chunk_app_nil_r.
Qed.

End Citations.

(** ** Byte streams *)
Module Utf8Stream.

Inductive Utf8StreamParserError :=
| InvalidUtf8 (valid_up_to error_len : N)
| IncompleteUtf8AtEof.

Section Wrapper.
Context {P T : Type} {parser : StreamTextParser P T}.

Record Utf8StreamParser := mkUtf8 { utf8_inner : P; pending_utf8 : list N }.
Definition new_utf8 (p : P) : Utf8StreamParser := mkUtf8 p [].

Definition push_bytes (chunk : list N) (u : Utf8StreamParser)
    : Utf8StreamParser * result Utf8StreamParserError (StreamTextChunk T) :=
  let bytes := pending_utf8 u ++ chunk in
  match from_utf8 bytes with
  | Ok text => let '(p, out) := push_str text (utf8_inner u) in (mkUtf8 p [], Ok out)
  | Err err =>
      match error_len err with
      | Some n => (u, Err (InvalidUtf8 (valid_up_to err) n))
      | None =>
          if (valid_up_to err =? 0)%N then (mkUtf8 (utf8_inner u) bytes, Ok default_chunk)
          else
            match from_utf8 (takeN (valid_up_to err) bytes) with
            | Ok text =>
                let '(p, out) := push_str text (utf8_inner u) in
                (mkUtf8 p (dropN (valid_up_to err) bytes), Ok out)
            | Err prefix_err =>
                (u, Err (InvalidUtf8 (valid_up_to prefix_err) (default 0%N (error_len prefix_err))))
            end
      end
  end.

(** The error of bytes that are no complete text. *)
Definition eof_error (err : Utf8Error) : Utf8StreamParserError :=
  match error_len err with
  | Some n => InvalidUtf8 (valid_up_to err) n
  | None => IncompleteUtf8AtEof
  end.

Definition utf8_finish (u : Utf8StreamParser)
    : Utf8StreamParser * result Utf8StreamParserError (StreamTextChunk T) :=
  let flush p out := let '(p, tail) := finish p in (mkUtf8 p [], Ok (chunk_app out tail)) in
  if is_empty (pending_utf8 u) then flush (utf8_inner u) default_chunk
  else
    match from_utf8 (pending_utf8 u) with
    | Err err => (u, Err (eof_error err))
    | Ok text => let '(p, out) := push_str text (utf8_inner u) in flush p out
    end.

Definition into_inner (u : Utf8StreamParser) : result Utf8StreamParserError P :=
  if is_empty (pending_utf8 u) then Ok (utf8_inner u)
  else match from_utf8 (pending_utf8 u) with
       | Ok _ => Ok (utf8_inner u)
       | Err err => Err (eof_error err)
       end.
Definition into_inner_lossy (u : Utf8StreamParser) : P := utf8_inner u.

Fixpoint push_all_bytes (bss : list (list N)) (u : Utf8StreamParser)
    : Utf8StreamParser * result Utf8StreamParserError (StreamTextChunk T) :=
  match bss with
  | [] => (u, Ok default_chunk)
  | bs :: bss =>
      let '(u, r) := push_bytes bs u in
      match r with
      | Err e => (u, Err e)
      | Ok out =>
          let '(u, r) := push_all_bytes bss u in (u, chunk_app out <$> r)
      end
  end.
Definition run_bytes (bss : list (list N)) (u : Utf8StreamParser)
    : result Utf8StreamParserError (StreamTextChunk T) :=
  let '(u, r) := push_all_bytes bss u in
  out ← r; chunk_app out <$> (utf8_finish u).2.

(** *** Facts *)

(** The buffer holds less than one char of what is still to come. *)
Definition awaits (pend : list N) (s : str) : Prop :=
  pend = [] \/ exists c s' rest, s = c :: s' /\ encode_char c = pend ++ rest /\ pend <> [] /\ rest <> [].

Lemma awaits_decode pend s :
  valid_str s -> awaits pend s ->
  decode pend = ([], if is_empty pend then Utf8Done else Utf8Bad None).
Proof.
  intros Hs [->|(c & s' & rest & -> & Hc & Hp & Hr)]; [done|].
  apply Forall_cons in Hs as [Hv _]. rewrite (decode_cut c pend rest) by done. by destruct pend.
Qed.

Lemma takeN_app_l {A} (l k : list A) : takeN (lenN l) (l ++ k) = l.
Proof. unfold takeN, lenN. by rewrite Nat2N.id, take_app_length. Qed.
Lemma dropN_app_l {A} (l k : list A) : dropN (lenN l) (l ++ k) = k.
Proof. unfold dropN, lenN. by rewrite Nat2N.id, drop_app_length. Qed.

(** One push of bytes that continue valid text: the chars they complete go to
    the inner parser, the rest stays in the buffer. *)
Lemma push_bytes_valid u bs s1 cut s2 :
  valid_str (s1 ++ s2) -> pending_utf8 u ++ bs = as_bytes s1 ++ cut -> awaits cut s2 ->
  push_bytes bs u =
  if is_empty s1 && negb (is_empty cut) then (mkUtf8 (utf8_inner u) cut, Ok default_chunk)
  else (mkUtf8 (push_str s1 (utf8_inner u)).1 cut, Ok (push_str s1 (utf8_inner u)).2).
Proof.
  intros [Hs1 Hs2]%Forall_app Hb Ha. unfold push_bytes. rewrite Hb.
  unfold from_utf8. rewrite decode_app, (awaits_decode cut s2) by done. simpl. rewrite app_nil_r.
  destruct cut as [|b cut]; simpl.
  - rewrite andb_false_r. by destruct (push_str s1 (utf8_inner u)).
  - rewrite andb_true_r. destruct s1 as [|c s1]; [done|].
    assert (blen (c :: s1) =? 0 = false)%N as ->.
    { apply N.eqb_neq. simpl. unfold len_utf8. repeat case_match; lia. }
    rewrite <- length_as_bytes, takeN_app_l, dropN_app_l.
    rewrite <- (app_nil_r (as_bytes (c :: s1))) at 1. rewrite decode_app by done. simpl.
    rewrite app_nil_r. by destruct (push_str (c :: s1) (utf8_inner u)).
Qed.

Context {laws : ChunkInvariant parser}.

Lemma denote_nil p s : reachable p ->
  denote p s = chunk_app (push_str [] p).2 (denote (push_str [] p).1 s).
Proof. intros Hp. apply (push_denote [] p s Hp). Qed.

Lemma run_bytes_valid bss u s :
  reachable (utf8_inner u) -> valid_str s -> awaits (pending_utf8 u) s ->
  pending_utf8 u ++ concat bss = as_bytes s ->
  run_bytes bss u = Ok (denote (utf8_inner u) s).
Proof.
  unfold run_bytes. revert u s. induction bss as [|bs bss IH]; intros u s Hr Hs Ha Hb.
  - simpl in *. rewrite app_nil_r in Hb.
    destruct Ha as [He|(c & s' & rest & -> & Hc & _ & Hrest)].
    + rewrite He in Hb. assert (s = []) as ->.
      { destruct s as [|c s]; [done|]. unfold as_bytes in Hb. csimpl in Hb.
        symmetry in Hb. apply app_nil in Hb as [Hb _]. by apply encode_char_ne in Hb. }
      unfold utf8_finish. rewrite He. simpl. pose proof (finish_denote _ Hr) as Hf.
      destruct (finish (utf8_inner u)) as [p tail]. simpl in *. by rewrite !chunk_app_nil_l, <- Hf.
    + exfalso. apply (f_equal length) in Hb. unfold as_bytes in Hb. csimpl in Hb.
      rewrite Hc, !length_app in Hb. destruct rest; [done|]. simpl in Hb. lia.
  - cbn [concat] in Hb. rewrite app_assoc in Hb. symmetry in Hb.
    destruct (as_bytes_prefix _ _ _ Hb) as (s1 & s2 & cut & -> & Hp & Hcut).
    assert (Ha2 : awaits cut s2).
    { destruct Hcut as [->|(c & s3 & rest & -> & Hc & Hrest)]; [by left|].
      destruct cut as [|b cut]; [by left|]. right. exists c, s3, rest. by split_and!. }
    pose proof (push_bytes_valid u bs s1 cut s2 Hs Hp Ha2) as Hpush.
    assert (Hrest : cut ++ concat bss = as_bytes s2).
    { rewrite Hp in Hb. unfold as_bytes in Hb. rewrite bind_app, <- app_assoc in Hb.
      by apply app_inv_head in Hb. }
    apply Forall_app in Hs as [Hs1 Hs2]. cbn [push_all_bytes].
    destruct (is_empty s1 && negb (is_empty cut)) eqn:E.
    + apply andb_true_iff in E as [E _]. destruct s1; [|done].
      rewrite Hpush. cbv beta iota.
      specialize (IH (mkUtf8 (utf8_inner u) cut) s2 Hr Hs2 Ha2 Hrest).
      destruct (push_all_bytes bss _) as [u' r]. revert IH. destruct r as [out|e]; [|done]. simpl.
      by rewrite chunk_app_nil_l.
    + rewrite Hpush. cbv beta iota.
      pose proof (push_reachable s1 _ Hr) as Hr'.
      specialize (IH (mkUtf8 (push_str s1 (utf8_inner u)).1 cut) s2 Hr' Hs2 Ha2 Hrest).
      rewrite (push_denote s1 _ s2 Hr). simpl utf8_inner in IH.
      destruct (push_all_bytes bss _) as [u' r]. destruct r as [out|e]; [|done]. simpl in *.
      destruct (utf8_finish u').2 as [tail|e]; simpl in *; [|done].
      injection IH as <-. by rewrite chunk_app_assoc.
Qed.

(** Bytes instead of text. If a byte stream is the UTF-8 encoding of a
    text, then cutting it anywhere, also inside characters, and pushing the
    pieces succeeds and gives what the wrapped parser gives for the text; and a
    push that fails leaves the parser exactly as it was. Proved for every inner
    parser that keeps the promise of chunk invariance. *)
Theorem utf8_stream_correct p s bss :
  reachable p -> valid_str s -> concat bss = as_bytes s ->
  run_bytes bss (new_utf8 p) = Ok (denote p s)
  /\ forall u chunk e, (push_bytes chunk u).2 = Err e -> (push_bytes chunk u).1 = u.
Proof.
  intros Hr Hs Hb. split.
  - apply (run_bytes_valid bss (new_utf8 p) s); [done|done|by left|done].
  - intros u chunk e. unfold push_bytes. destruct (from_utf8 _) as [text|err].
    + by destruct (push_str text _).
    + destruct (error_len err); [done|]. destruct (_ =? 0)%N; [done|].
      destruct (from_utf8 _) as [text|err']; [by destruct (push_str text _)|done].
Qed.

End Wrapper.

Import Citations.

(** The citation parser on bytes: the two bytes of U+00E9 in two pieces. *)
Lemma utf8_stream_correct_witness :
  run_bytes [[99; 97; 102; 195]; [169]; as_bytes (lit "<oai-mem-citation>x")]%N
    (new_utf8 new_citations)
  = Ok (mkChunk (lit "caf" ++ [233%N]) [lit "x"])
  /\ forall (u : Utf8StreamParser) chunk e,
       (push_bytes (parser := citation_parser) chunk u).2 = Err e -> (push_bytes chunk u).1 = u.
Proof.
  apply (utf8_stream_correct (laws := citation_chunk_invariant) new_citations
    (lit "caf" ++ [233%N] ++ lit "<oai-mem-citation>x")
    [[99; 97; 102; 195]; [169]; as_bytes (lit "<oai-mem-citation>x")]%N).
  - exact new_citations_reachable.
  - repeat constructor.
  - reflexivity.
Defined.

End Utf8Stream.
