(* ===== verification/TaggedLines.v ===== *)
(** * TaggedLines: tag blocks on lines of their own

    Models the rest of utils/stream-parser: [TaggedLineParser]
    (tagged_line_parser.rs), the proposed-plan parser (proposed_plan.rs) and the
    assistant text parser that runs the citation parser and the plan parser in
    sequence (assistant_text.rs). *)

From S2P Require Import Prelude RustStr StreamText.

Module Tagged.

Record TagSpec (T : Type) := mkTag { tag_open : str; tag_close : str; tag_of : T }.
Arguments mkTag {T}. Arguments tag_open {T}. Arguments tag_close {T}. Arguments tag_of {T}.

Inductive TaggedLineSegment (T : Type) :=
| Normal (s : str)
| TagStart (t : T)
| TagDelta (t : T) (s : str)
| TagEnd (t : T).
Arguments Normal {T}. Arguments TagStart {T}. Arguments TagDelta {T}. Arguments TagEnd {T}.

Section Parser.
Context {T : Type} {tag_eq : EqDecision T}.

Record TaggedLineParser := mkLineParser {
  tag_specs : list (TagSpec T);
  active_tag : option T;
  detect_tag : bool;
  line_buffer : str;
}.
Definition new_tagged (specs : list (TagSpec T)) : TaggedLineParser := mkLineParser specs None true [].

(** Text is merged into the last segment of its kind. *)
Definition push_segment (segs : list (TaggedLineSegment T)) (seg : TaggedLineSegment T)
    : list (TaggedLineSegment T) :=
  match seg with
  | Normal d =>
      if is_empty d then segs
      else match last segs with
           | Some (Normal e) => update_last (fun _ => Normal (e ++ d)) segs
           | _ => segs ++ [Normal d]
           end
  | TagDelta t d =>
      if is_empty d then segs
      else match last segs with
           | Some (TagDelta t' e) =>
               if decide (t' = t) then update_last (fun _ => TagDelta t' (e ++ d)) segs
               else segs ++ [TagDelta t d]
           | _ => segs ++ [TagDelta t d]
           end
  | TagStart t => segs ++ [TagStart t]
  | TagEnd t => segs ++ [TagEnd t]
  end.

(** The segment of plain text in the current block. *)
Definition text_segment (active : option T) (text : str) : TaggedLineSegment T :=
  match active with Some t => TagDelta t text | None => Normal text end.
Definition push_text (st : TaggedLineParser) (text : str) (segs : list (TaggedLineSegment T))
    : list (TaggedLineSegment T) :=
  push_segment segs (text_segment (active_tag st) text).

Definition is_tag_prefix (specs : list (TagSpec T)) (slug : str) : bool :=
  let slug := trim_end slug in
  existsb (fun spec => starts_with slug (tag_open spec) || starts_with slug (tag_close spec)) specs.
Definition match_open (specs : list (TagSpec T)) (slug : str) : option T :=
  tag_of <$> List.find (fun spec => str_eqb (tag_open spec) slug) specs.
Definition match_close (specs : list (TagSpec T)) (slug : str) : option T :=
  tag_of <$> List.find (fun spec => str_eqb (tag_close spec) slug) specs.

(** The slug of a line: without its newline and surrounding white space. *)
Definition slug_of (line : str) : str :=
  trim_end (trim_start (default line (strip_suffix [nl] line))).

(** What a complete line does: open a block, close it, or add text. *)
Definition line_effect (specs : list (TagSpec T)) (active : option T) (line : str)
    : option T * TaggedLineSegment T :=
  match match_open specs (slug_of line), active with
  | Some t, None => (Some t, TagStart t)
  | _, _ =>
      match match_close specs (slug_of line) with
      | Some t => if decide (active = Some t) then (None, TagEnd t)
                  else (active, text_segment active line)
      | None => (active, text_segment active line)
      end
  end.

Definition finish_line (st : TaggedLineParser) (segs : list (TaggedLineSegment T))
    : TaggedLineParser * list (TaggedLineSegment T) :=
  let '(active, seg) := line_effect (tag_specs st) (active_tag st) (line_buffer st) in
  (mkLineParser (tag_specs st) active true [], push_segment segs seg).

Fixpoint parse_loop (delta : str) (st : TaggedLineParser) (segs : list (TaggedLineSegment T))
    (run : str) : TaggedLineParser * list (TaggedLineSegment T) :=
  match delta with
  | [] => (st, if is_empty run then segs else push_text st run segs)
  | ch :: delta =>
      if detect_tag st then
        let segs := if is_empty run then segs else push_text st run segs in
        let buffer := line_buffer st ++ [ch] in
        if (ch =? nl)%N then
          let '(st, segs) :=
            finish_line (mkLineParser (tag_specs st) (active_tag st) true buffer) segs in
          parse_loop delta st segs []
        else
          let slug := trim_start buffer in
          if is_empty slug || is_tag_prefix (tag_specs st) slug
          then parse_loop delta (mkLineParser (tag_specs st) (active_tag st) true buffer) segs []
          else
            let st := mkLineParser (tag_specs st) (active_tag st) false [] in
            parse_loop delta st (push_text st buffer segs) []
      else
        let run := run ++ [ch] in
        if (ch =? nl)%N
        then parse_loop delta (mkLineParser (tag_specs st) (active_tag st) true (line_buffer st))
               (push_text st run segs) []
        else parse_loop delta st segs run
  end.
Definition parse (delta : str) (st : TaggedLineParser)
    : TaggedLineParser * list (TaggedLineSegment T) :=
  parse_loop delta st [] [].

Definition finish_tagged (st : TaggedLineParser) : TaggedLineParser * list (TaggedLineSegment T) :=
  let '(active, segs) :=
    if is_empty (line_buffer st) then (active_tag st, [])
    else let '(active, seg) := line_effect (tag_specs st) (active_tag st) (line_buffer st) in
         (active, push_segment [] seg) in
  (mkLineParser (tag_specs st) None true [],
   match active with Some t => push_segment segs (TagEnd t) | None => segs end).

(** ** Merging adjacent text *)

Definition norm (l : list (TaggedLineSegment T)) : list (TaggedLineSegment T) :=
  foldl push_segment [] l.

(** Whether text of the block [a] would be merged into [z]. *)
Definition merged (a : option T) (z : TaggedLineSegment T) : option str :=
  match a, z with
  | None, Normal e => Some e
  | Some t, TagDelta t' e => if decide (t' = t) then Some e else None
  | _, _ => None
  end.

Lemma merged_text a x : merged a (text_segment a x) = Some x.
Proof. destruct a; simpl; [by rewrite decide_True|done]. Qed.

Lemma push_text_snoc a acc z x :
  x <> [] ->
  push_segment (acc ++ [z]) (text_segment a x) =
  match merged a z with
  | Some e => acc ++ [text_segment a (e ++ x)]
  | None => (acc ++ [z]) ++ [text_segment a x]
  end.
Proof.
  intros Hx. destruct x as [|c x]; [done|]. destruct a as [t|]; simpl; rewrite last_snoc.
  - destruct z as [| |t' e|]; try done. destruct (decide (t' = t)) as [->|]; [|done].
    by rewrite update_last_snoc.
  - destruct z; try done. by rewrite update_last_snoc.
Qed.
Lemma push_text_nil a x : x <> [] -> push_segment [] (text_segment a x) = [text_segment a x].
Proof. intros Hx. destruct x; [done|]. by destruct a. Qed.
Lemma push_text_empty a acc : push_segment acc (text_segment a []) = acc.
Proof. by destruct a. Qed.

Lemma push_merge a acc x y :
  push_segment (push_segment acc (text_segment a x)) (text_segment a y)
  = push_segment acc (text_segment a (x ++ y)).
Proof.
  destruct (decide (x = [])) as [->|Hx]; [by rewrite push_text_empty|].
  destruct (decide (y = [])) as [->|Hy]; [by rewrite push_text_empty, app_nil_r|].
  assert (Hxy : x ++ y <> []) by (by destruct x).
  destruct acc as [|z acc _] using rev_ind.
  - rewrite !push_text_nil by done. pose proof (push_text_snoc a [] (text_segment a x) y Hy) as H.
    by rewrite merged_text in H.
  - rewrite !push_text_snoc by done.
    destruct (merged a z); rewrite push_text_snoc, merged_text by done; by rewrite <- ?app_assoc.
Qed.

(** Pushing an already merged list is pushing the raw one. *)
Lemma push_segment_seg acc x l :
  push_segment l x = l ++ [x] \/ (exists a d, x = text_segment a d /\ d = [])
  \/ (exists a d l' e, x = text_segment a d /\ l = l' ++ [text_segment a e]) ->
  foldl push_segment acc (push_segment l x) = push_segment (foldl push_segment acc l) x.
Proof.
  intros [->|[(a & d & -> & ->)|(a & d & l' & e & -> & ->)]].
  - by rewrite foldl_snoc.
  - by rewrite !push_text_empty.
  - destruct (decide (d = [])) as [->|Hd]; [by rewrite !push_text_empty|].
    rewrite push_text_snoc, merged_text, !foldl_snoc by done. by rewrite push_merge.
Qed.

Lemma push_segment_cases (x : TaggedLineSegment T) l :
  push_segment l x = l ++ [x] \/ (exists a d, x = text_segment a d /\ d = [])
  \/ (exists a d l' e, x = text_segment a d /\ l = l' ++ [text_segment a e]).
Proof.
  assert (H : forall a d, push_segment l (text_segment a d) = l ++ [text_segment a d]
    \/ d = [] \/ exists l' e, l = l' ++ [text_segment a e]).
  { intros a d. destruct (decide (d = [])) as [->|Hd]; [auto|].
    destruct l as [|z l _] using rev_ind; [left; by apply push_text_nil|].
    rewrite push_text_snoc by done. destruct (merged a z) as [e|] eqn:Hm; [|auto].
    right. right. exists l, e. destruct a, z; simplify_eq/=; try done. by case_decide; simplify_eq. }
  destruct x as [d|t|t d|t]; [destruct (H None d) as [?|[?|(l' & e & ?)]]|auto
    |destruct (H (Some t) d) as [?|[?|(l' & e & ?)]]|auto]; auto.
  - right. left. by exists None, d.
  - right. right. by exists None, d, l', e.
  - right. left. by exists (Some t), d.
  - right. right. by exists (Some t), d, l', e.
Qed.

Lemma foldl_push_norm acc l : foldl push_segment acc (norm l) = foldl push_segment acc l.
Proof.
  unfold norm. induction l as [|x l IH] using rev_ind; [done|].
  rewrite !foldl_snoc, push_segment_seg by apply push_segment_cases. by rewrite IH.
Qed.

Lemma norm_app_norm l k : norm (norm l ++ norm k) = norm (l ++ k).
Proof. unfold norm at 1 4. rewrite !foldl_app. fold (norm l). by rewrite !foldl_push_norm. Qed.

(** ** One character at a time *)

(** What a single character emits, before merging. *)
Definition emit_char (st : TaggedLineParser) (ch : char) : TaggedLineParser * list (TaggedLineSegment T) :=
  let specs := tag_specs st in
  let a := active_tag st in
  if detect_tag st then
    let buffer := line_buffer st ++ [ch] in
    if (ch =? nl)%N then
      let '(active, seg) := line_effect specs a buffer in (mkLineParser specs active true [], [seg])
    else if is_empty (trim_start buffer) || is_tag_prefix specs (trim_start buffer)
    then (mkLineParser specs a true buffer, [])
    else (mkLineParser specs a false [], [text_segment a buffer])
  else (mkLineParser specs a (ch =? nl)%N (line_buffer st), [text_segment a [ch]]).

Fixpoint emits (d : str) (st : TaggedLineParser) : TaggedLineParser * list (TaggedLineSegment T) :=
  match d with
  | [] => (st, [])
  | ch :: d =>
      let '(st, e) := emit_char st ch in
      let '(st, es) := emits d st in
      (st, e ++ es)
  end.

Lemma emits_app d e st :
  emits (d ++ e) st = ((emits e (emits d st).1).1, (emits d st).2 ++ (emits e (emits d st).1).2).
Proof.
  revert st. induction d as [|c d IH]; intros st; simpl; [by destruct (emits e st)|].
  destruct (emit_char st c) as [st1 e1]. rewrite IH. destruct (emits d st1) as [st2 e2]. simpl.
  by rewrite app_assoc.
Qed.

Lemma emit_char_eta (st : TaggedLineParser) :
  mkLineParser (tag_specs st) (active_tag st) (detect_tag st) (line_buffer st) = st.
Proof. by destruct st. Qed.

(** The buffering of runs is invisible after merging. *)
Lemma parse_loop_emits d st segs run :
  parse_loop d st segs run
  = ((emits d st).1, foldl push_segment (push_text st run segs) (emits d st).2).
Proof.
  assert (Hrun : forall st segs run, (if is_empty run then segs else push_text st run segs)
    = push_text st run segs).
  { intros ? ? [|]; [|done]. unfold push_text. by rewrite push_text_empty. }
  assert (H0 : forall st segs, push_text st [] segs = segs).
  { intros. apply push_text_empty. }
  revert st segs run. induction d as [|c d IH]; intros st segs run; simpl; [by rewrite Hrun|].
  unfold emit_char. rewrite Hrun. destruct (detect_tag st) eqn:Hd.
  - destruct (c =? nl)%N.
    + unfold finish_line. simpl. destruct (line_effect _ _ _) as [a seg]. rewrite IH.
      destruct (emits d _) as [st' es]. simpl. by rewrite H0.
    + destruct (_ || _).
      * rewrite IH. destruct (emits d _) as [st' es]. simpl. by rewrite H0.
      * rewrite IH. destruct (emits d _) as [st' es]. simpl. by rewrite H0.
  - assert (Hm : push_text st (run ++ [c]) segs
      = push_segment (push_text st run segs) (text_segment (active_tag st) [c])).
    { unfold push_text. by rewrite push_merge. }
    destruct (c =? nl)%N.
    + rewrite IH. destruct (emits d _) as [st' es]. simpl. by rewrite H0, Hm.
    + rewrite IH, <- Hd, emit_char_eta. destruct (emits d st) as [st' es]. simpl. by rewrite Hm.
Qed.

Lemma parse_emits d st : parse d st = ((emits d st).1, norm (emits d st).2).
Proof. unfold parse. rewrite parse_loop_emits. unfold push_text. by rewrite push_text_empty. Qed.

(** ** Line by line *)

Fixpoint line_effects (specs : list (TagSpec T)) (active : option T) (ls : list str)
    : option T * list (TaggedLineSegment T) :=
  match ls with
  | [] => (active, [])
  | l :: ls =>
      let '(active, seg) := line_effect specs active l in
      let '(active, segs) := line_effects specs active ls in
      (active, seg :: segs)
  end.
Definition closing (active : option T) : list (TaggedLineSegment T) :=
  match active with Some t => [TagEnd t] | None => [] end.

(** The reference: each line on its own, an open block closed at the end. *)
Definition tagged_reference (specs : list (TagSpec T)) (text : str) : list (TaggedLineSegment T) :=
  let '(active, segs) := line_effects specs None (split_inclusive text) in segs ++ closing active.

(** Some prefix of the line already shows that it is no tag. *)
Definition disproved (specs : list (TagSpec T)) (k : str) : Prop :=
  exists p, p `prefix_of` k /\ trim_start p <> [] /\ is_tag_prefix specs (trim_start p) = false.

Lemma trim_start_app p q : trim_start p <> [] -> trim_start (p ++ q) = trim_start p ++ q.
Proof.
  unfold trim_start. induction p as [|c p IH]; simpl; [done|]. by destruct (is_whitespace c).
Qed.
Lemma trim_end_prefix s : trim_end s `prefix_of` s.
Proof.
  unfold trim_end, trim_end_matches. destruct (trim_start_matches_suffix is_whitespace (reverse s)) as [t Ht].
  exists (reverse t). rewrite <- reverse_app, <- Ht. by rewrite reverse_involutive.
Qed.
Lemma trim_end_app_prefix u q : trim_end u `prefix_of` trim_end (u ++ q).
Proof.
  destruct (trim_end q) as [|c w] eqn:E.
  - assert (trim_end (u ++ q) = trim_end u) as ->; [|done].
    clear -E. induction u as [|d u IH]; simpl; [done|]. by rewrite !trim_end_cons, IH.
  - rewrite (trim_end_app_nonspace u q c w E). apply prefix_app_r, trim_end_prefix.
Qed.

Lemma disproved_slug specs k q :
  disproved specs k ->
  match_open specs (trim_end (trim_start (k ++ q))) = None
  /\ match_close specs (trim_end (trim_start (k ++ q))) = None.
Proof.
  intros (p & [k' ->] & Hp & Hno). rewrite <- app_assoc, trim_start_app by done.
  set (rest := k' ++ q). pose proof (trim_end_app_prefix (trim_start p) rest) as [w Hw].
  rewrite Hw. unfold is_tag_prefix in Hno. apply not_true_iff_false in Hno.
  unfold match_open, match_close. split.
  - destruct (List.find _ specs) as [spec|] eqn:E; [|done]. exfalso. apply Hno.
    apply List.find_some in E as [Hin He]. apply str_eqb_eq in He. apply existsb_exists.
    exists spec. split; [done|]. rewrite orb_true_iff. left. apply starts_with_spec. eauto.
  - destruct (List.find _ specs) as [spec|] eqn:E; [|done]. exfalso. apply Hno.
    apply List.find_some in E as [Hin He]. apply str_eqb_eq in He. apply existsb_exists.
    exists spec. split; [done|]. rewrite orb_true_iff. right. apply starts_with_spec. eauto.
Qed.

Lemma slug_of_line k : nl ∉ k -> slug_of (k ++ [nl]) = trim_end (trim_start k) /\ slug_of k = trim_end (trim_start k).
Proof.
  intros Hk. unfold slug_of. rewrite strip_suffix_app. split; [done|].
  destruct (strip_suffix [nl] k) as [t|] eqn:E; [|done]. apply strip_suffix_Some in E as ->.
  exfalso. apply Hk, elem_of_app. right. left.
Qed.

(** A disproved line is text. *)
Lemma disproved_effect specs a k :
  nl ∉ k -> disproved specs k ->
  line_effect specs a (k ++ [nl]) = (a, text_segment a (k ++ [nl]))
  /\ line_effect specs a k = (a, text_segment a k).
Proof.
  intros Hk Hd. destruct (slug_of_line k Hk) as [H1 H2].
  destruct (disproved_slug specs k [] Hd) as [Ho Hc]. rewrite app_nil_r in Ho, Hc.
  unfold line_effect. by rewrite H1, H2, Ho, Hc.
Qed.

(** After part of a line: all of it buffered, or all of it given out as text. *)
Definition mid_line (specs : list (TagSpec T)) (a : option T) (k : str)
    (r : TaggedLineParser * list (TaggedLineSegment T)) : Prop :=
  r = (mkLineParser specs a true k, [])
  \/ r.1 = mkLineParser specs a false [] /\ disproved specs k
     /\ forall acc, foldl push_segment acc r.2 = push_segment acc (text_segment a k).

Lemma emits_mid_line specs a k :
  nl ∉ k -> mid_line specs a k (emits k (mkLineParser specs a true [])).
Proof.
  induction k as [|c k IH] using rev_ind; intros Hk; [by left|].
  apply not_elem_of_app in Hk as [Hk Hc]. rewrite list_elem_of_singleton in Hc.
  rewrite emits_app. assert (Hcn : (c =? nl)%N = false) by (apply N.eqb_neq; congruence).
  destruct (IH Hk) as [->|(Hst & Hd & Hacc)].
  - simpl. unfold emit_char. simpl. rewrite Hcn.
    destruct (_ || _) eqn:E; [by left|]. right. apply orb_false_iff in E as [E1 E2]. simpl.
    split_and!; [done| |done]. exists (k ++ [c]). split_and!; [done| |done]. by destruct (trim_start _).
  - right. rewrite Hst. simpl. rewrite Hcn. split_and!; [done| |].
    + destruct Hd as (p & Hp & ?). exists p. split; [|done]. by apply prefix_app_r.
    + intros acc. rewrite foldl_app, Hacc. simpl. by rewrite push_merge.
Qed.

(** A whole line, from one line start to the next. *)
Lemma emits_line specs a k :
  nl ∉ k ->
  let r := emits (k ++ [nl]) (mkLineParser specs a true []) in
  r.1 = mkLineParser specs (line_effect specs a (k ++ [nl])).1 true []
  /\ forall acc, foldl push_segment acc r.2 = push_segment acc (line_effect specs a (k ++ [nl])).2.
Proof.
  intros Hk. rewrite emits_app. destruct (emits_mid_line specs a k Hk) as [->|(Hst & Hd & Hacc)].
  - cbn [emits fst snd]. unfold emit_char. simpl. rewrite ?N.eqb_refl. by destruct (line_effect specs a (k ++ [nl])) as [a' seg].
  - rewrite Hst. destruct (disproved_effect specs a k Hk Hd) as [-> _]. simpl. split; [done|].
    intros acc. rewrite foldl_app, Hacc. simpl. by rewrite push_merge.
Qed.

(** The whole text: complete lines, then perhaps an unterminated one. *)
Lemma emits_text specs a init tail acc :
  Forall terminated init -> (tail = [] \/ exists l, tail = [l] /\ l <> [] /\ nl ∉ l) ->
  let r := emits (concat (init ++ tail)) (mkLineParser specs a true []) in
  foldl push_segment acc (r.2 ++ (finish_tagged r.1).2)
  = foldl push_segment acc ((line_effects specs a (init ++ tail)).2
                            ++ closing (line_effects specs a (init ++ tail)).1).
Proof.
  intros Hi Ht. revert a acc. induction Hi as [|l init (k & -> & Hk) _ IH]; intros a acc; simpl.
  - destruct Ht as [->|(l & -> & Hl & Hn)]; simpl; [by destruct a|]. rewrite app_nil_r.
    destruct (emits_mid_line specs a l Hn) as [->|(Hst & Hd & Hacc)].
    + simpl. unfold finish_tagged. simpl. destruct (is_empty l) eqn:E; [by destruct l|].
      destruct (line_effect specs a l) as [a' seg]. simpl.
      assert (Hseg : push_segment acc seg = foldl push_segment acc (push_segment [] seg)).
      { rewrite push_segment_seg by apply push_segment_cases. done. }
      destruct a' as [t|]; simpl; [by rewrite foldl_snoc, Hseg|by rewrite Hseg].
    + rewrite Hst, foldl_app, Hacc. destruct (disproved_effect specs a l Hn Hd) as [_ ->].
      simpl. by destruct a.
  - rewrite emits_app. destruct (emits_line specs a k Hk) as [Hst Hacc]. rewrite Hst. simpl.
    destruct (line_effect specs a (k ++ [nl])) as [a' seg] eqn:E. simpl in *.
    specialize (IH a' (push_segment acc seg)).
    destruct (line_effects specs a' (init ++ tail)) as [a'' segs]. simpl in *.
    rewrite <- app_assoc, foldl_app, Hacc. exact IH.
Qed.

(** All the chunks, then the end. *)
Fixpoint parse_all (ds : list str) (st : TaggedLineParser)
    : TaggedLineParser * list (TaggedLineSegment T) :=
  match ds with
  | [] => (st, [])
  | d :: ds =>
      let '(st, segs) := parse d st in
      let '(st, rest) := parse_all ds st in
      (st, segs ++ rest)
  end.

Lemma parse_all_emits ds st :
  (parse_all ds st).1 = (emits (concat ds) st).1
  /\ norm (parse_all ds st).2 = norm (emits (concat ds) st).2.
Proof.
  revert st. induction ds as [|d ds IH]; intros st; simpl; [done|].
  rewrite parse_emits, emits_app. destruct (IH (emits d st).1) as [H1 H2].
  destruct (parse_all ds _) as [st' rest]. simpl in *. split; [done|].
  rewrite <- norm_app_norm, H2, norm_app_norm, <- (norm_app_norm (norm _)).
  unfold norm at 2 3. by rewrite foldl_push_norm, norm_app_norm.
Qed.

Lemma tagged_stream specs ds :
  let r := parse_all ds (new_tagged specs) in
  norm (r.2 ++ (finish_tagged r.1).2) = norm (tagged_reference specs (concat ds)).
Proof.
  destruct (parse_all_emits ds (new_tagged specs)) as [H1 H2]. simpl. rewrite H1.
  rewrite <- norm_app_norm, H2, norm_app_norm.
  destruct (split_inclusive_pieces (concat ds)) as (init & tail & E & Hi & Ht).
  pose proof (emits_text specs None init tail [] Hi Ht) as H. simpl in H.
  rewrite <- E, split_inclusive_concat in H. unfold norm at 1. unfold new_tagged in *. rewrite H.
  unfold norm, tagged_reference. by destruct (line_effects specs None (split_inclusive (concat ds))).
Qed.

(** Recognising tag lines in a stream is recognising them line by line.
    For any tags and any cutting of the text into chunks, the segments the
    parser gives out, adjacent text merged, are those of the reference that
    looks at each complete line: a line that is an opening tag outside a block
    starts one, the matching closing tag ends it, every other line is text of
    the current block, and a block still open at the end is closed. *)
Theorem tagged_stream_correct specs ds :
  let r := parse_all ds (new_tagged specs) in
  norm (r.2 ++ (finish_tagged r.1).2) = norm (tagged_reference specs (concat ds)).
Proof. apply tagged_stream. Qed.

End Parser.
Arguments TaggedLineParser : clear implicits.
End Tagged.

(** ** Proposed plans *)
Module Plans.
Import Tagged.

Definition OPEN_TAG : str := lit "<proposed_plan>".
Definition CLOSE_TAG : str := lit "</proposed_plan>".

Inductive PlanTag := ProposedPlan.
#[export] Instance PlanTag_eq : EqDecision PlanTag.
Proof. solve_decision. Defined.

Inductive ProposedPlanSegment :=
| PlanNormal (s : str)
| ProposedPlanStart
| ProposedPlanDelta (s : str)
| ProposedPlanEnd.

Definition plan_specs : list (TagSpec PlanTag) := [mkTag OPEN_TAG CLOSE_TAG ProposedPlan].
Record ProposedPlanParser := mkPlan { plan_parser : TaggedLineParser PlanTag }.
Definition new_plan : ProposedPlanParser := mkPlan (new_tagged plan_specs).

Definition map_segment (seg : TaggedLineSegment PlanTag) : ProposedPlanSegment :=
  match seg with
  | Normal text => PlanNormal text
  | TagStart ProposedPlan => ProposedPlanStart
  | TagDelta ProposedPlan text => ProposedPlanDelta text
  | TagEnd ProposedPlan => ProposedPlanEnd
  end.
Definition normal_text (seg : ProposedPlanSegment) : str :=
  match seg with PlanNormal text => text | _ => [] end.
Definition map_segments (segments : list (TaggedLineSegment PlanTag))
    : StreamTextChunk ProposedPlanSegment :=
  let mapped := map_segment <$> segments in mkChunk (mapped ≫= normal_text) mapped.

#[export] Instance plan_stream : StreamTextParser ProposedPlanParser ProposedPlanSegment := {
  push_str chunk p := let '(q, segs) := parse chunk (plan_parser p) in (mkPlan q, map_segments segs);
  finish p := let '(q, segs) := finish_tagged (plan_parser p) in (mkPlan q, map_segments segs);
}.

Definition strip_proposed_plan_blocks (text : str) : str :=
  let '(p, out) := push_str text new_plan in visible_text out ++ visible_text (finish p).2.

Fixpoint last_plan (segs : list ProposedPlanSegment) (saw : bool) (plan_text : str) : option str :=
  match segs with
  | [] => if saw then Some plan_text else None
  | ProposedPlanStart :: segs => last_plan segs true []
  | ProposedPlanDelta d :: segs => last_plan segs saw (plan_text ++ d)
  | _ :: segs => last_plan segs saw plan_text
  end.
Definition extract_proposed_plan_text (text : str) : option str :=
  let '(p, out) := push_str text new_plan in
  last_plan (extracted out ++ extracted (finish p).2) false [].

(** Segments up to the merging of adjacent text. *)
Definition same_segments (a b : list ProposedPlanSegment) : Prop :=
  exists x y, a = map_segment <$> x /\ b = map_segment <$> y /\ norm x = norm y.

(** The reference reading of a text with plan blocks. *)
Definition plan_reference (text : str) : list ProposedPlanSegment :=
  map_segment <$> tagged_reference plan_specs text.

(** *** Visible text and plan text do not depend on the merging *)

Lemma text_of_push (f : ProposedPlanSegment -> str) acc seg :
  (forall x y, f (PlanNormal (x ++ y)) = f (PlanNormal x) ++ f (PlanNormal y)) ->
  (forall x y, f (ProposedPlanDelta (x ++ y)) = f (ProposedPlanDelta x) ++ f (ProposedPlanDelta y)) ->
  f (PlanNormal []) = [] -> f (ProposedPlanDelta []) = [] ->
  (map_segment <$> push_segment acc seg) ≫= f = ((map_segment <$> acc) ≫= f) ++ f (map_segment seg).
Proof.
  intros Hn Hd Hn0 Hd0.
  assert (Happ : forall l x, (map_segment <$> (l ++ [x])) ≫= f = ((map_segment <$> l) ≫= f) ++ f (map_segment x)).
  { intros l x. rewrite fmap_app, bind_app. csimpl. by rewrite app_nil_r. }
  destruct (push_segment_cases seg acc) as [->|[(a & d & -> & ->)|(a & d & l & e & -> & ->)]].
  - apply Happ.
  - rewrite push_text_empty. destruct a as [[]|]; simpl; rewrite ?Hn0, ?Hd0; by rewrite app_nil_r.
  - destruct (decide (d = [])) as [->|Hne].
    { rewrite push_text_empty. destruct a as [[]|]; simpl; rewrite ?Hn0, ?Hd0; by rewrite app_nil_r. }
    rewrite push_text_snoc, merged_text, !Happ, <- app_assoc by done. f_equal.
    destruct a as [[]|]; simpl; auto.
Qed.

Lemma normal_text_norm l : (map_segment <$> norm l) ≫= normal_text = (map_segment <$> l) ≫= normal_text.
Proof.
  unfold norm. induction l as [|x l IH] using rev_ind; [done|].
  rewrite foldl_snoc, text_of_push, IH by done. rewrite fmap_app, bind_app. csimpl. by rewrite app_nil_r.
Qed.

Lemma normal_text_same a b : same_segments a b -> a ≫= normal_text = b ≫= normal_text.
Proof.
  intros (x & y & -> & -> & H). by rewrite <- normal_text_norm, H, normal_text_norm.
Qed.

(** What a sequence of pushes and the final flush give out. *)
Lemma push_all_plan ds p :
  push_all ds p = (mkPlan (parse_all ds (plan_parser p)).1, map_segments (parse_all ds (plan_parser p)).2).
Proof.
  revert p. induction ds as [|d ds IH]; intros p; simpl; [by destruct p|].
  destruct (parse d (plan_parser p)) as [q segs]. rewrite IH. simpl.
  destruct (parse_all ds q) as [q' rest]. simpl. f_equal.
  unfold chunk_app, map_segments. simpl. by rewrite fmap_app, bind_app.
Qed.

Lemma plan_run ds :
  let out := run_stream ds new_plan in
  same_segments (extracted out) (plan_reference (concat ds))
  /\ visible_text out = extracted out ≫= normal_text.
Proof.
  unfold run_stream. rewrite push_all_plan. simpl plan_parser.
  pose proof (tagged_stream plan_specs ds) as H. simpl in H.
  destruct (parse_all ds (new_tagged plan_specs)) as [q segs]. simpl in *.
  destruct (finish_tagged q) as [q' tail]. simpl in *. split.
  - exists (segs ++ tail), (tagged_reference plan_specs (concat ds)).
    split_and!; [by rewrite fmap_app|done|done].
  - by rewrite bind_app.
Qed.

End Plans.

(** ** Assistant text *)
Module Assistant.
Import Plans Citations.

Record AssistantTextChunk := mkAssistant {
  assistant_visible : str;
  citations : list str;
  plan_segments : list ProposedPlanSegment;
}.
Definition default_assistant : AssistantTextChunk := mkAssistant [] [] [].
Definition assistant_is_empty (c : AssistantTextChunk) : bool :=
  is_empty (assistant_visible c) && is_empty (citations c) && is_empty (plan_segments c).

Record AssistantTextStreamParser := mkAssistantParser {
  plan_mode : bool;
  citation_state : CitationStreamParser;
  plan_state : ProposedPlanParser;
}.
Definition new_assistant (plan_mode : bool) : AssistantTextStreamParser :=
  mkAssistantParser plan_mode new_citations new_plan.

Definition parse_visible_text (text : str) (p : AssistantTextStreamParser)
    : AssistantTextStreamParser * AssistantTextChunk :=
  if plan_mode p then
    let '(q, out) := push_str text (plan_state p) in
    (mkAssistantParser (plan_mode p) (citation_state p) q,
     mkAssistant (visible_text out) [] (extracted out))
  else (p, mkAssistant text [] []).

Definition assistant_push_str (chunk : str) (p : AssistantTextStreamParser)
    : AssistantTextStreamParser * AssistantTextChunk :=
  let '(c, out) := push_str chunk (citation_state p) in
  let '(p, text) :=
    parse_visible_text (visible_text out) (mkAssistantParser (plan_mode p) c (plan_state p)) in
  (p, mkAssistant (assistant_visible text) (extracted out) (plan_segments text)).

Definition assistant_finish (p : AssistantTextStreamParser)
    : AssistantTextStreamParser * AssistantTextChunk :=
  let '(c, out) := finish (citation_state p) in
  let '(p, text) :=
    parse_visible_text (visible_text out) (mkAssistantParser (plan_mode p) c (plan_state p)) in
  if plan_mode p then
    let '(q, tail) := finish (plan_state p) in
    (mkAssistantParser (plan_mode p) (citation_state p) q,
     if chunk_is_empty tail
     then mkAssistant (assistant_visible text) (extracted out) (plan_segments text)
     else mkAssistant (assistant_visible text ++ visible_text tail) (extracted out)
            (plan_segments text ++ extracted tail))
  else (p, mkAssistant (assistant_visible text) (extracted out) (plan_segments text)).

Definition assistant_app (a b : AssistantTextChunk) : AssistantTextChunk :=
  mkAssistant (assistant_visible a ++ assistant_visible b) (citations a ++ citations b)
    (plan_segments a ++ plan_segments b).
Fixpoint assistant_run (ds : list str) (p : AssistantTextStreamParser) : AssistantTextChunk :=
  match ds with
  | [] => (assistant_finish p).2
  | d :: ds => let '(p, out) := assistant_push_str d p in assistant_app out (assistant_run ds p)
  end.

(** *** Facts *)

Lemma run_stream_cons {P T} {parser : StreamTextParser P T} d ds (p : P) :
  run_stream (d :: ds) p = chunk_app (push_str d p).2 (run_stream ds (push_str d p).1).
Proof.
  unfold run_stream. simpl. destruct (push_str d p) as [q out]. simpl.
  destruct (push_all ds q) as [q' rest]. apply chunk_app_assoc.
Qed.
Lemma run_stream_nil {P T} {parser : StreamTextParser P T} (p : P) :
  run_stream [] p = (finish p).2.
Proof. unfold run_stream. simpl. apply chunk_app_nil_l. Qed.

(** The pieces of visible text that the citation parser hands on. *)
Fixpoint handed_on (ds : list str) (c : CitationStreamParser) : list str :=
  match ds with
  | [] => [visible_text (finish c).2]
  | d :: ds => visible_text (push_str d c).2 :: handed_on ds (push_str d c).1
  end.

Lemma handed_on_concat ds c : concat (handed_on ds c) = visible_text (run_stream ds c).
Proof.
  revert c. induction ds as [|d ds IH]; intros c; cbn [handed_on concat].
  - by rewrite app_nil_r, run_stream_nil.
  - by rewrite IH, run_stream_cons.
Qed.

Lemma chunk_is_empty_default {T} (c : StreamTextChunk T) :
  chunk_is_empty c = true -> c = default_chunk.
Proof. destruct c as [[|] [|]]; done. Qed.

Lemma assistant_run_plan ds c q :
  assistant_run ds (mkAssistantParser true c q)
  = mkAssistant (visible_text (run_stream (handed_on ds c) q)) (extracted (run_stream ds c))
      (extracted (run_stream (handed_on ds c) q)).
Proof.
  revert c q. induction ds as [|d ds IH]; intros c q.
  - cbn [assistant_run handed_on]. rewrite run_stream_cons, !run_stream_nil.
    unfold assistant_finish, parse_visible_text. cbn [plan_mode citation_state plan_state].
    destruct (finish c) as [c' out]. cbn [fst snd].
    destruct (push_str (visible_text out) q) as [q' text]. cbn [fst snd plan_mode plan_state].
    destruct (finish q') as [q'' tail]. cbn [fst snd].
    destruct (chunk_is_empty tail) eqn:E; [|done].
    apply chunk_is_empty_default in E as ->. by rewrite chunk_app_nil_r.
  - cbn [assistant_run handed_on]. rewrite !run_stream_cons.
    unfold assistant_push_str, parse_visible_text. cbn [plan_mode citation_state plan_state].
    destruct (push_str d c) as [c' out]. cbn [fst snd].
    destruct (push_str (visible_text out) q) as [q' text]. cbn [fst snd]. by rewrite IH.
Qed.

Lemma assistant_run_plain ds c q :
  assistant_run ds (mkAssistantParser false c q)
  = mkAssistant (visible_text (run_stream ds c)) (extracted (run_stream ds c)) [].
Proof.
  revert c. induction ds as [|d ds IH]; intros c.
  - cbn [assistant_run]. rewrite run_stream_nil. unfold assistant_finish, parse_visible_text.
    cbn [plan_mode citation_state plan_state]. by destruct (finish c) as [c' out].
  - cbn [assistant_run]. rewrite run_stream_cons. unfold assistant_push_str, parse_visible_text.
    cbn [plan_mode citation_state plan_state]. destruct (push_str d c) as [c' out].
    cbn [fst snd]. by rewrite IH.
Qed.


End Assistant.
