(* ===== verification/HeadTail.v ===== *)
(** * HeadTail: the capped output buffer

    Models core/src/unified_exec/head_tail_buffer.rs. The buffer keeps a stable
    prefix and the newest suffix of a byte stream and counts what it dropped in
    between; the counter is a [usize] with saturating arithmetic. *)

From S2P Require Import Prelude RustStr.

Module HeadTailBuffer.

Record Buffer := mkBuffer { head : list N; tail : list N; omitted_bytes : N }.
Definition default_buffer : Buffer := mkBuffer [] [] 0.

Section Capacity.
Context (MAX_BYTES : N).
Definition HEAD_BUDGET : N := (MAX_BYTES / 2)%N.
Definition TAIL_BUDGET : N := (MAX_BYTES - HEAD_BUDGET)%N.

Definition retained_bytes (b : Buffer) : N := saturating_add (lenN (head b)) (lenN (tail b)).
Definition total_bytes (b : Buffer) : N := saturating_add (retained_bytes b) (omitted_bytes b).

(** [fill_head]: the new buffer and the bytes that did not fit. *)
Definition fill_head (chunk : list N) (b : Buffer) : Buffer * list N :=
  let remaining_head := (HEAD_BUDGET - lenN (head b))%N in
  let '(chunk_head, chunk_tail) :=
    if (remaining_head <=? lenN chunk)%N
    then (takeN remaining_head chunk, dropN remaining_head chunk) else (chunk, []) in
  (mkBuffer (head b ++ chunk_head) (tail b) (omitted_bytes b), chunk_tail).

Definition push_tail (chunk : list N) (b : Buffer) : Buffer :=
  let remaining_tail := (TAIL_BUDGET - lenN (tail b))%N in
  let excess_tail := (lenN chunk - remaining_tail)%N in
  let omitted := saturating_add (omitted_bytes b) excess_tail in
  match checked_sub excess_tail (lenN (tail b)) with
  | None => mkBuffer (head b) (dropN excess_tail (tail b) ++ chunk) omitted
  | Some skip => mkBuffer (head b) (dropN skip chunk) omitted
  end.

Definition push_chunk (chunk : list N) (b : Buffer) : Buffer :=
  let '(b, chunk) := fill_head chunk b in push_tail chunk b.

Definition to_bytes (b : Buffer) : list N := head b ++ tail b.
(** [format_output_omission_marker] of unified_exec/mod.rs *)
Definition format_output_omission_marker (n : N) : str :=
  lit "... " ++ show n ++ lit " bytes omitted ...".
Definition to_bytes_with_omission_marker (b : Buffer) : list N :=
  if (omitted_bytes b =? 0)%N then to_bytes b
  else head b ++ [nl] ++ as_bytes (format_output_omission_marker (omitted_bytes b)) ++ [nl] ++ tail b.

(** [push_buffer]. The two slices of the source's ring buffer are given by the
    position of its split. *)
Definition push_buffer (split : N) (buffer b : Buffer) : Buffer :=
  let b := mkBuffer (head b) (tail b) (saturating_add (omitted_bytes b) (omitted_bytes buffer)) in
  let '(b, overflow) :=
    if is_empty (head b) then (mkBuffer (head buffer) (tail b) (omitted_bytes b), [])
    else fill_head (head buffer) b in
  if (lenN (tail buffer) =? TAIL_BUDGET)%N
  then mkBuffer (head b) (tail buffer)
         (saturating_add (saturating_add (omitted_bytes b) (lenN (tail b))) (lenN overflow))
  else
    let b := push_tail overflow b in
    if is_empty (tail b) then mkBuffer (head b) (tail buffer) (omitted_bytes b)
    else push_tail (dropN split (tail buffer)) (push_tail (takeN split (tail buffer)) b).

(** ** The abstract view: the summary of everything written *)

Definition last_bytes (n : N) (l : list N) : list N := dropN (lenN l - n) l.
Definition summary (s : list N) : Buffer :=
  let rest := dropN HEAD_BUDGET s in
  mkBuffer (takeN HEAD_BUDGET s) (last_bytes TAIL_BUDGET rest)
    (N.min (lenN rest - TAIL_BUDGET) usize_max).

Lemma dropN_app {A} n (l k : list A) : dropN n (l ++ k) = dropN n l ++ dropN (n - lenN l) k.
Proof. unfold dropN, lenN. rewrite drop_app. f_equal. f_equal. lia. Qed.
Lemma takeN_app {A} n (l k : list A) : takeN n (l ++ k) = takeN n l ++ takeN (n - lenN l) k.
Proof. unfold takeN, lenN. rewrite take_app. f_equal. f_equal. lia. Qed.
Lemma dropN_ge {A} n (l : list A) : (lenN l <= n)%N -> dropN n l = [].
Proof. unfold dropN, lenN. intros H. apply drop_ge. lia. Qed.
Lemma takeN_ge {A} n (l : list A) : (lenN l <= n)%N -> takeN n l = l.
Proof. unfold takeN, lenN. intros H. apply take_ge. lia. Qed.
Lemma dropN_0 {A} (l : list A) : dropN 0 l = l.
Proof. done. Qed.
Lemma takeN_0 {A} (l : list A) : takeN 0 l = [].
Proof. done. Qed.

(** Keeping the last bytes of what was kept and what is new. *)
Lemma last_bytes_app n l k :
  last_bytes n (l ++ k) = last_bytes n (last_bytes n l ++ k).
Proof.
  unfold last_bytes. rewrite !dropN_app, !lenN_app, !lenN_dropN, dropN_dropN.
  f_equal; f_equal; lia.
Qed.

Lemma push_tail_eq chunk b :
  (lenN (tail b) <= TAIL_BUDGET)%N ->
  push_tail chunk b
  = mkBuffer (head b) (last_bytes TAIL_BUDGET (tail b ++ chunk))
      (saturating_add (omitted_bytes b) (lenN (tail b ++ chunk) - TAIL_BUDGET)).
Proof.
  intros Ht. unfold push_tail, checked_sub, last_bytes. rewrite dropN_app, lenN_app.
  replace (lenN chunk - (TAIL_BUDGET - lenN (tail b)))%N
    with (lenN (tail b) + lenN chunk - TAIL_BUDGET)%N by lia.
  set (x := (lenN (tail b) + lenN chunk - TAIL_BUDGET)%N).
  destruct (N.leb_spec (lenN (tail b)) x) as [Hle|Hlt].
  - by rewrite (dropN_ge x (tail b)) by lia.
  - replace (x - lenN (tail b))%N with 0%N by lia. by rewrite dropN_0.
Qed.

Lemma fill_head_eq chunk b :
  fill_head chunk b
  = (mkBuffer (head b ++ takeN (HEAD_BUDGET - lenN (head b)) chunk) (tail b) (omitted_bytes b),
     dropN (HEAD_BUDGET - lenN (head b)) chunk).
Proof.
  unfold fill_head. destruct (N.leb_spec (HEAD_BUDGET - lenN (head b)) (lenN chunk)); [done|].
  by rewrite takeN_ge, dropN_ge by lia.
Qed.

Lemma lenN_last_bytes n l : (lenN (last_bytes n l) <= n)%N.
Proof. unfold last_bytes. rewrite lenN_dropN. lia. Qed.

Lemma push_chunk_summary s c : push_chunk c (summary s) = summary (s ++ c).
Proof.
  unfold push_chunk. rewrite fill_head_eq, push_tail_eq by apply lenN_last_bytes.
  unfold summary. cbn [head tail omitted_bytes]. rewrite lenN_takeN.
  assert (Hrest : dropN HEAD_BUDGET (s ++ c)
    = dropN HEAD_BUDGET s ++ dropN (HEAD_BUDGET - N.min HEAD_BUDGET (lenN s)) c).
  { rewrite dropN_app. f_equal. f_equal. lia. }
  f_equal.
  - rewrite takeN_app. f_equal. f_equal. lia.
  - rewrite Hrest. symmetry. apply last_bytes_app.
  - rewrite Hrest, !lenN_app. unfold last_bytes, saturating_add. rewrite !lenN_dropN. lia.
Qed.

(** Writing chunks one after the other. *)
Definition write_all (cs : list (list N)) (b : Buffer) : Buffer := foldl (fun b c => push_chunk c b) b cs.

Lemma summary_nil : summary [] = default_buffer.
Proof. unfold summary, last_bytes, dropN, takeN. by rewrite take_nil, !drop_nil. Qed.

Lemma write_all_summary cs s : write_all cs (summary s) = summary (s ++ concat cs).
Proof.
  revert s. induction cs as [|c cs IH]; intros s; simpl; [by rewrite app_nil_r|].
  by rewrite push_chunk_summary, IH, <- app_assoc.
Qed.

(** Merging the summary of a later stretch. *)

Lemma push_tail_additive c d b :
  (lenN (tail b) <= TAIL_BUDGET)%N -> push_tail d (push_tail c b) = push_tail (c ++ d) b.
Proof.
  intros Ht. rewrite (push_tail_eq c b), (push_tail_eq (c ++ d) b) by done.
  rewrite push_tail_eq by apply lenN_last_bytes. cbn [head tail omitted_bytes]. f_equal.
  - by rewrite app_assoc, <- last_bytes_app.
  - unfold last_bytes, saturating_add. rewrite !lenN_app, !lenN_dropN, !lenN_app. lia.
Qed.

Lemma takeN_nil {A} n : takeN n (@nil A) = [].
Proof. apply take_nil. Qed.
Lemma dropN_nil {A} n : dropN n (@nil A) = [].
Proof. apply drop_nil. Qed.

(** The overflow of the source head once the destination head is full. *)
Definition overflow (s t : list N) : list N :=
  dropN (HEAD_BUDGET - lenN (takeN HEAD_BUDGET s)) (takeN HEAD_BUDGET t).

Lemma rest_app (s t : list N) :
  dropN HEAD_BUDGET (s ++ t) = dropN HEAD_BUDGET s ++ overflow s t ++ dropN HEAD_BUDGET t.
Proof.
  unfold overflow. rewrite dropN_app, lenN_takeN. f_equal.
  replace (HEAD_BUDGET - N.min HEAD_BUDGET (lenN s))%N with (HEAD_BUDGET - lenN s)%N by lia.
  rewrite <- (takeN_dropN HEAD_BUDGET t) at 1. rewrite dropN_app, lenN_takeN. f_equal.
  destruct (decide (lenN t <= HEAD_BUDGET)%N).
  - rewrite (dropN_ge HEAD_BUDGET t) by done. apply dropN_nil.
  - replace (HEAD_BUDGET - lenN s - N.min HEAD_BUDGET (lenN t))%N with 0%N by lia. apply dropN_0.
Qed.
Lemma head_app (s t : list N) :
  takeN HEAD_BUDGET (s ++ t)
  = takeN HEAD_BUDGET s ++ takeN (HEAD_BUDGET - lenN (takeN HEAD_BUDGET s)) (takeN HEAD_BUDGET t).
Proof.
  rewrite takeN_app, lenN_takeN. f_equal. unfold takeN. rewrite take_take. f_equal. lia.
Qed.

(** The head step of [push_buffer], in both of its cases. *)
Lemma merge_head (s t : list N) om :
  (if is_empty (takeN HEAD_BUDGET s)
   then (mkBuffer (takeN HEAD_BUDGET t) (tail (summary s)) om, [])
   else fill_head (takeN HEAD_BUDGET t) (mkBuffer (takeN HEAD_BUDGET s) (tail (summary s)) om))
  = (mkBuffer (takeN HEAD_BUDGET (s ++ t)) (tail (summary s)) om, overflow s t).
Proof.
  rewrite head_app. unfold overflow. destruct (takeN HEAD_BUDGET s) as [|x l] eqn:E.
  - cbn [is_empty lenN app]. rewrite lenN_nil, N.sub_0_r.
    by rewrite (takeN_ge _ (takeN HEAD_BUDGET t)), (dropN_ge _ (takeN HEAD_BUDGET t))
      by (rewrite lenN_takeN; lia).
  - cbn [is_empty]. by rewrite fill_head_eq.
Qed.

(** The tail step when the source tail is not full. *)
Lemma merge_partial_tail split t b :
  (lenN (tail b) <= TAIL_BUDGET)%N -> (lenN t <= TAIL_BUDGET)%N ->
  (omitted_bytes b <= usize_max)%N ->
  (if is_empty (tail b) then mkBuffer (head b) t (omitted_bytes b)
   else push_tail (dropN split t) (push_tail (takeN split t) b)) = push_tail t b.
Proof.
  intros Hb Ht Ho. destruct (is_empty (tail b)) eqn:E.
  - destruct b as [h [|] o]; [|done]. rewrite push_tail_eq by done. cbn [head tail omitted_bytes app] in *.
    unfold last_bytes, saturating_add. replace (lenN t - TAIL_BUDGET)%N with 0%N by lia.
    rewrite dropN_0. f_equal. lia.
  - by rewrite push_tail_additive, takeN_dropN by done.
Qed.

Lemma push_buffer_summary split s t : push_buffer split (summary t) (summary s) = summary (s ++ t).
Proof.
  unfold push_buffer. set (om := saturating_add _ _).
  assert (Hom : om = N.min (lenN (dropN HEAD_BUDGET s) - TAIL_BUDGET
                            + (lenN (dropN HEAD_BUDGET t) - TAIL_BUDGET)) usize_max).
  { unfold om, summary, saturating_add. cbn [omitted_bytes]. lia. }
  change (head (mkBuffer ?h _ _)) with h. cbn [head tail omitted_bytes].
  change (head (summary s)) with (takeN HEAD_BUDGET s).
  change (head (summary t)) with (takeN HEAD_BUDGET t). rewrite merge_head. cbv beta iota.
  pose proof (rest_app s t) as Hrest. set (ov := overflow s t) in *.
  set (rs := dropN HEAD_BUDGET s) in *. set (rt := dropN HEAD_BUDGET t) in *.
  change (tail (summary t)) with (last_bytes TAIL_BUDGET rt).
  change (tail (summary s)) with (last_bytes TAIL_BUDGET rs).
  unfold summary. rewrite Hrest.
  destruct (N.eqb_spec (lenN (last_bytes TAIL_BUDGET rt)) TAIL_BUDGET) as [Hfull|Hpart];
    cbn [head tail omitted_bytes].
  - unfold last_bytes in Hfull. rewrite lenN_dropN in Hfull. f_equal.
    + unfold last_bytes. rewrite app_assoc, dropN_app, (dropN_ge _ (rs ++ ov)) by
        (rewrite !lenN_app; lia). cbn [app]. f_equal. rewrite !lenN_app. lia.
    + rewrite Hom. unfold saturating_add, last_bytes. rewrite !lenN_app, lenN_dropN. lia.
  - unfold last_bytes in Hpart. rewrite lenN_dropN in Hpart.
    assert (Hrt : last_bytes TAIL_BUDGET rt = rt).
    { unfold last_bytes. replace (lenN rt - TAIL_BUDGET)%N with 0%N by lia. apply dropN_0. }
    rewrite Hrt. set (b := mkBuffer _ _ _).
    assert (Hb : (lenN (tail b) <= TAIL_BUDGET)%N) by apply lenN_last_bytes.
    rewrite merge_partial_tail; [| |lia|].
    + rewrite push_tail_additive, push_tail_eq by done. unfold b. cbn [head tail omitted_bytes]. f_equal.
      * symmetry. apply last_bytes_app.
      * rewrite Hom. unfold saturating_add, last_bytes. rewrite !lenN_app, lenN_dropN. lia.
    + rewrite push_tail_eq by done. apply lenN_last_bytes.
    + rewrite push_tail_eq by done. unfold saturating_add. cbn [omitted_bytes]. lia.
Qed.

(** C40: the buffer is the summary of all the bytes ever written, however they
    arrived. Writing chunks gives the first half of the budget verbatim, the
    newest bytes after it up to the other half, and the exact number of bytes
    dropped between (capped at the largest [usize]); merging a buffer that
    summarises a later stretch gives the summary of the concatenation. *)
Theorem head_tail_refines cs ds split :
  write_all cs default_buffer = summary (concat cs)
  /\ push_buffer split (write_all ds default_buffer) (write_all cs default_buffer)
     = summary (concat cs ++ concat ds).
Proof.
  rewrite <- summary_nil, !write_all_summary. split; [done|]. apply push_buffer_summary.
Qed.

End Capacity.
End HeadTailBuffer.
