(* ===== verification/Truncate.v ===== *)
(** * Truncate: fitting text into byte and token budgets

    Models utils/string/src/truncate.rs and utils/output-truncation/src/lib.rs,
    with the [TruncationPolicy] of protocol.rs. A token is four bytes; all
    counts are [usize] with saturating arithmetic. The serialisation of an MCP
    result to JSON is a parameter. *)

From Stdlib Require Import ZifyBool.
From S2P Require Import Prelude RustStr.

Module Truncation.

Definition APPROX_BYTES_PER_TOKEN : N := 4.

Definition approx_token_count (text : str) : N :=
  (saturating_add (blen text) (APPROX_BYTES_PER_TOKEN - 1) / APPROX_BYTES_PER_TOKEN)%N.
Definition approx_bytes_for_tokens (tokens : N) : N := saturating_mul tokens APPROX_BYTES_PER_TOKEN.
Definition approx_tokens_from_byte_count (bytes : N) : N :=
  (saturating_add bytes (APPROX_BYTES_PER_TOKEN - 1) / APPROX_BYTES_PER_TOKEN)%N.

Definition split_budget (budget : N) : N * N := let left := (budget / 2)%N in (left, budget - left)%N.

Definition format_truncation_marker (use_tokens : bool) (removed_count : N) : str :=
  if use_tokens then [ellipsis] ++ show removed_count ++ lit " tokens truncated" ++ [ellipsis]
  else [ellipsis] ++ show removed_count ++ lit " chars truncated" ++ [ellipsis].

Definition removed_units (use_tokens : bool) (removed_bytes removed_chars : N) : N :=
  if use_tokens then approx_tokens_from_byte_count removed_bytes else removed_chars.

Definition assemble_truncated_output (prefix suffix marker : str) : str := prefix ++ marker ++ suffix.

(** [split_string]: the loop over [char_indices]. *)
Record SplitState := mkSplit {
  prefix_end : N; suffix_start : N; removed_chars : N; suffix_started : bool;
}.
Fixpoint split_loop (beginning_bytes tail_start_target : N) (idx : N) (s : str) (st : SplitState)
    : SplitState :=
  match s with
  | [] => st
  | ch :: s =>
      let char_end := (idx + len_utf8 ch)%N in
      let st :=
        if (char_end <=? beginning_bytes)%N
        then mkSplit char_end (suffix_start st) (removed_chars st) (suffix_started st)
        else if (tail_start_target <=? idx)%N
        then if suffix_started st then st
             else mkSplit (prefix_end st) idx (removed_chars st) true
        else mkSplit (prefix_end st) (suffix_start st) (saturating_add (removed_chars st) 1)
               (suffix_started st) in
      split_loop beginning_bytes tail_start_target char_end s st
  end.
Definition split_string (s : str) (beginning_bytes end_bytes : N) : N * str * str :=
  if is_empty s then (0%N, [], [])
  else
    let len := blen s in
    let st := split_loop beginning_bytes (len - end_bytes) 0 s (mkSplit 0 len 0 false) in
    let start := if (suffix_start st <? prefix_end st)%N then prefix_end st else suffix_start st in
    (removed_chars st, byte_prefix (prefix_end st) s, byte_drop start s).

Definition truncate_with_byte_estimate (s : str) (max_bytes : N) (use_tokens : bool) : str :=
  if is_empty s then []
  else if (max_bytes =? 0)%N then
    let total_chars := if use_tokens then 0%N else lenN s in
    format_truncation_marker use_tokens (removed_units use_tokens (blen s) total_chars)
  else if (blen s <=? max_bytes)%N then s
  else
    let total_bytes := blen s in
    let '(left_budget, right_budget) := split_budget max_bytes in
    let '(removed, before, after) :=
      if use_tokens
      then (0%N, byte_prefix left_budget s, byte_drop (total_bytes - right_budget) s)
      else split_string s left_budget right_budget in
    let marker := format_truncation_marker use_tokens
                    (removed_units use_tokens (total_bytes - max_bytes) removed) in
    assemble_truncated_output before after marker.

Definition truncate_middle_chars (s : str) (max_bytes : N) : str :=
  truncate_with_byte_estimate s max_bytes false.

Definition truncate_middle_with_marker (s : str) (max_bytes : N) (marker : str) : str :=
  if (blen s <=? max_bytes)%N then s
  else
    match checked_sub max_bytes (blen marker) with
    | None => byte_prefix max_bytes s
    | Some content_budget =>
        let '(left_budget, right_budget) := split_budget content_budget in
        assemble_truncated_output (byte_prefix left_budget s)
          (byte_drop (blen s - right_budget) s) marker
    end.

Definition truncate_middle_with_token_budget (s : str) (max_tokens : N) : str * option N :=
  if is_empty s then ([], None)
  else if (0 <? max_tokens)%N && (blen s <=? approx_bytes_for_tokens max_tokens)%N then (s, None)
  else
    let truncated := truncate_with_byte_estimate s (approx_bytes_for_tokens max_tokens) true in
    let total_tokens := approx_token_count s in
    if str_eqb truncated s then (truncated, None) else (truncated, Some total_tokens).

(** ** Facts about cutting at char boundaries *)

Lemma len_utf8_pos c : (1 <= len_utf8 c <= 4)%N.
Proof. unfold len_utf8. repeat case_match; lia. Qed.
Lemma blen_app s t : blen (s ++ t) = (blen s + blen t)%N.
Proof. induction s as [|c s IH]; simpl; lia. Qed.
Lemma blen_byte_prefix n s : (blen (byte_prefix n s) <= n)%N.
Proof.
  revert n. induction s as [|c s IH]; intros n; simpl; [lia|].
  destruct (N.leb_spec (len_utf8 c) n); simpl; [|lia]. specialize (IH (n - len_utf8 c)%N). lia.
Qed.
Lemma byte_prefix_prefix n s : byte_prefix n s `prefix_of` s.
Proof.
  revert n. induction s as [|c s IH]; intros n; simpl; [done|].
  destruct (len_utf8 c <=? n)%N; [apply prefix_cons, IH|apply prefix_nil].
Qed.
Lemma byte_drop_suffix n s : exists t, s = t ++ byte_drop n s /\ (byte_drop n s = s \/ (0 < n)%N).
Proof.
  revert n. induction s as [|c s IH]; intros n; simpl; [by exists []; auto|].
  destruct (N.eqb_spec n 0) as [->|]; [by exists []; auto|].
  destruct (IH (n - len_utf8 c)%N) as (t & Ht & _). exists (c :: t). simpl. rewrite <- Ht. split; [done|].
  right. lia.
Qed.
(** Dropping at least [n] bytes leaves at most the rest. *)
Lemma blen_byte_drop n s : (blen (byte_drop n s) <= blen s - n)%N.
Proof.
  revert n. induction s as [|c s IH]; intros n; simpl; [lia|].
  destruct (N.eqb_spec n 0) as [->|]; simpl; [lia|].
  specialize (IH (n - len_utf8 c)%N). pose proof (len_utf8_pos c). lia.
Qed.
Lemma byte_prefix_exact s t : byte_prefix (blen s) (s ++ t) = s.
Proof.
  induction s as [|c s IH]; simpl.
  - destruct t as [|c t]; simpl; [done|]. pose proof (len_utf8_pos c).
    destruct (N.leb_spec (len_utf8 c) 0); [lia|done].
  - rewrite (proj2 (N.leb_le _ _)) by lia. f_equal.
    replace (len_utf8 c + blen s - len_utf8 c)%N with (blen s) by lia. done.
Qed.
Lemma byte_drop_exact s t : byte_drop (blen s) (s ++ t) = t.
Proof.
  induction s as [|c s IH]; simpl.
  - by destruct t.
  - pose proof (len_utf8_pos c). rewrite (proj2 (N.eqb_neq _ _)) by lia.
    by replace (len_utf8 c + blen s - len_utf8 c)%N with (blen s) by lia.
Qed.

Lemma blen_0 s : blen s = 0%N -> s = [].
Proof. destruct s as [|c s]; [done|]. simpl. pose proof (len_utf8_pos c). lia. Qed.

(** A prefix and a suffix that do not overlap leave a middle. *)
Lemma disjoint_middle s p q :
  p `prefix_of` s -> (exists b, s = b ++ q) -> (blen p + blen q <= blen s)%N ->
  exists m, s = p ++ m ++ q.
Proof.
  intros [a Ha] [b Hb] Hle. pose proof Ha as Heq. rewrite Hb in Heq.
  rewrite Hb, blen_app in Hle. apply app_eq_app in Heq as (k & [[Hb' Ha']|[Hp Hq]]).
  - exists k. by rewrite Hb, Hb', <- app_assoc.
  - rewrite Hp, blen_app in Hle. assert (k = []) as -> by (apply blen_0; lia).
    exists []. rewrite app_nil_r in Hp. by rewrite Hp, Hb.
Qed.

(** The hard limit holds. The result of truncating around a marker never
    has more bytes than allowed; a text that fits is returned as it is, and
    otherwise the result is a prefix and a suffix of the text, disjoint and on
    character boundaries, around the marker, or, when not even the marker fits,
    a prefix of the text. *)
Theorem truncate_with_marker_bounded s max_bytes marker :
  let r := truncate_middle_with_marker s max_bytes marker in
  (blen r <= max_bytes)%N
  /\ ((blen s <= max_bytes)%N /\ r = s
      \/ (max_bytes < blen marker)%N /\ r `prefix_of` s
      \/ exists p m q, s = p ++ m ++ q /\ r = p ++ marker ++ q).
Proof.
  intros r. unfold r, truncate_middle_with_marker.
  destruct (N.leb_spec (blen s) max_bytes) as [Hfit|Hbig]; [split; [done|auto]|].
  unfold checked_sub. destruct (N.leb_spec (blen marker) max_bytes) as [Hm|Hm].
  - unfold split_budget, assemble_truncated_output. set (c := (max_bytes - blen marker)%N).
    pose proof (blen_byte_prefix (c / 2) s) as Hp.
    pose proof (blen_byte_drop (blen s - (c - c / 2)) s) as Hq.
    assert (Hc : (c / 2 <= c)%N) by (apply N.Div0.div_le_upper_bound; lia).
    split; [rewrite !blen_app; lia|]. right. right.
    destruct (disjoint_middle s (byte_prefix (c / 2) s) (byte_drop (blen s - (c - c / 2)) s))
      as [m Hs].
    + apply byte_prefix_prefix.
    + destruct (byte_drop_suffix (blen s - (c - c / 2)) s) as (t & Ht & _). eauto.
    + lia.
    + exists (byte_prefix (c / 2) s), m, (byte_drop (blen s - (c - c / 2)) s). split; [exact Hs|done].
  - split; [apply blen_byte_prefix|]. right. left. split; [done|]. apply byte_prefix_prefix.
Qed.

(** ** The counting loop *)

(** Once past the prefix, chars are dropped up to the target and kept after. *)
Lemma split_loop_kept beg target idx s st :
  (beg < idx + 1)%N -> (target <= idx)%N -> suffix_started st = true ->
  split_loop beg target idx s st = st.
Proof.
  revert idx. induction s as [|c s IH]; intros idx Hb Ht Hst; simpl; [done|].
  pose proof (len_utf8_pos c). rewrite (proj2 (N.leb_gt _ _)) by lia.
  rewrite (proj2 (N.leb_le _ _)) by lia. rewrite Hst. apply IH; [lia|lia|done].
Qed.

Lemma split_loop_middle beg target idx s m q pe n :
  s = m ++ q -> q = byte_drop (target - idx) s ->
  (match s with [] => True | c :: _ => beg < idx + len_utf8 c end)%N ->
  (n + lenN m <= usize_max)%N ->
  split_loop beg target idx s (mkSplit pe (idx + blen s) n false)
  = mkSplit pe (idx + blen m) (n + lenN m) (negb (is_empty q)).
Proof.
  revert idx m n. induction s as [|c s IH]; intros idx m n Hs Hq Hbeg Hn.
  { destruct m; [|done]. simpl in *. subst q. unfold lenN. simpl. f_equal; lia. }
  cbn [split_loop]. rewrite (proj2 (N.leb_gt _ _)) by done. simpl in Hq.
  destruct (N.leb_spec target idx) as [Ht|Ht].
  - replace (target - idx =? 0)%N with true in Hq by lia. subst q.
    assert (m = []) as ->.
    { apply (f_equal length) in Hs. rewrite length_app in Hs. destruct m; [done|]. simpl in Hs. lia. }
    cbn [suffix_started prefix_end removed_chars].
    pose proof (len_utf8_pos c). rewrite split_loop_kept; [|lia|lia|done].
    unfold lenN. simpl. f_equal; lia.
  - replace (target - idx =? 0)%N with false in Hq by lia.
    destruct (byte_drop_suffix (target - idx - len_utf8 c) s) as (t & Hsuf & _). rewrite <- Hq in Hsuf.
    destruct m as [|c' m].
    { exfalso. apply (f_equal length) in Hs, Hsuf. rewrite length_app in Hsuf. simpl in Hs. lia. }
    injection Hs as <- Hs. cbn [suffix_started prefix_end removed_chars suffix_start].
    rewrite lenN_cons in Hn. rewrite saturating_add_fits by lia.
    replace (idx + blen (c :: s))%N with (idx + len_utf8 c + blen s)%N by (simpl; lia).
    rewrite (IH (idx + len_utf8 c)%N m (n + 1)%N).
    + rewrite lenN_cons. cbn [blen]. f_equal; lia.
    + done.
    + rewrite Hq. f_equal. lia.
    + destruct s as [|d s]; [done|]. pose proof (len_utf8_pos d). lia.
    + lia.
Qed.

(** The prefix phase. *)
Lemma split_loop_prefix beg target idx s ss n started pe :
  exists p rest, s = p ++ rest /\ p = byte_prefix (beg - idx) s
    /\ (match rest with [] => True | c :: _ => beg < idx + blen p + len_utf8 c end)%N
    /\ split_loop beg target idx s (mkSplit pe ss n started)
       = split_loop beg target (idx + blen p) rest
           (mkSplit (if is_empty p then pe else idx + blen p)%N ss n started).
Proof.
  revert idx pe. induction s as [|c s IH]; intros idx pe.
  { exists [], []. by split_and!. }
  pose proof (len_utf8_pos c) as Hpos. cbn [split_loop byte_prefix].
  destruct (N.leb_spec (idx + len_utf8 c) beg) as [Hle|Hgt].
  - rewrite (proj2 (N.leb_le (len_utf8 c) (beg - idx))) by lia.
    destruct (IH (idx + len_utf8 c)%N (idx + len_utf8 c)%N) as (p & rest & Hs & Hp & Hr & He).
    exists (c :: p), rest. split_and!.
    + by rewrite Hs.
    + rewrite Hp. f_equal. f_equal. lia.
    + simpl. destruct rest; [done|]. lia.
    + cbn [prefix_end suffix_start removed_chars suffix_started is_empty blen]. rewrite He.
      rewrite N.add_assoc. destruct (is_empty p) eqn:E; [|done]. destruct p; [|done]. simpl.
      by rewrite N.add_0_r.
  - rewrite (proj2 (N.leb_gt (len_utf8 c) (beg - idx))) by lia.
    exists [], (c :: s). split_and!; [done|done|simpl; lia|]. simpl blen. rewrite N.add_0_r.
    cbn [split_loop]. by rewrite (proj2 (N.leb_gt (idx + len_utf8 c) beg)) by lia.
Qed.


(** What the loop computes, with the budgets of a text that does not fit. *)
Lemma split_string_spec s l r :
  (l + r < blen s)%N -> (blen s <= usize_max)%N ->
  exists m, s = byte_prefix l s ++ m ++ byte_drop (blen s - r) s
    /\ split_string s l r = (lenN m, byte_prefix l s, byte_drop (blen s - r) s).
Proof.
  intros Hlr Hmax. set (target := (blen s - r)%N).
  destruct (split_loop_prefix l target 0 s (blen s) 0 false 0) as (p & rest & Hs & Hp & Hr & He).
  rewrite N.sub_0_r in Hp. rewrite N.add_0_l in Hr, He.
  pose proof (blen_byte_prefix l s) as Hbp. rewrite <- Hp in Hbp.
  assert (Hdrop : byte_drop target s = byte_drop (target - blen p) rest).
  { rewrite Hs. clear -Hbp Hlr. assert (H : (blen p <= target)%N) by lia. clearbody target.
    revert target H. clear. induction p as [|c p IH]; intros target H; simpl in *; [by rewrite N.sub_0_r|].
    pose proof (len_utf8_pos c). rewrite (proj2 (N.eqb_neq _ _)) by lia. rewrite IH by lia.
    f_equal. lia. }
  destruct (byte_drop_suffix (target - blen p) rest) as (m & Hm & _). rewrite <- Hdrop in Hm.
  exists m. assert (Hs' : s = byte_prefix l s ++ m ++ byte_drop target s) by (rewrite <- Hp, <- Hm; done).
  split; [done|]. unfold split_string. destruct (is_empty s) eqn:E; [by destruct s; simpl in *; lia|].
  fold target. rewrite He. replace (if is_empty p then 0 else blen p)%N with (blen p) by (by destruct p).
  assert (Hlen : (blen p + blen rest = blen s)%N) by (by rewrite Hs, blen_app).
  assert (Hmn : (lenN m <= usize_max)%N).
  { assert (H : forall k, (lenN k <= blen k)%N).
    { clear. induction k as [|c k IH]; [done|]. rewrite lenN_cons. simpl. pose proof (len_utf8_pos c). lia. }
    specialize (H m). rewrite Hm in Hlen. rewrite blen_app in Hlen. lia. }
  pose proof (split_loop_middle l target (blen p) rest m (byte_drop target s) (blen p) 0 Hm Hdrop Hr
    ltac:(lia)) as Hloop. rewrite Hlen in Hloop. rewrite Hloop.
  cbn [prefix_end suffix_start removed_chars].
  assert (blen p + blen m <? blen p = false)%N as -> by lia.
  rewrite N.add_0_l. f_equal; [f_equal|].
  - rewrite <- Hp. rewrite Hs at 1. apply byte_prefix_exact.
  - rewrite <- blen_app. rewrite Hs' at 1. rewrite <- Hp, app_assoc. apply byte_drop_exact.
Qed.

(** The count in the marker is exact. When a text longer than a positive
    budget is truncated in the middle, the result is its beginning and its end,
    each within half of the budget and cut on character boundaries, and the
    marker between them states exactly how many characters were left out; the
    one-pass loop that finds the cut agrees with cutting at the nearest char
    boundaries. *)
Theorem truncate_middle_chars_exact s max_bytes :
  (0 < max_bytes)%N -> (max_bytes < blen s)%N -> (blen s <= usize_max)%N ->
  exists p m q, s = p ++ m ++ q
    /\ truncate_middle_chars s max_bytes = p ++ format_truncation_marker false (lenN m) ++ q
    /\ (blen p <= max_bytes / 2)%N /\ (blen q <= max_bytes - max_bytes / 2)%N
    /\ p = byte_prefix (max_bytes / 2) s
    /\ q = byte_drop (blen s - (max_bytes - max_bytes / 2)) s.
Proof.
  intros Hpos Hbig Hmax. assert (Hd : (max_bytes / 2 <= max_bytes)%N).
  { apply N.Div0.div_le_upper_bound. lia. }
  destruct (split_string_spec s (max_bytes / 2) (max_bytes - max_bytes / 2)) as (m & Hs & Hsplit);
    [lia|done|].
  exists (byte_prefix (max_bytes / 2) s), m, (byte_drop (blen s - (max_bytes - max_bytes / 2)) s).
  split_and!; [done| | | |done|done].
  - unfold truncate_middle_chars, truncate_with_byte_estimate, split_budget.
    destruct (is_empty s) eqn:E; [destruct s; simpl in *; lia|].
    rewrite (proj2 (N.eqb_neq _ _)), (proj2 (N.leb_gt _ _)), Hsplit by lia. done.
  - apply blen_byte_prefix.
  - pose proof (blen_byte_drop (blen s - (max_bytes - max_bytes / 2)) s). lia.
Qed.

Lemma truncate_middle_chars_exact_witness :
  exists p m q, lit "hello world" = p ++ m ++ q
    /\ truncate_middle_chars (lit "hello world") 4 = p ++ format_truncation_marker false (lenN m) ++ q
    /\ (blen p <= 4 / 2)%N /\ (blen q <= 4 - 4 / 2)%N
    /\ p = byte_prefix (4 / 2) (lit "hello world")
    /\ q = byte_drop (blen (lit "hello world") - (4 - 4 / 2)) (lit "hello world").
Proof.
  apply (truncate_middle_chars_exact (lit "hello world") 4); [reflexivity|reflexivity|].
  apply N.leb_le. vm_compute. reflexivity.
Defined.

End Truncation.

(** ** Truncating tool output *)
Module OutputTruncation.
Import Truncation.

Inductive TruncationPolicy := Bytes (n : N) | Tokens (n : N).
Definition token_budget (p : TruncationPolicy) : N :=
  match p with Bytes b => approx_tokens_from_byte_count b | Tokens t => t end.
Definition byte_budget (p : TruncationPolicy) : N :=
  match p with Bytes b => b | Tokens t => approx_bytes_for_tokens t end.

Definition truncate_text (content : str) (p : TruncationPolicy) : str :=
  match p with
  | Bytes bytes => truncate_middle_chars content bytes
  | Tokens tokens => (truncate_middle_with_token_budget content tokens).1
  end.

Definition formatted_truncate_text (content : str) (p : TruncationPolicy) : str :=
  if (blen content <=? byte_budget p)%N then content
  else
    lit "Warning: truncated output (original token count: " ++ show (approx_token_count content)
    ++ lit ")" ++ [nl] ++ lit "Total output lines: " ++ show (lenN (lines content))
    ++ [nl; nl] ++ truncate_text content p.

(** [approx_tokens_from_byte_count_i64] *)
Definition approx_tokens_from_byte_count_i64 (bytes : Z) : Z :=
  if (bytes <=? 0)%Z then 0%Z else Z.of_N (approx_tokens_from_byte_count (Z.to_N bytes)).

(** *** Content items *)
Section Items.
Context {Image Detail Encrypted : Type} (estimate_audio_token_count : str -> N).

Inductive FunctionCallOutputContentItem :=
| InputText (text : str)
| InputImage (image : Image) (detail : Detail)
| InputAudio (audio_url : str)
| EncryptedContent (encrypted_content : Encrypted).

Inductive FunctionCallOutputBody :=
| BodyText (text : str)
| BodyItems (items : list FunctionCallOutputContentItem).

Definition as_text (i : FunctionCallOutputContentItem) : option str :=
  match i with InputText t => Some t | _ => None end.
Definition is_text (i : FunctionCallOutputContentItem) : bool :=
  match i with InputText _ => true | _ => false end.

Definition combine_texts (texts : list str) : str :=
  foldl (fun combined t => (if is_empty combined then combined else combined ++ [nl]) ++ t) [] texts.

Definition formatted_truncate_text_content_items_with_policy
    (items : list FunctionCallOutputContentItem) (p : TruncationPolicy)
    : list FunctionCallOutputContentItem * option N :=
  let text_segments := omap as_text items in
  if is_empty text_segments then (items, None)
  else
    let combined := combine_texts text_segments in
    if (blen combined <=? byte_budget p)%N then (items, None)
    else (InputText (formatted_truncate_text combined p) :: List.filter (fun i => negb (is_text i)) items,
          Some (approx_token_count combined)).

Record ItemState := mkItems {
  items_out : list FunctionCallOutputContentItem;
  remaining_budget : N;
  omitted_text_items : N;
  omitted_audio_items : N;
}.

Definition truncate_item (p : TruncationPolicy) (st : ItemState) (item : FunctionCallOutputContentItem)
    : ItemState :=
  let keep i := mkItems (items_out st ++ [i]) (remaining_budget st) (omitted_text_items st)
                  (omitted_audio_items st) in
  match item with
  | InputText text =>
      if is_empty text then st
      else if (remaining_budget st =? 0)%N
      then mkItems (items_out st) (remaining_budget st) (omitted_text_items st + 1) (omitted_audio_items st)
      else
        let cost := match p with Bytes _ => blen text | Tokens _ => approx_token_count text end in
        if (cost <=? remaining_budget st)%N
        then mkItems (items_out st ++ [InputText text]) (remaining_budget st - cost)
               (omitted_text_items st) (omitted_audio_items st)
        else
          let snippet := truncate_text text
            (match p with Bytes _ => Bytes (remaining_budget st) | Tokens _ => Tokens (remaining_budget st) end) in
          if is_empty snippet
          then mkItems (items_out st) 0 (omitted_text_items st + 1) (omitted_audio_items st)
          else mkItems (items_out st ++ [InputText snippet]) 0 (omitted_text_items st)
                 (omitted_audio_items st)
  | InputImage image detail => keep (InputImage image detail)
  | InputAudio url =>
      let token_cost := estimate_audio_token_count url in
      let cost := match p with Bytes _ => approx_bytes_for_tokens token_cost | Tokens _ => token_cost end in
      if (cost <=? remaining_budget st)%N
      then mkItems (items_out st ++ [InputAudio url]) (remaining_budget st - cost)
             (omitted_text_items st) (omitted_audio_items st)
      else mkItems (items_out st) (remaining_budget st) (omitted_text_items st)
             (omitted_audio_items st + 1)
  | EncryptedContent e => keep (EncryptedContent e)
  end.

Definition truncate_function_output_items_with_policy (items : list FunctionCallOutputContentItem)
    (p : TruncationPolicy) : list FunctionCallOutputContentItem :=
  let budget := match p with Bytes _ => byte_budget p | Tokens _ => token_budget p end in
  let st := foldl (truncate_item p) (mkItems [] budget 0 0) items in
  items_out st
  ++ (if (0 <? omitted_text_items st)%N
      then [InputText (lit "[omitted " ++ show (omitted_text_items st) ++ lit " text items ...]")] else [])
  ++ (if (0 <? omitted_audio_items st)%N
      then [InputText (lit "[omitted " ++ show (omitted_audio_items st) ++ lit " audio items ...]")] else []).

Definition truncate_function_output_payload (body : FunctionCallOutputBody) (p : TruncationPolicy)
    : FunctionCallOutputBody :=
  match body with
  | BodyText text => BodyText (truncate_text text p)
  | BodyItems items => BodyItems (truncate_function_output_items_with_policy items p)
  end.

End Items.

(** *** Oversized MCP results *)
Section Mcp.

(** The length of the JSON text of the replacement with a given preview;
    [None] when serialisation fails. *)
Context (replacement_len : str -> option N).

Inductive McpResult := Borrowed | Owned (preview : str).

Fixpoint preview_loop (fuel : nat) (serialized : str) (max_bytes preview_budget : N)
    : option McpResult :=
  match fuel with
  | O => None
  | S fuel =>
      let preview :=
        if (preview_budget =? 0)%N then [] else truncate_text serialized (Bytes preview_budget) in
      match replacement_len preview with
      | None => Some Borrowed
      | Some truncated_len =>
          if (truncated_len <=? max_bytes)%N || (preview_budget =? 0)%N then Some (Owned preview)
          else preview_loop fuel serialized max_bytes
                 (N.min (saturating_mul preview_budget max_bytes / truncated_len) (preview_budget - 1))
      end
  end.

(** [serialized] is the JSON text of the result itself, if it has one. *)
Definition truncate_mcp_tool_result (serialized : option str) (max_bytes : N) : option McpResult :=
  match serialized with
  | None => Some Borrowed
  | Some serialized =>
      if (blen serialized <=? max_bytes)%N then Some Borrowed
      else preview_loop (S (N.to_nat max_bytes)) serialized max_bytes max_bytes
  end.

Lemma preview_loop_result fuel serialized max_bytes budget :
  N.to_nat budget < fuel ->
  exists r, preview_loop fuel serialized max_bytes budget = Some r
    /\ match r with
       | Borrowed => exists p, replacement_len p = None
       | Owned p => (exists n, replacement_len p = Some n /\ (n <= max_bytes)%N) \/ p = []
       end.
Proof.
  revert budget. induction fuel as [|fuel IH]; intros budget Hf; [lia|]. cbn [preview_loop].
  destruct (replacement_len _) as [n|] eqn:Hn; [|eexists; split; [done|]; by eexists].
  destruct (N.leb_spec n max_bytes) as [Hle|Hgt]; cbn [orb].
  { eexists. split; [done|]. left. eauto. }
  destruct (N.eqb_spec budget 0) as [->|Hb]; [|apply IH; lia].
  eexists. split; [done|]. by right.
Qed.

(** Shrinking an oversized MCP result terminates and meets the limit. The
    loop that retries with a smaller preview always ends, within one turn per
    byte of the limit; its result is the original when that fits (or cannot be
    serialised), and otherwise a replacement whose serialised form fits the
    limit, or one with an empty preview when nothing shorter exists. *)
Theorem mcp_truncation_terminates serialized max_bytes :
  exists r, truncate_mcp_tool_result serialized max_bytes = Some r
    /\ match r with
       | Borrowed => match serialized with
                     | None => True
                     | Some s => (blen s <= max_bytes)%N \/ exists p, replacement_len p = None
                     end
       | Owned p => (exists n, replacement_len p = Some n /\ (n <= max_bytes)%N) \/ p = []
       end.
Proof.
  unfold truncate_mcp_tool_result. destruct serialized as [s|]; [|by eexists].
  destruct (N.leb_spec (blen s) max_bytes) as [Hle|Hgt]; [eexists; split; [done|]; by left|].
  destruct (preview_loop_result (S (N.to_nat max_bytes)) s max_bytes max_bytes) as (r & -> & Hr); [lia|].
  exists r. split; [done|]. destruct r; [by right|done].
Qed.

End Mcp.
End OutputTruncation.
