(* ===== verification/OutputStore.v ===== *)
(** * OutputStore: recoverable tool output

    Models core/src/tools/output_store.rs: the session's store of tool output
    with its quotas, paging and search; live streams are in StreamCapture. Each
    critical section under the store's mutex is one definition; the operations
    compose them with the file accesses between, whose failures are arguments.
    Handles are random UUIDs: a new handle is one that is not in use. *)

From Stdlib Require Import ZifyBool.
From S2P Require Import Prelude RustStr Truncate.
Import Truncation.

Module Store.

Definition MAX_OUTPUTS : N := 64.
Definition MAX_OUTPUT_BYTES : N := (32 * 1024 * 1024)%N.
Definition MAX_TOTAL_OUTPUT_BYTES : N := (128 * 1024 * 1024)%N.
Definition STREAM_CAPTURE_QUEUE_CAPACITY : N := 4096.
Definition MAX_PATTERN_BYTES : N := (4 * 1024)%N.
Definition MAX_CONTEXT_LINES : N := 20.
Definition MAX_SEARCH_MATCHES : N := 100.

Record StoredOutput := mkOutput { path : str; byte_len : N }.
Record StoreState := mkState { outputs : gmap str StoredOutput; total_bytes : N }.
Definition default_state : StoreState := mkState ∅ 0.

Record ToolOutputStoreLimits := mkLimits {
  max_outputs : N; max_output_bytes : N; max_total_output_bytes : N;
}.
Definition default_limits : ToolOutputStoreLimits :=
  mkLimits MAX_OUTPUTS MAX_OUTPUT_BYTES MAX_TOTAL_OUTPUT_BYTES.

Record StoredToolOutput := mkStored { stored_handle : str; stored_byte_len : N; token_count : N }.
Record ToolOutputRead := mkRead { read_text : str; next_offset : option N; total_tokens : N }.
Record ToolOutputSearchMatch := mkMatch {
  line_number : N; context_start_line : N; context_end_line : N; match_content : str;
}.
Record ToolOutputSearch := mkSearch {
  matches : list ToolOutputSearchMatch; total_matches : N; truncated : bool;
}.

Inductive ToolOutputStoreError :=
| Unavailable | OutputTooLarge | StorageFull | EmptyPattern | PatternTooLarge | StorageFailed.

Definition count_outputs (st : StoreState) : N := N.of_nat (size (outputs st)).
Definition output_path (handle : str) : str := handle ++ lit ".txt".

Section Limits.
Context (limits : ToolOutputStoreLimits).

(** *** The critical sections *)

Definition reserve_text (handle : str) (len : N) (st : StoreState)
    : result ToolOutputStoreError StoreState :=
  if (max_outputs limits <=? count_outputs st)%N
     || (max_total_output_bytes limits <? saturating_add (total_bytes st) len)%N
  then Err StorageFull
  else Ok (mkState (<[handle := mkOutput (output_path handle) len]> (outputs st))
             (total_bytes st + len)).

Definition reserve_stream (handle : str) (st : StoreState) : result ToolOutputStoreError StoreState :=
  if (max_outputs limits <=? count_outputs st)%N then Err StorageFull
  else Ok (mkState (<[handle := mkOutput (output_path handle) 0]> (outputs st)) (total_bytes st)).

Definition reserve_append (handle : str) (len : N) (st : StoreState)
    : result ToolOutputStoreError (str * StoreState) :=
  let new_total := saturating_add (total_bytes st) len in
  if (max_total_output_bytes limits <? new_total)%N then Err StorageFull
  else
    match outputs st !! handle with
    | None => Err Unavailable
    | Some output =>
        let new_output_len := saturating_add (byte_len output) len in
        if (max_output_bytes limits <? new_output_len)%N then Err OutputTooLarge
        else Ok (path output,
                 mkState (<[handle := mkOutput (path output) new_output_len]> (outputs st)) new_total)
    end.

(** Forgetting an output, after a failed write and in [remove_output]. *)
Definition release (handle : str) (st : StoreState) : StoreState :=
  match outputs st !! handle with
  | None => st
  | Some output => mkState (delete handle (outputs st)) (total_bytes st - byte_len output)
  end.

(** *** The operations, on the store and its directory *)

Record World := mkWorld { state : StoreState; files : gmap str (list N) }.

(** [unlinked]: whether the file could be removed; the code ignores it. *)
Definition remove_output (unlinked : bool) (handle : str) (w : World) : World :=
  match outputs (state w) !! handle with
  | None => w
  | Some output =>
      mkWorld (release handle (state w))
        (if unlinked then delete (path output) (files w) else files w)
  end.

(** What the file system does with a write; a failing one may have written a
    prefix. *)
Inductive WriteFate := WriteOk | OpenFails | WriteFails (written : nat).

Definition store_text (fate : WriteFate) (handle content : str) (w : World)
    : World * result ToolOutputStoreError StoredToolOutput :=
  let len := blen content in
  if (max_output_bytes limits <? len)%N then (w, Err OutputTooLarge)
  else
    match reserve_text handle len (state w) with
    | Err e => (w, Err e)
    | Ok st =>
        match fate with
        | WriteOk =>
            (mkWorld st (<[output_path handle := as_bytes content]> (files w)),
             Ok (mkStored handle len (approx_token_count content)))
        | OpenFails => (mkWorld (release handle st) (files w), Err StorageFailed)
        | WriteFails n =>
            (mkWorld (release handle st)
               (<[output_path handle := take n (as_bytes content)]> (files w)),
             Err StorageFailed)
        end
    end.

Definition start_stream (create_ok : bool) (handle : str) (w : World)
    : World * result ToolOutputStoreError unit :=
  if negb create_ok then (w, Err StorageFailed)
  else
    let w := mkWorld (state w) (<[output_path handle := []]> (files w)) in
    match reserve_stream handle (state w) with
    | Err e => (w, Err e)
    | Ok st => (mkWorld st (files w), Ok tt)
    end.

(** The file is opened for appending, not created: opening a missing one
    fails. *)
Definition append_stream (fate : WriteFate) (unlinked : bool) (handle : str) (bytes : list N) (w : World)
    : World * result ToolOutputStoreError unit :=
  match reserve_append handle (lenN bytes) (state w) with
  | Err e => (w, Err e)
  | Ok (p, st) =>
      let failed fs := (remove_output unlinked handle (mkWorld st fs), Err StorageFailed) in
      match files w !! p, fate with
      | None, _ | _, OpenFails => failed (files w)
      | Some old, WriteOk => (mkWorld st (<[p := old ++ bytes]> (files w)), Ok tt)
      | Some old, WriteFails n => failed (<[p := old ++ take n bytes]> (files w))
      end
  end.

Definition stream_output (handle : str) (w : World) : option StoredToolOutput :=
  (fun output => mkStored handle (byte_len output) (saturating_add (byte_len output) 3 / 4)%N)
    <$> outputs (state w) !! handle.

End Limits.

(** *** Reading *)

Definition read_content (handle : str) (w : World) : result ToolOutputStoreError str :=
  output ← ok_or (outputs (state w) !! handle) Unavailable;
  bytes ← ok_or (files w !! path output) Unavailable;
  Ok (from_utf8_lossy bytes).

(** The loop that steps back to a char boundary. *)
Fixpoint step_back (content : str) (index : nat) : nat :=
  match index with
  | O => O
  | S index' => if is_char_boundary content (N.of_nat index) then index else step_back content index'
  end.
Definition char_boundary_at_or_before (content : str) (offset : N) : N :=
  N.of_nat (step_back content (N.to_nat (N.min offset (blen content)))).

(** [&content[start..end]] *)
Definition byte_slice (start end_ : N) (s : str) : str := byte_drop start (byte_prefix end_ s).

Definition read_page (content : str) (offset max_tokens : N) : ToolOutputRead :=
  let start := char_boundary_at_or_before content (approx_bytes_for_tokens offset) in
  let end_ := char_boundary_at_or_before content
                (saturating_add start (approx_bytes_for_tokens max_tokens)) in
  let page := byte_slice start end_ content in
  mkRead page
    (if (end_ <? blen content)%N then Some (saturating_add (approx_token_count page) offset) else None)
    (approx_token_count content).

Definition read (handle : str) (offset max_tokens : N) (w : World)
    : result ToolOutputStoreError ToolOutputRead :=
  content ← read_content handle w; Ok (read_page content offset max_tokens).

(** *** Searching *)

Record SearchState := mkSearchState {
  s_matches : list ToolOutputSearchMatch; s_total : N; s_consumed : N; s_truncated : bool;
}.

Definition context_of (ls : list str) (index context_lines : N) : N * N * str :=
  let context_start := (index - context_lines)%N in
  let context_end := N.min (saturating_add index context_lines) (lenN ls - 1) in
  (context_start, context_end,
   join [nl] (takeN (context_end + 1 - context_start) (dropN context_start ls))).

Definition search_line (ls : list str) (pattern : str) (context_lines max_tokens : N)
    (st : SearchState) (entry : nat * str) : SearchState :=
  let '(i, line) := entry in
  let index := N.of_nat i in
  if negb (contains pattern line) then st
  else
    let total := (s_total st + 1)%N in
    if (MAX_SEARCH_MATCHES <=? lenN (s_matches st))%N
    then mkSearchState (s_matches st) total (s_consumed st) true
    else
      let '(context_start, context_end, context) := context_of ls index context_lines in
      let context_tokens := approx_token_count context in
      if (max_tokens <? saturating_add (s_consumed st) context_tokens)%N
      then mkSearchState (s_matches st) total (s_consumed st) true
      else mkSearchState
             (s_matches st ++ [mkMatch (index + 1) (context_start + 1) (context_end + 1) context])
             total (s_consumed st + context_tokens) (s_truncated st).

Definition search_text (content pattern : str) (context_lines max_tokens : N) : ToolOutputSearch :=
  let ls := lines content in
  let context_lines := N.min context_lines MAX_CONTEXT_LINES in
  let st := foldl (search_line ls pattern context_lines max_tokens) (mkSearchState [] 0 0 false)
              (enumerate ls) in
  mkSearch (s_matches st) (s_total st) (s_truncated st).

Definition search (handle pattern : str) (context_lines max_tokens : N) (w : World)
    : result ToolOutputStoreError ToolOutputSearch :=
  if is_empty pattern then Err EmptyPattern
  else if (MAX_PATTERN_BYTES <? blen pattern)%N then Err PatternTooLarge
  else content ← read_content handle w; Ok (search_text content pattern context_lines max_tokens).

(** ** Quotas *)

Definition stored_bytes (m : gmap str StoredOutput) : N :=
  map_fold (fun _ o acc => (byte_len o + acc)%N) 0%N m.

Lemma stored_bytes_insert h o m :
  m !! h = None -> stored_bytes (<[h := o]> m) = (byte_len o + stored_bytes m)%N.
Proof. intros H. unfold stored_bytes. rewrite map_fold_insert_L; [done|intros; lia|done]. Qed.
Lemma stored_bytes_delete h o m :
  m !! h = Some o -> stored_bytes m = (byte_len o + stored_bytes (delete h m))%N.
Proof. intros H. unfold stored_bytes. rewrite (map_fold_delete_L _ _ h o m); [done|intros; lia|done]. Qed.

Section Quota.
Context (limits : ToolOutputStoreLimits).
Hypothesis limits_fit :
  (max_output_bytes limits < usize_max)%N /\ (max_total_output_bytes limits < usize_max)%N.

(** The counter is exact and no limit is exceeded. *)
Definition quota (st : StoreState) : Prop :=
  total_bytes st = stored_bytes (outputs st)
  /\ (total_bytes st <= max_total_output_bytes limits)%N
  /\ map_Forall (fun _ o => byte_len o <= max_output_bytes limits)%N (outputs st)
  /\ (count_outputs st <= max_outputs limits)%N.

(** Every way the locked state changes, in any order and interleaving. *)
Inductive section_step : StoreState -> StoreState -> Prop :=
| step_text handle len st st' :
    outputs st !! handle = None -> (len <= max_output_bytes limits)%N ->
    reserve_text limits handle len st = Ok st' -> section_step st st'
| step_stream handle st st' :
    outputs st !! handle = None -> reserve_stream limits handle st = Ok st' -> section_step st st'
| step_append handle len st st' p :
    reserve_append limits handle len st = Ok (p, st') -> section_step st st'
| step_release handle st : section_step st (release handle st).

Lemma reserve_text_quota handle len st st' :
  outputs st !! handle = None -> (len <= max_output_bytes limits)%N ->
  reserve_text limits handle len st = Ok st' -> quota st -> quota st'.
Proof.
  intros Hnew Hlen H (Hsum & Htot & Hall & Hcnt). revert H. unfold reserve_text.
  destruct (_ || _) eqn:E; [done|]. apply orb_false_iff in E as [E1 E2].
  unfold saturating_add in E2. intros [= <-]. unfold quota, count_outputs in *. simpl. split_and!.
  - rewrite stored_bytes_insert by done. simpl. lia.
  - lia.
  - apply map_Forall_insert_2; [done|exact Hall].
  - rewrite map_size_insert_None by done. lia.
Qed.

Lemma reserve_stream_quota handle st st' :
  outputs st !! handle = None -> reserve_stream limits handle st = Ok st' -> quota st -> quota st'.
Proof.
  intros Hnew H (Hsum & Htot & Hall & Hcnt). revert H. unfold reserve_stream.
  destruct (_ <=? _)%N eqn:E; [done|]. intros [= <-]. unfold quota, count_outputs in *. simpl. split_and!.
  - rewrite stored_bytes_insert by done. simpl. lia.
  - done.
  - apply map_Forall_insert_2; [simpl; lia|exact Hall].
  - rewrite map_size_insert_None by done. lia.
Qed.

Lemma reserve_append_quota handle len st st' p :
  reserve_append limits handle len st = Ok (p, st') -> quota st -> quota st'.
Proof.
  intros H (Hsum & Htot & Hall & Hcnt). revert H. unfold reserve_append.
  destruct (_ <? _)%N eqn:E1; [done|]. destruct (outputs st !! handle) as [o|] eqn:Ho; [|done].
  destruct (_ <? saturating_add (byte_len o) len)%N eqn:E2; [done|]. intros [= <- <-].
  unfold saturating_add in *. unfold quota, count_outputs in *. simpl. split_and!.
  - rewrite <- insert_delete_eq, stored_bytes_insert by apply lookup_delete_eq. simpl.
    rewrite (stored_bytes_delete _ _ _ Ho) in Hsum. lia.
  - lia.
  - apply map_Forall_insert_2; [simpl; lia|exact Hall].
  - rewrite map_size_insert_Some; [done|by eexists].
Qed.

Lemma release_quota handle st : quota st -> quota (release handle st).
Proof.
  intros (Hsum & Htot & Hall & Hcnt). unfold release.
  destruct (outputs st !! handle) as [o|] eqn:Ho; [|by split_and!].
  unfold quota, count_outputs in *. simpl. rewrite (stored_bytes_delete _ _ _ Ho) in Hsum. split_and!.
  - lia.
  - lia.
  - by apply map_Forall_delete.
  - rewrite map_size_delete_Some by (by eexists). lia.
Qed.

Lemma section_step_quota st st' : section_step st st' -> quota st -> quota st'.
Proof.
  destruct 1; [by eapply reserve_text_quota|by eapply reserve_stream_quota
    |by eapply reserve_append_quota|by apply release_quota].
Qed.

(** The operations change the locked state only through those sections. *)
Lemma operations_are_sections :
  (forall fate h c w, outputs (state w) !! h = None ->
     rtc section_step (state w) (state (store_text limits fate h c w).1))
  /\ (forall ok h w, outputs (state w) !! h = None ->
     rtc section_step (state w) (state (start_stream limits ok h w).1))
  /\ (forall fate u h bs w, rtc section_step (state w) (state (append_stream limits fate u h bs w).1))
  /\ (forall u h w, rtc section_step (state w) (state (remove_output u h w))).
Proof.
  assert (Hrem : forall u h w, rtc section_step (state w) (state (remove_output u h w))).
  { intros u h w. unfold remove_output. destruct (outputs (state w) !! h); [|reflexivity].
    apply rtc_once, step_release. }
  split_and!; [..|done].
  - intros fate h c w Hnew. unfold store_text. destruct (_ <? _)%N eqn:E; [reflexivity|].
    destruct (reserve_text limits h (blen c) (state w)) as [st|e] eqn:Hr; [|reflexivity].
    eapply rtc_l; [eapply step_text; [exact Hnew| |exact Hr]; lia|].
    destruct fate; simpl; [reflexivity|..]; apply rtc_once, step_release.
  - intros ok h w Hnew. unfold start_stream. destruct ok; simpl; [|reflexivity].
    destruct (reserve_stream limits h (state w)) as [st|e] eqn:Hr; simpl; [|reflexivity].
    by eapply rtc_once, step_stream.
  - intros fate u h bs w. unfold append_stream.
    destruct (reserve_append limits h (lenN bs) (state w)) as [[p st]|e] eqn:Hr; [|reflexivity].
    eapply rtc_l; [by eapply step_append|].
    assert (Hfail : forall fs, rtc section_step st (state (remove_output u h (mkWorld st fs))))
      by (intros fs; apply (Hrem u h (mkWorld st fs))).
    destruct (files w !! p), fate; simpl; try apply Hfail; reflexivity.
Qed.

Lemma quota_default : quota default_state.
Proof.
  unfold quota, default_state, count_outputs. simpl. rewrite map_size_empty.
  split_and!; [done|lia|apply map_Forall_empty|lia].
Qed.

Lemma quota_reachable st : rtc section_step default_state st -> quota st.
Proof.
  intros H. assert (Hg : forall a b, rtc section_step a b -> quota a -> quota b).
  { clear st H. induction 1; [done|]. eauto using section_step_quota. }
  exact (Hg _ _ H quota_default).
Qed.

(** The quotas hold under every interleaving. Each operation changes the
    locked state only in a few critical sections; after any sequence of such
    sections, from any mixture of operations and failures, the byte counter is
    the exact sum of the stored lengths, neither it nor any single output
    exceeds its limit, and there are no more outputs than allowed. *)
Theorem store_quota_invariant :
  (forall st, rtc section_step default_state st -> quota st)
  /\ (forall fate h c w, outputs (state w) !! h = None ->
       rtc section_step (state w) (state (store_text limits fate h c w).1))
  /\ (forall ok h w, outputs (state w) !! h = None ->
       rtc section_step (state w) (state (start_stream limits ok h w).1))
  /\ (forall fate u h bs w, rtc section_step (state w) (state (append_stream limits fate u h bs w).1))
  /\ (forall u h w, rtc section_step (state w) (state (remove_output u h w))).
Proof. split; [exact quota_reachable|exact operations_are_sections]. Qed.

End Quota.

Lemma store_quota_invariant_witness :
  quota default_limits
    (state (store_text default_limits WriteOk (lit "out_1") (lit "text") (mkWorld default_state ∅)).1).
Proof.
  assert (Hfit : (max_output_bytes default_limits < usize_max)%N
                 /\ (max_total_output_bytes default_limits < usize_max)%N)
    by (split; apply N.ltb_lt; vm_compute; reflexivity).
  destruct (store_quota_invariant default_limits Hfit) as (Hq & Htext & _).
  apply Hq, (Htext WriteOk (lit "out_1") (lit "text") (mkWorld default_state ∅)). reflexivity.
Defined.

(** ** Paging *)

Lemma step_back_spec content k :
  step_back content k <= k /\ (step_back content k = 0 \/ is_char_boundary content (N.of_nat (step_back content k)) = true)
  /\ forall j, step_back content k < j -> j <= k -> is_char_boundary content (N.of_nat j) = false.
Proof.
  induction k as [|k (IH1 & IH2 & IH3)]; [split_and!; [done|by left|lia]|].
  cbn [step_back]. destruct (is_char_boundary content (N.of_nat (S k))) eqn:E.
  - split_and!; [done|by right|lia].
  - split_and!; [lia|done|]. intros j H1 H2. destruct (decide (j = S k)) as [->|]; [done|].
    apply IH3; lia.
Qed.

(** ASCII text: offsets are positions. *)
Definition is_ascii (s : str) : Prop := Forall (fun c => c < 128)%N s.

Lemma ascii_len c : (c < 128)%N -> len_utf8 c = 1%N.
Proof. intros H. unfold len_utf8. by rewrite (proj2 (N.ltb_lt _ _)). Qed.
Lemma ascii_blen s : is_ascii s -> blen s = lenN s.
Proof.
  induction 1 as [|c s Hc _ IH]; [done|]. rewrite lenN_cons. simpl. by rewrite ascii_len, IH.
Qed.
Lemma ascii_prefix n s : is_ascii s -> byte_prefix n s = takeN n s.
Proof.
  intros H. revert n. induction H as [|c s Hc _ IH]; intros n; simpl; [by unfold takeN; rewrite take_nil|].
  rewrite ascii_len by done. destruct (N.leb_spec 1 n).
  - rewrite IH. unfold takeN. replace (N.to_nat n) with (S (N.to_nat (n - 1))) by lia. done.
  - by replace n with 0%N by lia.
Qed.
Lemma ascii_drop n s : is_ascii s -> byte_drop n s = dropN n s.
Proof.
  intros H. revert n. induction H as [|c s Hc _ IH]; intros n; simpl; [by unfold dropN; rewrite drop_nil|].
  rewrite ascii_len by done. destruct (N.eqb_spec n 0) as [->|]; [done|].
  rewrite IH. unfold dropN. replace (N.to_nat n) with (S (N.to_nat (n - 1))) by lia. done.
Qed.
Lemma ascii_boundary s n : is_ascii s -> is_char_boundary s n = (n <=? lenN s)%N.
Proof.
  intros H. unfold is_char_boundary, floor_char_boundary. rewrite ascii_prefix by done.
  rewrite ascii_blen by (by apply Forall_take). rewrite lenN_takeN. lia.
Qed.
Lemma ascii_floor s n :
  is_ascii s -> char_boundary_at_or_before s n = N.min n (lenN s).
Proof.
  intros H. unfold char_boundary_at_or_before. rewrite ascii_blen by done.
  set (k := N.to_nat (N.min n (lenN s))). destruct k as [|k'] eqn:E; [simpl; lia|].
  cbn [step_back]. rewrite ascii_boundary by done.
  rewrite (proj2 (N.leb_le _ _)); lia.
Qed.

(** Reading on from [offset] until there is no next page. *)
Fixpoint pages (fuel : nat) (content : str) (offset max_tokens : N) : option str :=
  match fuel with
  | O => None
  | S fuel =>
      let r := read_page content offset max_tokens in
      match next_offset r with
      | None => Some (read_text r)
      | Some next => app (read_text r) <$> pages fuel content next max_tokens
      end
  end.

Lemma read_page_ascii s offset max_tokens :
  is_ascii s -> (lenN s + 8 <= usize_max)%N -> (1 <= max_tokens)%N -> (4 * offset <= lenN s)%N ->
  let size := N.min (lenN s - 4 * offset) (approx_bytes_for_tokens max_tokens) in
  read_text (read_page s offset max_tokens) = takeN size (dropN (4 * offset) s)
  /\ next_offset (read_page s offset max_tokens)
     = if (size <? lenN s - 4 * offset)%N then Some (offset + max_tokens)%N else None.
Proof.
  intros Ha Hfit Hmax Hoff size. unfold read_page. cbn [read_text next_offset].
  assert (Hstart : char_boundary_at_or_before s (approx_bytes_for_tokens offset) = (4 * offset)%N).
  { rewrite ascii_floor by done. unfold approx_bytes_for_tokens, APPROX_BYTES_PER_TOKEN.
    rewrite saturating_mul_fits by lia. lia. }
  rewrite Hstart, (ascii_floor s (saturating_add _ _) Ha), ascii_blen by done.
  unfold byte_slice. rewrite ascii_prefix, ascii_drop by (done || by apply Forall_take).
  set (b := approx_bytes_for_tokens max_tokens) in *.
  assert (Hb : (b <= usize_max)%N) by (unfold b, approx_bytes_for_tokens, saturating_mul; lia).
  assert (Hend : N.min (saturating_add (4 * offset) b) (lenN s) = (4 * offset + size)%N).
  { unfold saturating_add, size. lia. }
  rewrite Hend.
  assert (Hpage : dropN (4 * offset) (takeN (4 * offset + size) s) = takeN size (dropN (4 * offset) s)).
  { unfold dropN, takeN. rewrite skipn_firstn_comm. f_equal. lia. }
  rewrite Hpage. split; [done|].
  destruct (N.ltb_spec (4 * offset + size) (lenN s)) as [Hlt|Hge].
  - rewrite (proj2 (N.ltb_lt _ _)) by lia. f_equal. unfold approx_token_count, APPROX_BYTES_PER_TOKEN.
    rewrite ascii_blen by (by apply Forall_take, Forall_drop). rewrite lenN_takeN, lenN_dropN.
    assert (Hs : size = (4 * max_tokens)%N).
    { unfold size, b, approx_bytes_for_tokens, APPROX_BYTES_PER_TOKEN, saturating_mul in *. lia. }
    rewrite Hs, N.min_l by lia. rewrite (saturating_add_fits (4 * max_tokens)) by lia.
    replace ((4 * max_tokens + (4 - 1)) / 4)%N with max_tokens.
    + rewrite saturating_add_fits; lia.
    + apply (N.div_unique _ _ _ 3); lia.
  - by rewrite (proj2 (N.ltb_ge _ _)) by lia.
Qed.

Lemma pages_ascii fuel s offset max_tokens :
  is_ascii s -> (lenN s + 8 <= usize_max)%N -> (1 <= max_tokens)%N -> (4 * offset <= lenN s)%N ->
  (lenN s - 4 * offset < N.of_nat fuel)%N ->
  pages fuel s offset max_tokens = Some (dropN (4 * offset) s).
Proof.
  intros Ha Hfit Hmax. revert offset. induction fuel as [|fuel IH]; intros offset Hoff Hf; [lia|].
  cbn [pages]. destruct (read_page_ascii s offset max_tokens Ha Hfit Hmax Hoff) as [-> ->].
  set (size := N.min _ _). destruct (N.ltb_spec size (lenN s - 4 * offset)) as [Hlt|Hge].
  - assert (Hs : size = (4 * max_tokens)%N).
    { unfold size, approx_bytes_for_tokens, APPROX_BYTES_PER_TOKEN, saturating_mul in *. lia. }
    rewrite IH by lia. cbn [fmap option_fmap option_map]. f_equal.
    rewrite Hs. replace (4 * (offset + max_tokens))%N with (4 * offset + 4 * max_tokens)%N by lia.
    unfold takeN, dropN. rewrite <- (take_drop (N.to_nat (4 * max_tokens)) (drop (N.to_nat (4 * offset)) s)) at 2.
    f_equal. rewrite drop_drop. f_equal. lia.
  - f_equal. apply take_ge. fold (lenN (dropN (4 * offset) s)). pose proof (lenN_dropN (4 * offset) s) as Hd. unfold lenN in *. lia.
Qed.

(** Paging through ASCII output loses nothing. Starting at offset zero
    and following the offsets that [read] returns, with any page size of at
    least one token, ends after finitely many pages, and their concatenation is
    the stored text. *)
Theorem paging_lossless_ascii s max_tokens :
  is_ascii s -> (lenN s + 8 <= usize_max)%N -> (1 <= max_tokens)%N ->
  pages (S (length s)) s 0 max_tokens = Some s.
Proof.
  intros Ha Hfit Hmax. rewrite pages_ascii; [done|done|done|done|lia|]. unfold lenN. lia.
Qed.

Lemma paging_lossless_ascii_witness :
  pages 12 (lit "hello world") 0 1 = Some (lit "hello world").
Proof.
  apply (paging_lossless_ascii (lit "hello world") 1).
  - repeat constructor.
  - apply N.leb_le. vm_compute. reflexivity.
  - reflexivity.
Defined.

(** With a four-byte character in an odd place the offsets skip text: the pages
    of these 13 bytes, one token each, miss the letters after the emoji. *)
Theorem paging_skips_text :
  let s := lit "a" ++ [128512%N] ++ lit "bcdefgh" in
  pages 13 s 0 1 = Some (lit "a" ++ [128512%N] ++ lit "efgh").
Proof. vm_compute. reflexivity. Qed.

End Store.
