(* ===== verification/StreamCapture.v ===== *)
(** * StreamCapture: the live capture of a process stream

    Models [ToolOutputStream] of core/src/tools/output_store.rs as a state
    machine: any number of concurrent [append] and [discard] calls, the writer
    task that [start_stream] spawns, and the rest of the session using the same
    store. Every access to a shared atomic, to the queue, to the locked store or
    to the file is one step, so that all interleavings are runs. The queue is
    tokio's bounded channel: a FIFO that refuses a chunk when it is full. *)

From Stdlib Require Import ZifyBool.
From S2P Require Import Prelude RustStr Truncate OutputStore.
Import Store.

#[export] Instance StoredOutput_eq_dec : EqDecision StoredOutput.
Proof. solve_decision. Defined.

Module Capture.

(** Where a call of [append] stands. *)
Inductive AppendPc :=
| Started (b : list N)      (** before [disabled.load] *)
| Loaded (b : list N)       (** [disabled] was false *)
| Counted (b : list N)      (** after [pending_chunks.fetch_add] *)
| Full (b : list N)         (** [try_send] failed *)
| Uncounted (b : list N)    (** after [pending_chunks.fetch_sub] *)
| Disabling (b : list N).   (** after [disabled.store(true)] *)

(** Where the writer task stands. *)
Inductive WriterPc :=
| Receiving
| Received (b : list N)
| Appending (b : list N)                 (** in [append_stream], before its lock *)
| Writing (p : str) (b : list N)         (** [b] is reserved and not yet written *)
| Removing                               (** the file access failed *)
| Failed                                 (** [append_stream] returned an error *)
| FailedDisabled                         (** after [disabled.store(true)] *)
| Finishing.

Record Capture := mkCapture {
  world : World;
  disabled : bool;
  pending_chunks : N;
  queue : list (list N);
  writer : WriterPc;
  appends : list AppendPc;
  discards : nat;
  (** ghost: the chunks sent, in order, and those an [append] returned without
      sending *)
  sent : list (list N);
  refused : list (list N);
}.

Inductive Event :=
| CallAppend (b : list N)
| StepAppend (i : nat) (unlinked : bool)
| StepWriter (unlinked : bool)
| WriteSome (n : nat)
| WriteError
| CallDiscard
| FinishDiscard (unlinked : bool)
| Unlink
| Environment (w : World).

Section Machine.
Context (limits : ToolOutputStoreLimits) (capacity : N) (handle : str).

Definition upd_append (i : nat) (a : AppendPc) (c : Capture) : Capture :=
  mkCapture (world c) (disabled c) (pending_chunks c) (queue c) (writer c)
    (<[i := a]> (appends c)) (discards c) (sent c) (refused c).
Definition end_append (i : nat) (c : Capture) : Capture :=
  mkCapture (world c) (disabled c) (pending_chunks c) (queue c) (writer c)
    (delete i (appends c)) (discards c) (sent c) (refused c).
Definition upd_pending (n : N) (c : Capture) : Capture :=
  mkCapture (world c) (disabled c) n (queue c) (writer c) (appends c) (discards c) (sent c) (refused c).
Definition upd_disabled (c : Capture) : Capture :=
  mkCapture (world c) true (pending_chunks c) (queue c) (writer c) (appends c) (discards c)
    (sent c) (refused c).
Definition upd_world (w : World) (c : Capture) : Capture :=
  mkCapture w (disabled c) (pending_chunks c) (queue c) (writer c) (appends c) (discards c)
    (sent c) (refused c).
Definition upd_writer (pc : WriterPc) (c : Capture) : Capture :=
  mkCapture (world c) (disabled c) (pending_chunks c) (queue c) pc (appends c) (discards c)
    (sent c) (refused c).
Definition upd_queue (q : list (list N)) (c : Capture) : Capture :=
  mkCapture (world c) (disabled c) (pending_chunks c) q (writer c) (appends c) (discards c)
    (sent c) (refused c).
Definition upd_discards (n : nat) (c : Capture) : Capture :=
  mkCapture (world c) (disabled c) (pending_chunks c) (queue c) (writer c) (appends c) n
    (sent c) (refused c).
Definition note_sent (b : list N) (c : Capture) : Capture :=
  mkCapture (world c) (disabled c) (pending_chunks c) (queue c ++ [b]) (writer c) (appends c)
    (discards c) (sent c ++ [b]) (refused c).
Definition note_refused (b : list N) (c : Capture) : Capture :=
  mkCapture (world c) (disabled c) (pending_chunks c) (queue c) (writer c) (appends c)
    (discards c) (sent c) (refused c ++ [b]).

(** One step of the [i]-th running call of [append]. *)
Definition step_append (i : nat) (unlinked : bool) (c : Capture) : option Capture :=
  match appends c !! i with
  | None => None
  | Some (Started b) =>
      if disabled c then Some (note_refused b (end_append i c)) else Some (upd_append i (Loaded b) c)
  | Some (Loaded b) => Some (upd_pending (pending_chunks c + 1) (upd_append i (Counted b) c))
  | Some (Counted b) =>
      if (lenN (queue c) <? capacity)%N then Some (note_sent b (end_append i c))
      else Some (upd_append i (Full b) c)
  | Some (Full b) => Some (upd_pending (pending_chunks c - 1) (upd_append i (Uncounted b) c))
  | Some (Uncounted b) => Some (upd_disabled (upd_append i (Disabling b) c))
  | Some (Disabling b) =>
      Some (note_refused b (end_append i (upd_world (remove_output unlinked handle (world c)) c)))
  end.

(** One step of the writer task, file writes apart. *)
Definition step_writer (unlinked : bool) (c : Capture) : option Capture :=
  match writer c with
  | Receiving =>
      match queue c with
      | [] => None
      | b :: q => Some (upd_writer (Received b) (upd_queue q c))
      end
  | Received b => Some (upd_writer (if disabled c then Finishing else Appending b) c)
  | Appending b =>
      match reserve_append limits handle (lenN b) (state (world c)) with
      | Err _ => Some (upd_writer Failed c)
      | Ok (p, st) => Some (upd_writer (Writing p b) (upd_world (mkWorld st (files (world c))) c))
      end
  | Writing p b => if is_empty b then Some (upd_writer Finishing c) else None
  | Removing => Some (upd_writer Failed (upd_world (remove_output unlinked handle (world c)) c))
  | Failed => Some (upd_disabled (upd_writer FailedDisabled c))
  | FailedDisabled =>
      Some (upd_writer Finishing (upd_world (remove_output unlinked handle (world c)) c))
  | Finishing => Some (upd_pending (pending_chunks c - 1) (upd_writer Receiving c))
  end.

Definition write_some (n : nat) (c : Capture) : option Capture :=
  match writer c with
  | Writing p b =>
      (fun old => upd_writer (Writing p (drop n b))
         (upd_world (mkWorld (state (world c)) (<[p := old ++ take n b]> (files (world c)))) c))
        <$> files (world c) !! p
  | _ => None
  end.

Definition write_error (c : Capture) : option Capture :=
  match writer c with Writing _ _ => Some (upd_writer Removing c) | _ => None end.

(** Removing a file that the store no longer lists, at any later time. *)
Definition unlink (c : Capture) : option Capture :=
  match outputs (state (world c)) !! handle with
  | Some _ => None
  | None => Some (upd_world (mkWorld (state (world c)) (delete (output_path handle) (files (world c)))) c)
  end.

(** The rest of the session leaves this output and its file alone. *)
Definition preserves (w w' : World) : bool :=
  bool_decide (outputs (state w') !! handle = outputs (state w) !! handle)
  && bool_decide (files w' !! output_path handle = files w !! output_path handle).

Definition exec (e : Event) (c : Capture) : option Capture :=
  match e with
  | CallAppend b =>
      Some (mkCapture (world c) (disabled c) (pending_chunks c) (queue c) (writer c)
              (appends c ++ [Started b]) (discards c) (sent c) (refused c))
  | StepAppend i u => step_append i u c
  | StepWriter u => step_writer u c
  | WriteSome n => write_some n c
  | WriteError => write_error c
  | CallDiscard => Some (upd_disabled (upd_discards (S (discards c)) c))
  | FinishDiscard u =>
      match discards c with
      | O => None
      | S n => Some (upd_discards n (upd_world (remove_output u handle (world c)) c))
      end
  | Unlink => unlink c
  | Environment w => if preserves (world c) w then Some (upd_world w c) else None
  end.

Definition step (c c' : Capture) : Prop := exists e, exec e c = Some c'.

(** The state when [start_stream] returns in a world it has prepared. *)
Definition initial (w : World) : Capture := mkCapture w false 0 [] Receiving [] 0 [] [].

Definition run (es : list Event) (c : Capture) : option Capture :=
  foldl (fun o e => c ← o; exec e c) (Some c) es.

(** [recoverable_output]: it waits until it loads [pending_chunks] as zero in
    [c1], loads [disabled] in [c2] and asks the store in [c3]. *)
Definition recoverable_output (c1 c2 c3 : Capture) : option (option StoredToolOutput) :=
  if (pending_chunks c1 =? 0)%N
  then Some (if disabled c2 then None else stream_output handle (world c3))
  else None.

(** ** The invariant *)

Definition counted (a : AppendPc) : N := match a with Counted _ | Full _ => 1 | _ => 0 end%N.
Definition counted_appends (l : list AppendPc) : N := foldr (fun a n => counted a + n)%N 0%N l.
Definition is_disabling (a : AppendPc) : Prop := match a with Disabling _ => True | _ => False end.
Definition busy (pc : WriterPc) : N := match pc with Receiving => 0 | _ => 1 end%N.
Definition in_hand (pc : WriterPc) : list N :=
  match pc with Received b | Appending b | Writing _ b => b | _ => [] end.
Definition reserved (pc : WriterPc) : N := match pc with Writing _ b => lenN b | _ => 0 end%N.
Definition failing (pc : WriterPc) : bool :=
  match pc with Removing | Failed | FailedDisabled => true | _ => false end.
Definition committed (pc : WriterPc) : bool :=
  match pc with Appending _ | Writing _ _ => true | _ => false end.

(** What is left to the writer completes the file to all that was sent. *)
Definition exact (c : Capture) (f : list N) : Prop :=
  concat (sent c) = f ++ in_hand (writer c) ++ concat (queue c).

Record stored_file (c : Capture) (o : StoredOutput) (f : list N) : Prop := {
  sf_path : path o = output_path handle;
  sf_file : files (world c) !! output_path handle = Some f;
  sf_prefix : f `prefix_of` concat (sent c);
  sf_exact : failing (writer c) = false -> disabled c = false \/ committed (writer c) = true -> exact c f;
  sf_len : (lenN f + reserved (writer c) <= byte_len o)%N;
  sf_len_exact : writer c <> Removing -> byte_len o = (lenN f + reserved (writer c))%N;
}.

Record counters_inv (c : Capture) : Prop := {
  ci_pending :
    pending_chunks c = (lenN (queue c) + busy (writer c) + counted_appends (appends c))%N;
  ci_disabled :
    refused c <> [] \/ Exists is_disabling (appends c) \/ discards c <> 0
    \/ writer c = FailedDisabled -> disabled c = true;
}.

Record file_inv (c : Capture) : Prop := {
  fi_listed : disabled c = false -> failing (writer c) = false ->
    is_Some (outputs (state (world c)) !! handle);
  fi_writing : forall p b, writer c = Writing p b -> p = output_path handle;
  fi_file : forall o, outputs (state (world c)) !! handle = Some o -> exists f, stored_file c o f;
}.

Definition inv (c : Capture) : Prop := counters_inv c /\ file_inv c.

Lemma counted_appends_app l k : counted_appends (l ++ k) = (counted_appends l + counted_appends k)%N.
Proof. induction l as [|a l IH]; simpl; lia. Qed.

Lemma counted_appends_split l i a :
  l !! i = Some a ->
  (counted_appends l = counted a + counted_appends (delete i l))%N
  /\ forall a', counted_appends (<[i := a']> l) = (counted a' + counted_appends (delete i l))%N.
Proof.
  revert i. induction l as [|b l IH]; intros [|i] H; simplify_eq/=; [done|].
  destruct (IH i H) as [H1 H2]. split; [lia|]. intros a'. rewrite H2. lia.
Qed.

Lemma Exists_delete {A} (P : A -> Prop) i l : Exists P (delete i l) -> Exists P l.
Proof.
  revert i. induction l as [|b l IH]; intros [|i] H; simpl in *; [done..|by right|].
  inversion H; subst; [by left|right; eauto].
Qed.
Lemma Exists_insert {A} (P : A -> Prop) i (a : A) l : Exists P (<[i := a]> l) -> P a \/ Exists P l.
Proof.
  revert i. induction l as [|b l IH]; intros [|i] H; simpl in *; try (by inversion H).
  - inversion H; subst; [by left|right; by right].
  - inversion H as [|? ? H']; subst; [right; by left|].
    destruct (IH i H'); [by left|right; by right].
Qed.

(** *** Counters *)

Lemma counters_step_append i u c c' :
  step_append i u c = Some c' -> counters_inv c -> counters_inv c'.
Proof.
  unfold step_append. intros H [Hp Hd]. destruct (appends c !! i) as [a|] eqn:Ha; [|done].
  destruct (counted_appends_split _ _ _ Ha) as [Hs Hi].
  assert (Hx : is_disabling a -> disabled c = true).
  { intros Hdis. apply Hd. right. left. apply Exists_exists. exists a.
    split; [by eapply list_elem_of_lookup_2|done]. }
  destruct a; repeat case_match; simplify_eq/=;
    (split; simpl;
     [rewrite ?Hi, ?lenN_app, ?lenN_cons; simpl in *; unfold lenN in *; simpl; lia
     |intros [Hr|[He|Ho]];
        try apply Exists_delete in He; try (apply Exists_insert in He as [[]|He]);
        first [done|apply Hx; done|apply Hd; tauto|discriminate Hd; tauto]]).
Qed.

Lemma counters_step_writer u c c' :
  step_writer u c = Some c' -> counters_inv c -> counters_inv c'.
Proof.
  unfold step_writer. intros H [Hp Hd]. destruct (writer c) eqn:Hw;
    repeat case_match; simplify_eq/=; (split; simpl; [|try done; intros; try apply Hd; try (discriminate Hd); naive_solver]);
    rewrite ?Hw in *; rewrite ?lenN_cons in *; simpl in *; try lia.
Qed.

(** *** The file *)

(** The part of the state that [file_inv] is about. *)
Definition same_view (c c' : Capture) : Prop :=
  world c' = world c /\ disabled c' = disabled c /\ queue c' = queue c
  /\ writer c' = writer c /\ sent c' = sent c.

Lemma file_inv_view c c' : same_view c c' -> file_inv c -> file_inv c'.
Proof.
  intros (Ew & Ed & Eq & Ewr & Es) [H1 H2 H3].
  split; rewrite ?Ew, ?Ed, ?Ewr; [done..|]. intros o Ho. destruct (H3 o Ho) as [f [? ? ? ? ? ?]].
  exists f. split; unfold exact; rewrite ?Ew, ?Ed, ?Ewr, ?Es, ?Eq; done.
Qed.

Lemma file_inv_disable c : file_inv c -> file_inv (upd_disabled c).
Proof.
  intros [H1 H2 H3]. split; simpl; [done..|]. intros o Ho.
  destruct (H3 o Ho) as [f [? ? ? Hex ? ?]]. exists f. split; simpl; try done.
  intros Hf [?|?]; [done|]. apply Hex; auto.
Qed.

Lemma file_inv_sent b c : file_inv c -> file_inv (note_sent b c).
Proof.
  intros [H1 H2 H3]. split; simpl; [done..|]. intros o Ho.
  destruct (H3 o Ho) as [f [? ? Hpre Hex ? ?]]. exists f. split; simpl; try done.
  - rewrite concat_app. by apply prefix_app_r.
  - intros Hf Hd. unfold exact. simpl. rewrite !concat_app, (Hex Hf Hd), !app_assoc. done.
Qed.

Lemma remove_output_gone u w : outputs (state (remove_output u handle w)) !! handle = None.
Proof.
  unfold remove_output. destruct (outputs (state w) !! handle) eqn:Ho; [|done].
  simpl. unfold release. rewrite Ho. simpl. apply lookup_delete_eq.
Qed.

Lemma file_inv_gone c :
  outputs (state (world c)) !! handle = None ->
  disabled c = true \/ failing (writer c) = true ->
  (forall p b, writer c = Writing p b -> p = output_path handle) -> file_inv c.
Proof.
  intros Hnone Hd Hw. split; [|done|].
  - intros ? ?. destruct Hd; congruence.
  - intros o Ho. congruence.
Qed.

Lemma file_step_append i u c c' :
  step_append i u c = Some c' -> inv c -> file_inv c'.
Proof.
  unfold step_append. intros H [[_ Hd] Hf]. destruct (appends c !! i) as [a|] eqn:Ha; [|done].
  assert (Hv : forall c'', same_view c c'' -> file_inv c'') by (intros; by eapply file_inv_view).
  destruct a; [destruct (disabled c)| |destruct (_ <? _)%N| | |]; injection H as <-;
    try (by apply Hv).
  - by apply file_inv_sent, Hv.
  - by apply file_inv_disable, Hv.
  - apply file_inv_gone; simpl; [apply remove_output_gone| |apply Hf].
    left. apply Hd. right. left. apply Exists_exists. exists (Disabling b).
    split; [by eapply list_elem_of_lookup_2|done].
Qed.

(** The writer, when its file part is as [f] and it has [pc'] next. *)
Lemma file_inv_writer c pc' :
  file_inv c ->
  (forall p b, pc' = Writing p b -> p = output_path handle) ->
  (disabled c = false -> failing pc' = false -> failing (writer c) = false) ->
  (failing pc' = false -> disabled c = false \/ committed pc' = true ->
     failing (writer c) = false /\ (disabled c = false \/ committed (writer c) = true)
     /\ in_hand pc' = in_hand (writer c)) ->
  (reserved pc' <= reserved (writer c))%N ->
  (pc' <> Removing -> reserved pc' = reserved (writer c) /\ writer c <> Removing) ->
  file_inv (upd_writer pc' c).
Proof.
  intros [H1 H2 H3] Hp Hlist Hex Hr Hre. split; simpl; [by eauto|done|].
  intros o Ho. destruct (H3 o Ho) as [f [? ? Hpre Hx Hl Hle]]. exists f. split; simpl; try done.
  - intros Hf Hd. destruct (Hex Hf Hd) as (Hf' & Hd' & Hh). unfold exact. simpl. rewrite Hh.
    by apply Hx.
  - lia.
  - intros Hn. destruct (Hre Hn) as [-> Hn']. auto.
Qed.

Lemma file_inv_received b q c :
  writer c = Receiving -> queue c = b :: q -> file_inv c ->
  file_inv (upd_writer (Received b) (upd_queue q c)).
Proof.
  intros Hw Hq [H1 H2 H3]. rewrite Hw in *. split; simpl; [by eauto|done|].
  intros o Ho. destruct (H3 o Ho) as [f [? ? Hpre Hx Hl Hle]]. rewrite Hw in *.
  exists f. split; simpl; try done.
  - intros _ [Hd|?]; [|done]. unfold exact. simpl. rewrite Hx; [|done|by left].
    by rewrite Hw, Hq.
  - intros _. by apply Hle.
Qed.

Lemma file_inv_reserved b p st c :
  (max_output_bytes limits < usize_max)%N ->
  writer c = Appending b -> reserve_append limits handle (lenN b) (state (world c)) = Ok (p, st) ->
  file_inv c ->
  file_inv (upd_writer (Writing p b) (upd_world (mkWorld st (files (world c))) c)).
Proof.
  intros Hfit Hw Hr [H1 H2 H3]. rewrite Hw in *. revert Hr. unfold reserve_append.
  destruct (_ <? _)%N; [done|]. destruct (outputs (state (world c)) !! handle) as [o|] eqn:Ho; [|done].
  destruct (_ <? saturating_add _ _)%N eqn:Hlim; [done|]. intros [= <- <-].
  destruct (H3 o eq_refl) as [f [? ? Hpre Hx Hl Hle]]. rewrite Hw in *.
  assert (Hlen : byte_len o = lenN f) by (specialize (Hle ltac:(done)); simpl in Hle; lia).
  unfold saturating_add in *.
  split; simpl; rewrite ?lookup_insert_eq; [by eauto|by intros ? ? [= <- <-]|].
  intros o' [= <-]. exists f. split; simpl; try done.
  - intros _ _. unfold exact. simpl. rewrite Hx; [by rewrite Hw|done|by right].
  - lia.
  - lia.
Qed.

Lemma file_step_writer u c c' :
  (max_output_bytes limits < usize_max)%N ->
  step_writer u c = Some c' -> inv c -> file_inv c'.
Proof.
  unfold step_writer. intros Hfit H [[_ Hd] Hf]. destruct (writer c) eqn:Hw.
  - destruct (queue c) eqn:Hq; [done|]. injection H as <-. by apply file_inv_received.
  - injection H as <-. apply file_inv_writer; rewrite ?Hw; [done|..]; destruct (disabled c); simpl;
      try done; try lia; try (by intros ? [?|?]); split_and?; auto.
  - destruct (reserve_append _ _ _ _) as [[p st]|e] eqn:Hr; injection H as <-.
    + by eapply file_inv_reserved.
    + apply file_inv_writer; rewrite ?Hw; simpl; try done; lia.
  - destruct b; [|done]. injection H as <-. apply file_inv_writer; rewrite ?Hw; simpl; auto; done.
  - injection H as <-. apply file_inv_gone; simpl; [apply remove_output_gone|by right|done].
  - injection H as <-. apply file_inv_disable.
    apply file_inv_writer; rewrite ?Hw; simpl; auto; done.
  - injection H as <-. apply file_inv_gone; simpl; [apply remove_output_gone| |done].
    left. apply Hd. auto.
  - injection H as <-. apply (file_inv_view (upd_writer Receiving c)); [done|].
    apply file_inv_writer; rewrite ?Hw; simpl; auto; done.
Qed.

Lemma file_write_some n c c' : write_some n c = Some c' -> file_inv c -> file_inv c'.
Proof.
  unfold write_some. intros H [H1 H2 H3]. destruct (writer c) as [| | |p b| | | |] eqn:Hw; try done.
  rewrite (H2 p b eq_refl) in *.
  destruct (files (world c) !! _) as [old|] eqn:Hold; [|done]. injection H as <-.
  split; simpl; [done|by intros ? ? [= <- <-]|]. intros o Ho.
  destruct (H3 o Ho) as [f [Hpo Hfile Hpre Hx Hl Hle]]. rewrite Hw in *. assert (old = f) as -> by congruence.
  assert (Hall : concat (sent c) = f ++ b ++ concat (queue c)).
  { rewrite Hx; [by rewrite Hw|done|by right]. }
  assert (Hb : b = take n b ++ drop n b) by (by rewrite take_drop).
  assert (Hlb : lenN b = (lenN (take n b) + lenN (drop n b))%N) by (by rewrite <- lenN_app, <- Hb).
  exists (f ++ take n b). split; simpl; try done.
  - apply lookup_insert_eq.
  - exists (drop n b ++ concat (queue c)). rewrite Hall. rewrite Hb at 1. by rewrite <- !app_assoc.
  - intros _ _. unfold exact. simpl. rewrite Hall. rewrite Hb at 1. by rewrite <- !app_assoc.
  - simpl in Hl. rewrite lenN_app. lia.
  - intros _. specialize (Hle ltac:(done)). simpl in Hle. rewrite lenN_app. lia.
Qed.

Lemma file_environment w c : preserves (world c) w = true -> file_inv c -> file_inv (upd_world w c).
Proof.
  unfold preserves. rewrite andb_true_iff, !bool_decide_eq_true. intros [Ho Hfs] [H1 H2 H3].
  split; simpl; rewrite ?Ho; [done..|]. intros o Hout. destruct (H3 o Hout) as [f [? ? ? ? ? ?]].
  exists f. split; simpl; try done. by rewrite Hfs.
Qed.

Lemma inv_exec e c c' :
  (max_output_bytes limits < usize_max)%N ->
  exec e c = Some c' -> inv c -> inv c'.
Proof.
  intros Hfit H Hinv. pose proof Hinv as [[Hp Hd] Hf].
  destruct e as [b|i u|u|n| | |u| |w]; simpl in H.
  - injection H as <-. split; [|by apply (file_inv_view c)]. split; simpl.
    + rewrite counted_appends_app. simpl. lia.
    + rewrite Exists_app, Exists_cons, Exists_nil. simpl. tauto.
  - split; [by eapply counters_step_append; [|apply Hinv]|by eapply file_step_append].
  - split; [by eapply counters_step_writer; [|apply Hinv]|by eapply file_step_writer].
  - split; [|by eapply file_write_some]. unfold write_some in H.
    destruct (writer c) eqn:Hw; try done. destruct (_ !! _); [|done]. injection H as <-.
    split; simpl; [simpl in Hp; lia|naive_solver].
  - unfold write_error in H. destruct (writer c) eqn:Hw; try done. injection H as <-.
    split; [split; simpl; [simpl in Hp; lia|naive_solver]|].
    apply file_inv_writer; rewrite ?Hw; simpl; auto; try done; lia.
  - injection H as <-. split; [by split|]. by apply file_inv_disable, (file_inv_view c).
  - destruct (discards c) as [|k] eqn:Hk; [done|]. injection H as <-.
    assert (Ht : disabled c = true) by (apply Hd; auto).
    split; [by split|]. apply file_inv_gone; simpl; [apply remove_output_gone|by left|apply Hf].
  - unfold unlink in H. destruct (outputs _ !! _) eqn:Ho; [done|]. injection H as <-.
    split; [by split|]. destruct Hf as [H1 H2 H3]. split; simpl; [done|done|congruence].
  - destruct (preserves _ _) eqn:Hw; [|done]. injection H as <-.
    split; [by split|by apply file_environment].
Qed.

(** *** What only grows *)

Record later (c c' : Capture) : Prop := {
  lt_disabled : disabled c = true -> disabled c' = true;
  lt_sent : sent c `prefix_of` sent c';
  lt_file : forall o', outputs (state (world c')) !! handle = Some o' ->
    exists o, outputs (state (world c)) !! handle = Some o /\ (byte_len o <= byte_len o')%N
    /\ forall f, files (world c) !! output_path handle = Some f ->
         exists f', files (world c') !! output_path handle = Some f' /\ f `prefix_of` f';
}.

Lemma later_trans c1 c2 c3 : later c1 c2 -> later c2 c3 -> later c1 c3.
Proof.
  intros [D S F] [D' S' F']. split; [auto|by etrans|].
  intros o3 H3. destruct (F' o3 H3) as (o2 & H2 & L2 & P2). destruct (F o2 H2) as (o1 & H1 & L1 & P1).
  exists o1. split_and!; [done|lia|]. intros f Hf. destruct (P1 f Hf) as (f' & Hf' & ?).
  destruct (P2 f' Hf') as (f'' & ? & ?). exists f''. split; [done|by etrans].
Qed.

Lemma later_world c c' :
  world c' = world c -> (disabled c = true -> disabled c' = true) -> sent c `prefix_of` sent c' ->
  later c c'.
Proof. intros Hw Hd Hs. split; [done..|]. rewrite Hw. eauto 10. Qed.

Lemma later_gone c c' :
  outputs (state (world c')) !! handle = None -> disabled c' = disabled c \/ disabled c' = true ->
  sent c' = sent c -> later c c'.
Proof. intros Hw Hd Hs. split; [naive_solver|by rewrite Hs|congruence]. Qed.

Ltac later_same := apply later_world; simpl; [done|by auto|done].

Lemma later_step_append i u c c' : step_append i u c = Some c' -> later c c'.
Proof.
  unfold step_append. intros H. destruct (appends c !! i) as [a|]; [|done].
  destruct a; [destruct (disabled c) eqn:Hd| |destruct (_ <? _)%N| | |]; injection H as <-;
    try later_same.
  - apply later_world; simpl; [done..|]. by apply prefix_app_r.
  - apply later_gone; simpl; [apply remove_output_gone|by left|done].
Qed.

Lemma later_step_writer u c c' : 
  (max_output_bytes limits < usize_max)%N -> step_writer u c = Some c' -> later c c'.
Proof.
  unfold step_writer. intros Hfit H. destruct (writer c).
  - destruct (queue c); [done|]. injection H as <-. later_same.
  - injection H as <-. later_same.
  - revert H. unfold reserve_append. destruct (_ <? _)%N; [intros [= <-]; later_same|].
    destruct (outputs _ !! _) as [o|] eqn:Ho; [|intros [= <-]; later_same].
    destruct (_ <? saturating_add (byte_len o) _)%N eqn:Hl; intros [= <-]; [later_same|].
    split; simpl; [done..|]. rewrite lookup_insert_eq. intros o' [= <-]. exists o. simpl.
    unfold saturating_add in *. split_and!; [done|lia|eauto].
  - destruct (is_empty b); [|done]. injection H as <-. later_same.
  - injection H as <-. apply later_gone; simpl; [apply remove_output_gone|by left|done].
  - injection H as <-. later_same.
  - injection H as <-. apply later_gone; simpl; [apply remove_output_gone|by left|done].
  - injection H as <-. later_same.
Qed.

Lemma later_exec e c c' :
  (max_output_bytes limits < usize_max)%N -> exec e c = Some c' -> inv c -> later c c'.
Proof.
  intros Hfit H [_ Hf]. destruct e as [b|i u|u|n| | |u| |w]; simpl in H.
  - injection H as <-. later_same.
  - by eapply later_step_append.
  - by eapply later_step_writer.
  - unfold write_some in H. destruct (writer c) as [| | |p b| | | |] eqn:Hw; try done.
    destruct (files _ !! p) as [old|] eqn:Hold; [|done]. injection H as <-.
    rewrite (fi_writing _ Hf p b Hw) in *. split; simpl; [done..|]. intros o Ho. exists o.
    split_and!; [done|lia|]. intros f Hfile. rewrite lookup_insert_eq. eexists. split; [done|].
    assert (old = f) as -> by congruence. by apply prefix_app_r.
  - unfold write_error in H. destruct (writer c); try done. injection H as <-. later_same.
  - injection H as <-. later_same.
  - destruct (discards c); [done|]. injection H as <-.
    apply later_gone; simpl; [apply remove_output_gone|by left|done].
  - unfold unlink in H. destruct (outputs _ !! _) eqn:Ho; [done|]. injection H as <-.
    by apply later_gone; [|left|].
  - destruct (preserves _ _) eqn:Hp; [|done]. injection H as <-. revert Hp. unfold preserves.
    rewrite andb_true_iff, !bool_decide_eq_true. intros [Ho Hfs]. split; simpl; [done..|].
    rewrite Ho, Hfs. eauto 10.
Qed.

Lemma later_reach c c' :
  (max_output_bytes limits < usize_max)%N -> rtc step c c' -> inv c -> inv c' /\ later c c'.
Proof.
  intros Hfit. induction 1 as [c|c1 c2 c3 [e He] _ IH]; intros Hinv.
  - split; [done|]. by apply later_world.
  - destruct (IH (inv_exec _ _ _ Hfit He Hinv)) as [Hi Hl]. split; [done|].
    eapply later_trans; [by eapply later_exec|done].
Qed.

(** ** Completeness of what is recovered *)

Lemma inv_initial w0 w :
  start_stream limits true handle w0 = (w, Ok tt) -> inv (initial w).
Proof.
  unfold start_stream, reserve_stream. simpl. destruct (_ <=? _)%N; [done|]. intros [= <-].
  split; [split; simpl; [done|]; intros [?|[He|[?|?]]]; [done|by inversion He|done|done]|].
  split; simpl; rewrite ?lookup_insert_eq; [by eauto|done|].
  intros o [= <-]. exists []. split; simpl; try done. apply lookup_insert_eq.
Qed.

Lemma quiescent c :
  inv c -> pending_chunks c = 0%N -> disabled c = false ->
  refused c = [] /\ files (world c) !! output_path handle = Some (concat (sent c))
  /\ exists o, outputs (state (world c)) !! handle = Some o /\ byte_len o = lenN (concat (sent c)).
Proof.
  intros [[Hp Hd] [H1 H2 H3]] H0 Hdis.
  assert (Hq : queue c = []) by (destruct (queue c); [done|rewrite lenN_cons in Hp; lia]).
  assert (Hw : writer c = Receiving) by (destruct (writer c); simpl in Hp; try done; lia).
  split; [destruct (refused c); [done|]; exfalso; enough (disabled c = true) by congruence; apply Hd; by left|].
  rewrite Hw in *. destruct (H1 Hdis eq_refl) as [o Ho]. destruct (H3 o Ho) as [f [? Hf _ Hx _ Hl]].
  rewrite Hw in *. assert (Hs : concat (sent c) = f).
  { rewrite Hx; [|done|by left]. by rewrite Hw, Hq, !app_nil_r. }
  rewrite Hs. split; [done|]. exists o. split; [done|]. specialize (Hl ltac:(done)). simpl in Hl. lia.
Qed.

Lemma concat_prefix {A} (l k : list (list A)) : l `prefix_of` k -> concat l `prefix_of` concat k.
Proof. intros [x ->]. rewrite concat_app. by apply prefix_app_r. Qed.


Lemma run_reach es c c' : run es c = Some c' -> rtc step c c'.
Proof.
  unfold run. revert c. induction es as [|e es IH]; intros c H; simpl in H; [by simplify_eq|].
  destruct (exec e c) as [d|] eqn:He.
  - eapply rtc_l; [by exists e|by apply IH].
  - exfalso. revert H. clear. by induction es.
Qed.

End Machine.

(** The operations of the store on other handles are environment steps. *)
Lemma other_handles_preserve limits handle h w :
  h <> handle ->
  (forall fate t, preserves handle w (store_text limits fate h t w).1 = true)
  /\ (forall ok, preserves handle w (start_stream limits ok h w).1 = true)
  /\ (forall u, map_Forall (fun k o => path o = output_path k) (outputs (state w)) ->
        preserves handle w (remove_output u h w) = true)
  /\ (forall fate u bs, map_Forall (fun k o => path o = output_path k) (outputs (state w)) ->
        preserves handle w (append_stream limits fate u h bs w).1 = true).
Proof.
  intros Hne. assert (Hp : output_path h <> output_path handle).
  { unfold output_path. intros He. by apply app_inv_tail in He. }
  unfold preserves. split_and!; [intros fate t|intros ok|intros u Hpaths|intros fate u bs Hpaths];
    rewrite andb_true_iff, !bool_decide_eq_true.
  - unfold store_text, reserve_text, release. destruct (_ <? _)%N; [done|]. destruct (_ || _); [done|].
    destruct fate; simpl; rewrite ?lookup_insert_eq; simpl; by rewrite ?lookup_delete_ne, ?lookup_insert_ne by done.
  - unfold start_stream, reserve_stream. destruct ok; [|done]. simpl. destruct (_ <=? _)%N; simpl;
      by rewrite ?lookup_insert_ne by done.
  - unfold remove_output. destruct (outputs (state w) !! h) as [o|] eqn:Ho; [|done]. simpl.
    unfold release. rewrite Ho. simpl. rewrite lookup_delete_ne by done. split; [done|].
    rewrite (Hpaths _ _ Ho). destruct u; [|done]. by rewrite lookup_delete_ne.
  - unfold append_stream, reserve_append. destruct (_ <? _)%N; [done|].
    destruct (outputs (state w) !! h) as [o|] eqn:Ho; [|done]. destruct (_ <? _)%N; [done|].
    rewrite (Hpaths _ _ Ho). unfold remove_output, release. simpl. rewrite !lookup_insert_eq. simpl.
    destruct (files w !! output_path h), fate, u; simpl;
      by rewrite ?lookup_delete_ne, ?lookup_insert_ne by done.
Qed.

End Capture.

Module CaptureExamples.
Import Capture.

Definition h : str := lit "out_1".
Definition w0 : World := mkWorld default_state ∅.
Definition w1 : World := (start_stream default_limits true h w0).1.

(** Two chunks, the second sent while the first is being written in pieces. *)
Definition two_chunks : list Event :=
  [CallAppend [1; 2; 3]%N; StepAppend 0 true; StepAppend 0 true; StepAppend 0 true;
   StepWriter true; StepWriter true; StepWriter true; WriteSome 2;
   CallAppend [4]%N; StepAppend 0 true; StepAppend 0 true; StepAppend 0 true;
   WriteSome 1; StepWriter true; StepWriter true;
   StepWriter true; StepWriter true; StepWriter true; WriteSome 1; StepWriter true; StepWriter true].
Definition c_end : Capture :=
  default (initial w1) (run default_limits STREAM_CAPTURE_QUEUE_CAPACITY h two_chunks (initial w1)).


End CaptureExamples.
