(* ===== verification/PathUri.v ===== *)
(** * PathUri: `file:` URIs as executor-owned paths

    [utils/path-uri/src/lib.rs], [absolute_path_normalization.rs] and
    [native_path_bytes.rs], with [normalize_windows_device_path] of
    [utils/absolute-path]: a [PathUri] wraps a validated `file:` URL; the
    lexical operations ([parent], [ancestors], [starts_with], [overlaps],
    [relative_path_from], [join], [join_descendant]) work on the URL's path
    segments, decoded and compared by the path convention inferred from the
    URL's shape.

    The [url], [urlencoding] and [base64] crates are the class [UrlLib]; what
    the code relies on of them is [UrlLaws] (PathLaws.v), with a concrete
    instance. *)

From S2P Require Import Prelude RustStr.

(** ** The third-party URL library *)

Class UrlLib := {
  Url : Type;
  UrlParseError : Type;
  (** [Url]'s [PartialEq], constructor, serialization and accessors *)
  url_eqb : Url -> Url -> bool;
  url_parse : str -> result UrlParseError Url;
  as_str : Url -> str;
  scheme : Url -> str;
  username : Url -> str;
  password : Url -> option str;
  port : Url -> option N;
  query : Url -> option str;
  fragment : Url -> option str;
  host_str : Url -> option str;
  path : Url -> str;
  (** the segments between the slashes of the path; [None], as is
      [path_segments_mut]'s [Err], for a URL without a hierarchical path *)
  path_segments : Url -> option (list str);
  (** setters: [set_host] fails on an invalid host *)
  set_host : option str -> Url -> option Url;
  set_path : str -> Url -> Url;
  (** the operations of [path_segments_mut] *)
  clear : Url -> Url;
  pop_if_empty : Url -> Url;
  pop : Url -> Url;
  push : str -> Url -> Url;
  (** [urlencoding::decode_binary] and [encode_binary] *)
  decode_binary : list N -> list N;
  encode_binary : list N -> str;
  (** [base64::engine::general_purpose::URL_SAFE_NO_PAD] *)
  b64_encode : list N -> str;
  b64_decode : str -> option (list N);
}.

Inductive PathConvention := Posix | Windows.
#[export] Instance PathConvention_eq_dec : EqDecision PathConvention.
Proof. solve_decision. Defined.

Definition convention_eqb (c d : PathConvention) : bool :=
  match c, d with Posix, Posix | Windows, Windows => true | _, _ => false end.
(** [Option<PathConvention> == Option<PathConvention>] *)
Definition convention_opt_eqb (c d : option PathConvention) : bool :=
  match c, d with
  | Some c, Some d => convention_eqb c d
  | None, None => true
  | _, _ => false
  end.

Abbreviation slash := 47%N (only parsing).
Abbreviation backslash := 92%N (only parsing).

(** [PathConvention::home_relative_suffix] *)
Definition home_relative_suffix (self : PathConvention) (p : str) : option str :=
  match strip_prefix (lit "~") p with
  | None => None
  | Some suffix =>
      if is_empty suffix || starts_with [slash] suffix
         || convention_eqb self Windows && starts_with [backslash] suffix
      then Some suffix else None
  end.

Definition is_windows_separator (c : N) : bool := (c =? backslash)%N || (c =? slash)%N.

(** [PathConvention::path_segments] *)
Definition native_segments (self : PathConvention) (p : str) : list str :=
  match self with
  | Posix => split_on slash p
  | Windows => split_by is_windows_separator p
  end.

(** [normalize_windows_device_path] of [codex_utils_absolute_path] *)
Definition is_windows_drive_absolute_path (p : str) : bool :=
  match as_bytes p with
  | d :: c :: sep :: _ => is_ascii_alphabetic d && (c =? 58)%N && is_windows_separator sep
  | _ => false
  end.
Definition strip_device_drive (prefix p : str) : option str :=
  match strip_prefix prefix p with
  | Some r => if is_windows_drive_absolute_path r then Some r else None
  | None => None
  end.
Definition normalize_windows_device_path (p : str) : option str :=
  match strip_prefix (lit "\\?\UNC\") p with
  | Some unc => Some (lit "\\" ++ unc)
  | None =>
      match strip_prefix (lit "\\.\UNC\") p with
      | Some unc => Some (lit "\\" ++ unc)
      | None =>
          match strip_device_drive (lit "\\?\") p with
          | Some r => Some r
          | None => strip_device_drive (lit "\\.\") p
          end
      end
  end.

Section PathUri.
Context {UL : UrlLib}.

Inductive PathUriParseError :=
| InvalidUri (e : UrlParseError)
| UnsupportedScheme (scheme : str)
| InvalidFileUriPath (path : str)
| CredentialsNotAllowed
| PortNotAllowed
| QueryNotAllowed
| FragmentNotAllowed
| JoinPathMustBeDescendant (path : str).

Definition BAD_PATH_URI_PREFIX : str := lit "file:///%00/bad/path/".

(** [decode_bad_path_uri]: the native path bytes of a fallback URI *)
Definition decode_bad_path_uri (u : Url) : option (list N) :=
  match strip_prefix BAD_PATH_URI_PREFIX (as_str u) with
  | None => None
  | Some encoded_path =>
      if is_empty encoded_path || contains_char slash encoded_path then None
      else match b64_decode encoded_path with
           | None => None
           | Some path_bytes =>
               if str_eqb (b64_encode path_bytes) encoded_path then Some path_bytes else None
           end
  end.
Definition opaque_fallback_bytes : Url -> option (list N) := decode_bad_path_uri.
Definition is_opaque (u : Url) : bool := bool_decide (is_Some (opaque_fallback_bytes u)).

Definition is_windows_drive_uri_segment (segment : str) : bool :=
  match as_bytes segment with
  | [d; c] => is_ascii_alphabetic d && (c =? 58)%N
  | [d; p; c3; ca] =>
      is_ascii_alphabetic d && (p =? 37)%N && (c3 =? 51)%N && ((ca =? 65)%N || (ca =? 97)%N)
  | _ => false
  end.

(** UTF-16LE units of a byte string *)
Fixpoint wide (bs : list N) : list N :=
  match bs with
  | lo :: hi :: bs => (lo + 256 * hi)%N :: wide bs
  | _ => []
  end.

Definition infer_opaque_path_convention (path_bytes : list N) : option PathConvention :=
  if starts_with [slash] path_bytes && negb (starts_with [slash; 0%N] path_bytes) then Some Posix
  else if negb (N.even (lenN path_bytes)) then None
  else match wide path_bytes with
       | first :: second :: _ =>
           let has_drive := (first <? 256)%N && is_ascii_alphabetic first && (second =? 58)%N in
           let has_unc_prefix := is_windows_separator first && is_windows_separator second in
           if has_drive || has_unc_prefix then Some Windows else None
       | _ => None
       end.

Definition non_empty (segments : list str) : list str :=
  List.filter (fun s => negb (is_empty s)) segments.

Definition infer_path_convention (u : Url) : option PathConvention :=
  match opaque_fallback_bytes u with
  | Some path_bytes => infer_opaque_path_convention path_bytes
  | None =>
      match host_str u with
      | Some _ => Some Windows
      | None =>
          let has_windows_drive :=
            match path_segments u ≫= (fun ss => head (non_empty ss)) with
            | Some s => is_windows_drive_uri_segment s
            | None => false
            end in
          Some (if has_windows_drive then Windows else Posix)
      end
  end.

Definition decoded_path_bytes (u : Url) : list N := decode_binary (as_bytes (path u)).

(** [decode_uri_path]: the decoded text, or the encoded one if it is not UTF-8 *)
Definition decode_uri_path (p : str) : str :=
  match from_utf8 (decode_binary (as_bytes p)) with
  | Ok s => s
  | Err _ => p
  end.

(** ** Equality and hashing *)

Definition windows_identity_path_bytes (u : Url) : option (list N) :=
  if negb (convention_opt_eqb (infer_path_convention u) (Some Windows))
     || bool_decide (is_Some (opaque_fallback_bytes u)) then None
  else match path_segments u with
       | None => None
       | Some segments =>
           if existsb (fun s => existsb is_windows_separator (decode_binary (as_bytes s))) segments
           then None
           else Some (decode_binary (as_bytes (path u)))
       end.

Definition host_eqb (h k : option str) : bool :=
  match h, k with
  | Some h, Some k => str_eqb h k
  | None, None => true
  | _, _ => false
  end.

Definition path_uri_eqb (self other : Url) : bool :=
  if url_eqb self other then true
  else match windows_identity_path_bytes self, windows_identity_path_bytes other with
       | Some p, Some q => host_eqb (host_str self) (host_str other) && eq_ignore_ascii_case p q
       | _, _ => false
       end.

(** [Hash::hash]: what is fed to the hasher *)
Inductive Hashed :=
| HashUrl (u : Url)
| HashWindows (host : option str) (len : N) (bytes : list N).
Definition hash (self : Url) : Hashed :=
  match windows_identity_path_bytes self with
  | None => HashUrl self
  | Some p => HashWindows (host_str self) (lenN p) (ascii_lower <$> p)
  end.

(** ** Lexical structure *)

Definition basename (u : Url) : option str :=
  match decode_bad_path_uri u with
  | Some _ => None
  | None =>
      match path_segments u with
      | None => None
      | Some segments => decode_uri_path <$> last (non_empty segments)
      end
  end.

Definition anchor_depth (convention : PathConvention) : nat :=
  match convention with Windows => 1 | Posix => 0 end.

(** [parent]; [path_segments_mut] succeeds where [path_segments] did. *)
Definition parent (u : Url) : option Url :=
  match decode_bad_path_uri u with
  | Some _ => None
  | None =>
      match infer_path_convention u with
      | None => None
      | Some convention =>
          match path_segments u with
          | None => None
          | Some segments =>
              if length (non_empty segments) <=? anchor_depth convention then None
              else Some (pop (pop_if_empty u))
          end
      end
  end.

(** [successors(Some(self), parent)], cut after [fuel] steps *)
Fixpoint successors (fuel : nat) (u : Url) : list Url :=
  match fuel with
  | O => [u]
  | S fuel => u :: match parent u with Some v => successors fuel v | None => [] end
  end.
(** [ancestors]: each step removes a segment. *)
Definition ancestors (u : Url) : list Url :=
  successors (match path_segments u with Some ss => length ss | None => 0 end) u.

Definition has_separator (convention : PathConvention) (s : str) : bool :=
  existsb (fun b => (b =? slash)%N || convention_eqb convention Windows && (b =? backslash)%N)
    (decode_binary (as_bytes s)).

Definition containment_path_segments (u : Url) (convention : PathConvention) : option (list str) :=
  match path_segments u with
  | None => None
  | Some segments =>
      let segments := non_empty segments in
      if existsb (has_separator convention) segments then None else Some segments
  end.

Definition segment_matches (convention : PathConvention) (p b : str) : bool :=
  match convention with
  | Posix => str_eqb (decode_binary (as_bytes p)) (decode_binary (as_bytes b))
  | Windows =>
      eq_ignore_ascii_case p b
      || eq_ignore_ascii_case (decode_uri_path p) (decode_uri_path b)
  end.

Definition native_path_segments_start_with (path_segments base_segments : list str)
    (convention : PathConvention) : bool :=
  (length base_segments <=? length path_segments)
  && forallb (fun '(p, b) => segment_matches convention p b) (zip path_segments base_segments).

(** [PathUri::starts_with] *)
Definition uri_starts_with (self base : Url) : bool :=
  if path_uri_eqb self base then true
  else if bool_decide (is_Some (decode_bad_path_uri self))
          || bool_decide (is_Some (decode_bad_path_uri base)) then false
  else if negb (host_eqb (host_str self) (host_str base)) then false
  else
    let convention := infer_path_convention self in
    if negb (convention_opt_eqb convention (infer_path_convention base)) then false
    else
      let convention := match convention with Some c => c | None => Posix end in
      match containment_path_segments self convention with
      | None => false
      | Some path_segments =>
          match containment_path_segments base convention with
          | None => false
          | Some base_segments =>
              native_path_segments_start_with path_segments base_segments convention
          end
      end.

Definition lexical_depth (u : Url) : option nat :=
  match decode_bad_path_uri u with
  | Some _ => None
  | None =>
      match infer_path_convention u with
      | None => None
      | Some convention => length <$> containment_path_segments u convention
      end
  end.

Definition overlaps (self other : Url) : option bool :=
  if path_uri_eqb self other then Some true
  else match lexical_depth self, lexical_depth other with
       | Some _, Some _ => Some (uri_starts_with self other || uri_starts_with other self)
       | _, _ => None
       end.

Definition relative_path_from (self base : Url) : option str :=
  if path_uri_eqb self base then Some []
  else if bool_decide (is_Some (decode_bad_path_uri self))
          || bool_decide (is_Some (decode_bad_path_uri base))
          || negb (host_eqb (host_str self) (host_str base))
          || negb (convention_opt_eqb (infer_path_convention self) (infer_path_convention base))
  then None
  else
    convention ← infer_path_convention self;
    path_segments ← containment_path_segments self convention;
    base_segments ← containment_path_segments base convention;
    if negb (native_path_segments_start_with path_segments base_segments convention) then None
    else
      let separator := match convention with Posix => [slash] | Windows => [backslash] end in
      Some (RustStr.join separator
              (decode_uri_path <$> drop (length base_segments) path_segments)).

(** ** Construction *)

Definition validate_common_known_uri (u : Url) : result PathUriParseError unit :=
  if negb (is_empty (username u)) || bool_decide (is_Some (password u)) then Err CredentialsNotAllowed
  else if bool_decide (is_Some (port u)) then Err PortNotAllowed
  else if bool_decide (is_Some (query u)) then Err QueryNotAllowed
  else if bool_decide (is_Some (fragment u)) then Err FragmentNotAllowed
  else Ok tt.

Definition validate_file_url (u : Url) : result PathUriParseError unit :=
  _ ← validate_common_known_uri u;
  if contains_char 0 (decoded_path_bytes u)
     && negb (bool_decide (is_Some (decode_bad_path_uri u)))
  then Err (InvalidFileUriPath (as_str u)) else Ok tt.

(** [without_localhost_authority]; the removal cannot fail on a file URL. *)
Definition without_localhost_authority (u : Url) : outcome PathUriParseError Url :=
  if host_eqb (host_str u) (Some (lit "localhost")) then
    match set_host None u with Some v => Return v | None => Panic end
  else Return u.

Fixpoint leading_slashes (p : str) : str :=
  match p with
  | c :: p => if (c =? slash)%N then c :: leading_slashes p else []
  | [] => []
  end.

Definition with_normalized_windows_drive_letter (u : Url) : Url :=
  match host_str u with
  | Some _ => u
  | None =>
      match trim_start_matches (N.eqb slash) (path u) with
      | [] => u
      | letter :: rest =>
          match head (split_on slash (letter :: rest)) with
          | None => u
          | Some drive =>
              if negb (is_windows_drive_uri_segment drive) || is_ascii_uppercase letter then u
              else set_path (leading_slashes (path u) ++ ascii_upper letter :: rest) u
          end
      end
  end.

(** [TryFrom<Url>] *)
Definition try_from (u : Url) : outcome PathUriParseError Url :=
  if negb (str_eqb (scheme u) (lit "file")) then Throw (UnsupportedScheme (scheme u))
  else match validate_file_url u with
       | Err e => Throw e
       | Ok _ =>
           u ← without_localhost_authority u;
           Return (with_normalized_windows_drive_letter u)
       end.

(** [PathUri::parse] *)
Definition parse (uri : str) : outcome PathUriParseError Url :=
  match url_parse uri with
  | Err e => Throw (InvalidUri e)
  | Ok u => try_from u
  end.

Definition from_opaque_path_bytes (path_bytes : list N) : outcome PathUriParseError Url :=
  match parse (BAD_PATH_URI_PREFIX ++ b64_encode path_bytes) with
  | Return u => Return u
  | _ => Panic
  end.

(** [str::encode_utf16] with [u16::to_le_bytes] *)
Definition encode_utf16_le (c : N) : list N :=
  let unit16 w := [(w mod 256)%N; (w / 256)%N] in
  if (c <? 65536)%N then unit16 c
  else unit16 (55296 + (c - 65536) / 1024)%N ++ unit16 (56320 + (c - 65536) mod 1024)%N.
Definition windows_opaque_path_uri (p : str) : outcome PathUriParseError Url :=
  from_opaque_path_bytes (p ≫= encode_utf16_le).

(** The loop of [path_uri_from_segments]: the segments kept, their number and
    whether the path ends in a separator. *)
Definition push_segment (anchor : nat) (st : list str * nat * bool) (segment : str)
    : list str * nat * bool :=
  let '(kept, depth, trailing) := st in
  if is_empty segment then (kept, depth, true)
  else if str_eqb segment (lit ".") then (kept, depth, false)
  else if str_eqb segment (lit "..") then
    if anchor <? depth then (removelast kept, depth - 1, false) else (kept, depth, false)
  else (kept ++ [segment], S depth, false).

(** [path_uri_from_segments] of absolute_path_normalization.rs: [try_from]'s
    error, like the [url] crate's, becomes [None]. *)
Definition path_uri_from_segments (convention : PathConvention) (host : option str)
    (segments : list str) : outcome PathUriParseError (option Url) :=
  match url_parse (lit "file:///") with
  | Err _ => Return None
  | Ok u =>
      match (match host with Some h => set_host (Some h) u | None => Some u end) with
      | None => Return None
      | Some u =>
          let anchor := anchor_depth convention in
          let '(kept, depth, trailing) := foldl (push_segment anchor) ([], 0, false) segments in
          let kept :=
            if trailing || (convention_eqb convention Windows
                            && negb (bool_decide (is_Some host)) && (depth =? anchor))
            then kept ++ [[]] else kept in
          match path_segments u with
          | None => Return None
          | Some _ =>
              match try_from (foldl (fun u s => push s u) (clear u) kept) with
              | Return v => Return (Some v)
              | Throw _ => Return None
              | Panic => Panic
              end
          end
      end
  end.

Definition parse_posix_path (p : str) : outcome PathUriParseError (option Url) :=
  match strip_prefix [slash] p with
  | None => Return None
  | Some rest =>
      if contains_char 0 rest then Some <$> from_opaque_path_bytes (as_bytes (slash :: rest))
      else path_uri_from_segments Posix None (split_on slash rest)
  end.

Definition is_dot_name (s : str) : bool := str_eqb s (lit ".") || str_eqb s (lit "..").

Definition parse_unnormalized_windows_path (p : str) : outcome PathUriParseError (option Url) :=
  let bytes := as_bytes p in
  let uses_namespace :=
    match bytes with
    | a :: b :: n :: sep :: _ =>
        is_windows_separator a && is_windows_separator b && is_windows_separator sep
        && ((n =? 46)%N || (n =? 63)%N)
    | _ => false
    end in
  if uses_namespace || contains_char 0 p then Some <$> windows_opaque_path_uri p
  else if is_windows_drive_absolute_path p then
    path_uri_from_segments Windows None
      (byte_prefix 2 p :: split_by is_windows_separator (byte_drop 3 p))
  else match bytes with
       | a :: b :: _ =>
           if is_windows_separator a && is_windows_separator b then
             match split_by is_windows_separator (byte_drop 2 p) with
             | host :: share :: components =>
                 if is_empty host || is_empty share then Return None
                 else if is_dot_name host || is_dot_name share then
                   Some <$> windows_opaque_path_uri p
                 else
                   uri ← path_uri_from_segments Windows (Some host) (share :: components);
                   match uri with
                   | Some u =>
                       if match host_str u with
                          | Some parsed => eq_ignore_ascii_case parsed host
                          | None => false
                          end
                       then Return (Some u) else Some <$> windows_opaque_path_uri p
                   | None => Some <$> windows_opaque_path_uri p
                   end
             | _ => Return None
             end
           else Return None
       | _ => Return None
       end.

Definition parse_windows_path (p : str) : outcome PathUriParseError (option Url) :=
  match normalize_windows_device_path p with
  | None => parse_unnormalized_windows_path p
  | Some normalized_path =>
      let fallback := Some <$> windows_opaque_path_uri p in
      let bad_unc :=
        match strip_prefix (lit "\\") normalized_path with
        | Some unc_path =>
            let components := split_by is_windows_separator unc_path in
            let bad c := match c with Some c => is_empty c || is_dot_name c | None => true end in
            bad (components !! 0) || bad (components !! 1)
        | None => false
        end in
      if bad_unc then fallback
      else
        uri ← parse_unnormalized_windows_path normalized_path;
        match uri with
        | Some u =>
            if convention_opt_eqb (infer_path_convention u) (Some Windows)
               && negb (is_opaque u)
               && (negb (starts_with (lit "\\") normalized_path)
                   || match host_str u with Some h => negb (is_empty h) | None => false end)
            then Return (Some u) else fallback
        | None => fallback
        end
  end.

Definition from_absolute_native_path (p : str) (convention : PathConvention)
    : outcome PathUriParseError (option Url) :=
  uri ← match convention with Posix => parse_posix_path p | Windows => parse_windows_path p end;
  match uri with
  | None => Return None
  | Some u =>
      if negb (host_eqb (host_str u) (Some [])) &&
         convention_opt_eqb (infer_path_convention u) (Some convention)
      then Return (Some u)
      else Some <$> match convention with
                    | Posix => from_opaque_path_bytes (as_bytes p)
                    | Windows => windows_opaque_path_uri p
                    end
  end.

(** ** Joining *)

Definition join_component (anchor : nat) (st : Url * nat) (component : str) : Url * nat :=
  let '(u, depth) := st in
  if is_empty component || str_eqb component (lit ".") then (u, depth)
  else if str_eqb component (lit "..") then
    if anchor <? depth then (pop u, depth - 1) else (u, depth)
  else (push component u, S depth).

(** The relative case of [join], the segments edited in place. *)
Definition join_relative (self : Url) (convention : PathConvention) (p : str)
    : outcome PathUriParseError Url :=
  match path_segments self with
  | None => Panic
  | Some segments =>
      let anchor := anchor_depth convention in
      let depth := length (non_empty segments) in
      let windows_root_relative :=
        convention_eqb convention Windows &&
        match as_bytes p with
        | a :: b :: _ => is_windows_separator a && negb (is_windows_separator b)
        | [a] => is_windows_separator a
        | [] => false
        end in
      let u := pop_if_empty self in
      let '(u, depth) :=
        if windows_root_relative then (Nat.iter (depth - anchor) pop u, Nat.min depth anchor)
        else (u, depth) in
      let p := match convention with Posix => p | Windows => replace_char backslash slash p end in
      try_from (foldl (join_component anchor) (u, depth) (split_on slash p)).1
  end.

(** [PathUri::join] *)
Definition uri_join (self : Url) (p : str) : outcome PathUriParseError Url :=
  if contains_char 0 p then Throw (InvalidFileUriPath p)
  else if is_empty p then Return self
  else match infer_path_convention self with
  | None => Throw (InvalidFileUriPath (as_str self))
  | Some convention =>
      absolute ← from_absolute_native_path p convention;
      match absolute with
      | Some u => Return u
      | None =>
          let drive_relative :=
            match convention, as_bytes p with
            | Windows, d :: c :: _ =>
                if is_ascii_alphabetic d && (c =? 58)%N then Some d else None
            | _, _ => None
            end in
          let same_drive d :=
            match path_segments self ≫= (fun ss => head (non_empty ss)) with
            | Some segment =>
                is_windows_drive_uri_segment segment
                && match as_bytes segment with
                   | b :: _ => (ascii_lower b =? ascii_lower d)%N
                   | [] => false
                   end
            | None => false
            end in
          let relative p :=
            match decode_bad_path_uri self with
            | Some _ => Throw (InvalidFileUriPath (as_str self))
            | None => join_relative self convention p
            end in
          match drive_relative with
          | Some d => if same_drive d then relative (byte_drop 2 p)
                      else Throw (InvalidFileUriPath p)
          | None => relative p
          end
      end
  end.

Definition join_descendant (self : Url) (p : str) : outcome PathUriParseError Url :=
  descendant ← uri_join self p;
  let windows := convention_opt_eqb (infer_path_convention self) (Some Windows) in
  if starts_with [slash] p
     || windows && (starts_with [backslash] p
                    || existsb (contains_char 58) (native_segments Windows p))
     || negb (uri_starts_with descendant self)
  then Throw (JoinPathMustBeDescendant p)
  else Return descendant.

(** [join_native_bytes] of native_path_bytes.rs *)
Definition push_native (segments : list str) (component : list N) : list str :=
  if is_empty component || str_eqb component (lit ".") then segments
  else if str_eqb component (lit "..") then removelast segments
  else segments ++ [encode_binary component].
Definition join_native_bytes (self : Url) (p : list N) : outcome PathUriParseError Url :=
  match from_utf8 p with
  | Ok p => uri_join self p
  | Err _ =>
      if negb (convention_opt_eqb (infer_path_convention self) (Some Posix))
         || is_opaque self || contains_char 0 p
      then Throw (InvalidFileUriPath (as_str self))
      else
        let segments :=
          if starts_with [slash] p then [] else non_empty (split_on slash (path self)) in
        let segments := foldl push_native segments (split_on slash p) in
        u ← try_from (set_path (slash :: RustStr.join [slash] segments) self);
        if negb (convention_opt_eqb (infer_path_convention u) (Some Posix))
        then Throw (InvalidFileUriPath (as_str u)) else Return u
  end.

End PathUri.
