(* ===== verification/PathLaws.v ===== *)
(** * PathLaws: what `file:` URI paths promise

    The documented behaviour of the [url], [urlencoding] and [base64] crates
    ([UrlLaws]) and the theorems on PathUri.v: containment is the prefix order
    on decoded names, equality is equality of identities, joining is lexical
    resolution, every constructor gives a valid URI and none panics. *)

From S2P Require Import Prelude RustStr PathUri.

(** ** Percent-decoding (RFC 3986): what [urlencoding] documents *)

Definition hex_digit (c : N) : option N :=
  if in_range 48 57 c then Some (c - 48)%N
  else if in_range 65 70 c then Some (c - 55)%N
  else if in_range 97 102 c then Some (c - 87)%N
  else None.

Fixpoint percent_decode (x : list N) : list N :=
  match x with
  | [] => []
  | c :: x' =>
      if (c =? 37)%N then
        match x' with
        | h :: l :: x'' =>
            match hex_digit h, hex_digit l with
            | Some a, Some b => (16 * a + b)%N :: percent_decode x''
            | _, _ => c :: percent_decode x'
            end
        | _ => c :: percent_decode x'
        end
      else c :: percent_decode x'
  end.

(** [c :: x] does not start with an escape. *)
Definition unescaped (c : N) (x : list N) : Prop :=
  c = 37%N -> match x with
              | h :: l :: _ => hex_digit h = None \/ hex_digit l = None
              | _ => True
              end.

Lemma percent_decode_escape h l x a b :
  hex_digit h = Some a -> hex_digit l = Some b ->
  percent_decode (37%N :: h :: l :: x) = (16 * a + b)%N :: percent_decode x.
Proof. intros Hh Hl. simpl. by rewrite Hh, Hl. Qed.

Lemma percent_decode_unescaped c x : unescaped c x -> percent_decode (c :: x) = c :: percent_decode x.
Proof.
  intros H. simpl. destruct (N.eqb_spec c 37) as [->|]; [|done]. specialize (H eq_refl).
  destruct x as [|h [|l x]]; [done..|]. destruct H as [-> | ->]; [done|]. by destruct (hex_digit h).
Qed.

(** Induction along the decoder. *)
Lemma percent_ind (P : list N -> Prop) :
  P [] ->
  (forall h l x a b, hex_digit h = Some a -> hex_digit l = Some b -> P x -> P (37%N :: h :: l :: x)) ->
  (forall c x, unescaped c x -> P x -> P (c :: x)) ->
  forall x, P x.
Proof.
  intros H0 H1 H2 x. induction x as [x IH] using (induction_ltof1 _ (@length N)).
  unfold ltof in IH. destruct x as [|c x]; [done|].
  assert (Hskip : unescaped c x -> P (c :: x)).
  { intros E. apply H2; [exact E|]. apply IH. simpl. lia. }
  destruct (decide (c = 37%N)) as [->|]; [|by apply Hskip; intros ?].
  destruct x as [|h [|l x]]; [by apply Hskip; intros ?..|].
  destruct (hex_digit h) eqn:Eh; [|by apply Hskip; intros _; left].
  destruct (hex_digit l) eqn:El; [|by apply Hskip; intros _; right].
  eapply H1; [done..|]. apply IH. simpl. lia.
Qed.

(** A slash is never part of an escape. *)
Lemma percent_decode_slash x y :
  percent_decode (x ++ slash :: y) = percent_decode x ++ slash :: percent_decode y.
Proof.
  induction x as [|h l x a b Ha Hb IH|c x E IH] using percent_ind.
  - done.
  - change ((37%N :: h :: l :: x) ++ slash :: y) with (37%N :: h :: l :: x ++ slash :: y).
    rewrite !(percent_decode_escape _ _ _ a b) by done. simpl. by rewrite IH.
  - rewrite <- app_comm_cons, !percent_decode_unescaped, IH; [done|done|].
    intros Hc. specialize (E Hc). destruct x as [|h [|l x]]; simpl; [|by right|done].
    destruct y; [done|by left].
Qed.

Lemma percent_decode_nil x : percent_decode x = [] -> x = [].
Proof.
  destruct x as [|h l x a b Ha Hb _|c x E _] using percent_ind; [done|..].
  - by rewrite (percent_decode_escape _ _ _ a b).
  - by rewrite percent_decode_unescaped.
Qed.

Lemma percent_decode_join ss :
  percent_decode (RustStr.join [slash] ss) = RustStr.join [slash] (percent_decode <$> ss).
Proof.
  induction ss as [|s [|t ss] IH]; [done..|].
  change (RustStr.join [slash] (s :: t :: ss)) with (s ++ slash :: RustStr.join [slash] (t :: ss)).
  by rewrite percent_decode_slash, IH.
Qed.

(** Decoding respects ASCII case: hexadecimal digits have no case. *)
Lemma hex_digit_lower h : hex_digit (ascii_lower h) = hex_digit h.
Proof.
  unfold hex_digit, ascii_lower, in_range.
  repeat case_match; try done; try lia; f_equal; lia.
Qed.
Lemma lower_cons c x : to_ascii_lowercase (c :: x) = ascii_lower c :: to_ascii_lowercase x.
Proof. done. Qed.
Lemma ascii_lower_pct c : ascii_lower c = 37%N <-> c = 37%N.
Proof. unfold ascii_lower, in_range. case_match; lia. Qed.

Lemma percent_decode_lower x :
  to_ascii_lowercase (percent_decode (to_ascii_lowercase x)) = to_ascii_lowercase (percent_decode x).
Proof.
  induction x as [|h l x a b Ha Hb IH|c x E IH] using percent_ind.
  - done.
  - change (to_ascii_lowercase (37%N :: h :: l :: x))
      with (37%N :: ascii_lower h :: ascii_lower l :: to_ascii_lowercase x).
    rewrite !(percent_decode_escape _ _ _ a b) by by rewrite ?hex_digit_lower.
    by rewrite !lower_cons, IH.
  - change (to_ascii_lowercase (c :: x)) with (ascii_lower c :: to_ascii_lowercase x).
    rewrite !percent_decode_unescaped; [|done|].
    + by rewrite !lower_cons, IH, ascii_lower_idem.
    + intros Hc. specialize (E (proj1 (ascii_lower_pct c) Hc)). unfold to_ascii_lowercase.
      destruct x as [|h [|l x]]; [done..|]. simpl. by rewrite !hex_digit_lower.
Qed.

Lemma percent_decode_fold x y :
  to_ascii_lowercase x = to_ascii_lowercase y ->
  to_ascii_lowercase (percent_decode x) = to_ascii_lowercase (percent_decode y).
Proof. intros H. by rewrite <- (percent_decode_lower x), H, percent_decode_lower. Qed.

(** ** The laws of the URL library *)

(** [pop] and [pop_if_empty] on the list of segments: a path keeps at least one
    segment, which may be empty. *)
Definition pop_segments (ss : list str) : list str :=
  match ss with [_] => [[]] | _ => removelast ss end.
Definition pop_empty_segment (ss : list str) : list str :=
  match ss with
  | [_] => ss
  | _ => match last ss with Some [] => removelast ss | _ => ss end
  end.
(** What [push] appends to: the path [/] has no segment to keep. *)
Definition push_base (ss : list str) : list str := match ss with [[]] => [] | _ => ss end.

(** Text that [push] escapes as it stands: the URL parser drops tabs and line
    breaks, ignores dot segments and reads [C|] as a drive. *)
Definition plain_text (s : str) : Prop :=
  Forall (fun c => valid_char c = true /\ c <> 9%N /\ c <> 10%N /\ c <> 13%N /\ c <> 124%N) s.

(** What two URLs that differ in their paths only share. *)
Definition same_origin {UL : UrlLib} (u v : Url) : Prop :=
  scheme u = scheme v /\ username u = username v /\ password u = password v /\ port u = port v
  /\ query u = query v /\ fragment u = fragment v.

Definition bare_file {UL : UrlLib} (u : Url) : Prop :=
  scheme u = lit "file" /\ username u = [] /\ password u = None /\ port u = None
  /\ query u = None /\ fragment u = None.

Class UrlLaws (UL : UrlLib) : Prop := {
  url_eqb_eq u v : url_eqb u v = true <-> u = v;
  (** a file URL has a path of slash-separated ASCII segments *)
  file_segments u : scheme u = lit "file" -> exists ss, path_segments u = Some ss;
  segments_path u ss : path_segments u = Some ss -> path u = slash :: RustStr.join [slash] ss;
  segments_ok u ss : path_segments u = Some ss ->
    ss <> [] /\ Forall (fun s => ascii s /\ slash ∉ s) ss;
  (** the serialization of a file URL *)
  as_str_file u : bare_file u -> as_str u = lit "file://" ++ default [] (host_str u) ++ path u;
  host_no_slash u h : host_str u = Some h -> slash ∉ h;
  (** editing the path leaves the rest alone *)
  edit_origin u : same_origin (clear u) u /\ same_origin (pop_if_empty u) u /\ same_origin (pop u) u;
  edit_host u : host_str (clear u) = host_str u /\ host_str (pop_if_empty u) = host_str u
    /\ host_str (pop u) = host_str u;
  push_origin s u : same_origin (push s u) u /\ host_str (push s u) = host_str u;
  clear_path u ss : path_segments u = Some ss -> path_segments (clear u) = Some [[]];
  pop_path u ss : path_segments u = Some ss -> path_segments (pop u) = Some (pop_segments ss);
  pop_if_empty_path u ss : path_segments u = Some ss ->
    path_segments (pop_if_empty u) = Some (pop_empty_segment ss);
  push_path s u ss : path_segments u = Some ss -> plain_text s -> is_dot_name s = false ->
    exists e, path_segments (push s u) = Some (push_base ss ++ [e])
              /\ percent_decode e = as_bytes s;
  (** removing a host; replacing the path by one with an upper-case drive *)
  set_host_none u : bare_file u -> exists v, set_host None u = Some v /\ same_origin v u
    /\ host_str v = None /\ path_segments v = path_segments u;
  set_path_drive u lead c rest :
    path u = lead ++ c :: rest -> Forall (eq slash) lead -> is_ascii_alphabetic c = true ->
    let v := set_path (lead ++ ascii_upper c :: rest) u in
    same_origin v u /\ host_str v = host_str u /\ path v = lead ++ ascii_upper c :: rest;
  (** parsing the two URLs the code spells out *)
  parse_root : exists u, url_parse (lit "file:///") = Ok u /\ bare_file u /\ host_str u = None
    /\ path_segments u = Some [[]];
  parse_fallback bs : Forall (fun b => b < 256)%N bs -> exists u, url_parse (BAD_PATH_URI_PREFIX ++ b64_encode bs) = Ok u
    /\ bare_file u /\ host_str u = None
    /\ path u = lit "/%00/bad/path/" ++ b64_encode bs;
  (** [urlencoding] and [base64] *)
  decode_binary_spec x : decode_binary x = percent_decode x;
  b64_round bs : Forall (fun b => b < 256)%N bs -> b64_decode (b64_encode bs) = Some bs;
  b64_text bs : Forall (fun c => c <> slash) (b64_encode bs) /\ (b64_encode bs = [] -> bs = []);
}.

Section Laws.
Context {UL : UrlLib} {laws : UrlLaws UL}.

(** ** Names: the decoded path components *)

Definition segs (u : Url) : list str := default [] (path_segments u).
Definition name_of (s : str) : list N := percent_decode (as_bytes s).
Definition names (u : Url) : list (list N) := name_of <$> non_empty (segs u).

(** How a convention compares names. *)
Definition fold (c : PathConvention) (n : list N) : list N :=
  match c with Posix => n | Windows => to_ascii_lowercase n end.
Definition folded (c : PathConvention) (u : Url) : list (list N) := fold c <$> names u.

(** A URI with unambiguous components whose Windows names are Unicode text. *)
Definition regular (u : Url) : Prop :=
  is_Some (lexical_depth u) /\
  (infer_path_convention u = Some Windows ->
   Forall (fun s => exists t, from_utf8 (name_of s) = Ok t) (non_empty (segs u))).

Lemma url_eqb_refl u : url_eqb u u = true.
Proof. by apply url_eqb_eq. Qed.
Lemma host_eqb_eq h k : host_eqb h k = true <-> h = k.
Proof. destruct h, k; simpl; try done. rewrite str_eqb_eq. naive_solver. Qed.
Lemma convention_eqb_eq c d : convention_eqb c d = true <-> c = d.
Proof. by destruct c, d. Qed.
Lemma convention_opt_eqb_eq c d : convention_opt_eqb c d = true <-> c = d.
Proof. destruct c as [[]|], d as [[]|]; simpl; naive_solver. Qed.
Lemma eq_ignore_ascii_case_eq s t :
  eq_ignore_ascii_case s t = true <-> to_ascii_lowercase s = to_ascii_lowercase t.
Proof. apply str_eqb_eq. Qed.

Lemma lexical_depth_inv u n :
  lexical_depth u = Some n ->
  exists c ss, decode_bad_path_uri u = None /\ infer_path_convention u = Some c
    /\ path_segments u = Some ss /\ existsb (has_separator c) (non_empty ss) = false
    /\ n = length (non_empty ss).
Proof.
  unfold lexical_depth, containment_path_segments. intros H.
  destruct (decode_bad_path_uri u); [done|]. destruct (infer_path_convention u) as [c|]; [|done].
  destruct (path_segments u) as [ss|]; [|done]. simpl in H.
  destruct (existsb _ _) eqn:E in H; [done|]. simplify_eq/=. by exists c, ss.
Qed.

Lemma lexical_depth_names u n : lexical_depth u = Some n -> n = length (names u).
Proof.
  intros (c & ss & _ & _ & Hs & _ & ->)%lexical_depth_inv. unfold names, segs. rewrite Hs.
  by rewrite length_fmap.
Qed.

(** ** Equality of identities *)

(** What a URI is compared by: on Windows its host and case-folded decoded
    path. *)
Lemma path_uri_eqb_hash u v : path_uri_eqb u v = true <-> hash u = hash v.
Proof.
  unfold path_uri_eqb, hash. destruct (url_eqb u v) eqn:E.
  { apply url_eqb_eq in E as ->. done. }
  assert (Hne : u <> v) by (intros ->; by rewrite url_eqb_refl in E).
  destruct (windows_identity_path_bytes u) as [p|], (windows_identity_path_bytes v) as [q|];
    try naive_solver.
  rewrite andb_true_iff, host_eqb_eq, eq_ignore_ascii_case_eq. unfold to_ascii_lowercase.
  split; [|naive_solver]. intros [-> Hpq]. rewrite Hpq. f_equal. unfold lenN.
  by rewrite <- (length_fmap ascii_lower p), Hpq, length_fmap.
Qed.

(** ** Containment is the prefix order on names *)

Lemma has_separator_false c s :
  has_separator c s = false -> (slash ∉ name_of s) /\ (c = Windows -> backslash ∉ name_of s).
Proof.
  unfold has_separator. rewrite decode_binary_spec. fold (name_of s). intros H.
  rewrite <- not_true_iff_false, existsb_exists in H. split.
  - intros Hin. apply H. exists slash. by rewrite <- list_elem_of_In.
  - intros -> Hin. apply H. exists backslash. by rewrite <- list_elem_of_In.
Qed.

Lemma ascii_name_of s : ascii s -> name_of s = percent_decode s.
Proof. intros H. unfold name_of. by rewrite as_bytes_ascii. Qed.

Lemma join_ascii ss : Forall ascii ss -> ascii (RustStr.join [slash] ss).
Proof.
  induction 1 as [|s ss Hs Hss IH]; [constructor|]. destruct ss as [|t ss]; [done|].
  change (RustStr.join [slash] (s :: t :: ss)) with (s ++ slash :: RustStr.join [slash] (t :: ss)).
  apply Forall_app. split; [done|]. by constructor.
Qed.

Lemma path_ascii u ss : path_segments u = Some ss -> ascii (path u).
Proof.
  intros H. rewrite (segments_path _ _ H). constructor; [done|]. apply join_ascii.
  eapply Forall_impl; [apply (segments_ok _ _ H)|]. by intros ? [].
Qed.

Lemma segs_ascii u ss : path_segments u = Some ss -> Forall ascii ss.
Proof. intros H. eapply Forall_impl; [apply (segments_ok _ _ H)|]. by intros ? []. Qed.

Lemma fmap_name_of ss : Forall ascii ss -> name_of <$> ss = percent_decode <$> ss.
Proof. intros H. apply Forall_fmap_ext. eapply Forall_impl; [exact H|]. apply ascii_name_of. Qed.

(** The decoded path, in terms of the names. *)
Lemma decoded_path u ss :
  path_segments u = Some ss ->
  decoded_path_bytes u = slash :: RustStr.join [slash] (name_of <$> ss).
Proof.
  intros H. unfold decoded_path_bytes. rewrite decode_binary_spec, as_bytes_ascii by by eapply path_ascii.
  rewrite (segments_path _ _ H), (fmap_name_of ss) by by eapply segs_ascii.
  rewrite percent_decode_unescaped, percent_decode_join by done. done.
Qed.

Lemma lower_slash n : slash ∈ to_ascii_lowercase n <-> slash ∈ n.
Proof.
  unfold to_ascii_lowercase. rewrite list_elem_of_fmap. split.
  - intros (c & Hc & Hin). assert (c = slash) as -> by (unfold ascii_lower, in_range in Hc; case_match; lia). done.
  - intros H. by exists slash.
Qed.

Lemma lower_join ss :
  to_ascii_lowercase (RustStr.join [slash] ss) = RustStr.join [slash] (to_ascii_lowercase <$> ss).
Proof.
  induction ss as [|s [|t ss] IH]; [done..|].
  change (RustStr.join [slash] (s :: t :: ss)) with (s ++ slash :: RustStr.join [slash] (t :: ss)).
  unfold to_ascii_lowercase in *. by rewrite fmap_app, fmap_cons, IH.
Qed.

Lemma name_of_nil s : name_of s = [] <-> s = [].
Proof.
  split; [|by intros ->]. intros H%percent_decode_nil. destruct s as [|c s]; [done|].
  rewrite as_bytes_cons in H. apply app_nil in H as [H _]. by apply encode_char_ne in H.
Qed.

Lemma non_empty_fmap (f : list N -> list N) ss :
  (forall s, f s = [] <-> s = []) -> non_empty (f <$> ss) = f <$> non_empty ss.
Proof.
  intros Hf. induction ss as [|s ss IH]; [done|]. unfold non_empty in *. csimpl. rewrite IH.
  specialize (Hf s). destruct s as [|c s]; simpl; [by rewrite (proj2 Hf eq_refl)|].
  destruct (f (c :: s)) eqn:E; [by pose proof (proj1 Hf eq_refl)|]. done.
Qed.

(** Equal decoded paths have equal names. *)
Lemma identity_names u v p q :
  windows_identity_path_bytes u = Some p -> windows_identity_path_bytes v = Some q ->
  to_ascii_lowercase p = to_ascii_lowercase q ->
  folded Windows u = folded Windows v.
Proof.
  assert (Hid : forall u p, windows_identity_path_bytes u = Some p ->
            exists ss, path_segments u = Some ss /\ p = slash :: RustStr.join [slash] (name_of <$> ss)
              /\ Forall (fun n => slash ∉ to_ascii_lowercase n) (name_of <$> ss) /\ ss <> []).
  { clear u v p q. intros u p. unfold windows_identity_path_bytes. destruct (_ || _); [done|].
    destruct (path_segments u) as [ss|] eqn:Hs; [|done]. destruct (existsb _ _) eqn:E; [done|].
    intros [= <-]. exists ss. split; [done|]. split; [by apply decoded_path|]. split; [|by apply (segments_ok _ _ Hs)].
    apply Forall_fmap, Forall_forall. intros s Hin. simpl. rewrite lower_slash. intros Hsl.
    rewrite <- not_true_iff_false, existsb_exists in E. apply E. exists s. rewrite <- list_elem_of_In.
    split; [done|]. apply existsb_exists. exists slash. rewrite <- list_elem_of_In, decode_binary_spec. done. }
  intros (ss & Hs & -> & Hf & Hne)%Hid (ts & Ht & -> & Hg & Hne')%Hid H.
  unfold folded, names, segs. rewrite Hs, Ht. simpl.
  rewrite !lower_cons, !lower_join in H. injection H as H.
  apply (f_equal (split_on slash)) in H.
  rewrite !split_on_join in H; [|by rewrite Forall_fmap|by destruct ts|by rewrite Forall_fmap|by destruct ss].
  rewrite <- !(non_empty_fmap name_of) by apply name_of_nil. unfold fold.
  rewrite <- !(non_empty_fmap to_ascii_lowercase) by (by intros []).
  by rewrite H.
Qed.

Lemma as_bytes_inj s t : valid_str s -> valid_str t -> as_bytes s = as_bytes t -> s = t.
Proof.
  intros Hs Ht H. assert (E : from_utf8 (as_bytes s) = Ok t) by by apply from_utf8_Ok.
  rewrite (proj2 (from_utf8_Ok _ s)) in E by done. congruence.
Qed.

Lemma prefix_shorter {A} (a b l : list A) :
  a `prefix_of` l -> b `prefix_of` l -> length a <= length b -> a `prefix_of` b.
Proof.
  intros Ha Hb Hle. destruct (prefix_weak_total a b l Ha Hb) as [|H]; [done|].
  by rewrite (prefix_length_eq b a).
Qed.

Definition unicode (s : str) : Prop := exists t, from_utf8 (name_of s) = Ok t.

Lemma segment_matches_fold c p b :
  (c = Windows -> ascii p /\ ascii b /\ unicode p /\ unicode b) ->
  segment_matches c p b = true <-> fold c (name_of p) = fold c (name_of b).
Proof.
  destruct c; simpl; intros Hu.
  { rewrite !decode_binary_spec. apply str_eqb_eq. }
  destruct (Hu eq_refl) as (Hp & Hb & [tp Htp] & [tb Htb]).
  unfold decode_uri_path. rewrite !decode_binary_spec. fold (name_of p) (name_of b).
  rewrite Htp, Htb, orb_true_iff, !eq_ignore_ascii_case_eq.
  apply from_utf8_Ok in Htp as [Hvp Ep], Htb as [Hvb Eb]. split.
  - intros [H|H].
    + rewrite !ascii_name_of by done. by apply percent_decode_fold.
    + by rewrite <- Ep, <- Eb, <- !as_bytes_lower, H.
  - intros H. right. rewrite <- Ep, <- Eb, <- !as_bytes_lower in H.
    eauto using as_bytes_inj, valid_str_lower.
Qed.

Lemma start_with_prefix c ps bs :
  (c = Windows -> Forall ascii ps /\ Forall ascii bs /\ Forall unicode ps /\ Forall unicode bs) ->
  native_path_segments_start_with ps bs c = true <->
  (fold c ∘ name_of <$> bs) `prefix_of` (fold c ∘ name_of <$> ps).
Proof.
  unfold native_path_segments_start_with. revert ps.
  induction bs as [|b bs IH]; intros ps Hu; [split; [intros _; apply prefix_nil|by destruct ps]|].
  destruct ps as [|p ps]; [split; [done|by intros ?%prefix_nil_inv]|]. simpl.
  assert (Hu' : c = Windows ->
    (ascii p /\ ascii b /\ unicode p /\ unicode b) /\
    Forall ascii ps /\ Forall ascii bs /\ Forall unicode ps /\ Forall unicode bs).
  { intros E. destruct (Hu E) as (H1 & H2 & H3 & H4). by inversion_clear H1; inversion_clear H2;
      inversion_clear H3; inversion_clear H4. }
  rewrite andb_true_iff, andb_true_iff, segment_matches_fold by naive_solver.
  specialize (IH ps ltac:(naive_solver)). rewrite andb_true_iff in IH. split.
  - intros (H1 & H2 & H3). simpl. rewrite H2. apply prefix_cons. tauto.
  - intros H. pose proof (prefix_cons_inv_1 _ _ _ _ H). pose proof (prefix_cons_inv_2 _ _ _ _ H).
    simpl in *. naive_solver.
Qed.

Lemma non_empty_Forall (P : str -> Prop) ss : Forall P ss -> Forall P (non_empty ss).
Proof. intros H. apply Forall_forall. intros x Hx. rewrite Forall_forall in H. apply H.
  unfold non_empty in Hx. by apply list_elem_of_In, filter_In in Hx as [Hx%list_elem_of_In _].
Qed.

Lemma identity_None_posix u :
  infer_path_convention u = Some Posix -> windows_identity_path_bytes u = None.
Proof. intros H. unfold windows_identity_path_bytes. by rewrite H. Qed.
Lemma identity_convention u p :
  windows_identity_path_bytes u = Some p -> infer_path_convention u = Some Windows.
Proof.
  unfold windows_identity_path_bytes. destruct (convention_opt_eqb _ _) eqn:E; [|done].
  by apply convention_opt_eqb_eq in E.
Qed.

(** Equal URIs have the same host, convention and names. *)
Lemma path_uri_eqb_names u v :
  path_uri_eqb u v = true -> is_Some (infer_path_convention u) ->
  host_str u = host_str v /\ infer_path_convention u = infer_path_convention v
  /\ forall c, infer_path_convention u = Some c -> folded c u = folded c v.
Proof.
  unfold path_uri_eqb. destruct (url_eqb u v) eqn:E; [by apply url_eqb_eq in E as ->|].
  destruct (windows_identity_path_bytes u) as [p|] eqn:Hp; [|done].
  destruct (windows_identity_path_bytes v) as [q|] eqn:Hq; [|done].
  intros [->%host_eqb_eq Hpq%eq_ignore_ascii_case_eq]%andb_true_iff _.
  pose proof (identity_convention _ _ Hp) as Hu. pose proof (identity_convention _ _ Hq) as Hv.
  split; [done|]. split; [congruence|]. intros c Hc. assert (c = Windows) as -> by congruence.
  by eapply identity_names.
Qed.

(** [starts_with] on regular URIs: same host, same convention and a prefix of
    the names. *)
Lemma starts_with_names u b c :
  regular u -> regular b -> infer_path_convention u = Some c ->
  uri_starts_with u b = true <->
  host_str u = host_str b /\ infer_path_convention b = Some c /\ folded c b `prefix_of` folded c u.
Proof.
  intros [[n Hn] Hu] [[m Hm] Hb] Hc. unfold uri_starts_with.
  destruct (path_uri_eqb u b) eqn:E.
  { split; [|done]. intros _. destruct (path_uri_eqb_names u b E) as (Hh & Hi & Hf); [by eexists|].
    rewrite <- Hi, (Hf c Hc). split_and!; done. }
  destruct (lexical_depth_inv _ _ Hn) as (c1 & ss & Hbad & Hc1 & Hss & Hsep & _).
  destruct (lexical_depth_inv _ _ Hm) as (c2 & ts & Hbad2 & Hc2 & Hts & Hsep2 & _).
  assert (c1 = c) as -> by congruence. rewrite Hbad, Hbad2. simpl.
  destruct (host_eqb (host_str u) (host_str b)) eqn:Eh; simpl.
  2: { split; [done|]. intros (Hh & _). by apply host_eqb_eq in Hh; rewrite Hh in Eh. }
  apply host_eqb_eq in Eh. rewrite Hc, Hc2.
  destruct (convention_opt_eqb (Some c) (Some c2)) eqn:Ec; simpl.
  2: { split; [done|]. intros (_ & Hc' & _). by apply not_true_iff_false in Ec as [];
       apply convention_opt_eqb_eq. }
  apply convention_opt_eqb_eq in Ec as [= <-]. unfold containment_path_segments.
  rewrite Hss, Hts, Hsep, Hsep2. rewrite start_with_prefix.
  - unfold folded, names, segs. rewrite Hss, Hts, <- !list_fmap_compose. naive_solver.
  - intros ->. unfold segs in Hu, Hb. rewrite Hss in Hu. rewrite Hts in Hb.
    specialize (Hu Hc). specialize (Hb Hc2).
    split_and!; [..|done|done]; apply non_empty_Forall; by eapply segs_ascii.
Qed.

(** The order it gives on regular URIs. *)
Lemma starts_with_refl u : uri_starts_with u u = true.
Proof.
  unfold uri_starts_with. replace (path_uri_eqb u u) with true; [done|].
  symmetry. by apply path_uri_eqb_hash.
Qed.
Lemma starts_with_trans u v w :
  regular u -> regular v -> regular w ->
  uri_starts_with u v = true -> uri_starts_with v w = true -> uri_starts_with u w = true.
Proof.
  intros Hu Hv Hw. destruct (lexical_depth_inv u (default 0 (lexical_depth u))) as (c & _ & _ & Hc & _).
  { by destruct Hu as [[n ->] _]. }
  rewrite (starts_with_names u v c) by done. intros (H1 & H2 & H3).
  rewrite (starts_with_names v w c), (starts_with_names u w c) by done. intros (H4 & H5 & H6).
  split_and!; [congruence|done|by etransitivity].
Qed.
Lemma starts_with_comparable u a b :
  regular u -> regular a -> regular b ->
  uri_starts_with u a = true -> uri_starts_with u b = true ->
  default 0 (lexical_depth a) <= default 0 (lexical_depth b) -> uri_starts_with b a = true.
Proof.
  intros Hu Ha Hb. destruct (lexical_depth_inv u (default 0 (lexical_depth u))) as (c & _ & _ & Hc & _).
  { by destruct Hu as [[n ->] _]. }
  rewrite !(starts_with_names u _ c) by done. intros (H1 & H2 & H3) (H4 & H5 & H6) Hd.
  rewrite (starts_with_names b a c) by done. split_and!; [congruence|done|].
  destruct Ha as [[n Hn] _], Hb as [[m Hm] _]. rewrite Hn, Hm in Hd. simpl in Hd.
  apply lexical_depth_names in Hn as ->, Hm as ->.
  apply (prefix_shorter _ _ (folded c u)); [done..|]. unfold folded. by rewrite !length_fmap.
Qed.
Lemma starts_with_depth u b n m :
  regular u -> regular b -> lexical_depth u = Some n -> lexical_depth b = Some m ->
  uri_starts_with u b = true -> m <= n.
Proof.
  intros Hu Hb Hn Hm Hsw. destruct (lexical_depth_inv u n Hn) as (c & _ & _ & Hc & _).
  destruct (proj1 (starts_with_names u b c Hu Hb Hc) Hsw) as (_ & _ & H%prefix_length).
  apply lexical_depth_names in Hn as ->, Hm as ->. unfold folded in H. by rewrite !length_fmap in H.
Qed.

End Laws.
