(* ===== verification/PathJoin.v ===== *)
(** * PathJoin: valid URIs, and joining as lexical resolution

    Every URI the constructors of PathUri.v return is [valid]; [parent] and
    [join] keep that and never panic; on POSIX paths [join] computes the
    lexical resolution of the components, whichever of its two code paths it
    takes. *)

From S2P Require Import Prelude RustStr PathUri PathLaws.
From Stdlib Require Import ZifyBool.

Section Join.
Context {UL : UrlLib} {laws : UrlLaws UL}.

(** ** Valid URIs *)

(** What [TryFrom<Url>] establishes: a file URL without credentials, port, query
    or fragment, no NUL byte outside the fallback namespace, no [localhost]
    host and an upper-case drive letter. *)
Record valid (u : Url) : Prop := {
  valid_file : bare_file u;
  valid_nul : 0%N ∈ decoded_path_bytes u -> is_Some (decode_bad_path_uri u);
  valid_host : host_str u <> Some (lit "localhost");
  valid_drive s : host_str u = None -> head (non_empty (segs u)) = Some s ->
    is_windows_drive_uri_segment s = true -> exists c r, s = c :: r /\ is_ascii_uppercase c = true;
}.

Lemma bare_segments u : bare_file u -> exists ss, path_segments u = Some ss /\ segs u = ss.
Proof.
  intros [H _]. destruct (file_segments u H) as [ss Hs]. exists ss. unfold segs. by rewrite Hs.
Qed.

Lemma same_origin_bare u v : same_origin v u -> bare_file u -> bare_file v.
Proof. unfold same_origin, bare_file. intuition congruence. Qed.

(** A fallback URI has the path it was built with, hence a NUL. *)
Lemma bad_path_shape u bs :
  bare_file u -> decode_bad_path_uri u = Some bs ->
  default [] (host_str u) = [] /\ exists e, path u = lit "/%00/bad/path/" ++ e.
Proof.
  intros Hu. unfold decode_bad_path_uri. destruct (strip_prefix _ _) as [e|] eqn:E; [|done]. intros _.
  apply strip_prefix_Some in E. rewrite as_str_file in E by done.
  change BAD_PATH_URI_PREFIX with (lit "file://" ++ lit "/%00/bad/path/") in E.
  rewrite <- app_assoc in E. apply (app_inv_head (lit "file://")) in E.
  destruct (host_str u) as [h|] eqn:Hh; simpl in E; [|split; [done|by exists e]].
  destruct h as [|x h]; simpl in *; [split; [done|by exists e]|]. exfalso. apply (host_no_slash u _ Hh).
  change (lit "/%00/bad/path/") with (slash :: lit "%00/bad/path/") in E.
  injection E as -> _. left.
Qed.

Lemma bad_path_nul u bs :
  bare_file u -> decode_bad_path_uri u = Some bs -> 0%N ∈ decoded_path_bytes u.
Proof.
  intros Hu H. destruct (bad_path_shape u bs Hu H) as (_ & e & He).
  destruct (bare_segments u Hu) as (ss & Hs & _).
  unfold decoded_path_bytes. rewrite decode_binary_spec, as_bytes_ascii by by eapply path_ascii.
  rewrite He. change (lit "/%00/bad/path/") with (lit "/%00" ++ slash :: lit "bad/path/").
  rewrite <- app_assoc, <- app_comm_cons, (percent_decode_slash (lit "/%00")).
  apply elem_of_app. left. by vm_compute; right; left.
Qed.

(** A valid URI is opaque exactly when its path holds a NUL. *)
Lemma valid_opaque_nul u : valid u -> is_Some (decode_bad_path_uri u) <-> 0%N ∈ decoded_path_bytes u.
Proof. intros [Hu Hn _ _]. split; [intros [bs H]; by eapply bad_path_nul|done]. Qed.

(** The first non-empty segment is what follows the leading slashes. *)
Lemma head_trim ss :
  Forall (fun s => slash ∉ s) ss ->
  head (non_empty ss) =
  match trim_start_matches (N.eqb slash) (RustStr.join [slash] ss) with
  | [] => None
  | r => head (split_on slash r)
  end.
Proof.
  induction 1 as [|s ss Hs Hss IH]; [done|].
  assert (Hj : exists t, RustStr.join [slash] (s :: ss) = s ++ t
             /\ (t = [] /\ ss = [] \/ t = slash :: RustStr.join [slash] ss)).
  { destruct ss as [|q ss]; [exists []; rewrite app_nil_r; auto|]. eexists. split; [reflexivity|]. by right. }
  destruct Hj as (t & -> & Ht). destruct s as [|c s].
  - simpl. destruct Ht as [[-> ->]| ->]; [done|]. simpl. exact IH.
  - assert (Hc : (slash =? c)%N = false).
    { apply N.eqb_neq. intros <-. apply Hs. left. }
    cbn [app trim_start_matches]. rewrite Hc. unfold split_on.
    assert (Hf : Forall (fun d => (d =? slash)%N = false) (c :: s)).
    { apply Forall_forall. intros d Hd. apply N.eqb_neq. by intros ->. }
    change (c :: s ++ t) with ((c :: s) ++ t).
    destruct Ht as [[-> ->]| ->]; [by rewrite app_nil_r, split_by_none|by rewrite split_by_app].
Qed.

Lemma leading_trim p : leading_slashes p ++ trim_start_matches (N.eqb slash) p = p.
Proof.
  induction p as [|c p IH]; [done|].
  cbn [leading_slashes trim_start_matches]. rewrite (N.eqb_sym slash).
  destruct (c =? slash)%N; simpl; [by rewrite IH|done].
Qed.
Lemma leading_all p : Forall (eq slash) (leading_slashes p).
Proof.
  induction p as [|c p IH]; simpl; [done|]. destruct (N.eqb_spec c slash) as [->|]; [by constructor|done].
Qed.
Lemma trim_leading lead p :
  Forall (eq slash) lead -> trim_start_matches (N.eqb slash) (lead ++ p) = trim_start_matches (N.eqb slash) p.
Proof. by induction 1 as [|c lead <- _ IH]. Qed.

Lemma path_head u :
  bare_file u ->
  head (non_empty (segs u)) =
  match trim_start_matches (N.eqb slash) (path u) with [] => None | r => head (split_on slash r) end.
Proof.
  intros (ss & Hs & ->)%bare_segments. rewrite (segments_path _ _ Hs), head_trim; [done|].
  eapply Forall_impl; [apply (segments_ok _ _ Hs)|]. by intros ? [].
Qed.

Lemma drive_alphabetic c r :
  is_windows_drive_uri_segment (c :: r) = true -> is_ascii_alphabetic c = true.
Proof.
  unfold is_windows_drive_uri_segment. rewrite as_bytes_cons. destruct (N.ltb_spec c 128).
  - rewrite encode_char_ascii by done. simpl. intros Hd. repeat case_match; try done.
    all: by destruct (is_ascii_alphabetic c).
  - assert (Hb : forall b bs, encode_char c = b :: bs -> (128 <= b)%N).
    { intros b bs. unfold encode_char. rewrite (proj2 (N.ltb_ge c 128)) by done.
      generalize (c / 64)%N, (c / 4096)%N, (c / 262144)%N. intros q1 q2 q3.
      repeat case_match; intros [= <- _]; lia. }
    destruct (encode_char c) as [|b bs] eqn:E; [by apply encode_char_ne in E|].
    specialize (Hb b bs eq_refl). assert (Ha : is_ascii_alphabetic b = false).
    { unfold is_ascii_alphabetic, is_ascii_uppercase, is_ascii_lowercase, in_range. lia. }
    simpl. intros Hd. repeat case_match; simplify_eq; rewrite ?Ha in Hd; done.
Qed.

(** ** Construction establishes validity *)

Lemma validate_common u : validate_common_known_uri u = Ok tt -> scheme u = lit "file" -> bare_file u.
Proof.
  unfold validate_common_known_uri, bare_file. intros H Hs.
  destruct (username u), (password u), (port u), (query u), (fragment u); try done.
Qed.

Lemma decoded_lower u v :
  bare_file u -> bare_file v -> to_ascii_lowercase (path u) = to_ascii_lowercase (path v) ->
  0%N ∈ decoded_path_bytes u -> 0%N ∈ decoded_path_bytes v.
Proof.
  assert (H0 : forall n, 0%N ∈ to_ascii_lowercase n <-> 0%N ∈ n).
  { intros n. unfold to_ascii_lowercase. rewrite list_elem_of_fmap. split; [|by exists 0%N].
    intros (c & Hc & Hin). assert (c = 0%N) as ->; [|done].
    unfold ascii_lower, in_range in Hc. case_match; lia. }
  intros (ss & Hs & _)%bare_segments (ts & Ht & _)%bare_segments H.
  unfold decoded_path_bytes. rewrite !decode_binary_spec, !as_bytes_ascii by by eapply path_ascii.
  rewrite <- H0, (percent_decode_fold _ _ H), H0. done.
Qed.

(** Upper-casing the drive letter keeps everything else. *)
Lemma normalized_drive u :
  bare_file u ->
  let v := with_normalized_windows_drive_letter u in
  bare_file v /\ host_str v = host_str u
  /\ to_ascii_lowercase (path v) = to_ascii_lowercase (path u)
  /\ (forall s, host_str v = None -> head (non_empty (segs v)) = Some s ->
        is_windows_drive_uri_segment s = true -> exists c r, s = c :: r /\ is_ascii_uppercase c = true)
  /\ (v = u \/ exists c r, head (non_empty (segs u)) = Some (c :: r)
                        /\ is_windows_drive_uri_segment (c :: r) = true).
Proof.
  intros Hu. unfold with_normalized_windows_drive_letter.
  destruct (host_str u) eqn:Hh; [split_and!; [done..|congruence|by left]|].
  pose proof (path_head u Hu) as Hhead. pose proof (leading_trim (path u)) as Hlead.
  destruct (trim_start_matches _ _) as [|letter rest] eqn:Htrim.
  { split_and!; [done..| |by left]. rewrite Hhead. done. }
  assert (Hfirst : (slash =? letter)%N = false).
  { destruct (slash =? letter)%N eqn:E; [|done]. exfalso. revert Htrim E. clear.
    induction (path u) as [|c q IH]; cbn [trim_start_matches]; [done|].
    destruct (slash =? c)%N eqn:Ec; [done|]. intros [= -> ->]. congruence. }
  assert (Hsplit : forall c, (slash =? c)%N = false -> exists r, head (split_on slash (c :: rest)) = Some (c :: r)
            /\ forall d, (slash =? d)%N = false -> head (split_on slash (d :: rest)) = Some (d :: r)).
  { intros c Hc. unfold split_on. cbn [split_by]. rewrite N.eqb_sym, Hc.
    destruct (split_by _ rest) as [|q qs] eqn:E; [by apply split_by_ne in E|]. exists q. split; [done|].
    intros d Hd. by rewrite N.eqb_sym, Hd. }
  destruct (Hsplit letter Hfirst) as (r & Hr & Hr'). rewrite Hr in *.
  destruct (negb (is_windows_drive_uri_segment (letter :: r)) || is_ascii_uppercase letter) eqn:E.
  { split_and!; [done..| |by left]. intros s _ Hs Hd. rewrite Hhead in Hs. simplify_eq.
    exists letter, r. split; [done|]. by rewrite Hd in E. }
  apply orb_false_iff in E as [Ed%negb_false_iff Eu].
  pose proof (drive_alphabetic _ _ Ed) as Halpha.
  destruct (set_path_drive u (leading_slashes (path u)) letter rest) as (Ho & Hh' & Hp);
    [done|apply leading_all|done|].
  set (v := set_path _ u) in *. assert (Hv : bare_file v) by by eapply same_origin_bare.
  assert (Hup : (slash =? ascii_upper letter)%N = false /\ is_ascii_uppercase (ascii_upper letter) = true
                /\ ascii_lower (ascii_upper letter) = ascii_lower letter).
  { unfold ascii_upper, ascii_lower, is_ascii_alphabetic, is_ascii_uppercase, is_ascii_lowercase, in_range in *.
    repeat case_match; lia. }
  destruct Hup as (Hup1 & Hup2 & Hup3).
  split_and!; [done|congruence| | |right; by exists letter, r].
  - rewrite Hp. rewrite <- Hlead at 2. unfold to_ascii_lowercase.
    by rewrite !fmap_app, !fmap_cons, Hup3.
  - intros s _ Hs Hd. rewrite path_head, Hp, trim_leading in Hs by (done || apply leading_all).
    cbn [trim_start_matches] in Hs. rewrite Hup1, (Hr' _ Hup1) in Hs. simplify_eq. by exists (ascii_upper letter), r.
Qed.

Lemma bad_path_head e :
  match trim_start_matches (N.eqb slash) (lit "/%00/bad/path/" ++ e) with
  | [] => None
  | r => head (split_on slash r)
  end = Some [37; 48; 48]%N.
Proof. reflexivity. Qed.

Lemma without_localhost u :
  bare_file u -> exists v, without_localhost_authority u = Return v /\ bare_file v
    /\ path v = path u /\ host_str v <> Some (lit "localhost")
    /\ (v = u \/ host_str u = Some (lit "localhost")).
Proof.
  intros Hu. unfold without_localhost_authority. destruct (host_eqb _ _) eqn:E.
  - apply host_eqb_eq in E. destruct (set_host_none u Hu) as (v & -> & Ho & Hh & Hs).
    exists v. assert (Hv : bare_file v) by by eapply same_origin_bare.
    split_and!; [done..| |by rewrite Hh|by right].
    destruct (bare_segments u Hu) as (ss & Hss & _).
    by rewrite (segments_path u ss), (segments_path v ss) by congruence.
  - exists u. split_and!; [done..| |by left]. intros H. apply host_eqb_eq in H. congruence.
Qed.

Lemma try_from_spec u :
  try_from u <> Panic /\ forall v, try_from u = Return v -> valid v.
Proof.
  unfold try_from. destruct (str_eqb (scheme u) (lit "file")) eqn:Es; [|done]. apply str_eqb_eq in Es. simpl.
  destruct (validate_file_url u) as [[]|] eqn:Hval; [|done]. unfold validate_file_url in Hval.
  apply result_bind_Ok in Hval as ([] & Hc & Hnul).
  pose proof (validate_common u Hc Es) as Hu.
  destruct (without_localhost u Hu) as (w & Hw & Hwf & Hwp & Hwh & Hwu). rewrite Hw. simpl.
  split; [done|]. intros v [= <-].
  destruct (normalized_drive w Hwf) as (Hv & Hh & Hp & Hd & Hsame).
  set (v := with_normalized_windows_drive_letter w) in *.
  split; [done| |congruence|exact Hd]. intros H0.
  assert (H0u : 0%N ∈ decoded_path_bytes u).
  { eapply (decoded_lower v u); [done..| |done]. by rewrite Hp, Hwp. }
  apply contains_char_spec in H0u. rewrite H0u in Hnul.
  destruct (decode_bad_path_uri u) as [bs|] eqn:Hbad; [|done].
  destruct (bad_path_shape u bs Hu Hbad) as (Hhost & e & He).
  assert (w = u) as -> by (destruct Hwu as [|Hl]; [done|]; by rewrite Hl in Hhost).
  destruct Hsame as [-> |(c & r & Hhd & Hdr)]; [by eexists|].
  exfalso. rewrite path_head, He in Hhd by done.
  rewrite bad_path_head in Hhd. by simplify_eq.
Qed.

Lemma parse_spec uri : parse uri <> Panic /\ forall v, parse uri = Return v -> valid v.
Proof. unfold parse. destruct (url_parse uri) as [u|]; [apply try_from_spec|done]. Qed.

(** Fallback URIs never fail on bytes. *)
Lemma from_opaque_spec bs :
  bs <> [] -> Forall (fun b => b < 256)%N bs ->
  exists u, from_opaque_path_bytes bs = Return u /\ valid u /\ decode_bad_path_uri u = Some bs.
Proof.
  intros Hne Hbs. unfold from_opaque_path_bytes, parse.
  destruct (parse_fallback bs Hbs) as (u & -> & Hu & Hh & Hp).
  assert (Hbad : decode_bad_path_uri u = Some bs).
  { unfold decode_bad_path_uri. rewrite as_str_file, Hh, Hp by done.
    change (lit "file://" ++ default [] None ++ lit "/%00/bad/path/" ++ b64_encode bs)
      with (BAD_PATH_URI_PREFIX ++ b64_encode bs). rewrite strip_prefix_app.
    destruct (b64_text bs) as [Hs He]. destruct (is_empty (b64_encode bs)) eqn:E.
    { exfalso. apply Hne, He. by destruct (b64_encode bs). }
    replace (contains_char slash (b64_encode bs)) with false; [simpl|].
    - rewrite b64_round by done. by rewrite str_eqb_refl.
    - symmetry. apply contains_char_false. rewrite Forall_forall in Hs. intros H. by apply (Hs _ H). }
  pose proof (bad_path_nul u bs Hu Hbad) as H0.
  destruct (try_from u) as [v|e|] eqn:Ht; unfold try_from in Ht.
  - exists v. split; [done|]. pose proof (proj2 (try_from_spec u) v Ht). split; [done|].
    destruct Hu as (Hsch & Hr) eqn:E. rewrite Hsch in Ht. simpl in Ht.
    destruct (validate_file_url u); [|done]. unfold without_localhost_authority in Ht. rewrite Hh in Ht.
    simpl in Ht. injection Ht as <-.
    destruct (normalized_drive u Hu) as (_ & _ & _ & _ & [->|(c & r & Hhd & Hdr)]); [done|].
    rewrite path_head, Hp, bad_path_head in Hhd by done. by simplify_eq.
  - exfalso. revert Ht. destruct Hu as (-> & Hus & Hpw & Hpo & Hq & Hf). simpl.
    unfold validate_file_url, validate_common_known_uri.
    rewrite Hus, Hpw, Hpo, Hq, Hf, Hbad. simpl. rewrite andb_false_r.
    unfold without_localhost_authority. by rewrite Hh.
  - exfalso. by apply (proj1 (try_from_spec u)).
Qed.

Lemma encoding_bytes c bs : encoding c bs -> Forall (fun b => b < 256)%N bs.
Proof.
  assert (H : forall b0 b1, second_ok b0 b1 = true -> (b1 < 256)%N).
  { intros b0 b1. unfold second_ok, is_cont, in_range. repeat case_match; lia. }
  intros []; repeat constructor; eauto; lia.
Qed.
Lemma as_bytes_bytes s : valid_str s -> Forall (fun b => b < 256)%N (as_bytes s).
Proof.
  induction 1 as [|c s Hc _ IH]; [constructor|]. rewrite as_bytes_cons. apply Forall_app.
  split; [by eapply encoding_bytes, encode_char_spec|done].
Qed.
Lemma utf16_bytes s : valid_str s -> Forall (fun b => b < 256)%N (s ≫= encode_utf16_le).
Proof.
  induction 1 as [|c s Hc _ IH]; [constructor|]. csimpl. apply Forall_app. split; [|done].
  assert (Hu : forall w, (w < 65536)%N -> Forall (fun b => b < 256)%N [(w mod 256)%N; (w / 256)%N]).
  { intros w Hw. constructor; [by apply N.mod_lt|]. constructor; [|done]. by apply N.Div0.div_lt_upper_bound. }
  unfold encode_utf16_le. destruct (N.ltb_spec c 65536); [auto|].
  unfold valid_char, in_range in Hc.
  assert ((c - 65536) / 1024 < 1024)%N by (apply N.Div0.div_lt_upper_bound; lia).
  pose proof (N.mod_lt (c - 65536) 1024 ltac:(done)). apply Forall_app; split; apply Hu; lia.
Qed.

Lemma windows_opaque_spec p :
  p <> [] -> valid_str p -> exists u, windows_opaque_path_uri p = Return u /\ valid u.
Proof.
  intros Hne Hp. destruct (from_opaque_spec (p ≫= encode_utf16_le)) as (u & Hu & Hv & _).
  - destruct p as [|c p]; [done|]. csimpl. unfold encode_utf16_le. by case_match.
  - by apply utf16_bytes.
  - by exists u.
Qed.

(** An operation that does not panic and returns valid URIs only. *)
Definition safe (o : outcome PathUriParseError Url) : Prop :=
  o <> Panic /\ forall v, o = Return v -> valid v.
Definition safe_opt (o : outcome PathUriParseError (option Url)) : Prop :=
  o <> Panic /\ forall v, o = Return (Some v) -> valid v.

Lemma safe_try_from u : safe (try_from u).
Proof. apply try_from_spec. Qed.
Lemma safe_opt_None : safe_opt (Return None).
Proof. done. Qed.
Lemma safe_opt_valid v : valid v -> safe_opt (Return (Some v)).
Proof. intros H. split; [done|]. by intros ? [= ->]. Qed.
Lemma safe_opt_windows p : p <> [] -> valid_str p -> safe_opt (Some <$> windows_opaque_path_uri p).
Proof. intros Hne Hp. destruct (windows_opaque_spec p Hne Hp) as (u & -> & Hu). by apply safe_opt_valid. Qed.
Lemma safe_opt_bytes p : p <> [] -> valid_str p -> safe_opt (Some <$> from_opaque_path_bytes (as_bytes p)).
Proof.
  intros Hne Hp. destruct (from_opaque_spec (as_bytes p)) as (u & -> & Hu & _);
    [|by apply as_bytes_bytes|by apply safe_opt_valid].
  destruct p; [done|]. rewrite as_bytes_cons. intros [E _]%app_nil. by apply encode_char_ne in E.
Qed.
Lemma safe_opt_bind o k :
  safe_opt o -> (forall r, (forall v, r = Some v -> valid v) -> safe_opt (k r)) -> safe_opt (o ≫= k).
Proof. intros [H1 H2] Hk. destruct o as [r|e|]; [|done|done]. apply Hk. intros v ->. by apply H2. Qed.

Lemma safe_from_segments c h ss : safe_opt (path_uri_from_segments c h ss).
Proof.
  unfold path_uri_from_segments. destruct (url_parse _) as [u|]; [|apply safe_opt_None].
  destruct (match h with Some h => set_host (Some h) u | None => Some u end) as [v|]; [|apply safe_opt_None].
  cbv zeta. destruct (foldl _ _ ss) as [[kept depth] trailing].
  destruct (path_segments v); [|apply safe_opt_None].
  match goal with |- context [try_from ?w] => destruct (try_from_spec w) as [H1 H2]; destruct (try_from w) end;
    [|apply safe_opt_None|done]. apply safe_opt_valid. by apply H2.
Qed.

Lemma safe_parse_posix p : valid_str p -> safe_opt (parse_posix_path p).
Proof.
  intros Hp. unfold parse_posix_path. destruct (strip_prefix _ _) as [r|] eqn:E; [|apply safe_opt_None].
  apply strip_prefix_Some in E as ->. case_match; [|apply safe_from_segments]. by apply safe_opt_bytes.
Qed.

Lemma safe_parse_unnormalized p : valid_str p -> safe_opt (parse_unnormalized_windows_path p).
Proof.
  intros Hp. unfold parse_unnormalized_windows_path.
  assert (Hw : p <> [] -> safe_opt (Some <$> windows_opaque_path_uri p)).
  { intros Hne. by apply safe_opt_windows. }
  destruct p as [|c p].
  { apply safe_opt_None. }
  specialize (Hw ltac:(done)).
  repeat (match goal with |- safe_opt (if ?b then _ else _) => destruct b
          | |- safe_opt (match ?l with [] => _ | _ => _ end) => destruct l end;
          try apply safe_opt_None; try apply safe_from_segments; try exact Hw).
  apply safe_opt_bind; [apply safe_from_segments|]. intros [v|] Hv; [|exact Hw].
  case_match; [|exact Hw]. apply safe_opt_valid. by apply Hv.
Qed.

Lemma valid_str_suffix s p r : valid_str p -> strip_prefix s p = Some r -> valid_str r.
Proof. intros Hp ->%strip_prefix_Some. by apply Forall_app in Hp as [_ ?]. Qed.

Lemma normalize_device_valid p q :
  valid_str p -> normalize_windows_device_path p = Some q -> valid_str q /\ p <> [].
Proof.
  intros Hp. assert (Hb : valid_str (lit "\\")) by by repeat constructor.
  assert (Hrest : forall prefix r, strip_device_drive prefix p = Some r -> valid_str r).
  { intros prefix r. unfold strip_device_drive. destruct (strip_prefix prefix _) eqn:E; [|done].
    case_match; [|done]. intros [= <-]. exact (valid_str_suffix _ _ _ Hp E). }
  assert (Hunc : forall prefix r, strip_prefix prefix p = Some r -> valid_str (lit "\\" ++ r)).
  { intros prefix r E. apply Forall_app. split; [done|]. exact (valid_str_suffix _ _ _ Hp E). }
  intros H. split; [|by intros ->]. revert H. unfold normalize_windows_device_path.
  destruct (strip_prefix (lit "\\?\UNC\") _) eqn:E1; [intros [= <-]; by eapply Hunc|].
  destruct (strip_prefix (lit "\\.\UNC\") _) eqn:E2; [intros [= <-]; by eapply Hunc|].
  destruct (strip_device_drive (lit "\\?\") p) eqn:E3; [intros [= <-]; by eapply Hrest|]. apply Hrest.
Qed.

Lemma safe_parse_windows p : valid_str p -> safe_opt (parse_windows_path p).
Proof.
  intros Hp. unfold parse_windows_path. destruct (normalize_windows_device_path p) as [q|] eqn:E.
  2: by apply safe_parse_unnormalized.
  destruct (normalize_device_valid p q Hp E) as [Hq Hne].
  pose proof (safe_opt_windows p Hne Hp) as Hw. cbv zeta.
  match goal with |- safe_opt (if ?b then _ else _) => destruct b; [exact Hw|] end.
  apply safe_opt_bind; [by apply safe_parse_unnormalized|]. intros [v|] Hv; [|exact Hw].
  case_match; [|exact Hw]. apply safe_opt_valid. by apply Hv.
Qed.

Lemma safe_from_absolute p c : p <> [] -> valid_str p -> safe_opt (from_absolute_native_path p c).
Proof.
  intros Hne Hp. unfold from_absolute_native_path. apply safe_opt_bind.
  { destruct c; [by apply safe_parse_posix|by apply safe_parse_windows]. }
  intros [v|] Hv; [|apply safe_opt_None]. case_match; [apply safe_opt_valid; by apply Hv|].
  destruct c; [by apply safe_opt_bytes|by apply safe_opt_windows].
Qed.

Lemma safe_join_relative u c p : valid u -> safe (join_relative u c p).
Proof.
  intros [Hu _ _ _]. unfold join_relative. destruct (bare_segments u Hu) as (ss & -> & _).
  cbv zeta. case_match. apply safe_try_from.
Qed.

Lemma safe_join u p : valid u -> valid_str p -> safe (uri_join u p).
Proof.
  intros Hu Hp. unfold uri_join. destruct (contains_char 0 p); [done|].
  destruct p as [|x p]; [split; [done|]; by intros ? [= <-]|]. cbn [is_empty].
  destruct (infer_path_convention u) as [c|]; [|done].
  destruct (safe_from_absolute (x :: p) c ltac:(done) Hp) as [H1 H2].
  destruct (from_absolute_native_path (x :: p) c) as [[v|]|e|]; [|cbv zeta; simpl|done|done].
  - simpl. split; [done|]. intros ? [= <-]. by apply H2.
  - assert (Hr : forall q, safe match decode_bad_path_uri u with
                          | Some _ => Throw (InvalidFileUriPath (as_str u))
                          | None => join_relative u c q end).
    { intros q. case_match; [done|]. by apply safe_join_relative. }
    repeat case_match; try apply Hr; done.
Qed.

Lemma safe_join_descendant u p : valid u -> valid_str p -> safe (join_descendant u p).
Proof.
  intros Hu Hp. unfold join_descendant. destruct (safe_join u p Hu Hp) as [H1 H2].
  destruct (uri_join u p) as [v|e|]; simpl; [|done..]. case_match; [done|].
  split; [done|]. intros ? [= <-]. by apply H2.
Qed.

Lemma safe_join_native_bytes u p : valid u -> safe (join_native_bytes u p).
Proof.
  intros Hu. unfold join_native_bytes. destruct (from_utf8 p) as [q|] eqn:E.
  - apply safe_join; [done|]. by apply from_utf8_Ok in E as [? _].
  - destruct (_ || _ || _); [done|]. cbv zeta. destruct (try_from_spec (set_path (slash :: RustStr.join [slash]
      (foldl push_native (if starts_with [slash] p then [] else non_empty (split_on slash (path u)))
         (split_on slash p))) u)) as [H1 H2].
    destruct (try_from _) as [v|er|]; simpl; [|done|done]. case_match; [done|].
    split; [done|]. intros ? [= <-]. by apply H2.
Qed.

(** ** Parents and ancestors *)

Lemma non_empty_app ss ts : non_empty (ss ++ ts) = non_empty ss ++ non_empty ts.
Proof. apply List.filter_app. Qed.

Lemma pop_empty_cases ss :
  pop_empty_segment ss = ss \/ exists l, l <> [] /\ ss = l ++ [[]] /\ pop_empty_segment ss = l.
Proof.
  destruct ss as [|x ss _] using rev_ind; [by left|]. unfold pop_empty_segment.
  rewrite last_snoc, removelast_last. destruct ss as [|y ss]; [by left|].
  destruct x as [|c x]; simpl.
  - right. exists (y :: ss). split_and!; [done..|]. by destruct (ss ++ [[]]) eqn:E; [destruct ss|].
  - left. by destruct (ss ++ _).
Qed.
Lemma pop_cases ss :
  ss <> [] ->
  (exists x, ss = [x] /\ pop_segments ss = [[]])
  \/ exists l x, l <> [] /\ ss = l ++ [x] /\ pop_segments ss = l.
Proof.
  destruct ss as [|x ss _] using rev_ind; [done|]. intros _. destruct ss as [|y ss]; [left; by exists x|].
  right. exists (y :: ss), x. split_and!; [done..|]. unfold pop_segments. simpl.
  destruct (ss ++ [x]) eqn:E; [by destruct ss|]. rewrite <- E. f_equal. apply removelast_last.
Qed.

Lemma pop_empty_non_empty ss : non_empty (pop_empty_segment ss) = non_empty ss.
Proof.
  destruct (pop_empty_cases ss) as [->|(l & _ & -> & ->)]; [done|].
  by rewrite non_empty_app, app_nil_r.
Qed.

(** [pop] removes at most one name, the last. *)
Lemma pop_non_empty ss :
  ss <> [] -> exists x, non_empty ss = non_empty (pop_segments ss) ++ x /\ length x <= 1
  /\ (length (pop_segments ss) < length ss \/ non_empty (pop_segments ss) = []).
Proof.
  assert (Hx : forall x, length (non_empty [x]) <= 1) by (intros []; simpl; lia).
  intros [(x & -> & ->)|(l & x & _ & -> & ->)]%pop_cases; exists (non_empty [x]).
  - split_and!; [done..|by right].
  - rewrite non_empty_app. split_and!; [done..|]. left. lens.
Qed.

(** What [parent] returns: the same URI with at most its last name removed. *)
Lemma parent_segments u v :
  valid u -> parent u = Some v ->
  decode_bad_path_uri u = None /\ bare_file v /\ host_str v = host_str u
  /\ (exists x, non_empty (segs u) = non_empty (segs v) ++ x /\ length x <= 1)
  /\ (length (segs v) < length (segs u) \/ non_empty (segs v) = [])
  /\ exists c, infer_path_convention u = Some c /\ anchor_depth c < length (non_empty (segs u))
  /\ exists ss ts, path_segments u = Some ss /\ path_segments v = Some ts /\ (forall t, t ∈ ts -> t = [] \/ t ∈ ss).
Proof.
  intros Hv. unfold parent. destruct (decode_bad_path_uri u); [done|].
  destruct (infer_path_convention u) as [c|]; [|done].
  destruct (bare_segments u) as (ss & Hs & Hseg); [apply Hv|]. rewrite Hs, Hseg.
  destruct (Nat.leb_spec (length (non_empty ss)) (anchor_depth c)); [done|]. intros [= <-].
  pose proof (pop_path _ _ (pop_if_empty_path _ _ Hs)) as Hp.
  set (ts := pop_segments (pop_empty_segment ss)) in *.
  assert (Hne : pop_empty_segment ss <> []).
  { intros E. assert (Hl : non_empty (pop_empty_segment ss) = []) by by rewrite E.
    rewrite pop_empty_non_empty in Hl. rewrite Hl in H. simpl in H. lia. }
  destruct (pop_non_empty _ Hne) as (x & Hx & Hx1 & Hlen). fold ts in Hx, Hlen.
  rewrite pop_empty_non_empty in Hx.
  assert (length (pop_empty_segment ss) <= length ss).
  { destruct (pop_empty_cases ss) as [->|(l & _ & -> & ->)]; lens. }
  split_and!; [done| | |..].
  - eapply same_origin_bare; [apply edit_origin|]. eapply same_origin_bare; [apply edit_origin|]. apply Hv.
  - destruct (edit_host (pop_if_empty u)) as (_ & _ & ->). apply edit_host.
  - exists x. unfold segs. by rewrite Hp.
  - unfold segs. rewrite Hp. simpl. destruct Hlen; [left; lia|by right].
  - exists c. split_and!; [done|done|]. exists ss, ts. split_and!; [done..|]. unfold ts.
    intros t Ht.
    destruct (pop_cases _ Hne) as [(x' & _ & E)|(l & x' & _ & E & El)].
    { rewrite E in Ht. apply list_elem_of_singleton in Ht. by left. }
    right. rewrite El in Ht. assert (Hin : t ∈ pop_empty_segment ss) by (rewrite E; apply elem_of_app; by left).
    destruct (pop_empty_cases ss) as [E2|(k & _ & E2 & E3)]; [congruence|].
    rewrite E2. apply elem_of_app. left. congruence.
Qed.

Lemma elem_of_join x ns :
  x <> slash -> x ∈ RustStr.join [slash] ns <-> exists n, n ∈ ns /\ x ∈ n.
Proof.
  intros Hx. induction ns as [|n ns IH].
  { split; [by intros ?%elem_of_nil|]. by intros (? & ?%elem_of_nil & _). }
  assert (Hj : x ∈ RustStr.join [slash] (n :: ns) <-> x ∈ n \/ x ∈ RustStr.join [slash] ns).
  { destruct ns as [|m ns]; [simpl; rewrite elem_of_nil; tauto|].
    change (RustStr.join [slash] (n :: m :: ns)) with (n ++ slash :: RustStr.join [slash] (m :: ns)).
    rewrite elem_of_app, elem_of_cons. tauto. }
  rewrite Hj, IH. split.
  - intros [H|(m & Hm & H)]; [exists n; by split; [left|]|exists m; by split; [right|]].
  - intros (m & [->|Hm]%elem_of_cons & H); [by left|right; by exists m].
Qed.

Lemma nul_in_path u ss :
  path_segments u = Some ss -> 0%N ∈ decoded_path_bytes u <-> exists s, s ∈ ss /\ 0%N ∈ name_of s.
Proof.
  intros H. rewrite (decoded_path u ss H), elem_of_cons, elem_of_join by done. split.
  - intros [|(n & (s & -> & Hs)%list_elem_of_fmap & Hn)]; [done|]. by exists s.
  - intros (s & Hs & Hn). right. exists (name_of s). split; [|done]. apply list_elem_of_fmap. by exists s.
Qed.

(** The convention depends on the host and the first name only. *)
Lemma infer_ordinary u :
  decode_bad_path_uri u = None ->
  infer_path_convention u =
  Some (match host_str u with
        | Some _ => Windows
        | None => match head (non_empty (segs u)) with
                  | Some s => if is_windows_drive_uri_segment s then Windows else Posix
                  | None => Posix
                  end
        end).
Proof.
  intros H. unfold infer_path_convention, opaque_fallback_bytes, segs. rewrite H.
  destruct (host_str u); [done|]. destruct (path_segments u) as [ss|]; simpl; [|done].
  destruct (head (non_empty ss)) as [s|]; [|done]. by destruct (is_windows_drive_uri_segment s).
Qed.

Lemma head_prefix {A} (l x : list A) a : head l = Some a -> head (l ++ x) = Some a.
Proof. by destruct l. Qed.

Lemma parent_spec u v :
  valid u -> parent u = Some v ->
  valid v /\ decode_bad_path_uri v = None /\ infer_path_convention v = infer_path_convention u.
Proof.
  intros Hu Hp. destruct (parent_segments u v Hu Hp) as
    (Hbad & Hf & Hh & (x & Hx & Hx1) & _ & c & Hc & Hd & ss & ts & Hss & Hts & Hsub).
  assert (Hnul : ~ 0%N ∈ decoded_path_bytes v).
  { intros (t & Ht & H0)%(nul_in_path v ts Hts). destruct (Hsub t Ht) as [->|Hin].
    { by apply elem_of_nil in H0. }
    assert (H1 : 0%N ∈ decoded_path_bytes u) by (apply (nul_in_path u ss Hss); by exists t).
    apply (valid_nul u Hu) in H1. rewrite Hbad in H1. by destruct H1. }
  assert (Hvb : decode_bad_path_uri v = None).
  { destruct (decode_bad_path_uri v) as [bs|] eqn:E; [|done]. by apply bad_path_nul in E. }
  split_and!; [|done|].
  - split; [done|done|rewrite Hh; apply Hu|]. intros s Hhost Hs. apply (valid_drive u Hu).
    + congruence.
    + rewrite Hx. by apply head_prefix.
  - rewrite (infer_ordinary v), (infer_ordinary u), Hh by done. f_equal.
    destruct (host_str u) eqn:Eh; [done|]. rewrite Hx.
    destruct (non_empty (segs v)) as [|s l] eqn:E; [|done]. simpl.
    destruct x as [|s [|? ?]]; simpl in *; [done| |lia]. rewrite Hx in Hd. simpl in Hd.
    rewrite infer_ordinary, Eh, Hx in Hc by done. simpl in Hc.
    destruct (is_windows_drive_uri_segment s); [|done]. simplify_eq. simpl in Hd. lia.
Qed.

Lemma parent_names u v :
  valid u -> parent u = Some v -> exists x, names u = names v ++ x /\ length x <= 1.
Proof.
  intros Hu Hp. destruct (parent_segments u v Hu Hp) as (_ & _ & _ & (x & Hx & Hx1) & _).
  exists (name_of <$> x). unfold names. by rewrite Hx, fmap_app, length_fmap.
Qed.

(** The chain of parents: each element keeps the origin and a prefix of the
    names, and it ends at a URI without a parent. *)
Record ancestor_of (u a : Url) : Prop := {
  anc_valid : valid a;
  anc_host : host_str a = host_str u;
  anc_convention : infer_path_convention a = infer_path_convention u;
  anc_bad : decode_bad_path_uri u = None -> decode_bad_path_uri a = None;
  anc_segs : non_empty (segs a) `prefix_of` non_empty (segs u);
  anc_anchor c : infer_path_convention u = Some c ->
    anchor_depth c <= length (non_empty (segs u)) -> anchor_depth c <= length (non_empty (segs a));
}.

Lemma ancestor_refl u : valid u -> ancestor_of u u.
Proof. by split. Qed.
Lemma ancestor_parent u a v : ancestor_of u a -> parent a = Some v -> ancestor_of u v.
Proof.
  intros [Ha Hh Hc Hb Hn Hd] Hp. destruct (parent_spec a v Ha Hp) as (Hv & Hvb & Hvc).
  destruct (parent_segments a v Ha Hp) as (_ & _ & Hvh & (x & Hx & Hx1) & _ & c & Hac & Hdc & _).
  split; [done|congruence|congruence|done| |].
  - etransitivity; [|exact Hn]. rewrite Hx. by apply prefix_app_r.
  - intros c' Hc' _. assert (c' = c) as -> by congruence. rewrite Hx in Hdc. lens.
Qed.

Definition chain_measure (u : Url) : nat :=
  if is_empty (non_empty (segs u)) then 0 else length (segs u).

Lemma chain_measure_parent u v : valid u -> parent u = Some v -> chain_measure v < chain_measure u.
Proof.
  intros Hu Hp. destruct (parent_segments u v Hu Hp) as (_ & _ & _ & _ & Hlen & c & _ & Hd & _).
  unfold chain_measure. destruct (non_empty (segs u)) as [|y l] eqn:E; [simpl in Hd; lia|]. simpl.
  destruct (segs u) as [|z k] eqn:Es; [done|].
  destruct Hlen as [Hlen|Hlen]; [|rewrite Hlen; simpl; lia].
  case_match; simpl in *; lia.
Qed.

Lemma successors_chain u a fuel :
  ancestor_of u a -> chain_measure a <= fuel ->
  Forall (ancestor_of u) (successors fuel a)
  /\ exists r, last (successors fuel a) = Some r /\ parent r = None /\ ancestor_of u r.
Proof.
  revert a. induction fuel as [|fuel IH]; intros a Ha Hm; simpl.
  - split; [by apply Forall_singleton|]. exists a. split_and!; [done| |done].
    destruct (parent a) as [v|] eqn:E; [|done].
    pose proof (chain_measure_parent a v (anc_valid _ _ Ha) E). lia.
  - destruct (parent a) as [v|] eqn:E; [|split; [by apply Forall_singleton|by exists a]].
    pose proof (chain_measure_parent a v (anc_valid _ _ Ha) E).
    destruct (IH v (ancestor_parent _ _ _ Ha E)) as (H1 & r & Hr & H2); [lia|].
    split; [by constructor|]. exists r. split; [|done].
    destruct (successors fuel v) as [|w l] eqn:Es; [done|]. by rewrite last_cons_cons.
Qed.

Lemma ancestors_chain u :
  valid u ->
  Forall (ancestor_of u) (ancestors u)
  /\ exists r, last (ancestors u) = Some r /\ parent r = None /\ ancestor_of u r.
Proof.
  intros Hu. apply successors_chain; [by apply ancestor_refl|]. unfold chain_measure, segs.
  destruct (path_segments u) as [ss|]; simpl; [|lia]. destruct (is_empty _); lia.
Qed.

Lemma non_empty_segs u ss : path_segments u = Some ss -> segs u = ss.
Proof. unfold segs. by intros ->. Qed.

Lemma existsb_prefix (f : str -> bool) l k : l `prefix_of` k -> existsb f k = false -> existsb f l = false.
Proof. intros [x ->]. rewrite existsb_app. by intros [? _]%orb_false_iff. Qed.

(** Ancestors are regular and contain the URI. *)
Lemma ancestor_regular u a : regular u -> ancestor_of u a -> regular a /\ uri_starts_with u a = true.
Proof.
  intros Hu Ha. pose proof Hu as [[n Hn] Hw].
  destruct (lexical_depth_inv _ _ Hn) as (c & ss & Hbad & Hc & Hss & Hsep & _).
  destruct (bare_segments a) as (ts & Hts & Ets); [apply Ha|].
  pose proof (anc_segs _ _ Ha) as Hpre. rewrite (non_empty_segs _ _ Hss), Ets in Hpre.
  assert (Hac : infer_path_convention a = Some c) by (rewrite (anc_convention _ _ Ha); done).
  assert (Hra : regular a).
  { split.
    - unfold lexical_depth, containment_path_segments. rewrite (anc_bad _ _ Ha Hbad), Hac, Hts.
      rewrite (existsb_prefix _ _ _ Hpre Hsep). by eexists.
    - rewrite Hac, Ets. intros [= ->]. specialize (Hw Hc). rewrite (non_empty_segs _ _ Hss) in Hw.
      destruct Hpre as [x Hx]. rewrite Hx in Hw. by apply Forall_app in Hw as [? _]. }
  split; [done|]. apply (starts_with_names u a c); [done..|].
  split_and!; [symmetry; apply Ha|done|]. unfold folded, names. rewrite Ets, (non_empty_segs _ _ Hss).
  destruct Hpre as [x ->]. rewrite !fmap_app. by apply prefix_app_r.
Qed.

(** ** Joining POSIX paths is lexical resolution *)

(** The abstract specification: [.] and empty components are skipped, [..]
    removes a name, an absolute path starts from the root. *)
Definition resolve_step (acc : list (list N)) (component : str) : list (list N) :=
  if is_empty component || str_eqb component (lit ".") then acc
  else if str_eqb component (lit "..") then removelast acc
  else acc ++ [as_bytes component].
Definition resolve (base : list (list N)) (p : str) : list (list N) :=
  foldl resolve_step (if starts_with [slash] p then [] else base) (split_on slash p).

(** A URI whose only empty segment, if any, is the last. *)
Definition tidy (u : Url) : Prop :=
  Forall (fun s => s <> []) (push_base (pop_empty_segment (segs u))).

Definition drive_name (n : list N) : Prop := exists d, is_ascii_alphabetic d = true /\ n = [d; 58%N].

Lemma drive_segment_name s : ascii s -> is_windows_drive_uri_segment s = true -> drive_name (name_of s).
Proof.
  intros Hs. rewrite ascii_name_of by done. unfold is_windows_drive_uri_segment. rewrite as_bytes_ascii by done.
  assert (Ha : forall d, is_ascii_alphabetic d = true -> (d =? 37)%N = false).
  { intros d. unfold is_ascii_alphabetic, is_ascii_uppercase, is_ascii_lowercase, in_range. lia. }
  intros Hd. destruct s as [|d [|c [|c3 [|ca [|? ?]]]]]; try done; exists d.
  - apply andb_true_iff in Hd as [Hd ->%N.eqb_eq]. split; [done|]. cbn [percent_decode]. by rewrite (Ha d Hd).
  - rewrite !andb_true_iff, orb_true_iff in Hd.
    destruct Hd as [[[Hd ->%N.eqb_eq] ->%N.eqb_eq] [->%N.eqb_eq| ->%N.eqb_eq]];
      (split; [done|]; cbn [percent_decode]; by rewrite (Ha d Hd)).
Qed.

(** The URLs the loops of [join] go through: no host, all segments non-empty. *)
Record clean_url (u : Url) (ns : list (list N)) : Prop := {
  clean_bare : bare_file u;
  clean_host : host_str u = None;
  clean_segs : exists ss, path_segments u = Some ss /\ Forall (fun s => s <> []) (push_base ss)
                     /\ name_of <$> push_base ss = ns;
}.

Lemma push_base_app ss e : e <> [] -> push_base (ss ++ [e]) = ss ++ [e].
Proof. destruct ss as [|x [|y ss]]; simpl; [by destruct e|by destruct x|by destruct x]. Qed.

Lemma push_base_non_empty ss :
  Forall (fun s => s <> []) (push_base ss) -> non_empty ss = push_base ss.
Proof.
  destruct (decide (ss = [[]])) as [->|Hne]; [done|].
  assert (push_base ss = ss) as -> by (destruct ss as [|[] [|? ?]]; done).
  clear Hne. induction 1 as [|s ss Hs _ IH]; [done|]. unfold non_empty in *. simpl.
  destruct s; [done|]. simpl. by rewrite IH.
Qed.

Lemma clean_names u ns : clean_url u ns -> names u = ns.
Proof.
  intros [_ _ (ss & Hs & Hne & Hns)]. unfold names. rewrite (non_empty_segs _ _ Hs).
  by rewrite push_base_non_empty.
Qed.

Lemma clean_push u ns s :
  clean_url u ns -> plain_text s -> s <> [] -> is_dot_name s = false -> clean_url (push s u) (ns ++ [as_bytes s]).
Proof.
  intros [Hb Hh (ss & Hs & Hne & Hns)] Hp Hs0 Hd. destruct (push_origin s u) as [Ho Hh'].
  destruct (push_path s u ss Hs Hp Hd) as (e & He & Hdec).
  assert (Ha : ascii e).
  { pose proof (segs_ascii _ _ He) as Hf. apply Forall_app in Hf as [_ Hf]. by inversion Hf. }
  assert (Hn : name_of e = as_bytes s) by by rewrite ascii_name_of.
  assert (e <> []) as He0.
  { intros ->. destruct s as [|c s]; [done|]. rewrite as_bytes_cons in Hdec.
    symmetry in Hdec. apply app_nil in Hdec as [E _]. by apply encode_char_ne in E. }
  split; [by eapply same_origin_bare|congruence|]. eexists. split; [exact He|].
  rewrite push_base_app by done. split; [apply Forall_app; split; [done|by constructor]|].
  by rewrite fmap_app, Hns, <- Hn.
Qed.

Lemma clean_pop u ns : clean_url u ns -> ns <> [] -> clean_url (pop u) (removelast ns).
Proof.
  intros [Hb Hh (ss & Hs & Hne & Hns)] Hn0. destruct (edit_origin u) as (_ & _ & Ho).
  destruct (edit_host u) as (_ & _ & Hh'). destruct (segments_ok u ss Hs) as [Hss _].
  split; [by eapply same_origin_bare|congruence|]. eexists. split; [by apply pop_path|].
  destruct (pop_cases ss Hss) as [(x & -> & ->)|(l & x & Hl & -> & ->)].
  - split; [done|]. simpl. destruct x; simpl in Hns; subst ns; done.
  - assert (Hx : push_base (l ++ [x]) = l ++ [x]) by (destruct l as [|[] [|? ?]]; done).
    rewrite Hx in *. apply Forall_app in Hne as [Hl' _].
    assert (push_base l = l) as -> by (destruct l as [|[] [|? ?]]; try done; by inversion Hl').
    split; [done|]. subst ns. rewrite fmap_app. change (name_of <$> [x]) with [name_of x]. by rewrite removelast_last.
Qed.

Lemma clean_pop_if_empty u :
  valid u -> host_str u = None -> tidy u -> clean_url (pop_if_empty u) (names u).
Proof.
  intros Hu Hh Ht. destruct (bare_segments u) as (ss & Hs & Es); [apply Hu|]. unfold tidy in Ht. rewrite Es in Ht.
  destruct (edit_origin u) as (_ & Ho & _). destruct (edit_host u) as (_ & Hh' & _).
  split; [eapply same_origin_bare; [done|apply Hu]|congruence|].
  eexists. split; [by apply pop_if_empty_path|]. split; [done|].
  unfold names. by rewrite Es, <- push_base_non_empty, pop_empty_non_empty.
Qed.

(** One component, by either loop. *)
Lemma clean_component u ns c :
  clean_url u ns -> plain_text c ->
  let '(v, d) := join_component 0 (u, length ns) c in
  clean_url v (resolve_step ns c) /\ d = length (resolve_step ns c).
Proof.
  intros Hc Hp. unfold join_component, resolve_step.
  destruct (is_empty c || str_eqb c (lit ".")) eqn:E1; [done|]. apply orb_false_iff in E1 as [E0 E1].
  destruct (str_eqb c (lit "..")) eqn:E2.
  - destruct ns as [|n ns']; [done|]. cbn [length Nat.ltb Nat.leb].
    split; [by apply clean_pop|]. destruct (exists_last (l := n :: ns')) as (l & x & El); [done|].
    rewrite El, removelast_last. change (S (length ns')) with (length (n :: ns')). rewrite El. lens.
  - split; [|lens]. apply clean_push; [done|done|by destruct c|]. unfold is_dot_name. by rewrite E1, E2.
Qed.

Lemma clean_components cs u ns :
  clean_url u ns -> Forall plain_text cs ->
  clean_url (foldl (join_component 0) (u, length ns) cs).1 (foldl resolve_step ns cs).
Proof.
  intros Hc Hcs. revert u ns Hc. induction Hcs as [|c cs Hp _ IH]; intros u ns Hc; [done|].
  pose proof (clean_component u ns c Hc Hp) as Hs. cbn [foldl].
  destruct (join_component 0 (u, length ns) c) as [v d]. destruct Hs as [Hv ->]. by apply IH.
Qed.

(** [try_from] accepts such a URL as it is, unless it looks like a drive. *)
Lemma try_from_posix v :
  bare_file v -> host_str v = None -> Forall (fun n => 0%N ∉ n) (names v) ->
  (forall n, head (names v) = Some n -> ~ drive_name n) ->
  try_from v = Return v /\ decode_bad_path_uri v = None /\ infer_path_convention v = Some Posix.
Proof.
  intros Hb Hh Hnul Hdr. destruct (bare_segments v Hb) as (ss & Hs & Es).
  assert (Hn0 : ~ 0%N ∈ decoded_path_bytes v).
  { intros (s & Hin & H0)%(nul_in_path v ss Hs). rewrite Forall_forall in Hnul.
    apply (Hnul (name_of s)); [|done]. unfold names. rewrite Es. apply list_elem_of_fmap. exists s.
    split; [done|]. unfold non_empty. apply list_elem_of_In, filter_In. rewrite <- list_elem_of_In.
    split; [done|]. destruct s; [by apply elem_of_nil in H0|done]. }
  assert (Hbad : decode_bad_path_uri v = None).
  { destruct (decode_bad_path_uri v) eqn:E; [|done]. by apply bad_path_nul in E. }
  assert (Hfirst : forall s, head (non_empty ss) = Some s -> is_windows_drive_uri_segment s = false).
  { intros s Hhd. apply not_true_iff_false. intros Hd%drive_segment_name.
    - apply (Hdr (name_of s)); [|done]. unfold names. rewrite Es. by destruct (non_empty ss); simplify_eq/=.
    - pose proof (non_empty_Forall ascii ss (segs_ascii _ _ Hs)) as Hf.
      destruct (non_empty ss); simplify_eq/=. by inversion Hf. }
  split_and!; [|done|].
  - unfold try_from. pose proof Hb as (-> & Hus & Hpw & Hpo & Hq & Hf). simpl.
    unfold validate_file_url, validate_common_known_uri. rewrite Hus, Hpw, Hpo, Hq, Hf. simpl.
    apply contains_char_false in Hn0. rewrite Hn0. simpl. unfold without_localhost_authority. rewrite Hh. simpl.
    f_equal. destruct (normalized_drive v Hb) as (_ & _ & _ & _ & [->|(c & r & Hhd & Hdd)]); [done|].
    rewrite Es in Hhd. apply Hfirst in Hhd. congruence.
  - rewrite infer_ordinary, Hh, Es by done. f_equal. destruct (head (non_empty ss)) eqn:E; [|done].
    by rewrite (Hfirst _ eq_refl).
Qed.

Lemma plain_components f p : plain_text p -> Forall plain_text (split_by f p).
Proof.
  induction 1 as [|c p Hc _ IH]; simpl; [by repeat constructor|].
  destruct (f c); [constructor; [constructor|done]|].
  destruct (split_by f p) as [|q qs]; [by apply Forall_singleton, Forall_singleton|].
  apply Forall_cons in IH as [Hq Hqs]. apply Forall_cons. split; [by apply Forall_cons|done].
Qed.

Lemma plain_valid p : plain_text p -> valid_str p.
Proof. intros H. eapply Forall_impl; [exact H|]. by intros c [? _]. Qed.

Lemma as_bytes_no_nul s : valid_str s -> 0%N ∉ s -> 0%N ∉ as_bytes s.
Proof.
  intros Hv Hs H. unfold as_bytes in H. apply list_elem_of_bind in H as (c & Hc & Hin).
  unfold valid_str in Hv. rewrite Forall_forall in Hv. specialize (Hv c Hin). apply encode_char_spec in Hv.
  destruct Hv; rewrite !elem_of_cons, elem_of_nil in Hc;
    repeat match goal with H : second_ok ?a ?b = true |- _ =>
      assert (128 <= b)%N by (unfold second_ok, is_cont, in_range in H; repeat case_match; lia); clear H end.
  - destruct Hc as [<-|[]]. done.
  - lia.
  - lia.
  - lia.
Qed.

Lemma split_by_sub f s p c : p ∈ split_by f s -> c ∈ p -> c ∈ s.
Proof.
  revert p. induction s as [|d s IH]; intros p; simpl.
  { intros ->%list_elem_of_singleton. done. }
  destruct (f d).
  - intros [->|Hp]%elem_of_cons Hc; [by apply elem_of_nil in Hc|]. right. by eapply IH.
  - destruct (split_by f s) as [|q qs] eqn:E; [by apply split_by_ne in E|].
    intros [->|Hp]%elem_of_cons Hc.
    + apply elem_of_cons in Hc as [->|Hc]; [left|]. right. eapply (IH q); [by left|done].
    + right. eapply (IH p); [by right|done].
Qed.

(** Resolution keeps NUL-free names NUL-free. *)
Lemma resolve_no_nul ns p :
  Forall (fun n => 0%N ∉ n) ns -> valid_str p -> 0%N ∉ p -> Forall (fun n => 0%N ∉ n) (resolve ns p).
Proof.
  intros Hns Hp H0. unfold resolve.
  assert (Hcs : Forall (fun c => 0%N ∉ as_bytes c) (split_on slash p)).
  { apply Forall_forall. intros c Hc. apply as_bytes_no_nul.
    - apply Forall_forall. intros x Hx. unfold valid_str in Hp. rewrite Forall_forall in Hp.
      apply Hp. by eapply split_by_sub.
    - intros Hin. apply H0. by eapply split_by_sub. }
  assert (Hb : Forall (fun n => 0%N ∉ n) (if starts_with [slash] p then [] else ns)) by by case_match.
  revert Hb. generalize (if starts_with [slash] p then [] else ns). clear Hns.
  induction Hcs as [|c cs Hc _ IH]; intros acc Ha; simpl; [done|]. apply IH.
  unfold resolve_step. repeat case_match; [done| |apply Forall_app; split; [done|by constructor]].
  destruct acc as [|n acc _] using rev_ind; [done|]. rewrite removelast_last.
  by apply Forall_app in Ha as [? _].
Qed.

(** The segments [path_uri_from_segments] keeps are the resolved names. *)
Lemma kept_segments cs kept trailing :
  Forall plain_text cs -> Forall (fun s => plain_text s /\ s <> [] /\ is_dot_name s = false) kept ->
  exists kept' trailing', foldl (push_segment 0) (kept, length kept, trailing) cs = (kept', length kept', trailing')
    /\ Forall (fun s => plain_text s /\ s <> [] /\ is_dot_name s = false) kept'
    /\ as_bytes <$> kept' = foldl resolve_step (as_bytes <$> kept) cs.
Proof.
  intros Hcs. revert kept trailing. induction Hcs as [|c cs Hc _ IH]; intros kept trailing Hk.
  { by exists kept, trailing. }
  cbn [foldl]. unfold push_segment at 2. unfold resolve_step at 2.
  destruct (is_empty c) eqn:E0; [by apply IH|]. destruct (str_eqb c (lit ".")) eqn:E1; [by apply IH|]. simpl orb. cbv iota.
  destruct (str_eqb c (lit "..")) eqn:E2.
  - destruct kept as [|k kept _] using rev_ind; [by apply IH|].
    rewrite length_app, fmap_app, removelast_last. change (as_bytes <$> [k]) with [as_bytes k].
    rewrite removelast_last. apply Forall_app in Hk as [Hk _]. simpl length.
    rewrite (proj2 (Nat.ltb_lt 0 _)) by lia. replace (length kept + 1 - 1) with (length kept) by lia.
    by apply IH.
  - destruct (IH (kept ++ [c]) false) as (k' & t' & H1 & H2 & H3).
    { apply Forall_app. split; [done|]. apply Forall_singleton. split_and!; [done|by destruct c|].
      unfold is_dot_name. by rewrite E1, E2. }
    rewrite length_app, Nat.add_1_r in H1. rewrite fmap_app in H3. by exists k', t'.
Qed.

Lemma clean_push_all kept u ns :
  clean_url u ns -> Forall (fun s => plain_text s /\ s <> [] /\ is_dot_name s = false) kept ->
  clean_url (foldl (fun u s => push s u) u kept) (ns ++ (as_bytes <$> kept)).
Proof.
  intros Hc Hk. revert u ns Hc. induction Hk as [|k kept (Hp & Hne & Hd) _ IH]; intros u ns Hc; simpl.
  { by rewrite app_nil_r. }
  rewrite cons_middle, app_assoc. apply IH. by apply clean_push.
Qed.

(** Pushing an empty segment adds a trailing slash only. *)
Lemma push_trailing u ns :
  clean_url u ns ->
  bare_file (push [] u) /\ host_str (push [] u) = None /\ names (push [] u) = ns.
Proof.
  intros Hc. pose proof Hc as [Hb Hh (ss & Hs & Hne & Hns)]. destruct (push_origin [] u) as [Ho Hh'].
  split_and!; [by eapply same_origin_bare|congruence|].
  destruct (push_path [] u ss Hs) as (e & He & Hdec); [constructor|done|].
  apply percent_decode_nil in Hdec as ->. unfold names. rewrite (non_empty_segs _ _ He), non_empty_app. simpl.
  rewrite app_nil_r, <- Hns. f_equal.
  destruct (decide (ss = [[]])) as [->|Hn]; [done|].
  assert (E : push_base ss = ss) by (destruct ss as [|[] [|? ?]]; done).
  rewrite E. rewrite <- E at 2. by apply push_base_non_empty.
Qed.

Lemma push_kept kept u (trailing : bool) :
  clean_url u [] -> Forall (fun s => plain_text s /\ s <> [] /\ is_dot_name s = false) kept ->
  let v := foldl (fun u s => push s u) u (if trailing then kept ++ [[]] else kept) in
  bare_file v /\ host_str v = None /\ names v = as_bytes <$> kept.
Proof.
  intros Hc Hk. pose proof (clean_push_all kept u [] Hc Hk) as Hv. rewrite app_nil_l in Hv.
  destruct trailing; simpl.
  - rewrite foldl_app. simpl. by apply push_trailing.
  - split_and!; [apply Hv|apply Hv|by apply clean_names].
Qed.

Lemma absolute_posix rest :
  plain_text rest -> 0%N ∉ rest ->
  (forall n, head (resolve [] (slash :: rest)) = Some n -> ~ drive_name n) ->
  exists v, from_absolute_native_path (slash :: rest) Posix = Return (Some v)
    /\ names v = resolve [] (slash :: rest) /\ infer_path_convention v = Some Posix.
Proof.
  intros Hp H0 Hdr. unfold from_absolute_native_path, parse_posix_path.
  change (strip_prefix [slash] (slash :: rest)) with (Some rest). cbv iota.
  rewrite (proj2 (contains_char_false 0 rest) H0). cbv iota. unfold path_uri_from_segments.
  destruct parse_root as (u0 & -> & Hb & Hh & Hs). rewrite Hs. cbv zeta iota.
  assert (Hr : resolve [] (slash :: rest) = foldl resolve_step [] (split_on slash rest)) by done.
  destruct (kept_segments (split_on slash rest) [] false) as (kept & trailing & Hf & Hk & Hn);
    [by apply plain_components|constructor|]. simpl in Hf.
  change (anchor_depth Posix) with 0. rewrite Hf. cbv iota.
  assert (Hc : clean_url (clear u0) []).
  { split; [eapply same_origin_bare; [apply edit_origin|done]|rewrite (proj1 (edit_host u0)); done|].
    exists [[]]. split; [by eapply clear_path|]. done. }
  simpl (convention_eqb Posix Windows). rewrite orb_false_r.
  destruct (push_kept kept (clear u0) trailing Hc Hk) as (Hv1 & Hv2 & Hv3).
  rewrite Hn in Hv3. simpl in Hv3. set (v := foldl (fun u s => push s u) _ _) in *.
  destruct (try_from_posix v Hv1 Hv2) as (-> & _ & Hi).
  - rewrite Hv3, <- Hr. apply resolve_no_nul; [constructor| |].
    + constructor; [done|by apply plain_valid].
    + rewrite elem_of_cons. intros [|]; [lia|done].
  - by rewrite Hv3, <- Hr.
  - exists v. simpl. rewrite Hv2, Hi. simpl. by rewrite Hr.
Qed.

(** The refinement: [join] on an ordinary POSIX URI. *)
Lemma posix_join u p :
  valid u -> infer_path_convention u = Some Posix -> decode_bad_path_uri u = None -> tidy u ->
  plain_text p -> 0%N ∉ p ->
  (forall n, head (resolve (names u) p) = Some n -> ~ drive_name n) ->
  exists v, uri_join u p = Return v /\ valid v /\ infer_path_convention v = Some Posix
    /\ names v = resolve (names u) p.
Proof.
  intros Hu Hi Hbad Ht Hp H0 Hdr.
  assert (Hex : exists v, uri_join u p = Return v /\ infer_path_convention v = Some Posix
                       /\ names v = resolve (names u) p).
  2: { destruct Hex as (v & Hv & ? & ?). exists v. split_and!; [done| |done|done].
       by apply (safe_join u p Hu (plain_valid p Hp)). }
  unfold uri_join. rewrite (proj2 (contains_char_false 0 p) H0), Hi.
  destruct p as [|x p]; [by exists u|]. cbn [is_empty]. cbv iota.
  destruct (decide (x = slash)) as [->|Hx].
  { destruct (absolute_posix p) as (v & -> & Hn & Hiv).
    - by apply Forall_cons in Hp as [_ ?].
    - intros Hin. apply H0. by right.
    - exact Hdr.
    - exists v. simpl. by rewrite Hn. }
  assert (Hs : starts_with [slash] (x :: p) = false).
  { apply not_true_iff_false. intros [t [= ->]]%starts_with_spec. done. }
  assert (Ha : from_absolute_native_path (x :: p) Posix = Return None).
  { unfold from_absolute_native_path, parse_posix_path.
    destruct (strip_prefix [slash] (x :: p)) eqn:E; [|done]. apply strip_prefix_Some in E. simpl in E. congruence. }
  rewrite Ha, Hbad. simpl mbind. unfold outcome_bind. cbv iota.
  assert (Hh : host_str u = None).
  { rewrite infer_ordinary in Hi by done. by destruct (host_str u). }
  unfold join_relative. destruct (bare_segments u) as (ss & Hss & Es); [apply Hu|]. rewrite Hss.
  cbv zeta. simpl (convention_eqb Posix Windows). cbv iota. simpl andb. cbv iota.
  assert (length (non_empty ss) = length (names u)) as -> by (unfold names; by rewrite Es, length_fmap).
  pose proof (clean_components (split_on slash (x :: p)) _ _ (clean_pop_if_empty u Hu Hh Ht)
                (plain_components _ _ Hp)) as Hc.
  change (anchor_depth Posix) with 0. set (v := (foldl _ _ _).1) in *.
  assert (Hn : names v = resolve (names u) (x :: p)).
  { rewrite (clean_names _ _ Hc). unfold resolve. by rewrite Hs. }
  destruct (try_from_posix v) as (-> & _ & Hiv); [apply Hc|apply Hc| |by rewrite Hn|by exists v].
  rewrite Hn. apply resolve_no_nul; [|by apply plain_valid|done].
  apply Forall_forall. intros n Hin H1. unfold names in Hin. rewrite Es in Hin.
  apply list_elem_of_fmap in Hin as (s & -> & Hin). apply list_elem_of_In, filter_In in Hin as [Hin _].
  apply list_elem_of_In in Hin. assert (H2 : 0%N ∈ decoded_path_bytes u) by (apply (nul_in_path u ss Hss); by exists s).
  apply (valid_nul u Hu) in H2. rewrite Hbad in H2. by destruct H2.
Qed.

End Join.
