(* ===== verification/PathTheorems.v ===== *)
(** * PathTheorems: the contract of `file:` URI paths

    The theorems on [PathUri] that the rest of the program relies on, proved
    from the laws of the URL library, and [PlainUrl], a small URL library that
    satisfies the laws, on which the theorems are exercised. *)

From S2P Require Import Prelude RustStr PathUri PathLaws PathJoin.
From Stdlib Require Import ZifyBool.

(** ** A URL library *)

Module PlainUrl.

Record url := mk { p_host : option str; p_first : str; p_rest : list str }.
#[export] Instance url_eq_dec : EqDecision url.
Proof. solve_decision. Defined.

Definition ok_char (c : N) : bool := (c <? 128)%N && negb (c =? slash)%N.
Definition keep (s : str) : str := List.filter ok_char s.
Definition segments (u : url) : list str := keep <$> (p_first u :: p_rest u).
Definition of_segments (h : option str) (ss : list str) : url :=
  match ss with s :: ss => mk h s ss | [] => mk h [] [] end.
Definition host (u : url) : option str := keep <$> p_host u.
Definition url_path (u : url) : str := slash :: RustStr.join [slash] (segments u).

Definition hex_char (n : N) : N := if (n <? 10)%N then (48 + n)%N else (55 + n)%N.
Definition hex_byte (b : N) : list N := [hex_char (b / 16); hex_char (b mod 16)].
Definition unreserved (b : N) : bool :=
  is_ascii_alphabetic b || is_ascii_digit b || existsb (N.eqb b) (lit "-._~:").
Definition escape (b : N) : list N := if unreserved b then [b] else 37%N :: hex_byte b.
Definition escape_all (bs : list N) : str := bs ≫= escape.

Fixpoint unhex (s : str) : option (list N) :=
  match s with
  | [] => Some []
  | h :: l :: s =>
      match hex_digit h, hex_digit l with
      | Some a, Some b => cons (16 * a + b)%N <$> unhex s
      | _, _ => None
      end
  | _ => None
  end.

Definition parse_url (s : str) : result unit url :=
  match strip_prefix (lit "file://") s with
  | None => Err tt
  | Some rest =>
      match split_once slash rest with
      | Some (h, p) => Ok (of_segments (if is_empty h then None else Some h) (split_on slash p))
      | None => Err tt
      end
  end.

#[export] Instance lib : UrlLib := {
  Url := url;
  UrlParseError := unit;
  url_eqb u v := bool_decide (u = v);
  url_parse := parse_url;
  as_str u := lit "file://" ++ default [] (host u) ++ url_path u;
  scheme _ := lit "file";
  username _ := [];
  password _ := None;
  port _ := None;
  query _ := None;
  fragment _ := None;
  host_str := host;
  path := url_path;
  path_segments u := Some (segments u);
  set_host h u := Some (mk h (p_first u) (p_rest u));
  set_path p u := of_segments (p_host u) (split_on slash (drop 1 p));
  clear u := mk (p_host u) [] [];
  pop_if_empty u := of_segments (p_host u) (pop_empty_segment (segments u));
  pop u := of_segments (p_host u) (pop_segments (segments u));
  push s u :=
    if is_dot_name s then u
    else of_segments (p_host u) (push_base (segments u) ++ [escape_all (as_bytes s)]);
  decode_binary := percent_decode;
  encode_binary := escape_all;
  b64_encode bs := bs ≫= hex_byte;
  b64_decode := unhex;
}.

Lemma ok_char_spec c : ok_char c = true <-> (c < 128)%N /\ c <> slash.
Proof. unfold ok_char. lia. Qed.
Lemma keep_id s : Forall (fun c => ok_char c = true) s -> keep s = s.
Proof. induction 1 as [|c s Hc _ IH]; [done|]. unfold keep in *. simpl. by rewrite Hc, IH. Qed.
Lemma keep_ok s : Forall (fun c => ok_char c = true) (keep s).
Proof. apply Forall_forall. intros c Hc. by apply list_elem_of_In, filter_In in Hc as [_ ?]. Qed.

Lemma segments_of h ss :
  ss <> [] -> Forall (Forall (fun c => ok_char c = true)) ss -> segments (of_segments h ss) = ss.
Proof.
  intros Hne Hss. destruct ss as [|s ss]; [done|].
  change (keep <$> s :: ss = s :: ss). transitivity (id <$> s :: ss); [|apply list_fmap_id].
  apply Forall_fmap_ext. eapply Forall_impl; [exact Hss|]. apply keep_id.
Qed.
Lemma segments_kept u : Forall (Forall (fun c => ok_char c = true)) (segments u).
Proof. unfold segments. apply Forall_fmap, Forall_forall. intros s _. apply keep_ok. Qed.
Lemma segments_ne u : segments u <> [].
Proof. done. Qed.
Lemma host_of h ss : host (of_segments h ss) = keep <$> h.
Proof. by destruct ss. Qed.

Lemma hex_char_digit n : (n < 16)%N -> hex_digit (hex_char n) = Some n.
Proof. intros H. unfold hex_digit, hex_char, in_range. repeat case_match; try lia; f_equal; lia. Qed.
Lemma hex_char_ne n : hex_char n <> slash.
Proof. unfold hex_char. case_match; lia. Qed.
Lemma hex_byte_digits b :
  (b < 256)%N -> exists h l, hex_byte b = [h; l] /\ hex_digit h = Some (b / 16)%N
    /\ hex_digit l = Some (b mod 16)%N /\ (16 * (b / 16) + b mod 16)%N = b.
Proof.
  intros H. eexists _, _. split; [done|]. assert (b / 16 < 16)%N by by apply N.Div0.div_lt_upper_bound.
  pose proof (N.mod_lt b 16 ltac:(done)). pose proof (N.div_mod b 16 ltac:(done)).
  split_and!; [by apply hex_char_digit..|lia].
Qed.
Lemma hex_byte_ok b : (b < 256)%N -> Forall (fun c => ok_char c = true) (hex_byte b).
Proof.
  intros H. assert (b / 16 < 16)%N by by apply N.Div0.div_lt_upper_bound.
  pose proof (N.mod_lt b 16 ltac:(done)). revert H0 H1. unfold hex_byte. generalize (b / 16)%N, (b mod 16)%N.
  intros q r Hq Hr. unfold hex_char, ok_char. repeat constructor; case_match; lia.
Qed.

Lemma unreserved_plain b : unreserved b = true -> ok_char b = true /\ b <> 37%N.
Proof.
  unfold unreserved, is_ascii_alphabetic, is_ascii_uppercase, is_ascii_lowercase, is_ascii_digit, in_range, ok_char.
  change (existsb (N.eqb b) (lit "-._~:")) with
    ((b =? 45)%N || ((b =? 46)%N || ((b =? 95)%N || ((b =? 126)%N || ((b =? 58)%N || false))))). lia.
Qed.

Lemma escape_all_spec bs :
  Forall (fun b => b < 256)%N bs ->
  Forall (fun c => ok_char c = true) (escape_all bs) /\ percent_decode (escape_all bs) = bs.
Proof.
  induction 1 as [|b bs Hb _ [IH1 IH2]]; [done|].
  change (escape_all (b :: bs)) with (escape b ++ escape_all bs). unfold escape.
  destruct (unreserved b) eqn:E.
  - apply unreserved_plain in E as [Ho Hp]. split; [by constructor|]. simpl ([b] ++ _).
    rewrite percent_decode_unescaped, IH2; [done|]. by intros ?.
  - destruct (hex_byte_digits b Hb) as (h & l & Eh & Hh & Hl & Hv). split.
    + apply Forall_app. split; [|done]. constructor; [done|]. by apply hex_byte_ok.
    + rewrite Eh. simpl app. by rewrite (percent_decode_escape h l _ _ _ Hh Hl), IH2, Hv.
Qed.

Lemma push_base_Forall (P : str -> Prop) ss : Forall P ss -> Forall P (push_base ss).
Proof. intros H. by destruct ss as [|[] [|? ?]]. Qed.

Lemma drop_path u : drop 1 (url_path u) = RustStr.join [slash] (segments u).
Proof. done. Qed.

Lemma sub_segments l k : l ⊆ k -> Forall (Forall (fun c => ok_char c = true)) k ->
  Forall (Forall (fun c => ok_char c = true)) l.
Proof. rewrite !Forall_forall. intros Hs Hk x Hx. by apply Hk, Hs. Qed.

Lemma pop_segments_ok ss :
  ss <> [] -> Forall (Forall (fun c => ok_char c = true)) ss ->
  pop_segments ss <> [] /\ Forall (Forall (fun c => ok_char c = true)) (pop_segments ss).
Proof.
  intros Hne Hss. destruct (pop_cases ss Hne) as [(x & -> & ->)|(l & x & Hl & -> & ->)].
  - by repeat constructor.
  - by apply Forall_app in Hss as [? _].
Qed.
Lemma pop_empty_ok ss :
  ss <> [] -> Forall (Forall (fun c => ok_char c = true)) ss ->
  pop_empty_segment ss <> [] /\ Forall (Forall (fun c => ok_char c = true)) (pop_empty_segment ss).
Proof.
  intros Hne Hss. destruct (pop_empty_cases ss) as [->|(l & Hl & -> & ->)]; [done|].
  by apply Forall_app in Hss as [? _].
Qed.

Lemma split_path_ok p :
  Forall (fun c => (c < 128)%N) p -> Forall (Forall (fun c => ok_char c = true)) (split_on slash p).
Proof.
  intros Hp. apply Forall_forall. intros s Hs. apply Forall_forall. intros c Hc. apply ok_char_spec. split.
  - rewrite Forall_forall in Hp. apply Hp. by eapply split_by_sub.
  - intros ->. pose proof (split_by_pieces (fun d => d =? slash)%N p) as Hpc. rewrite Forall_forall in Hpc.
    specialize (Hpc s Hs). rewrite Forall_forall in Hpc. specialize (Hpc _ Hc). done.
Qed.

Lemma set_path_upper u lead c rest :
  url_path u = lead ++ c :: rest -> Forall (eq slash) lead -> is_ascii_alphabetic c = true ->
  url_path (of_segments (p_host u) (split_on slash (drop 1 (lead ++ ascii_upper c :: rest))))
  = lead ++ ascii_upper c :: rest.
Proof.
  intros Hp Hl Hc. unfold is_ascii_alphabetic, is_ascii_uppercase, is_ascii_lowercase, in_range in Hc.
  assert (Ha : ascii (url_path u)).
  { constructor; [done|]. apply join_ascii. eapply Forall_impl; [apply segments_kept|].
    intros s Hs. eapply Forall_impl; [exact Hs|]. by intros d [? _]%ok_char_spec. }
  destruct Hl as [|? lead <- Hl]; [unfold url_path in Hp; simplify_eq/=; lia|].
  simpl drop. rewrite drop_0. unfold url_path at 1. rewrite Hp in Ha.
  rewrite segments_of, join_split_on; [done|apply split_by_ne|]. apply split_path_ok.
  apply Forall_cons in Ha as [_ Ha]. apply Forall_app in Ha as [H1 H2]. apply Forall_cons in H2 as [H2 H3].
  apply Forall_app. split; [done|]. constructor; [|done].
  unfold ascii_upper, is_ascii_lowercase, in_range. case_match; lia.
Qed.

#[export] Instance lib_laws : UrlLaws lib.
Proof.
  split; simpl; try done.
  - intros u v. apply bool_decide_eq_true.
  - intros u _. eauto.
  - by intros u ss [= <-].
  - intros u ss [= <-]. split; [done|]. eapply Forall_impl; [apply segments_kept|].
    intros s Hs. split.
    + eapply Forall_impl; [exact Hs|]. by intros c [? _]%ok_char_spec.
    + intros Hin. rewrite Forall_forall in Hs. by apply Hs in Hin.
  - intros u h Hh Hin. unfold host in Hh. destruct (p_host u) as [k|]; [|done]. simplify_eq/=.
    pose proof (keep_ok k) as Hk. rewrite Forall_forall in Hk. by apply Hk in Hin.
  - intros u. by rewrite !host_of.
  - intros s u. split; [done|]. case_match; [done|]. by rewrite host_of.
  - intros u ss [= <-]. f_equal. apply segments_of; apply pop_segments_ok; auto using segments_kept.
  - intros u ss [= <-]. f_equal. apply segments_of; apply pop_empty_ok; auto using segments_kept.
  - intros s u ss [= <-] Hs Hd. rewrite Hd.
    destruct (escape_all_spec (as_bytes s)) as [H1 H2]; [by apply as_bytes_bytes, plain_valid|].
    exists (escape_all (as_bytes s)). split; [|done]. f_equal. apply segments_of; [by destruct (push_base _)|].
    apply Forall_app. split; [apply push_base_Forall, segments_kept|by constructor].
  - intros u _. eexists. split; [done|]. done.
  - intros u lead c rest Hp Hl Hc. split; [done|]. rewrite host_of. split; [done|]. by apply set_path_upper.
  - exists (mk None [] []). done.
  - intros bs Hbs. exists (of_segments None [lit "%00"; lit "bad"; lit "path"; bs ≫= hex_byte]).
    assert (Hh : Forall (fun c => ok_char c = true) (bs ≫= hex_byte)).
    { apply Forall_bind. eapply Forall_impl; [exact Hbs|]. apply hex_byte_ok. }
    split_and!; [|done|done|].
    + unfold parse_url. transitivity (parse_url (lit "file://" ++ slash :: (lit "%00/bad/path/" ++ (bs ≫= hex_byte)))).
      { done. } unfold parse_url. rewrite strip_prefix_app. cbn [split_once]. rewrite N.eqb_refl. simpl is_empty. cbv iota. do 2 f_equal.
      change (lit "%00/bad/path/" ++ (bs ≫= hex_byte)) with (RustStr.join [slash] [lit "%00"; lit "bad"; lit "path"; bs ≫= hex_byte]).
      apply split_on_join; [|done]. repeat (apply Forall_cons; split; [by apply contains_char_false|]).
      apply Forall_singleton. intros Hin. rewrite Forall_forall in Hh. by apply Hh in Hin.
    + unfold url_path. rewrite segments_of; [done|done|]. repeat constructor. done.
  - intros bs Hbs. induction Hbs as [|b bs Hb _ IH]; [done|].
    change ((b :: bs) ≫= hex_byte) with (hex_byte b ++ (bs ≫= hex_byte)).
    destruct (hex_byte_digits b Hb) as (h & l & -> & Hh & Hl & Hv). cbn [app unhex]. rewrite Hh, Hl, IH, Hv. done.
  - intros bs. split.
    + apply Forall_bind, Forall_forall. intros b _. repeat (apply Forall_cons; split; [apply hex_char_ne|]). done.
    + by destruct bs.
Qed.

End PlainUrl.

(** ** The contract *)

Section Contract.
Context {UL : UrlLib} {laws : UrlLaws UL}.

(** A name that is plain text and not a dot segment: what [relative_path_from]
    renders and [join] reads back. *)
Definition text_name (s : str) : Prop :=
  exists t, from_utf8 (name_of s) = Ok t /\ plain_text t /\ is_dot_name t = false /\ 0%N ∉ t.

Lemma resolve_names base ts :
  Forall (fun t => t <> [] /\ slash ∉ t /\ is_dot_name t = false) ts ->
  resolve base (RustStr.join [slash] ts) = base ++ (as_bytes <$> ts).
Proof.
  intros Hts. destruct ts as [|t ts]; [by rewrite app_nil_r|]. unfold resolve.
  rewrite split_on_join; [|eapply Forall_impl; [exact Hts|]; naive_solver|done].
  assert (starts_with [slash] (RustStr.join [slash] (t :: ts)) = false) as ->.
  { apply not_true_iff_false. intros [r Hr]%starts_with_spec. apply Forall_cons in Hts as [(Hne & Hs & _) _].
    destruct t as [|c t]; [done|]. apply Hs. destruct ts; simpl in Hr; simplify_eq; left. }
  revert base. induction Hts as [|x xs (Hne & _ & Hd) _ IH]; intros base; simpl; [by rewrite app_nil_r|].
  rewrite IH. unfold resolve_step. unfold is_dot_name in Hd. apply orb_false_iff in Hd as [-> ->].
  destruct x; [done|]. simpl. by rewrite <- app_assoc.
Qed.

Lemma text_names_bytes ss ts :
  Forall2 (fun s t => from_utf8 (name_of s) = Ok t) ss ts -> as_bytes <$> ts = name_of <$> ss.
Proof. induction 1 as [|s t ss ts [_ H]%from_utf8_Ok _ IH]; [done|]. csimpl. by rewrite H, IH. Qed.

Lemma as_bytes_slash t : slash ∈ t -> slash ∈ as_bytes t.
Proof. intros H. unfold as_bytes. apply list_elem_of_bind. exists slash. split; [left|done]. Qed.

Lemma decode_uri_path_text ss :
  Forall (fun s => text_name s /\ s <> [] /\ slash ∉ name_of s) ss ->
  Forall2 (fun s t => from_utf8 (name_of s) = Ok t) ss (decode_uri_path <$> ss)
  /\ Forall (fun t => plain_text t /\ 0%N ∉ t) (decode_uri_path <$> ss)
  /\ Forall (fun t => t <> [] /\ slash ∉ t /\ is_dot_name t = false) (decode_uri_path <$> ss).
Proof.
  induction 1 as [|s ss ((t & Ht & Hp & Hd & H0) & Hne & Hsl) _ (IH1 & IH2 & IH3)]; [done|]. csimpl.
  assert (decode_uri_path s = t) as ->.
  { unfold decode_uri_path. rewrite decode_binary_spec. fold (name_of s). by rewrite Ht. }
  split_and!; constructor; try done. apply from_utf8_Ok in Ht as [_ Hb]. split_and!; [|..|done].
  - intros ->. apply Hne, name_of_nil. by rewrite <- Hb.
  - intros Hin. apply Hsl. rewrite <- Hb. by apply as_bytes_slash.
Qed.

Lemma plain_join ts : Forall (fun t => plain_text t /\ 0%N ∉ t) ts ->
  plain_text (RustStr.join [slash] ts) /\ 0%N ∉ RustStr.join [slash] ts.
Proof.
  intros H. split.
  - induction H as [|t ts [Ht _] _ IH]; [constructor|]. destruct ts as [|q ts]; [done|].
    change (RustStr.join [slash] (t :: q :: ts)) with (t ++ slash :: RustStr.join [slash] (q :: ts)).
    apply Forall_app. split; [done|]. by constructor.
  - rewrite elem_of_join by done. intros (n & Hn & Hin). rewrite Forall_forall in H. by apply (H n Hn).
Qed.

(** The relative path names what is below the base. *)
Lemma relative_path_resolves u b r :
  regular u -> regular b -> infer_path_convention u = Some Posix ->
  Forall text_name (non_empty (segs u)) -> relative_path_from u b = Some r ->
  infer_path_convention b = Some Posix /\ plain_text r /\ 0%N ∉ r /\ resolve (names b) r = names u.
Proof.
  intros Hu Hb Hc Ht. unfold relative_path_from. destruct (path_uri_eqb u b) eqn:E.
  { destruct (path_uri_eqb_names u b E) as (_ & Hi & Hf); [by eexists|]. intros [= <-].
    split_and!; [congruence|constructor|by intros ?%elem_of_nil|].
    specialize (Hf _ Hc). unfold folded in Hf. simpl in Hf. by rewrite !list_fmap_id in Hf. }
  destruct Hu as [[n Hn] _], Hb as [[m Hm] _].
  destruct (lexical_depth_inv _ _ Hn) as (c1 & ss & Hbad & Hc1 & Hss & Hsep & _).
  destruct (lexical_depth_inv _ _ Hm) as (c2 & ts & Hbad2 & Hc2 & Hts & Hsep2 & _).
  assert (c1 = Posix) as -> by congruence. rewrite Hbad, Hbad2, Hc. simpl.
  destruct (host_eqb _ _); [|done]. simpl. rewrite Hc2.
  destruct c2; [|done]. simpl. unfold containment_path_segments. rewrite Hss, Hts, Hsep, Hsep2. simpl.
  destruct (native_path_segments_start_with _ _ _) eqn:Esw; [|done]. simpl. intros [= <-].
  rewrite (non_empty_segs _ _ Hss) in Ht.
  apply start_with_prefix in Esw as [x Hx]; [|done]. simpl in Hx.
  assert (Hd : Forall (fun s => text_name s /\ s <> [] /\ slash ∉ name_of s)
                 (drop (length (non_empty ts)) (non_empty ss))).
  { apply Forall_drop, Forall_forall. intros s Hs. rewrite Forall_forall in Ht. split; [by apply Ht|].
    apply list_elem_of_In in Hs. split.
    - apply filter_In in Hs as [_ Hs]. by destruct s.
    - apply (has_separator_false Posix). apply not_true_iff_false. intros H.
      rewrite <- not_true_iff_false, existsb_exists in Hsep. apply Hsep. by exists s. }
  destruct (decode_uri_path_text _ Hd) as (H1 & H2 & H3). destruct (plain_join _ H2).
  split_and!; [done..|]. rewrite resolve_names, (text_names_bytes _ _ H1) by done.
  unfold names. rewrite (non_empty_segs _ _ Hss), (non_empty_segs _ _ Hts).
  change (fold Posix ∘ name_of) with (name_of) in Hx. 
  assert (Hl : take (length (non_empty ts)) (name_of <$> non_empty ss) = name_of <$> non_empty ts).
  { rewrite Hx. rewrite <- (length_fmap name_of (non_empty ts)). apply take_app_length. }
  by rewrite <- Hl, fmap_drop, take_drop.
Qed.

(** Containment is the prefix order: for URIs with unambiguous components,
    [starts_with] holds exactly when both have the same authority and the same
    convention and the decoded names of the base, case-folded on Windows, are a
    prefix of the decoded names of the path. *)
Theorem containment_is_prefix u b c :
  regular u -> regular b -> infer_path_convention u = Some c ->
  uri_starts_with u b = true <->
  host_str u = host_str b /\ infer_path_convention b = Some c /\ folded c b `prefix_of` folded c u.
Proof. apply starts_with_names. Qed.

(** [PartialEq] and [Hash] agree: two URIs are equal exactly when they feed the
    hasher the same data, so equality is an equivalence and equal keys collide. *)
Theorem path_uri_eq_hash u v w :
  (path_uri_eqb u v = true <-> hash u = hash v)
  /\ path_uri_eqb u u = true
  /\ path_uri_eqb u v = path_uri_eqb v u
  /\ (path_uri_eqb u v && path_uri_eqb v w = true -> path_uri_eqb u w = true).
Proof.
  split_and!; [apply path_uri_eqb_hash|by apply path_uri_eqb_hash| |].
  - apply eq_true_iff_eq. rewrite !path_uri_eqb_hash. naive_solver.
  - rewrite andb_true_iff, !path_uri_eqb_hash. naive_solver congruence.
Qed.

(** C11: Every URI the code constructs is valid and none of the constructors panics:
    parsing, joining text or native bytes, taking a parent and walking the
    ancestors stay within file URLs without credentials, port, query, fragment,
    stray NUL, [localhost] or lower-case drive. *)
Theorem uri_operations_valid u p bytes :
  valid u -> valid_str p ->
  safe (parse p) /\ safe (uri_join u p) /\ safe (join_descendant u p)
  /\ safe (join_native_bytes u bytes)
  /\ (forall c, p <> [] -> safe_opt (from_absolute_native_path p c))
  /\ (forall v, parent u = Some v -> valid v)
  /\ Forall valid (ancestors u).
Proof.
  intros Hu Hp. split_and!; [apply parse_spec|by apply safe_join|by apply safe_join_descendant
    |by apply safe_join_native_bytes|intros c Hne; by apply safe_from_absolute
    |intros v Hv; by apply (parent_spec u v)|].
  eapply Forall_impl; [apply (proj1 (ancestors_chain u Hu))|]. apply anc_valid.
Qed.


(** The walk up the parents ends: every ancestor contains the URI, and the last
    one has no parent and keeps exactly the anchor (nothing on POSIX, the drive
    or share on Windows). *)
Theorem ancestors_reach_root u c :
  valid u -> regular u -> infer_path_convention u = Some c ->
  Forall (fun a => regular a /\ uri_starts_with u a = true) (ancestors u)
  /\ exists r, last (ancestors u) = Some r /\ parent r = None
       /\ names r = take (anchor_depth c) (names u).
Proof.
  intros Hu Hr Hc. destruct (ancestors_chain u Hu) as (Hall & r & Hlast & Hpar & Hanc). split.
  { eapply Forall_impl; [exact Hall|]. intros a. by apply ancestor_regular. }
  exists r. split_and!; [done..|].
  destruct (proj1 (ancestor_regular u r Hr Hanc)) as [[n Hn] _].
  destruct (lexical_depth_inv _ _ Hn) as (c' & ss & Hbad & Hc' & Hss & _ & _).
  assert (c' = c) as -> by (rewrite (anc_convention _ _ Hanc) in Hc'; congruence).
  unfold parent in Hpar. rewrite Hbad, Hc', Hss in Hpar.
  destruct (Nat.leb_spec (length (non_empty ss)) (anchor_depth c)) as [Hle|]; [|done].
  pose proof (anc_anchor _ _ Hanc c Hc) as Hge. pose proof (anc_segs _ _ Hanc) as [x Hx].
  rewrite (non_empty_segs _ _ Hss) in *. unfold names. rewrite (non_empty_segs _ _ Hss), Hx, fmap_app.
  rewrite Hx, length_app in Hge.
  destruct (decide (length (non_empty ss) = anchor_depth c)) as [<-|Hne].
  { by rewrite <- (length_fmap name_of (non_empty ss)), take_app_length. }
  assert (anchor_depth c <= 1) by (destruct c; simpl; lia).
  assert (x = []) as -> by (destruct x; [done|simpl in Hge; lia]).
  rewrite app_nil_r, take_ge; [done|]. rewrite length_fmap. lia.
Qed.

(** A relative path leads back: for POSIX URIs with textual names, the first of
    which does not look like a drive, joining the relative path of a URI to its
    base gives a URI with the same names. *)
Theorem relative_join_round_trip u b r :
  regular u -> regular b -> valid b -> tidy b -> infer_path_convention u = Some Posix ->
  Forall text_name (non_empty (segs u)) -> (forall n, head (names u) = Some n -> ~ drive_name n) ->
  relative_path_from u b = Some r ->
  exists v, uri_join b r = Return v /\ names v = names u /\ infer_path_convention v = Some Posix.
Proof.
  intros Hu Hb Hvb Htb Hc Ht Hdr Hr.
  destruct (relative_path_resolves u b r Hu Hb Hc Ht Hr) as (Hcb & Hp & H0 & Hres).
  destruct (posix_join b r) as (v & Hv & _ & Hi & Hn); try done.
  - destruct Hb as [[n Hn] _]. by destruct (lexical_depth_inv _ _ Hn) as (? & ? & ? & _).
  - by rewrite Hres.
  - exists v. by rewrite Hn, Hres.
Qed.

End Contract.

(** ** The contract at work *)

Module PathExamples.
Import PlainUrl.

Definition url_of (s : String.string) : Url :=
  match url_parse (lit s) with Ok u => u | Err _ => mk None [] [] end.
Arguments url_of _%_string_scope.
Definition home : Url := url_of "file:///home/user/my%20repo".
Definition drive : Url := url_of "file:///C:/Users/Me".

Lemma valid_url u :
  host_str u <> Some (lit "localhost") -> contains_char 0 (decoded_path_bytes u) = false ->
  match head (non_empty (segs u)) with
  | Some s => negb (is_windows_drive_uri_segment s)
              || match s with c :: _ => is_ascii_uppercase c | [] => false end
  | None => true
  end = true -> valid u.
Proof.
  intros Hh Hn Hd. split; [done| |done|].
  - intros H. by apply contains_char_false in H.
  - intros s _ Hs Hw. rewrite Hs, Hw in Hd. destruct s as [|c s]; [done|]. by exists c, s.
Qed.

Lemma regular_url u :
  match lexical_depth u with Some _ => true | None => false end = true ->
  infer_path_convention u = Some Posix \/
  forallb (fun s => match from_utf8 (name_of s) with Ok _ => true | Err _ => false end) (non_empty (segs u)) = true ->
  regular u.
Proof.
  intros Hd Hc. split.
  - by destruct (lexical_depth u); [eexists|].
  - intros Hw. destruct Hc as [Hc|Hc]; [congruence|]. apply Forall_forall. intros s Hs.
    rewrite forallb_forall in Hc. specialize (Hc s (proj1 (list_elem_of_In _ _) Hs)).
    destruct (from_utf8 (name_of s)) as [t|]; [by exists t|done].
Qed.

Lemma home_valid : valid home. Proof. by apply valid_url. Qed.
Lemma home_regular : regular home. Proof. apply regular_url; [done|by left]. Qed.
Lemma drive_valid : valid drive. Proof. by apply valid_url. Qed.
Lemma drive_regular : regular drive. Proof. apply regular_url; [done|by right]. Qed.

Lemma containment_is_prefix_witness :
  uri_starts_with (url_of "file:///C:/USERS/me/%61") drive = true.
Proof.
  apply (containment_is_prefix (url_of "file:///C:/USERS/me/%61") drive Windows); [| |done|].
  - apply regular_url; [done|by right].
  - apply drive_regular.
  - split_and!; [done|done|]. by exists [[97%N]].
Defined.

Lemma uri_operations_valid_witness :
  safe (uri_join home (lit "../src")) /\ safe (uri_join drive (lit "..\..\..\x")).
Proof.
  split.
  - apply (uri_operations_valid home (lit "../src") []); [apply home_valid|by repeat constructor].
  - apply (uri_operations_valid drive (lit "..\..\..\x") []); [apply drive_valid|by repeat constructor].
Defined.


Lemma ancestors_reach_root_witness :
  exists r, last (ancestors drive) = Some r /\ parent r = None /\ names r = [lit "C:"].
Proof.
  apply (ancestors_reach_root drive Windows); [apply drive_valid|apply drive_regular|done].
Defined.

Lemma relative_join_round_trip_witness :
  exists v, uri_join (url_of "file:///home/") (lit "user/my repo") = Return v /\ names v = names home.
Proof.
  destruct (relative_join_round_trip home (url_of "file:///home/") (lit "user/my repo")) as (v & Hv & Hn & _).
  - apply home_regular.
  - apply regular_url; [done|by left].
  - by apply valid_url.
  - by repeat constructor.
  - done.
  - repeat (apply Forall_cons; split); [eexists; split; [vm_compute; reflexivity|];
      split_and!; [by repeat constructor|done|by apply contains_char_false]..|constructor].
  - intros n [= <-] (d & _ & [=]).
  - done.
  - by exists v.
Defined.

Lemma path_uri_eq_hash_witness :
  hash (url_of "file:///C:/USERS/me") = hash drive /\ path_uri_eqb drive drive = true.
Proof.
  destruct (path_uri_eq_hash (url_of "file:///C:/USERS/me") drive drive) as [H1 _].
  destruct (path_uri_eq_hash drive drive drive) as (_ & H2 & _). split; [by apply H1|done].
Defined.

(** [join] counts non-empty names but removes segments: at an empty interior
    segment one [..] too few takes effect. *)
Example join_counts_names_not_segments :
  uri_join (url_of "file:///a//b") (lit "../../c") = Return (url_of "file:///a/c")
  /\ resolve (names (url_of "file:///a//b")) (lit "../../c") = [lit "c"].
Proof. done. Qed.

End PathExamples.
