(* ===== verification/NativePath.v ===== *)
(** * NativePath: rendering and reading native path text

    [utils/path-uri/src/api_path_string.rs] and [config_path.rs]: a
    [LegacyAppPathString] is path text in the syntax of a convention; it is
    rendered from a URI, parsed back, and resolved against an executor's working
    directory and home; configuration paths are checked for an unambiguous
    native spelling before they become security constraints. *)

From S2P Require Import Prelude RustStr PathUri PathLaws PathJoin PathTheorems.

Section NativePath.
Context {UL : UrlLib}.

Inductive LegacyAppPathStringError :=
| OpaqueFallback (path : str)
| IncompatibleConvention (path : str) (convention : PathConvention)
| InvalidNativePath (path : str) (convention : option PathConvention)
| UnsupportedConfigPath (path : str) (convention : PathConvention)
| MissingBaseConvention (cwd : str)
| MissingHomeDirectory (path : str)
| MismatchedConvention (path : str) (path_convention : PathConvention) (cwd : str)
    (convention : PathConvention)
| PathUriError (e : PathUriParseError).

(** [#[from] PathUriParseError] *)
Definition lift {A} (o : outcome PathUriParseError A) : outcome LegacyAppPathStringError A :=
  match o with Return a => Return a | Throw e => Throw (PathUriError e) | Panic => Panic end.

(** [String::from_utf16_lossy] *)
Fixpoint from_utf16_lossy (ws : list N) : str :=
  match ws with
  | [] => []
  | w :: ws' =>
      if in_range 55296 56319 w then
        match ws' with
        | x :: ws'' =>
            if in_range 56320 57343 x
            then (65536 + (w - 55296) * 1024 + (x - 56320))%N :: from_utf16_lossy ws''
            else 65533%N :: from_utf16_lossy ws'
        | [] => [65533%N]
        end
      else if in_range 56320 57343 w then 65533%N :: from_utf16_lossy ws'
      else w :: from_utf16_lossy ws'
  end.

Definition render_windows_opaque_fallback (path_bytes : list N) : option str :=
  if negb (N.even (lenN path_bytes)) then None
  else
    let path_wide := wide path_bytes in
    let has_drive_root :=
      match path_wide with
      | drive :: colon :: separator :: _ =>
          (in_range 65 90 drive || in_range 97 122 drive) && (colon =? 58)%N
          && is_windows_separator separator
      | _ => false
      end in
    let has_namespace_or_unc_root :=
      match path_wide with
      | first :: second :: _ => is_windows_separator first && is_windows_separator second
      | _ => false
      end in
    if has_drive_root || has_namespace_or_unc_root then Some (from_utf16_lossy path_wide) else None.

Definition render_opaque_fallback (u : Url) (path_bytes : list N) (convention : PathConvention)
    : outcome LegacyAppPathStringError str :=
  let rendered :=
    match convention with
    | Posix => if starts_with [slash] path_bytes then Some (from_utf8_lossy path_bytes) else None
    | Windows => render_windows_opaque_fallback path_bytes
    end in
  match rendered with Some s => Return s | None => Throw (OpaqueFallback (as_str u)) end.

(** [path_segments] of api_path_string.rs: unreachable without segments *)
Definition render_segments (u : Url) : outcome LegacyAppPathStringError (list str) :=
  match path_segments u with Some ss => Return ss | None => Panic end.

Definition decode_native_segment (segment : str) : str :=
  from_utf8_lossy (decode_binary (as_bytes segment)).

Definition render_posix_path (u : Url) : outcome LegacyAppPathStringError str :=
  match host_str u with
  | Some _ => Throw (IncompatibleConvention (as_str u) Posix)
  | None =>
      segments ← render_segments u;
      Return (segments ≫= (fun s => slash :: decode_native_segment s))
  end.

Definition render_windows_path (u : Url) : outcome LegacyAppPathStringError str :=
  let incompatible := Throw (IncompatibleConvention (as_str u) Windows) in
  segments ← render_segments u;
  head ←
    match host_str u, segments with
    | Some _, [] | None, [] => incompatible
    | Some host, share :: rest =>
        let share := decode_native_segment share in
        if is_empty share then incompatible
        else Return (lit "\\" ++ host ++ [backslash] ++ share, rest)
    | None, drive :: rest =>
        let drive := decode_native_segment drive in
        match as_bytes drive with
        | [d; c] => if is_ascii_alphabetic d && (c =? 58)%N then Return (drive, rest) else incompatible
        | _ => incompatible
        end
    end;
  let rendered := head.1 ++ (head.2 ≫= (fun s => backslash :: decode_native_segment s)) in
  Return (match as_bytes rendered with
          | [_; c] => if (c =? 58)%N then rendered ++ [backslash] else rendered
          | _ => rendered
          end).

(** [LegacyAppPathString::from_path_uri] *)
Definition from_path_uri (u : Url) (convention : PathConvention) : outcome LegacyAppPathStringError str :=
  match opaque_fallback_bytes u with
  | Some path_bytes => render_opaque_fallback u path_bytes convention
  | None => match convention with
            | Posix => render_posix_path u
            | Windows => render_windows_path u
            end
  end.

(** [PathUri::inferred_native_path_string] *)
Definition inferred_native_path_string (u : Url) : outcome LegacyAppPathStringError str :=
  match infer_path_convention u with
  | None => Return (as_str u)
  | Some convention =>
      match from_path_uri u convention with
      | Return s => Return s
      | Throw _ => Return (as_str u)
      | Panic => Panic
      end
  end.

(** [LegacyAppPathString::to_path_uri] *)
Definition to_path_uri (self : str) (convention : PathConvention) : outcome LegacyAppPathStringError Url :=
  uri ← lift (from_absolute_native_path self convention);
  match uri with
  | Some u => Return u
  | None => Throw (InvalidNativePath self (Some convention))
  end.

Definition infer_absolute_path_convention (self : str) : option PathConvention :=
  let bytes := as_bytes self in
  let has_windows_unc_root :=
    match bytes with
    | first :: second :: _ => is_windows_separator first && is_windows_separator second
    | _ => false
    end in
  if is_windows_drive_absolute_path self || has_windows_unc_root then Some Windows
  else if starts_with [slash] self then Some Posix
  else None.

(** [TryFrom<LegacyAppPathString> for PathUri] and [to_inferred_path_uri] *)
Definition try_from_legacy (self : str) : outcome LegacyAppPathStringError Url :=
  match infer_absolute_path_convention self with
  | None => Throw (InvalidNativePath self None)
  | Some convention => to_path_uri self convention
  end.

(** [LegacyAppPathString::resolve_against] *)
Definition resolve_against (self : str) (cwd : Url) (user_home_dir : option Url)
    : outcome LegacyAppPathStringError Url :=
  match infer_path_convention cwd with
  | None => Throw (MissingBaseConvention (as_str cwd))
  | Some convention =>
      let is_windows := convention_eqb convention Windows in
      match home_relative_suffix convention self with
      | Some suffix =>
          match user_home_dir with
          | None => Throw (MissingHomeDirectory self)
          | Some home =>
              lift (uri_join home (trim_start_matches
                      (fun c => (c =? slash)%N || is_windows && (c =? backslash)%N) suffix))
          end
      | None =>
          if is_windows && (starts_with (lit "//") self || starts_with (lit "\\") self)
          then to_path_uri self Windows
          else match infer_absolute_path_convention self with
               | Some path_convention =>
                   if convention_eqb path_convention convention then to_path_uri self convention
                   else if convention_eqb path_convention Posix && is_windows
                   then lift (uri_join cwd self)
                   else Throw (MismatchedConvention self path_convention (as_str cwd) convention)
               | None => lift (uri_join cwd self)
               end
      end
  end.

(** ** Configuration paths (config_path.rs) *)

Definition contains_glob_metacharacter (p : str) : bool :=
  existsb (fun c => existsb (N.eqb c) (lit "*?[]{}")) p.

(** The segment after a leading drive is exempt from the colon check. *)
Definition config_segment_text (index : nat) (segment : str) : str :=
  match index, as_bytes segment with
  | O, d :: c :: _ =>
      if is_ascii_alphabetic d && (c =? 58)%N then byte_drop 2 segment else segment
  | _, _ => segment
  end.

Definition validate_config_path_text (input : str) (convention : PathConvention)
    : outcome LegacyAppPathStringError unit :=
  let native_input := default input (normalize_windows_device_path input) in
  let windows := convention_eqb convention Windows in
  let has_windows_component_colon :=
    windows && existsb (fun '(index, segment) => contains_char 58 (config_segment_text index segment))
                 (enumerate (native_segments convention native_input)) in
  let mixed_home_separators :=
    windows && match home_relative_suffix convention input with
               | Some suffix =>
                   starts_with [slash] suffix
                   && starts_with [backslash] (trim_start_matches (N.eqb slash) suffix)
                   || starts_with [backslash] suffix
                      && starts_with [slash] (trim_start_matches (N.eqb backslash) suffix)
               | None => false
               end in
  let bare_windows_drive :=
    windows && match as_bytes native_input with
               | [d; c] => is_ascii_alphabetic d && (c =? 58)%N
               | _ => false
               end in
  if contains_char 0 input || has_windows_component_colon || mixed_home_separators || bare_windows_drive
  then Throw (UnsupportedConfigPath input convention) else Return tt.

Definition validate_config_path (self : Url) (convention : PathConvention)
    : outcome LegacyAppPathStringError unit :=
  if negb (convention_opt_eqb (infer_path_convention self) (Some convention))
  then Throw (IncompatibleConvention (as_str self) convention)
  else
    let bytes := decoded_path_bytes self in
    if negb (bool_decide (is_Some (lexical_depth self))) || contains_char 0 bytes
       || match from_utf8 bytes with Ok _ => false | Err _ => true end
    then Throw (PathUriError (InvalidFileUriPath (as_str self)))
    else
      text ← from_path_uri self convention;
      validate_config_path_text text convention.

Definition validate_glob_directory (self : Url) (convention : PathConvention)
    : outcome LegacyAppPathStringError unit :=
  _ ← validate_config_path self convention;
  p ← from_path_uri self convention;
  if contains_glob_metacharacter p || convention_eqb convention Posix && contains_char backslash p
  then Throw (UnsupportedConfigPath p convention) else Return tt.

Definition resolve_config_path_uri (input : str) (convention : PathConvention)
    (base user_home_dir : option Url) : outcome LegacyAppPathStringError Url :=
  _ ← validate_config_path_text input convention;
  let check (dir : Url) :=
    _ ← validate_config_path dir convention;
    if contains_glob_metacharacter input then validate_glob_directory dir convention else Return tt in
  resolved ←
    match home_relative_suffix convention input with
    | Some _ =>
        match user_home_dir with
        | None => Throw (MissingHomeDirectory input)
        | Some home => _ ← check home; resolve_against input home (Some home)
        end
    | None =>
        match to_path_uri input convention with
        | Return absolute => Return absolute
        | Throw error =>
            match base with
            | None => Throw error
            | Some base => _ ← check base; resolve_against input base None
            end
        | Panic => Panic
        end
    end;
  _ ← validate_config_path resolved convention;
  lift (uri_join resolved (lit ".")).

Definition to_config_path_string (self : Url) (convention : PathConvention)
    : outcome LegacyAppPathStringError str :=
  rendered ← from_path_uri self convention;
  Return (if bool_decide (is_Some (host_str self)) && negb (bool_decide (is_Some (parent self)))
          then rendered ++ [backslash] else rendered).

Definition resolve_config_path (input : str) (convention : PathConvention)
    (base user_home_dir : option Url) : outcome LegacyAppPathStringError str :=
  u ← resolve_config_path_uri input convention base user_home_dir;
  to_config_path_string u convention.

End NativePath.

Section NativeLaws.
Context {UL : UrlLib} {laws : UrlLaws UL}.

(** An operation that does not panic; one that returns valid URIs only, too. *)
Definition no_panic {E A} (o : outcome E A) : Prop := o <> Panic.
Definition sound (o : outcome LegacyAppPathStringError Url) : Prop :=
  no_panic o /\ forall v, o = Return v -> valid v.

Lemma no_panic_bind {E A B} (o : outcome E A) (k : A -> outcome E B) :
  no_panic o -> (forall a, o = Return a -> no_panic (k a)) -> no_panic (o ≫= k).
Proof. intros H Hk. destruct o as [a|e|]; simpl; [by apply Hk|done|done]. Qed.
Lemma sound_bind {A} (o : outcome LegacyAppPathStringError A) k :
  no_panic o -> (forall a, o = Return a -> sound (k a)) -> sound (o ≫= k).
Proof. intros H Hk. destruct o as [a|e|]; simpl; [by apply Hk|done|done]. Qed.
Lemma sound_lift o : safe o -> sound (lift o).
Proof. intros [H1 H2]. destruct o as [v|e|]; [|done|done]. split; [done|]. intros ? [= <-]. by apply H2. Qed.

Lemma render_segments_total u : valid u -> exists ss, path_segments u = Some ss /\ render_segments u = Return ss.
Proof.
  intros Hu. destruct (bare_segments u) as (ss & Hs & _); [apply Hu|]. exists ss.
  unfold render_segments. by rewrite Hs.
Qed.

Lemma from_path_uri_total u c : valid u -> no_panic (from_path_uri u c).
Proof.
  intros Hu. unfold from_path_uri, render_opaque_fallback, render_posix_path, render_windows_path.
  destruct (render_segments_total u Hu) as (ss & _ & ->). simpl.
  repeat (case_match; simplify_eq/=; try done).
Qed.

Lemma sound_to_path_uri p c : valid_str p -> sound (to_path_uri p c).
Proof.
  intros Hp. destruct p as [|x p]; [by destruct c|].
  destruct (safe_from_absolute (x :: p) c) as [H1 H2]; [done..|]. unfold to_path_uri.
  destruct (from_absolute_native_path (x :: p) c) as [[u|]|e|]; simpl; try done.
  split; [done|]. intros ? [= <-]. by apply H2.
Qed.

Lemma trim_start_valid f p : valid_str p -> valid_str (trim_start_matches f p).
Proof.
  intros H. apply Forall_forall. intros c Hc. unfold valid_str in H. rewrite Forall_forall in H.
  apply H. by eapply trim_start_matches_sub.
Qed.

Lemma home_suffix_valid c p s : valid_str p -> home_relative_suffix c p = Some s -> valid_str s.
Proof.
  intros Hp. unfold home_relative_suffix. destruct (strip_prefix _ p) eqn:E; [|done].
  case_match; [|done]. intros [= <-]. by eapply valid_str_suffix.
Qed.

Lemma sound_resolve_against p cwd home :
  valid_str p -> valid cwd -> (forall h, home = Some h -> valid h) -> sound (resolve_against p cwd home).
Proof.
  intros Hp Hcwd Hhome. unfold resolve_against. destruct (infer_path_convention cwd) as [c|]; [|done].
  assert (Hj : forall u q, valid u -> valid_str q -> sound (lift (uri_join u q))).
  { intros u q Hu Hq. by apply sound_lift, safe_join. }
  destruct (home_relative_suffix c p) as [suffix|] eqn:Eh.
  { destruct home as [h|]; [|done]. apply Hj; [by apply Hhome|].
    by apply trim_start_valid, (home_suffix_valid c p). }
  repeat case_match; try done; try (by apply sound_to_path_uri); by apply Hj.
Qed.

Lemma validate_text_total p c : no_panic (validate_config_path_text p c).
Proof.
  unfold validate_config_path_text. cbv zeta.
  match goal with |- no_panic (if ?b then _ else _) => by destruct b end.
Qed.
Lemma validate_config_path_total u c : valid u -> no_panic (validate_config_path u c).
Proof.
  intros Hu. unfold validate_config_path. case_match; [done|]. cbv zeta. case_match; [done|].
  apply no_panic_bind; [by apply from_path_uri_total|]. intros s _. apply validate_text_total.
Qed.
Lemma validate_glob_directory_total u c : valid u -> no_panic (validate_glob_directory u c).
Proof.
  intros Hu. unfold validate_glob_directory. apply no_panic_bind; [by apply validate_config_path_total|].
  intros _ _. apply no_panic_bind; [by apply from_path_uri_total|]. intros s _. by case_match.
Qed.

Lemma sound_resolve_config_path_uri input c base home :
  valid_str input -> (forall u, base = Some u -> valid u) -> (forall u, home = Some u -> valid u) ->
  sound (resolve_config_path_uri input c base home).
Proof.
  intros Hi Hb Hh. unfold resolve_config_path_uri. apply sound_bind.
  { apply validate_text_total. }
  intros _ _. cbv zeta.
  assert (Hdir : forall dir h, valid dir -> (forall u, h = Some u -> valid u) -> sound (
    (_ ← (_ ← validate_config_path dir c;
          if contains_glob_metacharacter input then validate_glob_directory dir c else Return tt);
     resolve_against input dir h))).
  { intros dir h Hd Hhome. apply sound_bind; [|intros _ _; by apply sound_resolve_against].
    apply no_panic_bind; [by apply validate_config_path_total|]. intros _ _.
    case_match; [by apply validate_glob_directory_total|done]. }
  match goal with |- sound (?o ≫= _) => assert (Ho : sound o) end.
  { destruct (home_relative_suffix c input).
    - destruct home as [h|]; [|done]. apply Hdir; [by apply Hh|done].
    - destruct (sound_to_path_uri input c Hi) as [H1 H2].
      destruct (to_path_uri input c) as [v|e|]; [|destruct base as [b|]; [|done]|done].
      + split; [done|]. intros ? [= <-]. by apply H2.
      + apply Hdir; [by apply Hb|done]. }
  apply sound_bind; [apply Ho|]. intros v Hv. apply Ho in Hv.
  apply sound_bind; [by apply validate_config_path_total|]. intros _ _.
  apply sound_lift, safe_join; [done|]. by repeat constructor.
Qed.

(** Reading and rendering native paths never panics and yields valid URIs:
    resolving text against a working directory and a home, resolving
    configuration text, and rendering any URI in either convention. *)
Theorem native_paths_total input c cwd base home :
  valid_str input -> valid cwd -> (forall u, base = Some u -> valid u) ->
  (forall u, home = Some u -> valid u) ->
  sound (resolve_against input cwd home) /\ sound (resolve_config_path_uri input c base home)
  /\ no_panic (resolve_config_path input c base home)
  /\ no_panic (inferred_native_path_string cwd) /\ no_panic (validate_glob_directory cwd c).
Proof.
  intros Hi Hc Hb Hh. pose proof (sound_resolve_config_path_uri input c base home Hi Hb Hh) as [H1 H2].
  split_and!; [by apply sound_resolve_against|done| | |by apply validate_glob_directory_total].
  - unfold resolve_config_path. apply no_panic_bind; [done|]. intros u Hu.
    unfold to_config_path_string. apply no_panic_bind; [|done]. apply from_path_uri_total. by apply H2.
  - unfold inferred_native_path_string. destruct (infer_path_convention cwd) as [k|]; [|done].
    pose proof (from_path_uri_total cwd k Hc) as H. by destruct (from_path_uri cwd k).
Qed.

(** ** Rendering and reading back *)

Lemma lossy_text bs s : from_utf8 bs = Ok s -> from_utf8_lossy bs = s.
Proof.
  unfold from_utf8, from_utf8_lossy. cbn [lossy]. destruct (decode bs) as [t []]; [by intros [= ->]|done].
Qed.

Lemma rendered_join ts : ts <> [] -> ts ≫= (fun t => slash :: t) = slash :: RustStr.join [slash] ts.
Proof.
  induction ts as [|t [|q ts] IH]; [done|simpl; by rewrite app_nil_r|]. intros _.
  change (RustStr.join [slash] (t :: q :: ts)) with (t ++ slash :: RustStr.join [slash] (q :: ts)).
  rewrite <- IH by done. done.
Qed.

Lemma resolve_texts ts base :
  Forall (fun t => is_dot_name t = false) ts ->
  foldl resolve_step base ts = base ++ (as_bytes <$> non_empty ts).
Proof.
  intros H. revert base. induction H as [|t ts Hd _ IH]; intros base; simpl; [by rewrite app_nil_r|].
  rewrite IH. unfold resolve_step. unfold is_dot_name in Hd. apply orb_false_iff in Hd as [-> ->].
  destruct t; simpl; [done|]. by rewrite <- app_assoc.
Qed.

(** A URI and its native rendering: for an ordinary POSIX URI whose names are
    text, rendering gives the text of an absolute path, and parsing that text
    gives back a URI with the same names. *)
Theorem native_round_trip u :
  valid u -> regular u -> infer_path_convention u = Some Posix ->
  Forall text_name (segs u) -> (forall n, head (names u) = Some n -> ~ drive_name n) ->
  exists s v, from_path_uri u Posix = Return s /\ to_path_uri s Posix = Return v
    /\ names v = names u /\ infer_path_convention v = Some Posix.
Proof.
  intros Hu [[n Hn] _] Hc Ht Hdr.
  destruct (lexical_depth_inv _ _ Hn) as (c & ss & Hbad & Hc' & Hss & Hsep & _).
  assert (c = Posix) as -> by congruence. rewrite (non_empty_segs _ _ Hss) in Ht.
  assert (Hh : host_str u = None) by (rewrite infer_ordinary in Hc by done; by destruct (host_str u)).
  assert (Hsl : Forall (fun s => slash ∉ name_of s) ss).
  { apply Forall_forall. intros s Hs Hin. destruct s as [|x s]; [by apply elem_of_nil in Hin|].
    revert Hin. apply (has_separator_false Posix). apply not_true_iff_false. intros H.
    rewrite <- not_true_iff_false, existsb_exists in Hsep. apply Hsep. exists (x :: s). split; [|done].
    apply filter_In. by rewrite <- list_elem_of_In. }
  set (ts := decode_native_segment <$> ss).
  assert (Hts : Forall2 (fun s t => from_utf8 (name_of s) = Ok t) ss ts
                /\ Forall (fun t => plain_text t /\ 0%N ∉ t) ts
                /\ Forall (fun t => slash ∉ t) ts /\ Forall (fun t => is_dot_name t = false) ts).
  { unfold ts. clear - Ht Hsl laws. induction Ht as [|s ss (t & Hs & Hp & Hd & H0) _ IH]; [done|].
    apply Forall_cons in Hsl as [Hsl Hsl']. destruct (IH Hsl') as (I1 & I2 & I3 & I4). csimpl.
    assert (decode_native_segment s = t) as ->.
    { unfold decode_native_segment. rewrite decode_binary_spec. by apply lossy_text. }
    split_and!; constructor; try done. intros Hin%as_bytes_slash. apply Hsl.
    by apply from_utf8_Ok in Hs as [_ <-]. }
  destruct Hts as (H1 & H2 & H3 & H4). destruct (segments_ok u ss Hss) as [Hne _].
  assert (Hr : resolve [] (slash :: RustStr.join [slash] ts) = names u).
  { transitivity (foldl resolve_step [] (split_on slash (RustStr.join [slash] ts))); [done|].
    rewrite split_on_join, resolve_texts; [|done..|by destruct ss]. rewrite app_nil_l.
    unfold names. rewrite (non_empty_segs _ _ Hss), <- !non_empty_fmap; [by rewrite (text_names_bytes _ _ H1)
      |apply name_of_nil|]. intros s. split; [|by intros ->]. destruct s as [|x s]; [done|].
    rewrite as_bytes_cons. intros [E _]%app_nil. by apply encode_char_ne in E. }
  destruct (plain_join ts H2) as [Hp H0].
  exists (slash :: RustStr.join [slash] ts). destruct (absolute_posix (RustStr.join [slash] ts)) as (v & Hv & Hvn & Hvi);
    [done|done|by rewrite Hr|].
  exists v. split_and!; [|unfold to_path_uri; by rewrite Hv|congruence|done].
  unfold from_path_uri, opaque_fallback_bytes. rewrite Hbad. unfold render_posix_path, render_segments.
  rewrite Hh, Hss. simpl. f_equal. rewrite <- rendered_join by by destruct ss.
  unfold ts. by rewrite list_fmap_bind.
Qed.

End NativeLaws.

Module NativeExamples.
Import PlainUrl PathExamples.

Lemma native_paths_total_witness :
  no_panic (resolve_config_path (lit "~/../etc/*.conf") Posix None (Some home)).
Proof.
  apply (native_paths_total (lit "~/../etc/*.conf") Posix home None (Some home)).
  - by repeat constructor.
  - apply home_valid.
  - done.
  - intros u [= <-]. apply home_valid.
Defined.

Lemma native_round_trip_witness :
  exists s v, from_path_uri home Posix = Return s /\ to_path_uri s Posix = Return v /\ names v = names home.
Proof.
  destruct (native_round_trip home) as (s & v & H1 & H2 & H3 & _).
  - apply home_valid.
  - apply home_regular.
  - done.
  - repeat (apply Forall_cons; split); [eexists; split; [vm_compute; reflexivity|];
      split_and!; [by repeat constructor|done|by apply contains_char_false]..|constructor].
  - intros n [= <-] (d & _ & [=]).
  - by exists s, v.
Defined.

End NativeExamples.
