(* ===== verification/Permissions.v ===== *)
(** * Permissions: filesystem sandbox policies over executor paths

    The part of [protocol/src/permissions.rs] that evaluates a policy on
    [PathUri]s without touching the host file system: access modes, entries,
    special paths, [resolve_access], protected metadata, the read-deny matcher,
    full-disk access, preserving denials and materializing workspace roots.

    The [globset] crate is the class [GlobLib]. Where the source calls [.ok()]
    on a join, [join_ok] is used: joining a valid URI never panics
    ([PathTheorems.uri_operations_valid]); likewise rendering a valid URI
    ([NativePath.native_paths_total]). *)

From S2P Require Import Prelude RustStr PathUri NativePath.

(** ** Data *)

Inductive NetworkSandboxPolicy := NetRestricted | NetEnabled.
Definition is_enabled (n : NetworkSandboxPolicy) : bool :=
  match n with NetEnabled => true | NetRestricted => false end.

(** In the order the source derives: deny above write above read. *)
Inductive FileSystemAccessMode := Read | Write | Deny.
#[export] Instance access_eq_dec : EqDecision FileSystemAccessMode.
Proof. solve_decision. Defined.
Definition access_rank (a : FileSystemAccessMode) : nat :=
  match a with Read => 0 | Write => 1 | Deny => 2 end.
Definition access_eqb (a b : FileSystemAccessMode) : bool := access_rank a =? access_rank b.
Definition can_read (a : FileSystemAccessMode) : bool := match a with Deny => false | _ => true end.
Definition can_write (a : FileSystemAccessMode) : bool := match a with Write => true | _ => false end.

Inductive FileSystemSpecialPath :=
| Root
| Minimal
| ProjectRoots (subpath : option str)
| Tmpdir
| SlashTmp
| Unknown (path : str) (subpath : option str).

Definition special_eqb (a b : FileSystemSpecialPath) : bool :=
  match a, b with
  | Root, Root | Minimal, Minimal | Tmpdir, Tmpdir | SlashTmp, SlashTmp => true
  | ProjectRoots s, ProjectRoots t => host_eqb s t
  | Unknown p s, Unknown q t => str_eqb p q && host_eqb s t
  | _, _ => false
  end.

Inductive MissingPathBehavior := Skip.

Inductive FileSystemSandboxKind := Restricted | Unrestricted | ExternalSandbox.
Definition is_restricted (k : FileSystemSandboxKind) : bool :=
  match k with Restricted => true | _ => false end.

(** [globset]: building a matcher for a pattern with the options the code sets,
    and matching a path's bytes. *)
Class GlobLib := {
  GlobMatcher : Type;
  GlobError : Type;
  glob_build : str -> PathConvention -> result GlobError GlobMatcher;
  is_match_candidate : GlobMatcher -> list N -> bool;
}.

Section Permissions.
Context {UL : UrlLib} {GL : GlobLib}.

Inductive FileSystemPath :=
| Path (path : Url)
| GlobPattern (pattern : str)
| Special (value : FileSystemSpecialPath).

Record FileSystemSandboxEntry := mkEntry {
  entry_path : FileSystemPath;
  access : FileSystemAccessMode;
  missing_path_behavior : option MissingPathBehavior;
}.

Record FileSystemSandboxPolicy := mkPolicy {
  kind : FileSystemSandboxKind;
  glob_scan_max_depth : option N;
  entries : list FileSystemSandboxEntry;
}.

Record FileSystemSandboxPolicyContext := mkContext {
  cwd : Url;
  workspace_roots : list Url;
  user_home_dir : option Url;
  temporary_directories : option (list Url);
}.

(** [PartialEq], derived down to [PathUri]'s *)
Definition path_eqb (a b : FileSystemPath) : bool :=
  match a, b with
  | Path p, Path q => path_uri_eqb p q
  | GlobPattern p, GlobPattern q => str_eqb p q
  | Special v, Special w => special_eqb v w
  | _, _ => false
  end.
Definition entry_eqb (a b : FileSystemSandboxEntry) : bool :=
  path_eqb (entry_path a) (entry_path b) && access_eqb (access a) (access b)
  && bool_decide (is_Some (missing_path_behavior a) <-> is_Some (missing_path_behavior b)).
(** [Vec::contains] *)
Definition contains_entry (l : list FileSystemSandboxEntry) (e : FileSystemSandboxEntry) : bool :=
  existsb (entry_eqb e) l.

Definition new_entry (p : FileSystemPath) (a : FileSystemAccessMode) : FileSystemSandboxEntry :=
  mkEntry p a None.
Definition skips_missing_path (e : FileSystemSandboxEntry) : bool :=
  match missing_path_behavior e with Some Skip => true | None => false end.

(** ** Constructors *)

Definition restricted (es : list FileSystemSandboxEntry) : FileSystemSandboxPolicy :=
  mkPolicy Restricted None es.
Definition unrestricted : FileSystemSandboxPolicy := mkPolicy Unrestricted None [].
Definition external_sandbox : FileSystemSandboxPolicy := mkPolicy ExternalSandbox None [].
Definition read_only_file_system_entries : list FileSystemSandboxEntry :=
  [new_entry (Special Root) Read].
Definition read_only : FileSystemSandboxPolicy := restricted read_only_file_system_entries.

Definition remove_skip_missing_path_entries (self : FileSystemSandboxPolicy) : FileSystemSandboxPolicy :=
  mkPolicy (kind self) (glob_scan_max_depth self)
    (retain (fun e => negb (skips_missing_path e)) (entries self)).

(** ** Resolving entries *)

Definition join_ok (u : Url) (p : str) : option Url :=
  match uri_join u p with Return v => Some v | _ => None end.
Definition join_descendant_ok (u : Url) (p : str) : option Url :=
  match join_descendant u p with Return v => Some v | _ => None end.
Definition native_string (u : Url) : str :=
  match inferred_native_path_string u with Return s => s | _ => as_str u end.

Definition file_system_root (ctx : FileSystemSandboxPolicyContext) : option Url :=
  match lexical_depth (cwd ctx) with
  | None => None
  | Some _ => last (ancestors (cwd ctx))
  end.

Definition option_list {A} (o : option A) : list A := match o with Some a => [a] | None => [] end.

Definition entry_paths (ctx : FileSystemSandboxPolicyContext) (p : FileSystemPath) : list Url :=
  match p with
  | Path path => [path]
  | GlobPattern _ => []
  | Special Root => option_list (file_system_root ctx)
  | Special (ProjectRoots subpath) =>
      omap (fun root => match subpath with Some s => join_ok root s | None => Some root end)
        (workspace_roots ctx)
  | Special Tmpdir => default [] (temporary_directories ctx)
  | Special SlashTmp =>
      if convention_opt_eqb (infer_path_convention (cwd ctx)) (Some Posix)
      then option_list (join_ok (cwd ctx) (lit "/tmp")) else []
  | Special Minimal | Special (Unknown _ _) => []
  end.

(** [resolved_entries] *)
Definition resolved_entries (self : FileSystemSandboxPolicy) (ctx : FileSystemSandboxPolicyContext)
    : list (Url * FileSystemAccessMode) :=
  let convention := infer_path_convention (cwd ctx) in
  entries self ≫= (fun e =>
    (fun p => (p, access e)) <$>
      List.filter (fun p => convention_opt_eqb (infer_path_convention p) convention)
        (entry_paths ctx (entry_path e))).

(** ** Access *)

(** The [try_fold] of [resolve_access]: opaque roots are dropped, an ambiguous
    one fails. *)
Fixpoint with_depths (es : list (Url * FileSystemAccessMode))
    : option (list (Url * FileSystemAccessMode * nat)) :=
  match es with
  | [] => Some []
  | (root, a) :: es =>
      match lexical_depth root with
      | Some depth => cons (root, a, depth) <$> with_depths es
      | None => if is_opaque root then with_depths es else None
      end
  end.

(** [(depth, access)] as a key, compared lexicographically *)
Definition key_le (x y : Url * FileSystemAccessMode * nat) : bool :=
  let '(_, a, d) := x in let '(_, b, e) := y in
  (d <? e) || (d =? e) && (access_rank a <=? access_rank b).
(** [Iterator::max_by_key]: the last of the greatest elements *)
Definition max_by_key (l : list (Url * FileSystemAccessMode * nat))
    : option (Url * FileSystemAccessMode * nat) :=
  foldl (fun best x => match best with
                       | None => Some x
                       | Some b => if key_le b x then Some x else Some b
                       end) None l.

Definition resolve_access (self : FileSystemSandboxPolicy) (p : Url)
    (ctx : FileSystemSandboxPolicyContext) : FileSystemAccessMode :=
  match kind self with
  | Unrestricted | ExternalSandbox => Write
  | Restricted =>
      match infer_path_convention (cwd ctx) with
      | None => Deny
      | Some convention =>
          if negb (convention_opt_eqb (infer_path_convention p) (Some convention))
             || negb (bool_decide (is_Some (lexical_depth p)))
             || negb (bool_decide (is_Some (lexical_depth (cwd ctx))))
          then Deny
          else match with_depths (resolved_entries self ctx) with
               | None => Deny
               | Some es =>
                   match max_by_key (List.filter (fun e => uri_starts_with p e.1.1) es) with
                   | Some e => e.1.2
                   | None => Deny
                   end
               end
      end
  end.

(** ** Full-disk access *)

Definition is_root_path (p : FileSystemPath) : bool :=
  match p with Special Root => true | _ => false end.

Definition has_root_access (self : FileSystemSandboxPolicy) (predicate : FileSystemAccessMode -> bool) : bool :=
  is_restricted (kind self)
  && existsb (fun e => is_root_path (entry_path e) && predicate (access e)) (entries self).

Definition has_denied_read_restrictions_for_convention (self : FileSystemSandboxPolicy)
    (convention : option PathConvention) : bool :=
  is_restricted (kind self)
  && existsb (fun e =>
       access_eqb (access e) Deny
       && negb (match entry_path e with
                | Special SlashTmp => convention_opt_eqb convention (Some Windows)
                | _ => false
                end)) (entries self).

Definition special_paths_share_target : FileSystemSpecialPath -> FileSystemSpecialPath -> bool :=
  special_eqb.

Definition special_path_matches_path_uri (value : FileSystemSpecialPath) (p : Url) : bool :=
  match value with
  | Root => bool_decide (is_Some (lexical_depth p)) && negb (bool_decide (is_Some (parent p)))
  | SlashTmp =>
      convention_opt_eqb (infer_path_convention p) (Some Posix)
      && bool_decide (lexical_depth p = Some 1)
      && host_eqb (basename p) (Some (lit "tmp"))
  | _ => false
  end.

Definition file_system_paths_share_target (l r : FileSystemPath) (convention : PathConvention) : bool :=
  match l, r with
  | Path p, Path q => path_uri_eqb p q
  | Special v, Special w => special_paths_share_target v w
  | Path p, Special v | Special v, Path p =>
      convention_opt_eqb (infer_path_convention p) (Some convention)
      && special_path_matches_path_uri v p
  | GlobPattern p, GlobPattern q => str_eqb p q
  | GlobPattern _, _ | _, GlobPattern _ => false
  end.

Definition has_same_target_write_override (self : FileSystemSandboxPolicy)
    (e : FileSystemSandboxEntry) (convention : PathConvention) : bool :=
  existsb (fun candidate =>
    can_write (access candidate)
    && (access_rank (access e) <? access_rank (access candidate))
    && file_system_paths_share_target (entry_path candidate) (entry_path e) convention)
    (entries self).

Definition has_write_narrowing_entries (self : FileSystemSandboxPolicy) (convention : PathConvention) : bool :=
  is_restricted (kind self)
  && existsb (fun e =>
       if can_write (access e) then false
       else match entry_path e with
            | Path _ => negb (has_same_target_write_override self e convention)
            | GlobPattern _ => true
            | Special Root => access_eqb (access e) Deny
            | Special SlashTmp =>
                if convention_eqb convention Windows then false
                else negb (has_same_target_write_override self e convention)
            | Special Minimal | Special (Unknown _ _) => false
            | Special _ => negb (has_same_target_write_override self e convention)
            end) (entries self).

Definition has_full_disk_read_access_for_convention (self : FileSystemSandboxPolicy)
    (convention : option PathConvention) : bool :=
  match kind self with
  | Unrestricted | ExternalSandbox => true
  | Restricted =>
      has_root_access self can_read
      && negb (has_denied_read_restrictions_for_convention self convention)
  end.

Definition has_full_disk_write_access_for_convention (self : FileSystemSandboxPolicy)
    (convention : option PathConvention) : bool :=
  match kind self with
  | Unrestricted | ExternalSandbox => true
  | Restricted =>
      match convention with
      | Some convention =>
          has_root_access self can_write && negb (has_write_narrowing_entries self convention)
      | None => false
      end
  end.

Definition has_full_disk_write_access_with_context (self : FileSystemSandboxPolicy)
    (ctx : FileSystemSandboxPolicyContext) : bool :=
  has_full_disk_write_access_for_convention self (infer_path_convention (cwd ctx)).

(** [PathConvention::native()] is an argument. *)
Definition include_platform_defaults (native : PathConvention) (self : FileSystemSandboxPolicy) : bool :=
  negb (has_full_disk_read_access_for_convention self (Some native))
  && is_restricted (kind self)
  && existsb (fun e => match entry_path e with
                       | Special Minimal => can_read (access e)
                       | _ => false
                       end) (entries self).

(** ** Protected metadata *)

Definition PROTECTED_METADATA_PATH_NAMES : list str :=
  [lit ".git"; lit ".agents"; lit ".codex"; lit ".aws"].
Definition is_protected_metadata_name (name : str) : bool :=
  existsb (str_eqb name) PROTECTED_METADATA_PATH_NAMES.

Definition protected_under (p root : Url) : option (Url * str) :=
  find_map (fun metadata_name =>
    match join_descendant_ok root metadata_name with
    | Some protected => if uri_starts_with p protected then Some (protected, metadata_name) else None
    | None => None
    end) PROTECTED_METADATA_PATH_NAMES.

Definition metadata_write_denial (self : FileSystemSandboxPolicy) (p : Url)
    (ctx : FileSystemSandboxPolicyContext) : option str :=
  if negb (is_restricted (kind self)) then None
  else
    let es := resolved_entries self ctx in
    match find_map (fun e => protected_under p e.1) (List.filter (fun e => can_write e.2) es) with
    | None => None
    | Some (protected, metadata_name) =>
        if existsb (fun e => can_write e.2 && uri_starts_with p e.1 && uri_starts_with e.1 protected) es
        then None else Some metadata_name
    end.

Definition can_write_path (self : FileSystemSandboxPolicy) (p : Url)
    (ctx : FileSystemSandboxPolicyContext) : bool :=
  if negb (can_write (resolve_access self p ctx)) then false
  else has_full_disk_write_access_with_context self ctx
       || match metadata_write_denial self p ctx with None => true | Some _ => false end.

(** ** The read-deny matcher *)

Inductive InvalidDenyReadGlobBehavior := FailClosed | ReturnError.

(** The error strings, as the data they render. *)
Inductive DenyReadError :=
| MissingHome (pattern : str)
| BadDirectory (e : LegacyAppPathStringError)
| Unresolvable (pattern : str)
| InvalidGlob (pattern : str) (e : GlobError).

Record PreparedReadDenyMatcher := mkPrepared {
  denied_roots : list Url;
  deny_read_matchers : list GlobMatcher;
  invalid_pattern : bool;
}.

(** One pattern of [deny_read_globs]; [None] for entries that are not globs. *)
Definition deny_read_glob (ctx : FileSystemSandboxPolicyContext) (e : FileSystemSandboxEntry)
    : option (result DenyReadError str) :=
  match entry_path e with
  | GlobPattern pattern =>
      let is_windows := convention_opt_eqb (infer_path_convention (cwd ctx)) (Some Windows) in
      let home_relative :=
        match strip_prefix (lit "~/") pattern with
        | Some suffix => Some suffix
        | None => if is_windows then strip_prefix (lit "~\") pattern else None
        end in
      let resolve root pattern :=
        let convention := if is_windows then Windows else Posix in
        let bad_directory :=
          match to_path_uri pattern convention with
          | Return _ => None
          | _ => match validate_glob_directory root convention with
                 | Throw e => Some e
                 | _ => None
                 end
          end in
        match bad_directory with
        | Some e => Err (BadDirectory e)
        | None => match join_ok root pattern with
                  | Some u => Ok (native_string u)
                  | None => Err (Unresolvable pattern)
                  end
        end in
      Some (match home_relative with
            | Some suffix =>
                match user_home_dir ctx with
                | Some home =>
                    resolve home (trim_start_matches
                      (fun c => (c =? slash)%N || is_windows && (c =? backslash)%N) suffix)
                | None => Err (MissingHome pattern)
                end
            | None => resolve (cwd ctx) pattern
            end)
  | _ => None
  end.

(** [collect] into a [Result]: the first error wins. *)
Fixpoint collect {E A} (l : list (result E A)) : result E (list A) :=
  match l with
  | [] => Ok []
  | r :: l => x ← r; xs ← collect l; Ok (x :: xs)
  end.

Definition deny_read_globs (self : FileSystemSandboxPolicy) (ctx : FileSystemSandboxPolicyContext)
    : result DenyReadError (list str) :=
  collect (omap (deny_read_glob ctx)
    (List.filter (fun e => access_eqb (access e) Deny) (entries self))).

Definition build_glob_matcher (pattern : str) (convention : PathConvention)
    : result GlobError GlobMatcher :=
  glob_build (match convention with
              | Windows => replace_char backslash slash pattern
              | Posix => pattern
              end) convention.

(** The loop over the patterns. *)
Fixpoint build_matchers (behavior : InvalidDenyReadGlobBehavior) (convention : PathConvention)
    (patterns : list str) : result DenyReadError (list GlobMatcher * bool) :=
  match patterns with
  | [] => Ok ([], false)
  | pattern :: patterns =>
      match build_glob_matcher pattern convention, behavior with
      | Ok matcher, _ =>
          '(ms, invalid) ← build_matchers behavior convention patterns; Ok (matcher :: ms, invalid)
      | Err _, FailClosed =>
          '(ms, _) ← build_matchers behavior convention patterns; Ok (ms, true)
      | Err e, ReturnError => Err (InvalidGlob pattern e)
      end
  end.

Definition denied_entry_roots (self : FileSystemSandboxPolicy) (ctx : FileSystemSandboxPolicyContext)
    : list Url :=
  let root := file_system_root ctx in
  fst <$> List.filter (fun e =>
    access_eqb e.2 Deny
    && negb (match root with
             | Some r => uri_starts_with e.1 r && uri_starts_with r e.1
             | None => false
             end)) (resolved_entries self ctx).

Definition prepare_deny_read_matcher (self : FileSystemSandboxPolicy)
    (ctx : FileSystemSandboxPolicyContext) (behavior : InvalidDenyReadGlobBehavior)
    : result DenyReadError PreparedReadDenyMatcher :=
  let roots := denied_entry_roots self ctx in
  match infer_path_convention (cwd ctx) with
  | None => Ok (mkPrepared roots [] true)
  | Some convention =>
      match deny_read_globs self ctx with
      | Err e => match behavior with
                 | FailClosed => Ok (mkPrepared roots [] true)
                 | ReturnError => Err e
                 end
      | Ok patterns =>
          '(matchers, invalid) ← build_matchers behavior convention patterns;
          Ok (mkPrepared roots matchers invalid)
      end
  end.

Definition matches_prepared_read_deny (p : Url) (ctx : FileSystemSandboxPolicyContext)
    (prepared : PreparedReadDenyMatcher) : bool :=
  match infer_path_convention (cwd ctx) with
  | None => true
  | Some convention =>
      if negb (convention_opt_eqb (infer_path_convention p) (Some convention))
         || negb (bool_decide (is_Some (lexical_depth p)))
         || negb (bool_decide (is_Some (lexical_depth (cwd ctx))))
      then true
      else if invalid_pattern prepared then true
      else
        existsb (uri_starts_with p) (denied_roots prepared)
        || existsb (fun m =>
             is_match_candidate m
               match convention with
               | Posix => decoded_path_bytes p
               | Windows => as_bytes (replace_char backslash slash (native_string p))
               end) (deny_read_matchers prepared)
  end.

(** [ReadDenyMatcher::from_context] and [is_read_denied_uri] *)
Definition from_context (self : FileSystemSandboxPolicy) (ctx : FileSystemSandboxPolicyContext)
    : option PreparedReadDenyMatcher :=
  if existsb (fun e => access_eqb (access e) Deny) (entries self)
  then match prepare_deny_read_matcher self ctx FailClosed with
       | Ok prepared => Some prepared
       | Err _ => None
       end
  else None.
Definition is_read_denied_uri (m : PreparedReadDenyMatcher) (p : Url)
    (ctx : FileSystemSandboxPolicyContext) : bool :=
  matches_prepared_read_deny p ctx m.

(** ** Replacing the allow side *)

(** [for deny_entry in existing … if !self.entries.any(== deny_entry) push] *)
Definition push_missing (es : list FileSystemSandboxEntry) (e : FileSystemSandboxEntry)
    : list FileSystemSandboxEntry :=
  if contains_entry es e then es else es ++ [e].

Definition preserve_deny_read_restrictions_from (self existing : FileSystemSandboxPolicy)
    : FileSystemSandboxPolicy :=
  let denies := List.filter (fun e => access_eqb (access e) Deny) (entries existing) in
  let self :=
    match kind self with
    | Unrestricted =>
        if negb (is_empty denies) then restricted [new_entry (Special Root) Write] else self
    | _ => self
    end in
  if negb (is_restricted (kind self)) then self
  else mkPolicy (kind self)
         (match glob_scan_max_depth self with
          | None => glob_scan_max_depth existing
          | some => some
          end)
         (foldl push_missing (entries self) denies).

(** ** Materializing workspace roots *)

Definition PROJECT_ROOTS_GLOB_PATTERN_PREFIX : str := lit "codex-project-roots://".

Definition resolve_scoped_workspace_path (root : Url) (subpath : str) : option Url :=
  match infer_path_convention root with
  | None => None
  | Some convention =>
      if starts_with [slash] subpath
         || convention_eqb convention Windows && starts_with [backslash] subpath
         || existsb is_dot_name (native_segments convention subpath)
         || convention_eqb convention Windows
            && existsb (contains_char 58) (native_segments convention subpath)
      then None
      else match join_ok root subpath with
           | Some p => if uri_starts_with p root then Some p else None
           | None => None
           end
  end.

(** What an entry says of workspace roots: its subpath and whether it is a glob. *)
Definition workspace_scoped (p : FileSystemPath) : option (option str * bool) :=
  match p with
  | Special (ProjectRoots subpath) => Some (subpath, false)
  | GlobPattern pattern =>
      match strip_prefix PROJECT_ROOTS_GLOB_PATTERN_PREFIX pattern with
      | Some rest => Some (Some rest, true)
      | None => None
      end
  | _ => None
  end.

Definition materialize_under (e : FileSystemSandboxEntry) (subpath : option str) (is_glob : bool)
    (root : Url) : option FileSystemSandboxEntry :=
  let unsafe_glob :=
    is_glob && match infer_path_convention root with
               | None => true
               | Some convention =>
                   match validate_glob_directory root convention with Return _ => false | _ => true end
               end in
  let path :=
    if unsafe_glob then None
    else match subpath with
         | None => Some root
         | Some s => resolve_scoped_workspace_path root s
         end in
  match path with
  | Some p =>
      Some (mkEntry (if is_glob then GlobPattern (native_string p) else Path p) (access e)
              (missing_path_behavior e))
  | None =>
      if negb (can_write (access e)) then Some (mkEntry (Path root) Deny (missing_path_behavior e))
      else None
  end.

Fixpoint try_materialize_entries (es : list FileSystemSandboxEntry) (roots : list Url)
    : option (list FileSystemSandboxEntry) :=
  match es with
  | [] => Some []
  | e :: es =>
      match workspace_scoped (entry_path e) with
      | None => cons e <$> try_materialize_entries es roots
      | Some (subpath, is_glob) =>
          if access_eqb (access e) Deny
             && match subpath with
                | Some s =>
                    existsb (fun root =>
                      match infer_path_convention root with
                      | Some convention => bool_decide (is_Some (home_relative_suffix convention s))
                      | None => false
                      end) roots
                | None => false
                end
          then None
          else app (omap (materialize_under e subpath is_glob) roots)
                 <$> try_materialize_entries es roots
      end
  end.

Definition materialize_project_roots_with_path_uris (self : FileSystemSandboxPolicy) (roots : list Url)
    : FileSystemSandboxPolicy :=
  match try_materialize_entries (entries self) roots with
  | Some es => mkPolicy (kind self) (glob_scan_max_depth self) es
  | None => restricted []
  end.

End Permissions.
