(* ===== verification/PermissionLaws.v ===== *)
(** * PermissionLaws: what a sandbox policy guarantees

    The theorems on Permissions.v: the most specific entry decides and denials
    win ties, the full-disk flag agrees with the evaluator, protected metadata
    stays protected, the read-deny matcher fails closed, and replacing the allow
    side keeps every denial. *)

From S2P Require Import Prelude RustStr PathUri PathLaws PathJoin PathTheorems NativePath Permissions.
From Stdlib Require Import ZifyBool.

Section PermissionLaws.
Context {UL : UrlLib} {GL : GlobLib} {laws : UrlLaws UL}.

(** ** The most specific entry *)

Lemma key_le_refl x : key_le x x = true.
Proof. destruct x as [[r a] d]. simpl. lia. Qed.
Lemma key_le_trans x y z : key_le x y = true -> key_le y z = true -> key_le x z = true.
Proof. destruct x as [[? ?] ?], y as [[? ?] ?], z as [[? ?] ?]. simpl. lia. Qed.
Lemma key_le_total x y : key_le x y = false -> key_le y x = true.
Proof. destruct x as [[? ?] ?], y as [[? ?] ?]. simpl. lia. Qed.
Lemma key_le_access x y :
  key_le x y = true -> key_le y x = true -> x.1.2 = y.1.2 /\ x.2 = y.2.
Proof.
  destruct x as [[? a] ?], y as [[? b] ?]. simpl. intros H1 H2. assert (access_rank a = access_rank b) by lia.
  split; [|lia]. by destruct a, b.
Qed.

(** [max_by_key] answers a greatest element, and something on a non-empty list. *)
Lemma max_by_key_spec l :
  match max_by_key l with
  | Some e => e ∈ l /\ forall x, x ∈ l -> key_le x e = true
  | None => l = []
  end.
Proof.
  unfold max_by_key. set (f := fun best x => _).
  assert (H : forall l b, exists e, foldl f (Some b) l = Some e /\ e ∈ b :: l
              /\ forall x, x ∈ b :: l -> key_le x e = true).
  { clear l. induction l as [|y l IH]; intros b; cbn [foldl].
    - exists b. split_and!; [done|left|]. intros x ->%list_elem_of_singleton. apply key_le_refl.
    - change (f (Some b) y) with (if key_le b y then Some y else Some b). destruct (key_le b y) eqn:E.
      + destruct (IH y) as (e & He & Hin & Hmax). exists e. split_and!; [done|by right|].
        intros x [->|Hx]%elem_of_cons; [|by apply Hmax].
        apply (key_le_trans b y e); [done|]. apply Hmax. left.
      + destruct (IH b) as (e & He & Hin & Hmax). exists e. split_and!; [done| |].
        * apply elem_of_cons in Hin as [->|Hin]; [left|by do 2 right].
        * intros x [->|[->|Hx]%elem_of_cons]%elem_of_cons; [apply Hmax; left| |apply Hmax; by right].
          apply (key_le_trans y b e); [by apply key_le_total|]. apply Hmax. left. }
  destruct l as [|b l]; [done|]. simpl. destruct (H l b) as (e & -> & Hin & Hmax). done.
Qed.

Lemma with_depths_elem es ds r a d :
  with_depths es = Some ds -> (r, a, d) ∈ ds <-> (r, a) ∈ es /\ lexical_depth r = Some d.
Proof.
  revert ds. induction es as [|[r' a'] es IH]; intros ds; simpl.
  { intros [= <-]. rewrite !elem_of_nil. tauto. }
  destruct (lexical_depth r') as [d'|] eqn:E.
  - destruct (with_depths es) as [ds'|]; [|done]. intros [= <-]. rewrite !elem_of_cons, IH by done.
    split; [intros [[= -> -> ->]|[? ?]]; auto|intros [[[= -> ->]|?] ?]; [left; congruence|auto]].
  - destruct (is_opaque r'); [|done]. intros H. rewrite (IH ds H), elem_of_cons.
    split; [tauto|]. intros [[[= -> ->]|?] ?]; [congruence|tauto].
Qed.

(** The entries that cover a path. *)
Definition covers (es : list (Url * FileSystemAccessMode)) (p r : Url) (a : FileSystemAccessMode) (d : nat) : Prop :=
  (r, a) ∈ es /\ lexical_depth r = Some d /\ uri_starts_with p r = true.

(** What a restricted policy looks at before it consults its entries. *)
Record evaluable (self : FileSystemSandboxPolicy) (p : Url) (ctx : FileSystemSandboxPolicyContext) : Prop := {
  ev_kind : kind self = Restricted;
  ev_convention : is_Some (infer_path_convention (cwd ctx));
  ev_same : infer_path_convention p = infer_path_convention (cwd ctx);
  ev_path : is_Some (lexical_depth p);
  ev_cwd : is_Some (lexical_depth (cwd ctx));
  ev_roots : is_Some (with_depths (resolved_entries self ctx));
}.

Lemma resolve_access_cases self p ctx :
  evaluable self p ctx ->
  (resolve_access self p ctx = Deny /\ forall r a d, ~ covers (resolved_entries self ctx) p r a d)
  \/ exists r a d, covers (resolved_entries self ctx) p r a d /\ resolve_access self p ctx = a
     /\ forall r' a' d', covers (resolved_entries self ctx) p r' a' d' ->
          d' < d \/ d' = d /\ access_rank a' <= access_rank a.
Proof.
  intros [Hk [c Hc] Hs Hp Hcwd [ds Hd]]. unfold resolve_access. rewrite Hk, Hc.
  rewrite Hs, Hc. rewrite !bool_decide_eq_true_2 by done.
  rewrite (proj2 (convention_opt_eqb_eq (Some c) (Some c)) eq_refl), Hd. simpl.
  assert (Hel : forall r a d, covers (resolved_entries self ctx) p r a d <->
            (r, a, d) ∈ List.filter (fun e => uri_starts_with p e.1.1) ds).
  { intros r a d. rewrite list_elem_of_In, filter_In, <- list_elem_of_In, (with_depths_elem _ _ _ _ _ Hd).
    unfold covers. simpl. tauto. }
  pose proof (max_by_key_spec (List.filter (fun e => uri_starts_with p e.1.1) ds)) as Hm.
  destruct (max_by_key _) as [[[r a] d]|].
  - right. exists r, a, d. destruct Hm as [Hin Hmax]. split; [by apply Hel|]. split; [done|].
    intros r' a' d' H%Hel%Hmax. simpl in H. lia.
  - left. split; [done|]. intros r a d H%Hel. rewrite Hm in H. by apply elem_of_nil in H.
Qed.

(** Only the set of resolved entries matters. *)
Lemma max_access_ext l k :
  (forall x, x ∈ l <-> x ∈ k) ->
  match max_by_key l with Some e => e.1.2 | None => Deny end =
  match max_by_key k with Some e => e.1.2 | None => Deny end.
Proof.
  intros H. pose proof (max_by_key_spec l) as Hl. pose proof (max_by_key_spec k) as Hk.
  destruct (max_by_key l) as [e|], (max_by_key k) as [e'|].
  - destruct Hl as [H1 H2], Hk as [H3 H4]. apply key_le_access; [by apply H4, H|by apply H2, H].
  - subst k. destruct Hl as [H1%H _]. by apply elem_of_nil in H1.
  - subst l. destruct Hk as [H1%H _]. by apply elem_of_nil in H1.
  - done.
Qed.

Lemma with_depths_Some es :
  is_Some (with_depths es) <->
  forall r a, (r, a) ∈ es -> is_Some (lexical_depth r) \/ is_opaque r = true.
Proof.
  induction es as [|[r a] es IH]; simpl; [split; [by intros _ ? ? ?%elem_of_nil|by eexists]|].
  assert (Hcons : (forall r' a', (r', a') ∈ (r, a) :: es -> is_Some (lexical_depth r') \/ is_opaque r' = true)
            <-> (is_Some (lexical_depth r) \/ is_opaque r = true) /\ is_Some (with_depths es)).
  { rewrite IH. split.
    - intros H. split; [eapply H; left|]. intros r' a' Hin. eapply H. by right.
    - intros [H1 H2] r' a' [[= -> ->]|Hin]%elem_of_cons; [done|by eapply H2]. }
  rewrite Hcons. destruct (lexical_depth r) as [d|]; [|destruct (is_opaque r)].
  - rewrite fmap_is_Some. split; [intros H; split; [left; by eexists|done]|tauto].
  - split; [intros H; split; [by right|done]|tauto].
  - split; [by intros [? ?]|]. intros [[[? ?]|?] _]; done.
Qed.

Lemma resolve_access_ext self self' p ctx :
  kind self = kind self' ->
  (forall r a, (r, a) ∈ resolved_entries self ctx <-> (r, a) ∈ resolved_entries self' ctx) ->
  resolve_access self p ctx = resolve_access self' p ctx.
Proof.
  intros Hk Hel. unfold resolve_access. rewrite <- Hk. destruct (kind self); [|done..].
  destruct (infer_path_convention (cwd ctx)) as [c|]; [|done]. destruct (_ || _ || _); [done|].
  destruct (with_depths (resolved_entries self ctx)) as [ds|] eqn:E1,
    (with_depths (resolved_entries self' ctx)) as [ds'|] eqn:E2.
  - apply max_access_ext. intros [[r a] d]. rewrite !list_elem_of_In, !filter_In, <- !list_elem_of_In.
    by rewrite (with_depths_elem _ _ _ _ _ E1), (with_depths_elem _ _ _ _ _ E2), Hel.
  - exfalso. assert (H : is_Some (with_depths (resolved_entries self' ctx))); [|by rewrite E2 in H; destruct H].
    apply with_depths_Some. intros r a Hin%Hel. revert r a Hin. apply with_depths_Some. by eexists.
  - exfalso. assert (H : is_Some (with_depths (resolved_entries self ctx))); [|by rewrite E1 in H; destruct H].
    apply with_depths_Some. intros r a Hin%Hel. revert r a Hin. apply with_depths_Some. by eexists.
  - done.
Qed.

Lemma resolved_entries_elem self ctx r a :
  (r, a) ∈ resolved_entries self ctx <->
  infer_path_convention r = infer_path_convention (cwd ctx)
  /\ exists e, e ∈ entries self /\ access e = a /\ r ∈ entry_paths ctx (entry_path e).
Proof.
  unfold resolved_entries. rewrite list_elem_of_bind. setoid_rewrite list_elem_of_fmap.
  setoid_rewrite list_elem_of_In. setoid_rewrite filter_In. setoid_rewrite <- list_elem_of_In.
  setoid_rewrite convention_opt_eqb_eq. split.
  - intros (e & (q & [= -> ->] & Hq & Hc) & He). split; [done|]. by exists e.
  - intros (Hc & e & He & <- & Hr). exists e. split; [|done]. by exists r.
Qed.

(** ** Full-disk write access *)

(** A context whose working directory is a valid, unambiguous path below its
    anchor, and a policy whose resolved roots are unambiguous. *)
Record good_context (ctx : FileSystemSandboxPolicyContext) (c : PathConvention) : Prop := {
  gc_valid : valid (cwd ctx);
  gc_regular : regular (cwd ctx);
  gc_convention : infer_path_convention (cwd ctx) = Some c;
  gc_anchor : anchor_depth c <= length (names (cwd ctx));
}.
Definition good_roots (self : FileSystemSandboxPolicy) (ctx : FileSystemSandboxPolicyContext) : Prop :=
  forall r a, (r, a) ∈ resolved_entries self ctx -> regular r.

Lemma root_of_context ctx c :
  good_context ctx c ->
  exists r, file_system_root ctx = Some r /\ regular r /\ infer_path_convention r = Some c
    /\ parent r = None /\ length (names r) = anchor_depth c /\ uri_starts_with (cwd ctx) r = true.
Proof.
  intros [Hv Hr Hc Ha]. destruct (ancestors_chain (cwd ctx) Hv) as (_ & r & Hl & Hp & Hanc).
  exists r. destruct (ancestor_regular _ _ Hr Hanc) as [Hrr Hsw]. unfold file_system_root.
  pose proof Hr as [[n ->] _].
  assert (Hrc : infer_path_convention r = Some c) by (rewrite (anc_convention _ _ Hanc); done).
  split_and!; try done.
  pose proof (anc_anchor _ _ Hanc c Hc) as Hge. unfold names in *. rewrite length_fmap in *. specialize (Hge Ha).
  pose proof Hrr as [[m Hm] _]. destruct (lexical_depth_inv _ _ Hm) as (c' & ss & Hbad & Hc' & Hss & _).
  assert (c' = c) as -> by congruence. unfold parent in Hp. rewrite Hbad, Hc', Hss in Hp.
  rewrite (non_empty_segs _ _ Hss) in *.
  destruct (Nat.leb_spec (length (non_empty ss)) (anchor_depth c)); [lia|done].
Qed.

Lemma regular_convention u : regular u -> exists c, infer_path_convention u = Some c.
Proof. intros [[n Hn] _]. destruct (lexical_depth_inv _ _ Hn) as (c & _ & _ & Hc & _). by exists c. Qed.
Lemma regular_depth u : regular u -> lexical_depth u = Some (length (names u)).
Proof. intros [[n Hn] _]. by rewrite Hn, (lexical_depth_names _ _ Hn). Qed.
Lemma regular_posix_host u : regular u -> infer_path_convention u = Some Posix -> host_str u = None.
Proof.
  intros [[n Hn] _] Hc. destruct (lexical_depth_inv _ _ Hn) as (? & ? & Hbad & _).
  rewrite infer_ordinary in Hc by done. by destruct (host_str u).
Qed.

(** A root with the same names covers the same paths. *)
Lemma covers_same_names p r q c :
  regular p -> regular r -> regular q -> infer_path_convention p = Some c ->
  host_str q = host_str r -> infer_path_convention q = infer_path_convention r -> folded c q = folded c r ->
  uri_starts_with p r = true -> uri_starts_with p q = true.
Proof.
  intros Hp Hr Hq Hc Hh Hi Hf. rewrite (starts_with_names p r c), (starts_with_names p q c) by done.
  rewrite Hi, Hh, Hf. done.
Qed.

Lemma slash_tmp_path ctx :
  good_context ctx Posix ->
  exists v, entry_paths ctx (Special SlashTmp) = [v] /\ names v = [lit "tmp"]
    /\ infer_path_convention v = Some Posix.
Proof.
  intros Hg. cbn [entry_paths]. rewrite (gc_convention _ _ Hg). simpl. unfold join_ok, uri_join.
  change (contains_char 0 (lit "/tmp")) with false. rewrite (gc_convention _ _ Hg).
  destruct (absolute_posix (lit "tmp")) as (w & Hw & Hn & Hi).
  - by repeat constructor.
  - by apply contains_char_false.
  - intros n [= <-] (d & _ & [=]).
  - exists w. change (lit "/tmp") with (slash :: lit "tmp"). rewrite Hw. simpl. by rewrite Hn.
Qed.

Lemma slash_tmp_names ctx c v :
  good_context ctx c -> v ∈ entry_paths ctx (Special SlashTmp) ->
  c = Posix /\ names v = [lit "tmp"] /\ infer_path_convention v = Some Posix.
Proof.
  intros Hg Hv. destruct c.
  - destruct (slash_tmp_path ctx Hg) as (w & Hw & Hn & Hi). rewrite Hw in Hv.
    by apply list_elem_of_singleton in Hv as ->.
  - cbn [entry_paths] in Hv. rewrite (gc_convention _ _ Hg) in Hv. by apply elem_of_nil in Hv.
Qed.

Lemma tmp_path_names q :
  regular q -> special_path_matches_path_uri SlashTmp q = true ->
  infer_path_convention q = Some Posix /\ names q = [lit "tmp"].
Proof.
  intros Hq H. simpl in H. rewrite !andb_true_iff, convention_opt_eqb_eq, bool_decide_eq_true, host_eqb_eq in H.
  destruct H as [[Hc Hd] Hb]. split; [done|]. destruct (lexical_depth_inv _ _ Hd) as (c & ss & Hbad & _ & Hss & _ & Hl).
  unfold basename in Hb. rewrite Hbad, Hss in Hb. unfold names. rewrite (non_empty_segs _ _ Hss).
  destruct (non_empty ss) as [|s [|? ?]] eqn:E; simpl in Hl; [done| |done]. simpl in *.
  f_equal. injection Hb as Hb. unfold decode_uri_path in Hb. rewrite decode_binary_spec in Hb. fold (name_of s) in Hb.
  destruct (from_utf8 (name_of s)) as [t|e] eqn:Et.
  - apply from_utf8_Ok in Et as [_ <-]. by rewrite Hb.
  - subst s. vm_compute in Et. done.
Qed.

Lemma special_eqb_eq a b : special_eqb a b = true -> a = b.
Proof.
  destruct a, b; simpl; try done.
  - by intros ->%host_eqb_eq.
  - by intros [->%str_eqb_eq ->%host_eqb_eq]%andb_true_iff.
Qed.

(** Two roots with the same names on the same host, for a path both could cover. *)
Lemma same_target_covers p r q c :
  regular p -> regular r -> regular q -> infer_path_convention p = Some c ->
  path_uri_eqb q r = true -> uri_starts_with p r = true ->
  uri_starts_with p q = true /\ lexical_depth q = lexical_depth r.
Proof.
  intros Hp Hr Hq Hc E Hsw. destruct (regular_convention q Hq) as [k Hk].
  destruct (path_uri_eqb_names q r E) as (Hh & Hi & Hf); [by eexists|].
  assert (k = c) as ->.
  { apply (starts_with_names p r c) in Hsw as (_ & Hrc & _); [congruence|done..]. }
  specialize (Hf c Hk). split; [by apply (covers_same_names p r q c)|].
  rewrite !regular_depth by done. f_equal.
  rewrite <- (length_fmap (fold c) (names q)), <- (length_fmap (fold c) (names r)). by apply f_equal.
Qed.

Lemma tmp_same p r q :
  regular p -> regular r -> regular q -> infer_path_convention p = Some Posix ->
  names r = [lit "tmp"] -> names q = [lit "tmp"] ->
  infer_path_convention r = Some Posix -> infer_path_convention q = Some Posix ->
  uri_starts_with p r = true -> uri_starts_with p q = true /\ lexical_depth q = lexical_depth r.
Proof.
  intros Hp Hr Hq Hc Nr Nq Ir Iq Hsw. split; [|rewrite !regular_depth by done; congruence].
  apply (covers_same_names p r q Posix); try done; [|congruence|unfold folded; congruence].
  by rewrite !regular_posix_host.
Qed.

(** A write entry for the same target covers what the entry covers, at least as
    specifically. *)
Lemma override_covers self ctx c e p r :
  good_context ctx c -> good_roots self ctx -> regular p -> infer_path_convention p = Some c ->
  (forall root, file_system_root ctx = Some root -> uri_starts_with p root = true) ->
  has_same_target_write_override self e c = true -> entry_path e <> Special Root ->
  r ∈ entry_paths ctx (entry_path e) -> regular r -> infer_path_convention r = Some c ->
  uri_starts_with p r = true ->
  access e = Read /\ exists q d, covers (resolved_entries self ctx) p q Write d
    /\ default 0 (lexical_depth r) <= d.
Proof.
  intros Hg Hroots Hp Hpc Hroot Hov Hne Hin Hr Hrc Hsw.
  apply existsb_exists in Hov as (k & Hk%list_elem_of_In & H). rewrite !andb_true_iff in H.
  destruct H as [[Hw Hlt] Hsh].
  assert (Hkw : access k = Write) by by destruct (access k).
  split; [rewrite Hkw in Hlt; destruct (access e); simpl in Hlt; done|].
  assert (Hgive : forall q, q ∈ entry_paths ctx (entry_path k) -> infer_path_convention q = Some c ->
            (regular q -> uri_starts_with p q = true /\ default 0 (lexical_depth r) <= default 0 (lexical_depth q)) ->
            exists q d, covers (resolved_entries self ctx) p q Write d /\ default 0 (lexical_depth r) <= d).
  { intros q Hq Hqc Hdo. assert (Hres : (q, Write) ∈ resolved_entries self ctx).
    { apply resolved_entries_elem. rewrite (gc_convention _ _ Hg). split; [done|]. by exists k. }
    pose proof (Hroots _ _ Hres) as Hqr. destruct (Hdo Hqr) as [H1 H2]. rewrite (regular_depth q Hqr) in H2.
    exists q, (length (names q)). split; [|done]. split_and!; [done|by apply regular_depth|done]. }
  destruct (entry_path k) as [q|g|v] eqn:Ek, (entry_path e) as [r0|g'|w] eqn:Ee; simpl in Hsh; try done.
  - apply list_elem_of_singleton in Hin as ->.
    destruct (regular_convention r0 Hr) as [c0 Hc0].
    assert (Hqc : infer_path_convention q = Some c).
    { pose proof Hsh as Hsh'. unfold path_uri_eqb in Hsh'. destruct (url_eqb q r0) eqn:Eu; [apply url_eqb_eq in Eu; congruence|].
      destruct (windows_identity_path_bytes q) eqn:Iq; [|done].
      destruct (windows_identity_path_bytes r0) eqn:Ir; [|done].
      apply identity_convention in Iq, Ir. congruence. }
    apply (Hgive q); [by left|done|]. intros Hqr.
    destruct (same_target_covers p r0 q c) as [H1 H2]; [done..|]. by rewrite H2.
  - apply andb_true_iff in Hsh as [Hqc%convention_opt_eqb_eq Hm].
    apply (Hgive q); [by left|done|]. intros Hqr. destruct w; try done.
    destruct (slash_tmp_names ctx c r Hg Hin) as (-> & Hn & Hi). destruct (tmp_path_names q Hqr Hm) as [Hqi Hqn].
    destruct (tmp_same p r q) as [H1 H2]; [done..|]. by rewrite H2.
  - by apply elem_of_nil in Hin.
  - apply list_elem_of_singleton in Hin as ->. apply andb_true_iff in Hsh as [_ Hm].
    destruct v; try done.
    + destruct (root_of_context ctx c Hg) as (R & HR & HRr & HRc & _ & HRl & _).
      simpl in Hm. apply andb_true_iff in Hm as [_ Hpar%negb_true_iff].
      apply (Hgive R); [simpl; rewrite HR; by left|done|]. intros _. split; [by apply Hroot|].
      rewrite !regular_depth by done. simpl. rewrite HRl. apply bool_decide_eq_false in Hpar.
      pose proof Hr as [[m Hm'] _]. destruct (lexical_depth_inv _ _ Hm') as (c' & ss & Hbad & Hc' & Hss & _).
      assert (c' = c) as -> by congruence. unfold parent in Hpar. rewrite Hbad, Hc', Hss in Hpar.
      unfold names. rewrite length_fmap, (non_empty_segs _ _ Hss).
      destruct (Nat.leb_spec (length (non_empty ss)) (anchor_depth c)); [done|]. exfalso. apply Hpar. by eexists.
    + destruct (tmp_path_names r0 Hr Hm) as [Hi Hn]. assert (c = Posix) as -> by congruence.
      destruct (slash_tmp_path ctx Hg) as (R & ER & HRn & HRi).
      apply (Hgive R); [rewrite ER; left|done|]. intros HRr.
      destruct (tmp_same p r0 R) as [H1 H2]; [done..|]. by rewrite H2.
  - apply special_eqb_eq in Hsh as ->. apply (Hgive r); done.
Qed.

Lemma good_roots_depths self ctx : good_roots self ctx -> is_Some (with_depths (resolved_entries self ctx)).
Proof. intros H. apply with_depths_Some. intros r a Hin. left. by destruct (H _ _ Hin). Qed.

Lemma good_evaluable self ctx c p :
  kind self = Restricted -> good_context ctx c -> good_roots self ctx -> regular p ->
  infer_path_convention p = Some c -> evaluable self p ctx.
Proof.
  intros Hk Hg Hr Hp Hc. pose proof (gc_convention _ _ Hg) as Hcwd.
  split; [done|by eexists|congruence|apply Hp|apply (gc_regular _ _ Hg)|by apply good_roots_depths].
Qed.

Lemma existsb_false {A} (f : A -> bool) l x : existsb f l = false -> x ∈ l -> f x = false.
Proof.
  intros H Hx. apply not_true_iff_false. intros Hf. rewrite <- not_true_iff_false, existsb_exists in H.
  apply H. exists x. by rewrite <- list_elem_of_In.
Qed.

(** An entry that is not a write entry of a policy without narrowing entries is
    shadowed by a write entry that covers as much. *)
Lemma not_narrowing self ctx c e p r :
  kind self = Restricted -> good_context ctx c -> good_roots self ctx -> regular p -> infer_path_convention p = Some c ->
  (forall root, file_system_root ctx = Some root -> uri_starts_with p root = true) ->
  has_root_access self can_write = true -> has_write_narrowing_entries self c = false ->
  e ∈ entries self -> r ∈ entry_paths ctx (entry_path e) -> regular r -> infer_path_convention r = Some c ->
  uri_starts_with p r = true -> access e <> Write ->
  access e = Read /\ exists q d, covers (resolved_entries self ctx) p q Write d
    /\ default 0 (lexical_depth r) <= d.
Proof.
  intros Hk Hg Hroots Hp Hpc Hroot Hra Hnar He Hin Hr Hrc Hsw Hacc.
  unfold has_write_narrowing_entries in Hnar. rewrite Hk in Hnar. simpl in Hnar.
  pose proof (existsb_false _ _ _ Hnar He) as Hf. cbv beta in Hf.
  assert (Hcw : can_write (access e) = false) by by destruct (access e). rewrite Hcw in Hf.
  assert (Hov : entry_path e <> Special Root -> has_same_target_write_override self e c = true ->
            access e = Read /\ exists q d, covers (resolved_entries self ctx) p q Write d
              /\ default 0 (lexical_depth r) <= d).
  { intros Hne Ho. by apply (override_covers self ctx c e p r). }
  destruct (entry_path e) as [q|g|v] eqn:Ep.
  - apply Hov; [done|]. by apply negb_false_iff.
  - by apply elem_of_nil in Hin.
  - destruct v as [| |sub| | |u sub]; try (by apply elem_of_nil in Hin); try (apply Hov; [done|by apply negb_false_iff]).
    + split; [by destruct (access e)|]. apply andb_true_iff in Hra as [_ Hra].
      apply existsb_exists in Hra as (k & Hk'%list_elem_of_In & [Hkr Hkw]%andb_true_iff).
      destruct (file_system_root ctx) as [R|] eqn:ER; simpl in Hin; rewrite ER in Hin; [|by apply elem_of_nil in Hin].
      apply list_elem_of_singleton in Hin as ->. exists R, (length (names R)).
      rewrite (regular_depth R Hr). split; [|done]. split_and!; [|by apply regular_depth|done].
      apply resolved_entries_elem. rewrite (gc_convention _ _ Hg). split; [done|]. exists k.
      destruct (entry_path k) as [| |[]]; try done. split_and!; [done|by destruct (access k)|]. simpl. rewrite ER. left.
    + destruct (convention_eqb c Windows) eqn:Ec; [|apply Hov; [done|by apply negb_false_iff]].
      apply convention_eqb_eq in Ec as ->. by destruct (slash_tmp_names ctx Windows r Hg Hin).
Qed.

(** The full-disk flag is sound: where the policy claims unrestricted writing,
    the evaluator grants write access to every unambiguous path below the file
    system root of the working directory, and so does [can_write_path]. *)
Theorem full_disk_write_sound self ctx c p :
  kind self = Restricted -> good_context ctx c -> good_roots self ctx -> regular p ->
  infer_path_convention p = Some c ->
  (forall root, file_system_root ctx = Some root -> uri_starts_with p root = true) ->
  has_full_disk_write_access_with_context self ctx = true ->
  resolve_access self p ctx = Write /\ can_write_path self p ctx = true.
Proof.
  intros Hk Hg Hroots Hp Hpc Hroot Hfull.
  assert (Hw : resolve_access self p ctx = Write).
  2: { split; [done|]. unfold can_write_path. by rewrite Hw, Hfull. }
  unfold has_full_disk_write_access_with_context, has_full_disk_write_access_for_convention in Hfull.
  rewrite Hk, (gc_convention _ _ Hg) in Hfull. apply andb_true_iff in Hfull as [Hra Hnar%negb_true_iff].
  destruct (resolve_access_cases self p ctx) as [[_ Hnone]|(r & a & d & (Hin & Hd & Hsw) & -> & Hmax)];
    [by apply (good_evaluable self ctx c)| |].
  - exfalso. destruct (root_of_context ctx c Hg) as (R & HR & HRr & HRc & _).
    apply andb_true_iff in Hra as [_ Hra].
    apply existsb_exists in Hra as (k & Hk'%list_elem_of_In & [Hkr Hkw]%andb_true_iff).
    apply (Hnone R (access k) (length (names R))). split_and!; [|by apply regular_depth|by apply Hroot].
    apply resolved_entries_elem. rewrite (gc_convention _ _ Hg). split; [done|]. exists k.
    destruct (entry_path k) as [| |[]]; try done. split_and!; [done..|]. simpl. rewrite HR. left.
  - pose proof Hin as (Hrc & e & He & Ha & Hpath)%resolved_entries_elem. rewrite (gc_convention _ _ Hg) in Hrc.
    destruct (decide (a = Write)) as [|Hne]; [done|]. exfalso.
    destruct (not_narrowing self ctx c e p r) as (Hread & q & d' & Hcov & Hle); try done.
    + by apply (Hroots _ _ Hin).
    + congruence.
    + rewrite Hd in Hle. simpl in Hle. specialize (Hmax _ _ _ Hcov). rewrite <- Ha, Hread in Hmax. simpl in Hmax. lia.
Qed.

(** C7: The most specific entry decides: among the resolved roots that contain the
    path, the deepest determines the access, a denial beats a write and a write
    beats a read at the same depth, a path no root contains is denied, and the
    order of the entries does not matter. *)
Theorem resolve_access_most_specific self self' p ctx :
  evaluable self p ctx -> entries self' ≡ₚ entries self -> kind self' = kind self ->
  resolve_access self' p ctx = resolve_access self p ctx
  /\ ((resolve_access self p ctx = Deny /\ forall r a d, ~ covers (resolved_entries self ctx) p r a d)
     \/ exists r a d, covers (resolved_entries self ctx) p r a d /\ resolve_access self p ctx = a
        /\ forall r' a' d', covers (resolved_entries self ctx) p r' a' d' ->
             d' < d \/ d' = d /\ access_rank a' <= access_rank a).
Proof.
  intros Hev Hperm Hk. split; [|by apply resolve_access_cases].
  apply resolve_access_ext; [done|]. intros r a. rewrite !resolved_entries_elem.
  by setoid_rewrite Hperm.
Qed.

(** ** Protected metadata *)

(** [p] lies in a metadata directory of a writable root. *)
Definition in_metadata (self : FileSystemSandboxPolicy) (ctx : FileSystemSandboxPolicyContext)
    (p protected : Url) (name : str) : Prop :=
  exists root, (root, Write) ∈ resolved_entries self ctx /\ name ∈ PROTECTED_METADATA_PATH_NAMES
    /\ join_descendant_ok root name = Some protected /\ uri_starts_with p protected = true.

Lemma protected_under_Some p root protected name :
  protected_under p root = Some (protected, name) ->
  name ∈ PROTECTED_METADATA_PATH_NAMES /\ join_descendant_ok root name = Some protected
  /\ uri_starts_with p protected = true.
Proof.
  unfold protected_under. intros (n & Hn & H)%find_map_Some.
  destruct (join_descendant_ok root n) as [q|] eqn:E; [|done]. destruct (uri_starts_with p q) eqn:Esw; [|done].
  by simplify_eq.
Qed.

Lemma writable_elem self ctx r a :
  (r, a) ∈ List.filter (fun e => can_write e.2) (resolved_entries self ctx) <->
  (r, a) ∈ resolved_entries self ctx /\ a = Write.
Proof.
  rewrite list_elem_of_In, filter_In, <- list_elem_of_In. simpl. destruct a; naive_solver.
Qed.

(** Workspace metadata stays protected: outside full-disk access, a path in the
    [.git], [.agents], [.codex] or [.aws] directory of a writable root is never
    writable unless some write entry containing the path lies inside such a
    directory; and a path in no such directory is writable exactly when the
    evaluator says so. *)
Theorem metadata_stays_protected self ctx p :
  kind self = Restricted -> has_full_disk_write_access_with_context self ctx = false ->
  (forall protected name, in_metadata self ctx p protected name ->
     (forall protected' name' w, in_metadata self ctx p protected' name' ->
        (w, Write) ∈ resolved_entries self ctx -> uri_starts_with p w = true ->
        uri_starts_with w protected' = false) ->
     can_write_path self p ctx = false)
  /\ ((forall protected name, ~ in_metadata self ctx p protected name) ->
     can_write_path self p ctx = can_write (resolve_access self p ctx)).
Proof.
  intros Hk Hfull. unfold can_write_path. rewrite Hfull. unfold metadata_write_denial. rewrite Hk. simpl. split.
  - intros protected name (root & Hroot & Hname & Hj & Hsw) Hno. destruct (can_write _); [simpl|done].
    destruct (find_map _ _) as [[q n]|] eqn:E.
    + apply find_map_Some in E as ([r a] & Hr%writable_elem & Hp). destruct Hr as [Hr ->]. simpl in Hp.
      destruct (protected_under_Some _ _ _ _ Hp) as (H1 & H2 & H3).
      destruct (existsb _ _) eqn:Ex; [|done]. exfalso.
      apply existsb_exists in Ex as ([w b] & Hw%list_elem_of_In & H). rewrite !andb_true_iff in H. simpl in H.
      destruct H as [[Hb Hpw] Hwq]. destruct b; try done.
      rewrite (Hno q n w) in Hwq; try done. by exists r.
    + exfalso. pose proof (proj1 (find_map_None _ _) E (root, Write)) as Hn. simpl in Hn.
      specialize (Hn (proj2 (writable_elem self ctx root Write) (conj Hroot eq_refl))).
      unfold protected_under in Hn. pose proof (proj1 (find_map_None _ _) Hn name Hname) as Hn'. simpl in Hn'.
      by rewrite Hj, Hsw in Hn'.
  - intros Hno. destruct (can_write _); [simpl|done].
    destruct (find_map _ _) as [[q n]|] eqn:E; [|done]. exfalso.
    apply find_map_Some in E as ([r a] & Hr%writable_elem & Hp). destruct Hr as [Hr ->]. simpl in Hp.
    destruct (protected_under_Some _ _ _ _ Hp) as (H1 & H2 & H3). apply (Hno q n). by exists r.
Qed.

(** ** The read-deny matcher *)

Lemma build_matchers_closed c ps :
  exists ms invalid, build_matchers FailClosed c ps = Ok (ms, invalid)
    /\ (invalid = true <-> exists pat e, pat ∈ ps /\ build_glob_matcher pat c = Err e)
    /\ (forall m, m ∈ ms <-> exists pat, pat ∈ ps /\ build_glob_matcher pat c = Ok m).
Proof.
  induction ps as [|pat ps (ms & inv & IH & Hinv & Hms)]; simpl.
  { exists [], false. split_and!; [done|split; [done|]|]; [by intros (? & ? & ?%elem_of_nil & _)|].
    intros m. rewrite elem_of_nil. split; [done|]. by intros (? & ?%elem_of_nil & _). }
  rewrite IH. destruct (build_glob_matcher pat c) as [m|e] eqn:E; simpl.
  - exists (m :: ms), inv. split_and!; [done| |].
    + rewrite Hinv. setoid_rewrite elem_of_cons. split; [naive_solver|].
      intros (q & e & [->|Hq] & He); [congruence|]. by exists q, e.
    + intros m'. rewrite elem_of_cons, Hms. setoid_rewrite elem_of_cons. split.
      * intros [->|(q & Hq & Hm)]; [exists pat; auto|exists q; auto].
      * intros (q & [->|Hq] & Hm); [left; congruence|right; by exists q].
  - exists ms, true. split_and!; [done| |].
    + split; [intros _|done]. exists pat, e. split; [left|done].
    + intros m'. rewrite Hms. setoid_rewrite elem_of_cons. split; [naive_solver|].
      intros (q & [->|Hq] & Hm); [congruence|]. by exists q.
Qed.

(** What the bytes of a path are for glob matching. *)
Definition candidate_bytes (c : PathConvention) (p : Url) : list N :=
  match c with
  | Posix => decoded_path_bytes p
  | Windows => as_bytes (replace_char backslash slash (native_string p))
  end.


(** ** Keeping denials *)

Lemma entry_eqb_refl e : entry_eqb e e = true.
Proof.
  unfold entry_eqb, access_eqb. rewrite Nat.eqb_refl, bool_decide_eq_true_2 by done. rewrite !andb_true_r.
  destruct (entry_path e) as [u|g|v]; simpl; [by apply path_uri_eqb_hash|apply str_eqb_refl|].
  destruct v as [| |[]| | |? []]; simpl; try done; rewrite ?str_eqb_refl; done.
Qed.

Lemma push_missing_contains es e : contains_entry (push_missing es e) e = true.
Proof.
  unfold push_missing. destruct (contains_entry es e) eqn:E; [done|]. unfold contains_entry.
  rewrite existsb_app. simpl. by rewrite entry_eqb_refl, orb_true_r.
Qed.
Lemma push_missing_prefix es e : es `prefix_of` push_missing es e.
Proof. unfold push_missing. case_match; [done|by apply prefix_app_r]. Qed.
Lemma push_all_prefix ds es : es `prefix_of` foldl push_missing es ds.
Proof.
  revert es. induction ds as [|d ds IH]; intros es; simpl; [done|].
  etransitivity; [apply push_missing_prefix|apply IH].
Qed.
Lemma push_all_sub ds es x : x ∈ foldl push_missing es ds -> x ∈ es \/ x ∈ ds.
Proof.
  revert es. induction ds as [|d ds IH]; intros es; simpl; [by left|]. intros [H|H]%IH; [|right; by right].
  unfold push_missing in H. case_match; [by left|]. apply elem_of_app in H as [H| ->%list_elem_of_singleton];
    [by left|right; left].
Qed.
Lemma push_all_contains ds es d : d ∈ ds -> contains_entry (foldl push_missing es ds) d = true.
Proof.
  revert es. induction ds as [|x ds IH]; intros es; simpl; [by intros ?%elem_of_nil|].
  intros [->|H]%elem_of_cons; [|by apply IH].
  destruct (push_all_prefix ds (push_missing es x)) as [t ->]. unfold contains_entry. rewrite existsb_app.
  fold (contains_entry (push_missing es x) x). by rewrite push_missing_contains.
Qed.

(** Replacing the allow side of a policy keeps every denial: the result, unless
    an external sandbox enforces it, is restricted and contains every deny entry
    of the old policy, adds nothing else, and keeps the new entries; an
    unrestricted policy becomes write access to the root. *)
Theorem preserve_keeps_denials self existing :
  let result := preserve_deny_read_restrictions_from self existing in
  (kind self <> ExternalSandbox ->
     forall d, d ∈ entries existing -> access d = Deny ->
       kind result = Restricted /\ contains_entry (entries result) d = true)
  /\ (kind self = ExternalSandbox -> result = self)
  /\ (kind self = Restricted -> entries self `prefix_of` entries result)
  /\ (forall e, e ∈ entries result ->
         e ∈ entries self \/ e = new_entry (Special Root) Write \/ e ∈ entries existing /\ access e = Deny).
Proof.
  cbv zeta. unfold preserve_deny_read_restrictions_from.
  set (denies := List.filter _ (entries existing)).
  assert (Hden : forall d, d ∈ denies <-> d ∈ entries existing /\ access d = Deny).
  { intros d. unfold denies. rewrite list_elem_of_In, filter_In, <- list_elem_of_In.
    destruct (access d); simpl; naive_solver. }
  destruct (kind self) eqn:Hk.
  - rewrite Hk. simpl. split_and!; [|done|intros _; apply push_all_prefix|].
    + intros _ d Hd1 Hd2. split; [done|]. apply push_all_contains. by apply Hden.
    + intros e [?|H%Hden]%push_all_sub; auto.
  - destruct (is_empty denies) eqn:Ee; simpl.
    + rewrite Hk. simpl. split_and!; [|done|done|auto]. intros _ d Hd1 Hd2.
      assert (H : d ∈ denies) by by apply Hden. destruct denies; [by apply elem_of_nil in H|done].
    + split_and!; [|done|done|].
      * intros _ d Hd1 Hd2. split; [done|]. apply push_all_contains. by apply Hden.
      * intros e [->%list_elem_of_singleton|H%Hden]%push_all_sub; auto.
  - rewrite Hk. simpl. split_and!; [done|done|done|auto].
Qed.

End PermissionLaws.
