(* ===== verification/PermissionTransforms.v ===== *)
(** * PermissionTransforms: combining permission profiles

    [sandboxing/src/policy_transforms.rs] with the profile types of
    [protocol/src/models.rs]: normalizing and materializing requested
    permissions, merging grants, intersecting what was granted with what was
    requested, and the effective policy of a command. *)

From S2P Require Import Prelude RustStr PathUri PathLaws PathJoin PathTheorems.
From S2P Require Import NativePath Permissions PermissionLaws.
From Stdlib Require Import ZifyBool.

Section Transforms.
Context {UL : UrlLib} {GL : GlobLib}.

(** ** Profiles (models.rs) *)

Record NetworkPermissions := mkNet { enabled : option bool }.
Record FileSystemPermissions := mkFs {
  fs_entries : list FileSystemSandboxEntry;
  fs_glob_scan_max_depth : option N;   (** [Option<NonZeroUsize>] *)
}.
Record AdditionalPermissionProfile := mkProfile {
  network : option NetworkPermissions;
  file_system : option FileSystemPermissions;
}.

Definition network_is_empty (n : NetworkPermissions) : bool :=
  match enabled n with None => true | Some _ => false end.
Definition fs_is_empty (f : FileSystemPermissions) : bool := is_empty (fs_entries f).
Definition profile_is_empty (p : AdditionalPermissionProfile) : bool :=
  match network p, file_system p with None, None => true | _, _ => false end.

Inductive SandboxEnforcement := Managed | Disabled | External.
Inductive ManagedFileSystemPermissions :=
| ManagedRestricted (es : list FileSystemSandboxEntry) (depth : option N)
| ManagedUnrestricted.
Inductive PermissionProfile :=
| ProfileManaged (fs : ManagedFileSystemPermissions) (net : NetworkSandboxPolicy)
| ProfileDisabled
| ProfileExternal (net : NetworkSandboxPolicy).

(** [Option<usize>::and_then(NonZeroUsize::new)] *)
Definition non_zero (d : option N) : option N :=
  match d with Some 0%N => None | _ => d end.
(** [Option::filter] *)
Definition keep_if {A} (f : A -> bool) (o : option A) : option A :=
  match o with Some a => if f a then Some a else None | None => None end.

Definition to_sandbox_policy (m : ManagedFileSystemPermissions) : FileSystemSandboxPolicy :=
  match m with
  | ManagedRestricted es depth => mkPolicy Restricted depth es
  | ManagedUnrestricted => unrestricted
  end.
Definition file_system_sandbox_policy (p : PermissionProfile) : FileSystemSandboxPolicy :=
  match p with
  | ProfileManaged fs _ => to_sandbox_policy fs
  | ProfileDisabled => unrestricted
  | ProfileExternal _ => external_sandbox
  end.
Definition network_sandbox_policy (p : PermissionProfile) : NetworkSandboxPolicy :=
  match p with ProfileManaged _ n | ProfileExternal n => n | ProfileDisabled => NetEnabled end.
Definition to_runtime_permissions (p : PermissionProfile)
    : FileSystemSandboxPolicy * NetworkSandboxPolicy :=
  (file_system_sandbox_policy p, network_sandbox_policy p).
Definition enforcement (p : PermissionProfile) : SandboxEnforcement :=
  match p with
  | ProfileManaged _ _ => Managed
  | ProfileDisabled => Disabled
  | ProfileExternal _ => External
  end.

(** [ManagedFileSystemPermissions::from_sandbox_policy]; its caller excludes the
    unreachable external kind. *)
Definition from_runtime_permissions_with_enforcement (enf : SandboxEnforcement)
    (policy : FileSystemSandboxPolicy) (net : NetworkSandboxPolicy) : PermissionProfile :=
  match kind policy, enf with
  | ExternalSandbox, _ => ProfileExternal net
  | Unrestricted, Disabled => ProfileDisabled
  | Unrestricted, _ => ProfileManaged ManagedUnrestricted net
  | Restricted, _ =>
      ProfileManaged (ManagedRestricted (entries policy) (non_zero (glob_scan_max_depth policy))) net
  end.

(** ** Resolving entries against a context *)

Definition is_deny (e : FileSystemSandboxEntry) : bool := access_eqb (access e) Deny.
Definition is_glob (p : FileSystemPath) : bool := match p with GlobPattern _ => true | _ => false end.
Definition is_root_entry (e : FileSystemSandboxEntry) : bool := is_root_path (entry_path e).

Definition resolve_permission_path (p : FileSystemPath) (ctx : FileSystemSandboxPolicyContext)
    : option Url :=
  match p with
  | Path u => Some u
  | GlobPattern _ => None
  | Special Root => file_system_root ctx
  | Special (ProjectRoots subpath) =>
      match workspace_roots ctx with
      | [] => None
      | root :: _ => match subpath with Some s => join_ok root s | None => Some root end
      end
  | Special Tmpdir => temporary_directories ctx ≫= head
  | Special SlashTmp =>
      if convention_opt_eqb (infer_path_convention (cwd ctx)) (Some Posix)
      then join_ok (cwd ctx) (lit "/tmp") else None
  | Special Minimal | Special (Unknown _ _) => None
  end.

Definition materialized_path_entry (e : FileSystemSandboxEntry) (u : Url) : FileSystemSandboxEntry :=
  mkEntry (Path u) (access e) (missing_path_behavior e).

Definition materialize_cwd_dependent_entry (e : FileSystemSandboxEntry)
    (ctx : FileSystemSandboxPolicyContext) : option FileSystemSandboxEntry :=
  match entry_path e with
  | GlobPattern pattern =>
      let is_windows := convention_opt_eqb (infer_path_convention (cwd ctx)) (Some Windows) in
      let home_relative :=
        match strip_prefix (lit "~/") pattern with
        | Some suffix => Some suffix
        | None =>
            if str_eqb pattern (lit "~") then Some []
            else if is_windows then strip_prefix (lit "~\") pattern else None
        end in
      '(root, pattern) ←
        match home_relative with
        | Some suffix =>
            home ← user_home_dir ctx;
            Some (home, trim_start_matches
                          (fun c => (c =? slash)%N || is_windows && (c =? backslash)%N) suffix)
        | None => Some (cwd ctx, pattern)
        end;
      u ← join_ok root pattern;
      Some (mkEntry (GlobPattern (native_string u)) (access e) (missing_path_behavior e))
  | Path _ | Special _ => Some e
  end.

(** The loop over the workspace roots of one entry. *)
Fixpoint materialize_workspace_roots (e : FileSystemSandboxEntry)
    (ctx : FileSystemSandboxPolicyContext) (roots : list Url) : option (list FileSystemSandboxEntry) :=
  match roots with
  | [] => Some []
  | root :: roots =>
      let root_context := mkContext (cwd ctx) [root] (user_home_dir ctx) (temporary_directories ctx) in
      match resolve_permission_path (entry_path e) root_context with
      | None => if is_deny e then None else materialize_workspace_roots e ctx roots
      | Some u => cons (materialized_path_entry e u) <$> materialize_workspace_roots e ctx roots
      end
  end.

Definition materialize_entry (e : FileSystemSandboxEntry) (ctx : FileSystemSandboxPolicyContext)
    : option (list FileSystemSandboxEntry) :=
  match entry_path e with
  | Special (ProjectRoots _) =>
      resolved ← materialize_workspace_roots e ctx (workspace_roots ctx);
      if is_deny e && is_empty resolved then None else Some resolved
  | Special Tmpdir =>
      match temporary_directories ctx with
      | None => if is_deny e then None else Some [e]
      | Some dirs => Some (materialized_path_entry e <$> dirs)
      end
  | Special Root =>
      match resolve_permission_path (entry_path e) ctx with Some _ => Some [e] | None => None end
  | _ =>
      match materialize_cwd_dependent_entry e ctx with
      | None => if is_deny e then None else Some []
      | Some e => Some [e]
      end
  end.

Fixpoint materialize_context_dependent_entries (es : list FileSystemSandboxEntry)
    (ctx : FileSystemSandboxPolicyContext) : option (list FileSystemSandboxEntry) :=
  match es with
  | [] => Some []
  | e :: es =>
      here ← materialize_entry e ctx;
      rest ← materialize_context_dependent_entries es ctx;
      Some (here ++ rest)
  end.

(** ** Normalizing *)

Inductive NormalizeError :=
| GlobOnlyDeny                             (** "glob file system permissions only support deny-read entries" *)
| PathMismatch (path cwd : str)            (** "permission path … does not match executor cwd …" *)
| UnresolvedPath (cwd : str).              (** "unable to resolve permission path in …" *)

Fixpoint normalize_entries (kept es : list FileSystemSandboxEntry)
    : result NormalizeError (list FileSystemSandboxEntry) :=
  match es with
  | [] => Ok kept
  | e :: es =>
      if is_glob (entry_path e) && negb (is_deny e) then Err GlobOnlyDeny
      else normalize_entries (push_missing kept e) es
  end.

Definition normalize_additional_permissions (p : AdditionalPermissionProfile)
    : result NormalizeError AdditionalPermissionProfile :=
  let net := keep_if (fun n => negb (network_is_empty n)) (network p) in
  fs ← match file_system p with
       | Some fs =>
           es ← normalize_entries [] (fs_entries fs);
           Ok (keep_if (fun f => negb (fs_is_empty f)) (Some (mkFs es (fs_glob_scan_max_depth fs))))
       | None => Ok None
       end;
  Ok (mkProfile net fs).

Definition entry_matches_cwd (ctx : FileSystemSandboxPolicyContext) (e : FileSystemSandboxEntry)
    : result NormalizeError unit :=
  match entry_path e with
  | Path u =>
      if negb (bool_decide (is_Some (infer_path_convention u)))
         || negb (convention_opt_eqb (infer_path_convention u) (infer_path_convention (cwd ctx)))
         || negb (bool_decide (is_Some (join_ok u (lit "."))))
      then Err (PathMismatch (as_str u) (as_str (cwd ctx))) else Ok tt
  | _ => Ok tt
  end.

Definition normalize_additional_permissions_with_context (p : AdditionalPermissionProfile)
    (ctx : FileSystemSandboxPolicyContext) : result NormalizeError AdditionalPermissionProfile :=
  normalized ← normalize_additional_permissions p;
  match file_system normalized with
  | Some fs => _ ← try_map (entry_matches_cwd ctx) (fs_entries fs); Ok normalized
  | None => Ok normalized
  end.

Definition materialize_additional_permissions_with_context (p : AdditionalPermissionProfile)
    (ctx : FileSystemSandboxPolicyContext) : result NormalizeError AdditionalPermissionProfile :=
  p ← match file_system p with
      | Some fs =>
          es ← ok_or (materialize_context_dependent_entries (fs_entries fs) ctx)
                 (UnresolvedPath (as_str (cwd ctx)));
          Ok (mkProfile (network p) (Some (mkFs es (fs_glob_scan_max_depth fs))))
      | None => Ok p
      end;
  normalize_additional_permissions_with_context p ctx.

(** ** Merging *)

Inductive GlobScanDepth := Bounded (n : N) | Unbounded.

Definition effective_glob_scan_depth (es : list FileSystemSandboxEntry) (depth : option N)
    : option GlobScanDepth :=
  if existsb (fun e => is_deny e && is_glob (entry_path e)) es
  then Some (match depth with Some d => Bounded d | None => Unbounded end)
  else None.

Definition merge_glob_scan_max_depth (left_entries : list FileSystemSandboxEntry) (left_depth : option N)
    (right_entries : list FileSystemSandboxEntry) (right_depth : option N) : option N :=
  match effective_glob_scan_depth left_entries left_depth,
        effective_glob_scan_depth right_entries right_depth with
  | Some Unbounded, _ | _, Some Unbounded => None
  | Some (Bounded l), Some (Bounded r) => Some (N.max l r)
  | Some (Bounded d), None | None, Some (Bounded d) => Some d
  | None, None => None
  end.

Definition merge_permission_entries (base permissions : list FileSystemSandboxEntry)
    : list FileSystemSandboxEntry :=
  foldl push_missing [] (base ++ permissions).

Definition network_on (n : option NetworkPermissions) : bool :=
  match n with Some (mkNet (Some true)) => true | _ => false end.

Definition merge_permission_profiles (base permissions : option AdditionalPermissionProfile)
    : option AdditionalPermissionProfile :=
  match permissions with
  | None => base
  | Some permissions =>
      match base with
      | Some base =>
          let net := if network_on (network base) || network_on (network permissions)
                     then Some (mkNet (Some true)) else None in
          let fs :=
            match file_system base, file_system permissions with
            | Some b, Some p =>
                keep_if (fun f => negb (fs_is_empty f))
                  (Some (mkFs (merge_permission_entries (fs_entries b) (fs_entries p))
                          (non_zero (merge_glob_scan_max_depth (fs_entries b) (fs_glob_scan_max_depth b)
                                       (fs_entries p) (fs_glob_scan_max_depth p)))))
            | Some b, None => Some b
            | None, Some p => Some p
            | None, None => None
            end in
          keep_if (fun p => negb (profile_is_empty p)) (Some (mkProfile net fs))
      | None => keep_if (fun p => negb (profile_is_empty p)) (Some permissions)
      end
  end.

(** ** Intersecting *)

Definition access_covers (requested granted : FileSystemAccessMode) : bool :=
  match granted with
  | Read => can_read requested
  | Write => can_write requested
  | Deny => false
  end.

Definition paths_overlap (l r : Url) : bool :=
  match overlaps l r with Some b => b | None => true end.

Definition is_wildcard (c : N) : bool := existsb (N.eqb c) (lit "*?[]").
(** [pattern.find(['*', '?', '[', ']'])] with the text before it *)
Fixpoint before_wildcard (pattern : str) : option str :=
  match pattern with
  | [] => None
  | c :: s => if is_wildcard c then Some [] else cons c <$> before_wildcard s
  end.

Definition glob_static_prefix_path (pattern : str) (ctx : FileSystemSandboxPolicyContext) : option Url :=
  let is_windows := convention_opt_eqb (infer_path_convention (cwd ctx)) (Some Windows) in
  '(prefix, wildcard_in_segment) ←
    match before_wildcard pattern with
    | Some [] => None
    | Some prefix =>
        Some (prefix, negb (ends_with [slash] prefix || is_windows && ends_with [backslash] prefix))
    | None => Some (pattern, false)
    end;
  prefix ← join_ok (cwd ctx) prefix;
  if (wildcard_in_segment : bool) then parent prefix else Some prefix.

Definition grant_overlaps_deny (ctx : FileSystemSandboxPolicyContext)
    (deny e : FileSystemSandboxEntry) : bool :=
  if is_root_entry e then true
  else match resolve_permission_path (entry_path e) ctx with
       | None => true
       | Some grant_path =>
           match entry_path deny with
           | GlobPattern pattern =>
               match glob_static_prefix_path pattern ctx with
               | None => true
               | Some prefix => paths_overlap prefix grant_path
               end
           | _ =>
               match resolve_permission_path (entry_path deny) ctx with
               | None => true
               | Some deny_path => paths_overlap deny_path grant_path
               end
           end
       end.

Definition deny_entry_constrains_accepted_grant (deny : FileSystemSandboxEntry)
    (accepted : list FileSystemSandboxEntry) (ctx : FileSystemSandboxPolicyContext) : bool :=
  existsb (fun e => can_read (access e) && grant_overlaps_deny ctx deny e) accepted.

(** [retain_constraining_deny_entries]: the entries retained; the output vector is
    the accepted entries with each retained entry pushed once. *)
Definition retain_constraining_deny_entries (source accepted : list FileSystemSandboxEntry)
    (ctx : FileSystemSandboxPolicyContext) (output : list FileSystemSandboxEntry)
    : list FileSystemSandboxEntry * list FileSystemSandboxEntry :=
  let retained :=
    List.filter (fun e => deny_entry_constrains_accepted_grant e accepted ctx)
      (List.filter is_deny source) in
  (retained, foldl push_missing output retained).

Definition granted_file_system_entry_within_request (requested : FileSystemPermissions)
    (requested_policy : FileSystemSandboxPolicy) (matcher : option PreparedReadDenyMatcher)
    (granted_entry : FileSystemSandboxEntry) (ctx : FileSystemSandboxPolicyContext) : bool :=
  let cwd_convention := infer_path_convention (cwd ctx) in
  if negb (can_read (access granted_entry))
     || match entry_path granted_entry with
        | Special SlashTmp => negb (convention_opt_eqb cwd_convention (Some Posix))
        | _ => false
        end
  then false
  else if convention_opt_eqb cwd_convention (Some Windows) && is_root_entry granted_entry
          && negb (existsb (fun r => is_root_entry r && access_covers (access r) (access granted_entry))
                     (fs_entries requested))
  then false
  else match resolve_permission_path (entry_path granted_entry) ctx with
       | Some p =>
           if negb (convention_opt_eqb (infer_path_convention p) cwd_convention)
              || match matcher with Some m => is_read_denied_uri m p ctx | None => false end
           then false
           else access_covers (resolve_access requested_policy p ctx) (access granted_entry)
       | None =>
           existsb (fun r => access_covers (access r) (access granted_entry)
                             && path_eqb (entry_path r) (entry_path granted_entry))
             (fs_entries requested)
       end.

Definition intersect_file_systems (requested granted : FileSystemPermissions)
    (ctx : FileSystemSandboxPolicyContext) : option FileSystemPermissions :=
  requested_entries ← materialize_context_dependent_entries (fs_entries requested) ctx;
  granted_entries ← materialize_context_dependent_entries (fs_entries granted) ctx;
  let requested_policy := restricted requested_entries in
  let matcher := from_context requested_policy ctx in
  let accepted :=
    foldl push_missing []
      (List.filter (fun e => granted_file_system_entry_within_request requested requested_policy matcher e ctx)
         granted_entries) in
  let '(requested_retained, output) := retain_constraining_deny_entries requested_entries accepted ctx accepted in
  let '(granted_retained, output) := retain_constraining_deny_entries granted_entries accepted ctx output in
  Some (mkFs output
          (non_zero (merge_glob_scan_max_depth requested_retained (fs_glob_scan_max_depth requested)
                       granted_retained (fs_glob_scan_max_depth granted)))).

Definition intersect_permission_profiles_with_context (requested granted : AdditionalPermissionProfile)
    (ctx : FileSystemSandboxPolicyContext) : AdditionalPermissionProfile :=
  mkProfile
    (if network_on (network requested) && network_on (network granted)
     then Some (mkNet (Some true)) else None)
    (keep_if (fun f => negb (fs_is_empty f))
       (match file_system requested with
        | Some r => intersect_file_systems r (default (mkFs [] None) (file_system granted)) ctx
        | None => None
        end)).

(** ** The effective policy *)

Definition merge_file_system_policy_with_additional_permissions (policy : FileSystemSandboxPolicy)
    (additional : FileSystemPermissions) : FileSystemSandboxPolicy :=
  match kind policy with
  | Restricted =>
      mkPolicy Restricted
        (merge_glob_scan_max_depth (entries policy) (glob_scan_max_depth policy)
           (fs_entries additional) (fs_glob_scan_max_depth additional))
        (foldl push_missing (entries policy) (fs_entries additional))
  | Unrestricted | ExternalSandbox => policy
  end.

Definition effective_file_system_sandbox_policy (policy : FileSystemSandboxPolicy)
    (additional : option AdditionalPermissionProfile) : FileSystemSandboxPolicy :=
  match additional ≫= file_system with
  | None => policy
  | Some fs => if fs_is_empty fs then policy
               else merge_file_system_policy_with_additional_permissions policy fs
  end.

Definition merge_network_access (base : bool) (additional : AdditionalPermissionProfile) : bool :=
  base || default false (network additional ≫= enabled).

Definition effective_network_sandbox_policy (policy : NetworkSandboxPolicy)
    (additional : option AdditionalPermissionProfile) : NetworkSandboxPolicy :=
  match additional with
  | Some p => if merge_network_access (is_enabled policy) p then NetEnabled else NetRestricted
  | None => policy
  end.

Definition effective_permission_profile (p : PermissionProfile)
    (additional : option AdditionalPermissionProfile) : PermissionProfile :=
  let '(fs, net) := to_runtime_permissions p in
  from_runtime_permissions_with_enforcement (enforcement p)
    (effective_file_system_sandbox_policy fs additional)
    (effective_network_sandbox_policy net additional).

Definition should_require_platform_sandbox (native : PathConvention) (policy : FileSystemSandboxPolicy)
    (net : NetworkSandboxPolicy) (has_managed_network_requirements : bool) : bool :=
  if has_managed_network_requirements then true
  else if negb (is_enabled net) then
    match kind policy with ExternalSandbox => false | _ => true end
  else match kind policy with
       | Restricted => negb (has_full_disk_write_access_for_convention policy (Some native))
       | Unrestricted | ExternalSandbox => false
       end.

End Transforms.

Section TransformLaws.
Context {UL : UrlLib} {GL : GlobLib} {laws : UrlLaws UL}.

(** ** Materialized entries stand for one path *)

Definition single_path (ctx : FileSystemSandboxPolicyContext) (e : FileSystemSandboxEntry) : Prop :=
  forall r, r ∈ entry_paths ctx (entry_path e) -> resolve_permission_path (entry_path e) ctx = Some r.

Lemma single_materialized_path ctx e u : single_path ctx (materialized_path_entry e u).
Proof. intros r Hr. by apply list_elem_of_singleton in Hr as ->. Qed.

Lemma option_list_elem {A} (o : option A) x : x ∈ option_list o <-> o = Some x.
Proof.
  destruct o; simpl; [rewrite list_elem_of_singleton; naive_solver|rewrite elem_of_nil; naive_solver].
Qed.

Lemma single_static ctx e :
  match entry_path e with Special (ProjectRoots _) | Special Tmpdir => False | _ => True end ->
  single_path ctx e.
Proof.
  unfold single_path. destruct (entry_path e) as [u|g|[]]; try done; intros _ r; simpl.
  - by intros ->%list_elem_of_singleton.
  - by intros ?%elem_of_nil.
  - by intros ?%option_list_elem.
  - by intros ?%elem_of_nil.
  - case_match; [by intros ?%option_list_elem|by intros ?%elem_of_nil].
  - by intros ?%elem_of_nil.
Qed.

Lemma materialize_workspace_single e ctx roots es :
  materialize_workspace_roots e ctx roots = Some es -> Forall (single_path ctx) es.
Proof.
  revert es. induction roots as [|root roots IH]; intros es; simpl; [by intros [= <-]|].
  destruct (resolve_permission_path _ _) as [u|].
  - destruct (materialize_workspace_roots e ctx roots) as [rest|]; [|done]. intros [= <-].
    constructor; [apply single_materialized_path|by apply IH].
  - destruct (is_deny e); [done|]. apply IH.
Qed.

Lemma materialize_entry_single e ctx es : materialize_entry e ctx = Some es -> Forall (single_path ctx) es.
Proof.
  unfold materialize_entry, materialize_cwd_dependent_entry.
  destruct (entry_path e) as [u|g|v] eqn:Ep.
  - intros [= <-]. apply Forall_singleton, single_static. by rewrite Ep.
  - intros H. match type of H with match ?m with _ => _ end = _ => destruct m as [e'|] eqn:Em end.
    + simplify_eq. apply Forall_singleton, single_static.
      repeat (match type of Em with (?o ≫= _) = Some _ => destruct o as [[]|] eqn:?; [|done] end; simpl in Em).
      destruct (join_ok _ _); simplify_eq/=. done.
    + destruct (is_deny e); simplify_eq. constructor.
  - destruct v as [| |sub| | |q sub]; intros H.
    + destruct (resolve_permission_path _ _); simplify_eq. apply Forall_singleton, single_static. by rewrite Ep.
    + simplify_eq. apply Forall_singleton, single_static. by rewrite Ep.
    + destruct (materialize_workspace_roots e ctx _) as [l|] eqn:El; [|done]. simpl in H.
      destruct (_ && _); [done|]. simplify_eq. by eapply materialize_workspace_single.
    + destruct (temporary_directories ctx) as [dirs|] eqn:Ed.
      * simplify_eq. apply Forall_fmap, Forall_forall. intros u _. apply single_materialized_path.
      * destruct (is_deny e); simplify_eq. apply Forall_singleton. intros r Hr. rewrite Ep in Hr. simpl in Hr.
        rewrite Ed in Hr. by apply elem_of_nil in Hr.
    + simplify_eq. apply Forall_singleton, single_static. by rewrite Ep.
    + simplify_eq. apply Forall_singleton, single_static. by rewrite Ep.
Qed.

Lemma materialize_single es ctx ms :
  materialize_context_dependent_entries es ctx = Some ms -> Forall (single_path ctx) ms.
Proof.
  revert ms. induction es as [|e es IH]; intros ms; simpl; [by intros [= <-]|].
  destruct (materialize_entry e ctx) as [here|] eqn:E; [|done]. simpl.
  destruct (materialize_context_dependent_entries es ctx) as [rest|]; [|done]. simpl. intros [= <-].
  apply Forall_app. split; [by eapply materialize_entry_single|by apply IH].
Qed.

(** ** Overlap *)

Lemma overlap_comparable a b :
  is_Some (lexical_depth a) -> is_Some (lexical_depth b) ->
  uri_starts_with a b = true \/ uri_starts_with b a = true -> paths_overlap a b = true.
Proof.
  intros [n Hn] [m Hm] H. unfold paths_overlap, overlaps. rewrite Hn, Hm. destruct (path_uri_eqb a b); [done|].
  destruct H as [->| ->]; [done|apply orb_true_r].
Qed.

(** The deny entry of a root that overlaps an accepted grant is retained. *)
Lemma deny_retained ctx accepted deny e r q :
  e ∈ accepted -> can_read (access e) = true -> single_path ctx e -> single_path ctx deny ->
  r ∈ entry_paths ctx (entry_path e) -> q ∈ entry_paths ctx (entry_path deny) ->
  paths_overlap q r = true -> deny_entry_constrains_accepted_grant deny accepted ctx = true.
Proof.
  intros He Hread Hse Hsd Hr Hq Hov. apply existsb_exists. exists e. split; [by apply list_elem_of_In|].
  rewrite Hread. simpl. unfold grant_overlaps_deny. destruct (is_root_entry e); [done|].
  rewrite (Hse r Hr). pose proof (Hsd q Hq) as Hd.
  destruct (entry_path deny) as [u|g|v]; [by rewrite Hd|by apply elem_of_nil in Hq|by rewrite Hd].
Qed.

(** An entry equal to another resolves to roots that cover the same paths. *)
Lemma equal_entry_covers ctx c p d x q :
  regular p -> regular q -> infer_path_convention p = Some c ->
  entry_eqb d x = true -> q ∈ entry_paths ctx (entry_path d) -> uri_starts_with p q = true ->
  (forall r, r ∈ entry_paths ctx (entry_path x) -> infer_path_convention r = Some c -> regular r) ->
  infer_path_convention q = Some c ->
  access x = access d /\ exists r, r ∈ entry_paths ctx (entry_path x) /\ infer_path_convention r = Some c
    /\ uri_starts_with p r = true /\ lexical_depth r = lexical_depth q.
Proof.
  intros Hp Hq Hc He Hin Hsw Hreg Hqc. unfold entry_eqb in He. rewrite !andb_true_iff in He.
  destruct He as [[Hpath Hacc] _]. split.
  { apply Nat.eqb_eq in Hacc. by destruct (access d), (access x). }
  destruct (entry_path d) as [u|g|v], (entry_path x) as [w|g'|v']; simpl in Hpath; try done.
  - apply list_elem_of_singleton in Hin as ->. exists w.
    destruct (path_uri_eqb_names u w Hpath) as (_ & Hi & _); [by eexists|].
    assert (Hwc : infer_path_convention w = Some c) by congruence.
    assert (Hw : regular w) by (apply Hreg; [left|done]).
    destruct (same_target_covers p u w c) as [H1 H2]; try done.
    { apply path_uri_eqb_hash. symmetry. by apply path_uri_eqb_hash. }
    split_and!; [left|done|done|done].
  - by apply elem_of_nil in Hin.
  - apply special_eqb_eq in Hpath as ->. by exists q.
Qed.

(** ** The intersection *)

Lemma prefix_contains l k e : l `prefix_of` k -> contains_entry l e = true -> contains_entry k e = true.
Proof. intros [x ->]. unfold contains_entry. rewrite existsb_app. by intros ->. Qed.

(** What [intersect_file_systems] returns: accepted grants of the granted entries,
    and every denial of either side that constrains one of them. *)
Record intersection (requested : FileSystemPermissions) (ctx : FileSystemSandboxPolicyContext)
    (req gra accepted out : list FileSystemSandboxEntry) : Prop := {
  int_accepted e : e ∈ accepted ->
    e ∈ gra /\ granted_file_system_entry_within_request requested (restricted req)
                 (from_context (restricted req) ctx) e ctx = true;
  int_out e : e ∈ out -> e ∈ accepted \/ access e = Deny /\ (e ∈ req \/ e ∈ gra);
  int_keep e : e ∈ accepted -> e ∈ out;
  int_deny e : access e = Deny -> e ∈ req \/ e ∈ gra ->
    deny_entry_constrains_accepted_grant e accepted ctx = true -> contains_entry out e = true;
}.

Lemma is_deny_spec e : is_deny e = true <-> access e = Deny.
Proof. unfold is_deny, access_eqb. by destruct (access e). Qed.

Lemma retained_elem source accepted ctx e :
  e ∈ List.filter (fun e => deny_entry_constrains_accepted_grant e accepted ctx) (List.filter is_deny source)
  <-> e ∈ source /\ access e = Deny /\ deny_entry_constrains_accepted_grant e accepted ctx = true.
Proof. rewrite list_elem_of_In, !filter_In, <- list_elem_of_In, is_deny_spec. tauto. Qed.

Lemma intersect_shape requested granted ctx f :
  intersect_file_systems requested granted ctx = Some f ->
  exists req gra accepted,
    materialize_context_dependent_entries (fs_entries requested) ctx = Some req
    /\ materialize_context_dependent_entries (fs_entries granted) ctx = Some gra
    /\ intersection requested ctx req gra accepted (fs_entries f).
Proof.
  unfold intersect_file_systems.
  destruct (materialize_context_dependent_entries (fs_entries requested) ctx) as [req|]; [|done].
  destruct (materialize_context_dependent_entries (fs_entries granted) ctx) as [gra|]; [|done].
  simpl. intros [= <-]. simpl. set (within := List.filter _ gra).
  set (accepted := foldl push_missing [] within). exists req, gra, accepted. split_and!; [done..|].
  set (r1 := List.filter _ (List.filter is_deny req)). set (r2 := List.filter _ (List.filter is_deny gra)).
  assert (Hp1 : accepted `prefix_of` foldl push_missing accepted r1) by apply push_all_prefix.
  assert (Hp2 : foldl push_missing accepted r1 `prefix_of` foldl push_missing (foldl push_missing accepted r1) r2)
    by apply push_all_prefix.
  split.
  - intros e [?%elem_of_nil|H]%push_all_sub; [done|]. unfold within in H.
    by rewrite list_elem_of_In, filter_In, <- list_elem_of_In in H.
  - intros e [[H|H]%push_all_sub|H]%push_all_sub; [by left|..]; unfold r1, r2 in H;
      apply retained_elem in H as (H1 & H2 & _); auto.
  - intros e He. destruct Hp1 as [x1 H1], Hp2 as [x2 H2]. rewrite H2, H1. apply elem_of_app; left.
    apply elem_of_app; by left.
  - intros e Hd Hin Hc. destruct Hin as [Hin|Hin].
    + apply (prefix_contains _ _ _ Hp2), push_all_contains. by apply retained_elem.
    + apply push_all_contains. by apply retained_elem.
Qed.

Section Intersection.
Context (ctx : FileSystemSandboxPolicyContext) (c : PathConvention).
Context (requested : FileSystemPermissions) (req gra accepted out : list FileSystemSandboxEntry).
Hypothesis context_ok : good_context ctx c.
Hypothesis req_ok : good_roots (restricted req) ctx.
Hypothesis gra_ok : good_roots (restricted gra) ctx.
Hypothesis req_single : Forall (single_path ctx) req.
Hypothesis gra_single : Forall (single_path ctx) gra.
Hypothesis int : intersection requested ctx req gra accepted out.

Lemma out_sub e : e ∈ out -> e ∈ req \/ e ∈ gra.
Proof. intros [H|[_ H]]%(int_out _ _ _ _ _ _ int); [right; by apply (int_accepted _ _ _ _ _ _ int)|done]. Qed.

Lemma resolved_of es e r :
  e ∈ es -> r ∈ entry_paths ctx (entry_path e) -> infer_path_convention r = Some c ->
  (r, access e) ∈ resolved_entries (restricted es) ctx.
Proof.
  intros He Hr Hc. apply resolved_entries_elem. rewrite (gc_convention _ _ context_ok).
  split; [done|]. by exists e.
Qed.

Lemma out_ok : good_roots (restricted out) ctx.
Proof.
  intros r a (Hc & e & He & <- & Hr)%resolved_entries_elem. rewrite (gc_convention _ _ context_ok) in Hc.
  destruct (out_sub e He) as [H|H]; [eapply req_ok|eapply gra_ok]; by eapply resolved_of.
Qed.

(** A denial of either side at least as deep as the deciding accepted grant
    would decide instead. *)
Lemma retained_denial_decides p r a d q dq e :
  regular p -> infer_path_convention p = Some c ->
  covers (resolved_entries (restricted out) ctx) p r a d ->
  (forall r' a' d', covers (resolved_entries (restricted out) ctx) p r' a' d' ->
     d' < d \/ d' = d /\ access_rank a' <= access_rank a) ->
  a <> Deny -> e ∈ req \/ e ∈ gra -> access e = Deny -> q ∈ entry_paths ctx (entry_path e) ->
  infer_path_convention q = Some c -> lexical_depth q = Some dq -> uri_starts_with p q = true ->
  dq < d.
Proof.
  intros Hp Hpc (Hr & Hd & Hsw) Hmax Ha Hin Hden Hq Hqc Hdq Hqsw.
  assert (Hqr : regular q) by (destruct Hin; [eapply req_ok|eapply gra_ok]; by eapply resolved_of).
  pose proof (out_ok _ _ Hr) as Hrr.
  destruct (Nat.lt_ge_cases dq d) as [|Hle]; [done|]. exfalso.
  pose proof Hr as (Hrc & g & Hg & Hga & Hgr)%resolved_entries_elem. simpl in Hg.
  destruct (int_out _ _ _ _ _ _ int g Hg) as [Hacc|[Hgd _]]; [|congruence].
  assert (Hcomp : uri_starts_with q r = true).
  { apply (starts_with_comparable p r q); [done..|]. by rewrite Hd, Hdq. }
  assert (Hcon : deny_entry_constrains_accepted_grant e accepted ctx = true).
  { apply (deny_retained ctx accepted e g r q); [done|by destruct (access g); subst a| | |done|done|].
    - rewrite Forall_forall in gra_single. apply gra_single. by apply (int_accepted _ _ _ _ _ _ int).
    - rewrite Forall_forall in gra_single, req_single. destruct Hin; auto.
    - apply overlap_comparable; [by eexists|by eexists|by left]. }
  pose proof (int_deny _ _ _ _ _ _ int e Hden Hin Hcon) as Hx.
  apply existsb_exists in Hx as (x & Hx%list_elem_of_In & Heq).
  destruct (equal_entry_covers ctx c p e x q) as (Hxa & r3 & H3 & H3c & H3sw & H3d); try done.
  { intros r' Hr' Hc'. eapply out_ok. by eapply resolved_of. }
  assert (Hcov : covers (resolved_entries (restricted out) ctx) p r3 Deny dq).
  { split_and!; [|congruence|done]. rewrite <- Hden, <- Hxa. by eapply resolved_of. }
  specialize (Hmax _ _ _ Hcov). destruct Hmax as [|[_ Hrank]]; [lia|]. destruct a; simpl in Hrank; done || lia.
Qed.

Lemma eval es p :
  good_roots (restricted es) ctx -> regular p -> infer_path_convention p = Some c ->
  evaluable (restricted es) p ctx.
Proof. intros H Hp Hc. by apply (good_evaluable (restricted es) ctx c p). Qed.

Lemma intersection_within_grant p :
  regular p -> infer_path_convention p = Some c ->
  can_read (resolve_access (restricted out) p ctx) = true ->
  can_read (resolve_access (restricted gra) p ctx) = true.
Proof.
  intros Hp Hpc Hread.
  destruct (resolve_access_cases _ _ _ (eval out p out_ok Hp Hpc)) as [[E _]|(r & a & d & Hcov & Ea & Hmax)];
    [by rewrite E in Hread|]. rewrite Ea in Hread. assert (Ha : a <> Deny) by by intros ->.
  pose proof Hcov as (Hr & Hd & Hsw). pose proof Hr as (Hrc & g & Hg & Hga & Hgr)%resolved_entries_elem. simpl in Hg.
  rewrite (gc_convention _ _ context_ok) in Hrc.
  destruct (int_out _ _ _ _ _ _ int g Hg) as [Hacc|[Hgd _]]; [|congruence].
  assert (Hcg : covers (resolved_entries (restricted gra) ctx) p r a d).
  { split_and!; [|done|done]. rewrite <- Hga. eapply resolved_of; [by apply (int_accepted _ _ _ _ _ _ int)|done|done]. }
  destruct (resolve_access_cases _ _ _ (eval gra p gra_ok Hp Hpc)) as [[_ Hno]|(q & b & dq & Hq & Eb & Hqmax)];
    [by apply Hno in Hcg|]. rewrite Eb. destruct b; [done|done|]. exfalso.
  pose proof Hq as (Hqin & Hqd & Hqsw). pose proof Hqin as (Hqc & e & He & Hea & Heq)%resolved_entries_elem. simpl in He.
  rewrite (gc_convention _ _ context_ok) in Hqc.
  assert (dq < d) by (eapply (retained_denial_decides p r a d q dq e); eauto).
  specialize (Hqmax _ _ _ Hcg). lia.
Qed.

Lemma accepted_within_request g r :
  g ∈ accepted -> r ∈ entry_paths ctx (entry_path g) ->
  access_covers (resolve_access (restricted req) r ctx) (access g) = true.
Proof.
  intros Hg Hr. destruct (int_accepted _ _ _ _ _ _ int g Hg) as [Hgra Hw].
  assert (Hs : resolve_permission_path (entry_path g) ctx = Some r).
  { rewrite Forall_forall in gra_single. by apply gra_single. }
  unfold granted_file_system_entry_within_request in Hw. rewrite Hs in Hw.
  repeat match type of Hw with (if ?b then false else _) = true => destruct b; [done|] end. done.
Qed.

Lemma intersection_within_request p :
  regular p -> infer_path_convention p = Some c ->
  can_read (resolve_access (restricted out) p ctx) = true ->
  can_read (resolve_access (restricted req) p ctx) = true.
Proof.
  intros Hp Hpc Hread.
  destruct (resolve_access_cases _ _ _ (eval out p out_ok Hp Hpc)) as [[E _]|(r & a & d & Hcov & Ea & Hmax)];
    [by rewrite E in Hread|]. rewrite Ea in Hread. assert (Ha : a <> Deny) by by intros ->.
  pose proof Hcov as (Hr & Hd & Hsw). pose proof Hr as (Hrc & g & Hg & Hga & Hgr)%resolved_entries_elem. simpl in Hg.
  rewrite (gc_convention _ _ context_ok) in Hrc. pose proof (out_ok _ _ Hr) as Hrr.
  destruct (int_out _ _ _ _ _ _ int g Hg) as [Hacc|[Hgd _]]; [|congruence].
  pose proof (accepted_within_request g r Hacc Hgr) as Hcovers.
  destruct (resolve_access_cases _ _ _ (eval req r req_ok Hrr Hrc)) as [[E _]|(r' & a' & d' & Hr' & Ea' & Hmax')].
  { rewrite E in Hcovers. by destruct (access g). }
  assert (Ha' : a' <> Deny) by (intros ->; rewrite Ea' in Hcovers; by destruct (access g)).
  assert (Hcp : covers (resolved_entries (restricted req) ctx) p r' a' d').
  { destruct Hr' as (H1 & H2 & H3). split_and!; [done..|].
    by apply (starts_with_trans p r r'); [done|done|apply (req_ok _ _ H1)|..]. }
  destruct (resolve_access_cases _ _ _ (eval req p req_ok Hp Hpc)) as [[_ Hno]|(q & b & dq & Hq & Eb & Hqmax)];
    [by apply Hno in Hcp|]. rewrite Eb. destruct b; [done|done|]. exfalso.
  pose proof Hq as (Hqin & Hqd & Hqsw). pose proof Hqin as (Hqc & e & He & Hea & Heq)%resolved_entries_elem. simpl in He.
  rewrite (gc_convention _ _ context_ok) in Hqc.
  assert (dq < d) by (eapply (retained_denial_decides p r a d q dq e); eauto).
  assert (Hqr : covers (resolved_entries (restricted req) ctx) r q Deny dq).
  { split_and!; [done..|]. apply (starts_with_comparable p q r); [done|by apply (req_ok _ _ Hqin)|done..|].
    rewrite Hqd, Hd. simpl. lia. }
  specialize (Hmax' _ _ _ Hqr). specialize (Hqmax _ _ _ Hcp).
  destruct a'; simpl in *; [lia|lia|done].
Qed.

End Intersection.


(** ** Normalizing *)

(** No two entries of the list are equal. *)
Fixpoint distinct (es : list FileSystemSandboxEntry) : Prop :=
  match es with
  | [] => True
  | e :: es => Forall (fun x => entry_eqb x e = false) es /\ distinct es
  end.

Lemma distinct_snoc es e :
  distinct es -> contains_entry es e = false -> distinct (es ++ [e]).
Proof.
  induction es as [|x es IH]; simpl; [done|]. intros [Hx Hes] H. apply orb_false_iff in H as [H1 H2].
  split; [|by apply IH]. apply Forall_app. split; [done|]. by apply Forall_singleton.
Qed.
Lemma distinct_push es e : distinct es -> distinct (push_missing es e).
Proof. intros H. unfold push_missing. destruct (contains_entry es e) eqn:E; [done|by apply distinct_snoc]. Qed.

Definition bad_glob (e : FileSystemSandboxEntry) : bool := is_glob (entry_path e) && negb (is_deny e).

Lemma normalize_entries_spec kept es :
  normalize_entries kept es =
  if existsb bad_glob es then Err GlobOnlyDeny else Ok (foldl push_missing kept es).
Proof.
  revert kept. induction es as [|e es IH]; intros kept; simpl; [done|]. fold (bad_glob e).
  destruct (bad_glob e); [done|]. simpl. apply IH.
Qed.

Lemma foldl_distinct es kept : distinct kept -> distinct (foldl push_missing kept es).
Proof. revert kept. induction es as [|e es IH]; intros kept H; simpl; [done|]. apply IH. by apply distinct_push. Qed.

Lemma push_distinct_id kept es : distinct (kept ++ es) -> foldl push_missing kept es = kept ++ es.
Proof.
  revert kept. induction es as [|e es IH]; intros kept H; simpl; [by rewrite app_nil_r|].
  assert (Hc : contains_entry kept e = false).
  { clear IH. induction kept as [|x kept IHk]; [done|]. simpl in *. destruct H as [Hx H].
    apply Forall_app in Hx as [_ Hx]. apply Forall_cons in Hx as [Hx _]. unfold contains_entry. simpl.
    rewrite Hx. by apply IHk. }
  unfold push_missing at 2. rewrite Hc, IH; rewrite <- app_assoc; done.
Qed.

(** Normalizing fails exactly on a glob entry that does not deny; otherwise it
    keeps one copy of each entry, in order, drops empty parts, and normalizing
    again changes nothing. *)
Theorem normalize_exact p :
  let entries := default [] (fs_entries <$> file_system p) in
  if existsb bad_glob entries then normalize_additional_permissions p = Err GlobOnlyDeny
  else exists q, normalize_additional_permissions p = Ok q
    /\ normalize_additional_permissions q = Ok q
    /\ (forall es, fs_entries <$> file_system q = Some es -> distinct es /\ es <> [])
    /\ (forall e, e ∈ entries -> contains_entry (default [] (fs_entries <$> file_system q)) e = true)
    /\ (forall e, e ∈ default [] (fs_entries <$> file_system q) -> e ∈ entries)
    /\ network_on (network q) = network_on (network p).
Proof.
  cbv zeta. unfold normalize_additional_permissions. set (net := keep_if _ (network p)).
  assert (Hnet : keep_if (fun n => negb (network_is_empty n)) net = net).
  { unfold net. by destruct (network p) as [[[[]|]]|]. }
  assert (Hon : network_on net = network_on (network p)) by (unfold net; by destruct (network p) as [[[[]|]]|]).
  destruct (file_system p) as [fs|]; simpl.
  2: { exists (mkProfile net None). simpl. rewrite Hnet. split_and!; try done; by intros e ?%elem_of_nil. }
  rewrite normalize_entries_spec. destruct (existsb bad_glob (fs_entries fs)) eqn:Eb; [done|]. simpl.
  set (es := foldl push_missing [] (fs_entries fs)).
  assert (Hd : distinct es) by by apply foldl_distinct.
  assert (Hsub : forall e, e ∈ es -> e ∈ fs_entries fs) by (intros e [?%elem_of_nil|?]%push_all_sub; done).
  assert (Hall : forall e, e ∈ fs_entries fs -> contains_entry es e = true) by (intros; by apply push_all_contains).
  unfold fs_is_empty. simpl. destruct (is_empty es) eqn:Ee; simpl.
  { exists (mkProfile net None). simpl. rewrite Hnet. destruct es as [|x xs]; [|done]. split_and!; try done; auto. }
  exists (mkProfile net (Some (mkFs es (fs_glob_scan_max_depth fs)))). simpl. rewrite Hnet, normalize_entries_spec.
  assert (Hb : existsb bad_glob es = false).
  { apply not_true_iff_false. intros (e & He%list_elem_of_In & Hbe)%existsb_exists.
    apply Hsub in He. pose proof (existsb_false _ _ _ Eb He). congruence. }
  rewrite Hb. simpl. rewrite (push_distinct_id [] es) by done. rewrite app_nil_l. unfold fs_is_empty. simpl. rewrite Ee. simpl.
  split_and!; try done. intros ? [= <-]. split; [done|]. by destruct es.
Qed.

(** ** The effective policy *)

Definition profile_ok (p : PermissionProfile) : Prop :=
  match p with ProfileManaged (ManagedRestricted _ (Some d)) _ => d <> 0%N | _ => True end.

(** The merged scan depth covers both sides. *)
Lemma merge_depth_covers l ld r rd d :
  merge_glob_scan_max_depth l ld r rd = Some d ->
  forall es depth, (es = l /\ depth = ld \/ es = r /\ depth = rd) ->
    existsb (fun e => is_deny e && is_glob (entry_path e)) es = true ->
    exists n, depth = Some n /\ (n <= d)%N.
Proof.
  unfold merge_glob_scan_max_depth, effective_glob_scan_depth. intros H es depth Hes Hany.
  destruct Hes as [[-> ->]|[-> ->]]; rewrite Hany in H;
    repeat case_match; simplify_eq; eexists; split; try done; lia.
Qed.

(** Additional permissions only add: without any, a profile is unchanged; with
    them, the kind stays, every base entry stays in place, every additional
    entry of a restricted policy is present, glob scans reach as deep as either
    side asks, and the network is on exactly when the base or the addition
    turns it on. *)
Theorem effective_profile_only_adds p additional :
  profile_ok p ->
  effective_permission_profile p None = p
  /\ let fs := file_system_sandbox_policy p in
     let eff := effective_file_system_sandbox_policy fs (Some additional) in
     kind eff = kind fs /\ entries fs `prefix_of` entries eff
     /\ (forall e, kind fs = Restricted -> e ∈ default [] (fs_entries <$> file_system additional) ->
           contains_entry (entries eff) e = true)
     /\ (forall e, e ∈ entries eff -> e ∈ entries fs \/ e ∈ default [] (fs_entries <$> file_system additional))
     /\ (forall f d es depth, file_system additional = Some f -> fs_is_empty f = false -> kind fs = Restricted ->
           glob_scan_max_depth eff = Some d ->
           es = entries fs /\ depth = glob_scan_max_depth fs \/ es = fs_entries f /\ depth = fs_glob_scan_max_depth f ->
           existsb (fun e => is_deny e && is_glob (entry_path e)) es = true ->
           exists n, depth = Some n /\ (n <= d)%N)
     /\ (is_enabled (network_sandbox_policy (effective_permission_profile p (Some additional))) = true <->
         is_enabled (network_sandbox_policy p) = true \/ network_on (network additional) = true).
Proof.
  intros Hok. split.
  { unfold effective_permission_profile. destruct p as [[es d|] n| |n]; simpl; try done.
    unfold from_runtime_permissions_with_enforcement. simpl. do 2 f_equal. destruct d as [[|]|]; done. }
  cbv zeta. set (fs := file_system_sandbox_policy p).
  assert (Hm : merge_network_access (is_enabled (network_sandbox_policy p)) additional = true <->
            is_enabled (network_sandbox_policy p) = true \/ network_on (network additional) = true).
  { unfold merge_network_access. rewrite orb_true_iff. by destruct (network additional) as [[[[]|]]|]. }
  assert (Hnet : is_enabled (network_sandbox_policy (effective_permission_profile p (Some additional))) = true <->
         merge_network_access (is_enabled (network_sandbox_policy p)) additional = true).
  { unfold effective_permission_profile, effective_network_sandbox_policy, effective_file_system_sandbox_policy,
      merge_file_system_policy_with_additional_permissions, from_runtime_permissions_with_enforcement.
    destruct p as [[es d|] n| |n]; simpl; repeat case_match; simplify_eq/=; done. }
  rewrite Hnet, Hm. clear Hm Hnet. unfold effective_file_system_sandbox_policy. simpl.
  destruct (file_system additional) as [f|]; simpl.
  2: { split_and!; try done; [by intros e _ ?%elem_of_nil|by left]. }
  destruct (fs_is_empty f) eqn:Ef.
  { split_and!; try done; [|by left|by intros; simplify_eq; congruence].
    unfold fs_is_empty in Ef. destruct (fs_entries f) as [|x l]; [|done]. by intros e _ ?%elem_of_nil. }
  unfold merge_file_system_policy_with_additional_permissions. destruct (kind fs) eqn:Ek; simpl.
  - split_and!; try done; [apply push_all_prefix|intros e _ He; by apply push_all_contains|apply push_all_sub|].
    intros f' d es depth [= <-] _ _ Hd Hes. by eapply merge_depth_covers.
  - rewrite Ek. split_and!; try done. by left.
  - rewrite Ek. split_and!; try done. by left.
Qed.

End TransformLaws.

(** ** The policies at work *)

Module PermissionExamples.
Import PlainUrl PathExamples.

(** Patterns that match one path only. *)
#[local] Instance literal_globs : GlobLib := {
  GlobMatcher := str;
  GlobError := unit;
  glob_build pattern _ := Ok pattern;
  is_match_candidate pattern bytes := str_eqb (as_bytes pattern) bytes;
}.

Definition at_path (s : String.string) : FileSystemPath := Path (url_of s).
Arguments at_path _%_string_scope.
Definition work : FileSystemSandboxPolicyContext :=
  mkContext (url_of "file:///w") [url_of "file:///w"] None None.

Lemma work_good : good_context work Posix.
Proof. split; [by apply valid_url|apply regular_url; [done|by left]|done|simpl; lia]. Qed.

(** Roots of concrete policies are regular: decided by computation. *)
Lemma good_roots_by policy ctx :
  forallb (fun e => match lexical_depth e.1 with
                    | Some _ => convention_opt_eqb (infer_path_convention e.1) (Some Posix)
                    | None => false end) (resolved_entries policy ctx) = true ->
  good_roots policy ctx.
Proof.
  intros H r a Hin. rewrite forallb_forall in H. specialize (H (r, a) (proj1 (list_elem_of_In _ _) Hin)).
  simpl in H. apply regular_url; [by destruct (lexical_depth r)|]. left.
  destruct (lexical_depth r); [by apply convention_opt_eqb_eq in H|done].
Qed.

Definition carved : FileSystemSandboxPolicy :=
  restricted [new_entry (Special Root) Read; new_entry (at_path "file:///w") Write;
              new_entry (at_path "file:///w/secret") Deny; new_entry (at_path "file:///w/secret") Write].

Lemma resolve_access_most_specific_witness :
  resolve_access (restricted (reverse (entries carved))) (url_of "file:///w/secret/x") work
  = resolve_access carved (url_of "file:///w/secret/x") work.
Proof.
  apply (resolve_access_most_specific carved (restricted (reverse (entries carved)))
           (url_of "file:///w/secret/x") work).
  - split; [done|by eexists|done|by eexists|by eexists|by eexists].
  - apply reverse_Permutation.
  - done.
Defined.

Lemma full_disk_write_sound_witness :
  resolve_access (restricted [new_entry (Special Root) Read; new_entry (Special Root) Write;
                              new_entry (at_path "file:///tmp") Read; new_entry (Special SlashTmp) Write])
    (url_of "file:///tmp/x") work = Write.
Proof.
  apply (full_disk_write_sound _ work Posix (url_of "file:///tmp/x")).
  - done.
  - apply work_good.
  - by apply good_roots_by.
  - apply regular_url; [done|by left].
  - done.
  - by intros root [= <-].
  - done.
Defined.

Lemma metadata_stays_protected_witness :
  can_write_path (restricted [new_entry (at_path "file:///w") Write]) (url_of "file:///w/.git/config") work = false.
Proof.
  pose proof (metadata_stays_protected (restricted [new_entry (at_path "file:///w") Write]) work
                (url_of "file:///w/.git/config") eq_refl eq_refl) as [H _].
  apply (H (url_of "file:///w/.git") (lit ".git")).
  - exists (url_of "file:///w"). split_and!; [by left|by left|done|done].
  - intros protected' name' w (root & Hroot & Hname & Hj & Hsw) Hw _.
    apply list_elem_of_singleton in Hroot, Hw. simplify_eq.
    unfold PROTECTED_METADATA_PATH_NAMES in Hname. rewrite !elem_of_cons, elem_of_nil in Hname.
    destruct Hname as [->|[->|[->|[->|[]]]]]; vm_compute in Hj; injection Hj as <-; done.
Defined.


Definition asked : AdditionalPermissionProfile :=
  mkProfile (Some (mkNet (Some true)))
    (Some (mkFs [new_entry (Special (ProjectRoots None)) Write; new_entry (at_path "file:///w/secret") Deny] None)).
Definition given : AdditionalPermissionProfile :=
  mkProfile None (Some (mkFs [new_entry (at_path "file:///w") Write; new_entry (at_path "file:///") Read] None)).


Lemma effective_profile_only_adds_witness :
  effective_permission_profile (ProfileManaged (ManagedRestricted (entries carved) (Some 4%N)) NetRestricted) None
  = ProfileManaged (ManagedRestricted (entries carved) (Some 4%N)) NetRestricted.
Proof.
  apply (effective_profile_only_adds (ProfileManaged (ManagedRestricted (entries carved) (Some 4%N)) NetRestricted) given).
  done.
Defined.

Lemma preserve_keeps_denials_witness :
  contains_entry (entries (preserve_deny_read_restrictions_from unrestricted carved))
    (new_entry (at_path "file:///w/secret") Deny) = true.
Proof.
  apply (preserve_keeps_denials unrestricted carved); [done| |done]. do 2 right. left.
Defined.

Lemma normalize_exact_witness :
  exists q, normalize_additional_permissions given = Ok q /\ normalize_additional_permissions q = Ok q.
Proof. destruct (normalize_exact given) as (q & H1 & H2 & _). by exists q. Defined.

(** The protection of nested metadata depends on the order of the entries: only
    the first metadata directory found is checked for an explicit write entry. *)
Example metadata_protection_depends_on_order :
  let outer := new_entry (at_path "file:///w") Write in
  let inner := new_entry (at_path "file:///w/.git") Write in
  can_write_path (restricted [outer; inner]) (url_of "file:///w/.git/.codex/f") work = true
  /\ can_write_path (restricted [inner; outer]) (url_of "file:///w/.git/.codex/f") work = false.
Proof. split; vm_compute; reflexivity. Qed.

(** A request that narrows a directory to reading is not part of the
    intersection: granting the enclosing directory makes it writable. *)
Example intersection_drops_requested_read_only :
  let requested := mkProfile None (Some (mkFs [new_entry (at_path "file:///w") Write;
                                               new_entry (at_path "file:///w/ro") Read] None)) in
  let granted := mkProfile None (Some (mkFs [new_entry (at_path "file:///w") Write] None)) in
  let result := intersect_permission_profiles_with_context requested granted work in
  let policy (p : AdditionalPermissionProfile) := restricted (default [] (fs_entries <$> file_system p)) in
  resolve_access (policy requested) (url_of "file:///w/ro/f") work = Read
  /\ resolve_access (policy result) (url_of "file:///w/ro/f") work = Write.
Proof. split; vm_compute; reflexivity. Qed.

End PermissionExamples.
