(* ===== verification/RolloutScan.v ===== *)
(** * Rollout files read backwards

    [ReverseJsonlScanner] of rollout/src/reverse_jsonl_scanner.rs reads a file of
    newline-separated JSON records from its end, a chunk at a time. The reader
    behind it (any [Read + Seek]) and the [memchr] crate are parameters; a read
    may fail at any time. The file ends with the theorem that a scan yields the
    non-blank records in reverse order, whatever the chunk boundaries. *)

From S2P Require Import Prelude RustStr.
From Stdlib Require Import ZifyBool.

#[export] Abbreviation newline := nl.
Definition READ_CHUNK_SIZE : N := 64 * 1024.
Lemma chunk_size_pos : (0 < READ_CHUNK_SIZE)%N. Proof. done. Qed.
#[global] Opaque READ_CHUNK_SIZE.

(** [u8::is_ascii_whitespace] *)
Definition is_ascii_whitespace (b : N) : bool :=
  (b =? 32)%N || (b =? 9)%N || (b =? 10)%N || (b =? 12)%N || (b =? 13)%N.

(** [Read + Seek]: every operation returns the reader it leaves behind. *)
Class Reader := {
  reader : Type;
  IoError : Type;
  seek_end : reader -> reader * result IoError N;
  seek_start : N -> reader -> reader * result IoError unit;
  read_exact : N -> reader -> reader * result IoError (list N);
  invalid_input : str -> IoError;
}.

(** [memchr::memrchr]: the position of the last occurrence of a byte *)
Class Memchr := { memrchr : N -> list N -> option N }.

Class MemchrLaws (MC : Memchr) : Prop := {
  memrchr_spec b l :
    match memrchr b l with
    | Some i => exists x y, l = x ++ b :: y /\ (b ∉ y) /\ i = lenN x
    | None => b ∉ l
    end;
}.

(** Reads that succeed are reads of [data]: true of a file whose first
    [lenN data] bytes do not change, whatever is appended to it. *)
Class Reads {RD : Reader} (data : list N) : Prop := {
  end_of r r' n : seek_end r = (r', Ok n) -> (lenN data <= n)%N;
  slice_of r o r1 u n r2 bs :
    (o + n <= lenN data)%N -> seek_start o r = (r1, Ok u) -> read_exact n r1 = (r2, Ok bs) ->
    bs = takeN n (dropN o data);
}.

Inductive ScanOutcome (JsonError T : Type) : Type :=
| Parsed (t : T)
| Rejected (e : JsonError).
Arguments Parsed {JsonError T} _.
Arguments Rejected {JsonError T} _.

Section Scanner.
Context {RD : Reader} {MC : Memchr}.

Record ReverseJsonlScanner := mkScanner {
  scan_reader : reader;
  next_chunk_end : N;
  chunk_position : N;
  chunk : list N;
  record_reversed : list N;
  max_record_bytes : option N;
  discarding_oversized_record : bool;
}.

Definition new_at (r : reader) (end_byte_offset : N) : reader * result IoError ReverseJsonlScanner :=
  let '(r, e) := seek_end r in
  match e with
  | Err e => (r, Err e)
  | Ok file_len =>
      if (file_len <? end_byte_offset)%N
      then (r, Err (invalid_input (lit "reverse JSONL scan end is past the file")))
      else (r, Ok (mkScanner r end_byte_offset 0 (replicate (N.to_nat READ_CHUNK_SIZE) 0%N) [] None false))
  end.

Definition new_scanner (r : reader) : reader * result IoError ReverseJsonlScanner :=
  let '(r, e) := seek_end r in
  match e with
  | Err e => (r, Err e)
  | Ok next_chunk_end => new_at r next_chunk_end
  end.

Definition with_max_record_bytes (s : ReverseJsonlScanner) (m : N) : ReverseJsonlScanner :=
  mkScanner (scan_reader s) (next_chunk_end s) (chunk_position s) (chunk s) (record_reversed s)
    (Some m) (discarding_oversized_record s).

(** The chunk refill at the top of the loop. A failed seek or read leaves
    [next_chunk_end] already moved. *)
Definition refill (s : ReverseJsonlScanner) : ReverseJsonlScanner * result IoError unit :=
  let read_size := N.min (next_chunk_end s) READ_CHUNK_SIZE in
  let start := (next_chunk_end s - read_size)%N in
  let moved r position c :=
    mkScanner r start position c (record_reversed s) (max_record_bytes s)
      (discarding_oversized_record s) in
  let '(r, e) := seek_start start (scan_reader s) in
  match e with
  | Err e => (moved r 0%N (chunk s), Err e)
  | Ok _ =>
      let '(r, e) := read_exact read_size r in
      match e with
      | Err e => (moved r 0%N (chunk s), Err e)
      | Ok bytes => (moved r read_size (bytes ++ dropN read_size (chunk s)), Ok tt)
      end
  end.

(** Adding a fragment to the record being assembled, unless it is too long, and
    moving to [position]. *)
Definition absorb (fragment : list N) (position : N) (s : ReverseJsonlScanner) : ReverseJsonlScanner :=
  let oversized :=
    match max_record_bytes s with
    | Some m => (m <? saturating_add (lenN (record_reversed s)) (lenN fragment))%N
    | None => false
    end in
  let upd rr d :=
    mkScanner (scan_reader s) (next_chunk_end s) position (chunk s) rr (max_record_bytes s) d in
  if discarding_oversized_record s then upd (record_reversed s) true
  else if oversized then upd [] true
  else upd (record_reversed s ++ reverse fragment) false.

Definition with_record (s : ReverseJsonlScanner) (rr : list N) (d : bool) : ReverseJsonlScanner :=
  mkScanner (scan_reader s) (next_chunk_end s) (chunk_position s) (chunk s) rr (max_record_bytes s) d.

Context {JsonError T : Type} (from_slice : list N -> result JsonError T).

Definition outcome_of (record : list N) : ScanOutcome JsonError T :=
  match from_slice record with Ok value => Parsed value | Err e => Rejected e end.

Definition finish_record (s : ReverseJsonlScanner) : ReverseJsonlScanner * option (ScanOutcome JsonError T) :=
  let record := reverse (record_reversed s) in
  (with_record s [] (discarding_oversized_record s),
   if forallb is_ascii_whitespace record then None else Some (outcome_of record)).

(** One pass of the loop of [scan_next]: a result, or the state to go on with. *)
Definition scan_body (s : ReverseJsonlScanner)
    : ReverseJsonlScanner * option (result IoError (option (ScanOutcome JsonError T))) :=
  let process (s : ReverseJsonlScanner) :=
    let visible := takeN (chunk_position s) (chunk s) in
    match memrchr newline visible with
    | Some newline_position =>
        let s := absorb (dropN (newline_position + 1) visible) newline_position s in
        if discarding_oversized_record s then (with_record s (record_reversed s) false, None)
        else let '(s, o) := finish_record s in
             match o with Some outcome => (s, Some (Ok (Some outcome))) | None => (s, None) end
    | None => (absorb visible 0%N s, None)
    end in
  if (chunk_position s =? 0)%N then
    if (next_chunk_end s =? 0)%N then
      if discarding_oversized_record s then (with_record s (record_reversed s) false, Some (Ok None))
      else let '(s, o) := finish_record s in (s, Some (Ok o))
    else let '(s, r) := refill s in
         match r with Err e => (s, Some (Err e)) | Ok _ => process s end
  else process s.

Fixpoint scan_loop (fuel : nat) (s : ReverseJsonlScanner)
    : ReverseJsonlScanner * option (result IoError (option (ScanOutcome JsonError T))) :=
  match fuel with
  | O => (s, None)
  | S fuel =>
      match scan_body s with
      | (s, None) => scan_loop fuel s
      | (s, Some r) => (s, Some r)
      end
  end.

(** [scan_next]: every pass moves towards the start of the file, so one more
    pass than there are bytes left is enough. *)
Definition scan_next (s : ReverseJsonlScanner)
    : ReverseJsonlScanner * option (result IoError (option (ScanOutcome JsonError T))) :=
  scan_loop (S (N.to_nat (next_chunk_end s + chunk_position s))) s.

(** Scanning until the start of the file or an error. *)
Fixpoint scan_all (fuel : nat) (s : ReverseJsonlScanner)
    : list (ScanOutcome JsonError T) * option (result IoError unit) :=
  match fuel with
  | O => ([], None)
  | S fuel =>
      match scan_next s with
      | (s, Some (Ok (Some o))) => let '(os, e) := scan_all fuel s in (o :: os, e)
      | (s, Some (Ok None)) => ([], Some (Ok tt))
      | (s, Some (Err e)) => ([], Some (Err e))
      | (s, None) => ([], None)
      end
  end.

End Scanner.

(** ** What a scan returns *)

(** The records a scan reports: not blank and within the limit. *)
Definition kept (m : option N) (record : list N) : bool :=
  negb (forallb is_ascii_whitespace record)
  && match m with Some m => (lenN record <=? m)%N | None => true end.

(** The records of a file, last first. *)
Definition records (m : option N) (data : list N) : list (list N) :=
  List.filter (kept m) (reverse (split_on newline data)).

(** The records still to come when [p] is unread and the line that ends at its
    end continues with the reverse of [rr], or is being discarded. *)
Definition coming (m : option N) (discarding : bool) (rr p : list N) : list (list N) :=
  match reverse (split_on newline p) with
  | l :: ls =>
      (if discarding then [] else List.filter (kept m) [l ++ reverse rr]) ++ List.filter (kept m) ls
  | [] => []
  end.

Lemma split_newline x y :
  newline ∉ y -> split_on newline (x ++ newline :: y) = split_on newline x ++ [y].
Proof.
  intros Hy. assert (Forall (fun c => (c =? newline)%N = false) y).
  { apply Forall_forall. intros c Hc. apply N.eqb_neq. by intros ->. }
  induction x as [|c x IH]; unfold split_on in *; simpl.
  - by rewrite split_by_none.
  - rewrite IH. destruct (c =? newline)%N; [done|].
    by destruct (split_by _ x) eqn:E; [by apply split_by_ne in E|].
Qed.

Lemma split_more x y :
  newline ∉ y -> exists ls l, split_on newline x = ls ++ [l] /\ split_on newline (x ++ y) = ls ++ [l ++ y].
Proof.
  intros Hy. assert (Forall (fun c => (c =? newline)%N = false) y).
  { apply Forall_forall. intros c Hc. apply N.eqb_neq. by intros ->. }
  induction x as [|c x (ls & l & H1 & H2)]; unfold split_on in *; simpl.
  - exists [], []. by rewrite split_by_none.
  - rewrite H1, H2. destruct (c =? newline)%N; [by exists ([] :: ls), l|].
    destruct ls as [|k ls]; simpl; [by exists [], (c :: l)|by exists ((c :: k) :: ls), l].
Qed.

Lemma coming_records m p : coming m false [] p = records m p.
Proof.
  unfold coming, records. destruct (reverse (split_on newline p)) as [|l ls]; [done|].
  simpl. rewrite app_nil_r. by destruct (kept m l).
Qed.

Lemma coming_newline m d rr x y :
  newline ∉ y ->
  coming m d rr (x ++ newline :: y)
  = (if d then [] else List.filter (kept m) [y ++ reverse rr]) ++ records m x.
Proof. intros H. unfold coming. by rewrite split_newline, reverse_snoc. Qed.

Lemma coming_more m d rr x y :
  newline ∉ y -> coming m d rr (x ++ y) = coming m d (rr ++ reverse y) x.
Proof.
  intros H. destruct (split_more x y H) as (ls & l & H1 & H2). unfold coming.
  rewrite H1, H2, !reverse_snoc. by rewrite reverse_app, reverse_involutive, <- app_assoc.
Qed.

Lemma coming_oversized m rr p :
  (m < lenN rr)%N -> coming (Some m) false rr p = coming (Some m) true [] p.
Proof.
  intros H. unfold coming. destruct (reverse (split_on newline p)) as [|l ls]; [done|].
  simpl. unfold kept at 1. replace (lenN (l ++ reverse rr) <=? m)%N with false; [by rewrite andb_false_r|].
  rewrite lenN_app. unfold lenN in *. rewrite length_reverse. lia.
Qed.

Lemma coming_nil m d rr :
  coming m d rr [] = if d then [] else List.filter (kept m) [reverse rr].
Proof. unfold coming. simpl. by rewrite app_nil_r. Qed.

Section ScanFacts.
Context {RD : Reader} {MC : Memchr} {mlaws : MemchrLaws MC} (data : list N) {reads : Reads data}.
Context (fits : (lenN data <= usize_max)%N).
Context {JsonError T : Type} (from_slice : list N -> result JsonError T).

#[local] Abbreviation outcome_of := (outcome_of from_slice).
#[local] Abbreviation scan_body := (scan_body from_slice).

Definition unread (s : ReverseJsonlScanner) : N := (next_chunk_end s + chunk_position s)%N.

Record scanning (s : ReverseJsonlScanner) : Prop := {
  sc_chunk : takeN (chunk_position s) (chunk s) = takeN (chunk_position s) (dropN (next_chunk_end s) data);
  sc_record : (lenN (record_reversed s) + unread s <= lenN data)%N;
  sc_discarding : discarding_oversized_record s = true ->
                  record_reversed s = [] /\ is_Some (max_record_bytes s);
  sc_limit : forall m, max_record_bytes s = Some m -> (lenN (record_reversed s) <= m)%N;
}.

Definition rest (s : ReverseJsonlScanner) : list (list N) :=
  coming (max_record_bytes s) (discarding_oversized_record s) (record_reversed s) (takeN (unread s) data).

Lemma lenN_reverse {A} (l : list A) : lenN (reverse l) = lenN l.
Proof. unfold lenN. by rewrite length_reverse. Qed.

Lemma takeN_add {A} a b (l : list A) : takeN (a + b) l = takeN a l ++ takeN b (dropN a l).
Proof.
  unfold takeN, dropN. rewrite N2Nat.inj_add, <- (take_drop (N.to_nat a) (take _ l)).
  rewrite take_take, Nat.min_l by lia. by rewrite take_drop_commute.
Qed.

Lemma absorb_unread s f p : unread (absorb f p s) = (next_chunk_end s + p)%N.
Proof. unfold unread, absorb. by destruct (discarding_oversized_record s), (max_record_bytes s); simpl; repeat case_match. Qed.

(** [absorb] keeps the state and only moves bytes from the unread part to the
    record. *)
Lemma absorb_scanning s f p x :
  scanning s -> (p <= chunk_position s)%N -> (p + lenN f <= chunk_position s)%N -> newline ∉ f ->
  scanning (absorb f p s)
  /\ max_record_bytes (absorb f p s) = max_record_bytes s
  /\ coming (max_record_bytes s) (discarding_oversized_record (absorb f p s)) (record_reversed (absorb f p s)) x
     = coming (max_record_bytes s) (discarding_oversized_record s) (record_reversed s) (x ++ f).
Proof.
  intros [Hc Hr Hd Hl] Hp Hf Hn. rewrite (coming_more _ _ _ x f Hn).
  assert (Hp' : takeN p (chunk s) = takeN p (dropN (next_chunk_end s) data)).
  { apply (take_le_eq _ (N.to_nat (chunk_position s))); [lia|done]. }
  unfold absorb, unread in *.
  destruct (discarding_oversized_record s) eqn:Ed; [|destruct (max_record_bytes s) as [m|] eqn:Em].
  - destruct (Hd eq_refl) as [Hrr Hm]. split_and!; [|done|simpl; by destruct (max_record_bytes s)].
    split; simpl; [done|unfold unread; simpl; lia|by intros _|by intros m ?%Hl].
  - rewrite saturating_add_fits by lia.
    destruct (N.ltb_spec m (lenN (record_reversed s) + lenN f)) as [Hbig|Hok]; simpl.
    + split_and!; [|done|].
      * split; simpl; [done|unfold unread; simpl; rewrite lenN_nil; lia|by intros _; split|intros m' _; rewrite lenN_nil; lia].
      * symmetry. apply coming_oversized. rewrite lenN_app. rewrite lenN_reverse. lia.
    + split_and!; [|done|done]. split; simpl; [done| |done|].
      * unfold unread; simpl. rewrite lenN_app. rewrite lenN_reverse. lia.
      * intros ? [= <-]. rewrite lenN_app. rewrite lenN_reverse. lia.
  - simpl. split_and!; [|done|done]. split; simpl; [done| |done|done].
    unfold unread; simpl. rewrite lenN_app. rewrite lenN_reverse. lia.
Qed.

Lemma finish_scanning s :
  scanning s -> discarding_oversized_record s = false ->
  let '(s', o) := finish_record from_slice s in
  scanning s' /\ unread s' = unread s /\ max_record_bytes s' = max_record_bytes s
  /\ record_reversed s' = [] /\ discarding_oversized_record s' = false
  /\ List.filter (kept (max_record_bytes s)) [reverse (record_reversed s)]
     = match o with Some _ => [reverse (record_reversed s)] | None => [] end
  /\ o = outcome_of <$> head (List.filter (kept (max_record_bytes s)) [reverse (record_reversed s)]).
Proof.
  intros [Hc Hr Hd Hl] Hf. unfold finish_record. simpl.
  assert (Hk : kept (max_record_bytes s) (reverse (record_reversed s))
               = negb (forallb is_ascii_whitespace (reverse (record_reversed s)))).
  { unfold kept. destruct (max_record_bytes s) as [m|]; [|by rewrite andb_true_r].
    rewrite lenN_reverse. replace (lenN (record_reversed s) <=? m)%N with true; [by rewrite andb_true_r|].
    symmetry. apply N.leb_le. by apply Hl. }
  rewrite Hk. split_and!; [|done..| |].
  - split; simpl; [done|unfold unread in *; simpl; rewrite lenN_nil; lia|by rewrite Hf|
      intros m _; rewrite lenN_nil; lia].
  - by destruct (forallb _ _).
  - by destruct (forallb _ _).
Qed.

Lemma refill_scanning s :
  scanning s -> chunk_position s = 0%N -> next_chunk_end s <> 0%N ->
  match refill s with
  | (s', Ok _) => scanning s' /\ unread s' = unread s /\ rest s' = rest s /\ chunk_position s' <> 0%N
  | (_, Err _) => True
  end.
Proof.
  intros [Hc Hr Hd Hl] Hp Hn. unfold refill.
  set (n := N.min (next_chunk_end s) READ_CHUNK_SIZE). set (o := (next_chunk_end s - n)%N).
  assert (Hpos : n <> 0%N) by (pose proof chunk_size_pos; lia).
  assert (Hon : (o + n = next_chunk_end s)%N) by lia.
  destruct (seek_start o (scan_reader s)) as [r1 [u|e]] eqn:E1; [|done].
  destruct (read_exact n r1) as [r2 [bs|e]] eqn:E2; [|done].
  unfold unread in *. rewrite Hp in Hr.
  assert (bs = takeN n (dropN o data)) as -> by (eapply slice_of; [|done..]; lia).
  assert (Hl' : lenN (takeN n (dropN o data)) = n) by (rewrite lenN_takeN, lenN_dropN; lia).
  split_and!; simpl.
  - split; simpl; [|unfold unread; simpl; lia|done|done].
    unfold takeN at 1. rewrite take_app_le by (unfold lenN in Hl'; lia).
    apply take_ge. unfold lenN in Hl'. lia.
  - lia.
  - unfold rest, unread. simpl. do 2 f_equal. lia.
  - done.
Qed.

(** One pass over a chunk in memory. *)
Lemma process_scanning s :
  scanning s -> chunk_position s <> 0%N ->
  match scan_body s with
  | (s', None) => scanning s' /\ rest s' = rest s /\ (unread s' < unread s)%N
  | (s', Some (Ok (Some o))) =>
      scanning s' /\ (unread s' < unread s)%N /\ exists r, rest s = r :: rest s' /\ o = outcome_of r
  | (_, Some _) => False
  end.
Proof.
  intros Hs Hp. unfold RolloutScan.scan_body. destruct (N.eqb_spec (chunk_position s) 0) as [|_]; [done|].
  set (v := takeN (chunk_position s) (chunk s)).
  assert (Hlv : lenN v = chunk_position s).
  { unfold v. rewrite (sc_chunk s Hs), lenN_takeN, lenN_dropN. pose proof (sc_record s Hs) as H.
    unfold unread in H. lia. }
  assert (Hun : takeN (unread s) data = takeN (next_chunk_end s) data ++ v).
  { unfold unread, v. by rewrite takeN_add, (sc_chunk s Hs). }
  pose proof (memrchr_spec newline v) as Hm. destruct (memrchr newline v) as [i|].
  - destruct Hm as (x & y & Hv & Hy & ->).
    assert (Hlx : (lenN x + lenN y < chunk_position s)%N).
    { rewrite <- Hlv, Hv, lenN_app, lenN_cons. lia. }
    assert (dropN (lenN x + 1) v = y) as ->.
    { rewrite Hv, cons_middle, app_assoc. unfold dropN.
      replace (N.to_nat (lenN x + 1)) with (length (x ++ [newline])); [by rewrite drop_app_length|].
      rewrite length_app. unfold lenN. simpl. lia. }
    assert (Hu : takeN (next_chunk_end s + lenN x) data = takeN (next_chunk_end s) data ++ x).
    { rewrite takeN_add. f_equal. pose proof (sc_chunk s Hs) as Hc. fold v in Hc.
      transitivity (takeN (lenN x) v).
      - rewrite Hc. unfold takeN. rewrite take_take. f_equal. lia.
      - rewrite Hv. unfold takeN, lenN. rewrite Nat2N.id. apply take_app_length. }
    pose proof (absorb_scanning s y (lenN x) (takeN (unread s) data) Hs) as Ha.
    destruct Ha as (Ha1 & Ha2 & _); [lia..|done|].
    set (t := absorb y (lenN x) s) in *.
    assert (Hrest : rest s = (if discarding_oversized_record t then []
                              else List.filter (kept (max_record_bytes s)) [reverse (record_reversed t)])
                             ++ records (max_record_bytes s) (takeN (unread t) data)).
    { unfold t at 3. rewrite absorb_unread, Hu. unfold rest. rewrite Hun, Hv.
      rewrite app_assoc, coming_newline by done. f_equal.
      destruct (absorb_scanning s y (lenN x) [] Hs) as (_ & _ & Hc); [lia..|done|].
      fold t in Hc. rewrite coming_nil in Hc. rewrite Hc, coming_more, coming_nil by done.
      by rewrite reverse_app, reverse_involutive. }
    assert (Hlt : (unread t < unread s)%N).
    { unfold t. rewrite absorb_unread. unfold unread. lia. }
    destruct (discarding_oversized_record t) eqn:Ed.
    + split_and!; [|simpl in *|done].
      * destruct (sc_discarding t Ha1 Ed) as [Hrr _].
        split; [apply Ha1|apply (sc_record t Ha1)|done|apply (sc_limit t Ha1)].
      * rewrite Hrest. destruct (sc_discarding t Ha1 Ed) as [Hrr _].
        unfold rest. simpl. rewrite Hrr, Ha2. apply coming_records.
    + pose proof (finish_scanning t Ha1 Ed) as Hf. destruct (finish_record from_slice t) as [t' o].
      destruct Hf as (Hf1 & Hf2 & Hf3 & Hf4 & Hf5 & Hf6 & Hf7). rewrite Ha2 in *.
      assert (Hr' : records (max_record_bytes s) (takeN (unread t) data) = rest t').
      { unfold rest. rewrite Hf2, Hf3, Hf4, Hf5. by rewrite coming_records. }
      rewrite Hr' in Hrest. destruct o as [o|].
      * split_and!; [done|by rewrite Hf2|]. exists (reverse (record_reversed t)).
        rewrite Hrest, Hf6 in *. split; [done|]. simpl in Hf7. congruence.
      * split_and!; [done| |by rewrite Hf2]. by rewrite Hrest, Hf6.
  - destruct (absorb_scanning s v 0 (takeN (next_chunk_end s) data) Hs) as (Ha1 & Ha2 & Ha3); [lia..|done|].
    split_and!; [done| |rewrite absorb_unread; unfold unread; lia].
    unfold rest. rewrite absorb_unread, Ha2, N.add_0_r, Ha3, Hun. done.
Qed.

Definition scan_ok (s : ReverseJsonlScanner)
    (out : ReverseJsonlScanner * option (result IoError (option (ScanOutcome JsonError T)))) : Prop :=
  match out with
  | (s', None) => scanning s' /\ rest s' = rest s /\ (unread s' < unread s)%N
  | (s', Some (Ok (Some o))) =>
      scanning s' /\ (unread s' < unread s \/ rest s' = [])%N
      /\ exists r, rest s = r :: rest s' /\ o = outcome_of r
  | (s', Some (Ok None)) => scanning s' /\ rest s = [] /\ rest s' = []
  | (_, Some (Err _)) => True
  end.

Lemma body_scanning s : scanning s -> scan_ok s (scan_body s).
Proof.
  intros Hs. destruct (decide (chunk_position s = 0%N)) as [Hp|Hp].
  2: { pose proof (process_scanning s Hs Hp) as H. unfold scan_ok.
       destruct (scan_body s) as [s' [[[o|]|]|]]; naive_solver. }
  unfold RolloutScan.scan_body. destruct (N.eqb_spec (chunk_position s) 0) as [_|?]; [|done].
  destruct (N.eqb_spec (next_chunk_end s) 0) as [Hn|Hn].
  - assert (Hu : takeN (unread s) data = []) by (unfold unread; by rewrite Hp, Hn).
    destruct (discarding_oversized_record s) eqn:Ed.
    + simpl. destruct (sc_discarding s Hs Ed) as [Hrr _]. split_and!.
      * split; [apply Hs|apply (sc_record s Hs)|done|apply (sc_limit s Hs)].
      * unfold rest. by rewrite Ed, Hu, coming_nil.
      * unfold rest. simpl. unfold unread in *. simpl. by rewrite Hrr, Hu.
    + pose proof (finish_scanning s Hs Ed) as Hf. destruct (finish_record from_slice s) as [s' o].
      destruct Hf as (Hf1 & Hf2 & Hf3 & Hf4 & Hf5 & Hf6 & Hf7).
      assert (Hr' : rest s' = []) by (unfold rest; by rewrite Hf2, Hf4, Hf5, Hu, coming_nil).
      assert (Hr : rest s = List.filter (kept (max_record_bytes s)) [reverse (record_reversed s)]).
      { unfold rest. by rewrite Ed, Hu, coming_nil. }
      rewrite Hf6 in Hr, Hf7. destruct o as [o|]; simpl; [|by split_and!].
      split_and!; [done|by right|]. exists (reverse (record_reversed s)). rewrite Hr'. split; [done|].
      simpl in Hf7. congruence.
  - pose proof (refill_scanning s Hs Hp Hn) as H. destruct (refill s) as [s' [[]|e]]; [|done].
    destruct H as (H1 & H2 & H3 & H4). pose proof (process_scanning s' H1 H4) as H.
    unfold RolloutScan.scan_body in H. destruct (N.eqb_spec (chunk_position s') 0) as [|_]; [done|].
    unfold scan_ok. rewrite <- H2, <- H3.
    destruct (match memrchr _ _ with Some _ => _ | None => _ end) as [t [[[o|]|]|]]; naive_solver.
Qed.

Lemma loop_scanning fuel s :
  scanning s -> N.to_nat (unread s) < fuel ->
  exists s' r, scan_loop from_slice fuel s = (s', Some r) /\ scan_ok s (s', Some r).
Proof.
  revert s. induction fuel as [|fuel IH]; intros s Hs Hf; [lia|]. simpl.
  pose proof (body_scanning s Hs) as Hb. destruct (scan_body s) as [s' [r|]]; [by exists s', r|].
  destruct Hb as (H1 & H2 & H3). destruct (IH s' H1) as (t & r & Ht & Hok); [lia|].
  exists t, r. split; [done|]. unfold scan_ok in *. destruct r as [[o|]|]; [|by rewrite <- H2|done].
  rewrite <- H2. destruct Hok as (Ht1 & [Ht2|Ht2] & Ht3); (split_and!; [done| |done]); [left; lia|by right].
Qed.

Lemma next_scanning s :
  scanning s -> exists s' r, scan_next from_slice s = (s', Some r) /\ scan_ok s (s', Some r).
Proof. intros Hs. apply loop_scanning; [done|]. unfold unread. lia. Qed.

Lemma all_scanning fuel s :
  scanning s -> length (rest s) < fuel ->
  exists os e, scan_all from_slice fuel s = (os, Some e) /\ os `prefix_of` outcome_of <$> rest s
    /\ (e = Ok tt -> os = outcome_of <$> rest s).
Proof.
  revert s. induction fuel as [|fuel IH]; intros s Hs Hf; [lia|]. simpl.
  destruct (next_scanning s Hs) as (s' & r & -> & Hok). destruct r as [[o|]|e].
  - destruct Hok as (H1 & _ & r & Hr & ->). rewrite Hr in Hf. simpl in Hf.
    destruct (IH s' H1) as (os & e & He & [k Hk] & Hend); [lia|]. rewrite He, Hr.
    exists (outcome_of r :: os), e. split_and!; [done| |intros ->; simpl; f_equal; by apply Hend].
    exists k. by rewrite fmap_cons, Hk.
  - destruct Hok as (_ & Hr & _). exists [], (Ok tt). split_and!; [done|apply prefix_nil|by rewrite Hr].
  - exists [], (Err e). split_and!; [done|apply prefix_nil|done].
Qed.

Lemma start_scanning (r : reader) e m :
  (e <= lenN data)%N ->
  scanning (mkScanner r e 0 (replicate (N.to_nat READ_CHUNK_SIZE) 0%N) [] m false).
Proof. intros He. split; simpl; [done|unfold unread; simpl; rewrite lenN_nil; lia|done|intros; rewrite lenN_nil; lia]. Qed.

End ScanFacts.

(** C36: A backward scan returns what is in the file: whatever the chunk boundaries,
    scanning the first [e] bytes of a file with or without a record limit ends,
    and returns the outcomes of the non-blank records within the limit, last
    record first; if a read fails, the outcomes returned before are still a
    prefix of those. Records appended behind the offset are never seen, and an
    offset behind the end of the file is refused. *)
Theorem reverse_scan_correct `{RD : Reader} `{MC : Memchr} {mlaws : MemchrLaws MC}
    {JsonError T} (from_slice : list N -> result JsonError T) r r' s data e (m : option N) :
  Reads data -> (lenN data <= usize_max)%N -> (e <= lenN data)%N -> new_at r e = (r', Ok s) ->
  let s := match m with Some m => with_max_record_bytes s m | None => s end in
  let expected := outcome_of from_slice <$> records m (takeN e data) in
  exists os end_, scan_all from_slice (S (length expected)) s = (os, Some end_)
    /\ os `prefix_of` expected /\ (end_ = Ok tt -> os = expected).
Proof.
  intros reads Hfits He Hnew. unfold new_at in Hnew. destruct (seek_end r) as [r0 [n|]] eqn:Es; [|done].
  pose proof (end_of _ _ _ Es). destruct (N.ltb_spec n e) as [|]; [lia|]. injection Hnew as _ <-.
  set (s := match m with Some _ => _ | None => _ end).
  assert (Hs : scanning data s /\ rest data s = records m (takeN e data)).
  { destruct m as [m|]; (split; [by apply start_scanning|]); unfold rest, unread; simpl;
      by rewrite N.add_0_r, coming_records. }
  destruct Hs as [Hs Hr]. cbv zeta. rewrite <- Hr. eapply (all_scanning data Hfits from_slice); [done|].
  rewrite length_fmap. lia.
Qed.

(** ** A file in memory *)

Module MemoryFile.

(** A reader of [data]: its state is the position. *)
#[export] Instance file_reader (data : list N) : Reader := {
  reader := N;
  IoError := str;
  seek_end _ := (lenN data, Ok (lenN data));
  seek_start o _ := (o, Ok tt);
  read_exact n o :=
    if (o + n <=? lenN data)%N then ((o + n)%N, Ok (takeN n (dropN o data)))
    else (lenN data, Err (lit "failed to fill whole buffer"));
  invalid_input s := s;
}.

#[export] Instance file_reads data : @Reads (file_reader data) data.
Proof.
  split; simpl.
  - intros _ r n [= _ <-]. done.
  - intros r o r1 u n r2 bs Hle [= <- _]. destruct (N.leb_spec (o + n) (lenN data)); [|lia]. by intros [= _ <-].
Qed.

#[export] Instance last_occurrence : Memchr := {
  memrchr b l := (fun '(x, _) => lenN x) <$> rsplit_once b l;
}.
#[export] Instance last_occurrence_laws : MemchrLaws last_occurrence.
Proof.
  split. intros b l. simpl. destruct (rsplit_once b l) as [[x y]|] eqn:E; simpl.
  - apply rsplit_once_Some in E as [-> Hy]. by exists x, y.
  - intros Hb. apply list_elem_of_split_r in Hb as (x & y & -> & Hy).
    rewrite (proj2 (rsplit_once_Some b _ x y)) in E; done.
Qed.

End MemoryFile.

Module ScanExamples.
Import MemoryFile.

(** Numbers in decimal as records. *)
Definition digits (record : list N) : result str N :=
  if forallb (fun b => (48 <=? b)%N && (b <=? 57)%N) record
  then Ok (foldl (fun n b => 10 * n + (b - 48))%N 0%N record) else Err (lit "expected digits").

Definition sample : list N := lit "17" ++ [newline] ++ lit "  " ++ [newline] ++ lit "x" ++ [newline]
  ++ lit "123456" ++ [newline] ++ lit "42" ++ [newline] ++ lit "99".

(** Scanning the first 18 bytes: the line [99] is behind them. *)
Definition start : @ReverseJsonlScanner (file_reader sample) :=
  @mkScanner (file_reader sample) (lenN sample) 18 0 (replicate (N.to_nat READ_CHUNK_SIZE) 0%N) [] None false.

Lemma reverse_scan_correct_witness :
  exists os e,
    @scan_all (file_reader sample) last_occurrence _ _ digits 4 (with_max_record_bytes start 4) = (os, Some e)
    /\ (e = Ok tt -> os = [Parsed 42%N; Rejected (lit "expected digits"); Parsed 17%N]).
Proof.
  destruct (@reverse_scan_correct (file_reader sample) last_occurrence _ _ _ digits
              0%N (lenN sample) start sample 18 (Some 4%N)) as (os & e & H1 & _ & H3).
  - apply _.
  - by vm_compute.
  - by vm_compute.
  - reflexivity.
  - exists os, e. split; [exact H1|]. intros He. rewrite (H3 He). vm_compute. reflexivity.
Defined.

End ScanExamples.
