(* ===== verification/Rollout.v ===== *)
(** * Rollout records, ordinals and loading

    The persisted records of a session (rollout/src/lib.rs, history/src/lib.rs),
    the ordinals that number them (rollout/src/ordinal.rs) and the reading of a
    whole rollout (rollout/src/recorder.rs). [serde_json] with the derived
    serializers of the item types is a parameter, and so are the payloads of the
    items, which this layer never looks into. *)

From S2P Require Import Prelude RustStr RolloutScan.
From Stdlib Require Import ZifyBool.

(** Types this layer only passes on. *)
Class Payloads := {
  ThreadId : Type;
  GitInfo : Type;
  (** the fields of [SessionMeta] not read here *)
  SessionMetaRest : Type;
  ResponseItemEnvelope : Type;
  InterAgentCommunication : Type;
  CompactedItem : Type;
  TurnContextItem : Type;
  TokenUsage : Type;
  WorldStateItem : Type;
  SecurityRisk : Type;
  RetainedContextEvent : Type;
  Event : Type;
  Realtime : Type;
}.

Inductive ThreadHistoryMode := Legacy | Paginated.

Section Records.
Context {PL : Payloads}.

Record HistoryPosition := mkPosition {
  position_thread_id : ThreadId;
  end_ordinal_exclusive : N;
  end_byte_offset : N;
}.

Record SessionMeta := mkMeta {
  meta_id : ThreadId;
  history_mode : ThreadHistoryMode;
  history_base : option HistoryPosition;
  subagent_history_start_ordinal : option N;
  meta_rest : SessionMetaRest;
}.

Record SessionMetaLine := mkMetaLine { line_meta : SessionMeta; line_git : option GitInfo }.

Inductive RolloutItem :=
| SessionMetaItem (l : SessionMetaLine)
| ResponseItem (e : ResponseItemEnvelope)
| InterAgentCommunicationItem (c : InterAgentCommunication)
| InterAgentCommunicationMetadata (trigger_turn : bool)
| Compacted (c : CompactedItem)
| TurnContext (c : TurnContextItem)
| TokenUsageRecord (t : TokenUsage)
| WorldState (s : WorldStateItem)
| SecurityRiskScore (s : SecurityRisk)
| RetainedContext (e : RetainedContextEvent)
| EventMsg (e : Event)
| RealtimeItem (r : Realtime).

Record RolloutLine := mkLine {
  timestamp : str;
  ordinal : option N;
  item : RolloutItem;
}.

End Records.

(** [serde_json::Value]; a number is kept as its text. *)
#[warnings="-register-all"]
Inductive Value :=
| Null
| Bool (b : bool)
| Number (text : str)
| String_ (s : str)
| Array (l : list Value)
| Object (fields : list (str * Value)).

(** [Value::get] with a key, [as_str], [as_array] *)
Fixpoint assoc (k : str) (fields : list (str * Value)) : option Value :=
  match fields with
  | [] => None
  | (k', v) :: fields => if str_eqb k k' then Some v else assoc k fields
  end.
Definition get (k : str) (v : Value) : option Value :=
  match v with Object fields => assoc k fields | _ => None end.
Definition as_str (v : Value) : option str := match v with String_ s => Some s | _ => None end.
Definition as_array (v : Value) : option (list Value) := match v with Array l => Some l | _ => None end.
(** [Map::remove], [get_mut] *)
Definition without (k : str) (fields : list (str * Value)) : list (str * Value) :=
  List.filter (fun e => negb (str_eqb k e.1)) fields.
Definition replace (k : str) (v : Value) (fields : list (str * Value)) : list (str * Value) :=
  (fun e => if str_eqb k e.1 then (e.1, v) else e) <$> fields.

(** [serde_json] and the derived [Serialize]/[Deserialize] implementations *)
Class SerdeJson {PL : Payloads} := {
  JsonError : Type;
  custom : str -> JsonError;
  missing_field : str -> JsonError;
  from_slice : list N -> result JsonError Value;
  string_from_value : Value -> result JsonError str;
  ordinal_from_value : Value -> result JsonError (option N);
  history_mode_from_value : Value -> result JsonError ThreadHistoryMode;
  item_from_value : Value -> result JsonError RolloutItem;
  (** [to_string] of a [RolloutLineRef] *)
  line_to_string : str -> option N -> RolloutItem -> result JsonError str;
}.

Section Rollout.
Context {PL : Payloads} {SJ : SerdeJson} {RD : Reader} {MC : Memchr}.

Definition from_str (s : str) : result JsonError Value := from_slice (as_bytes s).

Definition decode_rollout_line (v : Value) : result JsonError RolloutLine :=
  match v with
  | Object fields =>
      t ← (v ← ok_or (assoc (lit "timestamp") fields) (missing_field (lit "timestamp")); string_from_value v);
      let fields := without (lit "timestamp") fields in
      o ← match assoc (lit "ordinal") fields with
          | None => Ok None
          | Some v => ordinal_from_value v
          end;
      let fields := without (lit "ordinal") fields in
      i ← item_from_value (Object fields);
      Ok (mkLine t o i)
  | _ => Err (custom (lit "rollout line must be a JSON object"))
  end.

Definition parse_rollout_line (line : str) : result JsonError RolloutLine :=
  from_str line ≫= decode_rollout_line.
Definition parse_rollout_line_bytes (bytes : list N) : result JsonError RolloutLine :=
  from_slice bytes ≫= decode_rollout_line.

(** [ReverseJsonlScanner::scan_next_rollout_line] *)
Definition scan_next_rollout_line (s : ReverseJsonlScanner)
    : ReverseJsonlScanner * option (result IoError (option (ScanOutcome JsonError RolloutLine))) :=
  let decode (o : ScanOutcome JsonError Value) :=
    match o with
    | Parsed v =>
        match decode_rollout_line v with Ok line => Parsed line | Err e => Rejected e end
    | Rejected e => Rejected e
    end in
  match scan_next from_slice s with
  | (s, Some (Ok (Some o))) => (s, Some (Ok (Some (decode o))))
  | (s, Some (Ok None)) => (s, Some (Ok None))
  | (s, Some (Err e)) => (s, Some (Err e))
  | (s, None) => (s, None)
  end.

(** ** Ordinals *)

Inductive RolloutOrdinalState := OrdinalLegacy | OrdinalPaginated (next : option N).

Definition u64_max : N := usize_max.
Definition checked_add (a b : N) : option N := if (a + b <=? u64_max)%N then Some (a + b)%N else None.

(** The [io::Error]s built here, by message. *)
Inductive RolloutError :=
| Io (e : IoError)
| Json (e : JsonError)
| OrdinalOverflow
| NoValidRecords
| MissingOrdinal
| IncompletePrefix (prefix_end ordinal : N)
| FirstRecord (e : JsonError)
| NotSessionMeta
| InvalidHistoryMode (e : JsonError)
| EmptySession
| NoParent
| WriterNotOpen.

Definition for_new_rollout (mode : ThreadHistoryMode) (base : option HistoryPosition) : RolloutOrdinalState :=
  match mode with
  | Legacy => OrdinalLegacy
  | Paginated =>
      OrdinalPaginated (Some (match base with Some b => end_ordinal_exclusive b | None => 0%N end))
  end.

Definition current (self : RolloutOrdinalState) : result RolloutError (option N) :=
  match self with
  | OrdinalLegacy => Ok None
  | OrdinalPaginated (Some ordinal) => Ok (Some ordinal)
  | OrdinalPaginated None => Err OrdinalOverflow
  end.

Definition advance (self : RolloutOrdinalState) : RolloutOrdinalState :=
  match self with
  | OrdinalPaginated (Some ordinal) => OrdinalPaginated (checked_add ordinal 1)
  | s => s
  end.

(** ** Reading lines forward *)

(** What a [BufReader] delivers from the current position: bytes, then the end of
    the file or a failure. *)
Class BufRead := {
  read_rest : reader -> reader * (list N * option IoError);
  invalid_data : IoError;
}.
Context {BR : BufRead}.

(** [BufRead::lines]: a line that is cut short by a failure is not delivered. *)
Definition buf_lines (bytes : list N) (failure : option IoError) : list (result IoError str) :=
  let line p := match from_utf8 p with Ok s => Ok (chomp s) | Err _ => Err invalid_data end in
  match failure with
  | None => line <$> split_inclusive bytes
  | Some e => (line <$> List.filter (ends_with [newline]) (split_inclusive bytes)) ++ [Err e]
  end.

(** The loop of [read_history_metadata]. *)
Fixpoint first_record (ls : list (result IoError str))
    : result RolloutError (option (ThreadHistoryMode * option N)) :=
  match ls with
  | [] => Ok None
  | Err e :: _ => Err (Io e)
  | Ok line :: ls =>
      if is_empty (trim line) then first_record ls
      else match parse_rollout_line line with
           | Err e => Err (FirstRecord e)
           | Ok record =>
               match item record with
               | SessionMetaItem l =>
                   Ok (Some (history_mode (line_meta l), subagent_history_start_ordinal (line_meta l)))
               | _ => Err NotSessionMeta
               end
           end
  end.

Definition read_history_metadata (r : reader)
    : reader * result RolloutError (option (ThreadHistoryMode * option N)) :=
  let '(r, e) := seek_start 0 r in
  match e with
  | Err e => (r, Err (Io e))
  | Ok _ => let '(r, (bytes, failure)) := read_rest r in (r, first_record (buf_lines bytes failure))
  end.

(** The loop of [ordinal_state_for_rollout] that looks for the last valid record *)
Fixpoint last_record (fuel : nat) (s : ReverseJsonlScanner) : option (result RolloutError RolloutLine) :=
  match fuel with
  | O => None
  | S fuel =>
      match scan_next_rollout_line s with
      | (_, Some (Ok (Some (Parsed record)))) => Some (Ok record)
      | (s, Some (Ok (Some (Rejected _)))) => last_record fuel s
      | (_, Some (Ok None)) => Some (Err NoValidRecords)
      | (_, Some (Err e)) => Some (Err (Io e))
      | (_, None) => None
      end
  end.

(** From the last record to the next ordinal *)
Definition next_ordinal (start : option N) (record : RolloutLine) : result RolloutError RolloutOrdinalState :=
  match ordinal record with
  | None => Err MissingOrdinal
  | Some ordinal =>
      match start ≫= (fun s => checked_sub s 1) with
      | Some prefix_end =>
          if (ordinal <? prefix_end)%N then Err (IncompletePrefix prefix_end ordinal)
          else Ok (OrdinalPaginated (checked_add ordinal 1))
      | None => Ok (OrdinalPaginated (checked_add ordinal 1))
      end
  end.

(** [ordinal_state_for_rollout]; [None] when [fuel] is not enough records. *)
Definition ordinal_state_for_rollout (fuel : nat) (file : reader)
    : option (result RolloutError RolloutOrdinalState) :=
  let '(file, metadata) := read_history_metadata file in
  match metadata with
  | Err e => Some (Err e)
  | Ok None | Ok (Some (Legacy, _)) => Some (Ok OrdinalLegacy)
  | Ok (Some (Paginated, start)) =>
      let '(_, s) := new_scanner file in
      match s with
      | Err e => Some (Err (Io e))
      | Ok s =>
          r ← last_record fuel s;
          Some (record ← r; next_ordinal start record)
      end
  end.

(** ** Loading *)

Definition type_is (name : str) (v : Value) : bool :=
  match get (lit "type") v ≫= as_str with Some s => str_eqb s name | None => false end.

Definition reject_unknown_thread_history_mode (v : Value) : result RolloutError unit :=
  if negb (type_is (lit "session_meta") v) then Ok tt
  else match get (lit "payload") v ≫= get (lit "history_mode") with
       | None => Ok tt
       | Some mode =>
           match history_mode_from_value mode with
           | Ok _ => Ok tt
           | Err e => Err (InvalidHistoryMode e)
           end
       end.

Definition is_legacy_ghost_snapshot_response_item : Value -> bool := type_is (lit "ghost_snapshot").

(** [retain_entries_not_marked]; both callers pass as many marks as entries. *)
Definition retain_entries_not_marked (entries : list Value) (remove : list bool) : list Value :=
  fst <$> List.filter (fun e => negb e.2) (zip entries remove).

(** Whether the line is skipped, and the value it leaves. *)
Definition strip_legacy_ghost_snapshot_rollout_line (v : Value) : bool * Value :=
  if type_is (lit "response_item") v then
    (match get (lit "payload") v with
     | Some p => is_legacy_ghost_snapshot_response_item p
     | None => false
     end, v)
  else if type_is (lit "compacted") v then
    match v, get (lit "payload") v with
    | Object fields, Some (Object payload) =>
        match assoc (lit "replacement_history") payload ≫= as_array with
        | None => (false, v)
        | Some history =>
            let remove := is_legacy_ghost_snapshot_response_item <$> history in
            if negb (existsb id remove) then (false, v)
            else
              let stripped payload := (false, Object (replace (lit "payload") (Object payload) fields)) in
              let history := Array (retain_entries_not_marked history remove) in
              let payload' := replace (lit "replacement_history") history payload in
              match assoc (lit "replacement_history_metadata") payload with
              | None => stripped payload'
              | Some (Array metadata) =>
                  if length metadata =? length remove then
                    stripped (replace (lit "replacement_history_metadata")
                                (Array (retain_entries_not_marked metadata remove)) payload')
                  else (false, v)
              | Some _ => (false, v)
              end
        end
    | _, _ => (false, v)
    end
  else (false, v).

Record Loaded := mkLoaded {
  items : list RolloutItem;
  thread_id : option ThreadId;
  parse_errors : N;
  saw_non_empty_line : bool;
}.

(** One line of [load_rollout_items]. *)
Definition load_line (acc : Loaded) (line : str) : result RolloutError Loaded :=
  if is_empty (trim line) then Ok acc
  else
    let failed := mkLoaded (items acc) (thread_id acc) (saturating_add (parse_errors acc) 1) true in
    match from_str line with
    | Err _ => Ok failed
    | Ok value =>
        let '(skip, value) := strip_legacy_ghost_snapshot_rollout_line value in
        if skip then Ok (mkLoaded (items acc) (thread_id acc) (parse_errors acc) true)
        else
          _ ← (if negb (bool_decide (is_Some (thread_id acc)))
               then reject_unknown_thread_history_mode value else Ok tt);
          match decode_rollout_line value with
          | Err _ => Ok failed
          | Ok rollout_line =>
              Ok (mkLoaded (items acc ++ [item rollout_line])
                    (match thread_id acc, item rollout_line with
                     | None, SessionMetaItem l => Some (meta_id (line_meta l))
                     | t, _ => t
                     end) (parse_errors acc) true)
          end
    end.

Fixpoint load_lines (acc : Loaded) (ls : list (result IoError str)) : result RolloutError Loaded :=
  match ls with
  | [] => Ok acc
  | Err e :: _ => Err (Io e)
  | Ok line :: ls => acc ← load_line acc line; load_lines acc ls
  end.

(** [load_rollout_items], the lines coming from the rollout's line reader *)
Definition load_rollout_items (ls : list (result IoError str))
    : result RolloutError (list RolloutItem * option ThreadId * N) :=
  acc ← load_lines (mkLoaded [] None 0 false) ls;
  if negb (saw_non_empty_line acc) then Err EmptySession
  else Ok (items acc, thread_id acc, parse_errors acc).

End Rollout.

(** ** What the ordinal state of a file is *)

(** Reads of a whole, unchanging file. *)
Class FileReads {RD : Reader} {BR : BufRead} (data : list N) : Prop := {
  #[global] file_slices :: Reads data;
  end_is r r' n : seek_end r = (r', Ok n) -> n = lenN data;
  rest_is r r1 u r2 bytes failure :
    seek_start 0 r = (r1, Ok u) -> read_rest r1 = (r2, (bytes, failure)) ->
    bytes `prefix_of` data /\ (failure = None -> bytes = data);
}.

Section RolloutLaws.
Context {PL : Payloads} {SJ : SerdeJson} {RD : Reader} {MC : Memchr} {BR : BufRead}.

(** The valid records of a file, last first. *)
Definition valid_records (data : list N) : list RolloutLine :=
  omap (fun r => ok (parse_rollout_line_bytes r)) (records None data).

(** The state a resumed rollout goes on with, as a function of its contents. *)
Definition resumed_state (data : list N) : result RolloutError RolloutOrdinalState :=
  metadata ← first_record (buf_lines data None);
  match metadata with
  | None | Some (Legacy, _) => Ok OrdinalLegacy
  | Some (Paginated, start) =>
      match head (valid_records data) with
      | None => Err NoValidRecords
      | Some record => next_ordinal start record
      end
  end.

Lemma first_record_app ls :
  (forall ks, first_record (ls ++ ks) = first_record ks) \/ (forall ks, first_record (ls ++ ks) = first_record ls).
Proof.
  induction ls as [|[l|e] ls IH]; [by left| |by right]. simpl.
  destruct (is_empty (trim l)); [done|]. by right.
Qed.

(** Lines that were complete before a failure are lines of the file. *)
Lemma complete_lines bytes t :
  exists ks, List.filter (ends_with [nl]) (split_inclusive bytes) ++ ks = split_inclusive (bytes ++ t).
Proof.
  destruct (split_inclusive_pieces bytes) as (init & tail & E & Hi & Ht).
  exists (split_inclusive (concat tail ++ t)).
  rewrite <- (split_inclusive_concat bytes) at 2. rewrite E, concat_app, <- app_assoc, List.filter_app.
  assert (List.filter (ends_with [nl]) tail = []) as ->.
  { destruct Ht as [->|(l & -> & Hl & Hn)]; [done|]. simpl.
    destruct (ends_with [nl] l) eqn:El; [|done]. apply ends_with_spec in El as [k ->]. set_solver. }
  rewrite app_nil_r. clear E Ht. induction Hi as [|l init (k & -> & Hk) _ IH]; simpl; [done|].
  assert (ends_with [nl] (k ++ [nl]) = true) as -> by (apply ends_with_spec; by exists k).
  rewrite <- !app_assoc. simpl. rewrite split_inclusive_line by done. by rewrite <- IH.
Qed.

Lemma first_record_failure bytes t e :
  first_record (buf_lines bytes (Some e)) = Err (Io e)
  \/ first_record (buf_lines bytes (Some e)) = first_record (buf_lines (bytes ++ t) None).
Proof.
  unfold buf_lines. destruct (complete_lines bytes t) as [ks <-]. rewrite fmap_app.
  destruct (first_record_app ((fun p => match from_utf8 p with Ok s => Ok (chomp s) | Err _ => Err invalid_data end)
    <$> List.filter (ends_with [nl]) (split_inclusive bytes))) as [H|H]; [left|right]; by rewrite !H.
Qed.

Context {mlaws : MemchrLaws MC} (data : list N) {file : FileReads data}.
Context (fits : (lenN data <= usize_max)%N).

Lemma last_record_spec fuel s :
  scanning data s -> length (rest data s) < fuel ->
  exists r, last_record fuel s = Some r /\
    ((exists e, r = Err (Io e))
     \/ r = ok_or (head (omap (fun r => ok (parse_rollout_line_bytes r)) (rest data s))) NoValidRecords).
Proof.
  revert s. induction fuel as [|fuel IH]; intros s Hs Hf; [lia|]. simpl. unfold scan_next_rollout_line.
  destruct (next_scanning data fits from_slice s Hs) as (s' & r & -> & Hok). destruct r as [[o|]|e].
  - destruct Hok as (H1 & _ & r & Hr & ->). rewrite Hr in *. simpl in *.
    unfold outcome_of, parse_rollout_line_bytes. destruct (from_slice r) as [v|e]; simpl; [|apply IH; [done|lia]].
    destruct (decode_rollout_line v) as [l|e]; simpl; [|apply IH; [done|lia]]. eexists. split; [done|]. by right.
  - destruct Hok as (_ & Hr & _). rewrite Hr. eexists. split; [done|]. by right.
  - eexists. split; [done|]. left. by exists e.
Qed.

Lemma ordinal_state_spec (r : reader) :
  exists result, ordinal_state_for_rollout (S (length (records None data))) r = Some result
    /\ ((exists e, result = Err (Io e)) \/ result = resumed_state data).
Proof.
  unfold ordinal_state_for_rollout, read_history_metadata, resumed_state.
  destruct (seek_start 0 r) as [r1 [u|e]] eqn:E1; [|by eexists; split; [done|left; exists e]].
  destruct (read_rest r1) as [r2 [bytes failure]] eqn:E2.
  destruct (rest_is _ _ _ _ _ _ E1 E2) as [[t Ht] Hend].
  assert (Hfirst : (exists e, first_record (buf_lines bytes failure) = Err (Io e))
                   \/ first_record (buf_lines bytes failure) = first_record (buf_lines data None)).
  { destruct failure as [e|]; [|right; by rewrite Hend].
    destruct (first_record_failure bytes t e) as [H|H]; [left; by exists e|right; by rewrite Ht]. }
  destruct Hfirst as [[e ->]|Hf]; [by eexists; split; [done|left; exists e]|].
  rewrite Hf. destruct (first_record (buf_lines data None)) as [[[[] start]|]|e];
    [by eexists; split; [done|right]| |by eexists; split; [done|right]..].
  unfold new_scanner, new_at.
  destruct (seek_end r2) as [r3 [n|e]] eqn:E3; [|by eexists; split; [done|left; exists e]].
  destruct (seek_end r3) as [r4 [n'|e]] eqn:E4; [|by eexists; split; [done|left; exists e]].
  apply end_is in E3 as ->. apply end_is in E4 as ->. rewrite N.ltb_irrefl.
  set (s := mkScanner _ _ _ _ _ _ _).
  assert (Hs : scanning data s) by by apply start_scanning.
  assert (Hr : rest data s = records None data).
  { unfold rest, unread. simpl. rewrite N.add_0_r, coming_records. f_equal. unfold takeN, lenN.
    rewrite Nat2N.id. by rewrite firstn_all. }
  destruct (last_record_spec (S (length (records None data))) s Hs) as (res & Hres & Hcase); [rewrite Hr; lia|].
  rewrite Hres. simpl. rewrite Hr in Hcase. fold (valid_records data) in Hcase.
  destruct Hcase as [[e ->]| ->]; [by eexists; split; [done|left; exists e]|]. eexists. split; [done|right].
  by destruct (head (valid_records data)).
Qed.

(** Resuming looks at the whole file and nothing else: with enough fuel for its
    records, [ordinal_state_for_rollout] ends, and returns either an error of a
    read or exactly the state that the contents determine: legacy for an empty
    or a legacy file, else one more than the ordinal of the last record that
    decodes, with errors for a first line that is not session metadata, for no
    valid or an unnumbered last record and for an unfinished inherited prefix. *)
Theorem ordinal_state_exact (r : reader) :
  exists result, ordinal_state_for_rollout (S (length (records None data))) r = Some result
    /\ ((exists e, result = Err (Io e)) \/ result = resumed_state data).
Proof. apply ordinal_state_spec. Qed.

End RolloutLaws.
