(* ===== verification/RolloutWriter.v ===== *)
(** * The rollout writer

    The background task of rollout/src/recorder.rs that appends the records of a
    session to its file: buffering until the file is wanted, numbering, one
    reopening and retry after a failure, repairing a missing final newline. The
    file is a list of bytes, and every operation on it consumes an entry of a
    list of faults: it succeeds, or fails, a write after any number of its bytes.
    The theorems say what is in the file after any commands and any faults, that
    the writer catches up once the faults stop, and that a resumed session never
    reuses an ordinal. *)

From S2P Require Import Prelude RustStr RolloutScan Rollout.
From Stdlib Require Import ZifyBool.

(** The clock, the repository and the path, which the writer only asks. *)
Class Surroundings {PL : Payloads} := {
  (** [OffsetDateTime::now_utc] in the rollout's format, at the [n]th question *)
  format_now : nat -> str;
  (** [collect_git_info], at the [n]th question *)
  git_info : nat -> option GitInfo;
  (** [plain_rollout_path(path).try_exists()] *)
  plain_exists : nat -> bool;
  path_has_parent : bool;
}.

Section Writer.
Context {PL : Payloads} {SJ : SerdeJson} {RD : Reader} {SU : Surroundings}.

(** The file, if it exists, the number of questions asked so far, and what the
    next operations will do: [None] succeeds, [Some (n, e)] fails with [e], a
    write after [n] bytes. The operations after the last entry succeed. *)
Record World := mkWorld {
  log : option (list N);
  clock : nat;
  faults : list (option (N * IoError));
}.

Record RolloutWriterState := mkWriter {
  (** [Option<JsonlWriter>]: whether the file is open *)
  writer : bool;
  deferred_creation : bool;
  pending_items : list RolloutItem;
  meta : option SessionMeta;
  ordinal_state : RolloutOrdinalState;
  last_logged_error : option RolloutError;
}.

Definition State : Type := RolloutWriterState * World.
Definition M (A : Type) : Type := State -> State * result RolloutError A.

#[export] Instance M_ret : MRet M := fun A a st => (st, Ok a).
#[export] Instance M_bind : MBind M := fun A B f c st =>
  match c st with (st, Ok a) => f a st | (st, Err e) => (st, Err e) end.

Definition throw {A} (e : RolloutError) : M A := fun st => (st, Err e).
Definition lift {A} (r : result RolloutError A) : M A := fun st => (st, r).
Definition gets {A} (f : RolloutWriterState -> A) : M A := fun st => (st, Ok (f st.1)).
Definition modify (f : RolloutWriterState -> RolloutWriterState) : M unit :=
  fun st => ((f st.1, st.2), Ok tt).

(** An operation that fails or succeeds, and one that appends bytes. *)
Definition append (bytes : list N) : M unit := fun '(w, wd) =>
  let written k := Some (default [] (log wd) ++ takeN k bytes) in
  match faults wd with
  | [] => ((w, mkWorld (written (lenN bytes)) (clock wd) []), Ok tt)
  | None :: fs => ((w, mkWorld (written (lenN bytes)) (clock wd) fs), Ok tt)
  | Some (k, e) :: fs => ((w, mkWorld (written k) (clock wd) fs), Err (Io e))
  end.
Definition effect : M unit := fun '(w, wd) =>
  match faults wd with
  | [] => ((w, wd), Ok tt)
  | None :: fs => ((w, mkWorld (log wd) (clock wd) fs), Ok tt)
  | Some (_, e) :: fs => ((w, mkWorld (log wd) (clock wd) fs), Err (Io e))
  end.
Definition ask {A} (f : nat -> A) : M A := fun '(w, wd) =>
  ((w, mkWorld (log wd) (S (clock wd)) (faults wd)), Ok (f (clock wd))).
Definition contents (st : State) : list N := default [] (log st.2).
Definition create : M unit := fun '(w, wd) =>
  ((w, mkWorld (Some (default [] (log wd))) (clock wd) (faults wd)), Ok tt).

(** [ensure_rollout_is_newline_terminated]: the length, the seek, the read of the
    last byte, the newline and the flush. *)
Definition terminate_line (bytes : list N) : M unit :=
  match last bytes with
  | None => mret tt
  | Some final_byte =>
      _ ← effect;
      _ ← effect;
      if (final_byte =? newline)%N then mret tt
      else _ ← append [newline]; effect
  end.
Definition ensure_rollout_is_newline_terminated : M unit :=
  _ ← effect;
  bytes ← (fun st => (st, Ok (contents st)));
  terminate_line bytes.

(** [open_log_file]; a compressed rollout is materialised with the same contents. *)
Definition open_log_file : M unit :=
  _ ← effect;
  plain ← ask plain_exists;
  _ ← effect;
  if negb path_has_parent then throw NoParent
  else
    _ ← effect;
    _ ← effect;
    _ ← create;
    _ ← (if negb plain then effect else mret tt);
    ensure_rollout_is_newline_terminated.

(** [JsonlWriter::write_rollout_item] with [write_line] *)
Definition write_rollout_item (item : RolloutItem) (ordinal : option N) : M unit :=
  _ ← effect;
  timestamp ← ask format_now;
  json ← lift (map_err Json (line_to_string timestamp ordinal item));
  _ ← append (as_bytes json ++ [newline]);
  effect.

Definition set_writer (b : bool) (s : RolloutWriterState) : RolloutWriterState :=
  mkWriter b (deferred_creation s) (pending_items s) (meta s) (ordinal_state s) (last_logged_error s).
Definition set_deferred (b : bool) (s : RolloutWriterState) : RolloutWriterState :=
  mkWriter (writer s) b (pending_items s) (meta s) (ordinal_state s) (last_logged_error s).
Definition set_pending (l : list RolloutItem) (s : RolloutWriterState) : RolloutWriterState :=
  mkWriter (writer s) (deferred_creation s) l (meta s) (ordinal_state s) (last_logged_error s).
Definition set_meta (m : option SessionMeta) (s : RolloutWriterState) : RolloutWriterState :=
  mkWriter (writer s) (deferred_creation s) (pending_items s) m (ordinal_state s) (last_logged_error s).
Definition set_ordinal (o : RolloutOrdinalState) (s : RolloutWriterState) : RolloutWriterState :=
  mkWriter (writer s) (deferred_creation s) (pending_items s) (meta s) o (last_logged_error s).
Definition set_logged (e : option RolloutError) (s : RolloutWriterState) : RolloutWriterState :=
  mkWriter (writer s) (deferred_creation s) (pending_items s) (meta s) (ordinal_state s) e.

Definition advance_ordinal : M unit := modify (fun s => set_ordinal (advance (ordinal_state s)) s).

Definition add_items (items : list RolloutItem) : M unit :=
  modify (fun s => set_pending (pending_items s ++ items) s).

Definition is_deferred (s : RolloutWriterState) : bool := negb (writer s) && deferred_creation s.

Definition enter_recovery_mode (e : RolloutError) : M unit :=
  modify (fun s => set_writer false (set_logged (Some e) s)).

Definition ensure_writer_open : M unit :=
  opened ← gets writer;
  if opened : bool then mret tt
  else
    _ ← open_log_file;
    modify (fun s => set_deferred false (set_writer true s)).

Definition write_session_meta (session_meta : SessionMeta) : M unit :=
  git ← ask git_info;
  opened ← gets writer;
  if opened : bool then
    ordinal ← (fun st => (st, current (ordinal_state st.1)));
    _ ← write_rollout_item (SessionMetaItem (mkMetaLine session_meta git)) ordinal;
    advance_ordinal
  else mret tt.

Definition write_session_meta_if_needed : M unit :=
  pending ← gets meta;
  match pending with
  | None => mret tt
  | Some session_meta =>
      _ ← write_session_meta session_meta;
      modify (set_meta None)
  end.

(** The loop of [write_pending_items_once]: how many items were written, and the
    result. *)
Fixpoint write_items (items : list RolloutItem) (st : State) : State * (nat * result RolloutError unit) :=
  match items with
  | [] => (st, (0, Ok tt))
  | item :: items =>
      match current (ordinal_state st.1) with
      | Err e => (st, (0, Err e))
      | Ok ordinal =>
          match write_rollout_item item ordinal st with
          | (st, Err e) => (st, (0, Err e))
          | (st, Ok _) =>
              let '(st, _) := advance_ordinal st in
              let '(st, (n, r)) := write_items items st in (st, (S n, r))
          end
      end
  end.

Definition write_pending_items_once : M unit := fun st =>
  if negb (writer st.1) then (st, Err WriterNotOpen)
  else
    let '(st, (written_count, r)) := write_items (pending_items st.1) st in
    ((set_pending (drop written_count (pending_items st.1)) st.1, st.2), r).

Definition write_pending_once : M unit :=
  _ ← ensure_writer_open;
  _ ← write_session_meta_if_needed;
  _ ← write_pending_items_once;
  opened ← gets writer;
  if opened : bool then effect else mret tt.

Definition write_pending_with_recovery : M unit := fun st =>
  match write_pending_once st with
  | (st, Ok _) => modify (set_logged None) st
  | (st, Err first_err) =>
      let '(st, _) := enter_recovery_mode first_err st in
      match write_pending_once st with
      | (st, Ok _) => modify (set_logged None) st
      | (st, Err second_err) =>
          let '(st, _) := enter_recovery_mode second_err st in (st, Err second_err)
      end
  end.

Definition persist : M unit := write_pending_with_recovery.
(** [flush] and [shutdown] *)
Definition flush : M unit := fun st =>
  if is_deferred st.1 && is_empty (pending_items st.1) then (st, Ok tt)
  else write_pending_with_recovery st.
Definition shutdown : M unit := flush.

Definition flush_if_materialized (st : State) : State :=
  if is_deferred st.1 then st
  else match flush st with
       | (st, Ok _) => st
       | (st, Err e) => (enter_recovery_mode e st).1
       end.

Inductive RolloutCmd := AddItems (items : list RolloutItem) | Persist | Flush | Discard | Shutdown.
Inductive Ack := Silent | Discarded | Replied (r : result RolloutError unit).

(** [rollout_writer]: the state when the commands are done or the task stops, and
    an answer for each command it handled. *)
Fixpoint rollout_writer (cmds : list RolloutCmd) (st : State) : State * list Ack :=
  match cmds with
  | [] => (st, [])
  | cmd :: cmds =>
      let continue st ack := let '(st, acks) := rollout_writer cmds st in (st, ack :: acks) in
      match cmd with
      | AddItems items => continue (flush_if_materialized (add_items items st).1) Silent
      | Persist => let '(st, r) := persist st in continue st (Replied r)
      | Flush => let '(st, r) := flush st in continue st (Replied r)
      | Discard => (st, [Discarded])
      | Shutdown =>
          match shutdown st with
          | (st, Ok _) => (st, [Replied (Ok tt)])
          | (st, Err e) => continue st (Replied (Err e))
          end
      end
  end.

(** [new_inner] for a new session: nothing is written yet. *)
Definition created (m : SessionMeta) (wd : World) : State :=
  (mkWriter false true [] (Some m) (for_new_rollout (history_mode m) (history_base m)) None, wd).

End Writer.

(** ** What is in the file *)

(** What the writer relies on in the JSON encoding of a line: it is one non-blank
    line, it decodes to what was written, and no proper prefix of it is JSON. *)
Class JsonLaws {PL : Payloads} (SJ : SerdeJson) : Prop := {
  encoded_line t o i s : line_to_string t o i = Ok s -> newline ∉ as_bytes s;
  encoded_text t o i s : line_to_string t o i = Ok s -> forallb is_ascii_whitespace (as_bytes s) = false;
  encoded_decodes t o i s :
    line_to_string t o i = Ok s -> parse_rollout_line_bytes (as_bytes s) = Ok (mkLine t o i);
  encoded_prefix t o i s p :
    line_to_string t o i = Ok s -> p `prefix_of` as_bytes s -> p <> as_bytes s -> exists e, from_slice p = Err e;
}.

(** A file that ends in a newline, or is empty. *)
Definition closed (f : list N) : Prop := f = [] \/ exists g, f = g ++ [newline].

Section Contents.
Context {PL : Payloads} {SJ : SerdeJson}.

(** The ordinal and the item of each line that decodes, in file order. *)
Definition decoded (f : list N) : list (option N * RolloutItem) :=
  (fun l => (ordinal l, item l)) <$> reverse (valid_records f).

(** What one line contributes. *)
Definition decoded_line (p : list N) : list (option N * RolloutItem) :=
  if kept None p then match parse_rollout_line_bytes p with Ok l => [(ordinal l, item l)] | Err _ => [] end
  else [].

Lemma omap_filter_snoc {A B} (f : A -> option B) (k : A -> bool) l x :
  omap f (List.filter k (l ++ [x])) = omap f (List.filter k l) ++ (if k x then match f x with Some y => [y] | None => [] end else []).
Proof. rewrite List.filter_app, omap_app. f_equal. simpl. destruct (k x); [|done]. simpl. by destruct (f x). Qed.

Lemma filter_reverse {A} (k : A -> bool) l : List.filter k (reverse l) = reverse (List.filter k l).
Proof.
  induction l as [|x l IH]; [done|]. rewrite reverse_cons, List.filter_app, IH. simpl.
  destruct (k x); [by rewrite reverse_cons|by rewrite app_nil_r].
Qed.

Lemma omap_reverse {A B} (f : A -> option B) l : omap f (reverse l) = reverse (omap f l).
Proof.
  induction l as [|x l IH]; [done|]. rewrite reverse_cons, omap_app, IH. simpl.
  destruct (f x); [by rewrite reverse_cons|by rewrite app_nil_r].
Qed.

Lemma decoded_lines f :
  decoded f = (fun l => (ordinal l, item l)) <$>
    omap (fun r => ok (parse_rollout_line_bytes r)) (List.filter (kept None) (split_on newline f)).
Proof. unfold decoded, valid_records, records. by rewrite filter_reverse, omap_reverse, reverse_involutive. Qed.

Lemma decoded_snoc f ls p :
  split_on newline f = ls ++ [p] ->
  decoded f = ((fun l => (ordinal l, item l)) <$>
    omap (fun r => ok (parse_rollout_line_bytes r)) (List.filter (kept None) ls)) ++ decoded_line p.
Proof.
  intros H. rewrite decoded_lines, H, omap_filter_snoc, fmap_app. f_equal. unfold decoded_line.
  destruct (kept None p); [|done]. by destruct (parse_rollout_line_bytes p).
Qed.

Lemma decoded_newline f : decoded (f ++ [newline]) = decoded f.
Proof.
  rewrite (decoded_snoc (f ++ [newline]) (split_on newline f) []); [|by rewrite split_newline; [|set_solver]].
  rewrite decoded_lines. by rewrite app_nil_r.
Qed.

Lemma decoded_app f p : closed f -> newline ∉ p -> decoded (f ++ p) = decoded f ++ decoded_line p.
Proof.
  intros [->|[g ->]] Hp.
  - simpl. rewrite (decoded_snoc p [] p); [done|]. apply split_by_none. apply Forall_forall.
    intros c Hc. apply N.eqb_neq. by intros ->.
  - rewrite (decoded_newline g), (decoded_lines g), <- app_assoc. change ([newline] ++ p) with (newline :: p).
    rewrite (decoded_snoc (g ++ newline :: p) (split_on newline g) p); [done|]. by apply split_newline.
Qed.

Context {JL : JsonLaws SJ}.

(** An attempt to append a line contributes nothing or the line. *)
Lemma decoded_attempt f k t o i s :
  closed f -> line_to_string t o i = Ok s ->
  decoded (f ++ takeN k (as_bytes s ++ [newline])) = decoded f
  \/ decoded (f ++ takeN k (as_bytes s ++ [newline])) = decoded f ++ [(o, i)].
Proof.
  intros Hf Hs. pose proof (encoded_line _ _ _ _ Hs) as Hn.
  assert (Hone : decoded_line (as_bytes s) = [(o, i)]).
  { unfold decoded_line, kept. by rewrite (encoded_text _ _ _ _ Hs), (encoded_decodes _ _ _ _ Hs). }
  unfold takeN. set (n := N.to_nat k). destruct (le_lt_dec n (length (as_bytes s))) as [Hle|Hgt].
  - rewrite take_app_le by done. assert (Hp : newline ∉ take n (as_bytes s)).
    { intros (j & Hj & _)%elem_of_take. by apply Hn, (list_elem_of_lookup_2 _ j). }
    rewrite decoded_app by done. destruct (decide (take n (as_bytes s) = as_bytes s)) as [->|Hne].
    + right. by rewrite Hone.
    + left. destruct (encoded_prefix t o i s (take n (as_bytes s)) Hs) as [e He]; [apply prefix_take|done|].
      unfold decoded_line, parse_rollout_line_bytes. rewrite He. simpl. destruct (kept None _); by rewrite app_nil_r.
  - right. rewrite take_ge by (rewrite length_app; simpl; lia).
    rewrite app_assoc, decoded_newline, decoded_app by done. by rewrite Hone.
Qed.

Lemma decoded_whole f t o i s :
  closed f -> line_to_string t o i = Ok s ->
  decoded (f ++ as_bytes s ++ [newline]) = decoded f ++ [(o, i)].
Proof.
  intros Hf Hs. rewrite app_assoc, decoded_newline, decoded_app; [|done|by apply (encoded_line _ _ _ _ Hs)].
  unfold decoded_line, kept. by rewrite (encoded_text _ _ _ _ Hs), (encoded_decodes _ _ _ _ Hs).
Qed.

End Contents.

(** ** The invariant of the writer *)

Section Durable.
Context {PL : Payloads} {SJ : SerdeJson} {JL : JsonLaws SJ} {RD : Reader} {SU : Surroundings}.

(** The git state in the session metadata is asked for again at a retry. *)
Definition same_item (i j : RolloutItem) : Prop :=
  match i, j with
  | SessionMetaItem a, SessionMetaItem b => line_meta a = line_meta b
  | _, _ => i = j
  end.
Definition same_record (x y : option N * RolloutItem) : Prop := x.1 = y.1 /\ same_item x.2 y.2.

(** Every record of [ws] is in [ds] once or more often, in order. *)
Inductive copies : list (option N * RolloutItem) -> list (option N * RolloutItem) -> Prop :=
| copies_nil : copies [] []
| copies_snoc ws ds x cs :
    copies ws ds -> cs <> [] -> Forall (same_record x) cs -> copies (ws ++ [x]) (ds ++ cs).

(** The ordinals of [ws] are those handed out from [o] on. *)
Fixpoint numbered (o : RolloutOrdinalState) (ws : list (option N * RolloutItem)) : Prop :=
  match ws with
  | [] => True
  | (n, _) :: ws => current o = Ok n /\ numbered (advance o) ws
  end.

(** What is still to be written: the metadata, then the buffered items. *)
Definition remaining (s : RolloutWriterState) : list RolloutItem :=
  match meta s with Some m => [SessionMetaItem (mkMetaLine m None)] | None => [] end ++ pending_items s.

#[export] Instance same_item_equivalence : Equivalence same_item.
Proof.
  split.
  - by intros [].
  - by intros [] []; simpl.
  - intros [] [] []; simpl; congruence.
Qed.

(** Of the items [accepted], all but those [left_] are recorded in a file whose
    valid records are [base] and then [ds] and [es]: [ds] are copies of the
    records [ws], and [es] are copies of the first item left, from attempts that
    failed late. *)
Record recorded (base : list (option N * RolloutItem)) (o0 : RolloutOrdinalState)
    (accepted left_ : list RolloutItem) (f : list N) (o : RolloutOrdinalState)
    (ws ds es : list (option N * RolloutItem)) : Prop := {
  rec_file : decoded f = base ++ ds ++ es;
  rec_copies : copies ws ds;
  rec_numbered : numbered o0 ws;
  rec_ordinal : o = Nat.iter (length ws) advance o0;
  rec_items : Forall2 same_item accepted ((snd <$> ws) ++ left_);
  rec_extra : Forall (fun e => exists i n, head left_ = Some i /\ current o = Ok n /\ same_record (n, i) e) es;
}.

Definition Recorded base o0 accepted left_ f o : Prop :=
  exists ws ds es, recorded base o0 accepted left_ f o ws ds es.

Lemma numbered_snoc o ws n i :
  numbered o ws -> current (Nat.iter (length ws) advance o) = Ok n -> numbered o (ws ++ [(n, i)]).
Proof.
  revert o. induction ws as [|[m j] ws IH]; intros o; simpl; [by split|].
  intros [H1 H2] H3. split; [done|]. apply IH; [done|]. by rewrite <- Nat.iter_succ_r.
Qed.

Context (base : list (option N * RolloutItem)) (o0 : RolloutOrdinalState).
#[local] Abbreviation Rec := (Recorded base o0).

Lemma recorded_ext A R f g o : Rec A R f o -> decoded g = decoded f -> Rec A R g o.
Proof. intros (ws & ds & es & []) H. exists ws, ds, es. split; try done. by rewrite H. Qed.

(** A failed attempt that left a whole line. *)
Lemma recorded_again A i R f g o n j :
  Rec A (i :: R) f o -> current o = Ok n -> same_item i j -> decoded g = decoded f ++ [(n, j)] ->
  Rec A (i :: R) g o.
Proof.
  intros (ws & ds & es & []) Hn Hij Hg. exists ws, ds, (es ++ [(n, j)]). split; try done.
  - rewrite Hg, rec_file0. by rewrite <- !app_assoc.
  - apply Forall_app. split; [done|]. constructor; [|done]. exists i, n. done.
Qed.

(** A successful attempt. *)
Lemma recorded_next A i R f g o n j :
  Rec A (i :: R) f o -> current o = Ok n -> same_item i j -> decoded g = decoded f ++ [(n, j)] ->
  Rec A R g (advance o).
Proof.
  intros (ws & ds & es & []) Hn Hij Hg. exists (ws ++ [(n, j)]), (ds ++ (es ++ [(n, j)])), []. split.
  - rewrite Hg, rec_file0, app_nil_r. by rewrite <- !app_assoc.
  - constructor; [done|by destruct es|]. apply Forall_app. split; [|by constructor].
    eapply Forall_impl; [done|]. intros [m k] (i' & n' & [= <-] & Hn' & [H1 H2]). simpl in *.
    split; simpl; [congruence|]. by rewrite <- Hij.
  - apply numbered_snoc; [done|]. by rewrite <- rec_ordinal0.
  - rewrite length_app, Nat.add_comm. simpl. by rewrite rec_ordinal0.
  - rewrite fmap_app, <- app_assoc. simpl. apply Forall2_app_inv_r in rec_items0 as (A1 & A2 & H1 & H2 & ->).
    apply Forall2_app; [done|]. inversion H2; subst. constructor; [by etransitivity|done].
  - constructor.
Qed.

(** The operations that leave the writer alone. *)
Definition keeps_contents {A} (c : M A) : Prop :=
  forall st, (c st).1.1 = st.1 /\ contents (c st).1 = contents st.

Lemma effect_keeps : keeps_contents effect.
Proof. intros [w [l c [|[[k e]|] fs]]]; done. Qed.
Lemma ask_keeps {A} (f : nat -> A) : keeps_contents (ask f).
Proof. by intros [w [l c fs]]. Qed.
Lemma create_keeps : keeps_contents create.
Proof. by intros [w [[l|] c fs]]. Qed.
Lemma ret_keeps {A} (a : A) : keeps_contents (mret a).
Proof. done. Qed.
Lemma bind_keeps {A B} (c : M A) (f : A -> M B) :
  keeps_contents c -> (forall a, keeps_contents (f a)) -> keeps_contents (c ≫= f).
Proof.
  intros Hc Hf st. unfold mbind, M_bind. destruct (Hc st) as [H1 H2].
  destruct (c st) as [st' [a|e]]; simpl in *; [|done]. destruct (Hf a st'). split; congruence.
Qed.

Lemma append_spec bytes st :
  let '(st', r) := append bytes st in
  st'.1 = st.1 /\ exists k, contents st' = contents st ++ takeN k bytes
    /\ (is_ok r = true -> takeN k bytes = bytes).
Proof.
  assert (Hall : takeN (lenN bytes) bytes = bytes).
  { unfold takeN, lenN. rewrite Nat2N.id. apply firstn_all. }
  destruct st as [w [l c [|[[k e]|] fs]]]; simpl; (split; [done|]);
    [exists (lenN bytes)|exists k|exists (lenN bytes)]; done.
Qed.

Lemma write_item_spec A i j R st n :
  Rec A (i :: R) (contents st) (ordinal_state st.1) -> same_item i j -> closed (contents st) ->
  current (ordinal_state st.1) = Ok n ->
  let '(st', r) := write_rollout_item j n st in
  st'.1 = st.1 /\
  match r with
  | Ok _ => Rec A R (contents st') (advance (ordinal_state st.1)) /\ closed (contents st')
  | Err _ => Rec A (i :: R) (contents st') (ordinal_state st.1)
  end.
Proof.
  intros HR Hij Hc Hn. unfold write_rollout_item, mbind, M_bind.
  pose proof (effect_keeps st) as [Hw1 Hc1]. destruct (effect st) as [st1 [[]|e]]; simpl in *;
    [|split; [done|by rewrite Hc1]].
  pose proof (ask_keeps format_now st1) as [Hw2 Hc2]. destruct (ask format_now st1) as [st2 [t|e]]; simpl in *;
    [|split; [congruence|by rewrite Hc2, Hc1]].
  unfold lift. destruct (line_to_string t n j) as [s|e] eqn:Es; simpl; [|split; [congruence|by rewrite Hc2, Hc1]].
  pose proof (append_spec (as_bytes s ++ [newline]) st2) as Ha.
  destruct (append (as_bytes s ++ [newline]) st2) as [st3 r]. destruct Ha as (Hw3 & k & Hc3 & Hall).
  rewrite Hc2, Hc1 in Hc3. destruct r as [[]|e].
  - rewrite Hall in Hc3 by done. pose proof (effect_keeps st3) as [Hw4 Hc4].
    pose proof (decoded_whole (contents st) t n j s Hc Es) as Hd. rewrite <- Hc3 in Hd.
    destruct (effect st3) as [st4 [[]|e]]; simpl in *; rewrite Hc4; (split; [congruence|]).
    + split; [by eapply recorded_next|]. right. exists (contents st ++ as_bytes s). by rewrite Hc3, app_assoc.
    + by eapply recorded_again.
  - split; [congruence|]. destruct (decoded_attempt (contents st) k t n j s Hc Es) as [Hd|Hd]; rewrite <- Hc3 in Hd.
    + by eapply recorded_ext.
    + by eapply recorded_again.
Qed.

Lemma write_items_spec A items st :
  Rec A items (contents st) (ordinal_state st.1) -> closed (contents st) ->
  let '(st', (n, r)) := write_items items st in
  st'.1 = set_ordinal (ordinal_state st'.1) st.1
  /\ Rec A (drop n items) (contents st') (ordinal_state st'.1)
  /\ (is_ok r = true -> n = length items /\ closed (contents st')).
Proof.
  revert st. induction items as [|i items IH]; intros st HR Hc; simpl.
  { split_and!; [by destruct st as [[] ?]|done|done]. }
  destruct (current (ordinal_state st.1)) as [n|e] eqn:En; [|split_and!; [by destruct st as [[] ?]|done|done]].
  pose proof (write_item_spec A i i items st n HR (reflexivity i) Hc En) as H.
  destruct (write_rollout_item i n st) as [st1 [[]|e]]; destruct H as [Hw H].
  2: { rewrite Hw. split_and!; [by destruct st as [[] ?]|done|done]. }
  destruct H as [HR1 Hc1]. unfold advance_ordinal, modify.
  set (st2 := (set_ordinal _ st1.1, st1.2)).
  specialize (IH st2). destruct (write_items items st2) as [st3 [m r]].
  destruct IH as (H1 & H2 & H3); [unfold st2, contents; simpl; by rewrite Hw|done|].
  split_and!; [|done|].
  - rewrite H1. unfold st2. simpl. rewrite Hw. by destruct st as [[] ?].
  - intros Hr. destruct (H3 Hr) as [-> ?]. done.
Qed.

(** Opening repairs the end of the file and changes nothing else. *)
Definition tidies {A} (c : M A) : Prop :=
  forall st, (c st).1.1 = st.1 /\ decoded (contents (c st).1) = decoded (contents st)
    /\ (is_ok (c st).2 = true -> closed (contents (c st).1)).

Lemma bind_tidies {A B} (c : M A) (f : A -> M B) :
  keeps_contents c -> (forall a, tidies (f a)) -> tidies (c ≫= f).
Proof.
  intros Hc Hf st. unfold mbind, M_bind. destruct (Hc st) as [H1 H2].
  destruct (c st) as [st' [a|e]]; simpl in *.
  - destruct (Hf a st') as (H3 & H4 & H5). split_and!; [congruence|congruence|done].
  - split_and!; [done|by rewrite H2|done].
Qed.

Lemma append_newline_spec st :
  let '(st', r) := (_ ← append [newline]; effect) st in
  st'.1 = st.1 /\ decoded (contents st') = decoded (contents st) /\ (is_ok r = true -> closed (contents st')).
Proof.
  unfold mbind, M_bind. pose proof (append_spec [newline] st) as Ha.
  destruct (append [newline] st) as [s1 r]. destruct Ha as (Hw & k & Hc & Hall).
  assert (Hd : decoded (contents s1) = decoded (contents st)).
  { rewrite Hc. unfold takeN. destruct (N.to_nat k); simpl; [by rewrite app_nil_r|].
    rewrite take_nil. apply decoded_newline. }
  destruct r as [[]|e]; [|by split_and!]. destruct (effect_keeps s1) as [H1 H2]. destruct (effect s1) as [s2 r].
  simpl in *. rewrite H2. split_and!; [congruence|done|]. intros _. right. exists (contents st). rewrite Hc, Hall; done.
Qed.

Lemma terminate_line_spec st :
  let '(st', r) := terminate_line (contents st) st in
  st'.1 = st.1 /\ decoded (contents st') = decoded (contents st) /\ (is_ok r = true -> closed (contents st')).
Proof.
  unfold terminate_line. destruct (last (contents st)) as [b|] eqn:El.
  2: { apply last_None in El. split_and!; [done..|intros _; by left]. }
  apply last_Some in El as [g Hg]. unfold mbind at 1 2, M_bind at 1 2.
  destruct (effect_keeps st) as [H1 H2]. destruct (effect st) as [s1 [[]|e]]; simpl in *; [|by rewrite H2].
  destruct (effect_keeps s1) as [H3 H4]. destruct (effect s1) as [s2 [[]|e]]; simpl in *;
    [|split_and!; [congruence|by rewrite H4, H2|done]].
  destruct (N.eqb_spec b newline) as [->|Hb].
  - simpl. rewrite H4, H2, Hg. split_and!; [congruence|done|]. intros _. right. by exists g.
  - pose proof (append_newline_spec s2) as Ha. destruct ((_ ← append _; effect) s2) as [s3 r].
    destruct Ha as (Ha1 & Ha2 & Ha3). split_and!; [simpl; congruence|by rewrite Ha2, H4, H2|done].
Qed.

Lemma ensure_newline_tidies : tidies ensure_rollout_is_newline_terminated.
Proof.
  apply bind_tidies; [apply effect_keeps|]. intros _ st. unfold mbind, M_bind.
  pose proof (terminate_line_spec st). by destruct (terminate_line (contents st) st).
Qed.

Lemma open_log_file_tidies : tidies open_log_file.
Proof.
  apply bind_tidies; [apply effect_keeps|]. intros _. apply bind_tidies; [apply ask_keeps|]. intros plain.
  apply bind_tidies; [apply effect_keeps|]. intros _. destruct path_has_parent; simpl; [|done].
  apply bind_tidies; [apply effect_keeps|]. intros _. apply bind_tidies; [apply effect_keeps|]. intros _.
  apply bind_tidies; [apply create_keeps|]. intros _.
  apply bind_tidies; [destruct plain; [apply ret_keeps|apply effect_keeps]|]. intros _. apply ensure_newline_tidies.
Qed.

(** The state between two commands: an open file ends in a newline. *)
Definition settled (A : list RolloutItem) (st : State) : Prop :=
  Rec A (remaining st.1) (contents st) (ordinal_state st.1)
  /\ (writer st.1 = true -> closed (contents st)).

Lemma write_meta_spec A st :
  Rec A (remaining st.1) (contents st) (ordinal_state st.1) -> closed (contents st) -> writer st.1 = true ->
  let '(st', r) := write_session_meta_if_needed st in
  Rec A (remaining st'.1) (contents st') (ordinal_state st'.1)
  /\ (is_ok r = true -> closed (contents st') /\ writer st'.1 = true /\ meta st'.1 = None).
Proof.
  intros HR Hc Hw. unfold write_session_meta_if_needed, write_session_meta, mbind, M_bind, gets.
  destruct (meta st.1) as [m|] eqn:Em; [|simpl; by split].
  pose proof (ask_keeps git_info st) as [H1 H2]. destruct (ask git_info st) as [s1 [git|e]]; simpl in *;
    [|rewrite H1, H2; by split].
  rewrite H1, Hw. cbv beta iota. rewrite H1.
  destruct (current (ordinal_state st.1)) as [n|e] eqn:En; [|rewrite H1, H2; by split].
  assert (Hrem : remaining st.1 = SessionMetaItem (mkMetaLine m None) :: pending_items st.1)
    by (unfold remaining; by rewrite Em).
  rewrite Hrem in HR.
  pose proof (write_item_spec A (SessionMetaItem (mkMetaLine m None)) (SessionMetaItem (mkMetaLine m git))
                (pending_items st.1) s1 n) as H.
  rewrite H1, H2 in H. specialize (H HR eq_refl Hc En).
  destruct (write_rollout_item _ n s1) as [s2 [[]|e]]; destruct H as [Hw2 H]; simpl.
  - destruct H as [HR2 Hc2]. unfold contents in *. simpl. rewrite Hw2. simpl. by split.
  - rewrite Hw2, Hrem. by split.
Qed.

Lemma open_writer_spec A st :
  settled A st ->
  let '(st', r) := ensure_writer_open st in
  Rec A (remaining st'.1) (contents st') (ordinal_state st'.1)
  /\ (is_ok r = true -> closed (contents st') /\ writer st'.1 = true).
Proof.
  intros [HR Hc]. unfold ensure_writer_open, mbind, M_bind, gets. destruct (writer st.1) eqn:Hw; [simpl; auto|].
  destruct (open_log_file_tidies st) as (H1 & H2 & H3). destruct (open_log_file st) as [s1 [[]|e]]; simpl in *.
  - unfold contents, remaining in *. simpl. rewrite H1. split; [by eapply recorded_ext|auto].
  - rewrite H1. split; [by eapply recorded_ext|done].
Qed.

Lemma write_pending_once_spec A st :
  settled A st ->
  let '(st', r) := write_pending_once st in
  Rec A (remaining st'.1) (contents st') (ordinal_state st'.1)
  /\ (is_ok r = true -> settled A st' /\ remaining st'.1 = [] /\ writer st'.1 = true).
Proof.
  intros Hs. unfold write_pending_once, mbind, M_bind.
  pose proof (open_writer_spec A st Hs) as H. destruct (ensure_writer_open st) as [s1 [[]|e]]; destruct H as [HR1 H];
    [|by split]. destruct H as [Hc1 Hw1]; [done|].
  pose proof (write_meta_spec A s1 HR1 Hc1 Hw1) as H.
  destruct (write_session_meta_if_needed s1) as [s2 [[]|e]]; destruct H as [HR2 H]; [|by split].
  destruct H as (Hc2 & Hw2 & Hm2); [done|]. unfold write_pending_items_once. rewrite Hw2. simpl.
  assert (Hrem : remaining s2.1 = pending_items s2.1) by (unfold remaining; by rewrite Hm2). rewrite Hrem in HR2.
  pose proof (write_items_spec A (pending_items s2.1) s2 HR2 Hc2) as H.
  destruct (write_items (pending_items s2.1) s2) as [s3 [n r]]. destruct H as (Hw3 & HR3 & H3).
  assert (Hp3 : pending_items s3.1 = pending_items s2.1) by by rewrite Hw3.
  assert (Hm3 : meta s3.1 = None) by by rewrite Hw3.
  assert (Hwr : writer s3.1 = true) by by rewrite Hw3.
  rewrite Hp3. set (s4 := (set_pending (drop n (pending_items s2.1)) s3.1, s3.2)).
  assert (Hrem4 : remaining s4.1 = drop n (pending_items s2.1)) by (unfold remaining; simpl; by rewrite Hm3).
  destruct r as [[]|e]; [|split; [by rewrite Hrem4|done]].
  destruct H3 as [-> Hc3]; [done|]. unfold gets. simpl. rewrite Hwr.
  destruct (effect_keeps s4) as [H1 H2]. destruct (effect s4) as [s5 r5]. simpl in *.
  rewrite drop_all in *. unfold settled. rewrite H1, H2, Hrem4. split; [done|]. intros _. split_and!; done.
Qed.

Lemma recovery_spec A st :
  settled A st ->
  let '(st', r) := write_pending_with_recovery st in
  settled A st' /\ (is_ok r = true -> remaining st'.1 = [] /\ writer st'.1 = true).
Proof.
  intros Hs. unfold write_pending_with_recovery.
  pose proof (write_pending_once_spec A st Hs) as H. destruct (write_pending_once st) as [s1 [[]|e]]; destruct H as [HR H].
  { destruct H as ([HR1 Hc1] & Hr1 & Hw1); [done|]. unfold settled, contents, remaining in *. simpl. auto. }
  simpl. set (s2 := (set_writer false _, s1.2)).
  assert (Hs2 : settled A s2) by (split; [done|done]).
  pose proof (write_pending_once_spec A s2 Hs2) as H2. destruct (write_pending_once s2) as [s3 [[]|e3]]; destruct H2 as [HR3 H3].
  - destruct H3 as ([HR1 Hc1] & Hr1 & Hw1); [done|]. unfold settled, contents, remaining in *. simpl. auto.
  - split; [|done]. split; [|done]. done.
Qed.

Lemma flush_spec A st :
  settled A st ->
  let '(st', r) := flush st in
  settled A st' /\ (is_ok r = true -> is_deferred st'.1 = false -> remaining st'.1 = []).
Proof.
  intros Hs. unfold flush. destruct (is_deferred st.1 && is_empty (pending_items st.1)) eqn:E.
  - apply andb_true_iff in E as [-> _]. by split.
  - pose proof (recovery_spec A st Hs) as H. destruct (write_pending_with_recovery st) as [s1 r].
    destruct H as [H1 H2]. split; [done|]. intros Hr _. by apply H2.
Qed.

Lemma add_items_spec A st l : settled A st -> settled (A ++ l) (add_items l st).1.
Proof.
  intros [(ws & ds & es & []) Hc]. split; [|done]. exists ws, ds, es. split; try done; simpl.
  - unfold remaining. simpl. rewrite !app_assoc. apply Forall2_app; [|by apply Forall_Forall2_diag, Forall_true].
    unfold remaining in rec_items0. by rewrite <- app_assoc.
  - eapply Forall_impl; [done|]. intros e (i & n & Hh & Hn & Hsame). exists i, n. split; [|done].
    unfold remaining in *. simpl. by destruct (meta st.1), (pending_items st.1).
Qed.

Definition added (cmds : list RolloutCmd) : list RolloutItem :=
  cmds ≫= (fun c => match c with AddItems l => l | _ => [] end).

Lemma rollout_writer_spec cmds A st :
  settled A st ->
  let '(st', acks) := rollout_writer cmds st in
  settled (A ++ added (take (length acks) cmds)) st'
  /\ (last acks = Some (Replied (Ok tt)) -> is_deferred st'.1 = false -> remaining st'.1 = []).
Proof.
  revert A st. induction cmds as [|c cmds IH]; intros A st Hs; [simpl; by rewrite app_nil_r|].
  assert (Hgo : forall A' s ack, settled A' s ->
    (ack = Replied (Ok tt) -> is_deferred s.1 = false -> remaining s.1 = []) ->
    A' = A ++ match c with AddItems l => l | _ => [] end ->
    let '(st', acks) := (let '(st', acks) := rollout_writer cmds s in (st', ack :: acks)) in
    settled (A ++ added (take (length acks) (c :: cmds))) st'
    /\ (last acks = Some (Replied (Ok tt)) -> is_deferred st'.1 = false -> remaining st'.1 = [])).
  { intros A' s ack Hs' Hack ->. specialize (IH _ s Hs').
    assert (Hnil : (rollout_writer cmds s).2 = [] -> (rollout_writer cmds s).1 = s).
    { destruct cmds as [|d cmds']; [done|]. simpl. destruct d; repeat case_match; simplify_eq; done. }
    destruct (rollout_writer cmds s) as [st' acks]. simpl. destruct IH as [H1 H2]. split.
    - unfold added in *. simpl. by rewrite app_assoc.
    - destruct acks as [|a acks]; [|done]. simpl in *. rewrite (Hnil eq_refl). intros [= ->]. by apply Hack. }
  simpl. destruct c as [l| | | |].
  - apply (Hgo (A ++ l)); [|done|done]. unfold flush_if_materialized. destruct (is_deferred _).
    + by apply add_items_spec.
    + pose proof (flush_spec (A ++ l) (add_items l st).1 (add_items_spec A st l Hs)) as H.
      destruct (flush _) as [s1 [[]|e]]; destruct H as [H _]; [done|]. destruct H as [HR _]. by split.
  - unfold persist. pose proof (recovery_spec A st Hs) as H. destruct (write_pending_with_recovery st) as [s1 r].
    destruct H as [H1 H2]. apply (Hgo A); [done| |by rewrite app_nil_r]. intros [= ->] _. by apply H2.
  - pose proof (flush_spec A st Hs) as H. destruct (flush st) as [s1 r]. destruct H as [H1 H2].
    apply (Hgo A); [done| |by rewrite app_nil_r]. intros [= ->]. by apply H2.
  - unfold added. simpl. rewrite app_nil_r. by split.
  - unfold shutdown. pose proof (flush_spec A st Hs) as H. destruct (flush st) as [s1 [[]|e]]; destruct H as [H1 H2].
    + unfold added. simpl. rewrite app_nil_r. split; [done|]. intros _. by apply H2.
    + apply (Hgo A); [done|done|by rewrite app_nil_r].
Qed.

End Durable.

(** ** Durability and resuming *)

Section WriterTheorems.
Context {PL : Payloads} {SJ : SerdeJson} {JL : JsonLaws SJ} {RD : Reader} {SU : Surroundings}.

Lemma settled_start st :
  (writer st.1 = true -> closed (contents st)) ->
  settled (decoded (contents st)) (ordinal_state st.1) (remaining st.1) st.
Proof.
  intros Hc. split; [|done]. exists [], [], []. split; try done.
  - by rewrite !app_nil_r.
  - constructor.
Qed.

Lemma copies_member ws ds d :
  copies ws ds -> d ∈ ds -> exists j w, ws !! j = Some w /\ same_record w d.
Proof.
  induction 1 as [|ws ds x cs Hc IH Hne Hx]; [by intros ?%elem_of_nil|]. intros [Hd|Hd]%elem_of_app.
  - destruct (IH Hd) as (j & w & Hj & Hw). exists j, w. split; [|done]. by apply lookup_app_l_Some.
  - exists (length ws), x. split; [by apply list_lookup_middle|]. rewrite Forall_forall in Hx. by apply Hx.
Qed.

Lemma copies_last ws ds d :
  copies ws ds -> last ds = Some d -> exists w, last ws = Some w /\ same_record w d.
Proof.
  destruct 1 as [|ws ds x cs Hc Hne Hx]; [done|]. rewrite last_snoc, last_app.
  destruct (last cs) as [c|] eqn:E; [|by apply last_None in E]. intros [= <-]. exists x. split; [done|].
  rewrite Forall_forall in Hx. by apply Hx, last_Some_elem_of.
Qed.

Lemma numbered_lookup p ws j n i :
  numbered (OrdinalPaginated p) ws -> ws !! j = Some (n, i) -> exists a, p = Some a /\ n = Some (a + N.of_nat j)%N.
Proof.
  revert p j. induction ws as [|[m k] ws IH]; intros p j; [done|]. intros [H1 H2]. destruct p as [a|]; [|done].
  injection H1 as <-. destruct j as [|j]; simpl.
  - intros [= <- _]. exists a. split; [done|]. f_equal. lia.
  - intros Hj. destruct (IH _ j H2 Hj) as (b & Hb & ->). exists a. split; [done|]. f_equal.
    unfold checked_add in Hb. destruct (_ <=? _)%N; [|done]. injection Hb as <-. lia.
Qed.

(** The records in the file carry ordinals below the one after the last. *)
Lemma recorded_ordinals p A R f o ws ds es d :
  recorded [] (OrdinalPaginated p) A R f o ws ds es -> last (ds ++ es) = Some d ->
  exists a k, p = Some a /\ d.1 = Some k /\ forall x, x ∈ ds ++ es -> exists l, x.1 = Some l /\ (l <= k)%N.
Proof.
  intros [_ Hcop Hnum Ho _ Hes] Hlast.
  assert (Hcur : forall n (i : RolloutItem), current o = Ok n -> exists a, p = Some a /\ n = Some (a + N.of_nat (length ws))%N).
  { intros n i Hn. apply (numbered_lookup p (ws ++ [(n, i)]) (length ws) n i).
    - apply numbered_snoc; [done|]. by rewrite <- Ho.
    - by apply list_lookup_middle. }
  assert (Hds : forall x, x ∈ ds -> exists a l, p = Some a /\ x.1 = Some l /\ (l < a + N.of_nat (length ws))%N).
  { intros x Hx. destruct (copies_member ws ds x Hcop Hx) as (j & [n i] & Hj & Hs).
    destruct (numbered_lookup p ws j n i Hnum Hj) as (a & Ha & ->). exists a, (a + N.of_nat j)%N.
    split_and!; [done|by destruct Hs|]. apply lookup_lt_Some in Hj. lia. }
  assert (Hes' : forall x, x ∈ es -> exists a, p = Some a /\ x.1 = Some (a + N.of_nat (length ws))%N).
  { intros x Hx. rewrite Forall_forall in Hes. destruct (Hes x Hx) as (i & n & _ & Hn & [Hs _]).
    destruct (Hcur n i Hn) as (a & Ha & ->). by exists a. }
  rewrite last_app in Hlast. destruct (last es) as [e|] eqn:Ee.
  - injection Hlast as <-. destruct (Hes' e) as (a & Ha & Hk); [by apply last_Some_elem_of|].
    exists a, (a + N.of_nat (length ws))%N. split_and!; [done|done|]. intros x [Hx|Hx]%elem_of_app.
    + destruct (Hds x Hx) as (b & l & Hb & Hl & Hlt). exists l. split; [done|]. simplify_eq. lia.
    + destruct (Hes' x Hx) as (b & Hb & Hl). eexists. split; [done|]. simplify_eq. lia.
  - apply last_None in Ee as ->. destruct (copies_last ws ds d Hcop Hlast) as ([n i] & Hw & [Hs _]).
    rewrite last_lookup in Hw. destruct (numbered_lookup p ws _ n i Hnum Hw) as (a & Ha & ->).
    exists a, (a + N.of_nat (pred (length ws)))%N. split_and!; [done|by rewrite <- Hs|].
    intros x [Hx|Hx%elem_of_nil]%elem_of_app; [|done].
    destruct (Hds x Hx) as (b & l & Hb & Hl & Hlt). exists l. split; [done|]. simplify_eq. lia.
Qed.

(** C33: Nothing accepted is lost, reordered or misnumbered: after any commands under
    any faults, the valid records of the file are those it had and then, in the
    order of acceptance, one or more copies of each item that is no longer
    buffered (more than one only where an attempt failed after writing the line),
    carrying consecutive ordinals from the initial one, perhaps followed by
    copies of the item to be written next; and when the last command was
    acknowledged and the file is wanted, nothing is left in the buffer. *)
Theorem rollout_log_durable cmds st st' acks :
  (writer st.1 = true -> closed (contents st)) -> rollout_writer cmds st = (st', acks) ->
  exists ws ds es,
    decoded (contents st') = decoded (contents st) ++ ds ++ es
    /\ copies ws ds /\ numbered (ordinal_state st.1) ws
    /\ Forall2 same_item (remaining st.1 ++ added (take (length acks) cmds)) ((snd <$> ws) ++ remaining st'.1)
    /\ Forall (fun e => exists i, head (remaining st'.1) = Some i /\ same_item i e.2) es
    /\ (last acks = Some (Replied (Ok tt)) -> is_deferred st'.1 = false -> remaining st'.1 = [] /\ es = []).
Proof.
  intros Hc Hrun. pose proof (rollout_writer_spec _ _ cmds _ st (settled_start st Hc)) as H.
  rewrite Hrun in H. destruct H as [[(ws & ds & es & []) _] Hdone]. exists ws, ds, es.
  split_and!; [done..| |].
  - eapply Forall_impl; [done|]. intros e (i & n & Hi & _ & [_ Hs]). by exists i.
  - intros Hlast Hdef. pose proof (Hdone Hlast Hdef) as Hrem. split; [done|].
    destruct es as [|e es]; [done|]. apply Forall_cons in rec_extra0 as [(i & n & Hi & _) _].
    by rewrite Hrem in Hi.
Qed.

(** C34: A resumed session continues the numbering: whatever happened to the writer of
    a new paginated rollout, if opening its file for resuming gives a next ordinal,
    then every record in the file carries an ordinal, and all of them are below the
    next one; after the last representable ordinal there is no next one. *)
Theorem resume_never_reuses_ordinal {MC : Memchr} {BR : BufRead} cmds m wd st' acks (r : reader) next :
  MemchrLaws MC -> log wd = None -> history_mode m = Paginated ->
  rollout_writer cmds (created m wd) = (st', acks) ->
  FileReads (contents st') -> (lenN (contents st') <= usize_max)%N ->
  ordinal_state_for_rollout (S (length (records None (contents st')))) r = Some (Ok (OrdinalPaginated next)) ->
  forall n i, (n, i) ∈ decoded (contents st') ->
  exists k, n = Some k /\ forall j, next = Some j -> (k < j)%N.
Proof.
  intros Hm Hlog Hmode Hrun Hfile Hfits Hres n i Hin.
  destruct (ordinal_state_spec (contents st') Hfits r) as (res & Hr & Hcase). rewrite Hres in Hr. injection Hr as <-.
  destruct Hcase as [[e He]|Hspec]; [done|]. symmetry in Hspec. apply result_bind_Ok in Hspec as (meta & _ & Hspec).
  destruct meta as [[[] start]|]; [done| |done].
  destruct (head (valid_records (contents st'))) as [rec|] eqn:Ehd; [|done].
  unfold next_ordinal in Hspec. destruct (ordinal rec) as [k|] eqn:Ek; [|done].
  assert (next = checked_add k 1) as ->.
  { destruct (start ≫= _); [|by injection Hspec]. destruct (k <? n0)%N; [done|by injection Hspec]. }
  pose proof (rollout_writer_spec _ _ cmds _ (created m wd) (settled_start (created m wd) ltac:(done))) as H.
  rewrite Hrun in H. destruct H as [[(ws & ds & es & Hrec) _] _].
  assert (Hb : decoded (contents (created m wd)) = []) by (unfold contents; simpl; by rewrite Hlog).
  change (ordinal_state (created m wd).1) with (for_new_rollout (history_mode m) (history_base m)) in Hrec.
  rewrite Hb, Hmode in Hrec. cbn [for_new_rollout] in Hrec.
  pose proof (rec_file _ _ _ _ _ _ _ _ _ Hrec) as Hdec. simpl in Hdec.
  destruct (recorded_ordinals _ _ _ _ _ _ _ _ (ordinal rec, item rec) Hrec) as (a & k' & _ & Hk' & Hall).
  { rewrite <- Hdec. unfold decoded. rewrite fmap_last, last_reverse, Ehd. done. }
  rewrite Ek in Hk'. injection Hk' as <-. rewrite Hdec in Hin. destruct (Hall _ Hin) as (l & Hl & Hle).
  exists l. split; [done|]. intros j Hj. unfold checked_add in Hj. destruct (_ <=? _)%N; [|done].
  injection Hj as <-. lia.
Qed.

End WriterTheorems.
