(* ===== verification/RolloutRecovery.v ===== *)
(** * The rollout writer recovers, and what it wrote can be loaded

    The writer of RolloutWriter catches up after finitely many failures, and
    [load_rollout_items] returns the recorded items of a file with torn lines in
    it. The file ends with a small JSON-like encoding that satisfies the laws
    assumed of [serde_json], and runs of the writer on it. *)

From S2P Require Import Prelude RustStr RolloutScan Rollout RolloutWriter.
From Stdlib Require Import ZifyBool.

Section Recovery.
Context {PL : Payloads} {SJ : SerdeJson} {JL : JsonLaws SJ} {RD : Reader} {SU : Surroundings}.

(** There are ordinals for [k] more records. *)
Definition room (o : RolloutOrdinalState) (k : nat) : Prop :=
  match o with
  | OrdinalLegacy => True
  | OrdinalPaginated (Some n) => (n + N.of_nat k <= u64_max + 1)%N
  | OrdinalPaginated None => k = 0
  end.

Definition encodable (i : RolloutItem) : Prop :=
  forall j k n, same_item i j -> exists s, line_to_string (format_now k) n j = Ok s.

(** Nothing but faults can keep the writer from writing. *)
Record ready (st : State) : Prop := {
  ready_closed : writer st.1 = true -> closed (contents st);
  ready_items : Forall encodable (remaining st.1);
  ready_room : room (ordinal_state st.1) (length (remaining st.1));
}.

Lemma room_current o k : room o (S k) -> exists n, current o = Ok n.
Proof. destruct o as [|[n|]]; simpl; [by eexists..|done]. Qed.
Lemma room_advance o k : room o (S k) -> room (advance o) k.
Proof.
  destruct o as [|[n|]]; simpl; [done| |done]. intros H. unfold checked_add.
  destruct (N.leb_spec (n + 1) u64_max); simpl; lia.
Qed.
Lemma room_iter o j k : room o (j + k) -> room (Nat.iter j advance o) k.
Proof.
  revert o. induction j as [|j IH]; intros o H; [done|]. rewrite Nat.iter_succ_r. by apply IH, room_advance.
Qed.

Definition faults_left (st : State) : nat := length (faults st.2).

(** An operation that only fails by consuming a fault. *)
Definition spends_at {A} (c : M A) (st : State) : Prop :=
  faults_left (c st).1 <= faults_left st
  /\ (is_ok (c st).2 = false -> faults_left (c st).1 < faults_left st).

Lemma spends_bind {A B} (c : M A) (f : A -> M B) st :
  spends_at c st -> (forall a st', c st = (st', Ok a) -> spends_at (f a) st') -> spends_at (c ≫= f) st.
Proof.
  intros [H1 H2] Hf. unfold spends_at, mbind, M_bind. destruct (c st) as [st' [a|e]]; simpl in *; [|auto].
  destruct (Hf a st' eq_refl) as [H3 H4]. split; [lia|]. intros H. specialize (H4 H). lia.
Qed.
Lemma spends_effect st : spends_at effect st.
Proof. destruct st as [w [l c [|[[k e]|] fs]]]; unfold spends_at, faults_left; simpl; (split; [lia|]); intros; try done; lia. Qed.
Lemma spends_append bs st : spends_at (append bs) st.
Proof. destruct st as [w [l c [|[[k e]|] fs]]]; unfold spends_at, faults_left; simpl; (split; [lia|]); intros; try done; lia. Qed.
Lemma spends_pure {A} (c : M A) st : (c st).1.2 = st.2 -> is_ok (c st).2 = true -> spends_at c st.
Proof. intros H1 H2. unfold spends_at, faults_left. rewrite H1, H2. split; [lia|done]. Qed.
Lemma spends_ask {A} (f : nat -> A) st : spends_at (ask f) st.
Proof. destruct st as [w []]. unfold spends_at, faults_left. simpl. split; [lia|done]. Qed.
Lemma spends_create st : spends_at create st.
Proof. destruct st as [w []]. unfold spends_at, faults_left. simpl. split; [lia|done]. Qed.

(** The next operation of a sequence. *)
Ltac spend x :=
  apply spends_bind;
    [first [apply spends_effect|apply spends_ask|apply spends_append|apply spends_create|by apply spends_pure]|];
  intros x ? _.

Lemma spends_open st : path_has_parent = true -> spends_at open_log_file st.
Proof.
  intros Hp. unfold open_log_file. rewrite Hp. simpl.
  spend u1. spend plain. spend u2. spend u3. spend u4. spend u5.
  apply spends_bind; [destruct plain; [by apply spends_pure|apply spends_effect]|]. intros u6 st1 _.
  spend u7. spend bytes. unfold terminate_line. destruct (last bytes) as [b|]; [|by apply spends_pure].
  spend u8. spend u9. destruct (b =? newline)%N; [by apply spends_pure|]. spend u10. apply spends_effect.
Qed.

Lemma spends_write i n st : (forall k, exists s, line_to_string (format_now k) n i = Ok s) -> spends_at (write_rollout_item i n) st.
Proof.
  intros Henc. unfold write_rollout_item. apply spends_bind; [apply spends_effect|]. intros _ s1 _.
  apply spends_bind; [apply spends_ask|]. intros t st1 Ht. destruct s1 as [w [l k fs]]. injection Ht as _ <-.
  destruct (Henc k) as [s Hs].
  apply spends_bind; [apply spends_pure; unfold lift; rewrite Hs; done|intros json st3 _].
  spend u2. apply spends_effect.
Qed.

Lemma write_keeps_writer i n st : (write_rollout_item i n st).1.1 = st.1.
Proof.
  unfold write_rollout_item, mbind, M_bind.
  destruct (effect_keeps st) as [H1 _]. destruct (effect st) as [s1 [[]|e]]; [|done]. simpl in H1.
  destruct (ask_keeps format_now s1) as [H2 _]. destruct (ask format_now s1) as [s2 [t|e]]; simpl in *; [|congruence].
  unfold lift. destruct (map_err Json _) as [json|e]; [|simpl; congruence].
  pose proof (append_spec (as_bytes json ++ [newline]) s2) as Ha.
  destruct (append _ s2) as [s3 [[]|e]]; destruct Ha as [H3 _]; [|simpl; congruence].
  destruct (effect_keeps s3) as [H4 _]. destruct (effect s3) as [s4 r]. simpl in *. congruence.
Qed.

Lemma spends_items items st :
  Forall encodable items -> room (ordinal_state st.1) (length items) ->
  let '(st', (_, r)) := write_items items st in
  faults_left st' <= faults_left st /\ (is_ok r = false -> faults_left st' < faults_left st).
Proof.
  intros Hi. revert st. induction Hi as [|i items He Hi IH]; intros st Hr; simpl; [split; [lia|done]|].
  simpl in Hr. destruct (room_current _ _ Hr) as [n Hn]. rewrite Hn.
  destruct (spends_write i n st) as [H1 H2]; [intros t; apply He; by destruct i|].
  pose proof (write_keeps_writer i n st) as Hw.
  destruct (write_rollout_item i n st) as [s1 [[]|e]]; simpl in *; [|auto].
  specialize (IH (set_ordinal (advance (ordinal_state s1.1)) s1.1, s1.2)).
  destruct (write_items items _) as [s2 [m r]]. destruct IH as [H3 H4]; [simpl; rewrite Hw; by apply room_advance|].
  unfold faults_left in *. simpl in *. split; [lia|]. intros H. specialize (H4 H). lia.
Qed.

Lemma spends_meta st :
  writer st.1 = true -> Forall encodable (remaining st.1) -> room (ordinal_state st.1) (length (remaining st.1)) ->
  spends_at write_session_meta_if_needed st
  /\ (is_ok (write_session_meta_if_needed st).2 = true ->
      let st' := (write_session_meta_if_needed st).1 in
      pending_items st'.1 = pending_items st.1 /\ writer st'.1 = true
      /\ room (ordinal_state st'.1) (length (pending_items st.1))).
Proof.
  intros Hw He Hr. unfold write_session_meta_if_needed, write_session_meta. unfold remaining in He, Hr.
  destruct (meta st.1) as [m|] eqn:Em.
  2: { unfold spends_at, mbind, M_bind, gets, faults_left. rewrite Em. simpl. split; [split; [lia|done]|done]. }
  simpl in He, Hr. apply Forall_cons in He as [He _]. destruct (room_current _ _ Hr) as [n Hn].
  unfold spends_at, mbind, M_bind, gets, faults_left. rewrite Em. simpl. destruct st as [w [l c fs]]. simpl in *.
  rewrite Hw. simpl. rewrite Hn. simpl.
  set (s1 := (w, mkWorld l (S c) fs)). set (i := SessionMetaItem (mkMetaLine m (git_info c))).
  destruct (spends_write i n s1) as [H1 H2]; [intros t; by apply He|].
  pose proof (write_keeps_writer i n s1) as Hk.
  destruct (write_rollout_item i n s1) as [s2 [[]|e]]; unfold faults_left in *; simpl in *.
  - split; [by split|]. intros _. rewrite Hk. simpl. split_and!; [done|done|by apply room_advance].
  - split; [|done]. split; [done|]. intros _. by apply H2.
Qed.

Lemma spends_once st : path_has_parent = true -> ready st -> spends_at write_pending_once st.
Proof.
  intros Hp [Hc He Hr]. unfold write_pending_once.
  assert (Hopen : spends_at ensure_writer_open st
    /\ forall st', ensure_writer_open st = (st', Ok tt) ->
       writer st'.1 = true /\ remaining st'.1 = remaining st.1 /\ ordinal_state st'.1 = ordinal_state st.1).
  { unfold ensure_writer_open, spends_at, mbind, M_bind, gets, faults_left. destruct (writer st.1) eqn:Hw.
    - simpl. split; [split; [lia|done]|]. by intros ? [= <-].
    - destruct (spends_open st Hp) as [H1 H2]. destruct (open_log_file_tidies st) as (H3 & _).
      destruct (open_log_file st) as [s1 [[]|e]]; unfold faults_left in *; simpl in *.
      + split; [split; [done|done]|]. intros ? [= <-]. simpl. unfold remaining. simpl. by rewrite H3.
      + split; [split; [done|auto]|done]. }
  destruct Hopen as [Hopen Hst]. apply spends_bind; [done|]. intros [] s1 Hs1. destruct (Hst s1 Hs1) as (Hw1 & Hr1 & Ho1).
  destruct (spends_meta s1) as [Hm1 Hm2]; [done|by rewrite Hr1|by rewrite Ho1, Hr1|].
  apply spends_bind; [done|]. intros [] s2 Hs2. rewrite Hs2 in Hm2. destruct Hm2 as (Hp2 & Hw2 & Hroom2); [done|].
  simpl in *. apply spends_bind.
  - unfold spends_at, write_pending_items_once. rewrite Hw2. simpl.
    assert (Hi : Forall encodable (pending_items s2.1)).
    { rewrite Hp2. rewrite <- Hr1 in He. unfold remaining in He. by apply Forall_app in He as [_ He]. }
    pose proof (spends_items (pending_items s2.1) s2 Hi) as H. rewrite Hp2 in H at 1. specialize (H Hroom2).
    destruct (write_items _ s2) as [s3 [k r]]. unfold faults_left in *. simpl. done.
  - intros [] s3 _. apply spends_bind; [by apply spends_pure|]. intros b s4 _.
    destruct b; [apply spends_effect|by apply spends_pure].
Qed.

Lemma ready_recorded st st' :
  ready st ->
  Recorded (decoded (contents st)) (ordinal_state st.1) (remaining st.1) (remaining st'.1) (contents st') (ordinal_state st'.1) ->
  (writer st'.1 = true -> closed (contents st')) -> ready st'.
Proof.
  intros [Hc He Hr] (ws & ds & es & [_ _ _ Ho Hit _]) Hc'. split; [done| |].
  - apply Forall2_app_inv_r in Hit as (A1 & A2 & _ & H2 & HA). rewrite HA in He.
    apply Forall_app in He as [_ He]. clear -He H2. induction H2 as [|i j A2 R Hij _ IH]; [constructor|].
    apply Forall_cons in He as [Hi He]. constructor; [|by apply IH]. intros k t n Hjk. apply Hi. by etransitivity.
  - rewrite Ho. apply room_iter. apply Forall2_length in Hit.
    rewrite length_app, length_fmap in Hit. by rewrite <- Hit.
Qed.

Lemma persist_progress st :
  path_has_parent = true -> ready st ->
  let '(st', r) := persist st in
  ready st' /\ (is_ok r = true -> remaining st'.1 = [])
  /\ (is_ok r = false -> faults_left st' < faults_left st).
Proof.
  intros Hp Hst. pose proof (settled_start st (ready_closed st Hst)) as Hs.
  pose proof (recovery_spec _ _ _ st Hs) as H. unfold persist.
  assert (Hf : is_ok (write_pending_with_recovery st).2 = false ->
               faults_left (write_pending_with_recovery st).1 < faults_left st).
  { unfold write_pending_with_recovery.
    pose proof (write_pending_once_spec _ _ _ st Hs) as H1. destruct (spends_once st Hp Hst) as [_ H2].
    destruct (write_pending_once st) as [s1 [[]|e]]; [done|]. destruct H1 as [HR1 _]. specialize (H2 eq_refl).
    simpl. set (s2 := (set_writer false _, s1.2)).
    assert (Hs2 : ready s2) by (apply (ready_recorded st); done).
    destruct (spends_once s2 Hp Hs2) as [H3 _]. unfold faults_left in *. simpl in *.
    destruct (write_pending_once s2) as [s3 [[]|e3]]; simpl in *; [done|]. intros _. lia. }
  destruct (write_pending_with_recovery st) as [st' r]. destruct H as [[HR Hc] Hok].
  split_and!; [by apply (ready_recorded st)|intros Hr; by apply Hok|done].
Qed.

(** C35: The writer catches up: from any state whose items can be encoded and numbered,
    asking often enough to persist succeeds after at most as many failures as there
    are faults to come, and then nothing is left to be written. *)
Theorem writer_catches_up st :
  path_has_parent = true -> ready st ->
  exists k, k <= faults_left st /\
    let '(st', acks) := rollout_writer (replicate (S k) Persist) st in
    last acks = Some (Replied (Ok tt)) /\ remaining st'.1 = [].
Proof.
  intros Hp. remember (faults_left st) as n eqn:Hn. assert (Hle : faults_left st <= n) by lia. clear Hn.
  revert st Hle. induction n as [n IH] using lt_wf_ind. intros st Hle Hst.
  pose proof (persist_progress st Hp Hst) as H. destruct (persist st) as [s1 r] eqn:E.
  destruct H as (H1 & H2 & H3). destruct r as [[]|e].
  - exists 0. split; [lia|]. simpl. rewrite E. split; [done|by apply H2].
  - specialize (H3 eq_refl). destruct (IH (faults_left s1) ltac:(lia) s1 (le_n _) H1) as (k & Hk & Hrun).
    exists (S k). split; [lia|]. change (replicate (S (S k)) Persist) with (Persist :: replicate (S k) Persist).
    cbn [rollout_writer]. rewrite E. destruct (rollout_writer (replicate (S k) Persist) s1) as [st' acks].
    destruct Hrun as [Hl Hr]. split; [|done]. by destruct acks.
Qed.

End Recovery.

(** ** Loading *)

(** What loading relies on in the encoding: text that is not taken for blank, for
    a legacy snapshot or for an unknown history mode. *)
Class LoadLaws {PL : Payloads} (SJ : SerdeJson) {RD : Reader} : Prop := {
  encoded_valid t o i s : line_to_string t o i = Ok s -> valid_str s;
  encoded_framed t o i s : line_to_string t o i = Ok s -> line_ok s /\ is_empty (trim s) = false;
  encoded_current t o i s v :
    line_to_string t o i = Ok s -> from_str s = Ok v ->
    strip_legacy_ghost_snapshot_rollout_line v = (false, v) /\ reject_unknown_thread_history_mode v = Ok tt;
}.

Section Loading.
Context {PL : Payloads} {SJ : SerdeJson} {JL : JsonLaws SJ} {RD : Reader} {LL : LoadLaws SJ} {BR : BufRead}.

(** A line of the file: a recorded item, or text left by a torn write. *)
Inductive line_of : option RolloutItem -> str -> Prop :=
| line_item t o i s : line_to_string t o i = Ok s -> line_of (Some i) s
| line_torn s e :
    valid_str s -> line_ok s -> newline ∉ as_bytes s -> is_empty (trim s) = false -> from_str s = Err e ->
    line_of None s.

Definition first_thread (l : list RolloutItem) : option ThreadId :=
  head (omap (fun i => match i with SessionMetaItem l => Some (meta_id (line_meta l)) | _ => None end) l).
Definition torn (es : list (option RolloutItem)) : N :=
  lenN (List.filter (fun e => match e with None => true | Some _ => false end) es).

Lemma buf_lines_of es ss :
  Forall2 line_of es ss -> buf_lines (concat ((fun s => as_bytes s ++ [newline]) <$> ss)) None = Ok <$> ss.
Proof.
  unfold buf_lines. induction 1 as [|e s es ss Hs _ IH]; [done|]. cbn [fmap list_fmap concat].
  assert (H : valid_str s /\ line_ok s /\ newline ∉ as_bytes s).
  { destruct Hs as [t o i s Hs|s e Hv Hl Hn _ _]; [|done].
    split_and!; [by apply (encoded_valid _ _ _ _ Hs)|by apply (encoded_framed _ _ _ _ Hs)|by apply (encoded_line _ _ _ _ Hs)]. }
  destruct H as (Hv & Hl & Hn). rewrite <- app_assoc. simpl. rewrite split_inclusive_line by done.
  cbn [fmap list_fmap]. rewrite IH. f_equal.
  rewrite (proj2 (from_utf8_Ok (as_bytes s ++ [newline]) (s ++ [newline]))); [by rewrite chomp_line|].
  split; [apply Forall_app; split; [done|by repeat constructor]|]. by rewrite as_bytes_app.
Qed.

Lemma load_lines_of es ss acc :
  Forall2 line_of es ss -> (parse_errors acc + lenN es <= usize_max)%N ->
  load_lines acc (Ok <$> ss)
  = Ok (mkLoaded (items acc ++ omap id es)
          (match thread_id acc with Some t => Some t | None => first_thread (omap id es) end)
          (parse_errors acc + torn es) (saw_non_empty_line acc || negb (is_empty es))).
Proof.
  intros H. revert acc. induction H as [|e s es ss Hs _ IH]; intros acc Hb.
  { destruct acc as [its [t|] n b]; simpl; unfold torn; by rewrite app_nil_r, N.add_0_r, orb_false_r. }
  rewrite lenN_cons in Hb. cbn [fmap list_fmap load_lines].
  destruct Hs as [t o i s Hs|s e Hv Hl Hn Ht He]; unfold load_line.
  - destruct (encoded_framed _ _ _ _ Hs) as [_ Htrim]. rewrite Htrim.
    pose proof (encoded_decodes _ _ _ _ Hs) as Hd. unfold parse_rollout_line_bytes in Hd.
    apply result_bind_Ok in Hd as (v & Hv & Hd). fold (from_str s) in Hv. rewrite Hv.
    destruct (encoded_current _ _ _ _ _ Hs Hv) as [-> Hrej]. rewrite Hd, Hrej.
    assert (Hif : forall b : bool, (if b then Ok tt else Ok tt) = Ok (E := RolloutError) tt) by by intros [].
    rewrite Hif. unfold mbind, result_bind. rewrite IH by (simpl; lia). simpl. f_equal. f_equal.
    + by rewrite <- app_assoc.
    + unfold first_thread. by destruct (thread_id acc), i.
    + by rewrite orb_true_r.
  - rewrite Ht, He. unfold mbind, result_bind. rewrite saturating_add_fits by lia.
    rewrite IH by (simpl; lia). simpl. f_equal. f_equal; [unfold torn; simpl; rewrite lenN_cons; lia|by rewrite orb_true_r].
Qed.

(** Loading returns what was recorded: for a file whose lines are encoded items
    and lines torn by a failed write, [load_rollout_items] returns the items in
    order, the thread of the first session metadata and the number of torn lines. *)
Theorem load_recorded_items es ss :
  Forall2 line_of es ss -> es <> [] -> (lenN es <= usize_max)%N ->
  load_rollout_items (buf_lines (concat ((fun s => as_bytes s ++ [newline]) <$> ss)) None)
  = Ok (omap id es, first_thread (omap id es), torn es).
Proof.
  intros H Hne Hb. unfold load_rollout_items. rewrite (buf_lines_of es ss H), (load_lines_of es ss) by done.
  simpl. destruct es; [done|]. done.
Qed.

End Loading.

(** ** A small encoding

    Items with a number in unary, closed by a character of two bytes and a brace;
    it satisfies the laws and lets the writer run. *)
Module UnaryJson.

#[export] Instance payloads : Payloads := {
  ThreadId := N; GitInfo := unit; SessionMetaRest := unit; ResponseItemEnvelope := unit;
  InterAgentCommunication := unit; CompactedItem := unit; TurnContextItem := unit; TokenUsage := unit;
  WorldStateItem := unit; SecurityRisk := unit; RetainedContextEvent := unit; Event := N; Realtime := unit;
}.

Definition unary (n : N) : str := replicate (N.to_nat n) 110%N.

(** [{], the ordinal, [;], the item, [é}] *)
Definition ordinal_text (o : option N) : str := match o with Some n => unary n | None => lit "-" end.
Definition item_text (i : RolloutItem) : option str :=
  match i with
  | EventMsg n => Some (lit "e" ++ unary n)
  | SessionMetaItem (mkMetaLine (mkMeta id mode None None tt) git) =>
      Some ([109; (match mode with Legacy => 108 | Paginated => 112 end)%N;
             (match git with Some _ => 103 | None => 45 end)%N]%N ++ unary id)
  | _ => None
  end.
Definition closing : str := [233; 125]%N.

Definition encode (t : str) (o : option N) (i : RolloutItem) : result str str :=
  match t, item_text i with
  | [], Some text => Ok (123%N :: (ordinal_text o ++ 59%N :: text) ++ closing)
  | _, _ => Err (lit "unsupported")
  end.

Definition decode_item (v : Value) : result str RolloutItem :=
  match get (lit "item") v with
  | Some (String_ (101%N :: n)) => Ok (EventMsg (lenN n))
  | Some (String_ (109%N :: mode :: git :: id)) =>
      Ok (SessionMetaItem (mkMetaLine
            (mkMeta (lenN id) (if (mode =? 112)%N then Paginated else Legacy) None None tt)
            (if (git =? 103)%N then Some tt else None)))
  | _ => Err (lit "unknown item")
  end.

Definition decode (bytes : list N) : result str Value :=
  match from_utf8 bytes with
  | Ok (c :: rest) =>
      match (if (c =? 123)%N then strip_suffix closing rest else None) with
      | Some body =>
          match split_once 59%N body with
          | Some (o, i) =>
              Ok (Object ((lit "timestamp", String_ [])
                          :: (if str_eqb o (lit "-") then [] else [(lit "ordinal", Number o)])
                          ++ [(lit "item", String_ i)]))
          | None => Err (lit "expected ;")
          end
      | None => Err (lit "unexpected end")
      end
  | _ => Err (lit "expected {")
  end.

#[export] Instance unary_json : SerdeJson := {
  JsonError := str;
  custom s := s;
  missing_field s := s;
  from_slice := decode;
  string_from_value v := match v with String_ s => Ok s | _ => Err (lit "expected a string") end;
  ordinal_from_value v := match v with Number n => Ok (Some (lenN n)) | Null => Ok None | _ => Err (lit "expected u64") end;
  history_mode_from_value v := Err (lit "unused");
  item_from_value := decode_item;
  line_to_string := encode;
}.

(** The characters before the closing brace. *)
Definition body_chars : list N := [123; 59; 45; 110; 101; 109; 108; 112; 103; 233]%N.

Lemma unary_chars n : Forall (fun c => c ∈ body_chars) (unary n).
Proof. apply Forall_forall. intros c ->%elem_of_replicate_inv. set_solver. Qed.
Lemma lenN_unary n : lenN (unary n) = n.
Proof. unfold lenN, unary. rewrite length_replicate. lia. Qed.

Lemma ordinal_chars o : Forall (fun c => c ∈ body_chars) (ordinal_text o).
Proof. destruct o as [n|]; [apply unary_chars|]. repeat constructor; set_solver. Qed.
Lemma item_chars i text : item_text i = Some text -> Forall (fun c => c ∈ body_chars) text.
Proof.
  destruct i as [[[id mode [] [] []] git]| | | | | | | | | |n|]; try done; simpl; intros [= <-];
    repeat (apply Forall_cons; split); try apply unary_chars; try (destruct mode, git; set_solver); set_solver.
Qed.

(** The shape of an encoded line. *)
Lemma encode_shape t o i s :
  encode t o i = Ok s ->
  exists text, t = [] /\ item_text i = Some text /\ s = 123%N :: (ordinal_text o ++ 59%N :: text) ++ closing
    /\ exists x, s = x ++ [125%N] /\ Forall (fun c => c ∈ body_chars) x.
Proof.
  unfold encode. destruct t; [|done]. destruct (item_text i) as [text|] eqn:E; [|done]. intros [= <-].
  exists text. split_and!; [done..|]. exists (123%N :: (ordinal_text o ++ 59%N :: text) ++ [233%N]). split.
  - unfold closing. simpl. by rewrite <- !app_assoc.
  - apply Forall_cons. split; [set_solver|]. apply Forall_app. split; [|apply Forall_singleton; set_solver].
    apply Forall_app. split; [apply ordinal_chars|]. apply Forall_cons. split; [set_solver|by eapply item_chars].
Qed.

Lemma body_bytes x : Forall (fun c => c ∈ body_chars) x -> (newline ∉ as_bytes x) /\ (125%N ∉ as_bytes x) /\ valid_str x.
Proof.
  induction 1 as [|c x Hc _ (H1 & H2 & H3)]; [split_and!; [set_solver..|constructor]|].
  rewrite as_bytes_cons, !not_elem_of_app.
  assert ((newline ∉ encode_char c) /\ (125%N ∉ encode_char c) /\ valid_str [c]) as (Hn & Hb & Hv).
  { unfold body_chars in Hc. repeat (apply elem_of_cons in Hc as [->|Hc]; [split_and!; [vm_compute; set_solver..|by repeat constructor]|]).
    set_solver. }
  split_and!; try done. inversion Hv. by constructor.
Qed.

Lemma encode_valid t o i s : encode t o i = Ok s -> valid_str s.
Proof.
  intros (text & _ & _ & _ & x & -> & Hx)%encode_shape. apply Forall_app. split; [|by repeat constructor].
  by apply body_bytes.
Qed.

Lemma split_ordinal o text : split_once 59%N (ordinal_text o ++ 59%N :: text) = Some (ordinal_text o, text).
Proof.
  apply split_once_Some. split; [done|]. destruct o as [n|]; [|set_solver].
  intros H%elem_of_replicate_inv. done.
Qed.

Lemma decode_encode t o i s :
  encode t o i = Ok s -> exists text, item_text i = Some text /\
    decode (as_bytes s) = Ok (Object ((lit "timestamp", String_ [])
      :: (if str_eqb (ordinal_text o) (lit "-") then [] else [(lit "ordinal", Number (ordinal_text o))])
      ++ [(lit "item", String_ text)])).
Proof.
  intros H. pose proof (encode_valid _ _ _ _ H) as Hv. apply encode_shape in H as (text & _ & Hi & Hs & _).
  exists text. split; [done|]. unfold decode. rewrite (proj2 (from_utf8_Ok (as_bytes s) s)) by done.
  rewrite Hs, N.eqb_refl, strip_suffix_app. cbv iota beta. by rewrite split_ordinal.
Qed.

Lemma decode_item_text i text : item_text i = Some text -> decode_item (Object [(lit "item", String_ text)]) = Ok i.
Proof.
  destruct i as [[[id mode [] [] []] git]| | | | | | | | | |n|]; try done; simpl; intros [= <-];
    unfold decode_item; simpl; rewrite lenN_unary; [|done]. by destruct mode, git as [[]|].
Qed.

#[export] Instance unary_laws : JsonLaws unary_json.
Proof.
  split; simpl.
  - intros t o i s (text & _ & _ & _ & x & -> & Hx)%encode_shape. rewrite as_bytes_app, not_elem_of_app.
    split; [by apply body_bytes|vm_compute; set_solver].
  - intros t o i s (text & _ & _ & -> & _)%encode_shape. done.
  - intros t o i s H. pose proof (encode_shape _ _ _ _ H) as (_ & -> & _).
    apply decode_encode in H as (text & Hi & Hd). unfold parse_rollout_line_bytes. simpl. rewrite Hd.
    unfold mbind, result_bind. apply decode_item_text in Hi.
    destruct o as [n|]; simpl in *.
    + destruct (str_eqb (unary n) (lit "-")) eqn:E.
      { apply str_eqb_eq in E. unfold unary in E. by destruct (N.to_nat n) as [|[|]]. }
      simpl. rewrite lenN_unary. simpl in Hi. by rewrite Hi.
    + simpl in Hi. by rewrite Hi.
  - intros t o i s p (text & _ & _ & _ & x & -> & Hx)%encode_shape Hp Hne. rewrite as_bytes_app in Hp, Hne.
    destruct (body_bytes x Hx) as (_ & Hb & _).
    assert (Hnb : 125%N ∉ p).
    { intros Hin. destruct Hp as [q Hq]. change (as_bytes [125%N]) with [125%N] in *.
      destruct q as [|c q _] using rev_ind; [by rewrite app_nil_r in Hq|].
      rewrite app_assoc in Hq. apply app_inj_tail in Hq as [Hq _]. rewrite Hq in Hb. set_solver. }
    unfold decode. destruct (from_utf8 p) as [[|c rest]|e] eqn:E; [by eexists| |by eexists].
    destruct (N.eqb_spec c 123) as [->|Hc]; [|by eexists].
    destruct (strip_suffix closing rest) as [body|] eqn:Es; [exfalso|by eexists].
    apply strip_suffix_Some in Es as ->. apply from_utf8_Ok in E as [_ <-]. apply Hnb.
    unfold closing. rewrite as_bytes_cons, as_bytes_app, !elem_of_app. do 2 right. vm_compute. set_solver.
Qed.

#[export] Instance unary_load_laws `{RD : Reader} : LoadLaws unary_json.
Proof.
  split; simpl.
  - apply encode_valid.
  - intros t o i s (text & _ & _ & Hs & x & Hx & Hb)%encode_shape. split.
    + rewrite Hx. split; [|apply strip_suffix_None; intros u [_ [=]]%app_inj_tail].
      rewrite not_elem_of_app. split; [|set_solver]. intros Hin. rewrite Forall_forall in Hb. specialize (Hb _ Hin).
      vm_compute in Hb. set_solver.
    + by rewrite Hs, trim_nonspace.
  - intros t o i s v H Hv. apply decode_encode in H as (text & _ & Hd). unfold from_str in Hv. simpl in Hv.
    rewrite Hd in Hv. injection Hv as <-. unfold strip_legacy_ghost_snapshot_rollout_line,
      reject_unknown_thread_history_mode, type_is. simpl. by destruct (str_eqb (ordinal_text o) (lit "-")).
Qed.

End UnaryJson.

Module RolloutExamples.
Import MemoryFile UnaryJson.

(** Evaluation in the kernel's virtual machine, without normalising the goal. *)
Ltac by_evaluation := match goal with |- ?x = ?y => vm_cast_no_check (eq_refl y) end.

#[export] Instance surroundings : Surroundings := {
  format_now _ := [];
  git_info n := if Nat.even n then Some tt else None;
  plain_exists _ := false;
  path_has_parent := true;
}.

(** The bytes from the position to the end of the file. *)
#[export] Instance file_buf_read data : @BufRead (file_reader data) :=
  @Build_BufRead (file_reader data) (fun o => (lenN data, (dropN o data, None)))
    (lit "stream did not contain valid UTF-8").

#[export] Instance file_reads_all data : @FileReads (file_reader data) (file_buf_read data) data.
Proof.
  split; simpl.
  - apply file_reads.
  - by intros r r' n [= _ <-].
  - by intros r r1 u r2 bytes failure [= <- _] [= _ <- <-].
Qed.

Definition session : SessionMeta := mkMeta 3%N Paginated None None tt.

(** A new session with two items that is then persisted, in a world with faults. *)
Definition commands : list RolloutCmd := [AddItems [EventMsg 2%N; EventMsg 1%N]; Persist].
Definition start data (fs : list (option (N * str))) : State (RD := file_reader data) :=
  created (RD := file_reader data) session (mkWorld (RD := file_reader data) None 0 fs).
Definition run data fs := rollout_writer (RD := file_reader data) commands (start data fs).

(** The write of the first item fails after four bytes. *)
Definition torn_item : list (option (N * str)) := replicate 10 None ++ [Some (4%N, lit "disk full")].
Definition torn_file : list N := Eval vm_compute in contents (run [] torn_item).1.

Lemma rollout_log_durable_witness :
  exists ws ds, decoded torn_file = ds /\ copies ws ds /\ length ws = 3.
Proof.
  destruct (@rollout_log_durable _ _ _ (file_reader []) _ commands (start [] torn_item)
              (run [] torn_item).1 (run [] torn_item).2) as (ws & ds & es & Hd & Hc & _ & Hi & _ & He).
  - done.
  - apply surjective_pairing.
  - destruct He as [Hr ->]; [by_evaluation..|]. exists ws, ds. rewrite app_nil_r in Hd. split_and!.
    + transitivity (decoded (contents (run [] torn_item).1)); [by_evaluation|exact Hd].
    + exact Hc.
    + rewrite Hr, app_nil_r in Hi. apply Forall2_length in Hi. rewrite length_fmap in Hi. rewrite <- Hi.
      by_evaluation.
Defined.

Lemma resume_never_reuses_ordinal_witness :
  Forall (fun record => exists k, record.1 = Some k /\ (k < 3)%N) (decoded torn_file).
Proof.
  apply Forall_forall. intros [n i] Hin.
  assert (Hfile : contents (run torn_file torn_item).1 = torn_file) by by_evaluation.
  destruct (@resume_never_reuses_ordinal _ _ _ (file_reader torn_file) _ last_occurrence (file_buf_read torn_file)
              commands session (mkWorld (RD := file_reader torn_file) None 0 torn_item)
              (run torn_file torn_item).1 (run torn_file torn_item).2 0%N (Some 3%N)) with (n := n) (i := i)
    as (k & Hk & Hlt).
  - apply _.
  - done.
  - done.
  - apply surjective_pairing.
  - rewrite Hfile. apply _.
  - rewrite Hfile. by vm_compute.
  - by_evaluation.
  - by rewrite Hfile.
  - exists k. split; [done|by apply Hlt].
Defined.

Lemma ordinal_state_exact_witness :
  exists r, @ordinal_state_for_rollout _ _ (file_reader torn_file) last_occurrence (file_buf_read torn_file) 5 0%N = Some r
    /\ ((exists e, r = Err (Io e)) \/ r = Ok (OrdinalPaginated (Some 3%N))).
Proof.
  destruct (@ordinal_state_exact _ _ (file_reader torn_file) last_occurrence (file_buf_read torn_file) _
              torn_file _ ltac:(by vm_compute) 0%N) as (r & H1 & H2).
  exists r. split; [exact H1|]. destruct H2 as [H2|H2]; [by left|right]. rewrite H2. by_evaluation.
Defined.

Lemma writer_catches_up_witness :
  exists k, k <= 11 /\ remaining (rollout_writer (RD := file_reader []) (replicate (S k) Persist) (start [] torn_item)).1.1 = [].
Proof.
  destruct (@writer_catches_up _ _ _ (file_reader []) _ (start [] torn_item)) as (k & Hk & Hrun).
  - done.
  - split; [done| |by vm_compute]. apply Forall_singleton. intros [[m git]| | | | | | | | | | |] k n H; try done. simpl in H. subst m. by eexists.
  - exists k. split; [exact Hk|]. destruct (rollout_writer _ _) as [st acks]. by destruct Hrun.
Defined.

(** The lines of that file: the second one is torn. *)
Definition torn_entries : list (option RolloutItem) :=
  [Some (SessionMetaItem (mkMetaLine session None)); None; Some (EventMsg 2%N); Some (EventMsg 1%N)].
Definition torn_lines : list str :=
  [lit "{;mp-nnn" ++ closing; lit "{n;e"; lit "{n;enn" ++ closing; lit "{nn;en" ++ closing].

Lemma torn_line_of : Forall2 line_of torn_entries torn_lines.
Proof.
  repeat constructor; [by apply (line_item [] (Some 0%N))| |by apply (line_item [] (Some 1%N))|by apply (line_item [] (Some 2%N))].
  eapply line_torn; [by repeat constructor|split; [vm_compute; set_solver|done]
    |vm_compute; set_solver|done|reflexivity].
Qed.

Lemma load_recorded_items_witness :
  load_rollout_items (RD := file_reader []) (buf_lines (RD := file_reader []) torn_file None)
  = Ok (omap id torn_entries, Some 3%N, 1%N).
Proof.
  apply (load_recorded_items (RD := file_reader []) torn_entries torn_lines).
  - apply torn_line_of.
  - done.
  - by vm_compute.
Defined.

(** A write of the session metadata that fails half way is repeated on the next
    line, and the persist is acknowledged; but resuming looks at the first line
    only, and refuses the file from then on. *)
Definition torn_meta : list (option (N * str)) := replicate 7 None ++ [Some (3%N, lit "disk full")].
Definition torn_meta_file : list N := Eval vm_compute in contents (run [] torn_meta).1.
Example torn_first_record_blocks_resume :
  last (run [] torn_meta).2 = Some (Replied (Ok tt))
  /\ length (decoded torn_meta_file) = 3
  /\ ordinal_state_for_rollout (RD := file_reader torn_meta_file) 9 0%N
     = Some (Err (FirstRecord (RD := file_reader torn_meta_file) (lit "unexpected end"))).
Proof. split_and!; by_evaluation. Qed.

(** A write that is cut inside a character leaves a line that is not UTF-8, and
    loading the file fails at it although every item is recorded behind it. *)
Definition torn_character : list (option (N * str)) := replicate 10 None ++ [Some (7%N, lit "disk full")].
Definition torn_character_file : list N := Eval vm_compute in contents (run [] torn_character).1.
Example torn_character_blocks_loading :
  last (run [] torn_character).2 = Some (Replied (Ok tt))
  /\ length (decoded torn_character_file) = 3
  /\ load_rollout_items (RD := file_reader []) (buf_lines (RD := file_reader []) torn_character_file None)
     = Err (Io (RD := file_reader []) (lit "stream did not contain valid UTF-8")).
Proof. split_and!; by_evaluation. Qed.

End RolloutExamples.
