(* ===== verification/ResponseItems.v ===== *)
(** * The items of a conversation

    The data of protocol/src/models.rs a conversation is made of: messages and
    their content, calls of tools and their outputs; the annotated content of
    context-fragments/src/annotated_content.rs, which keeps the classification
    of each piece of a message beside it; and the notices that stand for media a
    model does not support. *)

From S2P Require Import Prelude RustStr.

(** Parts no operation here looks into, and the [uuid] crate: [uuid_v5] is the
    name-based UUID, as text, in the namespace of synthetic outputs. *)
Class ItemPayloads := {
  JsonValue : Type;
  JsonNumber : Type;
  ExecutedToolCall : Type;
  CodexHarnessMetadata : Type;
  WebSearchAction : Type;
  ReasoningEffort : Type;
  uuid_v5 : str -> str;
}.

Section Items.
Context {IP : ItemPayloads}.

(** [ResponseItemId], a transparent wrapper of a string *)
Abbreviation ResponseItemId := str.
(** [ResponseItemId::with_suffix] *)
Definition with_suffix (prefix suffix : str) : ResponseItemId := prefix ++ lit "_" ++ suffix.

Inductive ImageReference := Inline (image_url : str) | ImageFile (file_id : str).
Inductive ImageDetail := Auto | Low | High | Original.
Inductive MessagePhase := Commentary | PartialAnswer | FinalAnswer.

Inductive ContentItem :=
| InputText (text : str)
| InputImage (image : ImageReference) (detail : option ImageDetail)
| InputAudio (audio_url : str)
| OutputText (text : str).

(** [ContentItemKind], a transparent wrapper of a string *)
Abbreviation ContentItemKind := str.

Record InternalChatMessageMetadataPassthrough := mkPassthrough {
  turn_id : option str;
  create_time : option JsonNumber;
  content_item_kinds : option (list ContentItemKind);
  cell_id : option str;
  executed_tool_calls : option (list ExecutedToolCall);
  tool_calls_complete : option bool;
}.
(** [InternalChatMessageMetadataPassthrough::default] *)
Definition default_passthrough : InternalChatMessageMetadataPassthrough :=
  mkPassthrough None None None None None None.
Definition with_kinds (m : InternalChatMessageMetadataPassthrough) (kinds : option (list ContentItemKind)) :=
  mkPassthrough (turn_id m) (create_time m) kinds (cell_id m) (executed_tool_calls m) (tool_calls_complete m).

Inductive AgentMessageInputContent :=
| AgentInputText (text : str)
| AgentEncryptedContent (encrypted_content : str).

Inductive ReasoningItemReasoningSummary := SummaryText (text : str).
Inductive ReasoningItemContent := ReasoningText (text : str) | PlainText (text : str).

Inductive LocalShellStatus := Completed | InProgress | Incomplete.
Record LocalShellExecAction := mkExecAction {
  command : list str;
  timeout_ms : option N;
  working_directory : option str;
  env : option (gmap str str);
  user : option str;
}.
Inductive LocalShellAction := Exec (action : LocalShellExecAction).

Inductive FunctionCallOutputContentItem :=
| FcInputText (text : str)
| FcInputImage (image : ImageReference) (detail : option ImageDetail)
| FcInputAudio (audio_url : str)
| FcEncryptedContent (encrypted_content : str).

Inductive FunctionCallOutputBody := Text (s : str) | ContentItems (items : list FunctionCallOutputContentItem).
Record FunctionCallOutputPayload := mkOutput { body : FunctionCallOutputBody; success : option bool }.
Definition from_text (s : str) : FunctionCallOutputPayload := mkOutput (Text s) None.

Abbreviation Metadata := (option InternalChatMessageMetadataPassthrough).

Inductive ResponseItem :=
| AdditionalTools (id : option ResponseItemId) (role : str) (tools : list JsonValue)
| Message (id : option ResponseItemId) (role : str) (content : list ContentItem) (phase : option MessagePhase)
    (metadata : Metadata)
| AgentMessage (id : option ResponseItemId) (author recipient : str) (content : list AgentMessageInputContent)
    (metadata : Metadata)
| Reasoning (id : option ResponseItemId) (summary : list ReasoningItemReasoningSummary)
    (content : option (list ReasoningItemContent)) (encrypted_content : option str) (metadata : Metadata)
| LocalShellCall (id : option ResponseItemId) (call_id : option str) (status : LocalShellStatus)
    (action : LocalShellAction) (metadata : Metadata)
| FunctionCall (id : option ResponseItemId) (name : str) (namespace : option str) (arguments : str)
    (encrypted_function_args : option (list str)) (call_id : str) (metadata : Metadata)
| ToolSearchCall (id : option ResponseItemId) (call_id status : option str) (execution : str) (arguments : JsonValue)
    (metadata : Metadata)
| FunctionCallOutput (id : option ResponseItemId) (call_id name namespace : option str)
    (output : FunctionCallOutputPayload) (metadata : Metadata)
| CustomToolCall (id : option ResponseItemId) (status : option str) (call_id name : str) (namespace : option str)
    (input : str) (metadata : Metadata)
| CustomToolCallOutput (id : option ResponseItemId) (call_id : str) (name : option str)
    (output : FunctionCallOutputPayload) (metadata : Metadata)
| ToolSearchOutput (id : option ResponseItemId) (call_id : option str) (status execution : str)
    (tools : list JsonValue) (metadata : Metadata)
| WebSearchCall (id : option ResponseItemId) (status : option str) (action : option WebSearchAction)
    (metadata : Metadata)
| ImageGenerationCall (id : option ResponseItemId) (status : str) (revised_prompt : option str) (result_ : str)
    (metadata : Metadata)
| Compaction (id : option ResponseItemId) (encrypted_content : str) (metadata : Metadata)
| ConfigurationUpdate (effort : ReasoningEffort)
| CompactionTrigger
| ContextCompaction (id : option ResponseItemId) (encrypted_content : option str) (metadata : Metadata)
| Other.

Record ResponseItemEnvelope := mkEnvelope {
  item : ResponseItem;
  envelope_metadata : option CodexHarnessMetadata;
}.
(** [ResponseItemEnvelope::new] *)
Definition new_envelope (i : ResponseItem) : ResponseItemEnvelope := mkEnvelope i None.

(** ** Annotated content *)

Record AnnotatedContent := annotated { content : ContentItem; kind : ContentItemKind }.
Definition input_text (text : str) (k : ContentItemKind) : AnnotatedContent := annotated (InputText text) k.
Definition into_parts (a : AnnotatedContent) : ContentItem * ContentItemKind := (content a, kind a).

(** The pieces with their classifications, those beyond the recorded ones
    unknown. *)
Fixpoint zip_kinds (content : list ContentItem) (kinds : list ContentItemKind) : list AnnotatedContent :=
  match content with
  | [] => []
  | c :: content =>
      annotated c (match kinds with k :: _ => k | [] => lit "unknown" end) :: zip_kinds content (tail kinds)
  end.

(** [to_annotated_content] takes the content and the classifications out of the
    message. *)
Definition to_annotated_content (i : ResponseItem) : ResponseItem * option (list AnnotatedContent) :=
  match i with
  | Message id role content phase metadata =>
      let kinds := default [] (metadata ≫= content_item_kinds) in
      (Message id role [] phase ((fun m => with_kinds m None) <$> metadata), Some (zip_kinds content kinds))
  | i => (i, None)
  end.

Definition set_annotated_content (i : ResponseItem) (annotated_content : list AnnotatedContent)
    : ResponseItem * option unit :=
  match i with
  | Message id role _ phase metadata =>
      let parts := into_parts <$> annotated_content in
      (Message id role parts.*1 phase (Some (with_kinds (default default_passthrough metadata) (Some parts.*2))),
       Some tt)
  | i => (i, None)
  end.

(** ** Notices for unsupported media *)

Record UnsupportedMedia := mkUnsupported { notice_text : str; content_kind : str }.
Definition IMAGE : UnsupportedMedia :=
  mkUnsupported (lit "image content omitted because you do not support image input") (lit "images.unsupported").
Definition AUDIO : UnsupportedMedia :=
  mkUnsupported (lit "audio content omitted because you do not support audio input") (lit "audio.unsupported").

(** [ContextualUserFragment::render] with the empty markers of these notices, and
    the content of [render_fragment] *)
Definition render_with (markers : str * str) (body : str) : str :=
  let '(start_marker, end_marker) := markers in
  if is_empty start_marker && is_empty end_marker then body else start_marker ++ body ++ end_marker.
Definition render (n : UnsupportedMedia) : str := render_with ([], []) (notice_text n).
Definition render_fragment (n : UnsupportedMedia) : AnnotatedContent := input_text (render n) (content_kind n).

End Items.

(** Cases on an item, with the optional ids of calls and outputs. *)
Ltac case_item i :=
  destruct i as [ | | | | ? [?|] | | ? [?|] | ? [?|] | | | ? [?|] | | | | | | | ].
