(* ===== verification/History.v ===== *)
(** * The conversation history: calls and their outputs

    core/src/context_manager/normalize.rs keeps every tool call of the history
    paired with its output before the history is sent to a model: missing outputs
    are synthesised directly behind their call, outputs without a call are
    dropped, and removing an item removes its counterpart. The theorems state the
    pairing, that nothing else changes, and that the positions the code computes
    insert and remove what they are meant to. *)

From S2P Require Import Prelude RustStr ResponseItems.

(** ** Lists *)

Lemma existsb_same {A} (p q : A -> bool) (l : list A) :
  (forall x, x ∈ l -> p x = q x) -> existsb p l = existsb q l.
Proof.
  induction l as [|x l IH]; intros H; [done|]. simpl. f_equal; [apply H; set_solver|apply IH; set_solver].
Qed.

Lemma existsb_none {A} (p : A -> bool) (l : list A) : (forall x, x ∈ l -> p x = false) -> existsb p l = false.
Proof. intros H. rewrite (existsb_same _ (fun _ => false)) by done. clear H. by induction l. Qed.

Lemma filter_everything {A} (P : A -> Prop) `{!forall x, Decision (P x)} (l : list A) :
  (forall x, x ∈ l -> P x) -> filter P l = l.
Proof.
  induction l as [|x l IH]; intros Hl; [done|]. rewrite filter_cons_True by (apply Hl; set_solver).
  f_equal. apply IH. set_solver.
Qed.

Lemma list_filter_iff' {A} (P Q : A -> Prop) `{!forall x, Decision (P x), !forall x, Decision (Q x)} (l : list A) :
  (forall x, x ∈ l -> P x <-> Q x) -> filter P l = filter Q l.
Proof.
  induction l as [|x l IH]; intros Hl; [done|]. rewrite !filter_cons, IH by set_solver.
  pose proof (Hl x ltac:(set_solver)). repeat case_decide; tauto.
Qed.

Lemma existsb_bind {A B} (p : B -> bool) (f : A -> list B) l :
  existsb p (l ≫= f) = existsb (fun x => existsb p (f x)) l.
Proof. induction l as [|x l IH]; [done|]. cbn [mbind list_bind existsb]. by rewrite existsb_app, <- IH. Qed.

Lemma existsb_split {A} (p q : A -> bool) l : existsb (fun x => p x || q x) l = existsb p l || existsb q l.
Proof. induction l as [|x l IH]; simpl; [done|]. rewrite IH. by destruct (p x), (q x), (existsb p l). Qed.

Section History.
Context {IP : ItemPayloads}.

Definition synthetic_output_id (prefix : str) (item_id : option str) : option str :=
  match item_id with
  | Some source_id =>
      if is_empty source_id then None
      else Some (with_suffix prefix (uuid_v5 (prefix ++ lit ":" ++ source_id)))
  | None => None
  end.

(** [error_or_panic]: a panic in builds with debug assertions. *)
Context (debug_assertions : bool).
Definition error_or_panic : outcome Empty_set unit := if debug_assertions then Panic else Return tt.

(** The three sets of ids of a pass: functions, tool searches, custom tools. *)
Record Ids := mkIds { function_ids : gset str; tool_search_ids : gset str; custom_tool_ids : gset str }.
Definition no_ids : Ids := mkIds ∅ ∅ ∅.
Definition add_function (c : str) (s : Ids) : Ids := mkIds ({[c]} ∪ function_ids s) (tool_search_ids s) (custom_tool_ids s).
Definition add_search (c : str) (s : Ids) : Ids := mkIds (function_ids s) ({[c]} ∪ tool_search_ids s) (custom_tool_ids s).
Definition add_custom (c : str) (s : Ids) : Ids := mkIds (function_ids s) (tool_search_ids s) ({[c]} ∪ custom_tool_ids s).

(** ** Missing outputs *)

(** The first loop of [ensure_call_outputs_present]. *)
Definition note_output (s : Ids) (e : ResponseItemEnvelope) : Ids :=
  match item e with
  | FunctionCallOutput _ (Some c) _ _ _ _ => add_function c s
  | ToolSearchOutput _ (Some c) _ _ _ _ => add_search c s
  | CustomToolCallOutput _ c _ _ _ => add_custom c s
  | _ => s
  end.

Definition aborted_function_output (id : option str) (c : str) : ResponseItemEnvelope :=
  new_envelope (FunctionCallOutput (synthetic_output_id (lit "fco") id) (Some c) None None
                  (from_text (lit "aborted")) None).

(** The output its second loop synthesises for an item, if any. *)
Definition missing_output (s : Ids) (e : ResponseItemEnvelope) : outcome Empty_set (option ResponseItemEnvelope) :=
  match item e with
  | FunctionCall id _ _ _ _ c _ =>
      if bool_decide (c ∈ function_ids s) then Return None
      else Return (Some (aborted_function_output id c))
  | ToolSearchCall id (Some c) _ _ _ _ =>
      if bool_decide (c ∈ tool_search_ids s) then Return None
      else Return (Some (new_envelope (ToolSearchOutput (synthetic_output_id (lit "tso") id) (Some c)
                                         (lit "completed") (lit "client") [] None)))
  | CustomToolCall id _ c _ _ _ _ =>
      if bool_decide (c ∈ custom_tool_ids s) then Return None
      else
        _ ← error_or_panic;
        Return (Some (new_envelope (CustomToolCallOutput (synthetic_output_id (lit "ctco") id) c None
                                      (from_text (lit "aborted")) None)))
  | LocalShellCall id (Some c) _ _ _ =>
      if bool_decide (c ∈ function_ids s) then Return None
      else _ ← error_or_panic; Return (Some (aborted_function_output id c))
  | _ => Return None
  end.

(** The second loop: the insertions to make, with the index of the call. *)
Fixpoint missing_outputs (s : Ids) (idx : nat) (items : list ResponseItemEnvelope)
    : outcome Empty_set (list (nat * ResponseItemEnvelope)) :=
  match items with
  | [] => Return []
  | e :: items =>
      output ← missing_output s e;
      rest ← missing_outputs s (S idx) items;
      Return (match output with Some o => (idx, o) :: rest | None => rest end)
  end.

(** [Vec::insert], which panics behind the end *)
Definition vec_insert {A} (i : nat) (x : A) (l : list A) : outcome Empty_set (list A) :=
  if length l <? i then Panic else Return (take i l ++ x :: drop i l).

(** The insertions, last first. *)
Fixpoint insert_outputs (missing : list (nat * ResponseItemEnvelope)) (items : list ResponseItemEnvelope)
    : outcome Empty_set (list ResponseItemEnvelope) :=
  match missing with
  | [] => Return items
  | (idx, output_item) :: missing =>
      items ← vec_insert (idx + 1) output_item items; insert_outputs missing items
  end.

Definition ensure_call_outputs_present (items : list ResponseItemEnvelope)
    : outcome Empty_set (list ResponseItemEnvelope) :=
  missing ← missing_outputs (foldl note_output no_ids items) 0 items;
  insert_outputs (reverse missing) items.

(** ** Orphan outputs *)

Definition note_call (s : Ids) (e : ResponseItemEnvelope) : Ids :=
  match item e with
  | FunctionCall _ _ _ _ _ c _ | LocalShellCall _ (Some c) _ _ _ => add_function c s
  | ToolSearchCall _ (Some c) _ _ _ _ => add_search c s
  | CustomToolCall _ _ c _ _ _ _ => add_custom c s
  | _ => s
  end.

Definition is_orphan (s : Ids) (e : ResponseItemEnvelope) : bool :=
  match item e with
  | FunctionCallOutput _ (Some c) _ _ _ _ => negb (bool_decide (c ∈ function_ids s))
  | CustomToolCallOutput _ c _ _ _ => negb (bool_decide (c ∈ custom_tool_ids s))
  | ToolSearchOutput _ (Some c) _ execution _ _ =>
      negb (str_eqb execution (lit "server")) && negb (bool_decide (c ∈ tool_search_ids s))
  | _ => false
  end.

Fixpoint orphan_positions (s : Ids) (position : nat) (items : list ResponseItemEnvelope)
    : outcome Empty_set (list nat) :=
  match items with
  | [] => Return []
  | e :: items =>
      if is_orphan s e then
        _ ← error_or_panic;
        rest ← orphan_positions s (S position) items;
        Return (position :: rest)
      else orphan_positions s (S position) items
  end.

(** [items.retain] with a position counter and a peekable list of positions *)
Fixpoint retain_except (orphans : list nat) (position : nat) (items : list ResponseItemEnvelope)
    : list ResponseItemEnvelope :=
  match items with
  | [] => []
  | e :: items =>
      match orphans with
      | p :: orphans' =>
          if p =? position then retain_except orphans' (S position) items
          else e :: retain_except orphans (S position) items
      | [] => e :: retain_except [] (S position) items
      end
  end.

Definition remove_orphan_outputs (items : list ResponseItemEnvelope)
    : outcome Empty_set (list ResponseItemEnvelope) :=
  orphans ← orphan_positions (foldl note_call no_ids items) 0 items;
  Return (if is_empty orphans then items else retain_except orphans 0 items).

(** ** Removing an item *)

Definition remove_first_matching (items : list ResponseItemEnvelope) (predicate : ResponseItem -> bool)
    : list ResponseItemEnvelope :=
  match list_find (fun e => Is_true (predicate (item e))) items with
  | Some (pos, _) => delete pos items
  | None => items
  end.

Definition is_function_output (c : str) (i : ResponseItem) : bool :=
  match i with FunctionCallOutput _ (Some existing) _ _ _ _ => str_eqb existing c | _ => false end.
Definition is_function_call (c : str) (i : ResponseItem) : bool :=
  match i with FunctionCall _ _ _ _ _ existing _ => str_eqb existing c | _ => false end.
Definition is_shell_call (c : str) (i : ResponseItem) : bool :=
  match i with LocalShellCall _ (Some existing) _ _ _ => str_eqb existing c | _ => false end.
Definition is_search_output (c : str) (i : ResponseItem) : bool :=
  match i with ToolSearchOutput _ (Some existing) _ _ _ _ => str_eqb existing c | _ => false end.
Definition is_search_call (c : str) (i : ResponseItem) : bool :=
  match i with ToolSearchCall _ (Some existing) _ _ _ _ => str_eqb existing c | _ => false end.
Definition is_custom_output (c : str) (i : ResponseItem) : bool :=
  match i with CustomToolCallOutput _ existing _ _ _ => str_eqb existing c | _ => false end.
Definition is_custom_call (c : str) (i : ResponseItem) : bool :=
  match i with CustomToolCall _ _ existing _ _ _ _ => str_eqb existing c | _ => false end.

Definition remove_corresponding_for (items : list ResponseItemEnvelope) (i : ResponseItem)
    : list ResponseItemEnvelope :=
  match i with
  | FunctionCall _ _ _ _ _ c _ => remove_first_matching items (is_function_output c)
  | FunctionCallOutput _ (Some c) _ _ _ _ =>
      if existsb (fun e => is_function_call c (item e)) items
      then remove_first_matching items (is_function_call c)
      else remove_first_matching items (is_shell_call c)
  | ToolSearchCall _ (Some c) _ _ _ _ => remove_first_matching items (is_search_output c)
  | ToolSearchOutput _ (Some c) _ _ _ _ => remove_first_matching items (is_search_call c)
  | CustomToolCall _ _ c _ _ _ _ => remove_first_matching items (is_custom_output c)
  | CustomToolCallOutput _ c _ _ _ => remove_first_matching items (is_custom_call c)
  | LocalShellCall _ (Some c) _ _ _ => remove_first_matching items (is_function_output c)
  | _ => items
  end.

(** The items after [ContextManager::remove_first_item]. *)
Definition remove_first_item (items : list ResponseItemEnvelope) : list ResponseItemEnvelope :=
  match items with
  | [] => []
  | removed :: items => remove_corresponding_for items (item removed)
  end.

(** ** Unsupported media *)

Inductive InputModality := TextInput | ImageInput | AudioInput.
#[export] Instance InputModality_eq_dec : EqDecision InputModality.
Proof. solve_decision. Defined.

(** The loop over a message's pieces that puts a notice in the place of one
    medium, through [to_annotated_content] and [set_annotated_content]. *)
Definition strip_message (is_medium : ContentItem -> bool) (notice : UnsupportedMedia) (i : ResponseItem)
    : ResponseItem :=
  match to_annotated_content i with
  | (i, Some content_) =>
      (set_annotated_content i
         ((fun a => if is_medium (content a) then render_fragment notice else a) <$> content_)).1
  | (i, None) => i
  end.

(** The same over the content items of a tool's output *)
Definition strip_output (is_medium : FunctionCallOutputContentItem -> bool) (notice : UnsupportedMedia)
    (output : FunctionCallOutputPayload) : FunctionCallOutputPayload :=
  match body output with
  | ContentItems items =>
      mkOutput (ContentItems ((fun c => if is_medium c then FcInputText (render notice) else c) <$> items))
        (success output)
  | Text _ => output
  end.

Definition is_image (c : ContentItem) : bool := match c with InputImage _ _ => true | _ => false end.
Definition is_audio (c : ContentItem) : bool := match c with InputAudio _ => true | _ => false end.
Definition is_fc_image (c : FunctionCallOutputContentItem) : bool :=
  match c with FcInputImage _ _ => true | _ => false end.
Definition is_fc_audio (c : FunctionCallOutputContentItem) : bool :=
  match c with FcInputAudio _ => true | _ => false end.

Definition strip_image (i : ResponseItem) : ResponseItem :=
  match i with
  | Message _ _ _ _ _ => strip_message is_image IMAGE i
  | FunctionCallOutput id call_id name namespace output metadata =>
      FunctionCallOutput id call_id name namespace (strip_output is_fc_image IMAGE output) metadata
  | CustomToolCallOutput id call_id name output metadata =>
      CustomToolCallOutput id call_id name (strip_output is_fc_image IMAGE output) metadata
  | ImageGenerationCall id status revised_prompt _ metadata =>
      ImageGenerationCall id status revised_prompt [] metadata
  | i => i
  end.

Definition strip_audio (i : ResponseItem) : ResponseItem :=
  match i with
  | Message _ _ _ _ _ => strip_message is_audio AUDIO i
  | FunctionCallOutput id call_id name namespace output metadata =>
      FunctionCallOutput id call_id name namespace (strip_output is_fc_audio AUDIO output) metadata
  | CustomToolCallOutput id call_id name output metadata =>
      CustomToolCallOutput id call_id name (strip_output is_fc_audio AUDIO output) metadata
  | i => i
  end.

Definition on_item (f : ResponseItem -> ResponseItem) (e : ResponseItemEnvelope) : ResponseItemEnvelope :=
  mkEnvelope (f (item e)) (envelope_metadata e).

Definition strip_images_when_unsupported (input_modalities : list InputModality)
    (items : list ResponseItemEnvelope) : list ResponseItemEnvelope :=
  if bool_decide (ImageInput ∈ input_modalities) then items else on_item strip_image <$> items.

Definition strip_audio_when_unsupported (input_modalities : list InputModality)
    (items : list ResponseItemEnvelope) : list ResponseItemEnvelope :=
  if bool_decide (AudioInput ∈ input_modalities) then items else on_item strip_audio <$> items.

(** The items after [ContextManager::normalize_history]: the two passes that
    pair calls and outputs, and the two that strip media. *)
Definition normalize_pairs (items : list ResponseItemEnvelope) : outcome Empty_set (list ResponseItemEnvelope) :=
  items ← ensure_call_outputs_present items; remove_orphan_outputs items.

Definition normalize_history (input_modalities : list InputModality) (items : list ResponseItemEnvelope)
    : outcome Empty_set (list ResponseItemEnvelope) :=
  items ← normalize_pairs items;
  Return (strip_audio_when_unsupported input_modalities (strip_images_when_unsupported input_modalities items)).

(** ** The pairing the passes establish *)

(** A call and its output share a key: the namespace of ids and the id. *)
Inductive Kind := KFunction | KSearch | KCustom.
#[export] Instance Kind_eq_dec : EqDecision Kind.
Proof. solve_decision. Defined.

Definition call_key (i : ResponseItem) : option (Kind * str) :=
  match i with
  | FunctionCall _ _ _ _ _ c _ | LocalShellCall _ (Some c) _ _ _ => Some (KFunction, c)
  | ToolSearchCall _ (Some c) _ _ _ _ => Some (KSearch, c)
  | CustomToolCall _ _ c _ _ _ _ => Some (KCustom, c)
  | _ => None
  end.

Definition output_key (i : ResponseItem) : option (Kind * str) :=
  match i with
  | FunctionCallOutput _ (Some c) _ _ _ _ => Some (KFunction, c)
  | ToolSearchOutput _ (Some c) _ _ _ _ => Some (KSearch, c)
  | CustomToolCallOutput _ c _ _ _ => Some (KCustom, c)
  | _ => None
  end.

(** A search the server ran has no call in the history. *)
Definition from_server (i : ResponseItem) : bool :=
  match i with ToolSearchOutput _ _ _ execution _ _ => str_eqb execution (lit "server") | _ => false end.

Definition calls (items : list ResponseItemEnvelope) : list (Kind * str) := omap (fun e => call_key (item e)) items.
Definition outputs (items : list ResponseItemEnvelope) : list (Kind * str) := omap (fun e => output_key (item e)) items.

Definition answered (items : list ResponseItemEnvelope) (e : ResponseItemEnvelope) : Prop :=
  forall k, call_key (item e) = Some k -> k ∈ outputs items.
Definition called (items : list ResponseItemEnvelope) (e : ResponseItemEnvelope) : Prop :=
  forall k, output_key (item e) = Some k -> from_server (item e) = false -> k ∈ calls items.

#[export] Instance answered_dec items e : Decision (answered items e).
Proof.
  unfold answered. destruct (call_key (item e)) as [k|] eqn:E.
  - destruct (decide (k ∈ outputs items)); [left | right]; naive_solver.
  - left; naive_solver.
Defined.

#[export] Instance called_dec items e : Decision (called items e).
Proof.
  unfold called. destruct (output_key (item e)) as [k|] eqn:E; [|left; naive_solver].
  destruct (from_server (item e)); [left; naive_solver|].
  destruct (decide (k ∈ calls items)); [left | right]; naive_solver.
Defined.

(** Every call has its output and every output its call. *)
Definition paired (items : list ResponseItemEnvelope) : Prop :=
  Forall (answered items) items /\ Forall (called items) items.

(** The output that stands for a call that never got one. *)
Definition aborted (i : ResponseItem) : list ResponseItemEnvelope :=
  match i with
  | FunctionCall id _ _ _ _ c _ | LocalShellCall id (Some c) _ _ _ => [aborted_function_output id c]
  | ToolSearchCall id (Some c) _ _ _ _ =>
      [new_envelope (ToolSearchOutput (synthetic_output_id (lit "tso") id) (Some c)
                       (lit "completed") (lit "client") [] None)]
  | CustomToolCall id _ c _ _ _ _ =>
      [new_envelope (CustomToolCallOutput (synthetic_output_id (lit "ctco") id) c None (from_text (lit "aborted")) None)]
  | _ => []
  end.

Definition completion (items : list ResponseItemEnvelope) (e : ResponseItemEnvelope) : list ResponseItemEnvelope :=
  if decide (answered items e) then [] else aborted (item e).

(** The normal form: an item stays unless it is an orphan output, and an
    unanswered call is followed at once by its aborted output. *)
Definition normalized (items : list ResponseItemEnvelope) : list ResponseItemEnvelope :=
  items ≫= fun e => if decide (called items e) then e :: completion items e else [].

(** What [error_or_panic] reports: shell and custom calls that never got an
    output, and orphans. *)
Definition loud (items : list ResponseItemEnvelope) (e : ResponseItemEnvelope) : bool :=
  match item e with
  | CustomToolCall _ _ _ _ _ _ _ | LocalShellCall _ _ _ _ _ => bool_decide (~ answered items e)
  | _ => false
  end.
Definition orphan (items : list ResponseItemEnvelope) (e : ResponseItemEnvelope) : bool :=
  bool_decide (~ called items e).

(** *** The sets of ids *)

Definition has (s : Ids) (k : Kind * str) : Prop :=
  k.2 ∈ match k.1 with
        | KFunction => function_ids s | KSearch => tool_search_ids s | KCustom => custom_tool_ids s
        end.

Lemma has_none k : ~ has no_ids k.
Proof. destruct k as [[] c]; unfold has; simpl; set_solver. Qed.

Lemma has_note_output s e k : has (note_output s e) k <-> has s k \/ output_key (item e) = Some k.
Proof.
  destruct k as [kind c]. unfold note_output, has.
  case_item (item e); destruct kind; simpl; set_solver.
Qed.

Lemma has_note_call s e k : has (note_call s e) k <-> has s k \/ call_key (item e) = Some k.
Proof.
  destruct k as [kind c]. unfold note_call, has.
  case_item (item e); destruct kind; simpl; set_solver.
Qed.

Lemma has_fold (note : Ids -> ResponseItemEnvelope -> Ids) (key : ResponseItem -> option (Kind * str)) :
  (forall s e k, has (note s e) k <-> has s k \/ key (item e) = Some k) ->
  forall items s k, has (foldl note s items) k <-> has s k \/ k ∈ omap (fun e => key (item e)) items.
Proof.
  intros Hn. induction items as [|e items IH]; intros s k; simpl; [set_solver|].
  rewrite IH, Hn. destruct (key (item e)) as [k'|]; simpl; set_solver.
Qed.

Lemma has_outputs items k : has (foldl note_output no_ids items) k <-> k ∈ outputs items.
Proof. rewrite (has_fold _ _ has_note_output). pose proof (has_none k). tauto. Qed.

Lemma has_calls items k : has (foldl note_call no_ids items) k <-> k ∈ calls items.
Proof. rewrite (has_fold _ _ has_note_call). pose proof (has_none k). tauto. Qed.

(** *** Inserting the missing outputs *)

Lemma answered_known items e k :
  call_key (item e) = Some k -> has (foldl note_output no_ids items) k <-> answered items e.
Proof. intros E. rewrite has_outputs. unfold answered. naive_solver. Qed.

Lemma missing_output_spec items e :
  missing_output (foldl note_output no_ids items) e =
    if debug_assertions && loud items e then Panic else Return (head (completion items e)).
Proof.
  unfold missing_output, loud, completion.
  destruct (call_key (item e)) as [k|] eqn:Ek.
  - pose proof (answered_known items e k Ek) as Hk. unfold has in Hk.
    case_item (item e); simplify_eq/=;
      repeat case_bool_decide; try tauto; rewrite ?andb_false_r;
      first [rewrite decide_True by tauto | rewrite decide_False by tauto];
      unfold error_or_panic; by destruct debug_assertions.
  - assert (answered items e) as Ha by (intros k; by rewrite Ek).
    rewrite decide_True, bool_decide_eq_false_2 by auto.
    case_item (item e); simplify_eq/=; by rewrite andb_false_r.
Qed.

(** The insertions are the completions, each with the position of its call. *)
Fixpoint insertions (items : list ResponseItemEnvelope) (idx : nat) (l : list ResponseItemEnvelope) :=
  match l with
  | [] => []
  | e :: l => (pair idx <$> completion items e) ++ insertions items (S idx) l
  end.

Lemma completion_at_most_one items e : completion items e = [] \/ exists o, completion items e = [o].
Proof.
  unfold completion. case_decide; [by left|].
  case_item (item e); simpl; eauto.
Qed.

Lemma missing_outputs_spec items l idx :
  missing_outputs (foldl note_output no_ids items) idx l =
    if debug_assertions && existsb (loud items) l then Panic else Return (insertions items idx l).
Proof.
  revert idx. induction l as [|e l IH]; intros idx; [by rewrite andb_false_r|].
  cbn [missing_outputs existsb insertions]. rewrite missing_output_spec, andb_orb_distrib_r.
  destruct (debug_assertions && loud items e); [done|]. simpl. rewrite IH.
  destruct (debug_assertions && existsb (loud items) l); [done|]. simpl.
  by destruct (completion_at_most_one items e) as [-> | [o ->]].
Qed.

Lemma insert_outputs_app m1 m2 items :
  insert_outputs (m1 ++ m2) items = (items ← insert_outputs m1 items; insert_outputs m2 items).
Proof.
  revert items. induction m1 as [|[i o] m1 IH]; intros items; [done|]. simpl.
  destruct (vec_insert (i + 1) o items); simpl; [apply IH|done|done].
Qed.

Lemma vec_insert_behind {A} (pre : list A) e x l :
  vec_insert (length pre + 1) x (pre ++ e :: l) = Return (pre ++ e :: x :: l).
Proof.
  unfold vec_insert. rewrite length_app. simpl.
  replace (length pre + S (length l) <? length pre + 1) with false by (symmetry; apply Nat.ltb_ge; lia).
  rewrite take_app_ge, drop_app_ge by lia.
  replace (length pre + 1 - length pre) with 1 by lia. simpl. by rewrite <- app_assoc.
Qed.

(** Inserting from the last position to the first puts each output directly
    behind its call: no earlier position is shifted. *)
Lemma insert_outputs_spec items l pre :
  insert_outputs (reverse (insertions items (length pre) l)) (pre ++ l) =
    Return (pre ++ (l ≫= fun e => e :: completion items e)).
Proof.
  revert pre. induction l as [|e l IH]; intros pre; [done|].
  cbn [insertions mbind list_bind]. specialize (IH (pre ++ [e])).
  rewrite length_app, Nat.add_1_r, <- !app_assoc in IH. simpl in IH.
  rewrite reverse_app, insert_outputs_app, IH. cbv beta iota delta [mbind outcome_bind].
  destruct (completion_at_most_one items e) as [-> | [o ->]]; simpl; [done|].
  rewrite vec_insert_behind. done.
Qed.

Lemma ensure_call_outputs_present_spec items :
  ensure_call_outputs_present items =
    if debug_assertions && existsb (loud items) items then Panic
    else Return (items ≫= fun e => e :: completion items e).
Proof.
  unfold ensure_call_outputs_present. rewrite missing_outputs_spec.
  destruct (debug_assertions && existsb (loud items) items); [done|].
  apply (insert_outputs_spec items items []).
Qed.

(** *** Dropping the orphans *)

Lemma is_orphan_spec items e : is_orphan (foldl note_call no_ids items) e = orphan items e.
Proof.
  unfold orphan. destruct (output_key (item e)) as [k|] eqn:Ek.
  - pose proof (has_calls items k) as Hk. unfold has in Hk.
    assert (called items e <-> (from_server (item e) = false -> k ∈ calls items)) as Hc
      by (unfold called; rewrite Ek; naive_solver).
    rewrite (bool_decide_ext _ _ (not_iff_compat Hc)). unfold is_orphan.
    case_item (item e); simplify_eq/=.
    all: try (destruct (str_eqb _ _); simpl).
    all: repeat case_bool_decide; simpl; tauto.
  - rewrite bool_decide_eq_false_2 by (intros H; apply H; intros k; by rewrite Ek).
    unfold is_orphan. by case_item (item e); simplify_eq/=.
Qed.

Lemma retain_except_nil pos l : retain_except [] pos l = l.
Proof. revert pos. induction l as [|e l IH]; intros pos; simpl; f_equal; auto. Qed.

Lemma orphan_positions_spec s l pos :
  exists ps, orphan_positions s pos l = (if debug_assertions && existsb (is_orphan s) l then Panic else Return ps) /\
             Forall (Nat.le pos) ps /\ retain_except ps pos l = filter (fun e => is_orphan s e = false) l.
Proof.
  revert pos. induction l as [|e l IH]; intros pos.
  { exists []. by rewrite andb_false_r. }
  destruct (IH (S pos)) as (ps & E & Hps & Hr). cbn [orphan_positions existsb].
  destruct (is_orphan s e) eqn:Ee.
  - exists (pos :: ps). rewrite E. split; [|split].
    + unfold error_or_panic. by destruct debug_assertions.
    + constructor; [lia|]. eapply Forall_impl; [exact Hps|]. lia.
    + rewrite filter_cons_False by congruence. simpl. by rewrite Nat.eqb_refl.
  - exists ps. rewrite E. split; [done|]. split; [eapply Forall_impl; [exact Hps|]; lia|].
    rewrite filter_cons_True, <- Hr by done. destruct ps as [|p ps]; [done|]. simpl.
    apply Forall_cons in Hps as [Hp _].
    by replace (p =? pos) with false by (symmetry; apply Nat.eqb_neq; lia).
Qed.

Lemma remove_orphan_outputs_spec items :
  remove_orphan_outputs items =
    if debug_assertions && existsb (orphan items) items then Panic
    else Return (filter (called items) items).
Proof.
  unfold remove_orphan_outputs.
  destruct (orphan_positions_spec (foldl note_call no_ids items) items 0) as (ps & -> & _ & Hr).
  assert (existsb (is_orphan (foldl note_call no_ids items)) items = existsb (orphan items) items) as ->
    by (apply existsb_same; intros; apply is_orphan_spec).
  destruct (debug_assertions && existsb (orphan items) items); [done|]. simpl. f_equal.
  assert (filter (called items) items = retain_except ps 0 items) as ->.
  { rewrite Hr. apply list_filter_iff. intros e. rewrite is_orphan_spec. unfold orphan.
    rewrite bool_decide_eq_false. split; [tauto|apply dec_stable]. }
  destruct ps; simpl; [by rewrite retain_except_nil|done].
Qed.

(** *** Completing changes neither the calls nor the orphans *)

Lemma aborted_key i o :
  o ∈ aborted i -> exists k, call_key i = Some k /\ call_key (item o) = None /\ output_key (item o) = Some k.
Proof.
  case_item i; simpl; rewrite ?list_elem_of_singleton; intros Ho; subst; simpl;
    try (by eauto); by apply not_elem_of_nil in Ho.
Qed.

Lemma completion_key items e o :
  o ∈ completion items e ->
  exists k, call_key (item e) = Some k /\ call_key (item o) = None /\ output_key (item o) = Some k.
Proof. unfold completion. case_decide; [by intros ?%not_elem_of_nil|apply aborted_key]. Qed.

Lemma calls_app l1 l2 : calls (l1 ++ l2) = calls l1 ++ calls l2.
Proof. apply omap_app. Qed.

Lemma outputs_app l1 l2 : outputs (l1 ++ l2) = outputs l1 ++ outputs l2.
Proof. apply omap_app. Qed.

Lemma calls_nil l : (forall o, o ∈ l -> call_key (item o) = None) -> calls l = [].
Proof.
  induction l as [|o l IH]; intros H; [done|]. simpl. rewrite H by set_solver. apply IH. set_solver.
Qed.

Lemma calls_completed items l : calls (l ≫= fun e => e :: completion items e) = calls l.
Proof.
  induction l as [|e l IH]; [done|]. cbn [mbind list_bind].
  change (calls ([e] ++ (completion items e ++ (l ≫= fun e => e :: completion items e))) = calls ([e] ++ l)).
  rewrite !calls_app, IH, (calls_nil (completion items e)); [done|].
  intros o (k & _ & ? & _)%completion_key. done.
Qed.

Lemma called_calls items items' e : calls items = calls items' -> called items e <-> called items' e.
Proof. unfold called. by intros ->. Qed.

Lemma elem_of_calls items k : k ∈ calls items <-> exists e, e ∈ items /\ call_key (item e) = Some k.
Proof. unfold calls. rewrite list_elem_of_omap. done. Qed.

Lemma elem_of_outputs items k : k ∈ outputs items <-> exists e, e ∈ items /\ output_key (item e) = Some k.
Proof. unfold outputs. rewrite list_elem_of_omap. done. Qed.

Lemma completion_called items e o : e ∈ items -> o ∈ completion items e -> called items o.
Proof.
  intros He (k & Hc & _ & Ho)%completion_key k' Hk' _. apply elem_of_calls. exists e. split; congruence.
Qed.

Lemma call_no_output e k : call_key (item e) = Some k -> output_key (item e) = None.
Proof. by case_item (item e). Qed.

Lemma call_called items e k : call_key (item e) = Some k -> called items e.
Proof. intros Hc%call_no_output k' Hk'. congruence. Qed.

Lemma orphan_no_completion items items' e : ~ called items e -> completion items' e = [].
Proof.
  intros Hn. unfold completion. rewrite decide_True; [done|].
  intros k Hk. by destruct (Hn (call_called items e k Hk)).
Qed.

Lemma filter_completed items l :
  (forall e, e ∈ l -> e ∈ items) ->
  filter (called items) (l ≫= fun e => e :: completion items e) =
    l ≫= fun e => if decide (called items e) then e :: completion items e else [].
Proof.
  induction l as [|e l IH]; intros Hl; [done|]. cbn [mbind list_bind].
  rewrite filter_app, <- IH by set_solver. f_equal. case_decide as Hc.
  - rewrite filter_cons_True by done. f_equal. apply filter_everything. intros o Ho.
    apply (completion_called items e); [apply Hl; set_solver|exact Ho].
  - by rewrite (orphan_no_completion items), filter_cons_False by done.
Qed.

Lemma orphan_completed items :
  existsb (orphan (items ≫= fun e => e :: completion items e)) (items ≫= fun e => e :: completion items e) =
    existsb (orphan items) items.
Proof.
  rewrite existsb_bind. apply existsb_same. intros e He. cbn [existsb].
  set (X := items ≫= _).
  assert (forall o, orphan X o = orphan items o) as HX.
  { intros o. unfold orphan. apply bool_decide_ext, not_iff_compat, called_calls, calls_completed. }
  rewrite HX. replace (existsb (orphan X) (completion items e)) with false; [by rewrite orb_false_r|].
  symmetry. apply existsb_none. intros o Ho. rewrite HX. apply bool_decide_eq_false_2. intros H. apply H.
  by eapply completion_called.
Qed.

Lemma normalize_pairs_spec items :
  normalize_pairs items =
    if debug_assertions && existsb (fun e => loud items e || orphan items e) items then Panic
    else Return (normalized items).
Proof.
  unfold normalize_pairs. rewrite ensure_call_outputs_present_spec, existsb_split, andb_orb_distrib_r.
  destruct (debug_assertions && existsb (loud items) items); [done|].
  cbv beta iota delta [mbind outcome_bind]. rewrite remove_orphan_outputs_spec, orphan_completed.
  destruct (debug_assertions && existsb (orphan items) items); [done|]. simpl. f_equal.
  unfold normalized. rewrite <- (filter_completed items items) by done. apply list_filter_iff.
  intros e. apply called_calls, calls_completed.
Qed.

(** *** The normal form is paired *)

Lemma elem_of_normalized items e :
  e ∈ normalized items <->
  exists e', e' ∈ items /\ called items e' /\ (e = e' \/ e ∈ completion items e').
Proof.
  unfold normalized. rewrite list_elem_of_bind. split.
  - intros (e' & H & He'). case_decide; [|by apply not_elem_of_nil in H]. set_solver.
  - intros (e' & He' & Hc & H). exists e'. rewrite decide_True by done. set_solver.
Qed.

Lemma aborted_some i k : call_key i = Some k -> exists o, o ∈ aborted i.
Proof. case_item i; simpl; intros; simplify_eq; eexists; by apply list_elem_of_singleton. Qed.

Lemma normalized_answered items e k :
  e ∈ normalized items -> call_key (item e) = Some k -> k ∈ outputs (normalized items).
Proof.
  intros (e' & He' & Hc & [-> | Ho])%elem_of_normalized Hk.
  2: { apply completion_key in Ho as (? & _ & ? & _). congruence. }
  apply elem_of_outputs. destruct (decide (answered items e')) as [Ha|Hn].
  - pose proof (Ha k Hk) as (o & Ho & Hko)%elem_of_outputs. exists o. split; [|done].
    apply elem_of_normalized. exists o. split; [done|]. split; [|by left].
    intros k' Hk' _. apply elem_of_calls. exists e'. split; [done|congruence].
  - destruct (aborted_some _ _ Hk) as [o Ho]. exists o.
    destruct (aborted_key _ _ Ho) as (k' & ? & _ & ?). split; [|congruence].
    apply elem_of_normalized. exists e'. split; [done|]. split; [done|]. right.
    unfold completion. by rewrite decide_False.
Qed.

Lemma calls_normalized items k : k ∈ calls items -> k ∈ calls (normalized items).
Proof.
  intros (e & He & Hk)%elem_of_calls. apply elem_of_calls. exists e. split; [|done].
  apply elem_of_normalized. exists e. split; [done|]. split; [by eapply call_called|by left].
Qed.

Lemma normalized_paired items : paired (normalized items).
Proof.
  split; apply Forall_forall; intros e He k Hk; [by eapply normalized_answered|].
  intros Hs. apply calls_normalized. apply elem_of_normalized in He as (e' & He' & Hc & [-> | Ho]); [by apply Hc|].
  apply completion_key in Ho as (k' & Hk' & _ & ?). apply elem_of_calls. exists e'. split; [done|congruence].
Qed.

Lemma paired_normalized items : paired items -> normalized items = items.
Proof.
  intros [Ha Hc]. unfold normalized. rewrite Forall_forall in Ha, Hc.
  assert (forall l, (forall e, e ∈ l -> e ∈ items) ->
            (l ≫= fun e => if decide (called items e) then e :: completion items e else []) = l) as H; [|by apply H].
  induction l as [|e l IH]; intros Hl; [done|]. cbn [mbind list_bind].
  rewrite decide_True by (apply Hc, Hl; set_solver). unfold completion at 1.
  rewrite decide_True by (apply Ha, Hl; set_solver). simpl. f_equal. apply IH. set_solver.
Qed.

Lemma paired_quiet items : paired items -> existsb (fun e => loud items e || orphan items e) items = false.
Proof.
  intros [Ha Hc]. rewrite Forall_forall in Ha, Hc. apply existsb_none. intros e He.
  unfold loud, orphan. rewrite !bool_decide_eq_false_2 by (intros H; apply H; auto).
  by destruct (item e).
Qed.

(** ** What stripping leaves *)

(** The pieces of an item a model reads, with their classifications. *)
Definition pieces (i : ResponseItem) : list AnnotatedContent :=
  match i with
  | Message _ _ content _ metadata => zip_kinds content (default [] (metadata ≫= content_item_kinds))
  | _ => []
  end.
Definition output_pieces (i : ResponseItem) : list FunctionCallOutputContentItem :=
  match i with
  | FunctionCallOutput _ _ _ _ output _ | CustomToolCallOutput _ _ _ output _ =>
      match body output with ContentItems items => items | Text _ => [] end
  | _ => []
  end.

Definition replace_piece (images audio : bool) (a : AnnotatedContent) : AnnotatedContent :=
  match content a with
  | InputImage _ _ => if images then a else render_fragment IMAGE
  | InputAudio _ => if audio then a else render_fragment AUDIO
  | _ => a
  end.
Definition replace_output_piece (images audio : bool) (c : FunctionCallOutputContentItem) :=
  match c with
  | FcInputImage _ _ => if images then c else FcInputText (render IMAGE)
  | FcInputAudio _ => if audio then c else FcInputText (render AUDIO)
  | _ => c
  end.

(** Stripping one item, given which media the model supports. *)
Definition strip_media (images audio : bool) (i : ResponseItem) : ResponseItem :=
  let i := if images then i else strip_image i in if audio then i else strip_audio i.

Lemma zip_kinds_parts (l : list AnnotatedContent) :
  zip_kinds (into_parts <$> l).*1 (into_parts <$> l).*2 = l.
Proof. induction l as [|[c k] l IH]; [done|]. simpl. f_equal. exact IH. Qed.

Lemma pieces_strip_message p n id role content_ phase md :
  pieces (strip_message p n (Message id role content_ phase md)) =
    (fun a => if p (content a) then render_fragment n else a) <$> pieces (Message id role content_ phase md).
Proof. unfold strip_message. simpl. apply zip_kinds_parts. Qed.

Lemma pieces_strip_image i : pieces (strip_image i) = replace_piece false true <$> pieces i.
Proof.
  destruct i; try done. unfold strip_image. rewrite pieces_strip_message.
  apply list_fmap_ext. intros _ [[] k] _; done.
Qed.

Lemma pieces_strip_audio i : pieces (strip_audio i) = replace_piece true false <$> pieces i.
Proof.
  destruct i; try done. unfold strip_audio. rewrite pieces_strip_message.
  apply list_fmap_ext. intros _ [[] k] _; done.
Qed.

Lemma output_pieces_strip_image i : output_pieces (strip_image i) = replace_output_piece false true <$> output_pieces i.
Proof.
  destruct i as [| | | | | | |? ? ? ? [[] ?] ?| |? ? ? [[] ?] ?| | | | | | | |]; try done; simpl;
    apply list_fmap_ext; intros _ [] _; done.
Qed.

Lemma output_pieces_strip_audio i : output_pieces (strip_audio i) = replace_output_piece true false <$> output_pieces i.
Proof.
  destruct i as [| | | | | | |? ? ? ? [[] ?] ?| |? ? ? [[] ?] ?| | | | | | | |]; try done; simpl;
    apply list_fmap_ext; intros _ [] _; done.
Qed.

Lemma fmap_identity {A} (f : A -> A) (l : list A) : (forall x, f x = x) -> f <$> l = l.
Proof. intros H. induction l as [|x l IH]; [done|]. by rewrite fmap_cons, H, IH. Qed.

Lemma pieces_strip_media images audio i : pieces (strip_media images audio i) = replace_piece images audio <$> pieces i.
Proof.
  unfold strip_media. destruct images, audio; rewrite ?pieces_strip_audio, ?pieces_strip_image; try done.
  - rewrite fmap_identity; [done|]. by intros [[] k].
  - rewrite <- list_fmap_compose. apply list_fmap_ext. intros _ [[] k] _; done.
Qed.

Lemma output_pieces_strip_media images audio i :
  output_pieces (strip_media images audio i) = replace_output_piece images audio <$> output_pieces i.
Proof.
  unfold strip_media. destruct images, audio; rewrite ?output_pieces_strip_audio, ?output_pieces_strip_image; try done.
  - rewrite fmap_identity; [done|]. by intros [].
  - rewrite <- list_fmap_compose. apply list_fmap_ext. intros _ [] _; done.
Qed.

Lemma strip_image_keys i :
  call_key (strip_image i) = call_key i /\ output_key (strip_image i) = output_key i /\
  from_server (strip_image i) = from_server i.
Proof. destruct i; done. Qed.

Lemma strip_audio_keys i :
  call_key (strip_audio i) = call_key i /\ output_key (strip_audio i) = output_key i /\
  from_server (strip_audio i) = from_server i.
Proof. destruct i; done. Qed.

Lemma strip_media_keys images audio i :
  call_key (strip_media images audio i) = call_key i /\ output_key (strip_media images audio i) = output_key i /\
  from_server (strip_media images audio i) = from_server i.
Proof.
  unfold strip_media. pose proof (strip_image_keys i) as (? & ? & ?).
  pose proof (strip_audio_keys i) as (? & ? & ?).
  pose proof (strip_audio_keys (strip_image i)) as (? & ? & ?).
  destruct images, audio; repeat split; congruence.
Qed.

Lemma strip_media_items modalities items :
  strip_audio_when_unsupported modalities (strip_images_when_unsupported modalities items) =
    on_item (strip_media (bool_decide (ImageInput ∈ modalities)) (bool_decide (AudioInput ∈ modalities))) <$> items.
Proof.
  unfold strip_audio_when_unsupported, strip_images_when_unsupported, strip_media.
  destruct (bool_decide (ImageInput ∈ modalities)), (bool_decide (AudioInput ∈ modalities)).
  - symmetry. apply fmap_identity. by intros [].
  - done.
  - done.
  - by rewrite <- list_fmap_compose.
Qed.

Lemma omap_of_fmap {A B C} (f : A -> B) (g : B -> option C) (h : A -> option C) (l : list A) :
  (forall x, g (f x) = h x) -> omap g (f <$> l) = omap h l.
Proof. intros H. induction l as [|x l IH]; [done|]. simpl. rewrite H. destruct (h x); [f_equal|]; exact IH. Qed.

Lemma paired_map f items :
  (forall i, call_key (f i) = call_key i /\ output_key (f i) = output_key i /\ from_server (f i) = from_server i) ->
  paired items -> paired (on_item f <$> items).
Proof.
  intros Hf [Ha Hc].
  assert (calls (on_item f <$> items) = calls items /\ outputs (on_item f <$> items) = outputs items) as [Ec Eo].
  { unfold calls, outputs. split; apply omap_of_fmap; intros e; apply (Hf (item e)). }
  rewrite Forall_forall in Ha, Hc.
  split; apply Forall_forall; intros ? (e & -> & He)%list_elem_of_fmap k; destruct (Hf (item e)) as (Hk & Ho & Hs); simpl.
  - rewrite Hk, Eo. by apply Ha.
  - rewrite Ho, Hs, Ec. by apply Hc.
Qed.

(** ** Removing the first item *)

Definition key (i : ResponseItem) : option (Kind * str) :=
  match call_key i with Some k => Some k | None => output_key i end.

(** At most one call and one output per id, and neither without the other. *)
Definition one_to_one (items : list ResponseItemEnvelope) : Prop :=
  paired items /\ NoDup (calls items) /\ NoDup (outputs items).

(** The items that have nothing to do with [i]. *)
Definition unrelated (i : ResponseItem) (e : ResponseItemEnvelope) : Prop :=
  key i = None \/ key (item e) <> key i.
#[export] Instance unrelated_dec i e : Decision (unrelated i e).
Proof. unfold unrelated. apply _. Defined.

Lemma sublist_omap {A B} (f : A -> option B) l1 l2 : l1 `sublist_of` l2 -> omap f l1 `sublist_of` omap f l2.
Proof.
  induction 1 as [|x l1 l2 _ IH|x l1 l2 _ IH]; simpl; [done| |]; (destruct (f x); simpl; [by constructor|done]).
Qed.

Lemma NoDup_omap_inj {A B} (f : A -> option B) l x y k :
  NoDup (omap f l) -> x ∈ l -> y ∈ l -> f x = Some k -> f y = Some k -> x = y.
Proof.
  intros Hd Hx Hy Ex Ey. induction l as [|z l IH]; [by apply not_elem_of_nil in Hx|].
  assert (NoDup (omap f l)) as Hd'.
  { eapply sublist_NoDup; [exact Hd|]. apply sublist_omap. by constructor. }
  assert (forall w, w ∈ l -> f z = Some k -> f w = Some k -> False) as Hz.
  { intros w Hw Ez Ew. simpl in Hd. rewrite Ez in Hd. apply NoDup_cons in Hd as [Hn _]. apply Hn.
    apply list_elem_of_omap. eauto. }
  apply elem_of_cons in Hx as [-> | Hx]; apply elem_of_cons in Hy as [-> | Hy]; naive_solver.
Qed.

Lemma remove_first_matching_cons e l p :
  remove_first_matching (e :: l) p = if p (item e) then l else e :: remove_first_matching l p.
Proof.
  unfold remove_first_matching. simpl. destruct (p (item e)) eqn:E.
  - by rewrite decide_True.
  - rewrite decide_False by (by intros []). simpl.
    by destruct (list_find _ l) as [[i x]|].
Qed.

(** Where a predicate selects the items of one key, and no key repeats, the
    first match is the only one. *)
Lemma remove_first_matching_key (f : ResponseItemEnvelope -> option (Kind * str)) k l p :
  NoDup (omap f l) -> (forall e, e ∈ l -> p (item e) = true <-> f e = Some k) ->
  remove_first_matching l p = filter (fun e => f e <> Some k) l.
Proof.
  induction l as [|e l IH]; intros Hd Hp; [done|]. rewrite remove_first_matching_cons.
  assert (NoDup (omap f l)) as Hd'.
  { eapply sublist_NoDup; [exact Hd|]. apply sublist_omap. by constructor. }
  pose proof (Hp e ltac:(set_solver)) as He. destruct (p (item e)).
  - rewrite filter_cons_False by tauto. rewrite filter_everything; [done|].
    intros e' He' Ek. simpl in Hd. rewrite (proj1 He eq_refl) in Hd. apply NoDup_cons in Hd as [Hn _].
    apply Hn, list_elem_of_omap. eauto.
  - rewrite filter_cons_True by naive_solver. f_equal. apply IH; [done|]. set_solver.
Qed.

(** The predicates of [remove_corresponding_for] select a key. *)
Ltac selects_key := intros; rewrite <- Is_true_true; match goal with i : ResponseItem |- _ => case_item i end;
  simpl; rewrite ?Is_true_true, ?str_eqb_eq; naive_solver.

Lemma selects_function_output c i : is_function_output c i = true <-> output_key i = Some (KFunction, c).
Proof. selects_key. Qed.
Lemma selects_search_output c i : is_search_output c i = true <-> output_key i = Some (KSearch, c).
Proof. selects_key. Qed.
Lemma selects_custom_output c i : is_custom_output c i = true <-> output_key i = Some (KCustom, c).
Proof. selects_key. Qed.
Lemma selects_search_call c i : is_search_call c i = true <-> call_key i = Some (KSearch, c).
Proof. selects_key. Qed.
Lemma selects_custom_call c i : is_custom_call c i = true <-> call_key i = Some (KCustom, c).
Proof. selects_key. Qed.
Lemma selects_function_call c i :
  is_function_call c i = true \/ is_shell_call c i = true <-> call_key i = Some (KFunction, c).
Proof. case_item i; simpl; rewrite ?str_eqb_eq; naive_solver. Qed.

(** An output of a function is answered by the only call of its id, be it a
    function or a shell call. *)
Lemma remove_function_call c l :
  NoDup (calls l) ->
  (if existsb (fun e => is_function_call c (item e)) l then remove_first_matching l (is_function_call c)
   else remove_first_matching l (is_shell_call c)) =
    filter (fun e => call_key (item e) <> Some (KFunction, c)) l.
Proof.
  intros Hd. destruct (existsb _ l) eqn:E.
  - apply existsb_exists in E as (e & He%list_elem_of_In & Hc).
    apply (remove_first_matching_key (fun e => call_key (item e))); [done|]. intros e' He'.
    rewrite <- selects_function_call. split; [by left|]. intros H. pose proof H as Hk.
    rewrite selects_function_call in Hk.
    rewrite <- (NoDup_omap_inj _ l e e' (KFunction, c) Hd He He'); [done| |done].
    apply selects_function_call. by left.
  - apply (remove_first_matching_key (fun e => call_key (item e))); [done|]. intros e' He'.
    rewrite <- selects_function_call. split; [by right|]. intros [H|]; [|done].
    assert (existsb (fun e => is_function_call c (item e)) l = true); [|congruence].
    apply existsb_exists. exists e'. by rewrite <- list_elem_of_In.
Qed.

Lemma remove_corresponding_call l i k :
  NoDup (outputs l) -> call_key i = Some k ->
  remove_corresponding_for l i = filter (fun e => output_key (item e) <> Some k) l.
Proof.
  intros Hd Hk. case_item i; simplify_eq/=;
    apply (remove_first_matching_key (fun e => output_key (item e))); try done; intros e _;
    by rewrite ?selects_function_output, ?selects_search_output, ?selects_custom_output.
Qed.

Lemma remove_corresponding_output l i k :
  NoDup (calls l) -> output_key i = Some k ->
  remove_corresponding_for l i = filter (fun e => call_key (item e) <> Some k) l.
Proof.
  intros Hd Hk. case_item i; simplify_eq/=; [by apply remove_function_call| |];
    apply (remove_first_matching_key (fun e => call_key (item e))); try done; intros e _;
    by rewrite ?selects_search_call, ?selects_custom_call.
Qed.

Lemma remove_corresponding_plain l i : key i = None -> remove_corresponding_for l i = l.
Proof. by case_item i. Qed.

Lemma output_no_call e k : output_key (item e) = Some k -> call_key (item e) = None.
Proof. by case_item (item e). Qed.

Lemma remove_first_item_unrelated e l :
  one_to_one (e :: l) -> remove_first_item (e :: l) = filter (unrelated (item e)) l.
Proof.
  intros (_ & Hc & Ho). simpl.
  assert (NoDup (calls l) /\ NoDup (outputs l)) as [Hc' Ho'].
  { split; [apply (sublist_NoDup _ _ Hc) | apply (sublist_NoDup _ _ Ho)]; apply sublist_omap; by constructor. }
  destruct (call_key (item e)) as [k|] eqn:Ek; [|destruct (output_key (item e)) as [k|] eqn:Eo].
  - rewrite (remove_corresponding_call _ _ k) by done. apply list_filter_iff'. intros e' He'.
    unfold unrelated, key. rewrite Ek.
    assert (call_key (item e') <> Some k) as Hn.
    { intros Hk. simpl in Hc. rewrite Ek in Hc. apply NoDup_cons in Hc as [Hc _]. apply Hc, elem_of_calls. eauto. }
    destruct (call_key (item e')) as [k'|] eqn:Ek'; [|naive_solver].
    rewrite (call_no_output _ _ Ek'). naive_solver.
  - rewrite (remove_corresponding_output _ _ k) by done. apply list_filter_iff'. intros e' He'.
    unfold unrelated, key. rewrite Ek, Eo.
    assert (output_key (item e') <> Some k) as Hn.
    { intros Hk. simpl in Ho. rewrite Eo in Ho. apply NoDup_cons in Ho as [Ho _]. apply Ho, elem_of_outputs. eauto. }
    destruct (call_key (item e')) as [k'|] eqn:Ek'; naive_solver.
  - rewrite remove_corresponding_plain by (unfold key; by rewrite Ek). symmetry. apply filter_everything.
    intros e' _. left. unfold key. by rewrite Ek.
Qed.

Lemma unrelated_one_to_one e l : one_to_one (e :: l) -> one_to_one (filter (unrelated (item e)) l).
Proof.
  intros ([Ha Hca] & Hc & Ho). rewrite Forall_forall in Ha, Hca.
  split; [|split; [apply (sublist_NoDup _ _ Hc) | apply (sublist_NoDup _ _ Ho)]; apply sublist_omap;
              constructor; apply sublist_filter].
  assert (forall e' o, unrelated (item e) e' -> key (item o) = key (item e') -> is_Some (key (item e')) ->
            o ∈ e :: l -> o ∈ filter (unrelated (item e)) l) as Hin.
  { intros e' o Hu Hk [k Hs] [-> | Hl]%elem_of_cons.
    - destruct Hu; congruence.
    - apply list_elem_of_filter. split; [|done]. unfold unrelated in *. by rewrite Hk. }
  split; apply Forall_forall; intros e' [Hu He']%list_elem_of_filter k Hk.
  - destruct (proj1 (elem_of_outputs _ _) (Ha e' ltac:(set_solver) k Hk)) as (o & Hol & Hok).
    apply elem_of_outputs. exists o. split; [|done]. apply (Hin e'); try done.
    + unfold key. by rewrite Hk, Hok, (output_no_call _ _ Hok).
    + unfold key. by rewrite Hk.
  - intros Hs. destruct (proj1 (elem_of_calls _ _) (Hca e' ltac:(set_solver) k Hk Hs)) as (o & Hol & Hok).
    apply elem_of_calls. exists o. split; [|done]. apply (Hin e'); try done.
    + unfold key. by rewrite Hok, Hk, (output_no_call _ _ Hk).
    + unfold key. by rewrite Hk, (output_no_call _ _ Hk).
Qed.

End History.

Section Pairing.
Context {IP : ItemPayloads}.

(** C37: normalising the history before it is sent to a model puts it in its
    normal form and strips the media the model does not support: an aborted output
    directly behind every call without one, the outputs without a call gone (a
    search the server ran needs none), everything else in place and in order. In
    the result every call has its output and every output its call. A build with
    debug assertions panics instead exactly when there is an orphan output or a
    shell or custom call without one; positions never go out of range. *)
Theorem normalize_history_paired (debug_assertions : bool) (modalities : list InputModality)
    (items : list ResponseItemEnvelope) :
  let images := bool_decide (ImageInput ∈ modalities) in
  let audio := bool_decide (AudioInput ∈ modalities) in
  let result := on_item (strip_media images audio) <$> normalized items in
  normalize_history debug_assertions modalities items =
    (if debug_assertions && existsb (fun e => loud items e || orphan items e) items then Panic
     else Return result) /\
  paired result /\ normalize_pairs debug_assertions result = Return result.
Proof.
  intros images audio result.
  assert (paired result) as Hp.
  { apply paired_map; [apply strip_media_keys|apply normalized_paired]. }
  split; [|split; [done|]].
  - unfold normalize_history. rewrite normalize_pairs_spec.
    destruct (debug_assertions && _); [done|]. simpl. by rewrite strip_media_items.
  - by rewrite normalize_pairs_spec, paired_quiet, andb_false_r, paired_normalized.
Qed.

(** Stripping replaces exactly the pieces of the media a model does not
    support, each by its notice with its own classification, in messages and in
    the outputs of tools: the other pieces keep their place, their content and
    their classification, and a message without classifications gets unknown
    ones. Supported media stay, and no unsupported piece is left. *)
Theorem strip_media_exact (modalities : list InputModality) (items : list ResponseItemEnvelope) :
  let images := bool_decide (ImageInput ∈ modalities) in
  let audio := bool_decide (AudioInput ∈ modalities) in
  let result := strip_audio_when_unsupported modalities (strip_images_when_unsupported modalities items) in
  (fun e => pieces (item e)) <$> result = (fun e => replace_piece images audio <$> pieces (item e)) <$> items /\
  (fun e => output_pieces (item e)) <$> result =
    (fun e => replace_output_piece images audio <$> output_pieces (item e)) <$> items /\
  envelope_metadata <$> result = envelope_metadata <$> items /\
  Forall (fun e =>
    Forall (fun a => (is_image (content a) -> images) /\ (is_audio (content a) -> audio)) (pieces (item e)) /\
    Forall (fun c => (is_fc_image c -> images) /\ (is_fc_audio c -> audio)) (output_pieces (item e))) result.
Proof.
  intros images audio result. unfold result. rewrite strip_media_items. fold images audio.
  split; [|split; [|split]].
  - rewrite <- list_fmap_compose. apply list_fmap_ext. intros _ e _. apply pieces_strip_media.
  - rewrite <- list_fmap_compose. apply list_fmap_ext. intros _ e _. apply output_pieces_strip_media.
  - by rewrite <- list_fmap_compose.
  - apply Forall_forall. intros ? (e & -> & _)%list_elem_of_fmap. simpl.
    rewrite pieces_strip_media, output_pieces_strip_media. clearbody images audio.
    split; apply Forall_forall; intros ? (x & -> & _)%list_elem_of_fmap.
    + destruct x as [[] k], images, audio; simpl; tauto.
    + destruct x, images, audio; simpl; tauto.
Qed.

(** In a history where ids pair calls and outputs one to one, removing the
    first item removes it and its counterpart and nothing else (whichever of call
    and output comes first, and for a function's output whichever of a function
    and a shell call made it), and the rest is one to one again. *)
Theorem remove_first_item_paired (e : ResponseItemEnvelope) (items : list ResponseItemEnvelope) :
  one_to_one (e :: items) ->
  remove_first_item (e :: items) = filter (unrelated (item e)) items /\
  one_to_one (remove_first_item (e :: items)).
Proof.
  intros H. rewrite remove_first_item_unrelated by done. split; [done|]. by apply unrelated_one_to_one.
Qed.

End Pairing.

(** ** Examples *)

Module HistoryExamples.

#[local] Instance unit_payloads : ItemPayloads := {|
  JsonValue := unit; JsonNumber := unit; ExecutedToolCall := unit; CodexHarnessMetadata := unit;
  WebSearchAction := unit; ReasoningEffort := unit; uuid_v5 := fun name => name;
|}.

Definition call (c : str) :=
  new_envelope (FunctionCall (Some (lit "fc1")) (lit "shell") None (lit "{}") None c None).
Definition output (c : str) := new_envelope (FunctionCallOutput None (Some c) None None (from_text (lit "ok")) None).
Definition custom (c : str) := new_envelope (CustomToolCall None None c (lit "apply_patch") None [] None).
Definition message (s : str) := new_envelope (Message None (lit "user") [InputText s] None None).

(** An unanswered call and an orphan output. *)
Example normalize_pairs_release :
  normalize_pairs false [message (lit "hi"); call (lit "a"); output (lit "z"); message (lit "bye")] =
    Return [message (lit "hi"); call (lit "a");
            new_envelope (FunctionCallOutput (Some (lit "fco_fco:fc1")) (Some (lit "a")) None None
                            (from_text (lit "aborted")) None);
            message (lit "bye")].
Proof. by vm_compute. Qed.

(** A picture for a model that reads text: the notice keeps its classification
    apart from the text beside it. *)
Example normalize_history_picture :
  normalize_history false [TextInput]
    [new_envelope (Message None (lit "user") [InputText (lit "see"); InputImage (Inline (lit "data:")) None] None None)] =
  Return [new_envelope (Message None (lit "user") [InputText (lit "see"); InputText (notice_text IMAGE)] None
            (Some (with_kinds default_passthrough (Some [lit "unknown"; lit "images.unsupported"]))))].
Proof. by vm_compute. Qed.

Example normalize_pairs_debug : normalize_pairs true [custom (lit "a")] = Panic.
Proof. by vm_compute. Qed.

Definition shell (c : str) :=
  new_envelope (LocalShellCall None (Some c) Completed (Exec (mkExecAction [lit "ls"] None None None None)) None).
Definition one_to_one_history :=
  [output (lit "s"); message (lit "hi"); shell (lit "s"); call (lit "a"); output (lit "a")].

Lemma remove_first_item_paired_witness :
  one_to_one one_to_one_history /\
  remove_first_item one_to_one_history = [message (lit "hi"); call (lit "a"); output (lit "a")].
Proof.
  assert (one_to_one one_to_one_history) as H.
  { split; [split|split]; apply (bool_decide_unpack _); by vm_compute. }
  split; [done|]. etransitivity; [exact (proj1 (remove_first_item_paired _ _ H))|]. by vm_compute.
Defined.

End HistoryExamples.
