(* ===== verification/NetAddr.v ===== *)
(** * IP addresses

    The addresses of Rust's [std::net] that network-proxy/src/policy.rs uses:
    parsing of IPv4 and IPv6 literals, the classification methods, and the
    proxy's own decision of which addresses are not public. An address is its
    octets or segments; masks are bit operations on the 32-bit value, as in the
    source. *)

From S2P Require Import Prelude RustStr.
From Stdlib Require Import ZifyBool.

Inductive Ipv4Addr := V4 (a b c d : N).
(** The eight segments *)
Inductive Ipv6Addr := V6 (segments : list N).
Inductive IpAddr := IpV4 (ip : Ipv4Addr) | IpV6 (ip : Ipv6Addr).

#[export] Instance Ipv4Addr_eq_dec : EqDecision Ipv4Addr.
Proof. solve_decision. Defined.
#[export] Instance Ipv6Addr_eq_dec : EqDecision Ipv6Addr.
Proof. solve_decision. Defined.
#[export] Instance IpAddr_eq_dec : EqDecision IpAddr.
Proof. solve_decision. Defined.

(** ** Parsing literals

    A reader takes the text that is left and returns a value and the rest; where
    it fails nothing has been read. *)

Definition reader A : Type := str -> option (A * str).

#[export] Instance reader_ret : MRet reader := fun A a s => Some (a, s).
#[export] Instance reader_bind : MBind reader := fun A B f r s =>
  match r s with Some (a, s) => f a s | None => None end.

Definition read_given_char (c : char) : reader unit := fun s =>
  match s with d :: s => if (d =? c)%N then Some (tt, s) else None | [] => None end.

(** [char::to_digit] *)
Definition to_digit (radix : N) (c : char) : option N :=
  let digit := if is_ascii_digit c then Some (c - 48)%N
               else if in_range 97 122 c then Some (c - 87)%N
               else if in_range 65 90 c then Some (c - 55)%N
               else None in
  match digit with Some d => if (d <? radix)%N then Some d else None | None => None end.

(** The longest run of digits, as values *)
Fixpoint read_digits (radix : N) (s : str) : list N * str :=
  match s with
  | c :: s' =>
      match to_digit radix c with
      | Some d => let '(ds, r) := read_digits radix s' in (d :: ds, r)
      | None => ([], s)
      end
  | [] => ([], [])
  end.

(** A number of at most [max_digits] digits that is at most [limit]. *)
Definition read_number (radix limit : N) (max_digits : nat) (allow_zero_prefix : bool) : reader N := fun s =>
  let '(ds, r) := read_digits radix s in
  let n := foldl (fun acc d => acc * radix + d)%N 0%N ds in
  if max_digits <? length ds then None
  else if length ds =? 0 then None
  else if negb allow_zero_prefix && (1 <? length ds) && (match s with c :: _ => (c =? 48)%N | [] => false end) then None
  else if (limit <? n)%N then None
  else Some (n, r).

Definition read_separator {A} (sep : char) (index : nat) (inner : reader A) : reader A :=
  match index with
  | 0 => inner
  | S _ => _ ← read_given_char sep; inner
  end.

Definition read_ipv4_addr : reader Ipv4Addr :=
  let octet i := read_separator 46%N i (read_number 10 255 3 false) in
  a ← octet 0; b ← octet 1; c ← octet 2; d ← octet 3; mret (V4 a b c d).

(** The groups from index [i], up to [n] more of them, and whether the last two
    came from an embedded IPv4 address. *)
Fixpoint read_groups (n i : nat) (s : str) : (list N * bool) * str :=
  match n with
  | 0 => (([], false), s)
  | S n =>
      let embedded := if 0 <? n then read_separator 58%N i read_ipv4_addr s else None in
      match embedded with
      | Some (V4 a b c d, s) => (([a * 256 + b; c * 256 + d]%N, true), s)
      | None =>
          match read_separator 58%N i (read_number 16 65535 4 true) s with
          | Some (g, s) => let '((gs, v4), s) := read_groups n (S i) s in ((g :: gs, v4), s)
          | None => (([], false), s)
          end
      end
  end.

Definition read_ipv6_addr : reader Ipv6Addr := fun s =>
  let '((head, head_ipv4), s) := read_groups 8 0 s in
  if length head =? 8 then Some (V6 head, s)
  else if head_ipv4 then None
  else
    match (_ ← read_given_char 58%N; read_given_char 58%N) s with
    | None => None
    | Some (_, s) =>
        let '((tail, _), s) := read_groups (8 - (length head + 1)) 0 s in
        Some (V6 (head ++ replicate (8 - length head - length tail) 0%N ++ tail), s)
    end.

(** [str::parse::<IpAddr>]: the whole text is one address. *)
Definition parse_ip (s : str) : option IpAddr :=
  let whole {A} (r : option (A * str)) := match r with Some (a, []) => Some a | _ => None end in
  match read_ipv4_addr s with
  | Some (ip, r) => whole (Some (IpV4 ip, r))
  | None => IpV6 <$> whole (read_ipv6_addr s)
  end.

(** ** Classification *)

(** [u32::from] *)
Definition u32_from (ip : Ipv4Addr) : N :=
  let '(V4 a b c d) := ip in (N.shiftl a 24 + N.shiftl b 16 + N.shiftl c 8 + d)%N.

Definition v4_is_loopback (ip : Ipv4Addr) : bool := let '(V4 a _ _ _) := ip in (a =? 127)%N.
Definition v4_is_private (ip : Ipv4Addr) : bool :=
  let '(V4 a b _ _) := ip in
  (a =? 10)%N || ((a =? 172) && ((16 <=? b) && (b <=? 31)))%N || ((a =? 192) && (b =? 168))%N.
Definition v4_is_link_local (ip : Ipv4Addr) : bool := let '(V4 a b _ _) := ip in ((a =? 169) && (b =? 254))%N.
Definition v4_is_unspecified (ip : Ipv4Addr) : bool := (u32_from ip =? 0)%N.
Definition v4_is_multicast (ip : Ipv4Addr) : bool := let '(V4 a _ _ _) := ip in ((224 <=? a) && (a <=? 239))%N.
Definition v4_is_broadcast (ip : Ipv4Addr) : bool := (u32_from ip =? 4294967295)%N.

Definition segment (i : nat) (ip : Ipv6Addr) : N := let '(V6 s) := ip in nth i s 0%N.
Definition v6_is_loopback (ip : Ipv6Addr) : bool := bool_decide (ip = V6 [0; 0; 0; 0; 0; 0; 0; 1]%N).
Definition v6_is_unspecified (ip : Ipv6Addr) : bool := bool_decide (ip = V6 [0; 0; 0; 0; 0; 0; 0; 0]%N).
Definition v6_is_multicast (ip : Ipv6Addr) : bool := (N.land (segment 0 ip) 65280 =? 65280)%N.
Definition v6_is_unique_local (ip : Ipv6Addr) : bool := (N.land (segment 0 ip) 65024 =? 64512)%N.
Definition v6_is_unicast_link_local (ip : Ipv6Addr) : bool := (N.land (segment 0 ip) 65472 =? 65152)%N.
(** [Ipv6Addr::to_ipv4]: compatible and mapped addresses *)
Definition to_ipv4 (ip : Ipv6Addr) : option Ipv4Addr :=
  match ip with
  | V6 [0; 0; 0; 0; 0; x; ab; cd]%N =>
      if (x =? 0)%N || (x =? 65535)%N
      then Some (V4 (N.shiftr ab 8) (N.land ab 255) (N.shiftr cd 8) (N.land cd 255))
      else None
  | _ => None
  end.

Definition is_loopback (ip : IpAddr) : bool :=
  match ip with IpV4 ip => v4_is_loopback ip | IpV6 ip => v6_is_loopback ip end.

Definition u32_max : N := 4294967295.

Definition ipv4_in_cidr (ip base : Ipv4Addr) (prefix : N) : bool :=
  let ip := u32_from ip in
  let base := u32_from base in
  let mask := if (prefix =? 0)%N then 0%N else N.land (N.shiftl u32_max (32 - prefix)) u32_max in
  (N.land ip mask =? N.land base mask)%N.

Definition is_non_public_ipv4 (ip : Ipv4Addr) : bool :=
  v4_is_loopback ip || v4_is_private ip || v4_is_link_local ip || v4_is_unspecified ip
  || v4_is_multicast ip || v4_is_broadcast ip
  || ipv4_in_cidr ip (V4 0 0 0 0) 8 || ipv4_in_cidr ip (V4 100 64 0 0) 10
  || ipv4_in_cidr ip (V4 192 0 0 0) 24 || ipv4_in_cidr ip (V4 192 0 2 0) 24
  || ipv4_in_cidr ip (V4 198 18 0 0) 15 || ipv4_in_cidr ip (V4 198 51 100 0) 24
  || ipv4_in_cidr ip (V4 203 0 113 0) 24 || ipv4_in_cidr ip (V4 240 0 0 0) 4.

Definition is_non_public_ipv6 (ip : Ipv6Addr) : bool :=
  match to_ipv4 ip with
  | Some v4 => is_non_public_ipv4 v4 || v6_is_loopback ip
  | None =>
      v6_is_loopback ip || v6_is_unspecified ip || v6_is_multicast ip
      || v6_is_unique_local ip || v6_is_unicast_link_local ip
  end.

Definition is_non_public_ip (ip : IpAddr) : bool :=
  match ip with IpV4 ip => is_non_public_ipv4 ip | IpV6 ip => is_non_public_ipv6 ip end.

Definition is_private_network_ip (ip : IpAddr) : bool :=
  match ip with
  | IpV4 ip => v4_is_private ip || ipv4_in_cidr ip (V4 100 64 0 0) 10
  | IpV6 ip =>
      match to_ipv4 ip with
      | Some ip => v4_is_private ip || ipv4_in_cidr ip (V4 100 64 0 0) 10
      | None => v6_is_unique_local ip
      end
  end.

(** ** Well-formed addresses *)

Definition octet (n : N) : Prop := (n < 256)%N.
Definition v4_wf (ip : Ipv4Addr) : Prop := let '(V4 a b c d) := ip in octet a /\ octet b /\ octet c /\ octet d.
Definition v6_wf (ip : Ipv6Addr) : Prop :=
  let '(V6 s) := ip in length s = 8 /\ Forall (fun g => g < 65536)%N s.
Definition ip_wf (ip : IpAddr) : Prop := match ip with IpV4 ip => v4_wf ip | IpV6 ip => v6_wf ip end.

Example parse_ip_v4 : parse_ip (lit "192.168.0.1") = Some (IpV4 (V4 192 168 0 1)).
Proof. by vm_compute. Qed.
Example parse_ip_leading_zero : parse_ip (lit "192.168.00.1") = None.
Proof. by vm_compute. Qed.
Example parse_ip_mapped : parse_ip (lit "::ffff:127.0.0.1") = Some (IpV6 (V6 [0; 0; 0; 0; 0; 65535; 32512; 1]%N)).
Proof. by vm_compute. Qed.
Example parse_ip_loopback : parse_ip (lit "::1") = Some (IpV6 (V6 [0; 0; 0; 0; 0; 0; 0; 1]%N)).
Proof. by vm_compute. Qed.
Example parse_ip_v4_middle : parse_ip (lit "1.2.3.4::") = None.
Proof. by vm_compute. Qed.
Example parse_ip_full : parse_ip (lit "1:2:3:4:5:6:7::") = Some (IpV6 (V6 [1; 2; 3; 4; 5; 6; 7; 0]%N)).
Proof. by vm_compute. Qed.
Example parse_ip_too_many : parse_ip (lit "1:2:3:4:5:6:7:8:9") = None.
Proof. by vm_compute. Qed.

(** ** Which addresses are not public *)

(** A block of addresses: the ones that agree with the base in the first
    [prefix] bits. *)
Definition in_block (ip : Ipv4Addr) (block : Ipv4Addr * N) : Prop :=
  (u32_from ip / 2 ^ (32 - block.2) = u32_from block.1 / 2 ^ (32 - block.2))%N.

(** The special-purpose blocks *)
Definition special_blocks : list (Ipv4Addr * N) :=
  [(V4 0 0 0 0, 8); (V4 10 0 0 0, 8); (V4 100 64 0 0, 10); (V4 127 0 0 0, 8); (V4 169 254 0 0, 16);
   (V4 172 16 0 0, 12); (V4 192 0 0 0, 24); (V4 192 0 2 0, 24); (V4 192 168 0 0, 16); (V4 198 18 0 0, 15);
   (V4 198 51 100 0, 24); (V4 203 0 113 0, 24); (V4 224 0 0 0, 4); (V4 240 0 0 0, 4)]%N.

Definition v4_special (ip : Ipv4Addr) : Prop := Exists (in_block ip) special_blocks.

(** An IPv6 address is special where the IPv4 address it embeds is, and otherwise
    in ff00::/8, fc00::/7 and fe80::/10. *)
Definition v6_special (ip : Ipv6Addr) : Prop :=
  match to_ipv4 ip with
  | Some v4 => v4_special v4
  | None =>
      let s := segment 0 ip in
      (65280 <= s)%N \/ (64512 <= s < 65024)%N \/ (65152 <= s < 65216)%N
  end.

Definition ip_special (ip : IpAddr) : Prop := match ip with IpV4 ip => v4_special ip | IpV6 ip => v6_special ip end.

(** Keeping the high bits of a [w]-bit number is shifting the low ones out. *)
Lemma mask_shift (w k x : N) :
  (x < 2 ^ w)%N -> N.land x (N.land (N.shiftl (N.ones w) k) (N.ones w)) = N.shiftl (N.shiftr x k) k.
Proof.
  intros Hx. apply N.bits_inj. intros n. rewrite !N.land_spec.
  destruct (N.lt_ge_cases n k) as [Hn|Hn].
  - rewrite (N.shiftl_spec_low _ _ _ Hn), (N.shiftl_spec_low (N.shiftr x k) _ _ Hn). by rewrite andb_false_r.
  - rewrite (N.shiftl_spec_high' _ _ _ Hn), (N.shiftl_spec_high' (N.shiftr x k) _ _ Hn), N.shiftr_spec'.
    replace (n - k + k)%N with n by lia. destruct (N.lt_ge_cases n w) as [Hw|Hw].
    + by rewrite !N.ones_spec_low, !andb_true_r by lia.
    + assert (N.testbit x n = false) as ->; [|done].
      destruct (N.eq_dec x 0%N) as [->|Hz]; [apply N.bits_0|]. apply N.bits_above_log2.
      apply N.log2_lt_pow2; [lia|]. eapply N.lt_le_trans; [exact Hx|]. by apply N.pow_le_mono_r.
Qed.

Lemma masked_eq (w k x y : N) :
  (x < 2 ^ w)%N -> (y < 2 ^ w)%N ->
  let mask := N.land (N.shiftl (N.ones w) k) (N.ones w) in
  N.land x mask = N.land y mask <-> (x / 2 ^ k = y / 2 ^ k)%N.
Proof.
  intros Hx Hy. cbv zeta. rewrite !mask_shift by done. rewrite !N.shiftl_mul_pow2, !N.shiftr_div_pow2.
  rewrite N.mul_cancel_r; [done|]. apply N.pow_nonzero. lia.
Qed.

Lemma u32_from_sum a b c d : u32_from (V4 a b c d) = (a * 16777216 + b * 65536 + c * 256 + d)%N.
Proof. unfold u32_from. by rewrite !N.shiftl_mul_pow2. Qed.

Lemma u32_from_bound ip : v4_wf ip -> (u32_from ip < 2 ^ 32)%N.
Proof. destruct ip as [a b c d]. unfold v4_wf, octet. rewrite u32_from_sum. lia. Qed.

Lemma ipv4_in_cidr_block ip base p :
  v4_wf ip -> v4_wf base -> (0 < p)%N -> ipv4_in_cidr ip base p = true <-> in_block ip (base, p).
Proof.
  intros Hi Hb Hp. unfold ipv4_in_cidr, in_block. replace (p =? 0)%N with false by lia.
  rewrite N.eqb_eq. apply (masked_eq 32); by apply u32_from_bound.
Qed.

(** A block whose prefix is a number of whole bits of the octets *)
Ltac block_arith :=
  unfold in_block, v4_wf, octet in *; cbn [fst snd];
  rewrite ?u32_from_sum;
  change (2 ^ (32 - 8))%N with 16777216%N; change (2 ^ (32 - 16))%N with 65536%N;
  change (2 ^ (32 - 12))%N with 1048576%N; change (2 ^ (32 - 4))%N with 268435456%N;
  zify; Z.to_euclidean_division_equations; lia.

Lemma block_loopback ip : v4_wf ip -> v4_is_loopback ip = true <-> in_block ip (V4 127 0 0 0, 8%N).
Proof. destruct ip as [a b c d]. intros H. unfold v4_is_loopback. block_arith. Qed.

Lemma block_private ip :
  v4_wf ip -> v4_is_private ip = true <->
    in_block ip (V4 10 0 0 0, 8%N) \/ in_block ip (V4 172 16 0 0, 12%N) \/ in_block ip (V4 192 168 0 0, 16%N).
Proof. destruct ip as [a b c d]. intros H. unfold v4_is_private. block_arith. Qed.

Lemma block_link_local ip : v4_wf ip -> v4_is_link_local ip = true <-> in_block ip (V4 169 254 0 0, 16%N).
Proof. destruct ip as [a b c d]. intros H. unfold v4_is_link_local. block_arith. Qed.

Lemma block_unspecified ip : v4_wf ip -> v4_is_unspecified ip = true -> in_block ip (V4 0 0 0 0, 8%N).
Proof. destruct ip as [a b c d]. intros H. unfold v4_is_unspecified. block_arith. Qed.

Lemma block_multicast ip : v4_wf ip -> v4_is_multicast ip = true <-> in_block ip (V4 224 0 0 0, 4%N).
Proof. destruct ip as [a b c d]. intros H. unfold v4_is_multicast. block_arith. Qed.

Lemma block_broadcast ip : v4_wf ip -> v4_is_broadcast ip = true -> in_block ip (V4 240 0 0 0, 4%N).
Proof. destruct ip as [a b c d]. intros H. unfold v4_is_broadcast. block_arith. Qed.

Lemma non_public_v4 ip : v4_wf ip -> is_non_public_ipv4 ip = true <-> v4_special ip.
Proof.
  intros H. unfold is_non_public_ipv4, v4_special, special_blocks.
  rewrite !Exists_cons, Exists_nil, !orb_true_iff, !(ipv4_in_cidr_block ip) by (done || (unfold v4_wf, octet; lia)).
  rewrite (block_loopback ip), (block_private ip), (block_link_local ip), (block_multicast ip) by done.
  pose proof (block_unspecified ip H). pose proof (block_broadcast ip H). tauto.
Qed.

(** The high bits of a segment *)
Lemma segment_mask (s c k : N) :
  (s < 65536)%N -> (c < 65536)%N -> (c mod 2 ^ k = 0)%N ->
  N.land s (N.land (N.shiftl (N.ones 16) k) (N.ones 16)) = c <-> (c <= s < c + 2 ^ k)%N.
Proof.
  intros Hs Hc Hk. rewrite mask_shift by done. rewrite N.shiftl_mul_pow2, N.shiftr_div_pow2.
  assert (0 < 2 ^ k)%N by (apply N.neq_0_lt_0, N.pow_nonzero; lia).
  generalize dependent (2 ^ k)%N. intros m Hk Hm.
  pose proof (N.div_mod s m ltac:(lia)) as Es. pose proof (N.mod_lt s m ltac:(lia)).
  pose proof (N.div_mod c m ltac:(lia)) as Ec. rewrite Hk in Ec. rewrite (N.mul_comm m) in Es, Ec.
  split.
  - intros E. rewrite E in Es. generalize dependent (s mod m)%N. clear. lia.
  - intros Hr. rewrite <- (N.div_unique s m (c / m) (s - c)); lia.
Qed.

Lemma segment_bound i ip : v6_wf ip -> (segment i ip < 65536)%N.
Proof.
  destruct ip as [s]. intros [_ Hs]. simpl. destruct (Nat.lt_ge_cases i (length s)) as [Hi|Hi].
  - rewrite Forall_forall in Hs. apply Hs, list_elem_of_In, nth_In, Hi.
  - by rewrite nth_overflow by done.
Qed.

Lemma to_ipv4_wf ip v4 : v6_wf ip -> to_ipv4 ip = Some v4 -> v4_wf v4.
Proof.
  destruct ip as [s]. intros [_ Hs]. unfold to_ipv4. repeat case_match; intros; simplify_eq.
  rewrite !Forall_cons in Hs. unfold v4_wf, octet. rewrite !N.shiftr_div_pow2.
  change 255%N with (N.ones 8). rewrite !N.land_ones. change (2 ^ 8)%N with 256%N.
  destruct_and!. repeat split; try (apply N.mod_lt; lia); apply N.Div0.div_lt_upper_bound; lia.
Qed.

Lemma non_public_v6 ip : v6_wf ip -> is_non_public_ipv6 ip = true <-> v6_special ip.
Proof.
  intros H. unfold is_non_public_ipv6, v6_special. destruct (to_ipv4 ip) as [v4|] eqn:E.
  - rewrite orb_true_iff, non_public_v4 by (by eapply to_ipv4_wf). split; [|by left].
    intros [?|Hl]; [done|]. apply bool_decide_eq_true in Hl. subst ip. simplify_eq/=.
    apply non_public_v4; [unfold v4_wf, octet; vm_compute; tauto|by vm_compute].
  - rewrite !orb_true_iff. pose proof (segment_bound 0 ip H) as Hs.
    assert (v6_is_loopback ip = false) as ->.
    { apply bool_decide_eq_false. intros ->. by vm_compute in E. }
    assert (v6_is_unspecified ip = false) as ->.
    { apply bool_decide_eq_false. intros ->. by vm_compute in E. }
    unfold v6_is_multicast, v6_is_unique_local, v6_is_unicast_link_local. rewrite !N.eqb_eq.
    pose proof (segment_mask (segment 0 ip) 65280 8 Hs ltac:(done) ltac:(done)) as H1.
    pose proof (segment_mask (segment 0 ip) 64512 9 Hs ltac:(done) ltac:(done)) as H2.
    pose proof (segment_mask (segment 0 ip) 65152 6 Hs ltac:(done) ltac:(done)) as H3.
    cbv zeta in *. vm_compute (N.land (N.shiftl _ _) _) in H1, H2, H3. simpl in H1, H2, H3.
    rewrite H1, H2, H3. lia.
Qed.

(** ** Literals *)

Lemma read_number_bound radix limit k z s n r : read_number radix limit k z s = Some (n, r) -> (n <= limit)%N.
Proof. unfold read_number. destruct (read_digits radix s). repeat case_match; intros; simplify_eq; lia. Qed.

Lemma read_separator_inner {A} sep i (inner : reader A) s a r :
  read_separator sep i inner s = Some (a, r) -> exists s', inner s' = Some (a, r).
Proof.
  destruct i; simpl; [by eauto|]. unfold mbind, reader_bind. destruct (read_given_char sep s) as [[[] s']|]; [|done]. eauto.
Qed.

Lemma read_ipv4_wf s ip r : read_ipv4_addr s = Some (ip, r) -> v4_wf ip.
Proof.
  unfold read_ipv4_addr. cbv zeta. unfold mbind, reader_bind.
  assert (forall i s n r, read_separator 46%N i (read_number 10 255 3 false) s = Some (n, r) -> octet n) as H.
  { intros i s0 n r0 (s' & ?%read_number_bound)%read_separator_inner. unfold octet. lia. }
  repeat (match goal with |- context [read_separator 46%N ?i ?r ?s] =>
            destruct (read_separator 46%N i r s) as [[? ?]|] eqn:?; [|done] end).
  intros [= <- <-]. unfold v4_wf. eauto 10.
Qed.

Lemma read_groups_wf n i s gs v4 r :
  read_groups n i s = ((gs, v4), r) -> length gs <= n /\ Forall (fun g => g < 65536)%N gs.
Proof.
  revert i s gs v4 r. induction n as [|n IH]; intros i s gs v4 r; cbn [read_groups].
  { intros; by simplify_eq. }
  destruct (if 0 <? n then read_separator 58%N i read_ipv4_addr s else None) as [[[a b c d] s']|] eqn:E.
  - intros; simplify_eq. destruct n; [done|]. cbn [Nat.ltb Nat.leb] in E.
    apply read_separator_inner in E as (? & (? & ? & ? & ?)%read_ipv4_wf). unfold octet in *.
    split; [simpl; lia|]. repeat constructor; lia.
  - clear E. destruct (read_separator _ i (read_number _ _ _ _) s) as [[g s']|] eqn:E.
    + destruct (read_groups n (S i) s') as [[gs' v4'] r'] eqn:Eg. intros; simplify_eq.
      apply IH in Eg as [? ?]. apply read_separator_inner in E as (? & ?%read_number_bound).
      split; [simpl; lia|]. constructor; [lia|done].
    + intros; simplify_eq. simpl. split; [lia|constructor].
Qed.

Lemma read_ipv6_wf s ip r : read_ipv6_addr s = Some (ip, r) -> v6_wf ip.
Proof.
  unfold read_ipv6_addr. destruct (read_groups 8 0 s) as [[head v4] s'] eqn:Eh.
  apply read_groups_wf in Eh as [Hl Hh]. destruct (length head =? 8) eqn:E8.
  { intros; simplify_eq. split; [by apply Nat.eqb_eq|done]. }
  destruct v4; [done|]. apply Nat.eqb_neq in E8.
  destruct ((_ ← read_given_char 58%N; read_given_char 58%N) s') as [[[] s'']|]; [|done].
  destruct (read_groups (8 - (length head + 1)) 0 s'') as [[tail v4] r'] eqn:Et.
  apply read_groups_wf in Et as [Hl' Ht]. intros; simplify_eq. split.
  - rewrite !length_app, length_replicate. lia.
  - rewrite !Forall_app. split_and!; [done| |done]. apply Forall_replicate. lia.
Qed.

Lemma parse_ip_wf s ip : parse_ip s = Some ip -> ip_wf ip.
Proof.
  unfold parse_ip. cbv zeta. destruct (read_ipv4_addr s) as [[v4 r]|] eqn:E4.
  - destruct r; [|done]. intros [= <-]. by eapply read_ipv4_wf.
  - destruct (read_ipv6_addr s) as [[v6 r]|] eqn:E6; [|done]. destruct r; [|done].
    intros [= <-]. by eapply read_ipv6_wf.
Qed.

(** An IPv4 address as [Display] writes it *)
Definition ipv4_text (ip : Ipv4Addr) : str :=
  let '(V4 a b c d) := ip in join (lit ".") [show a; show b; show c; show d].

Definition no_digit (r : str) : Prop := match r with c :: _ => to_digit 10 c = None | [] => True end.

Lemma read_digits_app radix s ds r :
  read_digits radix s = (ds, []) -> (forall c r', r = c :: r' -> to_digit radix c = None) ->
  read_digits radix (s ++ r) = (ds, r).
Proof.
  intros Hs Hr. revert ds Hs. induction s as [|c s IH]; intros ds; simpl.
  - intros; simplify_eq. destruct r as [|c r]; [done|]. simpl. by rewrite (Hr _ _ eq_refl).
  - destruct (to_digit radix c); [|done]. destruct (read_digits radix s) as [ds' r'] eqn:E.
    intros; simplify_eq. by rewrite (IH _ eq_refl).
Qed.

Definition octet_reads (n : N) : bool :=
  bool_decide (read_number 10 255 3 false (show n) = Some (n, []) /\ (read_digits 10 (show n)).2 = [] /\ show n <> []).

Lemma octets_read : forallb octet_reads (N.of_nat <$> seq 0 256) = true.
Proof. by vm_compute. Qed.

Lemma read_octet n r :
  octet n -> no_digit r -> read_number 10 255 3 false (show n ++ r) = Some (n, r).
Proof.
  intros Hn Hr. pose proof octets_read as H. rewrite forallb_forall in H.
  specialize (H n). rewrite <- list_elem_of_In in H. unfold octet_reads in H. rewrite bool_decide_eq_true in H.
  destruct H as (H1 & H2 & H3).
  { apply list_elem_of_fmap. exists (N.to_nat n). split; [lia|]. apply elem_of_seq. unfold octet in Hn. lia. }
  unfold read_number in *. destruct (read_digits 10 (show n)) as [ds r'] eqn:E. simpl in H2. subst r'.
  rewrite (read_digits_app _ _ _ _ E) by (intros c r' ->; exact Hr).
  destruct (show n) as [|c s] eqn:Es; [done|]. simpl in *.
  repeat case_match; try done; by simplify_eq.
Qed.

Lemma parse_ipv4_text ip : v4_wf ip -> parse_ip (ipv4_text ip) = Some (IpV4 ip).
Proof.
  destruct ip as [a b c d]. intros (Ha & Hb & Hc & Hd). unfold parse_ip. cbv zeta.
  assert (read_ipv4_addr (ipv4_text (V4 a b c d)) = Some (V4 a b c d, [])) as ->; [|done].
  assert (ipv4_text (V4 a b c d) = show a ++ [46%N] ++ show b ++ [46%N] ++ show c ++ [46%N] ++ show d ++ []) as ->
    by (rewrite app_nil_r; done).
  unfold read_ipv4_addr. cbv zeta. cbn [read_separator]. unfold mbind, reader_bind.
  rewrite read_octet by (done || by vm_compute). cbn [app read_given_char N.eqb Pos.eqb].
  rewrite read_octet by (done || by vm_compute). cbn [app read_given_char N.eqb Pos.eqb].
  rewrite read_octet by (done || by vm_compute). cbn [app read_given_char N.eqb Pos.eqb].
  by rewrite read_octet by (done || by vm_compute).
Qed.


Module AddrExamples.


(** An IPv4 destination behind a NAT64 gateway counts as public, whichever
    address it is: here 127.0.0.1 as 64:ff9b::7f00:1. *)
Example nat64_is_public : option_map is_non_public_ip (parse_ip (lit "64:ff9b::7f00:1")) = Some false.
Proof. by vm_compute. Qed.

(** The documentation block 2001:db8::/32 is not globally routable either. *)
Example documentation_v6_is_public : option_map is_non_public_ip (parse_ip (lit "2001:db8::1")) = Some false.
Proof. by vm_compute. Qed.

End AddrExamples.
