(* ===== verification/HostPattern.v ===== *)
(** * Hosts and domain patterns of the network proxy

    network-proxy/src/policy.rs: normalising hosts, domain patterns ([example.com],
    [*.example.com] and [**.example.com]), their compilation to globs, and the
    comparison of patterns that keeps a configuration within the managed one. The
    reference is [covers]: the hosts a pattern stands for. *)

From S2P Require Import Prelude RustStr NetAddr.

(** ** Parameters *)

(** The [globset] crate, for case-insensitive globs. *)
Class Globset := {
  GlobError : Type;
  Glob : Type;
  GlobSet : Type;
  build_glob : str -> result GlobError Glob;
  glob_is_match : Glob -> str -> bool;
  build_set : list Glob -> result GlobError GlobSet;
  is_match : GlobSet -> str -> bool;
}.

(** [url::Host::parse] and its text *)
Class UrlHosts := { url_host_parse : str -> option str }.

(** ** Hosts *)

Definition dot : char := 46%N.
Definition star : char := 42%N.
Definition percent : char := 37%N.

(** [str::split_once] with a string *)
Definition split_once_str (delimiter s : str) : option (str * str) :=
  match find delimiter s with
  | Some i => Some (take i s, drop (i + length delimiter) s)
  | None => None
  end.

Definition parses_as_ip (s : str) : bool := match parse_ip s with Some _ => true | None => false end.

Fixpoint first_scoped (host : str) (delimiters : list str) : option str :=
  match delimiters with
  | [] => None
  | delimiter :: delimiters =>
      match split_once_str delimiter host with
      | Some (ip, scope) =>
          if parses_as_ip ip then Some (ip ++ lit "%" ++ scope) else first_scoped host delimiters
      | None => first_scoped host delimiters
      end
  end.

Definition normalize_ip_literal (host : str) : option str :=
  if parses_as_ip host then Some host else first_scoped host [lit "%25"; lit "%"].

Definition unscoped_ip_literal (host : str) : option str :=
  match split_once percent host with
  | Some (ip, _) => if parses_as_ip ip then Some ip else None
  | None => None
  end.

Definition trim_dots : str -> str := trim_end_matches (fun c => c =? dot)%N.

Definition normalize_dns_host_or_ip_literal (host : str) : str :=
  let host := trim_dots (to_ascii_lowercase host) in
  default host (normalize_ip_literal host).

Definition count_char (c : char) (s : str) : nat := length (filter (fun d => d = c) s).

Definition normalize_host (host : str) : str :=
  let host := trim host in
  let unbracketed :=
    if count_char 58%N host =? 1
    then normalize_dns_host_or_ip_literal (default [] (head (split_on 58%N host)))
    else normalize_dns_host_or_ip_literal host in
  if starts_with (lit "[") host then
    match find (lit "]") host with
    | Some end_ => normalize_dns_host_or_ip_literal (drop 1 (take end_ host))
    | None => unbracketed
    end
  else unbracketed.

(** [Host::parse]; a [Host] is its text. *)
Definition parse_host (input : str) : option str :=
  let normalized := normalize_host input in if is_empty normalized then None else Some normalized.

Definition is_loopback_host (host : str) : bool :=
  let host := default host (unscoped_ip_literal host) in
  if str_eqb host (lit "localhost") then true
  else match parse_ip host with Some ip => is_loopback ip | None => false end.

Definition is_default_proxy_bypass_host (host : str) : bool :=
  let host := normalize_host host in
  match parse_ip host with
  | Some (IpV4 ip) => bool_decide (ip = V4 127 0 0 1) || v4_is_private ip
  | Some (IpV6 ip) => bool_decide (ip = V6 [0; 0; 0; 0; 0; 0; 0; 1]%N)
  | None => str_eqb host (lit "localhost") || ends_with (lit ".localhost") host
  end.

(** ** Patterns *)

Definition normalize_pattern (pattern : str) : str :=
  let pattern := trim pattern in
  if str_eqb pattern (lit "*") then lit "*"
  else
    let '(prefix, remainder) :=
      match strip_prefix (lit "**.") pattern with
      | Some domain => (lit "**.", domain)
      | None =>
          match strip_prefix (lit "*.") pattern with
          | Some domain => (lit "*.", domain)
          | None => ([], pattern)
          end
      end in
    let remainder := normalize_host remainder in
    if is_empty prefix then remainder else prefix ++ remainder.

Inductive DomainPattern :=
| ApexAndSubdomains (domain : str)
| SubdomainsOnly (domain : str)
| Exact (domain : str).

Definition parse_domain (domain : str) (build : str -> DomainPattern) : DomainPattern :=
  let domain := trim domain in if is_empty domain then Exact [] else build domain.

Definition parse_pattern (input : str) : DomainPattern :=
  let input := trim input in
  if is_empty input then Exact []
  else
    match strip_prefix (lit "**.") input with
    | Some domain => parse_domain domain ApexAndSubdomains
    | None =>
        match strip_prefix (lit "*.") input with
        | Some domain => parse_domain domain SubdomainsOnly
        | None => Exact input
        end
    end.

Definition expand_domain_pattern (pattern : str) : list str :=
  match parse_pattern pattern with
  | Exact domain => [domain]
  | SubdomainsOnly domain => [lit "?*." ++ domain]
  | ApexAndSubdomains domain => [domain; lit "?*." ++ domain]
  end.

Definition is_global_wildcard_domain_pattern (pattern : str) : bool :=
  existsb (fun candidate => str_eqb candidate (lit "*")) (expand_domain_pattern (normalize_pattern pattern)).

Definition normalize_domain (domain : str) : str := to_ascii_lowercase (trim_dots domain).

Definition domain_eq (left right : str) : bool := str_eqb (normalize_domain left) (normalize_domain right).

Definition is_subdomain_or_equal (child parent : str) : bool :=
  let child := normalize_domain child in
  let parent := normalize_domain parent in
  if str_eqb child parent then true else ends_with (lit "." ++ parent) child.

Definition is_strict_subdomain (child parent : str) : bool :=
  let child := normalize_domain child in
  let parent := normalize_domain parent in
  negb (str_eqb child parent) && ends_with (lit "." ++ parent) child.

(** [DomainPattern::allows] *)
Definition allows (self candidate : DomainPattern) : bool :=
  match self with
  | Exact domain =>
      match candidate with Exact candidate => domain_eq candidate domain | _ => false end
  | SubdomainsOnly domain =>
      match candidate with
      | Exact candidate => is_strict_subdomain candidate domain
      | SubdomainsOnly candidate => is_subdomain_or_equal candidate domain
      | ApexAndSubdomains candidate => is_strict_subdomain candidate domain
      end
  | ApexAndSubdomains domain =>
      match candidate with
      | Exact candidate | SubdomainsOnly candidate | ApexAndSubdomains candidate =>
          is_subdomain_or_equal candidate domain
      end
  end.

Section Constraints.
Context {UH : UrlHosts}.

Definition parse_domain_for_constraints (domain : str) : str :=
  let domain := trim_dots (trim domain) in
  if is_empty domain then []
  else
    let host :=
      if starts_with (lit "[") domain && ends_with (lit "]") domain
      then drop 1 (take (length domain - 1) domain) else domain in
    if contains_char star host || contains_char 63%N host || contains_char percent host then domain
    else default [] (url_host_parse host).

Definition parse_for_constraints (input : str) : DomainPattern :=
  let input := trim input in
  if is_empty input then Exact []
  else
    match strip_prefix (lit "**.") input with
    | Some domain => ApexAndSubdomains (parse_domain_for_constraints domain)
    | None =>
        match strip_prefix (lit "*.") input with
        | Some domain => SubdomainsOnly (parse_domain_for_constraints domain)
        | None => Exact (parse_domain_for_constraints input)
        end
    end.
End Constraints.

(** ** Compiling patterns *)

Section Compile.
Context {GS : Globset}.

Inductive GlobalWildcard := AllowWildcard | RejectWildcard.

Inductive CompileError :=
| UnsupportedGlobalWildcard
| InvalidGlob (candidate : str) (e : GlobError)
| InvalidSet (e : GlobError).

(** The inner loop: the globs of the candidates not seen before *)
Fixpoint add_candidates (candidates : list str) (seen : gset str) (builder : list Glob)
    : result CompileError (gset str * list Glob) :=
  match candidates with
  | [] => Ok (seen, builder)
  | candidate :: candidates =>
      if bool_decide (candidate ∈ seen) then add_candidates candidates seen builder
      else
        glob ← map_err (InvalidGlob candidate) (build_glob candidate);
        add_candidates candidates ({[candidate]} ∪ seen) (builder ++ [glob])
  end.

Fixpoint add_patterns (global_wildcard : GlobalWildcard) (patterns : list str) (seen : gset str) (builder : list Glob)
    : result CompileError (list Glob) :=
  match patterns with
  | [] => Ok builder
  | pattern :: patterns =>
      if match global_wildcard with RejectWildcard => is_global_wildcard_domain_pattern pattern | AllowWildcard => false end
      then Err UnsupportedGlobalWildcard
      else
        '(seen, builder) ← add_candidates (expand_domain_pattern (normalize_pattern pattern)) seen builder;
        add_patterns global_wildcard patterns seen builder
  end.

Definition compile_globset_with_policy (patterns : list str) (global_wildcard : GlobalWildcard)
    : result CompileError GlobSet :=
  globs ← add_patterns global_wildcard patterns ∅ [];
  map_err InvalidSet (build_set globs).

Definition compile_allowlist_globset (patterns : list str) := compile_globset_with_policy patterns AllowWildcard.
Definition compile_denylist_globset (patterns : list str) := compile_globset_with_policy patterns RejectWildcard.

(** runtime.rs *)
Definition globset_matches_host_or_unscoped (set : GlobSet) (host : str) : bool :=
  is_match set host || match unscoped_ip_literal host with Some ip => is_match set ip | None => false end.

End Compile.

Definition is_explicit_local_allowlisted (allowed_domains : list str) (host : str) : bool :=
  let unscoped_host := unscoped_ip_literal host in
  existsb (fun pattern =>
    let pattern := trim pattern in
    if str_eqb pattern (lit "*") || starts_with (lit "*.") pattern || starts_with (lit "**.") pattern then false
    else if contains_char star pattern || contains_char 63%N pattern then false
    else
      let normalized_pattern := normalize_host pattern in
      str_eqb normalized_pattern host
      || match unscoped_host with Some ip => str_eqb normalized_pattern ip | None => false end) allowed_domains.

(** ** What a pattern stands for *)

(** A name below [domain]: at least one character, a dot, the domain *)
Definition below (h domain : str) : Prop := exists x, x <> [] /\ h = x ++ dot :: domain.

Definition covers (p : DomainPattern) (h : str) : Prop :=
  match p with
  | Exact d => h = normalize_domain d
  | SubdomainsOnly d => below h (normalize_domain d)
  | ApexAndSubdomains d => h = normalize_domain d \/ below h (normalize_domain d)
  end.

Definition pattern_domain (p : DomainPattern) : str :=
  match p with Exact d | SubdomainsOnly d | ApexAndSubdomains d => d end.

Example normalize_host_port : normalize_host (lit " Example.COM.:443 ") = lit "example.com".
Proof. by vm_compute. Qed.
Example normalize_host_bracket : normalize_host (lit "[FE80::1%25en0]:80") = lit "fe80::1%en0".
Proof. by vm_compute. Qed.
Example normalize_pattern_apex : normalize_pattern (lit " **.Example.com. ") = lit "**.example.com".
Proof. by vm_compute. Qed.
Example global_wildcard_apex : is_global_wildcard_domain_pattern (lit "**.*") = true.
Proof. by vm_compute. Qed.
