(* ===== verification/HostLaws.v ===== *)
(** * What domain patterns stand for

    The comparison of patterns decides inclusion of the hosts they stand for, and
    the compiled globs match exactly those hosts, for patterns made of host names.
    The [globset] crate enters through three documented facts of its syntax. *)

From S2P Require Import Prelude RustStr NetAddr HostPattern.

(** ** Comparing patterns *)

(** A domain a host can be below: not empty and not starting with a dot. *)
Definition proper (d : str) : Prop :=
  match normalize_domain d with [] => False | c :: _ => c <> dot end.

Lemma below_longer h d : below h d -> length d + 2 <= length h.
Proof. intros (x & Hx & ->). rewrite length_app. destruct x; [done|]. simpl. lia. Qed.

Lemma below_ne h d : below h d -> h <> d.
Proof. intros Hb ->. apply below_longer in Hb. lia. Qed.

Lemma below_trans h d e : below h d -> below d e -> below h e.
Proof.
  intros (x & Hx & ->) (y & Hy & ->). exists (x ++ dot :: y). split; [by destruct x|]. by rewrite <- app_assoc.
Qed.

Lemma ends_with_below c p : match c with [] => False | a :: _ => a <> dot end ->
  ends_with (lit "." ++ p) c = true <-> below c p.
Proof.
  intros Hc. rewrite ends_with_spec. split.
  - intros (x & ->). exists x. split; [|done]. by intros ->.
  - intros (x & _ & ->). by exists x.
Qed.

Lemma is_strict_subdomain_spec c p :
  proper c -> is_strict_subdomain c p = true <-> below (normalize_domain c) (normalize_domain p).
Proof.
  intros Hc. unfold is_strict_subdomain. rewrite andb_true_iff, negb_true_iff, ends_with_below by done.
  split; [tauto|]. intros Hb. split; [|done]. destruct (str_eqb_spec (normalize_domain c) (normalize_domain p)); [|done].
  by apply below_ne in Hb.
Qed.

Lemma is_subdomain_or_equal_spec c p :
  proper c -> is_subdomain_or_equal c p = true <->
    normalize_domain c = normalize_domain p \/ below (normalize_domain c) (normalize_domain p).
Proof.
  intros Hc. unfold is_subdomain_or_equal.
  destruct (str_eqb_spec (normalize_domain c) (normalize_domain p)) as [E|E]; [tauto|].
  rewrite ends_with_below by done. tauto.
Qed.

(** Two hosts directly below a domain *)
Definition child (c : char) (d : str) : str := c :: dot :: d.

Lemma child_below c d : below (child c d) d.
Proof. by exists [c]. Qed.

Lemma below_of_child c d e :
  match d with [] => False | a :: _ => a <> dot end -> below (child c d) e -> d = e \/ below d e.
Proof.
  intros Hd ([|a [|b x]] & Hx & E); [done| |]; unfold child in E; simplify_eq/=; [by left|].
  right. exists x. split; [|done]. by intros ->.
Qed.

Lemma allows_spec (managed candidate : DomainPattern) :
  proper (pattern_domain candidate) ->
  allows managed candidate = true <-> forall h, covers candidate h -> covers managed h.
Proof.
  intros Hp.
  destruct managed as [m|m|m], candidate as [c|c|c]; simpl in *.
  - rewrite is_subdomain_or_equal_spec by done. split; [|intros H; apply H; by left].
    intros [E|Hb] h [->|Hh]; rewrite ?E in *; eauto using below_trans.
  - rewrite is_subdomain_or_equal_spec by done. split.
    + intros [E|Hb] h Hh; rewrite ?E in *; eauto using below_trans.
    + intros H. pose proof (H _ (child_below 97%N _)) as [H1|H1]; [|by apply below_of_child in H1].
      pose proof (H _ (child_below 98%N _)) as [H2|H2]; [unfold child in *; congruence|].
      apply below_longer in H2. rewrite <- H1 in H2. unfold child in H2. simpl in H2. lia.
  - rewrite is_subdomain_or_equal_spec by done. split; [|intros H; by apply H]. by intros H h ->.
  - rewrite is_strict_subdomain_spec by done. split; [|intros H; apply H; by left].
    intros Hb h [->|Hh]; eauto using below_trans.
  - rewrite is_subdomain_or_equal_spec by done. split.
    + intros [E|Hb] h Hh; rewrite ?E in *; eauto using below_trans.
    + intros H. by apply (below_of_child 97%N), H, child_below.
  - rewrite is_strict_subdomain_spec by done. split; [|intros H; by apply H]. by intros H h ->.
  - split; [done|]. intros H. pose proof (H _ (or_introl eq_refl)) as H1.
    pose proof (H _ (or_intror (child_below 97%N _))) as H2. rewrite H1 in H2. unfold child in H2.
    apply (f_equal length) in H2. simpl in H2. lia.
  - split; [done|]. intros H. pose proof (H _ (child_below 97%N _)) as H1.
    pose proof (H _ (child_below 98%N _)) as H2. rewrite <- H1 in H2. done.
  - unfold domain_eq. rewrite str_eqb_eq. split; [by intros -> h ->|]. intros H. by apply H.
Qed.

(** A managed pattern allows a pattern of the configuration exactly when
    every host the latter stands for is one the former stands for: the comparison
    by suffixes is neither too lax nor too strict. *)
Theorem allows_exact (managed candidate : DomainPattern) :
  proper (pattern_domain candidate) ->
  allows managed candidate = true <-> forall h, covers candidate h -> covers managed h.
Proof. apply allows_spec. Qed.

(** ** Patterns made of host names *)

Definition host_char (c : char) : bool :=
  is_ascii_alphabetic c || is_ascii_digit c || (c =? 45)%N || (c =? 95)%N || (c =? dot)%N.

Definition dns_domain (d : str) : bool := forallb host_char d && negb (is_empty (trim_dots d)).

(** A host name, alone or behind a wildcard, or the global wildcard *)
Definition dns_pattern (p : str) : bool :=
  str_eqb (trim p) (lit "*") || dns_domain (pattern_domain (parse_pattern p)).

Definition pattern_covers (p h : str) : Prop := trim p = lit "*" \/ covers (parse_pattern p) h.

(** The text a host has after [normalize_host] *)
Definition lower_ascii (h : str) : Prop := ascii h /\ to_ascii_lowercase h = h.

Lemma host_char_cases c :
  host_char c = true -> is_whitespace c = false /\ (c < 128)%N /\
    c <> percent /\ c <> star /\ c <> 91%N /\ c <> 58%N.
Proof.
  unfold host_char, is_ascii_alphabetic, is_ascii_uppercase, is_ascii_lowercase, is_ascii_digit, is_whitespace,
    in_range, dot, percent, star. intros H. split_and!; lia.
Qed.

Definition hosted (d : str) : Prop := Forall (fun c => host_char c = true) d.

Lemma hosted_spec d : forallb host_char d = true <-> hosted d.
Proof. unfold hosted. rewrite forallb_forall, Forall_forall. setoid_rewrite list_elem_of_In. done. Qed.

Lemma hosted_not d c : hosted d -> host_char c = false -> c ∉ d.
Proof. intros Hd Hc Hin. unfold hosted in Hd. rewrite Forall_forall in Hd. specialize (Hd c Hin). congruence. Qed.

Lemma hosted_trim d : hosted d -> trim d = d.
Proof. intros H. apply trim_id. eapply Forall_impl; [exact H|]. intros c Hc. by apply host_char_cases in Hc as [? _]. Qed.

Lemma hosted_ascii d : hosted d -> ascii d.
Proof. intros H. eapply Forall_impl; [exact H|]. intros c Hc. by apply host_char_cases in Hc as (_ & ? & _). Qed.

Lemma hosted_app x y : hosted (x ++ y) <-> hosted x /\ hosted y.
Proof. apply Forall_app. Qed.

Lemma host_char_lower c : host_char (ascii_lower c) = host_char c.
Proof.
  unfold ascii_lower. destruct (in_range 65 90 c) eqn:E; [|done]. unfold host_char, is_ascii_alphabetic,
    is_ascii_uppercase, is_ascii_lowercase, is_ascii_digit, in_range, dot in *. lia.
Qed.

Lemma hosted_lower d : hosted d -> hosted (to_ascii_lowercase d).
Proof.
  intros H. apply Forall_fmap. eapply Forall_impl; [exact H|]. intros c Hc. simpl. by rewrite host_char_lower.
Qed.

Lemma trim_dots_incl d c : c ∈ trim_dots d -> c ∈ d.
Proof. apply trim_end_matches_sub. Qed.

Lemma hosted_trim_dots d : hosted d -> hosted (trim_dots d).
Proof.
  unfold hosted. rewrite !Forall_forall. intros H c Hc. apply H. by apply trim_dots_incl.
Qed.

Lemma to_ascii_lowercase_idem s : to_ascii_lowercase (to_ascii_lowercase s) = to_ascii_lowercase s.
Proof. unfold to_ascii_lowercase. rewrite <- list_fmap_compose. apply list_fmap_ext. intros _ c _. apply ascii_lower_idem. Qed.

Lemma ascii_lower_dot c : (ascii_lower c =? dot)%N = (c =? dot)%N.
Proof. unfold ascii_lower, dot. destruct (in_range 65 90 c) eqn:E; [|done]. unfold in_range in E. lia. Qed.

Lemma trim_start_dots_lower s :
  trim_start_matches (fun c => c =? dot)%N (to_ascii_lowercase s) =
    to_ascii_lowercase (trim_start_matches (fun c => c =? dot)%N s).
Proof.
  induction s as [|c s IH]; [done|]. simpl. rewrite ascii_lower_dot. destruct (c =? dot)%N; [exact IH|done].
Qed.

Lemma trim_dots_lower s : trim_dots (to_ascii_lowercase s) = to_ascii_lowercase (trim_dots s).
Proof.
  unfold trim_dots, trim_end_matches.
  assert (forall t, reverse (to_ascii_lowercase t) = to_ascii_lowercase (reverse t)) as Hr
    by (intros; symmetry; apply fmap_reverse).
  by rewrite Hr, trim_start_dots_lower, Hr.
Qed.

Lemma normalize_domain_alt d : normalize_domain d = trim_dots (to_ascii_lowercase d).
Proof. symmetry. apply trim_dots_lower. Qed.

Lemma trim_start_matches_idem f s : trim_start_matches f (trim_start_matches f s) = trim_start_matches f s.
Proof. induction s as [|c s IH]; [done|]. simpl. destruct (f c) eqn:E; [done|]. simpl. by rewrite E. Qed.

Lemma trim_dots_idem s : trim_dots (trim_dots s) = trim_dots s.
Proof. unfold trim_dots, trim_end_matches. by rewrite reverse_involutive, trim_start_matches_idem. Qed.

Lemma normalize_domain_idem d : normalize_domain (normalize_domain d) = normalize_domain d.
Proof.
  rewrite (normalize_domain_alt (normalize_domain d)). unfold normalize_domain.
  by rewrite to_ascii_lowercase_idem, trim_dots_lower, trim_dots_idem.
Qed.

Lemma find_absent needle c s : c ∈ needle -> c ∉ s -> find needle s = None.
Proof.
  intros Hc Hs. destruct (find needle s) eqn:E; [|done]. exfalso. apply Hs.
  apply (contains_sub needle s c); [|done]. unfold contains. by rewrite E.
Qed.

Lemma normalize_ip_literal_plain h : percent ∉ h -> default h (normalize_ip_literal h) = h.
Proof.
  intros Hp. unfold normalize_ip_literal. destruct (parses_as_ip h); [done|]. simpl. unfold split_once_str.
  rewrite !(find_absent _ percent) by (done || by vm_compute; repeat constructor). done.
Qed.

Lemma count_char_absent c s : c ∉ s -> count_char c s = 0.
Proof.
  intros H. unfold count_char. induction s as [|d s IH]; [done|]. rewrite filter_cons_False by set_solver.
  apply IH. set_solver.
Qed.

Lemma starts_with_absent c s : c ∉ s -> starts_with [c] s = false.
Proof.
  intros H. destruct (starts_with [c] s) eqn:E; [|done]. apply starts_with_spec in E as [t ->]. set_solver.
Qed.

(** Names are normalised to lower case without trailing dots. *)
Lemma normalize_host_name d : hosted (trim d) -> normalize_host d = normalize_domain (trim d).
Proof.
  intros Hd. unfold normalize_host. cbv zeta. generalize dependent (trim d). clear d. intros d Hd.
  assert (forall c, host_char c = false -> c ∉ d) as Hn by (intros; by apply hosted_not).
  change (lit "[") with [91%N]. rewrite starts_with_absent, count_char_absent by (by apply Hn). simpl.
  unfold normalize_dns_host_or_ip_literal. rewrite normalize_ip_literal_plain; [by rewrite normalize_domain_alt|].
  intros Hin%trim_dots_incl. revert Hin. apply hosted_not; [by apply hosted_lower|done].
Qed.

Lemma dns_domain_spec d : dns_domain d = true <-> hosted d /\ trim_dots d <> [].
Proof.
  unfold dns_domain. rewrite andb_true_iff, hosted_spec, negb_true_iff. split; intros [? H]; split; try done.
  - by destruct (trim_dots d).
  - by destruct (trim_dots d).
Qed.

Lemma normalize_domain_hosted d : hosted d -> hosted (normalize_domain d).
Proof. intros H. by apply hosted_lower, hosted_trim_dots. Qed.

Lemma normalize_domain_ne d : trim_dots d <> [] -> normalize_domain d <> [].
Proof. unfold normalize_domain. by destruct (trim_dots d). Qed.

Lemma dns_domain_normalize d : dns_domain d = true -> dns_domain (normalize_domain d) = true.
Proof.
  rewrite !dns_domain_spec. intros [H1 H2]. split; [by apply normalize_domain_hosted|].
  rewrite normalize_domain_alt, trim_dots_idem, <- normalize_domain_alt. by apply normalize_domain_ne.
Qed.

Definition map_domain (f : str -> str) (p : DomainPattern) : DomainPattern :=
  match p with
  | ApexAndSubdomains d => ApexAndSubdomains (f d)
  | SubdomainsOnly d => SubdomainsOnly (f d)
  | Exact d => Exact (f d)
  end.

(** A wildcard prefix and a name have no blanks around them. *)
Lemma trim_prefixed prefix d :
  prefix ∈ [lit "**."; lit "*."; []] -> hosted d -> trim (prefix ++ d) = prefix ++ d.
Proof.
  intros Hp Hd. apply trim_id, Forall_app. split.
  - set_unfold in Hp. destruct Hp as [->|[->|[->|[]]]]; repeat constructor.
  - eapply Forall_impl; [exact Hd|]. intros c Hc. by apply host_char_cases in Hc as [? _].
Qed.

Lemma strip_prefix_star p d : hosted d -> strip_prefix (star :: p) d = None.
Proof.
  intros Hd. destruct d as [|c d]; [done|]. cbn [strip_prefix]. apply Forall_cons in Hd as [Hc _].
  apply host_char_cases in Hc as (_ & _ & _ & Hc & _).
  destruct (N.eqb_spec star c); [congruence|done].
Qed.

Lemma parse_pattern_prefixed d :
  hosted d -> d <> [] ->
  parse_pattern (lit "**." ++ d) = ApexAndSubdomains d /\ parse_pattern (lit "*." ++ d) = SubdomainsOnly d /\
  parse_pattern d = Exact d.
Proof.
  intros Hd Hne. unfold parse_pattern, parse_domain. cbv zeta.
  rewrite (trim_prefixed (lit "**.")), (trim_prefixed (lit "*.")) by (done || by repeat constructor).
  rewrite (hosted_trim d Hd).
  assert (is_empty d = false) as -> by by destruct d.
  change (lit "**.") with [star; star; dot]. change (lit "*.") with [star; dot].
  rewrite !(strip_prefix_star _ d Hd).
  assert (strip_prefix [star; star; dot] ([star; dot] ++ d) = None) as -> by done.
  rewrite !strip_prefix_app, !(hosted_trim d Hd). assert (is_empty d = false) as -> by by destruct d. done.
Qed.

Lemma parse_normalized p :
  dns_domain (pattern_domain (parse_pattern p)) = true -> trim p <> lit "*" ->
  parse_pattern (normalize_pattern p) = map_domain normalize_domain (parse_pattern p).
Proof.
  intros Hd Hs. pose proof (eq_refl (parse_pattern p)) as Ep. unfold parse_pattern in Ep at 2. cbv zeta in Ep.
  rewrite Ep in Hd |- *. clear Ep. unfold normalize_pattern. cbv zeta.
  destruct (str_eqb_spec (trim p) (lit "*")) as [|_]; [done|].
  destruct (is_empty (trim p)) eqn:Ee; [done|].
  assert (forall d, dns_domain d = true ->
            hosted d /\ hosted (normalize_domain d) /\ normalize_domain d <> []) as Hdns.
  { intros d [H1 H2]%dns_domain_spec. split_and!; [done|by apply normalize_domain_hosted|by apply normalize_domain_ne]. }
  destruct (strip_prefix (lit "**.") (trim p)) as [d|]; [|destruct (strip_prefix (lit "*.") (trim p)) as [d|]].
  - unfold parse_domain in *. destruct (is_empty (trim d)); [done|]. simpl in Hd.
    destruct (Hdns _ Hd) as (H1 & H2 & H3). rewrite normalize_host_name by done. change (is_empty (lit "**.")) with false. cbv iota.
    by destruct (parse_pattern_prefixed _ H2 H3) as (-> & _).
  - unfold parse_domain in *. destruct (is_empty (trim d)); [done|]. simpl in Hd.
    destruct (Hdns _ Hd) as (H1 & H2 & H3). rewrite normalize_host_name by done. change (is_empty (lit "*.")) with false. cbv iota.
    by destruct (parse_pattern_prefixed _ H2 H3) as (_ & -> & _).
  - simpl in Hd. destruct (Hdns _ Hd) as (H1 & H2 & H3).
    rewrite normalize_host_name by (by rewrite (hosted_trim _ H1)). simpl. rewrite (hosted_trim _ H1).
    by destruct (parse_pattern_prefixed _ H2 H3) as (_ & _ & ->).
Qed.

(** ** Compiled patterns *)

(** The documented facts of [globset]: an ordinary character stands for itself in
    either case, [?] for any character and [*] for any number of them; a set
    matches where one of its globs does. *)
Class GlobsetLaws (GS : Globset) : Prop := {
  glob_literal p : hosted p -> exists g, build_glob p = Ok g /\
    forall h, ascii h -> glob_is_match g h = eq_ignore_ascii_case p h;
  glob_below d : hosted d -> exists g, build_glob (lit "?*." ++ d) = Ok g /\
    forall h, ascii h -> glob_is_match g h = true <->
      exists x s, x <> [] /\ h = x ++ s /\ eq_ignore_ascii_case (lit "." ++ d) s = true;
  glob_any : exists g, build_glob (lit "*") = Ok g /\ forall h, ascii h -> glob_is_match g h = true;
  set_match gs set : build_set gs = Ok set -> forall h, is_match set h = existsb (fun g => glob_is_match g h) gs;
}.

Section Compiled.
Context {GS : Globset}.

Definition text_matches (c h : str) : Prop := exists g, build_glob c = Ok g /\ glob_is_match g h = true.

(** The builder holds the globs of the texts seen. *)
Definition represents (seen : gset str) (builder : list Glob) : Prop :=
  forall h, (exists g, g ∈ builder /\ glob_is_match g h = true) <-> exists c, c ∈ seen /\ text_matches c h.

Lemma represents_add seen builder c g :
  represents seen builder -> build_glob c = Ok g -> represents ({[c]} ∪ seen) (builder ++ [g]).
Proof.
  intros H Hg h. specialize (H h). split.
  - intros (g' & [Hin| ->%list_elem_of_singleton]%elem_of_app & Hm).
    + destruct (proj1 H) as (c' & ? & ?); [by eauto|]. exists c'. split; [set_solver|done].
    + exists c. split; [set_solver|]. by exists g.
  - intros (c' & [ ->%elem_of_singleton|Hc]%elem_of_union & Hm).
    + destruct Hm as (g' & Hg' & ?). exists g'. split; [|done]. rewrite Hg in Hg'. simplify_eq. set_solver.
    + destruct (proj2 H) as (g' & ? & ?); [by eauto|]. exists g'. split; [set_solver|done].
Qed.

Lemma add_candidates_spec cs seen builder :
  represents seen builder ->
  match add_candidates cs seen builder with
  | Ok (seen', builder') => represents seen' builder' /\ forall c, c ∈ seen' <-> c ∈ seen \/ c ∈ cs
  | Err e => exists c g, c ∈ cs /\ e = InvalidGlob c g /\ build_glob c = Err g
  end.
Proof.
  revert seen builder. induction cs as [|c cs IH]; intros seen builder Hr; cbn [add_candidates].
  { split; [done|]. set_solver. }
  case_bool_decide as Hc.
  - specialize (IH seen builder Hr). destruct (add_candidates cs seen builder) as [[seen' builder']|e].
    + destruct IH as [? IH]. split; [done|]. intros c'. rewrite IH. set_solver.
    + destruct IH as (c' & g & ? & ?). exists c', g. split; [set_solver|done].
  - destruct (build_glob c) as [g|g] eqn:Eg; simpl; [|exists c, g; split; [set_solver|done]].
    specialize (IH _ _ (represents_add _ _ _ _ Hr Eg)).
    destruct (add_candidates cs _ _) as [[seen' builder']|e].
    + destruct IH as [? IH]. split; [done|]. intros c'. rewrite IH. set_solver.
    + destruct IH as (c' & g' & ? & ?). exists c', g'. split; [set_solver|done].
Qed.

Definition rejected (gw : GlobalWildcard) (p : str) : Prop :=
  gw = RejectWildcard /\ is_global_wildcard_domain_pattern p = true.

Definition texts (p : str) : list str := expand_domain_pattern (normalize_pattern p).

Lemma add_patterns_spec gw ps seen builder :
  represents seen builder ->
  match add_patterns gw ps seen builder with
  | Ok builder' => Forall (fun p => ~ rejected gw p) ps /\
      exists seen', represents seen' builder' /\ forall c, c ∈ seen' <-> c ∈ seen \/ exists p, p ∈ ps /\ c ∈ texts p
  | Err UnsupportedGlobalWildcard => Exists (rejected gw) ps
  | Err (InvalidGlob c g) => exists p, p ∈ ps /\ c ∈ texts p /\ build_glob c = Err g
  | Err (InvalidSet _) => False
  end.
Proof.
  revert seen builder. induction ps as [|p ps IH]; intros seen builder Hr; cbn [add_patterns].
  { split; [done|]. exists seen. split; [done|]. set_solver. }
  set (b := match gw with RejectWildcard => _ | AllowWildcard => false end).
  assert (b = true <-> rejected gw p) as Hb by (unfold b, rejected; destruct gw; split; [done|by intros []|by split|by intros []]).
  destruct b; [apply Exists_cons_hd; by apply Hb|]. assert (~ rejected gw p) as Hn by (intros H%Hb; done).
  pose proof (add_candidates_spec (expand_domain_pattern (normalize_pattern p)) _ _ Hr) as Hc.
  destruct (add_candidates _ seen builder) as [[seen' builder']|e]; simpl.
  - destruct Hc as [Hr' Hs]. specialize (IH _ _ Hr'). destruct (add_patterns gw ps seen' builder') as [builder''|[|c g|]].
    + destruct IH as [Hf (seen'' & Hr'' & Hs')]. split; [by constructor|]. exists seen''. split; [done|].
      intros c. rewrite Hs', Hs. unfold texts. set_solver.
    + by apply Exists_cons_tl.
    + destruct IH as (q & ? & ?). exists q. split; [set_solver|done].
    + done.
  - destruct Hc as (c & g & ? & -> & ?). exists p. split; [set_solver|]. done.
Qed.

Lemma set_match_texts `{!GlobsetLaws GS} gw ps set h :
  compile_globset_with_policy ps gw = Ok set ->
  is_match set h = true <-> exists p c, p ∈ ps /\ c ∈ texts p /\ text_matches c h.
Proof.
  unfold compile_globset_with_policy. intros H.
  pose proof (add_patterns_spec gw ps ∅ []) as Ha.
  destruct (add_patterns gw ps ∅ []) as [gs|]; [|done]. simpl in H.
  destruct Ha as [_ (seen & Hr & Hs)]; [intros h'; set_solver|].
  destruct (build_set gs) as [set'|] eqn:Eb; [|done]. simplify_eq/=.
  rewrite (set_match _ _ Eb), existsb_exists. setoid_rewrite <- list_elem_of_In. rewrite (Hr h). set_solver.
Qed.

End Compiled.

Section Meaning.
Context {GS : Globset} {GL : GlobsetLaws GS}.

Lemma eq_ignore_ascii_case_spec s t : eq_ignore_ascii_case s t = true <-> to_ascii_lowercase s = to_ascii_lowercase t.
Proof. unfold eq_ignore_ascii_case. apply str_eqb_eq. Qed.

Lemma normalize_domain_lower d : to_ascii_lowercase (normalize_domain d) = normalize_domain d.
Proof. apply to_ascii_lowercase_idem. Qed.

Lemma text_matches_name d h :
  hosted d -> to_ascii_lowercase d = d -> lower_ascii h -> text_matches d h <-> h = d.
Proof.
  intros Hd Hl [Ha Hh]. destruct (glob_literal d Hd) as (g & Hg & Hm). unfold text_matches. split.
  - intros (g' & Hg' & E). rewrite Hg in Hg'. injection Hg' as <-. rewrite Hm in E by done. apply eq_ignore_ascii_case_spec in E. congruence.
  - intros ->. exists g. split; [done|]. rewrite Hm by done. by apply eq_ignore_ascii_case_spec.
Qed.

Lemma text_matches_below d h :
  hosted d -> to_ascii_lowercase d = d -> lower_ascii h -> text_matches (lit "?*." ++ d) h <-> below h d.
Proof.
  intros Hd Hl [Ha Hh]. destruct (glob_below d Hd) as (g & Hg & Hm). unfold text_matches.
  assert (to_ascii_lowercase (lit "." ++ d) = dot :: d) as Hdot.
  { unfold to_ascii_lowercase in *. rewrite fmap_app. by rewrite Hl. }
  split.
  - intros (g' & Hg' & E). rewrite Hg in Hg'. injection Hg' as <-. apply Hm in E; [|done]. destruct E as (x & s & Hx & -> & E).
    apply eq_ignore_ascii_case_spec in E. rewrite Hdot in E. exists x. split; [done|]. f_equal.
    unfold to_ascii_lowercase in Hh. rewrite fmap_app in Hh. apply app_inj_1 in Hh as [_ Hs]; [|by rewrite length_fmap].
    unfold to_ascii_lowercase in E. congruence.
  - intros (x & Hx & ->). exists g. split; [done|]. apply Hm; [done|]. exists x, (dot :: d). split_and!; [done|done|].
    apply eq_ignore_ascii_case_spec. rewrite Hdot. unfold to_ascii_lowercase in *. by rewrite fmap_cons, Hl.
Qed.

Lemma normalize_pattern_star p : trim p = lit "*" -> normalize_pattern p = lit "*".
Proof. intros E. unfold normalize_pattern. cbv zeta. by rewrite E. Qed.

Lemma texts_of_name p :
  dns_domain (pattern_domain (parse_pattern p)) = true -> trim p <> lit "*" ->
  texts p = match parse_pattern p with
            | Exact d => [normalize_domain d]
            | SubdomainsOnly d => [lit "?*." ++ normalize_domain d]
            | ApexAndSubdomains d => [normalize_domain d; lit "?*." ++ normalize_domain d]
            end.
Proof.
  intros Hd Hs. unfold texts, expand_domain_pattern. rewrite parse_normalized by done. by destruct (parse_pattern p).
Qed.

Lemma texts_cover p h :
  dns_pattern p = true -> lower_ascii h -> (exists c, c ∈ texts p /\ text_matches c h) <-> pattern_covers p h.
Proof.
  intros Hd Hh. unfold pattern_covers. destruct (decide (trim p = lit "*")) as [E|E].
  - split; [by left|]. intros _. exists (lit "*"). unfold texts. rewrite normalize_pattern_star by done.
    split; [by vm_compute; constructor|]. destruct glob_any as (g & Hg & Hm). exists g. split; [done|]. apply Hm, Hh.
  - unfold dns_pattern in Hd. destruct (str_eqb_spec (trim p) (lit "*")); [done|]. simpl in Hd.
    rewrite texts_of_name by done. apply dns_domain_spec in Hd as [Hd _].
    transitivity (covers (parse_pattern p) h); [|tauto].
    pose proof (normalize_domain_hosted _ Hd) as Hd'.
    pose proof (normalize_domain_lower (pattern_domain (parse_pattern p))) as Hl.
    pose proof (text_matches_name _ h Hd' Hl Hh) as H1. pose proof (text_matches_below _ h Hd' Hl Hh) as H2.
    destruct (parse_pattern p) as [d|d|d]; simpl in *; rewrite <- ?H1, <- ?H2; set_solver.
Qed.

Lemma global_wildcard_spec p :
  dns_pattern p = true -> is_global_wildcard_domain_pattern p = true <-> trim p = lit "*".
Proof.
  intros Hd. unfold is_global_wildcard_domain_pattern. destruct (decide (trim p = lit "*")) as [E|E].
  { rewrite normalize_pattern_star by done. split; [done|]. by vm_compute. }
  split; [|done]. unfold dns_pattern in Hd. destruct (str_eqb_spec (trim p) (lit "*")); [done|]. simpl in Hd.
  fold (texts p). rewrite texts_of_name by done. rewrite existsb_exists.
  apply dns_domain_spec in Hd as [Hd%normalize_domain_hosted _].
  intros (c & Hc%list_elem_of_In & ->%str_eqb_eq). exfalso.
  assert (lit "*" <> normalize_domain (pattern_domain (parse_pattern p))) as H1.
  { intros Hs. rewrite <- Hs in Hd. apply Forall_cons in Hd as [Hd _]. done. }
  assert (forall d, lit "*" <> lit "?*." ++ d) as H2 by (intros d; done).
  destruct (parse_pattern p); simpl in *; set_solver.
Qed.

(** What compiling names and wildcards of names gives *)
Lemma compile_spec patterns gw :
  Forall (fun p => dns_pattern p = true) patterns ->
  match compile_globset_with_policy patterns gw with
  | Ok set => (gw = RejectWildcard -> Forall (fun p => trim p <> lit "*") patterns) /\
      forall h, lower_ascii h -> is_match set h = true <-> Exists (fun p => pattern_covers p h) patterns
  | Err UnsupportedGlobalWildcard => gw = RejectWildcard /\ Exists (fun p => trim p = lit "*") patterns
  | Err (InvalidGlob _ _) => False
  | Err (InvalidSet e) => exists globs, build_set globs = Err e
  end.
Proof.
  intros Hd. rewrite Forall_forall in Hd.
  pose proof (set_match_texts gw patterns) as Hset. unfold compile_globset_with_policy in *.
  pose proof (add_patterns_spec gw patterns ∅ []) as Ha.
  specialize (Ha ltac:(intros h'; set_solver)).
  destruct (add_patterns gw patterns ∅ []) as [gs|[|c g|]]; simpl in *.
  - destruct (build_set gs) as [set|e] eqn:Eb; simpl in *; [|by eauto]. destruct Ha as [Hn _]. split.
    + intros ->. apply Forall_forall. intros p Hp Hs. rewrite Forall_forall in Hn. apply (Hn p Hp). split; [done|].
      by apply global_wildcard_spec; [apply Hd|].
    + intros h Hh. rewrite (Hset _ _ eq_refl), Exists_exists. split.
      * intros (p & c & Hp & Hc & Hm). exists p. split; [done|]. apply texts_cover; [by apply Hd|done|by exists c].
      * intros (p & Hp & Hm). apply texts_cover in Hm as (c & ? & ?); [|by apply Hd|done]. by exists p, c.
  - apply Exists_exists in Ha as (p & Hp & -> & Hw). split; [done|]. apply Exists_exists. exists p. split; [done|].
    apply global_wildcard_spec; [by apply Hd|done].
  - destruct Ha as (p & Hp & Hc & He). specialize (Hd p Hp). unfold dns_pattern in Hd.
    destruct (str_eqb_spec (trim p) (lit "*")) as [E|E]; simpl in Hd.
    + unfold texts in Hc. rewrite normalize_pattern_star in Hc by done. vm_compute in Hc.
      apply list_elem_of_singleton in Hc. subst c. destruct glob_any as (? & Hg & _).
      change (lit "*") with [42%N] in Hg. congruence.
    + rewrite texts_of_name in Hc by done. apply dns_domain_spec in Hd as [Hd%normalize_domain_hosted _].
      destruct (glob_literal _ Hd) as (? & Hg1 & _). destruct (glob_below _ Hd) as (? & Hg2 & _).
      destruct (parse_pattern p); simpl in *; set_unfold in Hc; naive_solver congruence.
  - done.
Qed.

(** Compiling a list of host names, with or without wildcards, gives a set
    that matches exactly the hosts the patterns stand for (case and trailing dots
    apart): [*.] the hosts below a domain, [**.] those and the domain itself, [*]
    every host. The global wildcard alone makes compiling a deny list fail, and no
    name is rejected as a glob. *)
Theorem compile_exact (patterns : list str) (global_wildcard : GlobalWildcard) :
  Forall (fun p => dns_pattern p = true) patterns ->
  match compile_globset_with_policy patterns global_wildcard with
  | Ok set => (global_wildcard = RejectWildcard -> Forall (fun p => trim p <> lit "*") patterns) /\
      forall h, lower_ascii h -> is_match set h = true <-> Exists (fun p => pattern_covers p h) patterns
  | Err UnsupportedGlobalWildcard => global_wildcard = RejectWildcard /\ Exists (fun p => trim p = lit "*") patterns
  | Err (InvalidGlob _ _) => False
  | Err (InvalidSet e) => exists globs, build_set globs = Err e
  end.
Proof. apply compile_spec. Qed.

End Meaning.

(** ** Normalised hosts *)

Lemma lower_ascii_spec h : lower_ascii h <-> Forall (fun c => c < 128 /\ ascii_lower c = c)%N h.
Proof.
  unfold lower_ascii, ascii, to_ascii_lowercase. rewrite !Forall_forall. split.
  - intros [Ha Hl] c Hc. split; [by apply Ha|]. apply list_elem_of_lookup in Hc as [i Hi].
    pose proof (f_equal (lookup i) Hl) as H. rewrite list_lookup_fmap, Hi in H. simpl in H. congruence.
  - intros H. split; [intros c Hc; by apply H|]. rewrite <- (list_fmap_id h) at 2. apply list_fmap_ext.
    intros i c Hc. by apply H, list_elem_of_lookup_2 with i.
Qed.

Lemma split_once_str_incl d s a b c : split_once_str d s = Some (a, b) -> c ∈ a \/ c ∈ b -> c ∈ s.
Proof.
  unfold split_once_str. destruct (find d s) as [i|]; [|done]. intros [= <- <-] [H|H].
  - eapply elem_of_sublist; [exact H|apply sublist_take].
  - eapply elem_of_sublist; [exact H|apply sublist_drop].
Qed.

Lemma first_scoped_incl host ds s c : first_scoped host ds = Some s -> c ∈ s -> c = percent \/ c ∈ host.
Proof.
  induction ds as [|d ds IH]; [done|]. simpl.
  destruct (split_once_str d host) as [[ip scope]|] eqn:E; [|exact IH]. destruct (parses_as_ip ip); [|exact IH].
  intros [= <-]. change (lit "%" ++ scope) with (percent :: scope). rewrite elem_of_app, elem_of_cons.
  intros [H|[H|H]]; [right; eapply split_once_str_incl; eauto|by left|right; eapply split_once_str_incl; eauto].
Qed.

Lemma normalize_literal_incl host c :
  c ∈ normalize_dns_host_or_ip_literal host -> c = percent \/ c ∈ to_ascii_lowercase host.
Proof.
  unfold normalize_dns_host_or_ip_literal. cbv zeta. set (h := trim_dots (to_ascii_lowercase host)).
  assert (forall d, d ∈ h -> d ∈ to_ascii_lowercase host) as Hh by apply trim_dots_incl.
  destruct (normalize_ip_literal h) as [s|] eqn:E; simpl; [|auto].
  unfold normalize_ip_literal in E. destruct (parses_as_ip h); [injection E as <-; auto|].
  intros Hs. destruct (first_scoped_incl _ _ _ _ E Hs); auto.
Qed.

Lemma split_by_incl f s x c : x ∈ split_by f s -> c ∈ x -> c ∈ s.
Proof.
  revert x. induction s as [|d s IH]; intros x; simpl.
  { intros ->%list_elem_of_singleton. done. }
  pose proof (split_by_ne f s) as Hne. destruct (f d).
  - intros [->|Hx]%elem_of_cons Hc; [by apply not_elem_of_nil in Hc|]. right. by apply (IH x).
  - destruct (split_by f s) as [|y ys]; [done|]. intros [->|Hx]%elem_of_cons Hc.
    + apply elem_of_cons in Hc as [->|Hc]; [by left|]. right. apply (IH y); [by left|done].
    + right. apply (IH x); [by right|done].
Qed.

Lemma normalize_host_incl host c : c ∈ normalize_host host -> c = percent \/ exists c', c' ∈ host /\ c = ascii_lower c'.
Proof.
  assert (forall t, (forall d, d ∈ t -> d ∈ host) -> c ∈ normalize_dns_host_or_ip_literal t ->
            c = percent \/ exists c', c' ∈ host /\ c = ascii_lower c') as H.
  { intros t Ht [?|Hc]%normalize_literal_incl; [by left|right].
    apply list_elem_of_fmap in Hc as (c' & -> & Hc'). eauto. }
  unfold normalize_host. cbv zeta.
  assert (forall d, d ∈ trim host -> d ∈ host) as Ht by apply trim_sub.
  assert (c ∈ (if count_char 58 (trim host) =? 1
               then normalize_dns_host_or_ip_literal (default [] (head (split_on 58 (trim host))))
               else normalize_dns_host_or_ip_literal (trim host)) ->
          c = percent \/ exists c', c' ∈ host /\ c = ascii_lower c') as Hu.
  { destruct (count_char 58 (trim host) =? 1); apply H; [|done]. intros d Hd. apply Ht.
    unfold split_on in Hd. destruct (split_by _ (trim host)) as [|x xs] eqn:E; simpl in Hd; [by apply not_elem_of_nil in Hd|].
    eapply split_by_incl; [|exact Hd]. rewrite E. set_solver. }
  destruct (starts_with (lit "[") (trim host)); [|exact Hu].
  destruct (find (lit "]") (trim host)) as [i|]; [|exact Hu]. apply H.
  intros d Hd. apply Ht. eapply elem_of_sublist; [exact Hd|]. etransitivity; [apply sublist_drop|apply sublist_take].
Qed.

Lemma normalize_host_lower_ascii host : ascii host -> lower_ascii (normalize_host host).
Proof.
  intros Ha. apply lower_ascii_spec, Forall_forall. intros c [->|(c' & Hc' & ->)]%normalize_host_incl; [done|].
  unfold ascii in Ha. rewrite Forall_forall in Ha. specialize (Ha c' Hc'). rewrite ascii_lower_idem. split; [|done].
  unfold ascii_lower, in_range. destruct ((65 <=? c')%N && (c' <=? 90)%N) eqn:E; lia.
Qed.

Lemma unscoped_lower_ascii h ip : lower_ascii h -> unscoped_ip_literal h = Some ip -> lower_ascii ip.
Proof.
  rewrite !lower_ascii_spec. unfold unscoped_ip_literal. destruct (split_once percent h) as [[a b]|] eqn:E; [|done].
  apply split_once_Some in E as [-> _]. destruct (parses_as_ip a); [|done]. intros [? _]%Forall_app [= <-]. done.
Qed.

(** ** A glob matcher *)

(** Matching with [?] and [*], ASCII letters in either case *)
Fixpoint wild (p : str) : str -> bool :=
  match p with
  | [] => fun h => is_empty h
  | c :: p =>
      let rest := wild p in
      if (c =? 63)%N then fun h => match h with _ :: h => rest h | [] => false end
      else if (c =? star)%N then
        fix any (h : str) : bool := rest h || match h with _ :: h => any h | [] => false end
      else fun h => match h with d :: h => (ascii_lower c =? ascii_lower d)%N && rest h | [] => false end
  end.

Module WildGlobs.

#[export] Instance wild_globset : Globset := {
  GlobError := unit; Glob := str; GlobSet := list str;
  build_glob := fun p => Ok p; glob_is_match := wild;
  build_set := fun gs => Ok gs; is_match := fun gs h => existsb (fun g => wild g h) gs;
}.

Lemma wild_literal p h : hosted p -> wild p h = eq_ignore_ascii_case p h.
Proof.
  unfold eq_ignore_ascii_case. revert h. induction p as [|c p IH]; intros h Hp; [by destruct h|].
  apply Forall_cons in Hp as [Hc Hp]. cbn [wild]. cbv zeta.
  assert ((c =? 63)%N = false /\ (c =? star)%N = false) as [-> ->].
  { split; apply N.eqb_neq; intros ->; done. }
  destruct h as [|d h]; [done|]. simpl. by rewrite IH.
Qed.

Lemma wild_any p h : wild (star :: p) h = true <-> exists x s, h = x ++ s /\ wild p s = true.
Proof.
  induction h as [|c h IH].
  - change (wild (star :: p) []) with (wild p [] || false). rewrite orb_false_r. split; [intros H; by exists [], []|].
    intros (x & s & E & H). symmetry in E. apply app_nil in E as [-> ->]. done.
  - change (wild (star :: p) (c :: h)) with (wild p (c :: h) || wild (star :: p) h). rewrite orb_true_iff, IH. split.
    + intros [H|(x & s & -> & H)]; [by exists [], (c :: h)|by exists (c :: x), s].
    + intros ([|d x] & s & E & H); simplify_eq/=; [by left|right; by exists x, s].
Qed.

#[export] Instance wild_laws : GlobsetLaws wild_globset.
Proof.
  split.
  - intros p Hp. exists p. split; [done|]. intros h _. by apply wild_literal.
  - intros d Hd. exists (lit "?*." ++ d). split; [done|]. intros h _.
    change (lit "?*." ++ d) with (63%N :: star :: (lit "." ++ d)). unfold glob_is_match, wild_globset.
    assert (hosted (lit "." ++ d)) as Hl by (apply hosted_app; split; [by repeat constructor|done]).
    destruct h as [|c h].
    + split; [done|]. intros (x & s & Hx & E & _). symmetry in E. by apply app_nil in E as [-> _].
    + change (wild (63%N :: star :: (lit "." ++ d)) (c :: h)) with (wild (star :: (lit "." ++ d)) h).
      rewrite wild_any. setoid_rewrite (wild_literal _ _ Hl). split.
      * intros (x & s & -> & E). by exists (c :: x), s.
      * intros ([|e x] & s & Hx & E & H); [done|]. simplify_eq/=. by exists x, s.
  - exists (lit "*"). split; [done|]. intros h _. apply (wild_any [] h). exists h, []. by rewrite app_nil_r.
  - intros gs set [= <-] h. done.
Qed.

End WildGlobs.

Module HostExamples.
Import WildGlobs.

Definition names : list str := [lit "**.Example.com"; lit "*.internal"].

Lemma compile_exact_witness :
  Exists (fun p => pattern_covers p (lit "api.example.com")) names /\
  ~ Exists (fun p => pattern_covers p (lit "internal")) names.
Proof.
  assert (Forall (fun p => dns_pattern p = true) names) as Hd by by repeat constructor.
  pose proof (compile_exact names RejectWildcard Hd) as H. simpl in H. destruct H as [_ H].
  assert (lower_ascii (lit "api.example.com")) as H1 by (split; [by repeat constructor|done]).
  assert (lower_ascii (lit "internal")) as H2 by (split; [by repeat constructor|done]).
  split.
  - apply H; [exact H1|]. by vm_compute.
  - intros E. apply H in E; [|exact H2]. by vm_compute in E.
Defined.

Lemma allows_exact_witness : covers (SubdomainsOnly (lit "example.com")) (lit "v1.api.example.com").
Proof.
  apply (allows_exact (SubdomainsOnly (lit "example.com")) (ApexAndSubdomains (lit "api.Example.com."))); [done|by vm_compute|].
  right. by exists (lit "v1").
Defined.

End HostExamples.
