(* ===== verification/NetworkConfig.v ===== *)
(** * The configuration of the network proxy

    network-proxy/src/config.rs and socket_path.rs: permissions of domains and Unix
    sockets, the addresses the proxy listens on, and the edits of a configuration;
    network-proxy/src/state.rs: checking a configuration against the managed
    constraints. The interception hooks and the credential broker are parts of the
    configuration that nothing here looks into. *)

From S2P Require Import Prelude RustStr PathUri.
From S2P Require Import NetAddr HostPattern.

(** ** Parameters *)

(** The parts of a configuration that are passed on *)
Class ProxyParts := {
  MitmHookConfig : Type;
  MitmCa : Type;
  CredentialProviders : Type;
  BrokerContext : Type;
  hooks_eq_dec :: EqDecision MitmHookConfig;
  ca_eq_dec :: EqDecision MitmCa;
  providers_eq_dec :: EqDecision CredentialProviders;
  context_eq_dec :: EqDecision BrokerContext;
}.

(** [Url::parse]: the host and the port of a URL, where it parses *)
Class UrlAddrs := { url_host_port : str -> option (option str * option N) }.

(** ** Data *)

Inductive NetworkDomainPermission := PermNone | PermAllow | PermDeny.
#[export] Instance NetworkDomainPermission_eq_dec : EqDecision NetworkDomainPermission.
Proof. solve_decision. Defined.
(** The derived order *)
Definition permission_rank (p : NetworkDomainPermission) : nat :=
  match p with PermNone => 0 | PermAllow => 1 | PermDeny => 2 end.

Record NetworkDomainPermissionEntry := mkDomainEntry { pattern : str; permission : NetworkDomainPermission }.
#[export] Instance NetworkDomainPermissionEntry_eq_dec : EqDecision NetworkDomainPermissionEntry.
Proof. solve_decision. Defined.
(** [NetworkDomainPermissions] is its entries. *)
Abbreviation NetworkDomainPermissions := (list NetworkDomainPermissionEntry).

Inductive NetworkUnixSocketPermission := SocketAllow | SocketDeny.
#[export] Instance NetworkUnixSocketPermission_eq_dec : EqDecision NetworkUnixSocketPermission.
Proof. solve_decision. Defined.
(** [NetworkUnixSocketPermissions]: the entries of the map in key order *)
Abbreviation NetworkUnixSocketPermissions := (list (str * NetworkUnixSocketPermission)).

Inductive NetworkMode := Limited | Full.
#[export] Instance NetworkMode_eq_dec : EqDecision NetworkMode.
Proof. solve_decision. Defined.
Definition allows_method (self : NetworkMode) (method : str) : bool :=
  match self with
  | Full => true
  | Limited => str_eqb method (lit "GET") || str_eqb method (lit "HEAD") || str_eqb method (lit "OPTIONS")
  end.

Inductive Platform := Linux | Macos | WindowsOs | UnknownOs.
#[export] Instance Platform_eq_dec : EqDecision Platform.
Proof. solve_decision. Defined.
Definition path_convention (p : Platform) : option PathConvention :=
  match p with Linux | Macos => Some Posix | WindowsOs => Some Windows | UnknownOs => None end.

Section Config.
Context {PP : ProxyParts}.

Record NetworkProxyConfig := mkConfig {
  enabled : bool;
  proxy_url : str;
  enable_socks5 : bool;
  socks_url : str;
  enable_socks5_udp : bool;
  allow_upstream_proxy : bool;
  dangerously_allow_non_loopback_proxy : bool;
  dangerously_allow_all_unix_sockets : option bool;
  mode : NetworkMode;
  domains : option NetworkDomainPermissions;
  unix_sockets : option NetworkUnixSocketPermissions;
  allow_local_binding_ : option bool;
  mitm : bool;
  mitm_ca : option MitmCa;
  credential_broker : bool;
  credential_broker_enabled_mitm : bool;
  credential_providers : CredentialProviders;
  credential_broker_openai_host : option str;
  credential_broker_context : BrokerContext;
  dangerously_allow_plaintext_credential_injection : bool;
  mitm_hooks : list MitmHookConfig;
}.

#[export] Instance NetworkProxyConfig_eq_dec : EqDecision NetworkProxyConfig.
Proof. solve_decision. Defined.

Definition set_enabled (b : bool) (c : NetworkProxyConfig) : NetworkProxyConfig :=
  mkConfig b (proxy_url c) (enable_socks5 c) (socks_url c) (enable_socks5_udp c) (allow_upstream_proxy c)
    (dangerously_allow_non_loopback_proxy c) (dangerously_allow_all_unix_sockets c) (mode c) (domains c)
    (unix_sockets c) (allow_local_binding_ c) (mitm c) (mitm_ca c) (credential_broker c)
    (credential_broker_enabled_mitm c) (credential_providers c) (credential_broker_openai_host c)
    (credential_broker_context c) (dangerously_allow_plaintext_credential_injection c) (mitm_hooks c).
Definition set_mode (m : NetworkMode) (c : NetworkProxyConfig) : NetworkProxyConfig :=
  mkConfig (enabled c) (proxy_url c) (enable_socks5 c) (socks_url c) (enable_socks5_udp c) (allow_upstream_proxy c)
    (dangerously_allow_non_loopback_proxy c) (dangerously_allow_all_unix_sockets c) m (domains c)
    (unix_sockets c) (allow_local_binding_ c) (mitm c) (mitm_ca c) (credential_broker c)
    (credential_broker_enabled_mitm c) (credential_providers c) (credential_broker_openai_host c)
    (credential_broker_context c) (dangerously_allow_plaintext_credential_injection c) (mitm_hooks c).
Definition set_domains (d : option NetworkDomainPermissions) (c : NetworkProxyConfig) : NetworkProxyConfig :=
  mkConfig (enabled c) (proxy_url c) (enable_socks5 c) (socks_url c) (enable_socks5_udp c) (allow_upstream_proxy c)
    (dangerously_allow_non_loopback_proxy c) (dangerously_allow_all_unix_sockets c) (mode c) d
    (unix_sockets c) (allow_local_binding_ c) (mitm c) (mitm_ca c) (credential_broker c)
    (credential_broker_enabled_mitm c) (credential_providers c) (credential_broker_openai_host c)
    (credential_broker_context c) (dangerously_allow_plaintext_credential_injection c) (mitm_hooks c).
Definition set_unix_sockets (u : option NetworkUnixSocketPermissions) (c : NetworkProxyConfig) : NetworkProxyConfig :=
  mkConfig (enabled c) (proxy_url c) (enable_socks5 c) (socks_url c) (enable_socks5_udp c) (allow_upstream_proxy c)
    (dangerously_allow_non_loopback_proxy c) (dangerously_allow_all_unix_sockets c) (mode c) (domains c)
    u (allow_local_binding_ c) (mitm c) (mitm_ca c) (credential_broker c)
    (credential_broker_enabled_mitm c) (credential_providers c) (credential_broker_openai_host c)
    (credential_broker_context c) (dangerously_allow_plaintext_credential_injection c) (mitm_hooks c).
Definition set_local_binding (b : option bool) (c : NetworkProxyConfig) : NetworkProxyConfig :=
  mkConfig (enabled c) (proxy_url c) (enable_socks5 c) (socks_url c) (enable_socks5_udp c) (allow_upstream_proxy c)
    (dangerously_allow_non_loopback_proxy c) (dangerously_allow_all_unix_sockets c) (mode c) (domains c)
    (unix_sockets c) b (mitm c) (mitm_ca c) (credential_broker c)
    (credential_broker_enabled_mitm c) (credential_providers c) (credential_broker_openai_host c)
    (credential_broker_context c) (dangerously_allow_plaintext_credential_injection c) (mitm_hooks c).
Definition set_broker (b m em : bool) (c : NetworkProxyConfig) : NetworkProxyConfig :=
  mkConfig (enabled c) (proxy_url c) (enable_socks5 c) (socks_url c) (enable_socks5_udp c) (allow_upstream_proxy c)
    (dangerously_allow_non_loopback_proxy c) (dangerously_allow_all_unix_sockets c) (mode c) (domains c)
    (unix_sockets c) (allow_local_binding_ c) m (mitm_ca c) b em (credential_providers c)
    (credential_broker_openai_host c) (credential_broker_context c)
    (dangerously_allow_plaintext_credential_injection c) (mitm_hooks c).

(** ** Domains *)

(** One entry of the loop of [effective_entries]: the order of first appearance
    and the permissions so far *)
Definition note_entry (acc : list str * gmap str NetworkDomainPermission) (entry : NetworkDomainPermissionEntry)
    : list str * gmap str NetworkDomainPermission :=
  let '(order, perms) := acc in
  match perms !! pattern entry with
  | None => (order ++ [pattern entry], <[pattern entry := permission entry]> perms)
  | Some p =>
      (order, if permission_rank p <? permission_rank (permission entry)
              then <[pattern entry := permission entry]> perms else perms)
  end.

(** Taking the permission of each pattern out of the map *)
Fixpoint drain (order : list str) (perms : gmap str NetworkDomainPermission) : list NetworkDomainPermissionEntry :=
  match order with
  | [] => []
  | p :: order =>
      match perms !! p with
      | Some perm => mkDomainEntry p perm :: drain order (delete p perms)
      | None => drain order perms
      end
  end.

Definition effective_entries (entries : NetworkDomainPermissions) : list NetworkDomainPermissionEntry :=
  let '(order, perms) := foldl note_entry ([], ∅) entries in drain order perms.

Definition domain_entries (self : NetworkProxyConfig) (perm : NetworkDomainPermission) : option (list str) :=
  match domains self with
  | Some d =>
      let entries := pattern <$> filter (fun e => permission e = perm) (effective_entries d) in
      if is_empty entries then None else Some entries
  | None => None
  end.
Definition allowed_domains (self : NetworkProxyConfig) : option (list str) := domain_entries self PermAllow.
Definition denied_domains (self : NetworkProxyConfig) : option (list str) := domain_entries self PermDeny.

Definition non_empty (d : NetworkDomainPermissions) : option NetworkDomainPermissions :=
  if is_empty d then None else Some d.

Definition upsert_domain_permission (self : NetworkProxyConfig) (host : str) (perm : NetworkDomainPermission)
    (normalize : str -> str) : NetworkProxyConfig :=
  let entries := default [] (domains self) in
  let normalized_host := normalize host in
  let entries := filter (fun e => normalize (pattern e) <> normalized_host) entries in
  set_domains (non_empty (entries ++ [mkDomainEntry host perm])) self.

Definition push_domain (perm : NetworkDomainPermission) (d : NetworkDomainPermissions) (entry : str)
    : NetworkDomainPermissions :=
  if existsb (fun e => str_eqb (pattern e) entry && bool_decide (permission e = perm)) d then d
  else d ++ [mkDomainEntry entry perm].

Definition set_domain_entries (self : NetworkProxyConfig) (entries : list str) (perm : NetworkDomainPermission)
    : NetworkProxyConfig :=
  let d := filter (fun e => permission e <> perm) (default [] (domains self)) in
  set_domains (non_empty (foldl (push_domain perm) d entries)) self.
Definition set_allowed_domains (self : NetworkProxyConfig) (entries : list str) := set_domain_entries self entries PermAllow.
Definition set_denied_domains (self : NetworkProxyConfig) (entries : list str) := set_domain_entries self entries PermDeny.

(** ** Unix sockets *)

(** The order of strings, which is that of their bytes *)
Fixpoint str_ltb (s t : str) : bool :=
  match s, t with
  | _, [] => false
  | [], _ :: _ => true
  | a :: s, b :: t => if (a =? b)%N then str_ltb s t else (a <? b)%N
  end.

(** [BTreeMap::insert] *)
Fixpoint btree_insert {V} (k : str) (v : V) (m : list (str * V)) : list (str * V) :=
  match m with
  | [] => [(k, v)]
  | (k', v') :: m =>
      if str_eqb k k' then (k, v) :: m
      else if str_ltb k k' then (k, v) :: (k', v') :: m
      else (k', v') :: btree_insert k v m
  end.

Definition allow_unix_sockets (self : NetworkProxyConfig) : list str :=
  match unix_sockets self with
  | Some m => (filter (fun e : str * NetworkUnixSocketPermission => e.2 = SocketAllow) m).*1
  | None => []
  end.

Definition set_unix_socket_entries (self : NetworkProxyConfig) (entries : list str) (perm : NetworkUnixSocketPermission)
    : NetworkProxyConfig :=
  let m := filter (fun e : str * NetworkUnixSocketPermission => e.2 <> perm) (default [] (unix_sockets self)) in
  set_unix_sockets (Some (foldl (fun m entry => btree_insert entry perm m) m entries)) self.
Definition set_allow_unix_sockets (self : NetworkProxyConfig) (entries : list str) :=
  set_unix_socket_entries self entries SocketAllow.

(** ** Local binding and the credential broker *)

Definition allow_local_binding (self : NetworkProxyConfig) : bool := default false (allow_local_binding_ self).

Definition set_credential_broker_enabled (self : NetworkProxyConfig) (enabled : bool) : NetworkProxyConfig :=
  if enabled then set_broker true true (credential_broker_enabled_mitm self || negb (mitm self)) self
  else if credential_broker_enabled_mitm self then
    set_broker false (negb (is_empty (mitm_hooks self)) || bool_decide (is_Some (mitm_ca self))) false self
  else set_broker false (mitm self) false self.

(** ** Socket paths *)

Definition is_slash (b : N) : bool := (b =? 92)%N || (b =? 47)%N.

(** On the characters: the tested ones are ASCII. *)
Definition windows_path_is_absolute (path : str) : bool :=
  match path with
  | drive :: 58 :: s :: _ =>
      if is_ascii_alphabetic drive && is_slash s then true else false
  | _ => false
  end%N
  ||
  match path with
  | a :: b :: rest =>
      if is_slash a && is_slash b then
        if starts_with [92; 92; 63; 92]%N path
           || match rest with 46 :: s :: _ => is_slash s | _ => false end%N then true
        else
          match split_by is_slash rest with
          | server :: share :: _ => negb (is_empty server) && negb (is_empty share)
          | _ => false
          end
      else false
  | _ => false
  end.

Definition socket_path_is_absolute (platform : Platform) (path : str) : bool :=
  starts_with (lit "/") path
  || match path_convention platform with
     | Some Posix => false
     | Some Windows | None => windows_path_is_absolute path
     end.

Inductive ConfigError :=
| InvalidSocketPath (index : nat) (platform : Platform) (path : str)
| MissingHost (url : str)
| InvalidProxyUrl (url : str) (e : ConfigError)
| InvalidSocksUrl (url : str) (e : ConfigError)
| FixedPortRequired (field : str).

Fixpoint check_socket_paths (executor_os : Platform) (index : nat) (paths : list str) : result ConfigError unit :=
  match paths with
  | [] => Ok tt
  | p :: paths =>
      if socket_path_is_absolute executor_os p && negb (contains_char 0%N p)
      then check_socket_paths executor_os (S index) paths
      else Err (InvalidSocketPath index executor_os p)
  end.
Definition validate_unix_socket_allowlist_paths (cfg : NetworkProxyConfig) (executor_os : Platform)
    : result ConfigError unit := check_socket_paths executor_os 0 (allow_unix_sockets cfg).

(** ** Addresses to listen on *)

Record SocketAddr := mkAddr { addr_ip : IpAddr; addr_port : N }.
Definition loopback (port : N) : SocketAddr := mkAddr (IpV4 (V4 127 0 0 1)) port.

Definition clamp_non_loopback (addr : SocketAddr) (allow_non_loopback : bool) : SocketAddr :=
  if is_loopback (addr_ip addr) then addr
  else if allow_non_loopback then addr
  else loopback (addr_port addr).

Definition clamp_bind_addrs (http_addr socks_addr : SocketAddr) (cfg : NetworkProxyConfig) : SocketAddr * SocketAddr :=
  let http_addr := clamp_non_loopback http_addr (dangerously_allow_non_loopback_proxy cfg) in
  let socks_addr := clamp_non_loopback socks_addr (dangerously_allow_non_loopback_proxy cfg) in
  if is_empty (allow_unix_sockets cfg) && negb (default false (dangerously_allow_all_unix_sockets cfg))
  then (http_addr, socks_addr)
  else (loopback (addr_port http_addr), loopback (addr_port socks_addr)).

(** [str::parse::<u16>] *)
Definition parse_u16 (s : str) : option N :=
  let digits := match s with 43 :: (_ :: _) as r => tail s | _ => s end%N in
  match digits with
  | [] => None
  | _ =>
      if forallb is_ascii_digit digits then
        let n := foldl (fun acc d => acc * 10 + (d - 48))%N 0%N digits in
        if (n <=? 65535)%N then Some n else None
      else None
  end.

Record SocketAddressParts := mkParts { part_host : str; part_port : N }.

Definition parse_host_port_fallback (input : str) (default_port : N) : result ConfigError SocketAddressParts :=
  let without_scheme := match split_once_str (lit "://") input with Some (_, rest) => rest | None => input end in
  let host_port := default without_scheme (head (split_on 47%N without_scheme)) in
  let host_port := match rsplit_once 64%N host_port with Some (_, rest) => rest | None => host_port end in
  let plain :=
    if count_char 58%N host_port =? 1 then
      match rsplit_once 58%N host_port with
      | Some (host, port) =>
          if is_empty host then Err (MissingHost input)
          else Ok (mkParts host (default default_port (parse_u16 port)))
      | None => Err (MissingHost input)
      end
    else if is_empty host_port then Err (MissingHost input)
    else Ok (mkParts host_port default_port) in
  if starts_with (lit "[") host_port then
    match find (lit "]") host_port with
    | Some end_ =>
        let host := drop 1 (take end_ host_port) in
        let port := default default_port (strip_prefix (lit ":") (drop (end_ + 1) host_port) ≫= parse_u16) in
        if is_empty host then Err (MissingHost input) else Ok (mkParts host port)
    | None => plain
    end
  else plain.

(** [str::trim_matches] *)
Definition trim_matches (f : char -> bool) (s : str) : str := trim_start_matches f (trim_end_matches f s).
Definition is_bracket (c : char) : bool := (c =? 91)%N || (c =? 93)%N.

Section Urls.
Context {UA : UrlAddrs}.

Definition parse_host_port (url : str) (default_port : N) : result ConfigError SocketAddressParts :=
  let trimmed := trim url in
  if is_empty trimmed then Err (MissingHost url)
  else if match parse_ip trimmed with Some (IpV6 _) => negb (starts_with (lit "[") trimmed) | _ => false end
  then Ok (mkParts trimmed default_port)
  else
    let candidate := if contains (lit "://") trimmed then trimmed else lit "http://" ++ trimmed in
    match url_host_port candidate with
    | Some (Some host, port) =>
        let host := trim_matches is_bracket host in
        if is_empty host then Err (MissingHost url) else Ok (mkParts host (default default_port port))
    | _ => parse_host_port_fallback trimmed default_port
    end.

Definition resolve_addr (url : str) (default_port : N) : result ConfigError SocketAddr :=
  addr_parts ← parse_host_port url default_port;
  let host := if eq_ignore_ascii_case (part_host addr_parts) (lit "localhost") then lit "127.0.0.1"
              else part_host addr_parts in
  match parse_ip host with
  | Some ip => Ok (mkAddr ip (part_port addr_parts))
  | None => Ok (loopback (part_port addr_parts))
  end.

Definition format_host_and_port (host : str) (port : N) : str :=
  if contains_char 58%N host then lit "[" ++ host ++ lit "]:" ++ show port else host ++ lit ":" ++ show port.

Definition host_and_port_from_network_addr (value : str) (default_port : N) : str :=
  let trimmed := trim value in
  if is_empty trimmed then lit "<missing>"
  else
    match parse_host_port trimmed default_port with
    | Ok parts => format_host_and_port (part_host parts) (part_port parts)
    | Err _ => format_host_and_port trimmed default_port
    end.

Record RuntimeConfig := mkRuntime { http_addr : SocketAddr; socks_addr : SocketAddr }.

Definition resolve_runtime (cfg : NetworkProxyConfig) (executor_os : Platform) : result ConfigError RuntimeConfig :=
  _ ← validate_unix_socket_allowlist_paths cfg executor_os;
  http ← map_err (InvalidProxyUrl (proxy_url cfg)) (resolve_addr (proxy_url cfg) 3128%N);
  socks ← map_err (InvalidSocksUrl (socks_url cfg)) (resolve_addr (socks_url cfg) 8081%N);
  let '(http, socks) := clamp_bind_addrs http socks cfg in
  Ok (mkRuntime http socks).

(** The ports, sorted and without duplicates *)
Definition managed_proxy_ports (cfg : NetworkProxyConfig) (native : Platform) : result ConfigError (list N) :=
  runtime ← resolve_runtime cfg native;
  let http := addr_port (http_addr runtime) in
  let socks := addr_port (socks_addr runtime) in
  if (http =? 0)%N then Err (FixedPortRequired (lit "network.proxy_url"))
  else if enable_socks5 cfg then
    if (socks =? 0)%N then Err (FixedPortRequired (lit "network.socks_url"))
    else Ok (if (http =? socks)%N then [http] else if (http <? socks)%N then [http; socks] else [socks; http])
  else Ok [http].

End Urls.
End Config.
