(* ===== verification/NetworkConstraints.v ===== *)
(** * Managed constraints on the network proxy

    network-proxy/src/state.rs: a configuration is accepted only within the
    constraints an administrator manages. The theorems state what an accepted
    configuration promises, the effective permissions of domains, and where the
    proxy may listen. *)

From S2P Require Import Prelude RustStr PathUri.
From S2P Require Import NetAddr HostPattern HostLaws NetworkConfig.

Section Constraints.
Context {PP : ProxyParts} {UH : UrlHosts}.

Record NetworkProxyConstraints := mkConstraints {
  c_enabled : option bool;
  c_mode : option NetworkMode;
  c_allow_upstream_proxy : option bool;
  c_dangerously_allow_non_loopback_proxy : option bool;
  c_dangerously_allow_all_unix_sockets : option bool;
  c_allowed_domains : option (list str);
  c_allowlist_expansion_enabled : option bool;
  c_denied_domains : option (list str);
  c_denylist_expansion_enabled : option bool;
  c_allow_unix_sockets : option (list str);
  c_allow_local_binding : option bool;
}.
#[export] Instance NetworkProxyConstraints_eq_dec : EqDecision NetworkProxyConstraints.
Proof. solve_decision. Defined.

(** The values an error names: text, or the debug form of a value *)
Inductive Shown := Txt (s : str) | ShowMode (m : NetworkMode) (suffix : str) | ShowStrings (l : list str).

Inductive NetworkProxyConstraintError := InvalidValue (field_name : str) (candidate allowed : Shown).

(** The validation of the interception hooks, with the text of its error *)
Context (validate_mitm_hook_config : NetworkProxyConfig -> result str unit).

Definition ensure (b : bool) (e : NetworkProxyConstraintError) : result NetworkProxyConstraintError unit :=
  if b then Ok tt else Err e.

Definition network_mode_rank (m : NetworkMode) : nat := match m with Limited => 0 | Full => 1 end.

Definition validate_non_global_wildcard_domain_patterns (field_name : str) (patterns : list str)
    : result NetworkProxyConstraintError unit :=
  match list_find (fun p => Is_true (is_global_wildcard_domain_pattern p)) patterns with
  | Some (_, p) =>
      Err (InvalidValue field_name (Txt (trim p))
             (Txt (lit "exact hosts or scoped wildcards like *.example.com or **.example.com")))
  | None => Ok tt
  end.

Definition disabled_by_managed : Shown := Txt (lit "false (disabled by managed config)").

(** A flag that constraints may forbid *)
Definition forbid (field_name : str) (candidate permitted : bool) : result NetworkProxyConstraintError unit :=
  ensure (negb candidate || permitted) (InvalidValue field_name (Txt (lit "true")) disabled_by_managed).

(** A set of strings without their case *)
Definition lowered (l : list str) : gset str := list_to_set (to_ascii_lowercase <$> l).

Definition validate_allowed_domains (config_allowed managed config_denied : list str) (expansion : option bool)
    : result NetworkProxyConstraintError unit :=
  let field := lit "network.allowed_domains" in
  _ ← validate_non_global_wildcard_domain_patterns field managed;
  let denied_domain_overrides := lowered config_denied in
  let required_set := lowered managed in
  let candidate_set := lowered config_allowed in
  match expansion with
  | Some true =>
      let missing := elements (required_set ∖ candidate_set ∖ denied_domain_overrides) in
      ensure (is_empty missing)
        (InvalidValue field (Txt (lit "missing managed allowed_domains entries")) (ShowStrings missing))
  | Some false =>
      ensure (bool_decide (candidate_set = required_set ∖ denied_domain_overrides))
        (InvalidValue field (ShowStrings config_allowed) (Txt (lit "must match managed allowed_domains")))
  | None =>
      let managed_patterns := parse_for_constraints <$> managed in
      let invalid :=
        List.filter (fun entry => negb (existsb (fun m => allows m (parse_for_constraints entry)) managed_patterns))
          config_allowed in
      ensure (is_empty invalid)
        (InvalidValue field (ShowStrings invalid) (Txt (lit "subset of managed allowed_domains")))
  end.

Definition validate_denied_domains (config_denied managed : list str) (expansion : option bool)
    : result NetworkProxyConstraintError unit :=
  let field := lit "network.denied_domains" in
  _ ← validate_non_global_wildcard_domain_patterns field managed;
  let required_set := lowered managed in
  let candidate_set := lowered config_denied in
  match expansion with
  | Some false =>
      ensure (bool_decide (candidate_set = required_set))
        (InvalidValue field (ShowStrings config_denied) (Txt (lit "must match managed denied_domains")))
  | Some true | None =>
      let missing := elements (required_set ∖ candidate_set) in
      ensure (is_empty missing)
        (InvalidValue field (Txt (lit "missing managed denied_domains entries")) (ShowStrings missing))
  end.

Definition validate_unix_sockets (config_sockets managed : list str) : result NetworkProxyConstraintError unit :=
  let allowed_set := lowered managed in
  let invalid := List.filter (fun entry => negb (bool_decide (to_ascii_lowercase entry ∈ allowed_set))) config_sockets in
  ensure (is_empty invalid)
    (InvalidValue (lit "network.allow_unix_sockets") (ShowStrings invalid) (Txt (lit "subset of managed allow_unix_sockets"))).

Definition validate_policy_against_constraints (config : NetworkProxyConfig) (constraints : NetworkProxyConstraints)
    : result NetworkProxyConstraintError unit :=
  let config_allowed_domains := default [] (allowed_domains config) in
  let config_denied_domains := default [] (denied_domains config) in
  _ ← map_err (fun e => InvalidValue (lit "network.mitm_hooks") (Txt e) (Txt (lit "valid MITM hook configuration")))
        (validate_mitm_hook_config config);
  _ ← validate_non_global_wildcard_domain_patterns (lit "network.denied_domains") config_denied_domains;
  _ ← match c_enabled constraints with
      | Some max_enabled => forbid (lit "network.enabled") (enabled config) max_enabled
      | None => Ok tt
      end;
  _ ← match c_mode constraints with
      | Some max_mode =>
          ensure (network_mode_rank (mode config) <=? network_mode_rank max_mode)
            (InvalidValue (lit "network.mode") (ShowMode (mode config) []) (ShowMode max_mode (lit " or more restrictive")))
      | None => Ok tt
      end;
  _ ← forbid (lit "network.allow_upstream_proxy") (allow_upstream_proxy config)
        (default true (c_allow_upstream_proxy constraints));
  _ ← forbid (lit "network.dangerously_allow_non_loopback_proxy") (dangerously_allow_non_loopback_proxy config)
        (default true (c_dangerously_allow_non_loopback_proxy constraints));
  _ ← forbid (lit "network.dangerously_allow_all_unix_sockets")
        (default false (dangerously_allow_all_unix_sockets config))
        (default (bool_decide (c_allow_unix_sockets constraints = None))
           (c_dangerously_allow_all_unix_sockets constraints));
  _ ← match c_allow_local_binding constraints with
      | Some permitted => forbid (lit "network.allow_local_binding") (allow_local_binding config) permitted
      | None => Ok tt
      end;
  _ ← match c_allowed_domains constraints with
      | Some managed =>
          validate_allowed_domains config_allowed_domains managed config_denied_domains
            (c_allowlist_expansion_enabled constraints)
      | None => Ok tt
      end;
  _ ← match c_denied_domains constraints with
      | Some managed =>
          validate_denied_domains config_denied_domains managed (c_denylist_expansion_enabled constraints)
      | None => Ok tt
      end;
  match c_allow_unix_sockets constraints with
  | Some managed => validate_unix_sockets (allow_unix_sockets config) managed
  | None => Ok tt
  end.

(** ** What the constraints promise *)

Definition scoped (patterns : list str) : Prop :=
  Forall (fun p => is_global_wildcard_domain_pattern p = false) patterns.

(** The same text, case apart *)
Definition same_text (s t : str) : Prop := to_ascii_lowercase s = to_ascii_lowercase t.

Definition listed (entry : str) (l : list str) : Prop := Exists (same_text entry) l.

(** A pattern of the configuration lies within a managed one: so does every host
    it stands for. *)
Definition within_pattern (entry managed : str) : Prop :=
  allows (parse_for_constraints managed) (parse_for_constraints entry) = true /\
  (proper (pattern_domain (parse_for_constraints entry)) ->
   forall h, covers (parse_for_constraints entry) h -> covers (parse_for_constraints managed) h).

Definition within_allowed (config managed config_denied : list str) (expansion : option bool) : Prop :=
  scoped managed /\
  match expansion with
  | Some true => Forall (fun m => listed m config \/ listed m config_denied) managed
  | Some false => forall s, listed s config <-> listed s managed /\ ~ listed s config_denied
  | None => Forall (fun entry => Exists (within_pattern entry) managed) config
  end.

Definition within_denied (config managed : list str) (expansion : option bool) : Prop :=
  scoped managed /\
  match expansion with
  | Some false => forall s, listed s config <-> listed s managed
  | Some true | None => Forall (fun m => listed m config) managed
  end.

Record within (config : NetworkProxyConfig) (constraints : NetworkProxyConstraints) : Prop := {
  w_hooks : validate_mitm_hook_config config = Ok tt;
  w_scoped : scoped (default [] (denied_domains config));
  w_enabled : c_enabled constraints = Some false -> enabled config = false;
  w_mode : c_mode constraints = Some Limited -> mode config = Limited;
  w_upstream : c_allow_upstream_proxy constraints = Some false -> allow_upstream_proxy config = false;
  w_non_loopback :
    c_dangerously_allow_non_loopback_proxy constraints = Some false ->
    dangerously_allow_non_loopback_proxy config = false;
  w_all_sockets :
    dangerously_allow_all_unix_sockets config = Some true ->
    c_dangerously_allow_all_unix_sockets constraints = Some true \/
    c_dangerously_allow_all_unix_sockets constraints = None /\ c_allow_unix_sockets constraints = None;
  w_local : c_allow_local_binding constraints = Some false -> allow_local_binding config = false;
  w_allowed : forall managed, c_allowed_domains constraints = Some managed ->
    within_allowed (default [] (allowed_domains config)) managed (default [] (denied_domains config))
      (c_allowlist_expansion_enabled constraints);
  w_denied : forall managed, c_denied_domains constraints = Some managed ->
    within_denied (default [] (denied_domains config)) managed (c_denylist_expansion_enabled constraints);
  w_sockets : forall managed, c_allow_unix_sockets constraints = Some managed ->
    Forall (fun s => listed s managed) (allow_unix_sockets config);
}.

Lemma bind_Ok_tt {E} (a b : result E unit) : (_ ← a; b) = Ok tt <-> a = Ok tt /\ b = Ok tt.
Proof. destruct a as [[]|]; simpl; [tauto|]. split; [done|by intros []]. Qed.

Lemma ensure_Ok b e : ensure b e = Ok tt <-> b = true.
Proof. by destruct b. Qed.

Lemma forbid_Ok f c p : forbid f c p = Ok tt <-> (p = false -> c = false).
Proof. unfold forbid. rewrite ensure_Ok. destruct c, p; simpl; intuition congruence. Qed.

Lemma is_empty_spec {A} (l : list A) : is_empty l = true <-> l = [].
Proof. by destruct l. Qed.

Lemma filter_none {A} (f : A -> bool) l : is_empty (List.filter f l) = true <-> Forall (fun x => f x = false) l.
Proof.
  rewrite is_empty_spec. induction l as [|x l IH]; simpl; [done|]. rewrite Forall_cons, <- IH.
  destruct (f x); split; [done|by intros []|by intros ->|by intros []].
Qed.

Lemma scoped_Ok f ps : validate_non_global_wildcard_domain_patterns f ps = Ok tt <-> scoped ps.
Proof.
  unfold validate_non_global_wildcard_domain_patterns, scoped.
  destruct (list_find _ ps) as [[i p]|] eqn:E; split; try done.
  - intros H. apply list_find_Some in E as (Hi & Hp & _). apply list_elem_of_lookup_2 in Hi.
    rewrite Forall_forall in H. specialize (H p Hi). by rewrite H in Hp.
  - intros _. apply list_find_None in E. eapply Forall_impl; [exact E|]. intros p Hp. by apply Is_true_false.
Qed.

Lemma elem_of_lowered s l : to_ascii_lowercase s ∈ lowered l <-> listed s l.
Proof. unfold lowered, listed, same_text. rewrite elem_of_list_to_set, list_elem_of_fmap, Exists_exists. naive_solver. Qed.

Lemma elem_of_lowered_any t l : t ∈ lowered l <-> exists s, t = to_ascii_lowercase s /\ s ∈ l.
Proof. unfold lowered. rewrite elem_of_list_to_set, list_elem_of_fmap. naive_solver. Qed.

Lemma elements_empty (X : gset str) : is_empty (elements X) = true <-> forall t, t ∉ X.
Proof. rewrite is_empty_spec, elements_empty_iff. set_solver. Qed.

Lemma lowered_in t l : t ∈ lowered l -> exists s, t = to_ascii_lowercase s /\ listed s l.
Proof. intros (s & -> & Hs)%elem_of_lowered_any. exists s. split; [done|]. apply Exists_exists. by exists s. Qed.

Lemma lowered_difference (A B D : list str) :
  lowered A = lowered B ∖ lowered D <-> forall s, listed s A <-> listed s B /\ ~ listed s D.
Proof.
  setoid_rewrite <- elem_of_lowered. split.
  - intros -> s. set_solver.
  - intros H. apply set_eq. intros t. rewrite elem_of_difference. split.
    + intros Ht. pose proof Ht as (s & -> & _)%lowered_in. by apply H.
    + intros [Ht Hd]. pose proof Ht as (s & -> & _)%lowered_in. by apply H.
Qed.

Lemma within_allowed_Ok config managed denied expansion :
  validate_allowed_domains config managed denied expansion = Ok tt <-> within_allowed config managed denied expansion.
Proof.
  unfold validate_allowed_domains, within_allowed. cbv zeta. rewrite bind_Ok_tt, scoped_Ok.
  destruct expansion as [[]|]; rewrite ensure_Ok.
  - rewrite elements_empty, Forall_forall. split; intros [? H]; (split; [done|]).
    + intros m Hm. rewrite <- !elem_of_lowered. specialize (H (to_ascii_lowercase m)).
      assert (to_ascii_lowercase m ∈ lowered managed) by (apply elem_of_lowered_any; eauto).
      destruct (decide (to_ascii_lowercase m ∈ lowered config)); [by left|right].
      apply dec_stable. intros Hn. apply H. by rewrite !elem_of_difference.
    + intros t [[(m & -> & Hm)%elem_of_lowered_any Hc]%elem_of_difference Hd]%elem_of_difference.
      specialize (H m Hm). rewrite <- !elem_of_lowered in H. tauto.
  - by rewrite bool_decide_eq_true, lowered_difference.
  - rewrite filter_none. split; intros [? H]; (split; [done|]); eapply Forall_impl; [exact H| |exact H|]; intros entry.
    + rewrite negb_false_iff, existsb_exists. intros (m & (m' & -> & Hm)%list_elem_of_In%list_elem_of_fmap & Ha).
      apply Exists_exists. exists m'. split; [done|]. split; [done|]. intros Hp. by apply allows_spec.
    + intros (m & Hm & Ha & _)%Exists_exists. rewrite negb_false_iff, existsb_exists.
      exists (parse_for_constraints m). split; [|done]. apply list_elem_of_In, list_elem_of_fmap. eauto.
Qed.

Lemma within_denied_Ok config managed expansion :
  validate_denied_domains config managed expansion = Ok tt <-> within_denied config managed expansion.
Proof.
  unfold validate_denied_domains, within_denied. cbv zeta. rewrite bind_Ok_tt, scoped_Ok.
  assert (is_empty (elements (lowered managed ∖ lowered config)) = true <-> Forall (fun m => listed m config) managed) as Hm.
  { rewrite elements_empty, Forall_forall. split; intros H.
    - intros m Hm. rewrite <- elem_of_lowered. apply dec_stable. intros Hn. apply (H (to_ascii_lowercase m)).
      apply elem_of_difference. split; [|done]. apply elem_of_lowered_any; eauto.
    - intros t [(m & -> & Hm)%elem_of_lowered_any Hn]%elem_of_difference. apply Hn, elem_of_lowered. auto. }
  destruct expansion as [[]|]; rewrite ensure_Ok; rewrite ?Hm; [done| |done].
  rewrite bool_decide_eq_true. pose proof (lowered_difference config managed []) as H.
  change (lowered []) with (∅ : gset str) in H. rewrite difference_empty_L in H. rewrite H.
  assert (forall s, ~ listed s []) as Hnil by (intros s Hs; by inversion Hs). naive_solver.
Qed.

Lemma within_sockets_Ok config managed :
  validate_unix_sockets config managed = Ok tt <-> Forall (fun s => listed s managed) config.
Proof.
  unfold validate_unix_sockets. cbv zeta. rewrite ensure_Ok, filter_none, !Forall_forall.
  setoid_rewrite negb_false_iff. setoid_rewrite bool_decide_eq_true. by setoid_rewrite elem_of_lowered.
Qed.

(** An optional constraint *)
Lemma optional_Ok {A E} (o : option A) (f : A -> result E unit) (P : A -> Prop) :
  (forall a, f a = Ok tt <-> P a) ->
  match o with Some a => f a | None => Ok tt end = Ok tt <-> forall a, o = Some a -> P a.
Proof. intros H. destruct o as [a|]; [rewrite H|]; naive_solver. Qed.

Lemma all_sockets_permitted (flag : option bool) (sockets : option (list str)) :
  default (bool_decide (sockets = None)) flag = true <-> flag = Some true \/ flag = None /\ sockets = None.
Proof.
  destruct flag as [[]|]; simpl; rewrite ?bool_decide_eq_true; split; intros H; try done; try (by left).
  - by destruct H as [|[]].
  - by right.
  - by destruct H as [|[]].
Qed.

Lemma validate_policy_spec config constraints :
  validate_policy_against_constraints config constraints = Ok tt <-> within config constraints.
Proof.
  unfold validate_policy_against_constraints. cbv zeta. rewrite !bind_Ok_tt, scoped_Ok, !forbid_Ok.
  rewrite (optional_Ok (c_enabled constraints) _ (fun m => m = false -> enabled config = false))
    by (intros; apply forbid_Ok).
  rewrite (optional_Ok (c_mode constraints) _ (fun m => m = Limited -> mode config = Limited))
    by (intros m; rewrite ensure_Ok, Nat.leb_le; destruct m, (mode config); simpl; intuition (congruence || lia)).
  rewrite (optional_Ok (c_allow_local_binding constraints) _ (fun m => m = false -> allow_local_binding config = false))
    by (intros; apply forbid_Ok).
  rewrite (optional_Ok _ _ _ (fun m => within_allowed_Ok _ m _ _)), (optional_Ok _ _ _ (fun m => within_denied_Ok _ m _)),
    (optional_Ok _ _ _ (fun m => within_sockets_Ok _ m)).
  assert (map_err (fun e => InvalidValue (lit "network.mitm_hooks") (Txt e) (Txt (lit "valid MITM hook configuration")))
            (validate_mitm_hook_config config) = Ok tt <-> validate_mitm_hook_config config = Ok tt) as Hh
    by (destruct (validate_mitm_hook_config config) as [[]|]; split; done).
  rewrite Hh.
  assert (forall o : option bool, default true o = false <-> o = Some false) as Hd by (intros [[]|]; split; done).
  rewrite !Hd.
  set (P := default _ (c_dangerously_allow_all_unix_sockets constraints) = false -> _).
  assert (P <-> (dangerously_allow_all_unix_sockets config = Some true ->
            c_dangerously_allow_all_unix_sockets constraints = Some true \/
            c_dangerously_allow_all_unix_sockets constraints = None /\ c_allow_unix_sockets constraints = None)) as HP.
  { unfold P. clear. rewrite <- all_sockets_permitted. destruct (default _ (c_dangerously_allow_all_unix_sockets constraints)),
      (dangerously_allow_all_unix_sockets config) as [[]|]; simpl; split; intros H; try done; by specialize (H eq_refl). }
  rewrite HP. clear P HP. split; [intros H; destruct_and! H|intros []]; [split; naive_solver|].
  split_and!; naive_solver.
Qed.


End Constraints.

(** ** Effective permissions *)

(** The strongest permission any entry gives a pattern *)
Definition strongest (entries : list NetworkDomainPermissionEntry) (p : str) (x : NetworkDomainPermission) : Prop :=
  mkDomainEntry p x ∈ entries /\
  forall y, mkDomainEntry p y ∈ entries -> permission_rank y <= permission_rank x.

Lemma permission_rank_inj x y : permission_rank x = permission_rank y -> x = y.
Proof. by destruct x, y. Qed.

Lemma strongest_unique entries p x y : strongest entries p x -> strongest entries p y -> x = y.
Proof. intros [Hx1 Hx2] [Hy1 Hy2]. apply permission_rank_inj. specialize (Hx2 _ Hy1). specialize (Hy2 _ Hx1). lia. Qed.

Record noted (es : list NetworkDomainPermissionEntry) (order : list str) (perms : gmap str NetworkDomainPermission)
  : Prop := {
  noted_nodup : NoDup order;
  noted_order p : p ∈ order <-> p ∈ pattern <$> es;
  noted_some p : p ∈ order -> is_Some (perms !! p);
  noted_strongest p x : perms !! p = Some x -> strongest es p x;
}.

Lemma noted_step es order perms e :
  noted es order perms ->
  noted (es ++ [e]) (note_entry (order, perms) e).1 (note_entry (order, perms) e).2.
Proof.
  intros [Hn Ho Hs Hm]. destruct e as [q y]. unfold note_entry. simpl.
  assert (forall p x, strongest es p x -> p <> q -> strongest (es ++ [mkDomainEntry q y]) p x) as Hkeep.
  { intros p x [H1 H2] Hp. split; [set_solver|]. intros z [Hz|Hz]%elem_of_app; [by apply H2|].
    apply list_elem_of_singleton in Hz. congruence. }
  assert (forall p, p ∈ pattern <$> es ++ [mkDomainEntry q y] <-> p ∈ pattern <$> es \/ p = q) as Hin.
  { intros p. rewrite fmap_app, elem_of_app. simpl. by rewrite list_elem_of_singleton. }
  destruct (perms !! q) as [x|] eqn:Eq; simpl.
  - assert (q ∈ order) as Hq.
    { apply Ho, list_elem_of_fmap. exists (mkDomainEntry q x). split; [done|]. by apply Hm. }
    destruct (permission_rank x <? permission_rank y) eqn:Er; split; try done.
    + intros p. rewrite Hin, <- Ho. naive_solver.
    + intros p Hp. destruct (decide (p = q)) as [->|]; [rewrite lookup_insert_eq; eauto|rewrite lookup_insert_ne; auto].
    + intros p z. destruct (decide (p = q)) as [->|Hne].
      * rewrite lookup_insert_eq. intros [= <-]. split; [set_solver|]. intros z [Hz|Hz]%elem_of_app.
        { destruct (Hm _ _ Eq) as [_ Hz']. specialize (Hz' _ Hz). apply Nat.ltb_lt in Er. lia. }
        apply list_elem_of_singleton in Hz. simplify_eq. lia.
      * rewrite lookup_insert_ne by done. auto.
    + intros p. rewrite Hin, <- Ho. naive_solver.
    + intros p z Hz. destruct (decide (p = q)) as [->|Hne]; [|by auto]. simplify_eq.
      destruct (Hm _ _ Eq) as [H1 H2]. split; [set_solver|]. intros w [Hw|Hw]%elem_of_app; [by apply H2|].
      apply list_elem_of_singleton in Hw. simplify_eq. apply Nat.ltb_ge in Er. lia.
  - assert (q ∉ order) as Hq by (intros [? Hx]%Hs; congruence).
    split.
    + apply NoDup_app. split_and!; [done|set_solver|apply NoDup_singleton].
    + intros p. rewrite Hin, <- Ho. set_solver.
    + intros p [Hp|Hp]%elem_of_app.
      * rewrite lookup_insert_ne by set_solver. auto.
      * apply list_elem_of_singleton in Hp. subst. rewrite lookup_insert_eq. eauto.
    + intros p z. destruct (decide (p = q)) as [->|Hne].
      * rewrite lookup_insert_eq. intros [= <-]. split; [set_solver|]. intros z [Hz|Hz]%elem_of_app.
        { exfalso. apply Hq, Ho, list_elem_of_fmap. by exists (mkDomainEntry q z). }
        apply list_elem_of_singleton in Hz. simplify_eq. lia.
      * rewrite lookup_insert_ne by done. auto.
Qed.

Lemma noted_all es order perms es' :
  noted es order perms ->
  noted (es ++ es') (foldl note_entry (order, perms) es').1 (foldl note_entry (order, perms) es').2.
Proof.
  revert es order perms. induction es' as [|e es' IH]; intros es order perms H; [by rewrite app_nil_r|].
  apply noted_step with (e := e) in H. cbn [foldl]. destruct (note_entry (order, perms) e) as [order' perms'].
  specialize (IH _ _ _ H). by rewrite <- app_assoc in IH.
Qed.

Lemma drain_spec order perms :
  NoDup order -> (forall p, p ∈ order -> is_Some (perms !! p)) ->
  pattern <$> drain order perms = order /\
  forall e, e ∈ drain order perms -> perms !! pattern e = Some (permission e).
Proof.
  revert perms. induction order as [|p order IH]; intros perms Hn Hs; simpl; [set_solver|].
  apply NoDup_cons in Hn as [Hp Hn]. destruct (Hs p ltac:(set_solver)) as [x Hx]. rewrite Hx. simpl.
  destruct (IH (delete p perms) Hn) as [H1 H2].
  { intros q Hq. rewrite lookup_delete_ne by set_solver. apply Hs. set_solver. }
  split; [f_equal; exact H1|]. intros e [->|He]%elem_of_cons; [done|].
  specialize (H2 e He). by apply lookup_delete_Some in H2 as [_ ?].
Qed.

Lemma noted_entries es : exists order perms, foldl note_entry ([], ∅) es = (order, perms) /\ noted es order perms.
Proof.
  assert (noted [] [] (∅ : gmap str NetworkDomainPermission)) as H0.
  { split; [constructor|done|set_solver|]. intros p x. by rewrite lookup_empty. }
  apply noted_all with (es' := es) in H0. destruct (foldl note_entry ([], ∅) es) as [order perms]. eauto.
Qed.

Lemma effective_entries_spec es :
  NoDup (pattern <$> effective_entries es) /\
  (forall p, p ∈ pattern <$> effective_entries es <-> p ∈ pattern <$> es) /\
  (forall p x, mkDomainEntry p x ∈ effective_entries es <-> strongest es p x).
Proof.
  unfold effective_entries. destruct (noted_entries es) as (order & perms & -> & [Hn Ho Hs Hm]).
  destruct (drain_spec order perms Hn Hs) as [H1 H2]. rewrite H1. split_and!; [done|done|].
  intros p x. split; [intros H; apply Hm, (H2 _ H)|]. intros Hx.
  assert (p ∈ pattern <$> drain order perms) as (e & -> & He)%list_elem_of_fmap.
  { rewrite H1. apply Ho, list_elem_of_fmap. exists (mkDomainEntry p x). split; [done|apply Hx]. }
  destruct e as [q y]. simpl in *. assert (x = y) as ->; [|done].
  eapply strongest_unique; [exact Hx|]. apply Hm. apply (H2 _ He).
Qed.

(** Each pattern of a domain list counts once, with the strongest permission
    any of its entries gives it: a denial beats an allowance wherever it stands in
    the list, so no pattern is both allowed and denied. *)
Theorem effective_entries_exact (entries : NetworkDomainPermissions) :
  NoDup (pattern <$> effective_entries entries) /\
  (forall p, p ∈ pattern <$> effective_entries entries <-> p ∈ pattern <$> entries) /\
  (forall p x, mkDomainEntry p x ∈ effective_entries entries <-> strongest entries p x).
Proof. apply effective_entries_spec. Qed.

(** ** Where the proxy listens *)

Section Listening.
Context {PP : ProxyParts} {UA : UrlAddrs}.

(** The proxy listens on loopback addresses only, unless the configuration
    explicitly allows others and lets no Unix socket be reached: then each
    listener is at the address its URL states. The ports are those of the URLs. *)
Theorem listeners_loopback (cfg : NetworkProxyConfig) (os : Platform) (rt : RuntimeConfig) :
  resolve_runtime cfg os = Ok rt ->
  exists http socks,
    resolve_addr (proxy_url cfg) 3128%N = Ok http /\ resolve_addr (socks_url cfg) 8081%N = Ok socks /\
    addr_port (http_addr rt) = addr_port http /\ addr_port (socks_addr rt) = addr_port socks /\
    (if dangerously_allow_non_loopback_proxy cfg && is_empty (allow_unix_sockets cfg)
        && negb (default false (dangerously_allow_all_unix_sockets cfg))
     then http_addr rt = http /\ socks_addr rt = socks
     else is_loopback (addr_ip (http_addr rt)) = true /\ is_loopback (addr_ip (socks_addr rt)) = true) /\
    Forall (fun p => socket_path_is_absolute os p = true /\ (0%N ∉ p)) (allow_unix_sockets cfg).
Proof.
  unfold resolve_runtime. intros H.
  destruct (validate_unix_socket_allowlist_paths cfg os) as [[]|] eqn:Ev; [|done]. simpl in H.
  destruct (resolve_addr (proxy_url cfg) 3128) as [http|]; [|done].
  destruct (resolve_addr (socks_url cfg) 8081) as [socks|]; [|done]. simpl in H.
  exists http, socks. split; [done|]. split; [done|].
  assert (Forall (fun p => socket_path_is_absolute os p = true /\ (0%N ∉ p)) (allow_unix_sockets cfg)) as Hp.
  { unfold validate_unix_socket_allowlist_paths in Ev. generalize dependent 0. clear.
    induction (allow_unix_sockets cfg) as [|p ps IH]; intros i Hi; [constructor|]. cbn [check_socket_paths] in Hi.
    destruct (socket_path_is_absolute os p && negb (contains_char 0 p)) eqn:E; [|done].
    apply andb_true_iff in E as [? ?%negb_true_iff%contains_char_false]. constructor; [done|]. by eapply IH. }
  unfold clamp_bind_addrs, clamp_non_loopback in H.
  destruct (is_loopback (addr_ip http)) eqn:Eh, (is_loopback (addr_ip socks)) eqn:Es,
    (dangerously_allow_non_loopback_proxy cfg), (is_empty (allow_unix_sockets cfg)),
    (default false (dangerously_allow_all_unix_sockets cfg)); simpl in *; simplify_eq/=; auto 10.
Qed.

End Listening.
