(* ===== verification/NetworkRuntime.v ===== *)
(** * The running network proxy

    network-proxy/src/runtime.rs and [build_config_state] of state.rs: the state
    behind the lock, whether a host is blocked, the log of blocked requests,
    reloading, and the edits of the domain lists, which read the state, compute
    without the lock and write only if the configuration is still the one they
    read. An edit is therefore a list of rounds, each with the state it read and
    the state it found when it came to write. *)

From S2P Require Import Prelude RustStr PathUri.
From S2P Require Import NetAddr HostPattern HostLaws NetworkConfig NetworkConstraints.

(** The interception hooks and the certificate state of a configuration *)
Class ProxyRuntime {PP : ProxyParts} := {
  MitmState : Type;
  MitmHooksByHost : Type;
  RuntimeError : Type;
  validate_mitm_hook_config : NetworkProxyConfig -> result str unit;
  compile_mitm_hooks : NetworkProxyConfig -> result RuntimeError MitmHooksByHost;
  new_mitm_state : bool -> option MitmCa -> result RuntimeError MitmState;
}.

(** The fields of a [BlockedRequest] other than the ones compared here *)
Class Requests := { BlockedRequest : Type }.

Definition MAX_BLOCKED_EVENTS : nat := 200.

Inductive HostBlockReason := Denied | NotAllowed | NotAllowedLocal.
Inductive HostBlockDecision := HostAllowed | Blocked (r : HostBlockReason).
#[export] Instance HostBlockReason_eq_dec : EqDecision HostBlockReason.
Proof. solve_decision. Defined.
#[export] Instance HostBlockDecision_eq_dec : EqDecision HostBlockDecision.
Proof. solve_decision. Defined.

Inductive LocalBindingPolicy := DefaultFalse | RequireTrue.

Section Runtime.
Context {PP : ProxyParts} {UH : UrlHosts} {GS : Globset} {RT : ProxyRuntime} {RQ : Requests}.

Record ConfigState := mkState {
  executor_os : Platform;
  config : NetworkProxyConfig;
  brokerage_created_default_allowlist : bool;
  allow_set : GlobSet;
  deny_set : GlobSet;
  mitm_state : option MitmState;
  state_hooks : MitmHooksByHost;
  constraints : NetworkProxyConstraints;
  blocked : list BlockedRequest;
  blocked_total : N;
}.

Inductive StateError :=
| BadConfig (e : ConfigError)
| BrokerRequiresMitm
| CaRequiresMitm
| Constrained (e : NetworkProxyConstraintError)
| Compile (e : CompileError)
| Hooks (e : RuntimeError)
| InvalidHost
| Reload (e : RuntimeError).

Definition build_config_state (config : NetworkProxyConfig) (constraints : NetworkProxyConstraints) (os : Platform)
    : result StateError ConfigState :=
  let config := if bool_decide (c_enabled constraints = Some false)
                then set_broker false (mitm config) (credential_broker_enabled_mitm config) config else config in
  let brokerage_created_proxy := credential_broker config && negb (enabled config) in
  let default_allowlist := brokerage_created_proxy && bool_decide (allowed_domains config = None)
                           && bool_decide (c_allowed_domains constraints = None) in
  let config := if brokerage_created_proxy then set_enabled true config else config in
  let config := if default_allowlist then set_allowed_domains config [lit "*"] else config in
  _ ← map_err BadConfig (validate_unix_socket_allowlist_paths config os);
  _ ← (if negb (credential_broker config) || mitm config then Ok tt else Err BrokerRequiresMitm);
  _ ← (if bool_decide (mitm_ca config = None) || mitm config then Ok tt else Err CaRequiresMitm);
  let allowed := default [] (allowed_domains config) in
  let denied := default [] (denied_domains config) in
  _ ← map_err Constrained (validate_non_global_wildcard_domain_patterns (lit "network.denied_domains") denied);
  deny_set ← map_err Compile (compile_denylist_globset denied);
  allow_set ← map_err Compile (compile_allowlist_globset allowed);
  hooks ← map_err Hooks (compile_mitm_hooks config);
  mitm ← (if mitm config then Some <$> map_err Hooks (new_mitm_state (allow_upstream_proxy config) (mitm_ca config))
          else Ok None);
  Ok (mkState os config default_allowlist allow_set deny_set mitm hooks constraints [] 0%N).

(** ** Local binding *)

(** [LocalBindingPolicy::resolve] *)
Definition resolve (self : LocalBindingPolicy) (config : NetworkProxyConfig) : bool :=
  default (enabled config && match self with RequireTrue => true | DefaultFalse => false end)
    (allow_local_binding_ config).
Definition resolved_config (self : LocalBindingPolicy) (config : NetworkProxyConfig) : NetworkProxyConfig :=
  set_local_binding (Some (resolve self config)) config.

(** ** Whether a host is blocked *)

(** [host_resolves_to_non_public_ip]; [lookup] gives the addresses, or nothing
    where the lookup fails or times out. *)
Definition host_resolves_to_non_public_ip (host : str) (port : N) (lookup : str -> N -> option (list SocketAddr)) : bool :=
  match parse_ip host with
  | Some ip => is_non_public_ip ip
  | None =>
      match lookup host port with
      | Some addrs => existsb (fun a => is_non_public_ip (addr_ip a)) addrs
      | None => true
      end
  end.

Definition local_literal (host : str) : bool :=
  if is_loopback_host host then true
  else match parse_ip (default host (unscoped_ip_literal host)) with
       | Some ip => is_non_public_ip ip
       | None => false
       end.

(** The decision of [host_blocked_with_local_binding] on the state that it reads *)
Definition decide_host (policy : LocalBindingPolicy) (lookup : str -> N -> option (list SocketAddr))
    (st : ConfigState) (host : str) (port : N) (allow_local_binding : option bool) : HostBlockDecision :=
  match parse_host host with
  | None => Blocked NotAllowed
  | Some host =>
      let allow_local :=
        default (resolve policy (config st)) allow_local_binding
        && negb (bool_decide (allow_local_binding_ (config st) = Some false)) in
      let allowed := allowed_domains (config st) in
      if globset_matches_host_or_unscoped (deny_set st) host then Blocked Denied
      else
        let is_allowlisted := globset_matches_host_or_unscoped (allow_set st) host in
        let verdict :=
          if bool_decide (allowed = None) || negb is_allowlisted then Blocked NotAllowed else HostAllowed in
        if allow_local then verdict
        else if local_literal host then
          if is_explicit_local_allowlisted (default [] allowed) host then verdict else Blocked NotAllowedLocal
        else if host_resolves_to_non_public_ip host port lookup then Blocked NotAllowedLocal
        else verdict
  end.

(** ** Handlers *)

(** A call on the shared state: the state it leaves, also where it fails, and its
    result. *)
Definition handler (A : Type) : Type := ConfigState -> ConfigState * result StateError A.
Definition hret {A} (a : A) : handler A := fun st => (st, Ok a).
Definition hbind {A B} (c : handler A) (f : A -> handler B) : handler B :=
  fun st => match c st with (st, Ok a) => f a st | (st, Err e) => (st, Err e) end.
Definition read {A} (f : ConfigState -> A) : handler A := fun st => (st, Ok (f st)).
Definition modify (f : ConfigState -> ConfigState) : handler unit := fun st => (f st, Ok tt).

Definition with_log (st : ConfigState) (b : list BlockedRequest) (total : N) : ConfigState :=
  mkState (executor_os st) (config st) (brokerage_created_default_allowlist st) (allow_set st) (deny_set st)
    (mitm_state st) (state_hooks st) (constraints st) b total.

(** What [maybe_reload] of the reloader returns *)
Definition Reloaded : Type := result RuntimeError (option ConfigState).

(** The new state takes over the log of the old one. *)
Definition take_over (new st : ConfigState) : ConfigState := with_log new (blocked st) (blocked_total st).

Definition reload_if_needed (reloaded : Reloaded) : handler unit := fun st =>
  match reloaded with
  | Err e => (st, Err (Reload e))
  | Ok None => (st, Ok tt)
  | Ok (Some new_state) => (take_over new_state st, Ok tt)
  end.

(** Every call but [force_reload] starts by reloading. *)
Definition reloading {A} (reloaded : Reloaded) (c : handler A) : handler A :=
  hbind (reload_if_needed reloaded) (fun _ => c).

(** [force_reload]: the buffer is kept, the counter is the new state's *)
Definition force_reload (reloaded : result RuntimeError ConfigState) : handler unit := fun st =>
  match reloaded with
  | Ok new_state => (with_log new_state (blocked st) (blocked_total new_state), Ok tt)
  | Err e => (st, Err (Reload e))
  end.

Definition replace_config_state (reloaded : Reloaded) (new_state : ConfigState) : handler unit :=
  reloading reloaded (modify (take_over new_state)).

Definition host_blocked_with_local_binding (policy : LocalBindingPolicy) (lookup : str -> N -> option (list SocketAddr))
    (reloaded : Reloaded) (host : str) (port : N) (allow_local_binding : option bool) : handler HostBlockDecision :=
  reloading reloaded (read (fun st => decide_host policy lookup st host port allow_local_binding)).
Definition host_blocked (policy : LocalBindingPolicy) (lookup : str -> N -> option (list SocketAddr))
    (reloaded : Reloaded) (host : str) (port : N) : handler HostBlockDecision :=
  host_blocked_with_local_binding policy lookup reloaded host port None.

Definition current_patterns (reloaded : Reloaded) : handler (list str * list str) :=
  reloading reloaded
    (read (fun st => (default [] (allowed_domains (config st)), default [] (denied_domains (config st))))).
Definition current_cfg_with_brokerage_provenance (reloaded : Reloaded) : handler (NetworkProxyConfig * bool * Platform) :=
  reloading reloaded (read (fun st => (config st, brokerage_created_default_allowlist st, executor_os st))).
Definition method_allowed (reloaded : Reloaded) (method : str) : handler bool :=
  reloading reloaded (read (fun st => allows_method (mode (config st)) method)).
Definition network_allow_local_binding (policy : LocalBindingPolicy) (reloaded : Reloaded) : handler bool :=
  reloading reloaded (read (fun st => resolve policy (config st))).

(** ** The log of blocked requests *)

(** [record_blocked]: the oldest entries beyond the limit are dropped. The entry
    is the one stamped with the execution. *)
Definition push_blocked (entry : BlockedRequest) (st : ConfigState) : ConfigState :=
  let b := blocked st ++ [entry] in
  with_log st (drop (length b - MAX_BLOCKED_EVENTS) b) (saturating_add (blocked_total st) 1).
Definition record_blocked (reloaded : Reloaded) (entry : BlockedRequest) : handler unit :=
  reloading reloaded (modify (push_blocked entry)).

Definition blocked_snapshot (reloaded : Reloaded) : handler (list BlockedRequest) := reloading reloaded (read blocked).

Definition drain_blocked (reloaded : Reloaded) : handler (list BlockedRequest) :=
  reloading reloaded (fun st => (with_log st [] (blocked_total st), Ok (blocked st))).

(** ** Editing the configuration *)

Inductive DomainListKind := AllowList | DenyList.
Definition list_permission (self : DomainListKind) : NetworkDomainPermission :=
  match self with AllowList => PermAllow | DenyList => PermDeny end.
Definition list_entries (self : DomainListKind) (c : NetworkProxyConfig) : list str :=
  match self with AllowList => default [] (allowed_domains c) | DenyList => default [] (denied_domains c) end.
Definition opposite_entries (self : DomainListKind) (c : NetworkProxyConfig) : list str :=
  match self with AllowList => default [] (denied_domains c) | DenyList => default [] (allowed_domains c) end.

(** How a round of an edit ends: it is done with the state given, or the state it
    found is not the one it read. *)
Inductive Round := Finished (st : ConfigState) | Retry.

(** An edit on its own: the state it writes to is the one it read. *)
Definition settle (c : ConfigState -> result StateError (option ConfigState)) : handler unit := fun st =>
  match c st with
  | Ok (Some st') => (st', Ok tt)
  | Ok None => (st, Ok tt)
  | Err e => (st, Err e)
  end.

Definition normalizes_to (host entry : str) : bool := str_eqb (normalize_host entry) host.

Definition unchanged_since (read current : ConfigState) : bool :=
  bool_decide (constraints current = constraints read) && bool_decide (config current = config read)
  && bool_decide (executor_os current = executor_os read).

(** One round of [update_domain_list] for a normalised host *)
Definition update_round (policy : LocalBindingPolicy) (target : DomainListKind) (host : str)
    (read current : ConfigState) : result StateError Round :=
  if existsb (normalizes_to host) (list_entries target (config read))
     && negb (existsb (normalizes_to host) (opposite_entries target (config read)))
  then Ok (Finished current)
  else
    let candidate := upsert_domain_permission (config read) host (list_permission target) normalize_host in
    _ ← map_err Constrained
          (validate_policy_against_constraints validate_mitm_hook_config (resolved_config policy candidate) (constraints read));
    new_state ← build_config_state candidate (constraints read) (executor_os read);
    let new_state := take_over new_state read in
    Ok (if unchanged_since read current then Finished new_state else Retry).

Definition update_domain_list (policy : LocalBindingPolicy) (target : DomainListKind) (host : str)
    (rounds : list (ConfigState * ConfigState)) : result StateError (option ConfigState) :=
  match parse_host host with
  | None => Err InvalidHost
  | Some host =>
      (fix go (rounds : list (ConfigState * ConfigState)) :=
         match rounds with
         | [] => Ok None
         | (read, current) :: rounds =>
             r ← update_round policy target host read current;
             match r with Finished st => Ok (Some st) | Retry => go rounds end
         end) rounds
  end.

(** One round of [set_network_mode] *)
Definition mode_round (policy : LocalBindingPolicy) (m : NetworkMode) (read current : ConfigState)
    : result StateError Round :=
  let candidate := set_mode m (config read) in
  _ ← map_err Constrained
        (validate_policy_against_constraints validate_mitm_hook_config (resolved_config policy candidate) (constraints read));
  Ok (if bool_decide (constraints current = constraints read)
      then Finished (mkState (executor_os current) (set_mode m (config current))
                       (brokerage_created_default_allowlist current) (allow_set current) (deny_set current)
                       (mitm_state current) (state_hooks current) (constraints current) (blocked current)
                       (blocked_total current))
      else Retry).

Fixpoint set_network_mode (policy : LocalBindingPolicy) (m : NetworkMode) (rounds : list (ConfigState * ConfigState))
    : result StateError (option ConfigState) :=
  match rounds with
  | [] => Ok None
  | (read, current) :: rounds =>
      r ← mode_round policy m read current;
      match r with Finished st => Ok (Some st) | Retry => set_network_mode policy m rounds end
  end.

Definition edit_domains (policy : LocalBindingPolicy) (target : DomainListKind) (reloaded : Reloaded) (host : str)
    : handler unit :=
  match parse_host host with
  | None => fun st => (st, Err InvalidHost)
  | Some _ => reloading reloaded (settle (fun st => update_domain_list policy target host [(st, st)]))
  end.
Definition add_allowed_domain (policy : LocalBindingPolicy) := edit_domains policy AllowList.
Definition add_denied_domain (policy : LocalBindingPolicy) := edit_domains policy DenyList.
Definition edit_mode (policy : LocalBindingPolicy) (reloaded : Reloaded) (m : NetworkMode) : handler unit :=
  reloading reloaded (settle (fun st => set_network_mode policy m [(st, st)])).

End Runtime.
