(* ===== verification/NetworkTheorems.v ===== *)
(** * The network proxy keeps to its policy

    The decision about a host against the patterns of the configuration, the
    edits of the domain lists under concurrent changes, and the log of blocked
    requests. *)

From S2P Require Import Prelude RustStr PathUri.
From S2P Require Import NetAddr HostPattern HostLaws NetworkConfig NetworkConstraints NetworkRuntime.

Section Decisions.
Context {PP : ProxyParts} {UH : UrlHosts} {GS : Globset} {GL : GlobsetLaws GS} {RT : ProxyRuntime} {RQ : Requests}.

(** ** What a state was built from *)

Definition allowed_list (st : ConfigState) : list str := default [] (allowed_domains (config st)).
Definition denied_list (st : ConfigState) : list str := default [] (denied_domains (config st)).

(** The sets of a state are those of its configuration. *)
Record compiled (st : ConfigState) : Prop := {
  compiled_allow : compile_allowlist_globset (allowed_list st) = Ok (allow_set st);
  compiled_deny : compile_denylist_globset (denied_list st) = Ok (deny_set st);
}.

Lemma bind_Ok_inv {E A B} (c : result E A) (f : A -> result E B) b :
  (x ← c; f x) = Ok b -> exists a, c = Ok a /\ f a = Ok b.
Proof. destruct c as [a|]; [|done]. eauto. Qed.

Lemma map_err_Ok {E E' A} (f : E -> E') (c : result E A) a : map_err f c = Ok a -> c = Ok a.
Proof. destruct c; simpl; congruence. Qed.

(** What the broker changes of a configuration when a state is built *)
Definition brokered (cfg : NetworkProxyConfig) (cons : NetworkProxyConstraints) : NetworkProxyConfig * bool :=
  let cfg := if bool_decide (c_enabled cons = Some false)
             then set_broker false (mitm cfg) (credential_broker_enabled_mitm cfg) cfg else cfg in
  let created := credential_broker cfg && negb (enabled cfg) in
  let default_allowlist := created && bool_decide (allowed_domains cfg = None)
                           && bool_decide (c_allowed_domains cons = None) in
  let cfg := if created then set_enabled true cfg else cfg in
  (if default_allowlist then set_allowed_domains cfg [lit "*"] else cfg, default_allowlist).

Lemma build_config_state_Ok cfg cons os st :
  build_config_state cfg cons os = Ok st ->
  config st = (brokered cfg cons).1 /\ constraints st = cons /\ executor_os st = os /\
  blocked st = [] /\ blocked_total st = 0%N /\ compiled st /\ scoped (denied_list st).
Proof.
  unfold build_config_state. cbv zeta. fold (brokered cfg cons).
  set (c1 := if bool_decide (c_enabled cons = Some false) then _ else cfg).
  set (created := credential_broker c1 && negb (enabled c1)).
  set (da := created && _ && _). set (c2 := if created then set_enabled true c1 else c1).
  set (c3 := if da then set_allowed_domains c2 [lit "*"] else c2).
  assert (c3 = (brokered cfg cons).1) as <- by done.
  intros (? & _ & (? & _ & (? & _ & H)%bind_Ok_inv)%bind_Ok_inv)%bind_Ok_inv.
  apply bind_Ok_inv in H as ([] & Hs%map_err_Ok & H).
  apply bind_Ok_inv in H as (deny & Hd%map_err_Ok & H).
  apply bind_Ok_inv in H as (allow & Ha%map_err_Ok & H).
  apply bind_Ok_inv in H as (hooks & _ & H). apply bind_Ok_inv in H as (ms & _ & H).
  injection H as <-. simpl. split_and!; try done. by apply scoped_Ok in Hs.
Qed.

(** ** The states of a running proxy *)

Definition built (st : ConfigState) : Prop := exists cfg cons os, build_config_state cfg cons os = Ok st.

(** The states the lock can guard, where the reloader and the callers of
    [replace_config_state] hand over built states. An edit may write long after it
    read: the state it read and the one it finds are any two states before. *)
Inductive reachable (policy : LocalBindingPolicy) : ConfigState -> Prop :=
| reach_built st : built st -> reachable policy st
| reach_reload new st : built new -> reachable policy st -> reachable policy (take_over new st)
| reach_force new st :
    built new -> reachable policy st -> reachable policy (force_reload (Ok new) st).1
| reach_record entry st : reachable policy st -> reachable policy (push_blocked entry st)
| reach_drain st : reachable policy st -> reachable policy (with_log st [] (blocked_total st))
| reach_domains target host read current st :
    reachable policy read -> reachable policy current ->
    update_round policy target host read current = Ok (Finished st) -> reachable policy st
| reach_mode m read current st :
    reachable policy read -> reachable policy current ->
    mode_round policy m read current = Ok (Finished st) -> reachable policy st.

(** Building settles what the broker asks for: building again changes nothing. *)
Definition settled (cfg : NetworkProxyConfig) (cons : NetworkProxyConstraints) : Prop :=
  credential_broker cfg = true -> enabled cfg = true /\ c_enabled cons <> Some false.

Record well_built (st : ConfigState) : Prop := {
  wb_compiled : compiled st;
  wb_scoped : scoped (denied_list st);
  wb_settled : settled (config st) (constraints st);
  wb_log : length (blocked st) <= MAX_BLOCKED_EVENTS;
}.

Lemma brokered_settled cfg cons : settled (brokered cfg cons).1 cons.
Proof.
  unfold settled, brokered. cbv zeta. simpl.
  destruct (bool_decide (c_enabled cons = Some false)) eqn:E.
  - destruct (_ && _ && _); done.
  - apply bool_decide_eq_false in E.
    destruct (credential_broker cfg) eqn:Eb, (enabled cfg) eqn:Ee; simpl;
      repeat match goal with |- context [if ?b then _ else _] => destruct b end; simpl; rewrite ?Eb, ?Ee; auto.
Qed.

Lemma set_broker_same cfg : set_broker (credential_broker cfg) (mitm cfg) (credential_broker_enabled_mitm cfg) cfg = cfg.
Proof. by destruct cfg. Qed.

Lemma settled_brokered cfg cons : settled cfg cons -> (brokered cfg cons).1 = cfg.
Proof.
  unfold settled, brokered. cbv zeta. intros H.
  assert ((if bool_decide (c_enabled cons = Some false)
           then set_broker false (mitm cfg) (credential_broker_enabled_mitm cfg) cfg else cfg) = cfg) as ->.
  { destruct (bool_decide (c_enabled cons = Some false)) eqn:E; [|done]. apply bool_decide_eq_true in E.
    destruct (credential_broker cfg) eqn:Eb; [by destruct (H eq_refl)|]. rewrite <- Eb. apply set_broker_same. }
  destruct (credential_broker cfg); simpl; [|done]. by destruct (H eq_refl) as [-> _].
Qed.

Lemma built_well st : built st -> well_built st.
Proof.
  intros (cfg & cons & os & (Hc & Hk & _ & Hb & _ & Hs & Hd)%build_config_state_Ok).
  split; [done|done| |by rewrite Hb; simpl; lia]. rewrite Hc, Hk. apply brokered_settled.
Qed.

Lemma well_built_log st b n : well_built st -> length b <= MAX_BLOCKED_EVENTS -> well_built (with_log st b n).
Proof. intros [[] ? ? ?] ?. by split; [split|..]. Qed.

Lemma update_round_Ok policy target host read current st :
  update_round policy target host read current = Ok (Finished st) ->
  (st = current /\ existsb (normalizes_to host) (list_entries target (config read)) = true /\
   existsb (normalizes_to host) (opposite_entries target (config read)) = false) \/
  let candidate := upsert_domain_permission (config read) host (list_permission target) normalize_host in
  validate_policy_against_constraints validate_mitm_hook_config (resolved_config policy candidate) (constraints read) = Ok tt /\
  (exists new, build_config_state candidate (constraints read) (executor_os read) = Ok new /\ st = take_over new read) /\
  constraints current = constraints read /\ config current = config read /\ executor_os current = executor_os read.
Proof.
  unfold update_round. destruct (_ && _) eqn:E.
  { intros [= <-]. apply andb_true_iff in E as [E1 E2%negb_true_iff]. by left. }
  intros H. right. cbv zeta. apply bind_Ok_inv in H as ([] & Hv%map_err_Ok & H).
  apply bind_Ok_inv in H as (new & Hn & H). cbv zeta in H. unfold unchanged_since in H.
  destruct (bool_decide_reflect (constraints current = constraints read)); [|done].
  destruct (bool_decide_reflect (config current = config read)); [|done].
  destruct (bool_decide_reflect (executor_os current = executor_os read)); [|done].
  simpl in H. simplify_eq. eauto 10.
Qed.

Lemma reachable_well policy st : reachable policy st -> well_built st.
Proof.
  induction 1 as [st Hb|new st Hn _ IH|new st Hn _ IH|e st _ IH|st _ IH|t h r c st _ IHr _ IHc E|m r c st _ IHr _ IHc E].
  - by apply built_well.
  - apply well_built_log; [by apply built_well|apply IH].
  - apply well_built_log; [by apply built_well|apply IH].
  - apply well_built_log; [done|]. rewrite length_drop, length_app. simpl.
    pose proof (wb_log _ IH). unfold MAX_BLOCKED_EVENTS in *. lia.
  - apply well_built_log; [done|simpl; lia].
  - apply update_round_Ok in E as [[-> _]|(_ & (new & Hn & ->) & _)]; [done|].
    apply well_built_log; [apply built_well; unfold built; eauto|apply IHr].
  - unfold mode_round in E. apply bind_Ok_inv in E as ([] & _ & E). destruct (bool_decide _); [|done].
    simplify_eq. destruct IHc as [[] ? ? ?]. by split; [split|..].
Qed.

(** ** Hosts and patterns *)

(** A host is reached by a pattern that covers it, or the address it has without
    its scope. *)
Definition reached (h : str) (patterns : list str) : Prop :=
  Exists (fun p => pattern_covers p h \/ exists ip, unscoped_ip_literal h = Some ip /\ pattern_covers p ip) patterns.

Definition named (patterns : list str) : Prop := Forall (fun p => dns_pattern p = true) patterns.

Lemma reached_spec gw patterns set h :
  named patterns -> compile_globset_with_policy patterns gw = Ok set -> lower_ascii h ->
  globset_matches_host_or_unscoped set h = true <-> reached h patterns.
Proof.
  intros Hn Hc Hh. pose proof (compile_spec patterns gw Hn) as H. rewrite Hc in H. destruct H as [_ H].
  unfold globset_matches_host_or_unscoped, reached. rewrite orb_true_iff, (H _ Hh), !Exists_exists.
  destruct (unscoped_ip_literal h) as [ip|] eqn:E.
  - rewrite (H ip) by (by eapply unscoped_lower_ascii). rewrite Exists_exists. naive_solver.
  - naive_solver.
Qed.

(** An address or name listed as such, without wildcard *)
Definition listed_explicitly (h : str) (patterns : list str) : Prop :=
  Exists (fun p => trim p <> lit "*" /\ exists d, parse_pattern p = Exact d /\
    (normalize_domain d = h \/ unscoped_ip_literal h = Some (normalize_domain d))) patterns.

Lemma hosted_no_wildcard s :
  hosted s -> contains_char star s = false /\ contains_char 63%N s = false.
Proof. intros H. split; apply contains_char_false; by apply hosted_not. Qed.

Lemma starts_with_prefix p s : starts_with p s = match strip_prefix p s with Some _ => true | None => false end.
Proof.
  destruct (strip_prefix p s) as [t|] eqn:E.
  - apply starts_with_spec. exists t. by apply strip_prefix_Some.
  - destruct (starts_with p s) eqn:E'; [|done]. apply starts_with_spec in E' as [t ->]. by rewrite strip_prefix_app in E.
Qed.

Lemma explicit_spec patterns h :
  named patterns -> is_explicit_local_allowlisted patterns h = true <-> listed_explicitly h patterns.
Proof.
  unfold named, listed_explicitly, is_explicit_local_allowlisted. cbv zeta. rewrite existsb_exists, Exists_exists.
  setoid_rewrite <- list_elem_of_In. rewrite Forall_forall. intros Hn.
  split; intros (p & Hp & H); exists p; (split; [done|]); specialize (Hn p Hp); unfold dns_pattern in Hn.
  - destruct (str_eqb_spec (trim p) (lit "*")) as [|Hs]; [done|]. simpl in H, Hn. split; [done|].
    rewrite !starts_with_prefix in H. unfold parse_pattern in *. cbv zeta in *.
    destruct (strip_prefix (lit "*.") (trim p)); [done|]. destruct (strip_prefix (lit "**.") (trim p)); [done|]. simpl in H.
    destruct (is_empty (trim p)) eqn:Ee; [done|]. simpl in Hn. apply dns_domain_spec in Hn as [Hh _].
    destruct (hosted_no_wildcard _ Hh) as [H1 H2]. rewrite H1, H2 in H. simpl in H.
    rewrite normalize_host_name in H by (by rewrite (hosted_trim _ Hh)). rewrite (hosted_trim _ Hh) in H.
    exists (trim p). split; [done|]. apply orb_true_iff in H as [H%str_eqb_eq|H]; [by left|right].
    destruct (unscoped_ip_literal h) as [ip|]; [|done]. apply str_eqb_eq in H. congruence.
  - destruct H as (Hs & d & Ep & Hd). destruct (str_eqb_spec (trim p) (lit "*")) as [|_]; [done|]. simpl in Hn |- *.
    rewrite Ep in Hn. simpl in Hn. apply dns_domain_spec in Hn as [Hh Hne].
    assert (d = trim p /\ strip_prefix (lit "*.") (trim p) = None /\ strip_prefix (lit "**.") (trim p) = None) as (-> & E1 & E2).
    { unfold parse_pattern in Ep. cbv zeta in Ep. destruct (is_empty (trim p)); [by simplify_eq|].
      unfold parse_domain in Ep.
      destruct (strip_prefix (lit "**.") (trim p)) as [t|]; [destruct (is_empty (trim t)); by simplify_eq|].
      destruct (strip_prefix (lit "*.") (trim p)) as [t|]; [destruct (is_empty (trim t)); by simplify_eq|].
      by simplify_eq. }
    rewrite !starts_with_prefix, E1, E2. simpl. destruct (hosted_no_wildcard _ Hh) as [H1 H2]. rewrite H1, H2. simpl.
    rewrite normalize_host_name by (by rewrite (hosted_trim _ Hh)). rewrite (hosted_trim _ Hh), orb_true_iff.
    destruct Hd as [-> | ->]; [left|right]; by apply str_eqb_eq.
Qed.

(** ** The decision *)

(** Every address the host may stand for is known and public. *)
Definition resolves_publicly (lookup : str -> N -> option (list SocketAddr)) (h : str) (port : N) : Prop :=
  match parse_ip h with
  | Some ip => is_non_public_ip ip = false
  | None => exists addrs, lookup h port = Some addrs /\ Forall (fun a => is_non_public_ip (addr_ip a) = false) addrs
  end.

Lemma resolves_publicly_spec lookup h port :
  host_resolves_to_non_public_ip h port lookup = false <-> resolves_publicly lookup h port.
Proof.
  unfold host_resolves_to_non_public_ip, resolves_publicly. destruct (parse_ip h); [done|].
  destruct (lookup h port) as [addrs|]; [|split; [done|by intros (? & ? & _)]].
  split.
  - intros H. exists addrs. split; [done|]. apply Forall_forall. intros a Ha.
    destruct (is_non_public_ip (addr_ip a)) eqn:E; [|done]. rewrite <- not_true_iff_false in H. exfalso. apply H.
    apply existsb_exists. exists a. by rewrite <- list_elem_of_In.
  - intros (addrs' & [= <-] & H). apply not_true_iff_false. intros (a & Ha%list_elem_of_In & E)%existsb_exists.
    rewrite Forall_forall in H. specialize (H a Ha). congruence.
Qed.

Definition local_allowed (policy : LocalBindingPolicy) (st : ConfigState) (allow_local_binding : option bool) : Prop :=
  default (resolve policy (config st)) allow_local_binding = true /\ allow_local_binding_ (config st) <> Some false.

Lemma allowed_nonempty (st : ConfigState) h : reached h (allowed_list st) -> allowed_domains (config st) <> None.
Proof. unfold allowed_list. intros H E. rewrite E in H. by apply Exists_nil in H. Qed.

Lemma local_allowed_spec policy st alb :
  default (resolve policy (config st)) alb && negb (bool_decide (allow_local_binding_ (config st) = Some false)) = true <->
  local_allowed policy st alb.
Proof. unfold local_allowed. by rewrite andb_true_iff, negb_true_iff, bool_decide_eq_false. Qed.

(** The verdict of the allow list *)
Lemma verdict_spec st h :
  named (allowed_list st) -> compile_allowlist_globset (allowed_list st) = Ok (allow_set st) -> lower_ascii h ->
  let verdict :=
    if bool_decide (allowed_domains (config st) = None) || negb (globset_matches_host_or_unscoped (allow_set st) h)
    then Blocked NotAllowed else HostAllowed in
  (verdict = HostAllowed <-> reached h (allowed_list st)) /\ verdict <> Blocked Denied.
Proof.
  intros Hn Ha Hh verdict. pose proof (reached_spec _ _ _ h Hn Ha Hh) as Hra.
  split; [|unfold verdict; by destruct (_ || _)]. unfold verdict. rewrite <- Hra.
  destruct (globset_matches_host_or_unscoped (allow_set st) h); [|by rewrite orb_true_r].
  rewrite bool_decide_eq_false_2; [done|]. apply (allowed_nonempty st h). by apply Hra.
Qed.


End Decisions.
