(* ===== verification/NetworkRuns.v ===== *)
(** * Runs of the network proxy

    What a sequence of calls on the shared state does: the edits of the domain
    lists, alone and against concurrent changes, and the log of blocked requests.
    A configuration in which everything outside the proxy is trivial serves the
    examples. *)

From S2P Require Import Prelude RustStr PathUri.
From S2P Require Import NetAddr HostPattern HostLaws NetworkConfig NetworkConstraints NetworkRuntime NetworkTheorems.

(** ** Names that are hosts *)

Lemma first_scoped_percent host ds s : first_scoped host ds = Some s -> percent ∈ s.
Proof.
  induction ds as [|d ds IH]; [done|]. simpl. destruct (split_once_str d host) as [[ip scope]|]; [|exact IH].
  destruct (parses_as_ip ip); [|exact IH]. intros [= <-]. change (lit "%" ++ scope) with (percent :: scope). set_solver.
Qed.

Lemma normalize_literal_hosted t :
  hosted (normalize_dns_host_or_ip_literal t) -> normalize_dns_host_or_ip_literal t = normalize_domain t.
Proof.
  unfold normalize_dns_host_or_ip_literal. cbv zeta. rewrite normalize_domain_alt. unfold normalize_ip_literal.
  destruct (parses_as_ip _); [done|]. destruct (first_scoped _ _) as [s|] eqn:E; [|done]. simpl. intros H.
  exfalso. by apply (hosted_not s percent H), (first_scoped_percent _ _ _ E).
Qed.

Lemma split_on_head c d r : d <> c -> exists r', default [] (head (split_on c (d :: r))) = d :: r'.
Proof.
  intros Hd. unfold split_on. cbn [split_by]. destruct (N.eqb_spec d c); [done|]. pose proof (split_by_ne (fun x => x =? c)%N r) as Hne.
  destruct (split_by _ r) as [|x xs]; [done|]. by exists x.
Qed.

Lemma normalize_host_hosted host :
  hosted (normalize_host host) ->
  exists t, normalize_host host = normalize_domain t /\
    forall c r, trim host = c :: r -> c <> 91%N -> c <> 58%N -> exists r', t = c :: r'.
Proof.
  unfold normalize_host. cbv zeta. change (lit "[") with [91%N].
  set (u := if count_char 58 (trim host) =? 1 then _ else _).
  assert (hosted u -> exists t, u = normalize_domain t /\
    forall c r, trim host = c :: r -> c <> 91%N -> c <> 58%N -> exists r', t = c :: r') as Hu.
  { unfold u. destruct (_ =? _); intros H%normalize_literal_hosted; eexists; (split; [exact H|]).
    - intros c r -> _ Hc. by apply split_on_head.
    - intros c r -> _ _. eauto. }
  destruct (starts_with [91%N] (trim host)) eqn:Es; [|exact Hu].
  destruct (find (lit "]") (trim host)); [|exact Hu].
  intros H%normalize_literal_hosted. eexists. split; [exact H|]. intros c r E Hc.
  apply starts_with_spec in Es as [t Es]. rewrite E in Es. simpl in Es. congruence.
Qed.

Lemma normalize_host_fixed host : hosted (normalize_host host) -> normalize_domain (normalize_host host) = normalize_host host.
Proof. intros (t & -> & _)%normalize_host_hosted. apply normalize_domain_idem. Qed.

Lemma trim_dots_keep c s : c <> dot -> exists r, trim_dots (c :: s) = c :: r.
Proof.
  intros Hc. unfold trim_dots, trim_end_matches. rewrite reverse_cons.
  assert (exists r, trim_start_matches (fun c => c =? dot)%N (reverse s ++ [c]) = r ++ [c]) as [r ->].
  { induction (reverse s) as [|d l IH]; simpl; [destruct (N.eqb_spec c dot); [done|by exists []]|].
    destruct (d =? dot)%N; [exact IH|by exists (d :: l)]. }
  rewrite reverse_snoc. eauto.
Qed.

(** An entry that normalises to a name covers it. *)
Lemma entry_covers p h : dns_pattern p = true -> hosted h -> normalize_host p = h -> pattern_covers p h.
Proof.
  intros Hp Hh <-. unfold dns_pattern in Hp. unfold pattern_covers.
  destruct (str_eqb_spec (trim p) (lit "*")) as [|Hs]; [by left|right]. simpl in Hp.
  destruct (normalize_host_hosted p Hh) as (t & Et & Ht).
  assert (forall r, trim p = star :: r -> False) as Hstar.
  { intros r E. destruct (Ht _ _ E) as [r' ->]; [done|done|]. revert Hh. rewrite Et. unfold normalize_domain.
    destruct (trim_dots_keep star r') as [r2 ->]; [done|]. simpl. by intros [? _]%Forall_cons. }
  unfold parse_pattern in *. cbv zeta in *.
  destruct (is_empty (trim p)) eqn:Ee; [done|].
  destruct (strip_prefix (lit "**.") (trim p)) eqn:E1; [apply strip_prefix_Some in E1; by apply Hstar in E1|].
  destruct (strip_prefix (lit "*.") (trim p)) eqn:E2; [apply strip_prefix_Some in E2; by apply Hstar in E2|].
  simpl in *. apply dns_domain_spec in Hp as [Hp _].
  by rewrite normalize_host_name.
Qed.

Section Runs.
Context {PP : ProxyParts} {UH : UrlHosts} {GS : Globset} {GL : GlobsetLaws GS} {RT : ProxyRuntime} {RQ : Requests}.

(** ** Editing the domain lists *)

Definition entries_of (c : NetworkProxyConfig) : list NetworkDomainPermissionEntry := default [] (domains c).

(** The entries of a list are those whose strongest permission is its own. *)
Lemma elem_of_domain_entries c perm p :
  p ∈ default [] (domain_entries c perm) <-> strongest (entries_of c) p perm.
Proof.
  unfold domain_entries, entries_of. destruct (domains c) as [d|]; simpl.
  - destruct (effective_entries_spec d) as (_ & _ & H). rewrite <- H.
    assert (p ∈ pattern <$> filter (fun e => permission e = perm) (effective_entries d) <->
            mkDomainEntry p perm ∈ effective_entries d) as <-.
    { rewrite list_elem_of_fmap. setoid_rewrite list_elem_of_filter. split.
      - intros ([q x] & -> & <- & He). done.
      - intros He. by exists (mkDomainEntry p perm). }
    by destruct (pattern <$> _).
  - split; [by intros ?%not_elem_of_nil|]. by intros [?%not_elem_of_nil _].
Qed.

Definition opposite (t : DomainListKind) : DomainListKind := match t with AllowList => DenyList | DenyList => AllowList end.

Lemma elem_of_list_entries t c p : p ∈ list_entries t c <-> strongest (entries_of c) p (list_permission t).
Proof. destruct t; apply elem_of_domain_entries. Qed.

Lemma opposite_entries_alt t c : opposite_entries t c = list_entries (opposite t) c.
Proof. by destruct t. Qed.

Lemma entries_of_upsert c h perm :
  entries_of (upsert_domain_permission c h perm normalize_host) =
  filter (fun e => normalize_host (pattern e) <> normalize_host h) (entries_of c) ++ [mkDomainEntry h perm].
Proof.
  unfold upsert_domain_permission, entries_of, non_empty. cbv zeta.
  destruct (is_empty _) eqn:E; [|done]. by destruct (filter _ _).
Qed.

(** Editing the entries of a host changes its permission and no other. *)
Lemma strongest_upsert c h perm p x :
  strongest (entries_of (upsert_domain_permission c h perm normalize_host)) p x <->
  if bool_decide (normalize_host p = normalize_host h) then p = h /\ x = perm else strongest (entries_of c) p x.
Proof.
  rewrite entries_of_upsert. unfold strongest. setoid_rewrite elem_of_app. setoid_rewrite list_elem_of_filter.
  setoid_rewrite list_elem_of_singleton. simpl.
  destruct (bool_decide_reflect (normalize_host p = normalize_host h)) as [E|E].
  - split; [naive_solver|]. intros [-> ->]. split; [by right|]. intros y [[H _]|[= ->]]; [by destruct H|lia].
  - split; intros [Hx Hy]; split; [naive_solver| |naive_solver|]; intros y.
    + intros H. apply Hy. by left.
    + intros [[_ H]|[= -> _]]; [by apply Hy|done].
Qed.

Lemma list_entries_upsert t c h perm p :
  p ∈ list_entries t (upsert_domain_permission c h perm normalize_host) <->
  if bool_decide (normalize_host p = normalize_host h) then p = h /\ list_permission t = perm else p ∈ list_entries t c.
Proof. rewrite elem_of_list_entries, strongest_upsert. destruct (bool_decide _); [done|]. by rewrite elem_of_list_entries. Qed.

Lemma settled_upsert c cons h perm : settled c cons -> settled (upsert_domain_permission c h perm normalize_host) cons.
Proof. done. Qed.

(** What an edit that writes leaves behind, against the configuration it found *)
Record edited (policy : LocalBindingPolicy) (target : DomainListKind) (h : str) (current st : ConfigState) : Prop := {
  ed_config : config st = upsert_domain_permission (config current) h (list_permission target) normalize_host;
  ed_constraints : constraints st = constraints current;
  ed_platform : executor_os st = executor_os current;
  ed_within : within validate_mitm_hook_config (resolved_config policy (config st)) (constraints st);
}.

Lemma update_round_edited policy target h read current st :
  reachable policy read -> update_round policy target h read current = Ok (Finished st) ->
  (st = current /\ existsb (normalizes_to h) (list_entries target (config read)) = true /\
   existsb (normalizes_to h) (opposite_entries target (config read)) = false) \/
  edited policy target h current st /\ blocked st = blocked read /\ blocked_total st = blocked_total read.
Proof.
  intros Hr [?|(Hv & (new & Hn & ->) & H1 & H2 & H3)]%update_round_Ok; [by left|right]. cbv zeta in *.
  apply reachable_well, wb_settled in Hr. apply build_config_state_Ok in Hn as (Hc & Hk & Ho & _).
  rewrite settled_brokered in Hc by done. split; [|done].
  split; simpl; rewrite ?Hc, ?Hk, ?Ho; [congruence|done|done|]. apply validate_policy_spec, Hv.
Qed.

Definition reachable_rounds (policy : LocalBindingPolicy) (rounds : list (ConfigState * ConfigState)) : Prop :=
  Forall (fun rc => reachable policy rc.1 /\ reachable policy rc.2) rounds.

Lemma normalizes_to_spec h l : existsb (normalizes_to h) l = true <-> Exists (fun p => normalize_host p = h) l.
Proof.
  rewrite existsb_exists, Exists_exists. setoid_rewrite <- list_elem_of_In. unfold normalizes_to.
  by setoid_rewrite str_eqb_eq.
Qed.

(** C13: an edit of a domain list that succeeds against concurrent changes either
    found nothing to do in a state it read, or wrote exactly its edit on top of the
    configuration in force when it wrote: the host is in the list it was added to
    and not in the other, under no second spelling, every other entry of both lists
    is as it was, the constraints and the platform are unchanged and the new
    configuration lies within the constraints. No concurrent change of the
    configuration is overwritten. *)
Theorem domain_edit_exact (policy : LocalBindingPolicy) (target : DomainListKind) (host : str)
    (rounds : list (ConfigState * ConfigState)) (st : ConfigState) :
  reachable_rounds policy rounds -> update_domain_list policy target host rounds = Ok (Some st) ->
  let h := normalize_host host in
  exists read current, (read, current) ∈ rounds /\
   ((st = current /\ Exists (fun p => normalize_host p = h) (list_entries target (config read)) /\
     ~ Exists (fun p => normalize_host p = h) (opposite_entries target (config read))) \/
    (edited policy target h current st /\
     h ∈ list_entries target (config st) /\
     forall p, if bool_decide (normalize_host p = normalize_host h)
       then (p ∈ list_entries target (config st) -> p = h) /\ p ∉ opposite_entries target (config st)
       else (p ∈ list_entries target (config st) <-> p ∈ list_entries target (config current)) /\
            (p ∈ opposite_entries target (config st) <-> p ∈ opposite_entries target (config current)))).
Proof.
  intros Hr H h. unfold update_domain_list, parse_host in H. fold h in H. destruct (is_empty h); [done|].
  induction rounds as [|[read current] rounds IH]; [done|].
  apply Forall_cons in Hr as [[Hr _] Hrs]. apply bind_Ok_inv in H as ([st'|] & Hu & H).
  - injection H as ->. exists read, current. split; [by left|]. simpl in Hr.
    apply update_round_edited in Hu as [(-> & H1 & H2)|[He _]]; [left|right|done].
    + rewrite <- !normalizes_to_spec. rewrite H2. done.
    + split; [done|]. rewrite !opposite_entries_alt, (ed_config _ _ _ _ _ He). split.
      { rewrite list_entries_upsert, bool_decide_eq_true_2; done. }
      intros p. destruct (bool_decide (normalize_host p = normalize_host h)) eqn:Eb; rewrite !list_entries_upsert, Eb; [|done].
      split; [by intros [-> _]|]. intros [_ ?]. by destruct target.
  - destruct (IH Hrs H) as (r & c & Hin & Hc). exists r, c. split; [by right|done].
Qed.

(** ** Denying a host *)

(** What the reloader returned, if anything, is a built state. *)
Definition reloads_built (reloaded : Reloaded) : Prop :=
  match reloaded with Ok (Some new) => built new | _ => True end.

Lemma reachable_reload policy reloaded st :
  reloads_built reloaded -> reachable policy st -> reachable policy (reload_if_needed reloaded st).1.
Proof. destruct reloaded as [[new|]|]; simpl; [|done..]. by apply reach_reload. Qed.

Lemma decide_denied policy lookup st host port alb :
  compiled st -> named (denied_list st) -> ascii host -> normalize_host host <> [] ->
  reached (normalize_host host) (denied_list st) ->
  decide_host policy lookup st host port alb = Blocked Denied.
Proof.
  intros [_ Hd] Hn Ha Hne Hr. unfold decide_host, parse_host. set (h := normalize_host host) in *.
  assert (is_empty h = false) as -> by by destruct h.
  apply (reached_spec _ _ _ h Hn Hd) in Hr; [|by apply normalize_host_lower_ascii]. by rewrite Hr.
Qed.

(** Once adding a host to the deny list has succeeded, the host is blocked
    as denied in every spelling that normalises to it, whatever the local-binding
    setting, the allow list and name resolution say. *)
Theorem denying_takes_effect (policy : LocalBindingPolicy) (reloaded : Reloaded) (host spelling : str)
    (st st' : ConfigState) (lookup : str -> N -> option (list SocketAddr)) (port : N) (alb : option bool) :
  reachable policy st -> reloads_built reloaded ->
  dns_domain (normalize_host host) = true -> named (denied_list st') ->
  ascii spelling -> normalize_host spelling = normalize_host host ->
  add_denied_domain policy reloaded host st = (st', Ok tt) ->
  decide_host policy lookup st' spelling port alb = Blocked Denied.
Proof.
  intros Hs Hb Hd Hn Ha Hsp H. apply dns_domain_spec in Hd as [Hh Hne].
  assert (normalize_host host <> []) as Hh0 by (intros E; by rewrite E in Hne).
  pose proof (reachable_reload policy reloaded st Hb Hs) as Hr. revert H.
  unfold add_denied_domain, edit_domains, parse_host, reloading, hbind, settle.
  destruct (is_empty (normalize_host host)) eqn:Ee; [by destruct (normalize_host host)|].
  destruct (reload_if_needed reloaded st) as [st1 [[]|]]; [|done]. simpl in Hr.
  unfold update_domain_list, parse_host. rewrite Ee. set (h := normalize_host host) in *.
  destruct (update_round policy DenyList h st1 st1) as [[st2|]|] eqn:Eu; simpl; [| |done].
  2: { intros _. exfalso. revert Eu. unfold update_round. destruct (_ && _); [done|].
       destruct (map_err _ _); [|done]. simpl. destruct (build_config_state _ _ _); [|done]. simpl.
       unfold unchanged_since. by rewrite !bool_decide_eq_true_2. }
  intros [= <-]. apply decide_denied; try done; [| |].
  - apply wb_compiled, (reachable_well policy). by eapply reach_domains.
  - by rewrite Hsp.
  - rewrite Hsp. fold h. apply Exists_exists. apply update_round_edited in Eu as [(-> & He & _)|[He _]]; [| |done].
    + apply normalizes_to_spec, Exists_exists in He as (p & Hp & E). exists p. split; [done|left].
      apply entry_covers; [|done|done]. unfold named in Hn. rewrite Forall_forall in Hn. by apply Hn.
    + exists h. assert (h ∈ denied_list st2) as Hin.
      { change (h ∈ list_entries DenyList (config st2)). rewrite (ed_config _ _ _ _ _ He), list_entries_upsert.
        by rewrite bool_decide_eq_true_2. }
      split; [done|left]. right.
      destruct (parse_pattern_prefixed h) as (_ & _ & ->); [done|done|]. simpl. symmetry. by apply normalize_host_fixed.
Qed.

(** ** The log of blocked requests *)

(** A call on the state, one after the other; a reading call only reloads. *)
Inductive Call :=
| CallRecord (entry : BlockedRequest)
| CallDrain
| CallReplace (new_state : ConfigState)
| CallDomains (target : DomainListKind) (host : str)
| CallMode (m : NetworkMode)
| CallRead.

Inductive Event := Calls (reloaded : Reloaded) (c : Call) | Forced (reloaded : result RuntimeError ConfigState).

Definition serve (policy : LocalBindingPolicy) (st : ConfigState) (e : Event) : ConfigState :=
  match e with
  | Calls r (CallRecord entry) => (record_blocked r entry st).1
  | Calls r CallDrain => (drain_blocked r st).1
  | Calls r (CallReplace new_state) => (replace_config_state r new_state st).1
  | Calls r (CallDomains target host) => (edit_domains policy target r host st).1
  | Calls r (CallMode m) => (edit_mode policy r m st).1
  | Calls r CallRead => (blocked_snapshot r st).1
  | Forced r => (force_reload r st).1
  end.

(** The requests recorded since the last drain, and the counter, with no bound *)
Definition note (acc : list BlockedRequest * N) (e : Event) : list BlockedRequest * N :=
  let '(log, total) := acc in
  match e with
  | Calls (Ok _) (CallRecord entry) => (log ++ [entry], saturating_add total 1)
  | Calls (Ok _) CallDrain => ([], total)
  | Forced (Ok new_state) => (log, blocked_total new_state)
  | _ => (log, total)
  end.

Definition newest {A} (n : nat) (l : list A) : list A := drop (length l - n) l.

Lemma newest_snoc {A} n (l : list A) x : 0 < n -> newest n (newest n l ++ [x]) = newest n (l ++ [x]).
Proof.
  intros Hn. unfold newest. rewrite !length_app, length_drop. simpl.
  rewrite <- drop_app_le by lia. rewrite drop_drop. f_equal. lia.
Qed.

Definition logs (acc : list BlockedRequest * N) (st : ConfigState) : Prop :=
  blocked st = newest MAX_BLOCKED_EVENTS acc.1 /\ blocked_total st = acc.2.

Lemma logs_reload acc r st : logs acc st -> logs acc (reload_if_needed r st).1.
Proof. by destruct r as [[new|]|]. Qed.

(** A call that reloads and then leaves the log alone *)
Lemma logs_reloading {A} acc r (c : handler A) st :
  (forall st, logs acc st -> logs acc (c st).1) -> logs acc st -> logs acc (reloading r c st).1.
Proof.
  intros Hc H%(logs_reload _ r). unfold reloading, hbind. destruct (reload_if_needed r st) as [st1 [[]|]]; [|done].
  by apply Hc.
Qed.

Lemma update_round_log policy target h st st' :
  update_round policy target h st st = Ok (Finished st') -> blocked st' = blocked st /\ blocked_total st' = blocked_total st.
Proof. by intros [[-> _]|(_ & (new & _ & ->) & _)]%update_round_Ok. Qed.

Lemma logs_edit_domains policy target r host acc st :
  logs acc st -> logs acc (edit_domains policy target r host st).1.
Proof.
  unfold edit_domains, update_domain_list. destruct (parse_host host) as [h|]; [|done]. apply logs_reloading. clear st. intros st H.
  unfold settle. destruct (update_round policy target h st st) as [[st'|]|] eqn:E; simpl; [|done..].
  apply update_round_log in E as [E1 E2]. unfold logs. by rewrite E1, E2.
Qed.

Lemma logs_edit_mode policy r m acc st : logs acc st -> logs acc (edit_mode policy r m st).1.
Proof.
  apply logs_reloading. clear st. intros st H. unfold settle. cbn [set_network_mode]. unfold mode_round.
  destruct (map_err _ _); [|done]. simpl. by rewrite bool_decide_eq_true_2.
Qed.

Lemma note_other {A} (r : Reloaded) (a : A) : match r with Ok _ => a | Err _ => a end = a.
Proof. by destruct r. Qed.

Lemma logs_serve policy acc st e : logs acc st -> logs (note acc e) (serve policy st e).
Proof.
  destruct acc as [log total]. intros H. destruct e as [r c|r].
  - destruct c as [entry| |new|target host|m|]; simpl.
    + pose proof (logs_reload _ r _ H) as H1. unfold record_blocked, reloading, hbind.
      destruct r as [[new|]|]; simpl in *; [| |done]; destruct H1 as [H1 H2]; simpl in *; split; simpl;
        rewrite ?H1, ?H2; try done; apply (newest_snoc MAX_BLOCKED_EVENTS); unfold MAX_BLOCKED_EVENTS; lia.
    + destruct r as [[new|]|]; simpl; [| |done]; destruct H as [_ H]; done.
    + rewrite note_other. by apply logs_reloading.
    + rewrite note_other. by apply logs_edit_domains.
    + rewrite note_other. by apply logs_edit_mode.
    + rewrite note_other. by apply logs_reloading.
  - destruct r as [new|]; [|done]. destruct H as [H _]. done.
Qed.

(** C16: over any sequence of calls, each run to its end, the buffer holds the
    newest 200 of the requests recorded since the last drain, in order, whatever
    is reloaded, replaced or edited in between and whichever calls fail, and a
    drain returns them; the counter counts records, saturating, since the last
    forced reload. *)
Theorem blocked_log_exact (policy : LocalBindingPolicy) (st : ConfigState) (events : list Event) :
  built st ->
  let '(log, total) := foldl note ([], 0%N) events in
  let st' := foldl (serve policy) st events in
  blocked st' = newest MAX_BLOCKED_EVENTS log /\ blocked_total st' = total /\
  forall r, (drain_blocked (Ok r) st').2 = Ok (newest MAX_BLOCKED_EVENTS log).
Proof.
  intros (cfg & cons & os & (_ & _ & _ & Hb & Ht & _)%build_config_state_Ok).
  assert (logs ([], 0%N) st) as H by done. clear Hb Ht. revert H. generalize ([] : list BlockedRequest, 0%N). revert st.
  induction events as [|e events IH]; intros st acc H; cbn [foldl].
  - destruct acc as [log total], H as [H1 H2]. split_and!; [done|done|]. by intros [new|]; simpl; rewrite H1.
  - apply IH, logs_serve, H.
Qed.

End Runs.

(** ** A proxy to try things on *)

Module NetworkExamples.
Import WildGlobs.

#[export] Instance plain_parts : ProxyParts := {
  MitmHookConfig := unit; MitmCa := unit; CredentialProviders := unit; BrokerContext := unit;
}.
#[export] Instance plain_runtime : ProxyRuntime := {
  MitmState := unit; MitmHooksByHost := unit; RuntimeError := unit;
  validate_mitm_hook_config := fun _ => Ok tt;
  compile_mitm_hooks := fun _ => Ok tt;
  new_mitm_state := fun _ _ => Ok tt;
}.
#[export] Instance plain_requests : Requests := { BlockedRequest := nat }.
(** A request, known by a number *)
Definition request (n : nat) : BlockedRequest := n.
#[export] Instance plain_hosts : UrlHosts := { url_host_parse := fun h => Some (to_ascii_lowercase h) }.
#[export] Instance plain_urls : UrlAddrs := { url_host_port := fun _ => None }.

Definition plain_config (d : NetworkDomainPermissions) : NetworkProxyConfig :=
  mkConfig true (lit "http://0.0.0.0:3128") true (lit "socks5h://localhost:8081") false false false None Full
    (Some d) None None false None false false tt None tt false [].

Definition free : NetworkProxyConstraints :=
  mkConstraints None None None None None None None None None None None.

Definition sample : NetworkProxyConfig :=
  plain_config [mkDomainEntry (lit "**.example.com") PermAllow; mkDomainEntry (lit "*.internal") PermDeny].

Definition force_built (r : result StateError ConfigState) (H : match r with Ok _ => True | Err _ => False end) : ConfigState :=
  match r as r return match r with Ok _ => True | Err _ => False end -> ConfigState with
  | Ok st => fun _ => st
  | Err _ => fun H => match H with end
  end H.

Definition start : ConfigState := Eval vm_compute in force_built (build_config_state sample free Linux) I.

Lemma start_built : built start.
Proof. exists sample, free, Linux. by vm_compute. Qed.

Definition public_dns (h : str) (port : N) : option (list SocketAddr) := Some [mkAddr (IpV4 (V4 93 184 216 34)) port].

Ltac plain := repeat first [done | constructor].


Lemma listeners_loopback_witness :
  exists rt, resolve_runtime sample Linux = Ok rt /\ is_loopback (addr_ip (http_addr rt)) = true /\
    addr_port (http_addr rt) = 3128%N.
Proof.
  eexists. split; [by vm_compute|].
  destruct (listeners_loopback sample Linux
              (mkRuntime (mkAddr (IpV4 (V4 127 0 0 1)) 3128) (mkAddr (IpV4 (V4 127 0 0 1)) 8081)))
    as (http & socks & E & _ & Hp & _ & [H _] & _); [by vm_compute|].
  split; [exact H|]. rewrite Hp. vm_compute in E. by injection E as <-.
Defined.

(** The host denied, found under another spelling in the allow list *)
Definition denied : ConfigState := Eval vm_compute in (add_denied_domain DefaultFalse (Ok None) (lit "Example.com:80") start).1.

Lemma domain_edit_exact_witness :
  exists read current, (read, current) ∈ [(start, start)] /\
    lit "example.com" ∈ list_entries DenyList (config denied).
Proof.
  destruct (domain_edit_exact DefaultFalse DenyList (lit "Example.com:80") [(start, start)] denied)
    as (read & current & Hin & [(_ & H & _)|(_ & H & _)]).
  - constructor; [|constructor]. split; apply reach_built, start_built.
  - by vm_compute.
  - exfalso. apply list_elem_of_singleton in Hin. injection Hin as -> ->. apply normalizes_to_spec in H. vm_compute in H. discriminate H.
  - exists read, current. split; [exact Hin|exact H].
Defined.

Lemma denying_takes_effect_witness :
  decide_host DefaultFalse public_dns denied (lit "EXAMPLE.COM.") 443%N (Some true) = Blocked Denied.
Proof.
  apply (denying_takes_effect DefaultFalse (Ok None) (lit "Example.com:80") (lit "EXAMPLE.COM.") start denied);
    [apply reach_built, start_built|exact I|by vm_compute|plain|plain|by vm_compute|by vm_compute].
Defined.

Definition unloaded : Reloaded := Ok None.
Definition failing : Reloaded := Err (tt : @RuntimeError _ plain_runtime).
Definition events : list Event :=
  [Calls unloaded (CallRecord (request 1)); Calls unloaded CallDrain; Calls (Ok (Some start)) (CallRecord (request 2));
   Calls failing (CallRecord (request 3)); Calls unloaded (CallDomains DenyList (lit "example.com"));
   Forced (Ok start); Calls unloaded (CallRecord (request 4))].

Lemma blocked_log_exact_witness : blocked (foldl (serve DefaultFalse) start events) = [request 2; request 4].
Proof. destruct (blocked_log_exact DefaultFalse start events) as [H _]; [exact start_built|]. exact H. Defined.

(** ** Two ways the log is off *)

(** An edit that writes after a request was recorded puts back the log it read:
    the request is lost, and requests drained meanwhile come back. *)
Example edit_reverts_log :
  exists st1 st2,
    update_round DefaultFalse DenyList (lit "example.com") start (push_blocked (request 7) start) = Ok (Finished st1) /\
    blocked (push_blocked (request 7) start) = [request 7] /\ blocked st1 = [] /\ blocked_total st1 = 0%N /\
    update_round DefaultFalse DenyList (lit "example.com") (push_blocked (request 7) start) 
      (drain_blocked (Ok None) (push_blocked (request 7) start)).1 = Ok (Finished st2) /\ blocked st2 = [request 7].
Proof. eexists _, _. split; [by vm_compute|]. split_and!; by vm_compute. Qed.

(** A forced reload keeps the buffer and resets the counter; the other reloads
    keep both. *)
Example force_reload_resets_total :
  let st := push_blocked (request 7) start in
  let forced := (force_reload (Ok start) st).1 in
  let reloaded := (reload_if_needed (Ok (Some start)) st).1 in
  blocked forced = [request 7] /\ blocked_total forced = 0%N /\ blocked reloaded = [request 7] /\ blocked_total reloaded = 1%N.
Proof. by vm_compute. Qed.

End NetworkExamples.
