(* ===== verification/PromptHistory.v ===== *)
(** * The prompt history file

    message-history/src/lib.rs and batch.rs: one JSON record per line, appended
    under a lock and trimmed to a size, looked up by line number, one record at a
    time or in batches that scan forwards from the start or backwards from where
    the last batch stopped. A file carries a script of what its operations will
    do: fail, or deliver that many bytes at a time. *)

From S2P Require Import Prelude RustStr.

Definition HISTORY_READ_BUFFER_SIZE : N := 8192.
Definition MAX_RETRIES : nat := 10.
Definition MAX_BATCH_ROWS : nat := 128.
Definition MAX_BATCH_BYTES : N := 64 * 1024.

(** ** Files *)

Inductive IoFault := OsError | WouldBlock | InvalidData | UnexpectedEof | NotMaterialized | ClockError | EncodeError.

(** An open file: what it holds, where it stands, what its next operations do
    ([None] is a failure, [Some k] a read of at most [max 1 k] bytes or a write),
    its identity and its time of modification. *)
Record File := mkFile {
  contents : list N;
  position : N;
  script : list (option N);
  identity : option N;
  modified : option N;
}.

Definition io (A : Type) : Type := File -> File * result IoFault A.
#[export] Instance io_ret : MRet io := fun A a f => (f, Ok a).
#[export] Instance io_bind : MBind io := fun A B k c f =>
  match c f with (f, Ok a) => k a f | (f, Err e) => (f, Err e) end.
Definition act {A} (c : File -> File * result IoFault A) : io A := c.
Definition fail {A} (e : IoFault) : io A := fun f => (f, Err e).

Definition with_file (c : list N) (p : N) (s : list (option N)) (f : File) : File :=
  mkFile c p s (identity f) (modified f).

(** One operation: what the script says of it *)
Definition step : io (option N) := fun f =>
  match script f with
  | [] => (f, Ok None)
  | None :: s => (with_file (contents f) (position f) s f, Err OsError)
  | Some k :: s => (with_file (contents f) (position f) s f, Ok (Some k))
  end.

Definition seek (p : N) : io unit :=
  _ ← step; act (fun f => (with_file (contents f) p (script f) f, Ok tt)).

(** [Read::read] *)
Definition read (n : N) : io (list N) :=
  k ← step;
  act (fun f =>
    let bytes := takeN (match k with Some k => N.min n (N.max 1 k) | None => n end) (dropN (position f) (contents f)) in
    (with_file (contents f) (position f + lenN bytes) (script f) f, Ok bytes)).

(** [Read::read_exact] *)
Definition read_exact (n : N) : io (list N) :=
  _ ← step;
  act (fun f =>
    let bytes := takeN n (dropN (position f) (contents f)) in
    if (lenN bytes <? n)%N then (f, Err UnexpectedEof)
    else (with_file (contents f) (position f + n) (script f) f, Ok bytes)).

(** ** Records *)

Record HistoryEntry := mkEntry { session_id : str; ts : N; text : str }.
Inductive HistoryPersistence := SaveAll | PersistNone.
Record HistoryConfig := mkHistoryConfig { persistence : HistoryPersistence; max_bytes : option N }.

(** [serde_json] on the records *)
Class EntryCodec := {
  to_string : HistoryEntry -> option str;
  from_slice : list N -> option HistoryEntry;
}.

Record HistoryFileRevision := mkRevision { rev_len : N; rev_modified : option N }.
#[export] Instance HistoryFileRevision_eq_dec : EqDecision HistoryFileRevision.
Proof. solve_decision. Defined.
Record HistoryByteAnchor := mkAnchor { anchor_position : N; revision : HistoryFileRevision }.
Record HistoryBatchCursor := mkCursor { end_offset : N; byte_anchor : option HistoryByteAnchor }.
Definition new_cursor (end_offset : N) : HistoryBatchCursor := mkCursor end_offset None.

Record HistoryBatchEntry := mkBatchEntry { offset : N; entry : option HistoryEntry }.
Record HistoryBatch := mkBatch {
  entries : list HistoryBatchEntry;
  next_older_cursor : option HistoryBatchCursor;
}.
Definition default_batch : HistoryBatch := mkBatch [] None.

Record RawHistoryBatchEntry := mkRaw {
  raw_offset : N;
  byte_position : N;
  byte_len : N;
  bytes : option (list N);
}.

(** ** Retaining rows *)

(** The loop that drops the oldest rows; with no row left the source would not
    stop, but then no byte is left either. *)
Fixpoint shrink (suffix : list RawHistoryBatchEntry) (suffix_bytes : N) : list RawHistoryBatchEntry * N :=
  if (MAX_BATCH_ROWS <? length suffix) || (MAX_BATCH_BYTES <? suffix_bytes)%N then
    match suffix with
    | removed :: suffix => shrink suffix (suffix_bytes - byte_len removed)
    | [] => ([], suffix_bytes)
    end
  else (suffix, suffix_bytes).

Definition retain_row (suffix : list RawHistoryBatchEntry) (suffix_bytes : N) (e : RawHistoryBatchEntry)
    : list RawHistoryBatchEntry * N :=
  let row_bytes := byte_len e in
  if (MAX_BATCH_BYTES <? row_bytes)%N then ([e], row_bytes)
  else shrink (suffix ++ [e]) (suffix_bytes + row_bytes).

(** The entries so far, newest first, and whether to go on *)
Definition retain_newest_row (es : list RawHistoryBatchEntry) (entries_bytes : N) (e : RawHistoryBatchEntry)
    : list RawHistoryBatchEntry * N * bool :=
  let row_bytes := byte_len e in
  if is_empty es && (MAX_BATCH_BYTES <? row_bytes)%N then (es ++ [e], entries_bytes, false)
  else if (length es =? MAX_BATCH_ROWS) || (MAX_BATCH_BYTES <? saturating_add entries_bytes row_bytes)%N
  then (es, entries_bytes, false)
  else (es ++ [e], (entries_bytes + row_bytes)%N, true).

Section Codec.
Context {EC : EntryCodec}.

Definition strip_byte (b : N) (raw : list N) : list N := default raw (strip_suffix [b] raw).

Definition try_parse_entry (raw : list N) : option HistoryEntry :=
  from_slice (strip_byte 13%N (strip_byte nl raw)).

Definition finish_batch (raws : list RawHistoryBatchEntry) (rev : HistoryFileRevision) : result IoFault HistoryBatch :=
  let next :=
    e ← last raws;
    end_offset ← checked_sub (raw_offset e) 1;
    Some (mkCursor end_offset ((fun _ => mkAnchor (byte_position e) rev) <$> rev_modified rev)) in
  es ← try_map (fun raw => bytes ← ok_or (bytes raw) NotMaterialized;
                           Ok (mkBatchEntry (raw_offset raw) (try_parse_entry bytes))) raws;
  Ok (mkBatch es next).

Fixpoint materialize (raws : list RawHistoryBatchEntry) : io (list RawHistoryBatchEntry) :=
  match raws with
  | [] => mret []
  | e :: raws =>
      e ← match bytes e with
          | Some _ => mret e
          | None =>
              _ ← seek (byte_position e);
              bytes ← read_exact (byte_len e);
              mret (mkRaw (raw_offset e) (byte_position e) (byte_len e) (Some bytes))
          end;
      raws ← materialize raws;
      mret (e :: raws)
  end.

Definition finish_materialized_batch (raws : list RawHistoryBatchEntry) (rev : HistoryFileRevision) : io HistoryBatch :=
  raws ← materialize raws;
  act (fun f => (f, finish_batch raws rev)).

(** ** Scanning forwards *)

(** [BufRead::fill_buf]: the buffer is what was read and not yet consumed. *)
Definition fill_buf (buf : list N) : io (list N) :=
  if is_empty buf then read HISTORY_READ_BUFFER_SIZE else mret buf.

Definition find_byte (b : N) (l : list N) : option nat := fst <$> list_find (fun x => x = b) l.

(** The loop that reads up to a newline or the end of the file: what was consumed
    is absorbed into [acc], the rest of the buffer is returned. Every pass consumes
    a byte. *)
Fixpoint read_piece {S} (absorb : S -> list N -> S) (fuel : nat) (acc : S) (buf : list N) : io (S * list N) :=
  match fuel with
  | 0 => mret (acc, buf)
  | Datatypes.S fuel =>
      buf ← fill_buf buf;
      if is_empty buf then mret (acc, buf)
      else
        let newline := find_byte nl buf in
        let consumed := match newline with Some index => Datatypes.S index | None => length buf end in
        let acc := absorb acc (take consumed buf) in
        let buf := drop consumed buf in
        match newline with
        | Some _ => mret (acc, buf)
        | None => read_piece absorb fuel acc buf
        end
  end.

(** A row: its length, and its bytes unless it is oversized *)
Definition absorb_row (acc : N * option (list N)) (consumed : list N) : N * option (list N) :=
  let '(len, row) := acc in
  let len := saturating_add len (lenN consumed) in
  (len, buffered ← row; if (len <=? MAX_BATCH_BYTES)%N then Some (buffered ++ consumed) else None).

(** The rows from [offset], [count] of them at most *)
Fixpoint read_rows (count fuel : nat) (offset position : N) (suffix : list RawHistoryBatchEntry) (suffix_bytes : N)
    (buf : list N) : io (list RawHistoryBatchEntry) :=
  match count with
  | 0 => mret suffix
  | S count =>
      '(len, row, buf) ← read_piece absorb_row fuel (0%N, Some []) buf;
      if (len =? 0)%N then mret suffix
      else
        let '(suffix, suffix_bytes) := retain_row suffix suffix_bytes (mkRaw offset position len row) in
        read_rows count fuel (offset + 1) (position + len) suffix suffix_bytes buf
  end.

Definition scan_batch_forward (end_offset : N) (rev : HistoryFileRevision) : io HistoryBatch := fun f =>
  (suffix ← read_rows (S (N.to_nat end_offset)) (S (length (contents f))) 0 0 [] 0 [];
   finish_materialized_batch (reverse suffix) rev) f.

(** ** Scanning backwards *)

Record Backward := mkBackward {
  b_entries : list RawHistoryBatchEntry;
  b_bytes : N;
  reversed_row : option (list N);
  row_byte_len : N;
  b_offset : N;
}.

(** The bytes of a chunk, last first, [index] the position of the first of them
    plus one: the state to go on with, or the entries to return. *)
Fixpoint scan_bytes (reversed : list N) (index : N) (s : Backward) : Backward + list RawHistoryBatchEntry :=
  match reversed with
  | [] => inl s
  | byte :: reversed =>
      let index := (index - 1)%N in
      if (byte =? nl)%N && (0 <? row_byte_len s)%N then
        let raw := mkRaw (b_offset s) (index + 1) (row_byte_len s) (reverse <$> reversed_row s) in
        match retain_newest_row (b_entries s) (b_bytes s) raw with
        | (es, _, false) => inr es
        | (es, total, true) =>
            match checked_sub (b_offset s) 1 with
            | None => inr es
            | Some next_offset => scan_bytes reversed index (mkBackward es total (Some [nl]) 1 next_offset)
            end
        end
      else
        let len := saturating_add (row_byte_len s) 1 in
        let row := bytes ← reversed_row s; if (len <=? MAX_BATCH_BYTES)%N then Some (bytes ++ [byte]) else None in
        scan_bytes reversed index (mkBackward (b_entries s) (b_bytes s) row len (b_offset s))
  end.

(** The loop over the chunks; every chunk has a byte. *)
Fixpoint scan_chunks (fuel : nat) (read_end : N) (s : Backward) : io (Backward + list RawHistoryBatchEntry) :=
  match fuel with
  | 0 => mret (inl s)
  | S fuel =>
      if (read_end =? 0)%N then mret (inl s)
      else
        let read_start := (read_end - HISTORY_READ_BUFFER_SIZE)%N in
        let read_len := (read_end - read_start)%N in
        _ ← seek read_start;
        chunk ← read_exact read_len;
        match scan_bytes (reverse chunk) read_end s with
        | inl s => scan_chunks fuel read_start s
        | inr es => mret (inr es)
        end
  end.

Definition scan_batch_backward (end_offset end_byte_position : N) (rev : HistoryFileRevision) : io HistoryBatch :=
  r ← scan_chunks (S (N.to_nat end_byte_position)) end_byte_position (mkBackward [] 0 (Some []) 0 end_offset);
  match r with
  | inr es => finish_materialized_batch es rev
  | inl s =>
      let es :=
        if (0 <? row_byte_len s)%N
        then (retain_newest_row (b_entries s) (b_bytes s)
                (mkRaw (b_offset s) 0 (row_byte_len s) (reverse <$> reversed_row s))).1.1
        else b_entries s in
      finish_materialized_batch es rev
  end.

(** ** Batches *)

Definition file_revision (f : File) : HistoryFileRevision := mkRevision (lenN (contents f)) (modified f).

Definition drop_anchor (c : HistoryBatchCursor) : HistoryBatchCursor := mkCursor (end_offset c) None.

Definition scan_batch (cursor : HistoryBatchCursor) (config : HistoryConfig) : io HistoryBatch :=
  _ ← step;
  rev ← act (fun f => (f, Ok (file_revision f)));
  let forward :=
    _ ← seek 0;
    batch ← scan_batch_forward (end_offset cursor) rev;
    mret (if bool_decide (max_bytes config = None) then batch
          else mkBatch (entries batch) (drop_anchor <$> next_older_cursor batch)) in
  match byte_anchor cursor with
  | Some anchor =>
      if bool_decide (max_bytes config = None) && bool_decide (revision anchor = rev)
      then scan_batch_backward (end_offset cursor) (anchor_position anchor) rev
      else forward
  | None => forward
  end.

(** What an attempt at the lock gives *)
Inductive LockAttempt := Locked | Contended | LockFailed.

Fixpoint with_lock {A} (retries : nat) (attempts : list LockAttempt) (c : io A) : io A :=
  match retries with
  | 0 => fail WouldBlock
  | S retries =>
      match attempts with
      | [] => fail WouldBlock
      | Locked :: _ => c
      | Contended :: attempts => with_lock retries attempts c
      | LockFailed :: _ => fail OsError
      end
  end.

(** After [open] *)
Definition lookup_batch (log_id : N) (cursor : HistoryBatchCursor) (config : HistoryConfig)
    (attempts : list LockAttempt) : io HistoryBatch :=
  _ ← step;
  current_log_id ← act (fun f => (f, Ok (default 0%N (identity f))));
  if negb (log_id =? 0)%N && negb (current_log_id =? log_id)%N then mret default_batch
  else with_lock MAX_RETRIES attempts (scan_batch cursor config).

(** ** Reading lines *)

(** [BufRead::read_line]: the bytes up to a newline, which must be text *)
Definition read_line (fuel : nat) (buf : list N) : io (list N * list N) :=
  '(line, buf) ← read_piece app fuel [] buf;
  match from_utf8 line with Ok _ => mret (line, buf) | Err _ => fail InvalidData end.

Fixpoint read_line_lengths (count fuel : nat) (buf : list N) : io (list N) :=
  match count with
  | 0 => mret []
  | S count =>
      '(line, buf) ← read_line fuel buf;
      if is_empty line then mret []
      else lengths ← read_line_lengths count fuel buf; mret (lenN line :: lengths)
  end.

(** [Read::read_to_end] *)
Fixpoint read_to_end (fuel : nat) : io (list N) :=
  match fuel with
  | 0 => mret []
  | S fuel =>
      bytes ← read HISTORY_READ_BUFFER_SIZE;
      if is_empty bytes then mret [] else rest ← read_to_end fuel; mret (bytes ++ rest)
  end.

(** ** Writing *)

(** [Write::write] on a file opened for appending *)
Definition write (data : list N) : io N :=
  k ← step;
  act (fun f =>
    let n := N.min (lenN data) (match k with Some k => N.max 1 k | None => lenN data end) in
    (with_file (contents f ++ takeN n data) (lenN (contents f) + n) (script f) f, Ok n)).

(** [Write::write_all]: every pass writes a byte. *)
Fixpoint write_all (fuel : nat) (data : list N) : io unit :=
  match fuel with
  | 0 => mret tt
  | S fuel => if is_empty data then mret tt else n ← write data; write_all fuel (dropN n data)
  end.

Definition set_len (n : N) : io unit :=
  _ ← step; act (fun f => (with_file (takeN n (contents f)) (position f) (script f) f, Ok tt)).

Definition file_len : io N := _ ← step; act (fun f => (f, Ok (lenN (contents f)))).

(** ** Trimming *)

(** Rounding to the 53 bits of an [f64], ties to even; the value may carry a
    power of two. *)
Definition round_bits (n : N) : N :=
  let k := (N.size n - 53)%N in
  let q := (n / 2 ^ k)%N in
  let r := (n mod 2 ^ k)%N in
  let up := (2 ^ k <? 2 * r)%N || (2 * r =? 2 ^ k)%N && N.odd q in
  ((if up then q + 1 else q) * 2 ^ k)%N.
Definition as_f64 (n : N) : N := round_bits n.
(** The [f64] nearest to 0.8, times 2^53 *)
Definition HISTORY_SOFT_CAP_RATIO : N := 7205759403792794.

Definition soft_cap_bytes (max_bytes : N) : N :=
  let product := round_bits (as_f64 max_bytes * HISTORY_SOFT_CAP_RATIO) in
  N.min (N.min (N.max (product / 2 ^ 53) 1) (as_f64 max_bytes)) usize_max.

Definition trim_target_bytes (max_bytes newest_entry_len : N) : N := N.max (soft_cap_bytes max_bytes) newest_entry_len.

(** The loop that counts the bytes of the oldest lines to drop; the newest stays. *)
Fixpoint drop_oldest (line_lengths : list N) (current_len trim_target drop_bytes : N) : N :=
  match line_lengths with
  | [] => drop_bytes
  | l :: rest =>
      if (trim_target <? current_len)%N && negb (is_empty rest)
      then drop_oldest rest (current_len - l) trim_target (drop_bytes + l)
      else drop_bytes
  end.

Definition enforce_history_limit (max_bytes : option N) : io unit :=
  match max_bytes with
  | None => mret tt
  | Some max_bytes =>
      if (max_bytes =? 0)%N then mret tt
      else
        current_len ← file_len;
        if (current_len <=? max_bytes)%N then mret tt
        else
          _ ← step;
          _ ← seek 0;
          fuel ← act (fun f => (f, Ok (S (length (contents f)))));
          line_lengths ← read_line_lengths fuel fuel [];
          match last line_lengths with
          | None => mret tt
          | Some newest =>
              let drop_bytes := drop_oldest line_lengths current_len (trim_target_bytes max_bytes newest) 0 in
              if (drop_bytes =? 0)%N then mret tt
              else
                _ ← seek drop_bytes;
                tail ← read_to_end fuel;
                _ ← set_len 0;
                _ ← seek 0;
                write_all (length tail) tail
          end
  end.

(** [clock] is the time in seconds, unless it is before the epoch. *)
Definition append_entry (text conversation_id : str) (config : HistoryConfig) (clock : option N)
    (attempts : list LockAttempt) : io unit :=
  match persistence config with
  | PersistNone => mret tt
  | SaveAll =>
      _ ← step;
      match clock with
      | None => fail ClockError
      | Some ts =>
          match to_string (mkEntry conversation_id ts text) with
          | None => fail EncodeError
          | Some line =>
              let line := as_bytes (line ++ [nl]) in
              _ ← step;
              _ ← step;
              with_lock MAX_RETRIES attempts
                (_ ← step;
                 _ ← write_all (length line) line;
                 enforce_history_limit (max_bytes config))
          end
      end
  end.

(** ** Single lookups *)

(** The line a lookup stops at, without its line break *)
Fixpoint nth_line (count fuel : nat) (offset : N) (buf : list N) : io (option (list N)) :=
  match count with
  | 0 => mret None
  | S count =>
      '(line, buf) ← read_line fuel buf;
      if is_empty line then mret None
      else if (offset =? 0)%N then
        mret (Some (match strip_suffix [nl] line with Some l => strip_byte 13%N l | None => line end))
      else nth_line count fuel (offset - 1) buf
  end.

Definition lookup_history_entry (log_id offset : N) (attempts : list LockAttempt) : io (option HistoryEntry) :=
  _ ← step;
  current ← act (fun f => (f, Ok (identity f)));
  match current with
  | None => mret None
  | Some current_log_id =>
      if negb (log_id =? 0)%N && negb (current_log_id =? log_id)%N then mret None
      else with_lock MAX_RETRIES attempts
             (fuel ← act (fun f => (f, Ok (S (length (contents f)))));
              line ← nth_line fuel fuel offset [];
              mret (line ≫= from_slice))
  end.
(** [lookup]: every failure is no entry. The file was just opened. *)
Definition lookup (log_id offset : N) (attempts : list LockAttempt) (f : File) : option HistoryEntry :=
  match lookup_history_entry log_id offset attempts f with (_, Ok e) => e | (_, Err _) => None end.

(** The newlines of the file, in reads of the buffer's size *)
Fixpoint count_newlines (fuel : nat) (count : N) : io N :=
  match fuel with
  | 0 => mret count
  | S fuel =>
      bytes ← read HISTORY_READ_BUFFER_SIZE;
      if is_empty bytes then mret count
      else count_newlines fuel (count + N.of_nat (length (filter (fun b => b = nl) bytes)))
  end.

Definition history_metadata (f : File) : N * N :=
  match step f with
  | (_, Err _) => (0, 0)%N
  | (f, Ok _) =>
      let log_id := default 0%N (identity f) in
      match (_ ← step; count_newlines (S (length (contents f))) 0) f with
      | (_, Ok count) => (log_id, count)
      | (_, Err _) => (log_id, 0%N)
      end
  end.

End Codec.
