(* ===== verification/PromptBatch.v ===== *)
(** * Batches of the prompt history are exact

    Both scans of message-history/src/batch.rs return the same thing: the newest
    rows up to the requested one that fit a batch, each with its line number, as
    one reads them off the whole file. Following the cursors visits every row
    once, also while the file grows. *)

From S2P Require Import Prelude RustStr PromptHistory.
From Stdlib Require Import ZifyBool.

Lemma max_bytes_fits : (1 <= MAX_BATCH_BYTES < usize_max)%N.
Proof. done. Qed.
Lemma buffer_pos : (0 < HISTORY_READ_BUFFER_SIZE)%N.
Proof. done. Qed.
Lemma max_rows : exists n, MAX_BATCH_ROWS = S n.
Proof. by exists 127. Qed.
#[local] Opaque MAX_BATCH_ROWS MAX_BATCH_BYTES HISTORY_READ_BUFFER_SIZE.

(** ** What a batch should hold *)

(** A row of a file: its number, where it starts, its bytes *)
Record Row := mkRow { row_number : N; row_start : N; row_text : list N }.

Fixpoint number_rows (i start : N) (rows : list (list N)) : list Row :=
  match rows with
  | [] => []
  | r :: rows => mkRow i start r :: number_rows (i + 1) (start + lenN r) rows
  end.

Definition rows_of (c : list N) : list Row := number_rows 0 0 (split_inclusive c).

(** The longest beginning of at most [n] rows and [budget] bytes *)
Fixpoint fit (n : nat) (budget : N) (rows : list Row) : list Row :=
  match n, rows with
  | S n, r :: rows => if (lenN (row_text r) <=? budget)%N then r :: fit n (budget - lenN (row_text r)) rows else []
  | _, _ => []
  end.

(** The batch of rows given newest first: those that fit, or the newest alone if
    it is oversized *)
Definition batch_rows (rows : list Row) : list Row :=
  match rows with
  | [] => []
  | r :: _ => if (MAX_BATCH_BYTES <? lenN (row_text r))%N then [r] else fit MAX_BATCH_ROWS MAX_BATCH_BYTES rows
  end.

Definition bytes_of (rows : list Row) : N := foldr (fun r n => lenN (row_text r) + n)%N 0%N rows.

Lemma bytes_of_app a b : bytes_of (a ++ b) = (bytes_of a + bytes_of b)%N.
Proof. induction a; simpl; lia. Qed.
Lemma bytes_of_reverse a : bytes_of (reverse a) = bytes_of a.
Proof. induction a; [done|]. rewrite reverse_cons, bytes_of_app. simpl. lia. Qed.

Definition fits (n : nat) (budget : N) (rows : list Row) : Prop := length rows <= n /\ (bytes_of rows <= budget)%N.

Lemma fit_all n budget rows : fits n budget rows -> fit n budget rows = rows.
Proof.
  revert n budget. induction rows as [|r rows IH]; intros n budget [H1 H2]; simpl in *; [by destruct n|].
  destruct n as [|n]; [lia|]. cbn [fit]. destruct (N.leb_spec (lenN (row_text r)) budget); [|lia].
  f_equal. apply IH. split; lia.
Qed.

Lemma fit_snoc n budget rows r : ~ fits n budget (rows ++ [r]) -> fit n budget (rows ++ [r]) = fit n budget rows.
Proof.
  revert n budget. induction rows as [|x rows IH]; intros n budget H; cbn [app].
  - destruct n as [|n]; [done|]. cbn [fit]. destruct (N.leb_spec (lenN (row_text r)) budget); [|done]. exfalso. apply H.
    split; simpl; lia.
  - destruct n as [|n]; [done|]. cbn [fit]. destruct (N.leb_spec (lenN (row_text x)) budget); [|done]. f_equal. apply IH.
    intros [H1 H2]. apply H. split; simpl in *; lia.
Qed.

Lemma fit_fit n n' b b' rows : n <= n' -> (b <= b')%N -> fit n b (fit n' b' rows) = fit n b rows.
Proof.
  revert n n' b b'. induction rows as [|r rows IH]; intros n n' b b' Hn Hb.
  { by destruct n', n. }
  destruct n as [|n]; [by destruct n', (fit _ _ _)|]. destruct n' as [|n']; [lia|]. cbn [fit].
  destruct (N.leb_spec (lenN (row_text r)) b) as [Hr|Hr].
  - destruct (N.leb_spec (lenN (row_text r)) b'); [|lia]. cbn [fit].
    destruct (N.leb_spec (lenN (row_text r)) b); [|lia]. f_equal. apply IH; lia.
  - destruct (lenN (row_text r) <=? b')%N; [|done]. cbn [fit].
    destruct (N.leb_spec (lenN (row_text r)) b); [lia|done].
Qed.

Lemma fit_prefix n b rows : exists rest, rows = fit n b rows ++ rest.
Proof.
  revert n b. induction rows as [|r rows IH]; intros n b; [by exists []; destruct n|].
  destruct n as [|n]; [by exists (r :: rows)|]. cbn [fit]. destruct (_ <=? _)%N; [|by exists (r :: rows)].
  destruct (IH n (b - lenN (row_text r))%N) as [rest E]. exists rest. simpl. by rewrite <- E.
Qed.

Lemma batch_rows_prefix rows : exists rest, rows = batch_rows rows ++ rest.
Proof.
  unfold batch_rows. destruct rows as [|r rows]; [by exists []|].
  destruct (_ <? _)%N; [by exists rows|apply fit_prefix].
Qed.

Lemma batch_rows_ne rows : rows <> [] -> batch_rows rows <> [].
Proof.
  destruct rows as [|r rows]; [done|]. intros _. cbn [batch_rows].
  destruct (N.ltb_spec MAX_BATCH_BYTES (lenN (row_text r))); [done|].
  destruct max_rows as [n ->]. cbn [fit]. destruct (N.leb_spec (lenN (row_text r)) MAX_BATCH_BYTES); [done|lia].
Qed.

(** A raw entry of a row: its bytes are kept unless it is oversized. *)
Definition raw_of (r : Row) : RawHistoryBatchEntry :=
  mkRaw (row_number r) (row_start r) (lenN (row_text r))
    (if (lenN (row_text r) <=? MAX_BATCH_BYTES)%N then Some (row_text r) else None).

Lemma shrink_spec rows :
  shrink (raw_of <$> reverse rows) (bytes_of rows) =
  (raw_of <$> reverse (fit MAX_BATCH_ROWS MAX_BATCH_BYTES rows), bytes_of (fit MAX_BATCH_ROWS MAX_BATCH_BYTES rows)).
Proof.
  induction rows as [|r rows IH] using rev_ind.
  { rewrite fit_all by (split; simpl; lia). done. }
  rewrite reverse_snoc. cbn [fmap list_fmap shrink]. rewrite length_cons, length_fmap, length_reverse, bytes_of_app.
  change (bytes_of [r]) with (lenN (row_text r) + 0)%N.
  destruct ((MAX_BATCH_ROWS <? S (length rows)) || (MAX_BATCH_BYTES <? bytes_of rows + (lenN (row_text r) + 0))%N) eqn:E.
  - rewrite fit_snoc.
    + rewrite <- IH. cbn [byte_len raw_of]. f_equal. lia.
    + intros [H1 H2]. rewrite length_app in H1. rewrite bytes_of_app in H2. simpl in *. lia.
  - rewrite fit_all; [by rewrite reverse_snoc, bytes_of_app|]. split; rewrite ?length_app, ?bytes_of_app; simpl; lia.
Qed.

Lemma retain_row_spec rows r :
  retain_row (raw_of <$> reverse (batch_rows rows)) (bytes_of (batch_rows rows)) (raw_of r) =
  (raw_of <$> reverse (batch_rows (r :: rows)), bytes_of (batch_rows (r :: rows))).
Proof.
  unfold retain_row. cbn [byte_len raw_of batch_rows].
  destruct (N.ltb_spec MAX_BATCH_BYTES (lenN (row_text r))) as [Hr|Hr].
  { simpl. f_equal. lia. }
  assert (fit MAX_BATCH_ROWS MAX_BATCH_BYTES (r :: batch_rows rows) = fit MAX_BATCH_ROWS MAX_BATCH_BYTES (r :: rows)) as <-.
  { destruct max_rows as [n En]. rewrite En. cbn [fit]. destruct (N.leb_spec (lenN (row_text r)) MAX_BATCH_BYTES); [|lia].
    f_equal. unfold batch_rows. destruct rows as [|x rows]; [done|].
    destruct (N.ltb_spec MAX_BATCH_BYTES (lenN (row_text x))).
    - destruct n as [|n]; [done|]. cbn [fit].
      destruct (N.leb_spec (lenN (row_text x)) (MAX_BATCH_BYTES - lenN (row_text r))); [lia|done].
    - apply fit_fit; lia. }
  rewrite <- shrink_spec. rewrite reverse_cons, fmap_app. f_equal. simpl. lia.
Qed.

(** ** Reading a file *)

(** The file is the same but for where it stands and what its operations do. *)
Definition same_file (f f' : File) : Prop :=
  contents f' = contents f /\ identity f' = identity f /\ modified f' = modified f.

#[export] Instance same_file_preorder : PreOrder same_file.
Proof. split; [done|]. intros f g h (? & ? & ?) (? & ? & ?). unfold same_file. split_and!; congruence. Qed.

Lemma io_bind_Ok {A B} (c : io A) (k : A -> io B) f f' b :
  (x ← c; k x) f = (f', Ok b) -> exists g a, c f = (g, Ok a) /\ k a g = (f', Ok b).
Proof. unfold mbind, io_bind. destruct (c f) as [g [a|e]]; [eauto|done]. Qed.

(** What is still to be read *)
Definition rest_of (f : File) : list N := dropN (position f) (contents f).

Lemma step_Ok f f' k : step f = (f', Ok k) -> same_file f f' /\ position f' = position f.
Proof. unfold step. destruct (script f) as [|[?|] s]; intros [= <- <-]; done. Qed.

Lemma seek_Ok p f f' u : seek p f = (f', Ok u) -> same_file f f' /\ position f' = p.
Proof. unfold seek. intros (g & k & [Hs _]%step_Ok & H)%io_bind_Ok. by injection H as <-. Qed.


Lemma read_Ok n f f' bs :
  (0 < n)%N -> read n f = (f', Ok bs) ->
  same_file f f' /\ rest_of f = bs ++ rest_of f' /\ (bs = [] -> rest_of f' = []).
Proof.
  intros Hn. unfold read. intros (g & k & [Hs Hp]%step_Ok & H)%io_bind_Ok. unfold act in H. cbv zeta in H.
  set (m := match k with Some k => N.min n (N.max 1 k) | None => n end) in H.
  assert (0 < m)%N as Hm by (unfold m; destruct k; lia).
  injection H as <- <-. split; [done|]. unfold rest_of, with_file. cbn [contents position].
  destruct Hs as (Hc & _ & _). rewrite Hc, Hp. rewrite <- dropN_dropN. set (r := dropN (position f) (contents f)).
  assert (dropN (lenN (takeN m r)) r = dropN m r) as ->.
  { unfold dropN, lenN, takeN. rewrite length_take. destruct (le_lt_dec (N.to_nat m) (length r)).
    - f_equal. lia.
    - rewrite !drop_ge by lia. done. }
  split; [by rewrite takeN_dropN|]. intros E. apply (f_equal lenN) in E. rewrite lenN_takeN in E. unfold lenN, dropN in *.
  apply nil_length_inv. rewrite length_drop. simpl in E. lia.
Qed.

Lemma read_exact_Ok n f f' bs :
  read_exact n f = (f', Ok bs) -> same_file f f' /\ bs = takeN n (rest_of f).
Proof.
  unfold read_exact. intros (g & k & [Hs Hp]%step_Ok & H)%io_bind_Ok. unfold act in H. cbv zeta in H.
  destruct (_ <? _)%N; [done|]. injection H as <- <-. split; [done|]. unfold rest_of. destruct Hs as (-> & _). by rewrite Hp.
Qed.

(** Seeking and reading gives the bytes at that place. *)
Lemma read_at_Ok p n f g f' u bs :
  seek p f = (g, Ok u) -> read_exact n g = (f', Ok bs) -> same_file f f' /\ bs = takeN n (dropN p (contents f)).
Proof.
  intros [Hs Hp]%seek_Ok [Hs' ->]%read_exact_Ok. split; [by etrans|]. unfold rest_of. rewrite Hp. by destruct Hs as (-> & _).
Qed.

(** ** The forward scan *)

(** The bytes of a row, unless it is oversized *)
Definition keep (row : list N) : option (list N) := if (lenN row <=? MAX_BATCH_BYTES)%N then Some row else None.

Lemma keep_app x y : (b ← keep x; if (lenN (x ++ y) <=? MAX_BATCH_BYTES)%N then Some (b ++ y) else None) = keep (x ++ y).
Proof.
  unfold keep. rewrite lenN_app. destruct (N.leb_spec (lenN x) MAX_BATCH_BYTES); [done|]. simpl.
  destruct (N.leb_spec (lenN x + lenN y) MAX_BATCH_BYTES); [lia|done].
Qed.

Lemma find_byte_Some b l i : find_byte b l = Some i -> exists x y, l = x ++ b :: y /\ (b ∉ x) /\ length x = i.
Proof.
  unfold find_byte. rewrite fmap_Some. intros ([j c] & (Hj & -> & Hn)%list_find_Some & ->). simpl.
  exists (take j l), (drop (S j) l). rewrite (take_drop_middle _ _ _ Hj). split; [done|].
  apply lookup_lt_Some in Hj. split; [|rewrite length_take; lia].
  intros (k & Hk)%list_elem_of_lookup. apply lookup_take_Some in Hk as [Hk Hlt]. by destruct (Hn k b Hk Hlt).
Qed.
Lemma find_byte_None b l : find_byte b l = None -> b ∉ l.
Proof.
  unfold find_byte. rewrite fmap_None, list_find_None, Forall_forall. intros H Hb. by apply (H b Hb).
Qed.

Lemma fill_buf_Ok buf f f' buf' :
  fill_buf buf f = (f', Ok buf') ->
  same_file f f' /\ buf ++ rest_of f = buf' ++ rest_of f' /\ (buf' = [] -> buf ++ rest_of f = []).
Proof.
  unfold fill_buf. destruct buf as [|b buf]; simpl.
  - intros (Hs & E & Hn)%read_Ok; [|done]. split_and!; [done|done|]. intros ->. rewrite E. by apply Hn.
  - intros [= <- <-]. done.
Qed.

(** A loop that reads a line holds the next line of the stream, whatever it
    makes of the bytes it consumes. *)
Lemma read_piece_Ok {S} (absorb : S -> list N -> S) (shows : S -> list N -> Prop) fuel s acc buf f f' s' buf' :
  (forall s x y, shows s x -> (lenN (x ++ y) <= usize_max)%N -> shows (absorb s y) (x ++ y)) ->
  shows s acc -> nl ∉ acc -> length (buf ++ rest_of f) < fuel -> (lenN (acc ++ buf ++ rest_of f) <= usize_max)%N ->
  read_piece absorb fuel s buf f = (f', Ok (s', buf')) ->
  same_file f f' /\ exists x, shows s' x /\ acc ++ buf ++ rest_of f = x ++ buf' ++ rest_of f' /\
    split_inclusive (acc ++ buf ++ rest_of f) =
    match x with [] => [] | _ => x :: split_inclusive (buf' ++ rest_of f') end.
Proof.
  intros Hab. revert s acc buf f. induction fuel as [|fuel IH]; intros s acc buf f Hsh Ha Hf Hu; [lia|]. cbn [read_piece].
  intros (g & buf1 & (Hs & E & He)%fill_buf_Ok & H)%io_bind_Ok.
  destruct buf1 as [|b buf1].
  { simpl in H. injection H as <- <- <-. specialize (He eq_refl). rewrite He in *. symmetry in E. apply app_nil in E as [_ E].
    split; [done|]. exists acc. rewrite E, !app_nil_r. split_and!; [done..|].
    destruct acc as [|a acc]; [done|]. by apply split_inclusive_last. }
  set (bf := b :: buf1) in *. change (is_empty bf) with false in H. cbv zeta iota in H.
  rewrite E in Hf, Hu |- *.
  assert (forall y z, bf = y ++ z -> shows (absorb s y) (acc ++ y)) as Hnext.
  { intros y z Ey. apply Hab; [done|]. rewrite Ey in Hu. rewrite !lenN_app in *. lia. }
  destruct (find_byte nl bf) as [i|] eqn:Ei.
  - apply find_byte_Some in Ei as (x & y & Ex & Hx & Hi). subst i.
    assert (Datatypes.S (length x) = length (x ++ [nl])) as El by (rewrite length_app; simpl; lia). rewrite El in H.
    assert (bf = (x ++ [nl]) ++ y) as Ebf by (by rewrite <- app_assoc). specialize (Hnext _ _ Ebf).
    rewrite Ebf, take_app_length, drop_app_length in H. injection H as <- <- <-. split; [done|].
    exists (acc ++ x ++ [nl]). rewrite Ebf, <- !app_assoc. split_and!; [done..|]. simpl.
    rewrite (app_assoc acc x), split_inclusive_line by set_solver.
    destruct (acc ++ x ++ [nl]) eqn:En; [by destruct acc, x|]. rewrite <- En. by rewrite <- app_assoc.
  - apply find_byte_None in Ei. rewrite take_ge, drop_ge in H by lia.
    apply IH with (acc := acc ++ bf) in H; [| | | |].
    + destruct H as (Hs' & x & H1 & H2 & H3). split; [by etrans|]. exists x. rewrite <- !app_assoc in H2, H3. done.
    + apply (Hnext bf []). by rewrite app_nil_r.
    + set_solver.
    + rewrite length_app in Hf. unfold bf in Hf. simpl in Hf |- *. lia.
    + by rewrite <- app_assoc.
Qed.

Lemma absorb_row_shows (s : N * option (list N)) x y :
  s = (lenN x, keep x) -> (lenN (x ++ y) <= usize_max)%N -> absorb_row s y = (lenN (x ++ y), keep (x ++ y)).
Proof.
  intros -> Hu. unfold absorb_row. rewrite saturating_add_fits by (rewrite lenN_app in Hu; lia).
  by rewrite <- lenN_app, keep_app.
Qed.

Lemma read_rows_Ok count fuel i start earlier buf f f' suffix :
  length (buf ++ rest_of f) < fuel -> (lenN (buf ++ rest_of f) <= usize_max)%N ->
  read_rows count fuel i start (raw_of <$> reverse (batch_rows earlier)) (bytes_of (batch_rows earlier)) buf f
    = (f', Ok suffix) ->
  same_file f f' /\
  suffix = raw_of <$> reverse (batch_rows
    (reverse (take count (number_rows i start (split_inclusive (buf ++ rest_of f)))) ++ earlier)).
Proof.
  revert i start earlier buf f. induction count as [|count IH]; intros i start earlier buf f Hf Hu; cbn [read_rows].
  { intros [= <- <-]. done. }
  intros (g & [[len row] buf'] & Hr & H)%io_bind_Ok.
  apply (read_piece_Ok absorb_row (fun s x => s = (lenN x, keep x)) fuel (0%N, Some []) []) in Hr
    as (Hs & x & Ex & E & Es); [|exact absorb_row_shows|done|by apply not_elem_of_nil|done|done].
  injection Ex as -> ->.
  cbn [app] in E, Es. rewrite Es. destruct x as [|b x].
  { simpl in H. injection H as <- <-. done. }
  set (r := b :: x) in *. change (lenN r =? 0)%N with false in H. cbv iota in H.
  change (mkRaw i start (lenN r) (keep r)) with (raw_of (mkRow i start r)) in H.
  rewrite retain_row_spec in H. apply IH in H as [Hs' ->].
  - split; [by etrans|]. cbn [number_rows take]. rewrite reverse_cons, <- app_assoc. done.
  - rewrite E, length_app in Hf. unfold r in Hf. simpl in Hf. lia.
  - rewrite E, lenN_app in Hu. lia.
Qed.

(** ** The backward scan *)

Lemma scan_bytes_app l1 l2 i s :
  scan_bytes (l1 ++ l2) i s =
  match scan_bytes l1 i s with inl s' => scan_bytes l2 (i - lenN l1) s' | inr es => inr es end.
Proof.
  revert i s. induction l1 as [|b l1 IH]; intros i s; [cbn [app scan_bytes]; by rewrite lenN_nil, N.sub_0_r|].
  cbn [app scan_bytes]. cbv zeta. rewrite lenN_cons.
  replace (i - (1 + lenN l1))%N with (i - 1 - lenN l1)%N by lia.
  destruct (_ && _); [|apply IH]. destruct (retain_newest_row _ _ _) as [[es total] []]; [|done].
  destruct (checked_sub _ _); [apply IH|done].
Qed.

Lemma scan_chunks_Ok fuel e s f f' r :
  (e <= lenN (contents f))%N -> N.to_nat e < fuel ->
  scan_chunks fuel e s f = (f', Ok r) -> same_file f f' /\ r = scan_bytes (reverse (takeN e (contents f))) e s.
Proof.
  revert e s f. induction fuel as [|fuel IH]; intros e s f Hle Hf; [lia|]. cbn [scan_chunks].
  destruct (N.eqb_spec e 0) as [->|Hne]; [intros [= <- <-]; done|]. cbv zeta.
  set (start := (e - HISTORY_READ_BUFFER_SIZE)%N). assert (start < e)%N as Hs by (subst start; pose proof buffer_pos; lia).
  intros (g & u & Hseek & H)%io_bind_Ok. apply io_bind_Ok in H as (g1 & chunk & Hread & H).
  destruct (read_at_Ok _ _ _ _ _ _ _ Hseek Hread) as [Hsame ->]. set (chunk := takeN (e - start) (dropN start (contents f))) in *.
  assert (takeN e (contents f) = takeN start (contents f) ++ chunk) as Et.
  { unfold chunk, takeN, dropN. rewrite take_drop_commute, <- (take_drop (N.to_nat start) (take (N.to_nat e) (contents f))).
    rewrite take_take. f_equal; f_equal; [lia|]. f_equal; lia. }
  assert (lenN chunk = e - start)%N as Hlen by (unfold chunk; rewrite lenN_takeN, lenN_dropN; lia).
  rewrite Et, reverse_app, scan_bytes_app.
  assert (lenN (reverse chunk) = e - start)%N as Hlr by (unfold lenN in *; by rewrite length_reverse).
  destruct (scan_bytes (reverse chunk) e s) as [s'|es]; [|injection H as <- <-; done].
  apply IH in H as [Hs' ->]; [| |lia].
  - split; [by etrans|]. destruct Hsame as (-> & _). f_equal. rewrite Hlr. lia.
  - destruct Hsame as (-> & _). lia.
Qed.

(** Taking rows newest first while they fit *)
Fixpoint feed (es rows : list Row) : list Row :=
  match rows with
  | [] => es
  | r :: rows =>
      if is_empty es && (MAX_BATCH_BYTES <? lenN (row_text r))%N then es ++ [r]
      else if (length es =? MAX_BATCH_ROWS) || (MAX_BATCH_BYTES <? bytes_of es + lenN (row_text r))%N then es
      else feed (es ++ [r]) rows
  end.

Lemma feed_fit es rows :
  es <> [] -> fits MAX_BATCH_ROWS MAX_BATCH_BYTES es ->
  feed es rows = es ++ fit (MAX_BATCH_ROWS - length es) (MAX_BATCH_BYTES - bytes_of es) rows.
Proof.
  revert es. induction rows as [|r rows IH]; intros es Hne [H1 H2]; cbn [feed].
  { destruct (MAX_BATCH_ROWS - length es); cbn [fit]; by rewrite app_nil_r. }
  destruct es as [|x es]; [done|]. cbn [is_empty andb]. set (l := x :: es) in *.
  destruct (Nat.eqb_spec (length l) MAX_BATCH_ROWS) as [E|E]; cbn [orb].
  { replace (MAX_BATCH_ROWS - length l) with 0 by lia. cbn [fit]. by rewrite app_nil_r. }
  destruct (MAX_BATCH_ROWS - length l) as [|n] eqn:En; [lia|]. cbn [fit].
  destruct (N.ltb_spec MAX_BATCH_BYTES (bytes_of l + lenN (row_text r))).
  { destruct (N.leb_spec (lenN (row_text r)) (MAX_BATCH_BYTES - bytes_of l)); [lia|]. by rewrite app_nil_r. }
  destruct (N.leb_spec (lenN (row_text r)) (MAX_BATCH_BYTES - bytes_of l)); [|lia].
  rewrite IH; [|by destruct l|split; rewrite ?length_app, ?bytes_of_app; cbn [length bytes_of foldr]; clearbody l; lia].
  rewrite <- app_assoc. cbn [app]. do 2 f_equal. rewrite length_app, bytes_of_app. cbn [length bytes_of foldr]. f_equal; lia.
Qed.

Lemma feed_batch rows : feed [] rows = batch_rows rows.
Proof.
  destruct rows as [|r rows]; [done|]. cbn [feed batch_rows]. simpl.
  destruct (N.ltb_spec MAX_BATCH_BYTES (lenN (row_text r))); [done|].
  destruct max_rows as [n En]. destruct (Nat.eqb_spec 0 MAX_BATCH_ROWS); [lia|].
  destruct (N.ltb_spec MAX_BATCH_BYTES (0 + lenN (row_text r))); [lia|]. cbn [orb].
  rewrite feed_fit; [|done|split; simpl; lia]. rewrite En. cbn [fit length bytes_of foldr app].
  destruct (N.leb_spec (lenN (row_text r)) MAX_BATCH_BYTES); [|lia]. do 2 f_equal; lia.
Qed.

(** What the scan returns once it has seen every byte *)
Definition settle_rows (r : Backward + list RawHistoryBatchEntry) : list RawHistoryBatchEntry :=
  match r with
  | inr es => es
  | inl s =>
      if (0 <? row_byte_len s)%N
      then (retain_newest_row (b_entries s) (b_bytes s)
              (mkRaw (b_offset s) 0 (row_byte_len s) (reverse <$> reversed_row s))).1.1
      else b_entries s
  end.

(** The end of a row: no newline but at its end *)
Definition row_end (acc : list N) : Prop := exists x, (nl ∉ x) /\ (acc = x \/ acc = x ++ [nl]).

Lemma row_end_split acc : row_end acc -> acc <> [] -> split_inclusive acc = [acc].
Proof.
  intros (x & Hx & [-> | ->]) Hne; [by apply split_inclusive_last|]. by rewrite (split_inclusive_line x []).
Qed.

Lemma number_rows_snoc i start rows x :
  number_rows i start (rows ++ [x]) =
  number_rows i start rows ++ [mkRow (i + lenN rows) (start + lenN (concat rows)) x].
Proof.
  revert i start. induction rows as [|y rows IH]; intros i start; cbn [app number_rows].
  { do 2 f_equal; unfold lenN; simpl; lia. }
  rewrite IH. cbn [app]. do 4 f_equal; rewrite ?lenN_cons; cbn [concat]; rewrite ?lenN_app; lia.
Qed.

(** The state after [es] rows and the bytes [acc] of the next *)
Definition backward (es : list Row) (acc : list N) (o : N) : Backward :=
  mkBackward (raw_of <$> es) (bytes_of es) (reverse <$> keep acc) (lenN acc) o.

Lemma retain_newest_spec es r rows :
  fits MAX_BATCH_ROWS MAX_BATCH_BYTES es -> (lenN (row_text r) <= usize_max)%N ->
  match retain_newest_row (raw_of <$> es) (bytes_of es) (raw_of r) with
  | (raws, total, true) => raws = raw_of <$> (es ++ [r]) /\ total = bytes_of (es ++ [r]) /\
      feed es (r :: rows) = feed (es ++ [r]) rows /\ fits MAX_BATCH_ROWS MAX_BATCH_BYTES (es ++ [r])
  | (raws, _, false) => raws = raw_of <$> feed es (r :: rows)
  end.
Proof.
  intros [H1 H2] Hu. unfold retain_newest_row. cbn [feed byte_len raw_of].
  assert (is_empty (raw_of <$> es) = is_empty es) as -> by by destruct es. rewrite length_fmap.
  destruct (is_empty es && _); [by rewrite fmap_app|].
  assert ((MAX_BATCH_BYTES <? saturating_add (bytes_of es) (lenN (row_text r)))%N =
          (MAX_BATCH_BYTES <? bytes_of es + lenN (row_text r))%N) as ->.
  { unfold saturating_add. pose proof max_bytes_fits. lia. }
  destruct (Nat.eqb_spec (length es) MAX_BATCH_ROWS); [done|].
  destruct (N.ltb_spec MAX_BATCH_BYTES (bytes_of es + lenN (row_text r))); [done|]. cbn [orb].
  rewrite fmap_app, bytes_of_app. unfold fits. rewrite length_app, bytes_of_app. cbn [length bytes_of foldr].
  split_and!; try done; lia.
Qed.

Lemma raw_of_keep o p acc : mkRaw o p (lenN acc) (reverse <$> (reverse <$> keep acc)) = raw_of (mkRow o p acc).
Proof.
  unfold raw_of, keep. cbn [row_number row_start row_text]. f_equal. destruct (_ <=? _)%N; [|done].
  simpl. by rewrite reverse_involutive.
Qed.

Lemma scan_bytes_rows p acc es o :
  row_end acc -> fits MAX_BATCH_ROWS MAX_BATCH_BYTES es -> (lenN (p ++ acc) <= usize_max)%N ->
  (p ++ acc <> [] -> lenN (split_inclusive (p ++ acc)) = o + 1)%N ->
  settle_rows (scan_bytes (reverse p) (lenN p) (backward es acc o)) =
  raw_of <$> feed es (reverse (number_rows 0 0 (split_inclusive (p ++ acc)))).
Proof.
  revert acc es o. induction p as [|b p IH] using rev_ind; intros acc es o Ha Hf Hu Ho.
  - cbn [app] in *. change (reverse (@nil N)) with (@nil N). cbn [scan_bytes settle_rows backward row_byte_len b_entries b_bytes b_offset reversed_row].
    destruct acc as [|a acc]; [done|]. set (x := a :: acc) in *. specialize (Ho ltac:(done)).
    rewrite (row_end_split x) in Ho |- * by done. rewrite lenN_cons, lenN_nil in Ho. assert (o = 0)%N as -> by lia.
    change (0 <? lenN x)%N with true. cbv iota. rewrite raw_of_keep. cbn [number_rows].
    pose proof (retain_newest_spec es (mkRow 0 0 x) [] Hf Hu) as H. change (reverse [mkRow 0 0 x]) with [mkRow 0 0 x].
    destruct (retain_newest_row _ _ _) as [[raws total] []]; cbn [fst]; [|done]. by destruct H as (-> & _ & -> & _).
  - rewrite reverse_snoc, lenN_app. change (lenN [b]) with 1%N. cbn [scan_bytes]. cbv zeta.
    rewrite N.add_sub. cbn [backward row_byte_len b_entries b_bytes b_offset reversed_row].
    destruct ((b =? nl)%N && (0 <? lenN acc)%N) eqn:Eb.
    + apply andb_true_iff in Eb as [->%N.eqb_eq Hpos]. assert (acc <> []) as Hne by (by intros ->).
      rewrite split_inclusive_app, (row_end_split acc) in Ho |- * by done.
      specialize (Ho ltac:(by destruct p)). rewrite lenN_app in Ho. change (lenN [acc]) with 1%N in Ho.
      rewrite raw_of_keep, number_rows_snoc, split_inclusive_concat, lenN_app, reverse_snoc. change (lenN [nl]) with 1%N.
      rewrite !N.add_0_l. assert (o = lenN (split_inclusive (p ++ [nl]))) as -> by lia. set (o := lenN (split_inclusive (p ++ [nl]))) in *.
      rewrite <- app_assoc in Hu. cbn [app] in Hu.
      pose proof (retain_newest_spec es (mkRow o (lenN p + 1) acc) (reverse (number_rows 0 0 (split_inclusive (p ++ [nl])))) Hf) as H.
      cbn [row_text] in H. specialize (H ltac:(rewrite lenN_app, lenN_cons in Hu; lia)).
      destruct (retain_newest_row _ _ _) as [[raws total] []]; [|done]. destruct H as (-> & -> & -> & Hf').
      assert (1 <= o)%N as Ho1.
      { unfold o. destruct (split_inclusive (p ++ [nl])) eqn:E; [|rewrite lenN_cons; lia].
        apply (f_equal (@concat N)) in E. rewrite split_inclusive_concat in E. by destruct p. }
      unfold checked_sub. destruct (N.leb_spec 1 o); [|lia].
      assert (Some [nl] = reverse <$> keep [nl]) as -> by done. change 1%N with (lenN [nl]) at 1.
      rewrite <- (IH [nl] (es ++ [mkRow o (lenN p + 1) acc]) (o - 1)%N); [done| |done| |].
      * exists []. split; [by apply not_elem_of_nil|by right].
      * rewrite lenN_app. rewrite lenN_app, lenN_cons in Hu. change (lenN [nl]) with 1%N. lia.
      * intros _. fold o. lia.
    + rewrite <- app_assoc in Hu, Ho |- *. cbn [app] in Hu, Ho |- *.
      rewrite saturating_add_fits by (rewrite lenN_app, lenN_cons in Hu; lia).
      assert (lenN acc + 1 = lenN (b :: acc))%N as -> by (rewrite lenN_cons; lia).
      assert ((bytes ← reverse <$> keep acc; if (lenN (b :: acc) <=? MAX_BATCH_BYTES)%N then Some (bytes ++ [b]) else None)
              = reverse <$> keep (b :: acc)) as ->.
      { unfold keep. rewrite lenN_cons. destruct (N.leb_spec (lenN acc) MAX_BATCH_BYTES).
        - simpl. destruct (_ <=? _)%N; [|done]. simpl. by rewrite reverse_cons.
        - destruct (N.leb_spec (1 + lenN acc) MAX_BATCH_BYTES); [lia|done]. }
      apply (IH (b :: acc)); [|done|done|done].
      apply andb_false_iff in Eb as [Eb%N.eqb_neq|Eb].
      * destruct Ha as (x & Hx & Ha). exists (b :: x). split; [set_solver|]. by destruct Ha as [-> | ->]; [left|right].
      * destruct acc; [|done]. destruct (N.eq_dec b nl) as [->|].
        -- exists []. split; [by apply not_elem_of_nil|by right].
        -- exists [b]. split; [set_solver|by left].
Qed.

(** ** Finishing a batch *)

Section Batches.
Context {EC : EntryCodec}.

(** The batch made of rows, newest first *)
Definition batch_result (rs : list Row) (rev : HistoryFileRevision) : HistoryBatch :=
  mkBatch ((fun r => mkBatchEntry (row_number r) (try_parse_entry (row_text r))) <$> rs)
    (r ← last rs;
     e ← checked_sub (row_number r) 1;
     Some (mkCursor e ((fun _ => mkAnchor (row_start r) rev) <$> rev_modified rev))).

(** The row stands in the file where it says. *)
Definition located (c : list N) (r : Row) : Prop := row_text r = takeN (lenN (row_text r)) (dropN (row_start r) c).

Lemma number_rows_located i p rows :
  Forall (located (p ++ concat rows)) (number_rows i (lenN p) rows).
Proof.
  revert i p. induction rows as [|x rows IH]; intros i p; simpl; constructor.
  - unfold located, takeN, dropN, lenN. simpl. rewrite !Nat2N.id, drop_app_length, take_app_length. done.
  - specialize (IH (i + 1)%N (p ++ x)). rewrite lenN_app in IH. by rewrite <- app_assoc in IH.
Qed.

Lemma rows_of_located c : Forall (located c) (rows_of c).
Proof.
  pose proof (number_rows_located 0 [] (split_inclusive c)) as H. by rewrite split_inclusive_concat in H.
Qed.

Definition materialized (r : Row) : RawHistoryBatchEntry :=
  mkRaw (row_number r) (row_start r) (lenN (row_text r)) (Some (row_text r)).

Lemma materialize_Ok rs f f' raws :
  Forall (located (contents f)) rs -> materialize (raw_of <$> rs) f = (f', Ok raws) ->
  same_file f f' /\ raws = materialized <$> rs.
Proof.
  intros Hl. revert f raws Hl. induction rs as [|r rs IH]; intros f raws Hl; cbn [fmap list_fmap materialize].
  { intros [= <- <-]. done. }
  apply Forall_cons in Hl as [Hr Hl]. intros (g & e & He & H)%io_bind_Ok.
  assert (same_file f g /\ e = materialized r) as [Hs ->].
  { unfold raw_of in He. cbn [bytes byte_position byte_len raw_offset] in He. unfold materialized.
    destruct (lenN (row_text r) <=? MAX_BATCH_BYTES)%N.
    - by injection He as <- <-.
    - apply io_bind_Ok in He as (g1 & u & Hseek & He). apply io_bind_Ok in He as (g2 & bs & Hread & He).
      injection He as <- <-. destruct (read_at_Ok _ _ _ _ _ _ _ Hseek Hread) as [Hs ->]. by rewrite <- Hr. }
  apply io_bind_Ok in H as (g2 & raws' & H & E). injection E as <- <-.
  apply IH in H as [Hs' ->]; [split; [by etrans|done]|]. by destruct Hs as (-> & _).
Qed.

Lemma finish_batch_spec rs rev : finish_batch (materialized <$> rs) rev = Ok (batch_result rs rev).
Proof.
  unfold finish_batch, batch_result.
  assert (try_map (fun raw => bytes ← ok_or (bytes raw) NotMaterialized;
            Ok (mkBatchEntry (raw_offset raw) (try_parse_entry bytes))) (materialized <$> rs) =
          Ok ((fun r => mkBatchEntry (row_number r) (try_parse_entry (row_text r))) <$> rs)) as ->.
  { apply try_map_Ok, Forall2_fmap, Forall_Forall2_diag, Forall_true. done. }
  simpl. rewrite fmap_last. by destruct (last rs).
Qed.

Lemma finish_materialized_Ok rs rev f f' b :
  Forall (located (contents f)) rs -> finish_materialized_batch (raw_of <$> rs) rev f = (f', Ok b) ->
  same_file f f' /\ b = batch_result rs rev.
Proof.
  intros Hl. unfold finish_materialized_batch. intros (g & raws & [Hs ->]%materialize_Ok & H)%io_bind_Ok; [|done].
  unfold act in H. rewrite finish_batch_spec in H. by injection H as <- <-.
Qed.

(** The rows up to a number, newest first *)
Definition rows_upto (c : list N) (e : N) : list Row := reverse (take (S (N.to_nat e)) (rows_of c)).

Lemma located_batch c e : Forall (located c) (batch_rows (rows_upto c e)).
Proof.
  destruct (batch_rows_prefix (rows_upto c e)) as [rest E].
  assert (Forall (located c) (rows_upto c e)) as H.
  { apply Forall_reverse, Forall_take, rows_of_located. }
  rewrite E in H. by apply Forall_app in H as [H _].
Qed.

Lemma scan_forward_Ok e rev f f' b :
  position f = 0%N -> (lenN (contents f) <= usize_max)%N ->
  scan_batch_forward e rev f = (f', Ok b) ->
  same_file f f' /\ b = batch_result (batch_rows (rows_upto (contents f) e)) rev.
Proof.
  intros Hp Hu. unfold scan_batch_forward. intros (g & suffix & Hr & H)%io_bind_Ok.
  assert (rest_of f = contents f) as Er by (unfold rest_of; by rewrite Hp).
  apply (read_rows_Ok _ _ _ _ []) in Hr as [Hs ->]; [|rewrite Er; simpl; lia|by rewrite Er].
  cbn [app] in H. rewrite Er, app_nil_r in H. fold (rows_of (contents f)) in H. fold (rows_upto (contents f) e) in H.
  rewrite <- fmap_reverse, reverse_involutive in H.
  apply finish_materialized_Ok in H as [Hs' ->]; [split; [by etrans|done]|].
  destruct Hs as (-> & _). apply located_batch.
Qed.

(** ** Cursors *)

Lemma take_number_rows n i start rows : take n (number_rows i start rows) = number_rows i start (take n rows).
Proof. revert n i start. induction rows as [|x rows IH]; intros [|n] i start; simpl; try done. by rewrite IH. Qed.

Lemma drop_number_rows n i start rows :
  n <= length rows ->
  drop n (number_rows i start rows) =
  number_rows (i + N.of_nat n) (start + lenN (concat (take n rows))) (drop n rows).
Proof.
  revert n i start. induction rows as [|x rows IH]; intros [|n] i start Hn; cbn [drop take number_rows concat].
  - done.
  - simpl in Hn. lia.
  - unfold lenN. simpl. by rewrite !N.add_0_r.
  - simpl in Hn. rewrite IH by lia. rewrite lenN_app. f_equal; lia.
Qed.

Lemma length_number_rows i start rows : length (number_rows i start rows) = length rows.
Proof. revert i start. induction rows as [|x rows IH]; intros i start; simpl; [done|]. by rewrite IH. Qed.

(** Where the rows up to a number end *)
Definition end_of_rows (c : list N) (e : N) : N := lenN (concat (take (S (N.to_nat e)) (split_inclusive c))).

(** An anchor stands behind the rows still to come, and a newer row follows. *)
Definition valid_cursor (c : list N) (cur : HistoryBatchCursor) : Prop :=
  match byte_anchor cur with
  | None => True
  | Some a => anchor_position a = end_of_rows c (end_offset cur) /\
      S (N.to_nat (end_offset cur)) < length (split_inclusive c)
  end.

Lemma rows_upto_alt c e : rows_upto c e = reverse (number_rows 0 0 (take (S (N.to_nat e)) (split_inclusive c))).
Proof. unfold rows_upto, rows_of. by rewrite take_number_rows. Qed.

(** What a batch leaves is again the rows up to a number. *)
Lemma rows_upto_rest c e B rest :
  rows_upto c e = B ++ rest -> B <> [] ->
  exists x, last B = Some (mkRow (lenN rest) (lenN (concat (take (length rest) (split_inclusive c)))) x) /\
    length rest <= N.to_nat e /\ length rest < length (split_inclusive c) /\
    (rest <> [] -> rest = rows_upto c (lenN rest - 1)).
Proof.
  rewrite rows_upto_alt. intros E Hne. apply (f_equal reverse) in E. rewrite reverse_involutive, reverse_app in E.
  set (rows := split_inclusive c) in *. set (n := S (N.to_nat e)) in *.
  assert (length rest < length (take n rows)) as Hlt.
  { apply (f_equal length) in E. rewrite length_number_rows, length_app, !length_reverse in E.
    destruct B; [done|]. simpl in E. lia. }
  rewrite length_take in Hlt.
  pose proof (f_equal (take (length rest)) E) as Et. pose proof (f_equal (drop (length rest)) E) as Ed.
  rewrite take_app_length' in Et by by rewrite length_reverse. rewrite drop_app_length' in Ed by by rewrite length_reverse.
  rewrite take_number_rows, take_take in Et. rewrite drop_number_rows in Ed by (rewrite length_take; lia).
  rewrite take_take in Ed. replace (length rest `min` n) with (length rest) in Et, Ed by lia.
  destruct (drop (length rest) (take n rows)) as [|x l] eqn:Ex.
  { apply (f_equal length) in Ex. rewrite length_drop, length_take in Ex. cbn [length] in Ex. lia. }
  exists x. split_and!.
  - apply (f_equal reverse) in Ed. rewrite reverse_involutive in Ed. rewrite <- Ed. cbn [number_rows].
    by rewrite reverse_cons, last_snoc.
  - lia.
  - lia.
  - intros Hr. rewrite rows_upto_alt. fold rows. replace (S (N.to_nat (lenN rest - 1))) with (length rest).
    + rewrite Et. by rewrite reverse_involutive.
    + unfold lenN. destruct rest; [done|]. cbn [length]. lia.
Qed.

Lemma take_concat {A} n (l : list (list A)) : take (length (concat (take n l))) (concat l) = concat (take n l).
Proof. rewrite <- (take_drop n l) at 2. by rewrite concat_app, take_app_length. Qed.

Lemma split_inclusive_ne c : [] ∉ split_inclusive c.
Proof.
  destruct (split_inclusive_pieces c) as (init & tail & -> & Hi & Ht). rewrite elem_of_app. intros [H|H].
  - rewrite Forall_forall in Hi. destruct (Hi _ H) as (k & E & _). by destruct k.
  - destruct Ht as [->|(l & -> & Hl & _)]; set_solver.
Qed.

(** The rows before a newer one are whole. *)
Lemma terminated_take n c : n < length (split_inclusive c) -> Forall terminated (take n (split_inclusive c)).
Proof.
  destruct (split_inclusive_pieces c) as (init & tail & -> & Hi & Ht). rewrite length_app. intros Hn.
  assert (n <= length init) as Hle by (destruct Ht as [->|(l & -> & _)]; simpl in Hn; lia).
  rewrite take_app_le by done. by apply Forall_take.
Qed.

Lemma split_terminated rows t : Forall terminated rows -> split_inclusive (concat rows ++ t) = rows ++ split_inclusive t.
Proof.
  induction 1 as [|r rows (k & -> & Hk) _ IH]; [done|]. cbn [concat]. rewrite <- !app_assoc. cbn [app].
  rewrite split_inclusive_line by done. by rewrite IH.
Qed.

(** Appending to the file leaves the rows before the last alone. *)
Lemma take_rows_grow n c extra :
  n < length (split_inclusive c) -> take n (split_inclusive (c ++ extra)) = take n (split_inclusive c) /\
    n < length (split_inclusive (c ++ extra)).
Proof.
  intros Hn. pose proof (terminated_take n c Hn) as Ht. set (rows := split_inclusive c) in *.
  assert (c ++ extra = concat (take n rows) ++ (concat (drop n rows) ++ extra)) as E.
  { rewrite app_assoc, <- concat_app, take_drop. unfold rows. by rewrite split_inclusive_concat. }
  rewrite E, split_terminated by done. rewrite take_app_length' by (rewrite length_take; lia). split; [done|].
  rewrite length_app, length_take. destruct (split_inclusive (concat (drop n rows) ++ extra)) eqn:Es; [|simpl; lia].
  apply (f_equal (@concat N)) in Es. rewrite split_inclusive_concat in Es. apply app_nil in Es as [Es _].
  destruct (drop n rows) as [|x l] eqn:Ed; [apply (f_equal length) in Ed; rewrite length_drop in Ed; simpl in Ed; lia|].
  exfalso. cbn [concat] in Es. apply app_nil in Es as [-> _].
  assert ([] ∈ rows) as Hin. { rewrite <- (take_drop n rows), Ed. set_solver. }
  by apply split_inclusive_ne in Hin.
Qed.

Lemma rows_upto_grow c e extra :
  S (N.to_nat e) < length (split_inclusive c) -> rows_upto (c ++ extra) e = rows_upto c e.
Proof. intros H. rewrite !rows_upto_alt. by destruct (take_rows_grow _ _ extra H) as [-> _]. Qed.

Lemma valid_cursor_grow c cur extra : valid_cursor c cur -> valid_cursor (c ++ extra) cur.
Proof.
  unfold valid_cursor, end_of_rows. destruct (byte_anchor cur) as [a|]; [|done]. intros [-> H].
  by destruct (take_rows_grow _ _ extra H) as [-> ?].
Qed.

(** ** Both scans agree *)

Lemma takeN_end_of_rows c e : takeN (end_of_rows c e) c = concat (take (S (N.to_nat e)) (split_inclusive c)).
Proof.
  unfold takeN, end_of_rows, lenN. rewrite Nat2N.id. rewrite <- (split_inclusive_concat c) at 2. apply take_concat.
Qed.

Lemma end_of_rows_le c e : (end_of_rows c e <= lenN c)%N.
Proof.
  assert (end_of_rows c e = lenN (takeN (end_of_rows c e) c)) as -> by (by rewrite takeN_end_of_rows). rewrite lenN_takeN. lia.
Qed.

Lemma backward_rows c e :
  S (N.to_nat e) < length (split_inclusive c) -> (lenN c <= usize_max)%N ->
  settle_rows (scan_bytes (reverse (takeN (end_of_rows c e) c)) (end_of_rows c e) (mkBackward [] 0 (Some []) 0 e)) =
  raw_of <$> batch_rows (rows_upto c e).
Proof.
  intros Hn Hu. pose proof (end_of_rows_le c e) as Hle. rewrite takeN_end_of_rows. unfold end_of_rows in *.
  rewrite rows_upto_alt. set (rows := take (S (N.to_nat e)) (split_inclusive c)) in *.
  assert (split_inclusive (concat rows) = rows) as Es.
  { pose proof (split_terminated rows []) as E. rewrite !app_nil_r in E. by apply E, terminated_take. }
  change (mkBackward [] 0 (Some []) 0 e) with (backward [] [] e).
  pose proof (scan_bytes_rows (concat rows) [] [] e) as Hb. rewrite !app_nil_r, Es in Hb.
  rewrite <- feed_batch. apply Hb.
  - exists []. split; [by apply not_elem_of_nil|by left].
  - split; simpl; lia.
  - lia.
  - intros _. unfold lenN. unfold rows. rewrite length_take. lia.
Qed.

Lemma scan_backward_Ok e rev f f' b :
  S (N.to_nat e) < length (split_inclusive (contents f)) -> (lenN (contents f) <= usize_max)%N ->
  scan_batch_backward e (end_of_rows (contents f) e) rev f = (f', Ok b) ->
  same_file f f' /\ b = batch_result (batch_rows (rows_upto (contents f) e)) rev.
Proof.
  intros Hn Hu. unfold scan_batch_backward. intros (g & r & Hr & H)%io_bind_Ok.
  apply scan_chunks_Ok in Hr as [Hs ->]; [|apply end_of_rows_le|lia].
  pose proof (backward_rows (contents f) e Hn Hu) as Hb.
  assert (finish_materialized_batch (raw_of <$> batch_rows (rows_upto (contents f) e)) rev g = (f', Ok b)) as H'.
  { rewrite <- Hb. destruct (scan_bytes _ _ _); exact H. }
  apply finish_materialized_Ok in H' as [Hs' ->]; [split; [by etrans|done]|].
  destruct Hs as (-> & _). apply located_batch.
Qed.

(** The entries of rows *)
Definition entry_of (r : Row) : HistoryBatchEntry := mkBatchEntry (row_number r) (try_parse_entry (row_text r)).

(** What a batch is: the newest rows up to the requested one that fit, and a
    cursor for the others if there are any *)
Record exact_batch (c : list N) (cur : HistoryBatchCursor) (b : HistoryBatch) : Prop := {
  eb_entries : entries b = entry_of <$> batch_rows (rows_upto c (end_offset cur));
  eb_next :
    match next_older_cursor b with
    | None => rows_upto c (end_offset cur) = batch_rows (rows_upto c (end_offset cur))
    | Some next => valid_cursor c next /\ (end_offset next < end_offset cur)%N /\
        rows_upto c (end_offset cur) = batch_rows (rows_upto c (end_offset cur)) ++ rows_upto c (end_offset next) /\
        S (N.to_nat (end_offset next)) < length (split_inclusive c)
    end;
}.

Lemma batch_result_exact c cur rev : exact_batch c cur (batch_result (batch_rows (rows_upto c (end_offset cur))) rev).
Proof.
  split; [done|]. set (rows := rows_upto c (end_offset cur)). cbn [batch_result next_older_cursor].
  destruct (batch_rows_prefix rows) as [rest E]. destruct (decide (rows = [])) as [->|Hne]; [done|].
  destruct (rows_upto_rest c (end_offset cur) (batch_rows rows) rest E (batch_rows_ne _ Hne)) as (x & -> & Hle & Hlt & Hr).
  simpl. unfold checked_sub. destruct (N.leb_spec 1 (lenN rest)) as [H1|H1]; simpl.
  - assert (rest <> []) as Hrn by (by intros ->). specialize (Hr Hrn). unfold lenN in H1.
    assert (S (N.to_nat (lenN rest - 1)) = length rest) as Es by (unfold lenN; lia).
    split_and!; [| |by rewrite <- Hr|rewrite Es; lia].
    + unfold valid_cursor. simpl. destruct (rev_modified rev); [|done]. simpl. unfold end_of_rows. by rewrite Es.
    + unfold lenN. lia.
  - destruct rest as [|r rest]; [by rewrite app_nil_r in E|]. rewrite lenN_cons in H1. lia.
Qed.

Lemma exact_batch_drop_anchor c cur b :
  exact_batch c cur b -> exact_batch c cur (mkBatch (entries b) (drop_anchor <$> next_older_cursor b)).
Proof. intros [He Hn]. split; [done|]. destruct (next_older_cursor b) as [next|]; simpl in *; [|done]. naive_solver. Qed.

Lemma scan_batch_Ok cur config f f' b :
  valid_cursor (contents f) cur -> (lenN (contents f) <= usize_max)%N ->
  scan_batch cur config f = (f', Ok b) -> same_file f f' /\ exact_batch (contents f) cur b.
Proof.
  intros Hv Hu. unfold scan_batch. intros (g & k & [Hs _]%step_Ok & H)%io_bind_Ok.
  apply io_bind_Ok in H as (g' & rev & Hrev & H). injection Hrev as <- <-.
  assert (contents g = contents f) as Ec by apply Hs. cbv zeta in H.
  set (forward := _ ← seek 0; _) in H.
  assert (forward g = (f', Ok b) -> same_file f f' /\ exact_batch (contents f) cur b) as Hfw.
  { clear H. unfold forward. intros (g1 & u & [Hs1 Hp]%seek_Ok & H)%io_bind_Ok.
    apply io_bind_Ok in H as (g2 & b2 & Hf & H). assert (contents g1 = contents f) as Ec1 by (destruct Hs1 as (-> & _); done).
    apply scan_forward_Ok in Hf as [Hs2 ->]; [|done|by rewrite Ec1]. injection H as <- <-.
    split; [do 2 (etrans; [done|])|]; [done|]. rewrite Ec1.
    pose proof (batch_result_exact (contents f) cur (file_revision g)) as Hx.
    destruct (bool_decide _); [done|exact (exact_batch_drop_anchor _ _ _ Hx)]. }
  unfold valid_cursor in Hv. destruct (byte_anchor cur) as [a|]; [|by apply Hfw].
  destruct (_ && _); [|by apply Hfw]. destruct Hv as [Hp Hn]. rewrite Hp, <- Ec in H.
  apply scan_backward_Ok in H as [Hs2 ->]; [|by rewrite Ec..]. rewrite Ec. split; [by etrans|apply batch_result_exact].
Qed.

(** ** Without faults the scans end well *)

Definition flawless (f : File) : Prop := Forall is_Some (script f).
Definition runs {A} (c : io A) (f : File) : Prop := exists f' a, c f = (f', Ok a) /\ flawless f'.

Lemma runs_ret {A} (a : A) f : flawless f -> runs (mret a) f.
Proof. intros H. by exists f, a. Qed.

Lemma runs_bind {A B} (c : io A) (k : A -> io B) f :
  runs c f -> (forall g a, c f = (g, Ok a) -> flawless g -> runs (k a) g) -> runs (x ← c; k x) f.
Proof.
  intros (g & a & E & Hg) H. destruct (H g a E Hg) as (f' & b & Eb & Hf'). exists f', b. split; [|done].
  unfold mbind, io_bind. by rewrite E.
Qed.

Lemma step_runs f : flawless f -> runs step f.
Proof.
  intros H. unfold runs, step, flawless in *. destruct (script f) as [|o s] eqn:E; [exists f, None; by rewrite E|].
  apply Forall_cons in H as [[k ->] H]. by eexists _, _.
Qed.

Lemma act_runs {A} (c : File -> File * result IoFault A) f f' a : c f = (f', Ok a) -> flawless f' -> runs (act c) f.
Proof. intros. by exists f', a. Qed.

Lemma seek_runs p f : flawless f -> runs (seek p) f.
Proof. intros H. apply runs_bind; [by apply step_runs|]. intros g k _ Hg. by eapply act_runs. Qed.

Lemma read_runs n f : flawless f -> runs (read n) f.
Proof. intros H. apply runs_bind; [by apply step_runs|]. intros g k _ Hg. by eapply act_runs. Qed.

Lemma read_exact_runs n f : flawless f -> (n <= lenN (rest_of f))%N -> runs (read_exact n) f.
Proof.
  intros H Hn. apply runs_bind; [by apply step_runs|]. intros g k [Hs Hp]%step_Ok Hg.
  assert (rest_of g = rest_of f) as E by (unfold rest_of; destruct Hs as (-> & _); by rewrite Hp).
  unfold runs, act. cbv zeta. change (dropN (position g) (contents g)) with (rest_of g).
  rewrite lenN_takeN, E. destruct (N.ltb_spec (N.min n (lenN (rest_of f))) n); [lia|]. by eexists _, _.
Qed.

Lemma read_at_runs {A} p n f (k : list N -> io A) :
  flawless f -> (p + n <= lenN (contents f))%N ->
  (forall g, same_file f g -> flawless g -> runs (k (takeN n (dropN p (contents f)))) g) ->
  runs (_ ← seek p; bs ← read_exact n; k bs) f.
Proof.
  intros Hf Hn Hk. apply runs_bind; [by apply seek_runs|]. intros g u Hseek Hg. pose proof Hseek as [Hs Hp]%seek_Ok.
  apply runs_bind; [apply read_exact_runs; [done|]; unfold rest_of; destruct Hs as (-> & _); rewrite Hp, lenN_dropN; lia|].
  intros g' bs Hread Hg'. destruct (read_at_Ok _ _ _ _ _ _ _ Hseek Hread) as [Hs' ->]. by apply Hk.
Qed.

Lemma fill_buf_runs buf f : flawless f -> runs (fill_buf buf) f.
Proof. intros H. unfold fill_buf. destruct (is_empty buf); [by apply read_runs|by apply runs_ret]. Qed.

Lemma read_piece_runs {S} (absorb : S -> list N -> S) fuel s buf f : flawless f -> runs (read_piece absorb fuel s buf) f.
Proof.
  revert s buf f. induction fuel as [|fuel IH]; intros s buf f H; cbn [read_piece]; [by apply runs_ret|].
  apply runs_bind; [by apply fill_buf_runs|]. intros g buf' _ Hg. destruct (is_empty buf'); [by apply runs_ret|]. cbv zeta.
  destruct (find_byte nl buf'); [by apply runs_ret|by apply IH].
Qed.

Lemma read_rows_runs count fuel i start suffix total buf f :
  flawless f -> runs (read_rows count fuel i start suffix total buf) f.
Proof.
  revert i start suffix total buf f. induction count as [|count IH]; intros i start suffix total buf f H; cbn [read_rows].
  { by apply runs_ret. }
  apply runs_bind; [by apply read_piece_runs|]. intros g [[len row] buf'] _ Hg.
  destruct (len =? 0)%N; [by apply runs_ret|]. destruct (retain_row _ _ _). by apply IH.
Qed.

Lemma located_fits c r : located c r -> row_text r <> [] -> (row_start r + lenN (row_text r) <= lenN c)%N.
Proof. unfold located. intros H Hne. apply (f_equal lenN) in H. rewrite lenN_takeN, lenN_dropN in H. destruct (row_text r); [done|]. rewrite lenN_cons in *. lia. Qed.

Lemma materialize_runs rs f : Forall (located (contents f)) rs -> flawless f -> runs (materialize (raw_of <$> rs)) f.
Proof.
  revert f. induction rs as [|r rs IH]; intros f Hl Hf; cbn [fmap list_fmap materialize]; [by apply runs_ret|].
  apply Forall_cons in Hl as [Hr Hl].
  assert (forall g a, same_file f g -> flawless g ->
            runs (raws ← materialize (raw_of <$> rs); mret (a :: raws)) g) as Hrest.
  { intros g a (Hc & _) Hg. apply runs_bind; [apply IH; [by rewrite Hc|done]|]. intros. by apply runs_ret. }
  unfold raw_of at 1 2 3 4 5. cbn [bytes byte_position byte_len raw_offset].
  destruct (N.leb_spec (lenN (row_text r)) MAX_BATCH_BYTES) as [H|H].
  - apply runs_bind; [by apply runs_ret|]. intros g a [= <- <-] Hg. by apply Hrest.
  - apply runs_bind.
    + apply read_at_runs; [done| |intros; by apply runs_ret]. apply located_fits; [done|]. intros E. rewrite E, lenN_nil in H. lia.
    + intros g a H' Hg. apply Hrest; [|done]. apply io_bind_Ok in H' as (g1 & u & Hseek & H').
      apply io_bind_Ok in H' as (g2 & bs & Hread & H'). injection H' as <- <-. by eapply read_at_Ok.
Qed.

Lemma finish_materialized_runs rs rev f :
  Forall (located (contents f)) rs -> flawless f -> runs (finish_materialized_batch (raw_of <$> rs) rev) f.
Proof.
  intros Hl Hf. apply runs_bind; [by apply materialize_runs|]. intros g raws [_ ->]%materialize_Ok Hg; [|done].
  eapply act_runs; [|exact Hg]. by rewrite finish_batch_spec.
Qed.

Lemma scan_chunks_runs fuel e s f : (e <= lenN (contents f))%N -> flawless f -> runs (scan_chunks fuel e s) f.
Proof.
  revert e s f. induction fuel as [|fuel IH]; intros e s f He Hf; cbn [scan_chunks]; [by apply runs_ret|].
  destruct (e =? 0)%N; [by apply runs_ret|]. cbv zeta. apply read_at_runs; [done|lia|]. intros g (Hc & _) Hg.
  destruct (scan_bytes _ _ _); [apply IH; [rewrite Hc; lia|done]|by apply runs_ret].
Qed.

Lemma scan_backward_runs e rev f :
  S (N.to_nat e) < length (split_inclusive (contents f)) -> (lenN (contents f) <= usize_max)%N -> flawless f ->
  runs (scan_batch_backward e (end_of_rows (contents f) e) rev) f.
Proof.
  intros Hn Hu Hf. unfold scan_batch_backward. pose proof (end_of_rows_le (contents f) e) as Hle.
  apply runs_bind; [by apply scan_chunks_runs|]. intros g r [Hs ->]%scan_chunks_Ok Hg; [|done|lia].
  assert (runs (finish_materialized_batch (raw_of <$> batch_rows (rows_upto (contents f) e)) rev) g) as H.
  { apply finish_materialized_runs; [|done]. destruct Hs as (-> & _). apply located_batch. }
  rewrite <- backward_rows in H by done. destruct (scan_bytes _ _ _); exact H.
Qed.

Lemma scan_forward_runs e rev f :
  position f = 0%N -> (lenN (contents f) <= usize_max)%N -> flawless f -> runs (scan_batch_forward e rev) f.
Proof.
  intros Hp Hu Hf. assert (rest_of f = contents f) as Er by (unfold rest_of; by rewrite Hp).
  unfold scan_batch_forward, runs. change (runs (suffix ← read_rows (S (N.to_nat e)) (S (length (contents f))) 0 0 [] 0 [];
    finish_materialized_batch (reverse suffix) rev) f).
  apply runs_bind; [by apply read_rows_runs|]. intros g suffix Hr Hg.
  apply (read_rows_Ok _ _ _ _ []) in Hr as [Hs ->]; [|rewrite Er; simpl; lia|by rewrite Er].
  cbn [app]. rewrite Er, app_nil_r. fold (rows_of (contents f)). fold (rows_upto (contents f) e).
  rewrite <- fmap_reverse, reverse_involutive. apply finish_materialized_runs; [|done].
  destruct Hs as (-> & _). apply located_batch.
Qed.

Lemma scan_batch_runs cur config f :
  valid_cursor (contents f) cur -> (lenN (contents f) <= usize_max)%N -> flawless f -> runs (scan_batch cur config) f.
Proof.
  intros Hv Hu Hf. apply runs_bind; [by apply step_runs|]. intros g k [Hs _]%step_Ok Hg.
  assert (contents g = contents f) as Ec by apply Hs.
  apply runs_bind; [by eapply act_runs|]. intros g' rev [= <- <-] _. cbv zeta.
  set (forward := _ ← seek 0; _).
  assert (runs forward g) as Hfw.
  { apply runs_bind; [by apply seek_runs|]. intros g1 u [Hs1 Hp]%seek_Ok Hg1.
    apply runs_bind; [|intros; by apply runs_ret]. apply scan_forward_runs; [done| |done]. by destruct Hs1 as (-> & _); rewrite Ec. }
  unfold valid_cursor in Hv. destruct (byte_anchor cur) as [a|]; [|done]. destruct (_ && _); [|done].
  destruct Hv as [-> Hn]. rewrite <- Ec. by apply scan_backward_runs; rewrite ?Ec.
Qed.

(** ** Claims *)

(** C17: a batch holds exactly the newest rows up to the requested one that fit
    128 rows and 64 KiB (the newest alone if it is larger), newest first, with
    their line numbers and what they parse to, however the reads are cut, and
    whether it was scanned forwards or backwards from an anchor; its cursor leads
    to exactly the rows it left out. Without a fault of the file the lookup
    succeeds. *)
Theorem batch_exact (cur : HistoryBatchCursor) (config : HistoryConfig) (f : File) :
  valid_cursor (contents f) cur -> (lenN (contents f) <= usize_max)%N ->
  (forall f' b, scan_batch cur config f = (f', Ok b) -> contents f' = contents f /\ exact_batch (contents f) cur b) /\
  (flawless f -> exists f' b, scan_batch cur config f = (f', Ok b)).
Proof.
  intros Hv Hu. split.
  - intros f' b [(Hc & _) Hb]%scan_batch_Ok; done.
  - intros Hf. destruct (scan_batch_runs cur config f Hv Hu Hf) as (f' & b & E & _). eauto.
Qed.

(** Following the cursors from one batch to the next, while the file grows *)
Inductive paging (config : HistoryConfig) : list N -> HistoryBatchCursor -> list HistoryBatchEntry -> Prop :=
| page_last f f' cur b :
    (lenN (contents f) <= usize_max)%N -> scan_batch cur config f = (f', Ok b) -> next_older_cursor b = None ->
    paging config (contents f) cur (entries b)
| page_more f f' cur b next extra es :
    (lenN (contents f) <= usize_max)%N -> scan_batch cur config f = (f', Ok b) -> next_older_cursor b = Some next ->
    paging config (contents f ++ extra) next es -> paging config (contents f) cur (entries b ++ es).

Lemma paging_sound config c cur es :
  paging config c cur es -> valid_cursor c cur -> es = entry_of <$> rows_upto c (end_offset cur).
Proof.
  induction 1 as [f f' cur b Hu E Hn|f f' cur b next extra es Hu E Hn _ IH]; intros Hv;
    apply scan_batch_Ok in E as [_ [He Hx]]; try done; rewrite Hn in Hx.
  - by rewrite He, <- Hx.
  - destruct Hx as (Hv' & _ & Hr & Hl). rewrite He, IH, rows_upto_grow by (done || by apply valid_cursor_grow).
    by rewrite <- fmap_app, <- Hr.
Qed.

Lemma paging_total config c cur :
  (lenN c <= usize_max)%N -> valid_cursor c cur -> exists es, paging config c cur es.
Proof.
  intros Hu. remember (N.to_nat (end_offset cur)) as n eqn:En. revert cur En.
  induction (lt_wf n) as [n _ IH]; intros cur En Hv. set (f := mkFile c 0 [] None None).
  destruct (scan_batch_runs cur config f Hv Hu) as (f' & b & E & _); [by constructor|].
  pose proof E as [_ [_ Hx]]%scan_batch_Ok; [|done|done]. destruct (next_older_cursor b) as [next|] eqn:Hn.
  - destruct Hx as (Hv' & Hlt & _). destruct (IH (N.to_nat (end_offset next))) with next as [es Hes]; [lia|done|done|].
    exists (entries b ++ es). apply (page_more config f f' cur b next [] es); try done. simpl. by rewrite app_nil_r.
  - exists (entries b). by apply (page_last config f f').
Qed.

(** C18: following the cursors of the batches from any line visits every line up to
    it exactly once, newest first, and ends, whatever is appended to the file
    meanwhile and wherever the scans change direction. *)
Theorem paging_visits_all (config : HistoryConfig) (c : list N) (e : N) :
  (lenN c <= usize_max)%N ->
  (exists es, paging config c (new_cursor e) es) /\
  (forall es, paging config c (new_cursor e) es ->
     reverse es = entry_of <$> take (S (N.to_nat e)) (rows_of c)).
Proof.
  intros Hu. split; [by apply paging_total|]. intros es H. apply paging_sound in H as ->; [|done].
  rewrite <- fmap_reverse. unfold rows_upto. by rewrite reverse_involutive.
Qed.

End Batches.
