(* ===== verification/PromptTrim.v ===== *)
(** * Appending to and trimming the prompt history

    An append that succeeds leaves its record as the last line of the file, after
    whole lines of what was there; the file is trimmed exactly as far as its limit
    asks; the record is what lookups find, singly and in batches. *)

From S2P Require Import Prelude RustStr PromptHistory PromptBatch.
From Stdlib Require Import ZifyBool.

#[local] Opaque HISTORY_READ_BUFFER_SIZE.

(** ** Reading and writing whole files *)

Lemma read_to_end_Ok fuel f f' bs :
  length (rest_of f) < fuel -> read_to_end fuel f = (f', Ok bs) -> same_file f f' /\ bs = rest_of f.
Proof.
  revert f bs. induction fuel as [|fuel IH]; intros f bs Hf; [lia|]. cbn [read_to_end].
  intros (g & b & (Hs & E & He)%read_Ok & H)%io_bind_Ok; [|exact buffer_pos].
  destruct b as [|x b].
  { injection H as <- <-. rewrite E, He by done. done. }
  change (is_empty (x :: b)) with false in H. cbv iota in H. apply io_bind_Ok in H as (g' & rest & H & Hr).
  injection Hr as <- <-. apply IH in H as [Hs' ->]; [split; [by etrans|by rewrite E]|].
  rewrite E, length_app in Hf. simpl in Hf. lia.
Qed.

(** The contents change, the identity does not. *)
Definition same_identity (f f' : File) : Prop := identity f' = identity f.

Lemma write_all_Ok fuel data f f' u :
  length data <= fuel -> write_all fuel data f = (f', Ok u) ->
  contents f' = contents f ++ data /\ identity f' = identity f.
Proof.
  revert data f. induction fuel as [|fuel IH]; intros data f Hf; cbn [write_all].
  { intros [= <- <-]. destruct data; [by rewrite app_nil_r|simpl in Hf; lia]. }
  destruct data as [|x data]; [intros [= <- <-]; by rewrite app_nil_r|]. set (d := x :: data) in *.
  change (is_empty d) with false. cbv iota. intros (g & n & Hw & H)%io_bind_Ok.
  unfold write in Hw. apply io_bind_Ok in Hw as (g1 & k & [Hs _]%step_Ok & Hw). unfold act in Hw. cbv zeta in Hw.
  injection Hw as <- En. assert (1 <= n)%N as Hn.
  { rewrite <- En. assert (1 <= lenN d)%N by (unfold d; rewrite lenN_cons; lia). destruct k; lia. }
  apply IH in H as [Hc Hi].
  - rewrite Hc, Hi. cbn [contents identity with_file]. destruct Hs as (-> & -> & _). split; [|done].
    rewrite En, <- app_assoc, takeN_dropN. done.
  - unfold dropN. rewrite length_drop. lia.
Qed.

Lemma set_len_Ok n f f' u : set_len n f = (f', Ok u) -> contents f' = takeN n (contents f) /\ identity f' = identity f.
Proof.
  unfold set_len. intros (g & k & [Hs _]%step_Ok & H)%io_bind_Ok. injection H as <-. cbn [contents identity with_file].
  by destruct Hs as (-> & -> & _).
Qed.

Lemma file_len_Ok f f' n : file_len f = (f', Ok n) -> same_file f f' /\ n = lenN (contents f).
Proof.
  unfold file_len. intros (g & k & [Hs _]%step_Ok & H)%io_bind_Ok. injection H as <- <-. split; [done|]. by destruct Hs as (-> & _).
Qed.

Definition is_text (line : list N) : Prop := is_ok (from_utf8 line) = true.

Lemma read_line_Ok fuel buf f f' line buf' :
  length (buf ++ rest_of f) < fuel -> (lenN (buf ++ rest_of f) <= usize_max)%N ->
  read_line fuel buf f = (f', Ok (line, buf')) ->
  same_file f f' /\ is_text line /\ buf ++ rest_of f = line ++ buf' ++ rest_of f' /\
  split_inclusive (buf ++ rest_of f) = match line with [] => [] | _ => line :: split_inclusive (buf' ++ rest_of f') end.
Proof.
  intros Hf Hu. unfold read_line. intros (g & [l b] & Hr & H)%io_bind_Ok.
  apply (read_piece_Ok app (fun s x => s = x) fuel [] []) in Hr as (Hs & x & -> & E & Es);
    [|by intros s y z -> _|done|by apply not_elem_of_nil|done|done].
  unfold is_text. destruct (from_utf8 x) eqn:Eu; [|done]. injection H as <- <- <-. rewrite Eu. done.
Qed.

Lemma read_line_lengths_Ok count fuel buf f f' lens :
  length (buf ++ rest_of f) < count -> length (buf ++ rest_of f) < fuel -> (lenN (buf ++ rest_of f) <= usize_max)%N ->
  read_line_lengths count fuel buf f = (f', Ok lens) ->
  same_file f f' /\ lens = lenN <$> split_inclusive (buf ++ rest_of f) /\ Forall is_text (split_inclusive (buf ++ rest_of f)).
Proof.
  revert buf f lens. induction count as [|count IH]; intros buf f lens Hc Hf Hu; [lia|]. cbn [read_line_lengths].
  intros (g & [line buf'] & (Hs & Ht & E & Es)%read_line_Ok & H)%io_bind_Ok; [|done|done]. rewrite Es.
  destruct line as [|x line]; [injection H as <- <-; done|]. set (l := x :: line) in *.
  change (is_empty l) with false in H. cbv iota in H. apply io_bind_Ok in H as (g' & lens' & H & Hr). injection Hr as <- <-.
  rewrite E in Hc, Hf, Hu. rewrite length_app in Hc, Hf. rewrite lenN_app in Hu. unfold l in Hc, Hf. simpl in Hc, Hf.
  apply IH in H as (Hs' & -> & Hft); [|lia..]. split_and!; [by etrans|done|by constructor].
Qed.

(** ** What trimming leaves *)

Definition bytes_in (rows : list (list N)) : N := lenN (concat rows).

(** The fewest oldest rows that must go, the newest staying *)
Definition trimmed (target : N) (rows kept : list (list N)) : Prop :=
  exists k, kept = drop k rows /\ k < length rows /\
    ((bytes_in kept <= target)%N \/ S k = length rows) /\
    forall j, j < k -> (target < bytes_in (drop j rows))%N.

Lemma drop_oldest_spec rows target d :
  rows <> [] ->
  exists k, drop_oldest (lenN <$> rows) (bytes_in rows) target d = (d + bytes_in (take k rows))%N /\
    k < length rows /\ ((bytes_in (drop k rows) <= target)%N \/ S k = length rows) /\
    forall j, j < k -> (target < bytes_in (drop j rows))%N.
Proof.
  revert d. induction rows as [|r rows IH]; intros d Hne; [done|]. cbn [fmap list_fmap drop_oldest].
  assert (bytes_in (r :: rows) = lenN r + bytes_in rows)%N as Eb by (unfold bytes_in; simpl; by rewrite lenN_app).
  destruct ((target <? bytes_in (r :: rows))%N && negb (is_empty (lenN <$> rows))) eqn:E.
  - apply andb_true_iff in E as [E1%N.ltb_lt E2]. destruct rows as [|r' rows]; [done|]. set (l := r' :: rows) in *.
    destruct (IH (d + lenN r)%N) as (k & Ek & Hk & Hfit & Hmin); [done|].
    exists (S k). replace (bytes_in (r :: l) - lenN r)%N with (bytes_in l) by lia.
    split_and!.
    + rewrite Ek. unfold bytes_in. cbn [take concat]. rewrite lenN_app. lia.
    + cbn [length]. lia.
    + cbn [drop]. destruct Hfit as [?|E']; [by left|right]. cbn [length]. lia.
    + intros [|j] Hj; [done|]. cbn [drop]. apply Hmin. lia.
  - exists 0. cbn [take drop]. split_and!; [unfold bytes_in; simpl; rewrite lenN_nil; lia|simpl; lia| |lia].
    apply andb_false_iff in E as [E|E]; [left; lia|right]. by destruct rows.
Qed.

Lemma bytes_in_take_drop k rows : (bytes_in (take k rows) + bytes_in (drop k rows) = bytes_in rows)%N.
Proof. unfold bytes_in. rewrite <- lenN_app, <- concat_app, take_drop. done. Qed.

Lemma drop_bytes_in k rows : dropN (bytes_in (take k rows)) (concat rows) = concat (drop k rows).
Proof.
  unfold bytes_in, dropN, lenN. rewrite Nat2N.id. rewrite <- (take_drop k rows) at 2. by rewrite concat_app, drop_app_length.
Qed.

(** The file after the limit was enforced *)
Definition limited (max_bytes : option N) (c c' : list N) : Prop :=
  match max_bytes with
  | None => c' = c
  | Some m =>
      if (m =? 0)%N || (lenN c <=? m)%N then c' = c
      else exists newest kept, last (split_inclusive c) = Some newest /\ c' = concat kept /\
        trimmed (trim_target_bytes m (lenN newest)) (split_inclusive c) kept
  end.

Lemma enforce_Ok max f f' u :
  (lenN (contents f) <= usize_max)%N -> enforce_history_limit max f = (f', Ok u) ->
  limited max (contents f) (contents f') /\ identity f' = identity f.
Proof.
  intros Hu. unfold enforce_history_limit, limited. destruct max as [m|]; [|by intros [= <- <-]].
  destruct (N.eqb_spec m 0) as [->|Hm]; [by intros [= <- <-]|]. cbn [orb].
  intros (g & n & [Hs ->]%file_len_Ok & H)%io_bind_Ok.
  destruct (N.leb_spec (lenN (contents f)) m) as [Hle|Hgt]; [injection H as <- <-; split; apply Hs|].
  apply io_bind_Ok in H as (g1 & k & [Hs1 _]%step_Ok & H). apply io_bind_Ok in H as (g2 & u2 & [Hs2 Hp]%seek_Ok & H).
  apply io_bind_Ok in H as (g3 & fuel & Hg & H). injection Hg as <- <-.
  assert (same_file f g2) as Hs02 by (do 2 (etrans; [done|]); done). destruct Hs02 as (Ec & Ei & _).
  apply io_bind_Ok in H as (g4 & lens & Hl & H).
  assert (rest_of g2 = contents f) as Er by (unfold rest_of; by rewrite Hp, Ec).
  apply read_line_lengths_Ok in Hl as (Hs4 & -> & _); [|rewrite Ec, Er; cbn [app]; lia..|by rewrite Er].
  cbn [app] in H. rewrite Er in H. set (c := contents f) in *. rewrite fmap_last in H.
  destruct (last (split_inclusive c)) as [newest|] eqn:El.
  2: { exfalso. apply last_None in El. pose proof (split_inclusive_concat c) as E. rewrite El in E. simpl in E. rewrite <- E, lenN_nil in Hgt. lia. }
  cbn [fmap option_fmap option_map] in H. cbv zeta in H.
  assert (lenN c = bytes_in (split_inclusive c)) as Eb by (unfold bytes_in; by rewrite split_inclusive_concat).
  destruct (drop_oldest_spec (split_inclusive c) (trim_target_bytes m (lenN newest)) 0) as (k' & Ek & Hk & Hfit & Hmin).
  { intros E. by rewrite E in El. }
  rewrite Eb, Ek, N.add_0_l in H. destruct Hs4 as (Ec4 & Ei4 & _).
  destruct (N.eqb_spec (bytes_in (take k' (split_inclusive c))) 0) as [E0|E0].
  - injection H as <- <-. split; [|congruence]. exists newest, (drop k' (split_inclusive c)). split; [done|]. split; [|by exists k'].
    rewrite <- drop_bytes_in, E0, split_inclusive_concat. change (dropN 0 c) with c. congruence.
  - apply io_bind_Ok in H as (g5 & u5 & [Hs5 Hp5]%seek_Ok & H). apply io_bind_Ok in H as (g6 & tail & Ht & H).
    assert (rest_of g5 = concat (drop k' (split_inclusive c))) as Er5.
    { unfold rest_of. destruct Hs5 as (-> & _). rewrite Hp5, Ec4, Ec. rewrite <- drop_bytes_in, split_inclusive_concat. done. }
    apply read_to_end_Ok in Ht as [Hs6 ->].
    2: { rewrite Er5, Ec. pose proof (bytes_in_take_drop k' (split_inclusive c)) as Hb. unfold bytes_in in *. rewrite split_inclusive_concat in *. unfold lenN in *. fold c. lia. }
    apply io_bind_Ok in H as (g7 & u7 & [Hc7 Hi7]%set_len_Ok & H). apply io_bind_Ok in H as (g8 & u8 & [Hs8 _]%seek_Ok & H).
    apply write_all_Ok in H as [Hc9 Hi9]; [|done]. destruct Hs8 as (Ec8 & Ei8 & _). destruct Hs5 as (_ & Ei5 & _), Hs6 as (_ & Ei6 & _).
    split; [|congruence]. exists newest, (drop k' (split_inclusive c)). split; [done|]. split; [|by exists k'].
    rewrite Hc9, Ec8, Hc7, Er5. done.
Qed.

(** The target is at least one byte and at most the limit, below 2^53. *)
Lemma as_f64_small n : (n < 2 ^ 53)%N -> as_f64 n = n.
Proof.
  intros H. unfold as_f64, round_bits. assert (N.size n <= 53)%N as Hs.
  { destruct (N.eq_dec n 0%N) as [->|Hn]; [done|]. rewrite N.size_log2 by done.
    assert (N.log2 n < 53)%N by (apply N.log2_lt_pow2; lia). lia. }
  replace (N.size n - 53)%N with 0%N by lia. cbv zeta. rewrite N.pow_0_r, N.div_1_r, N.mod_1_r, N.mul_1_r. done.
Qed.

Lemma soft_cap_bounds m : (0 < m < 2 ^ 53)%N -> (1 <= soft_cap_bytes m <= m)%N.
Proof.
  intros H. unfold soft_cap_bytes. cbv zeta. rewrite (as_f64_small m) by apply H.
  assert (m <= usize_max)%N as Hu. { transitivity (2 ^ 53)%N; [apply N.lt_le_incl, H|by vm_compute]. }
  generalize (round_bits (m * HISTORY_SOFT_CAP_RATIO) / 2 ^ 53)%N. intros p. lia.
Qed.

Lemma limited_length m c c' newest :
  (0 < m < 2 ^ 53)%N -> last (split_inclusive c) = Some newest -> limited (Some m) c c' ->
  (lenN c' <= N.max m (lenN newest))%N.
Proof.
  intros Hm El. unfold limited. destruct (N.eqb_spec m 0); [lia|]. cbn [orb].
  destruct (N.leb_spec (lenN c) m); [intros ->; lia|].
  intros (x & kept & Ex & -> & (k & -> & Hk & Hfit & _)). assert (x = newest) as -> by congruence.
  change (lenN (concat ?l)) with (bytes_in l) in *. unfold trim_target_bytes in Hfit.
  pose proof (soft_cap_bounds m Hm) as Hs. destruct Hfit as [Hfit|Hlast]; [lia|].
  apply last_Some in El as [init El]. rewrite El in Hlast |- *. rewrite length_app in Hlast. simpl in Hlast.
  rewrite drop_app_length' by lia. unfold bytes_in. simpl. rewrite app_nil_r. lia.
Qed.

(** ** Appending *)

(** The file ends where a line ends. *)
Definition complete (c : list N) : Prop := c = [] \/ exists x, c = x ++ [nl].

Lemma split_snoc_line c line : complete c -> nl ∉ line -> split_inclusive (c ++ line ++ [nl]) = split_inclusive c ++ [line ++ [nl]].
Proof.
  intros [->|[x ->]] Hl.
  - cbn [app]. apply (split_inclusive_line line []), Hl.
  - rewrite split_inclusive_app. f_equal. apply (split_inclusive_line line []), Hl.
Qed.

Lemma split_terminated_snoc rows line :
  Forall terminated rows -> nl ∉ line -> split_inclusive (concat rows ++ line ++ [nl]) = rows ++ [line ++ [nl]].
Proof. intros Hr Hl. rewrite split_terminated by done. f_equal. apply (split_inclusive_line line []), Hl. Qed.

Section Appends.
Context {EC : EntryCodec}.

(** What the records' JSON is used for: it is one line of text, does not end in a
    carriage return, and reads back. *)
Class EntryCodecLaws : Prop := {
  to_string_line e l : to_string e = Some l ->
    valid_str l /\ (nl ∉ as_bytes l) /\ last (as_bytes l) <> Some 13%N /\ from_slice (as_bytes l) = Some e;
}.
Context {EL : EntryCodecLaws}.

Lemma with_lock_Ok {A} retries attempts (c : io A) f f' a : with_lock retries attempts c f = (f', Ok a) -> c f = (f', Ok a).
Proof.
  revert attempts. induction retries as [|retries IH]; intros attempts; [done|]. cbn [with_lock].
  destruct attempts as [|[] attempts]; [done|done|apply IH|done].
Qed.

Lemma append_Ok text id config ts attempts f f' u :
  persistence config = SaveAll -> append_entry text id config (Some ts) attempts f = (f', Ok u) ->
  exists l, to_string (mkEntry id ts text) = Some l /\
    ((lenN (contents f ++ as_bytes l ++ [nl]) <= usize_max)%N ->
     limited (max_bytes config) (contents f ++ as_bytes l ++ [nl]) (contents f')).
Proof.
  unfold append_entry. intros ->. intros (g1 & k1 & [Hs1 _]%step_Ok & H)%io_bind_Ok.
  destruct (to_string (mkEntry id ts text)) as [l|]; [|done]. exists l. split; [done|]. cbv zeta in H.
  apply io_bind_Ok in H as (g2 & k2 & [Hs2 _]%step_Ok & H). apply io_bind_Ok in H as (g3 & k3 & [Hs3 _]%step_Ok & H).
  apply with_lock_Ok in H. apply io_bind_Ok in H as (g4 & k4 & [Hs4 _]%step_Ok & H).
  apply io_bind_Ok in H as (g5 & u5 & [Hc _]%write_all_Ok & H); [|done].
  assert (same_file f g4) as (Ec & _) by (do 3 (etrans; [done|]); done).
  rewrite as_bytes_app in Hc. change (as_bytes [nl]) with [nl] in Hc. rewrite Ec in Hc. rewrite <- Hc.
  intros Hu. by apply enforce_Ok in H as [Hl _].
Qed.

(** The rows after an append: whole old rows, then the new one *)
Lemma limited_rows max c line c' :
  complete c -> nl ∉ line -> limited max (c ++ line ++ [nl]) c' ->
  exists k, c' = concat (drop k (split_inclusive c)) ++ line ++ [nl] /\
    split_inclusive c' = drop k (split_inclusive c) ++ [line ++ [nl]].
Proof.
  intros Hc Hl. unfold limited. rewrite (split_snoc_line c line Hc Hl). rewrite last_snoc.
  assert (exists k, c ++ line ++ [nl] = concat (drop k (split_inclusive c)) ++ line ++ [nl] /\
            split_inclusive (c ++ line ++ [nl]) = drop k (split_inclusive c) ++ [line ++ [nl]]) as Hsame.
  { exists 0. rewrite drop_0. by rewrite split_inclusive_concat, (split_snoc_line c line Hc Hl). }
  destruct max as [m|]; [|by intros ->]. destruct (_ || _); [by intros ->|].
  intros (newest & kept & _ & -> & (k & -> & Hk & _)). exists k.
  rewrite length_app in Hk. simpl in Hk. rewrite drop_app_le by lia. rewrite concat_app. simpl. rewrite app_nil_r.
  split; [done|]. apply split_terminated_snoc; [|done].
  destruct Hc as [->|[x ->]]; [cbn [split_inclusive]; rewrite drop_nil; constructor|]. apply Forall_drop.
  pose proof (terminated_take (length (split_inclusive (x ++ [nl]))) ((x ++ [nl]) ++ [nl])) as Ht.
  rewrite split_inclusive_app, length_app in Ht. rewrite take_app_length in Ht. apply Ht. simpl. lia.
Qed.

Lemma strip_byte_snoc b l : strip_byte b (l ++ [b]) = l.
Proof. unfold strip_byte. by rewrite strip_suffix_app. Qed.

Lemma strip_byte_other b l : last l <> Some b -> strip_byte b l = l.
Proof.
  intros H. unfold strip_byte. destruct (strip_suffix [b] l) as [t|] eqn:E; [|done].
  apply strip_suffix_Some in E as ->. by rewrite last_snoc in H.
Qed.

Lemma parse_line e l : to_string e = Some l -> try_parse_entry (as_bytes l ++ [nl]) = Some e.
Proof.
  intros (_ & _ & Hcr & Hp)%to_string_line. unfold try_parse_entry. rewrite strip_byte_snoc.
  by rewrite strip_byte_other.
Qed.

Lemma fmap_head {A B} (h : A -> B) l : head (h <$> l) = h <$> head l.
Proof. by destruct l. Qed.

Lemma batch_rows_head rows : head (batch_rows rows) = head rows.
Proof.
  destruct rows as [|r rows]; [done|]. pose proof (batch_rows_ne (r :: rows) ltac:(done)) as Hne.
  destruct (batch_rows_prefix (r :: rows)) as [rest E]. destruct (batch_rows (r :: rows)); [done|]. by injection E as <-.
Qed.

(** The newest line is the first entry of a batch that starts there. *)
Lemma newest_first config c rows line g g' b :
  split_inclusive c = rows ++ [line] -> contents g = c -> (lenN c <= usize_max)%N ->
  scan_batch (new_cursor (lenN rows)) config g = (g', Ok b) ->
  head (entries b) = Some (mkBatchEntry (lenN rows) (try_parse_entry line)).
Proof.
  intros Es <- Hu [_ [-> _]]%scan_batch_Ok; [|done|done]. rewrite fmap_head, batch_rows_head, rows_upto_alt.
  cbn [new_cursor end_offset]. rewrite Es, take_ge by (rewrite length_app; unfold lenN; simpl; lia).
  rewrite number_rows_snoc, reverse_snoc. simpl. done.
Qed.


(** ** Single lookups *)

Definition chomped (line : list N) : list N :=
  match strip_suffix [nl] line with Some l => strip_byte 13%N l | None => line end.

Lemma nth_line_spec count fuel o buf f :
  length (buf ++ rest_of f) < count -> length (buf ++ rest_of f) < fuel -> (lenN (buf ++ rest_of f) <= usize_max)%N ->
  Forall is_text (split_inclusive (buf ++ rest_of f)) -> flawless f ->
  exists f', nth_line count fuel o buf f = (f', Ok (chomped <$> split_inclusive (buf ++ rest_of f) !! N.to_nat o)).
Proof.
  revert o buf f. induction count as [|count IH]; intros o buf f Hc Hf Hu Ht Hfl; [lia|]. cbn [nth_line].
  unfold read_line. destruct (read_piece_runs app fuel [] buf f Hfl) as (g & [line buf'] & Er & Hg).
  pose proof Er as Hr. apply (read_piece_Ok app (fun s x => s = x) fuel [] []) in Hr as (Hs & x & -> & E & Es);
    [|by intros s y z -> _|done|by apply not_elem_of_nil|done|done]. cbn [app] in E, Es. rewrite Es in Ht |- *.
  assert (is_text x) as Hx by (destruct x; [done|by inversion Ht]).
  unfold mbind, io_bind. rewrite Er. unfold is_text in Hx. destruct (from_utf8 x); [|done]. cbn [mret io_ret].
  destruct x as [|b x]; [simpl; by eexists|]. set (r := b :: x) in *. change (is_empty r) with false. cbv iota.
  destruct (N.eqb_spec o 0) as [->|Ho]; [by eexists|].
  rewrite E in Hc, Hf, Hu. rewrite length_app in Hc, Hf. rewrite lenN_app in Hu. unfold r in Hc, Hf. simpl in Hc, Hf.
  apply Forall_cons in Ht as [_ Ht]. destruct (IH (o - 1)%N buf' g) as [f' Ef]; [lia..|done|done|]. exists f'. rewrite Ef.
  do 3 f_equal. replace (N.to_nat o) with (S (N.to_nat (o - 1))) by lia. done.
Qed.

Lemma rows_lookup c i : row_text <$> rows_of c !! i = split_inclusive c !! i.
Proof.
  unfold rows_of. rewrite <- list_lookup_fmap. f_equal. generalize 0%N at 1. generalize 0%N.
  induction (split_inclusive c) as [|r rows IH]; intros s n; simpl; [done|]. by rewrite IH.
Qed.

Lemma complete_rows c line : complete c -> line ∈ split_inclusive c -> exists l, line = l ++ [nl].
Proof.
  intros [->|[x ->]] Hin; [by apply not_elem_of_nil in Hin|].
  pose proof (terminated_take (length (split_inclusive (x ++ [nl]))) ((x ++ [nl]) ++ [nl])) as Ht.
  rewrite split_inclusive_app, length_app, take_app_length, Forall_forall in Ht.
  destruct (Ht ltac:(simpl; lia) _ Hin) as (l & -> & _). eauto.
Qed.

(** On a file of whole lines of text, looking up a line singly gives exactly
    the record a batch gives for that line. *)
Theorem lookup_agrees_with_batch (o : N) (f : File) :
  position f = 0%N -> flawless f -> is_Some (identity f) -> (lenN (contents f) <= usize_max)%N ->
  complete (contents f) -> Forall is_text (split_inclusive (contents f)) ->
  lookup 0 o [Locked] f = (r ← rows_of (contents f) !! N.to_nat o; entry (entry_of r)).
Proof.
  intros Hp Hf [i Hi] Hu Hc Ht. unfold lookup, lookup_history_entry.
  destruct (step_runs f Hf) as (g & k & Es & Hg). pose proof Es as [Hs Hp']%step_Ok.
  unfold mbind at 1, io_bind. rewrite Es. unfold mbind at 1, io_bind, act. destruct Hs as (Ec & Ei & _). rewrite Ei, Hi.
  change (negb (0 =? 0)%N && negb (i =? 0)%N) with false. cbv iota. unfold MAX_RETRIES. cbn [with_lock].
  assert (rest_of g = contents f) as Er by (unfold rest_of; by rewrite Ec, Hp', Hp).
  destruct (nth_line_spec (S (length (contents g))) (S (length (contents g))) o [] g) as [g' En];
    cbn [app]; rewrite ?Er, ?Ec; try done; try lia.
  unfold mbind at 1, io_bind. cbv beta iota. unfold mbind at 1, io_bind. rewrite En. cbn [app mret io_ret]. rewrite Er.
  rewrite <- rows_lookup. destruct (rows_of (contents f) !! N.to_nat o) as [r|] eqn:E; [|done]. simpl.
  unfold try_parse_entry. destruct (complete_rows (contents f) (row_text r) Hc) as [l El].
  { apply (list_elem_of_lookup_2 _ (N.to_nat o)). rewrite <- rows_lookup, E. done. }
  unfold chomped. rewrite El, strip_suffix_app, strip_byte_snoc. done.
Qed.

End Appends.

(** ** Examples *)

Module PromptExamples.

Definition hello : HistoryEntry := mkEntry (lit "s1") 7 (lit "hello").
#[export] Instance HistoryEntry_eq_dec : EqDecision HistoryEntry.
Proof. solve_decision. Defined.

(** A codec that knows one record *)
#[export] Instance one_codec : EntryCodec := {
  to_string e := if decide (e = hello) then Some (lit "{hello}") else None;
  from_slice bs := if decide (bs = lit "{hello}") then Some hello else None;
}.
#[export] Instance one_laws : EntryCodecLaws.
Proof.
  split. intros e l H. simpl in H. destruct (decide (e = hello)) as [->|]; [|done]. injection H as <-.
  split; [by repeat constructor|]. split; [|done]. intros Hin.
  by rewrite <- (bool_decide_spec (nl ∈ as_bytes (lit "{hello}"))) in Hin.
Qed.

Definition uncapped : HistoryConfig := mkHistoryConfig SaveAll None.
Definition capped (n : N) : HistoryConfig := mkHistoryConfig SaveAll (Some n).

(** Three lines, read two bytes at a time *)
Definition three_lines : list N := as_bytes (lit "one" ++ [nl] ++ lit "{hello}" ++ [nl] ++ lit "three" ++ [nl]).
Definition slow (c : list N) : File := mkFile c 0 (replicate 40 (Some 2%N)) (Some 5%N) (Some 1%N).
(** The cursor behind the second line *)
Definition anchored : HistoryBatchCursor := mkCursor 1 (Some (mkAnchor 12 (mkRevision 18 (Some 1%N)))).
Definition found : HistoryBatch := mkBatch [mkBatchEntry 1 (Some hello); mkBatchEntry 0 None] None.

Example both_directions :
  (scan_batch (new_cursor 1) uncapped (slow three_lines)).2 = Ok found /\
  (scan_batch anchored uncapped (slow three_lines)).2 = Ok found.
Proof. split; by vm_compute. Qed.

Lemma batch_exact_witness : exact_batch three_lines anchored found.
Proof.
  destruct (batch_exact anchored uncapped (slow three_lines)) as [H _].
  - split; [by vm_compute|]. vm_compute. lia.
  - by vm_compute.
  - destruct (H (scan_batch anchored uncapped (slow three_lines)).1 found) as [_ Hb]; [by vm_compute|exact Hb].
Defined.

Lemma paging_visits_all_witness :
  exists es, paging uncapped three_lines (new_cursor 1) es /\
    reverse es = [mkBatchEntry 0 None; mkBatchEntry 1 (Some hello)].
Proof.
  destruct (paging_visits_all uncapped three_lines 1) as [[es Hes] H]; [by vm_compute|].
  exists es. split; [exact Hes|]. rewrite (H es Hes). by vm_compute.
Defined.

(** The limit makes room by dropping the first line. *)
Definition appended : File := Eval vm_compute in (append_entry (lit "hello") (lit "s1") (capped 20) (Some 7%N) [Contended; Locked] (slow three_lines)).1.


Lemma lookup_agrees_with_batch_witness : lookup 0 1 [Locked] (slow three_lines) = Some hello.
Proof.
  rewrite (lookup_agrees_with_batch 1 (slow three_lines)).
  - by vm_compute.
  - done.
  - by repeat constructor.
  - by eexists.
  - by vm_compute.
  - right. exists (as_bytes (lit "one" ++ [nl] ++ lit "{hello}" ++ [nl] ++ lit "three")). by vm_compute.
  - by repeat constructor.
Defined.

Example soft_cap_of_1000 : soft_cap_bytes 1000 = 800%N.
Proof. by vm_compute. Qed.

End PromptExamples.
