(* ===== verification/ShellSyntax.v ===== *)
(** * Shell scripts as commands

    shell-command/src/bash.rs, and [detect_shell_type] of shell_detect.rs: which
    commands a script consists of, read off its syntax tree. The grammar
    (tree-sitter) is a parameter; a node is its kind, its place, its text and its
    children. *)

From S2P Require Import Prelude RustStr.

(** ** Syntax trees *)

Inductive Node := mkNode (kind : str) (named : bool) (start_byte : N) (utf8_text : option str) (children : list Node).
Definition kind (n : Node) : str := let '(mkNode k _ _ _ _) := n in k.
Definition named (n : Node) : bool := let '(mkNode _ b _ _ _) := n in b.
Definition start_byte (n : Node) : N := let '(mkNode _ _ s _ _) := n in s.
Definition utf8_text (n : Node) : option str := let '(mkNode _ _ _ t _) := n in t.
Definition children (n : Node) : list Node := let '(mkNode _ _ _ _ c) := n in c.

Record Tree := mkTree { root_node : Node; has_error : bool }.

(** [try_parse_shell] *)
Class ShellGrammar := { try_parse_shell : str -> option Tree }.

Definition named_children (n : Node) : list Node := filter (fun c => Is_true (named c)) (children n).
Definition is_kind (k : String.string) (n : Node) : bool := str_eqb (kind n) (lit k).

Arguments is_kind _%_string_scope _.

Fixpoint size (n : Node) : nat :=
  match n with mkNode _ _ _ _ cs => S ((fix sizes (cs : list Node) := match cs with [] => 0 | c :: cs => size c + sizes cs end) cs) end.

(** ** Words *)

(** [str::contains] with a list of characters *)
Definition contains_any (cs : str) (s : str) : bool := existsb (fun c => contains_char c cs) s.

Definition is_literal_word_or_number (n : Node) : bool :=
  (is_kind "word" n || is_kind "number" n)
  && is_empty (named_children n)
  && match utf8_text n with
     | Some word => negb (starts_with (lit "=") word) && negb (contains_any (lit "{}*?[]\~^#$`") word)
     | None => false
     end.

(** A backslash before a character that it escapes inside double quotes *)
Fixpoint has_escape (s : str) : bool :=
  match s with
  | a :: ((b :: _) as rest) =>
      (a =? 92)%N && contains_char b [36; 96; 34; 92; 10]%N || has_escape rest
  | _ => false
  end.

Definition unquote (q : char) (s : str) : option str := strip_prefix [q] s ≫= strip_suffix [q].

Definition parse_double_quoted_string (n : Node) : option str :=
  if negb (is_kind "string" n) then None
  else if negb (forallb (is_kind "string_content") (named_children n)) then None
  else
    raw ← utf8_text n;
    stripped ← unquote dquote raw;
    if has_escape stripped then None else Some stripped.

Definition parse_raw_string (n : Node) : option str :=
  if negb (is_kind "raw_string" n) then None else utf8_text n ≫= unquote 39%N.

Fixpoint parse_literal_shell_word (n : Node) : option str :=
  if (is_kind "word" n || is_kind "number" n) && is_literal_word_or_number n then utf8_text n
  else if is_kind "string" n then parse_double_quoted_string n
  else if is_kind "raw_string" n then parse_raw_string n
  else if is_kind "concatenation" n then
    match n with
    | mkNode _ _ _ _ cs =>
        concatenated ←
          (fix parts (cs : list Node) : option str :=
             match cs with
             | [] => Some []
             | c :: cs =>
                 if named c then
                   part ← parse_literal_shell_word c;
                   rest ← parts cs;
                   Some (part ++ rest)
                 else parts cs
             end) cs;
        if is_empty concatenated then None else Some concatenated
    end
  else None.

(** ** Commands *)

(** The children of a command, the name found so far or not *)
Fixpoint literal_words (cs : list Node) (found : bool) : option (list str * bool) :=
  match cs with
  | [] => Some ([], found)
  | c :: cs =>
      if is_kind "command_name" c then
        w ← head (named_children c);
        name ← parse_literal_shell_word w;
        '(words, found) ← literal_words cs true;
        Some (name :: words, found)
      else
        match (if found then parse_literal_shell_word c else None) with
        | Some word => '(words, found) ← literal_words cs found; Some (word :: words, found)
        | None => literal_words cs found
        end
  end.

Definition parse_literal_command_from_node (cmd : Node) : option (list str) :=
  if negb (is_kind "command" cmd) then None
  else
    '(words, found) ← literal_words (named_children cmd) false;
    if (found : bool) then Some words else None.

Definition plain_part (part : Node) : option str :=
  if is_kind "word" part || is_kind "number" part then utf8_text part
  else if is_kind "string" part then parse_double_quoted_string part
  else if is_kind "raw_string" part then parse_raw_string part
  else None.

Definition plain_word (c : Node) : option str :=
  if is_kind "command_name" c then
    word_node ← head (named_children c);
    if is_kind "word" word_node then utf8_text word_node else None
  else if is_kind "concatenation" c then
    parts ← mapM plain_part (named_children c);
    if is_empty (concat parts) then None else Some (concat parts)
  else plain_part c.

Definition parse_plain_command_from_node (cmd : Node) : option (list str) :=
  if negb (is_kind "command" cmd) then None else mapM plain_word (named_children cmd).

(** ** Scripts *)

Definition ALLOWED_KINDS : list str :=
  [lit "program"; lit "list"; lit "pipeline"; lit "command"; lit "command_name"; lit "word"; lit "string";
   lit "string_content"; lit "raw_string"; lit "number"; lit "concatenation"].
Definition ALLOWED_PUNCT_TOKENS : list str := [lit "&&"; lit "||"; lit ";"; lit "|"; [dquote]; lit "'"].

Definition node_allowed (n : Node) : bool :=
  if named n then
    existsb (str_eqb (kind n)) ALLOWED_KINDS
    && negb ((is_kind "word" n || is_kind "number" n) && negb (is_literal_word_or_number n))
  else
    let listed := existsb (str_eqb (kind n)) ALLOWED_PUNCT_TOKENS in
    negb (contains_any (lit "&;|") (kind n) && negb listed) && (listed || is_empty (trim (kind n))).

(** The walk over the nodes: the stack's top comes first, and children are pushed
    in order. *)
Fixpoint walk_plain (fuel : nat) (stack : list Node) (commands : list Node) : option (list Node) :=
  match fuel, stack with
  | S fuel, n :: stack =>
      if node_allowed n
      then walk_plain fuel (reverse (children n) ++ stack)
             (if named n && is_kind "command" n then commands ++ [n] else commands)
      else None
  | _, _ => Some commands
  end.

(** [sort_by_key(Node::start_byte)], which is stable *)
Fixpoint insert_by_start_byte (n : Node) (l : list Node) : list Node :=
  match l with
  | [] => [n]
  | m :: l => if (start_byte n <? start_byte m)%N then n :: m :: l else m :: insert_by_start_byte n l
  end.
Definition sort_by_start_byte (l : list Node) : list Node := foldl (fun acc n => insert_by_start_byte n acc) [] l.

Definition try_parse_word_only_commands_sequence (tree : Tree) : option (list (list str)) :=
  if has_error tree then None
  else
    commands ← walk_plain (size (root_node tree)) [root_node tree] [];
    mapM parse_plain_command_from_node (sort_by_start_byte commands).

Fixpoint walk_literal (fuel : nat) (stack : list Node) (commands : list (list str)) : list (list str) :=
  match fuel, stack with
  | S fuel, n :: stack =>
      let commands :=
        match (if is_kind "command" n then parse_literal_command_from_node n else None) with
        | Some command => commands ++ [command]
        | None => commands
        end in
      walk_literal fuel (reverse (named_children n) ++ stack) commands
  | _, _ => commands
  end.

(** ** Shells *)

Inductive ShellType := Zsh | Bash | PowerShell | Sh | Cmd.
#[export] Instance ShellType_eq_dec : EqDecision ShellType.
Proof. solve_decision. Defined.

(** [ShellType::name] *)
Definition name (t : ShellType) : str :=
  match t with
  | Zsh => lit "zsh" | Bash => lit "bash" | PowerShell => lit "powershell" | Sh => lit "sh" | Cmd => lit "cmd"
  end.

(** [std::path] on Unix: the components of a path *)
Inductive Component := RootDir | CurDir | ParentDir | Normal (s : str).
#[export] Instance Component_eq_dec : EqDecision Component.
Proof. solve_decision. Defined.

Definition component (s : str) : option Component :=
  if is_empty s || str_eqb s (lit ".") then None
  else if str_eqb s (lit "..") then Some ParentDir else Some (Normal s).

Definition components (path : str) : list Component :=
  match split_on 47%N path with
  | [] => []
  | first :: rest =>
      (if starts_with (lit "/") path then [RootDir] else if str_eqb first (lit ".") then [CurDir] else [])
      ++ omap component (first :: rest)
  end.

(** [Path::file_stem] *)
Definition file_stem (path : str) : option str :=
  match last (components path) with
  | Some (Normal name) =>
      Some (match rsplit_once 46%N name with
            | Some (before, _) => if is_empty before then name else before
            | None => name
            end)
  | _ => None
  end.

(** Each round takes a shorter path. *)
Fixpoint detect_shell_type_within (fuel : nat) (shell_path : str) : option ShellType :=
  if str_eqb shell_path (lit "zsh") then Some Zsh
  else if str_eqb shell_path (lit "sh") then Some Sh
  else if str_eqb shell_path (lit "cmd") then Some Cmd
  else if str_eqb shell_path (lit "bash") then Some Bash
  else if str_eqb shell_path (lit "pwsh") || str_eqb shell_path (lit "powershell") then Some PowerShell
  else
    match fuel, file_stem shell_path with
    | S fuel, Some shell_name =>
        if bool_decide (components shell_name = components shell_path) then None
        else detect_shell_type_within fuel shell_name
    | _, _ => None
    end.
Definition detect_shell_type (shell_path : str) : option ShellType :=
  detect_shell_type_within (length shell_path) shell_path.

Definition extract_bash_command (command : list str) : option (str * str) :=
  match command with
  | [shell; flag; script] =>
      if negb (str_eqb flag (lit "-lc") || str_eqb flag (lit "-c"))
         || negb (match detect_shell_type shell with Some Zsh | Some Bash | Some Sh => true | _ => false end)
      then None
      else Some (shell, script)
  | _ => None
  end.

Section Scripts.
Context {SG : ShellGrammar}.

Definition parse_shell_script_into_commands (script : str) : option (list (list str)) :=
  tree ← try_parse_shell script;
  try_parse_word_only_commands_sequence tree.

Definition parse_shell_lc_plain_commands (command : list str) : option (list (list str)) :=
  '(_, script) ← extract_bash_command command;
  parse_shell_script_into_commands script.

Definition parse_shell_lc_literal_commands (command : list str) : option (list (list str)) :=
  '(_, script) ← extract_bash_command command;
  tree ← try_parse_shell script;
  if has_error tree then None
  else Some (walk_literal (size (root_node tree)) [root_node tree] []).

End Scripts.
