(* ===== verification/ShellTheorems.v ===== *)
(** * The commands of a script

    The walks of bash.rs over a syntax tree, against the tree read in document
    order: the fuel given to them is enough, every node is looked at, and the
    commands come out in the order they are written. *)

From S2P Require Import Prelude RustStr ShellSyntax.

(** ** Trees *)

Section Node_rect.
Variable P : Node -> Prop.
Hypothesis Hnode : forall k b s t cs, Forall P cs -> P (mkNode k b s t cs).

Fixpoint Node_nested_ind (n : Node) : P n :=
  match n with
  | mkNode k b s t cs =>
      Hnode k b s t cs
        ((fix all (cs : list Node) : Forall P cs :=
            match cs with [] => Forall_nil_2 P | c :: cs => Forall_cons_2 P c cs (Node_nested_ind c) (all cs) end) cs)
  end.
End Node_rect.

Definition sizes (ns : list Node) : nat := foldr (fun n acc => size n + acc) 0 ns.

Lemma size_children n : size n = S (sizes (children n)).
Proof. by destruct n. Qed.

Lemma sizes_perm ns ms : ns ≡ₚ ms -> sizes ns = sizes ms.
Proof. unfold sizes. induction 1; simpl; lia. Qed.

Lemma sizes_app ns ms : sizes (ns ++ ms) = sizes ns + sizes ms.
Proof. unfold sizes. induction ns; simpl; lia. Qed.

Lemma sizes_named n : sizes (named_children n) <= sizes (children n).
Proof.
  unfold sizes, named_children. induction (children n) as [|c cs IH]; [done|].
  rewrite filter_cons. case_decide; simpl; lia.
Qed.

(** The nodes of a tree in document order: a node, then its children's nodes *)
Fixpoint document (n : Node) : list Node :=
  n :: match n with
       | mkNode _ _ _ _ cs => (fix nodes (cs : list Node) := match cs with [] => [] | c :: cs => document c ++ nodes cs end) cs
       end.

(** The order in which a stack visits them: the last child first *)
Fixpoint visited (n : Node) : list Node :=
  n :: match n with
       | mkNode _ _ _ _ cs => (fix nodes (cs : list Node) := match cs with [] => [] | c :: cs => nodes cs ++ visited c end) cs
       end.

Lemma document_unfold n : document n = n :: (children n ≫= document).
Proof. by destruct n. Qed.

Lemma visited_unfold n : visited n = n :: (reverse (children n) ≫= visited).
Proof.
  destruct n as [k b s t cs]. simpl. f_equal. induction cs as [|c cs IH]; [done|].
  rewrite reverse_cons, bind_app, IH. simpl. by rewrite app_nil_r.
Qed.

Lemma visited_document n : visited n ≡ₚ document n.
Proof.
  induction n as [k b s t cs IH] using Node_nested_ind. rewrite visited_unfold, document_unfold. simpl.
  f_equiv. rewrite reverse_Permutation. induction IH as [|c cs Hc _ IH]; [done|]. simpl. by rewrite Hc, IH.
Qed.

(** ** The walk for plain commands *)

Definition is_command_node (n : Node) : bool := named n && is_kind "command" n.

Lemma walk_plain_visited fuel stack acc :
  sizes stack <= fuel ->
  walk_plain fuel stack acc
  = if forallb node_allowed (stack ≫= visited)
    then Some (acc ++ List.filter is_command_node (stack ≫= visited)) else None.
Proof.
  revert stack acc; induction fuel as [|fuel IH]; intros [|n stack] acc; simpl.
  - by rewrite app_nil_r.
  - unfold sizes. simpl. rewrite size_children. lia.
  - by rewrite app_nil_r.
  - intros Hfuel. rewrite visited_unfold. simpl.
    destruct (node_allowed n) eqn:Hallowed; simpl; [|done].
    rewrite IH.
    2:{ rewrite sizes_app, (sizes_perm _ _ (reverse_Permutation _)).
        unfold sizes in Hfuel at 1. simpl in Hfuel. rewrite size_children in Hfuel. unfold sizes in *. lia. }
    rewrite bind_app. unfold is_command_node at 2. destruct (named n && is_kind "command" n); simpl; [|done].
    by rewrite <- app_assoc.
Qed.

(** ** Sorting the commands *)

Definition starts_before (n m : Node) : Prop := (start_byte n < start_byte m)%N.

Lemma insert_by_start_byte_perm n l : insert_by_start_byte n l ≡ₚ n :: l.
Proof.
  induction l as [|m l IH]; simpl; [done|]. destruct (_ <? _)%N; [done|]. rewrite IH. apply Permutation_swap.
Qed.

Lemma sort_by_start_byte_perm l : sort_by_start_byte l ≡ₚ l.
Proof.
  unfold sort_by_start_byte. enough (H : forall acc, foldl (fun acc n => insert_by_start_byte n acc) acc l ≡ₚ acc ++ l) by apply H.
  induction l as [|n l IH]; intros acc; simpl; [by rewrite app_nil_r|].
  rewrite IH, insert_by_start_byte_perm. simpl. apply Permutation_middle.
Qed.

Definition not_after (n m : Node) : Prop := (start_byte n <= start_byte m)%N.

Lemma insert_by_start_byte_sorted n l : StronglySorted not_after l -> StronglySorted not_after (insert_by_start_byte n l).
Proof.
  induction 1 as [|m l Hl IH Hm]; simpl; [repeat constructor|].
  destruct (N.ltb_spec (start_byte n) (start_byte m)) as [Hlt|Hge].
  - constructor; [by constructor|]. constructor; [unfold not_after; lia|].
    eapply Forall_impl; [exact Hm|]. unfold not_after. intros; lia.
  - constructor; [done|]. rewrite insert_by_start_byte_perm. by constructor.
Qed.

Lemma sort_by_start_byte_sorted l : StronglySorted not_after (sort_by_start_byte l).
Proof.
  unfold sort_by_start_byte.
  enough (H : forall acc, StronglySorted not_after acc ->
    StronglySorted not_after (foldl (fun acc n => insert_by_start_byte n acc) acc l)) by (apply H; constructor).
  induction l as [|n l IH]; intros acc Hacc; simpl; [done|]. apply IH. by apply insert_by_start_byte_sorted.
Qed.

(** A list in a strict order is the only sorted arrangement of its elements. *)
Lemma sorted_arrangement l k :
  StronglySorted not_after l -> StronglySorted starts_before k -> l ≡ₚ k -> l = k.
Proof.
  intros Hl Hk. revert l Hl. induction Hk as [|n k Hk IH Hn]; intros l Hl Hp; [by apply Permutation_nil_r in Hp|].
  destruct l as [|m l]; [by apply Permutation_nil in Hp|].
  apply StronglySorted_inv in Hl as [Hl Hm].
  assert (Heq : m = n).
  { assert (m ∈ n :: k) as Hin by (rewrite <- Hp; left).
    apply elem_of_cons in Hin as [?|Hin]; [done|].
    assert (n ∈ m :: l) as Hin' by (rewrite Hp; left).
    apply elem_of_cons in Hin' as [?|Hin']; [done|].
    rewrite Forall_forall in Hn, Hm. specialize (Hn _ Hin). specialize (Hm _ Hin').
    unfold starts_before, not_after in *. lia. }
  subst m. f_equal. apply IH; [done|]. by eapply Permutation_cons_inv.
Qed.

Lemma filter_perm {A} (f : A -> bool) l k : l ≡ₚ k -> List.filter f l ≡ₚ List.filter f k.
Proof.
  induction 1 as [|x l k _ IH|x y l|l k m _ IH1 _ IH2]; simpl; [done|..].
  - destruct (f x); [by rewrite IH|done].
  - destruct (f x), (f y); try done. apply Permutation_swap.
  - by rewrite IH1.
Qed.

Lemma forallb_perm {A} (f : A -> bool) l k : l ≡ₚ k -> forallb f l = forallb f k.
Proof. induction 1; simpl; [done|congruence| |congruence]. by rewrite !andb_assoc, (andb_comm (f _)). Qed.

(** ** The shell's name *)

Lemma split_by_shorter f s x : x ∈ split_by f s -> length x < length s \/ x = s.
Proof.
  revert x; induction s as [|d s IH]; intros x; simpl.
  - intros ->%list_elem_of_singleton. by right.
  - destruct (f d).
    + intros [->|Hx]%elem_of_cons; [simpl; left; lia|]. destruct (IH _ Hx) as [?| ->]; left; simpl; lia.
    + pose proof (split_by_ne f s). destruct (split_by f s) as [|p ps]; [done|].
      intros [->|Hx]%elem_of_cons.
      * destruct (IH p) as [?| ->]; [by left|left; simpl; lia|by right].
      * left. destruct (IH x) as [?| ->]; [by right|simpl; lia|simpl; lia].
Qed.

Lemma component_Normal s x : component s = Some (Normal x) -> x = s.
Proof. unfold component. repeat destruct (str_eqb _ _ || _ || _) || case_match; naive_solver. Qed.

Lemma file_stem_shorter path stem : file_stem path = Some stem -> length stem < length path \/ stem = path.
Proof.
  unfold file_stem. destruct (last (components path)) as [[| | |nm]|] eqn:Hlast; try done.
  assert (Hnm : length nm < length path \/ nm = path).
  { apply last_Some_elem_of in Hlast. unfold components in Hlast.
    destruct (split_on 47%N path) as [|p ps] eqn:Hsplit; [by apply not_elem_of_nil in Hlast|].
    apply elem_of_app in Hlast as [Hlast|Hlast].
    - repeat case_match; set_solver.
    - apply list_elem_of_omap in Hlast as (s & Hs & <-%component_Normal).
      apply (split_by_shorter (fun d => d =? 47)%N). unfold split_on in Hsplit. by rewrite Hsplit. }
  intros [= <-]. destruct (rsplit_once 46%N nm) as [[before after]|] eqn:Hdot; [|done].
  apply rsplit_once_Some in Hdot as [-> _]. destruct (is_empty before); [done|].
  left. rewrite length_app in Hnm. simpl in Hnm. destruct Hnm as [?| <-]; [lia|]. rewrite length_app. simpl. lia.
Qed.

(** The rounds end: as many as the path has characters are enough. *)
Lemma detect_shell_type_enough fuel path :
  length path <= fuel -> detect_shell_type_within fuel path = detect_shell_type path.
Proof.
  unfold detect_shell_type. remember (length path) as len eqn:Hlen.
  assert (Hle : length path <= len) by lia. clear Hlen. revert len path Hle.
  induction fuel as [|fuel IH]; intros len path Hle Hfuel; [by replace len with 0 by lia|].
  destruct len as [|len].
  - destruct path; [|simpl in Hle; lia]. reflexivity.
  - cbn [detect_shell_type_within]. repeat (case_match; [done|]).
    destruct (file_stem path) as [stem|] eqn:Hstem; [|done].
    case_bool_decide as Hne; [done|].
    destruct (file_stem_shorter _ _ Hstem) as [Hlt| ->]; [|done]. apply IH; lia.
Qed.

Lemma detect_shell_type_name t : detect_shell_type (name t) = Some t.
Proof. by destruct t. Qed.

Section Claims.
Context {SG : ShellGrammar}.

(** The script [script] read off its tree in document order *)
Definition plain_reference (tree : Tree) : option (list (list str)) :=
  if has_error tree then None
  else if forallb node_allowed (document (root_node tree))
       then mapM parse_plain_command_from_node (List.filter is_command_node (document (root_node tree)))
       else None.


(** ** The walk for literal commands *)

(** A node of the tree that is reached through named nodes *)
Inductive within : Node -> Node -> Prop :=
  | within_here n : within n n
  | within_child n c m : c ∈ named_children n -> within c m -> within n m.

Lemma walk_literal_elem fuel stack acc c :
  sizes stack <= fuel ->
  c ∈ walk_literal fuel stack acc
  <-> c ∈ acc \/ exists n m, n ∈ stack /\ within n m /\ parse_literal_command_from_node m = Some c.
Proof.
  revert stack acc; induction fuel as [|fuel IH]; intros [|n stack] acc Hfuel.
  1,3: split; [tauto|intros [?|(n & m & Hn & _)]; [done|by apply not_elem_of_nil in Hn]].
  - unfold sizes in Hfuel. simpl in Hfuel. rewrite size_children in Hfuel. lia.
  - cbn [walk_literal]. rewrite IH.
    2:{ rewrite sizes_app, (sizes_perm _ _ (reverse_Permutation _)). pose proof (sizes_named n).
        unfold sizes in Hfuel at 1. simpl in Hfuel. rewrite size_children in Hfuel. unfold sizes in *. lia. }
    assert (Hhere : c ∈ (match (if is_kind "command" n then parse_literal_command_from_node n else None) with
                         | Some command => acc ++ [command] | None => acc end)
                    <-> c ∈ acc \/ parse_literal_command_from_node n = Some c).
    { unfold parse_literal_command_from_node. destruct (is_kind "command" n); simpl; [|naive_solver].
      destruct (literal_words _ _) as [[words []]|]; simpl; set_solver. }
    rewrite Hhere. split.
    + intros [[?|?]|(n' & m & Hn' & Hw & Hm)]; [by left|right; exists n, n; repeat constructor; done|].
      right. apply elem_of_app in Hn' as [Hn'|Hn']; [|exists n', m; split; [by right|done]].
      rewrite elem_of_reverse in Hn'. exists n, m. split; [by left|]. split; [eapply within_child; eassumption|done].
    + intros [?|(n' & m & Hn' & Hw & Hm)]; [by left; left|].
      apply elem_of_cons in Hn' as [->|Hn'].
      * destruct Hw as [n|n c' m Hc Hw]; [by left; right|].
        right. exists c', m. split; [apply elem_of_app; left; by apply elem_of_reverse|done].
      * right. exists n', m. split; [apply elem_of_app; by right|done].
Qed.

(** The literal commands of a script: those of the command nodes of its tree. *)
Lemma literal_commands_elem command cs c :
  parse_shell_lc_literal_commands command = Some cs ->
  c ∈ cs <-> exists shell script tree m,
    extract_bash_command command = Some (shell, script) /\ try_parse_shell script = Some tree
    /\ has_error tree = false /\ within (root_node tree) m /\ parse_literal_command_from_node m = Some c.
Proof.
  unfold parse_shell_lc_literal_commands.
  destruct (extract_bash_command command) as [[shell script]|] eqn:Hx; [|done]. simpl.
  destruct (try_parse_shell script) as [tree|] eqn:Ht; [|done]. simpl.
  destruct (has_error tree) eqn:He; [done|]. intros [= <-].
  rewrite walk_literal_elem by (unfold sizes; simpl; lia). split.
  - intros [Hc|(n & m & Hn & Hw & Hm)]; [by apply not_elem_of_nil in Hc|].
    apply list_elem_of_singleton in Hn as ->. by exists shell, script, tree, m.
  - intros (shell' & script' & tree' & m & [= <- <-] & Ht' & _ & Hw & Hm).
    right. exists (root_node tree), m. split; [by left|]. split; [congruence|done].
Qed.

End Claims.
