(* ===== verification/CommandSafety.v ===== *)
(** * Dangerous commands

    shell-command/src/command_safety/is_dangerous_command.rs and
    windows_dangerous_commands.rs: whether a command removes files by force, or on
    Windows opens a URL through the shell, directly or behind [sudo], [env],
    [trap] and shell scripts. The splitting of words ([shlex]), the regular
    expression around URLs and the URL parser are parameters. *)

From S2P Require Import Prelude RustStr ShellSyntax.

Class WindowsWords := {
  shlex_split : str -> option (list str);
  url_capture : str -> option str;
  url_scheme : str -> option str;
}.

Inductive DangerousCommandPlatform := PosixPlatform | WindowsPlatform.
#[export] Instance DangerousCommandPlatform_eq_dec : EqDecision DangerousCommandPlatform.
Proof. solve_decision. Defined.
Inductive DangerousCommandMatch := ForcedRm | OtherMatch.
#[export] Instance DangerousCommandMatch_eq_dec : EqDecision DangerousCommandMatch.
Proof. solve_decision. Defined.

Definition MAX_DANGEROUS_COMMAND_WRAPPER_DEPTH : nat := 8.

(** ** Names *)

(** The part after the last separator *)
Definition last_part (f : char -> bool) (raw : str) : option str :=
  match last (split_by f raw) with Some name => if is_empty name then None else Some name | None => None end.
Definition is_posix_separator (c : char) : bool := (c =? 47)%N.
Definition is_windows_separator (c : char) : bool := (c =? 47)%N || (c =? 92)%N.

Definition strip_drive (name : str) : str :=
  match name with
  | drive :: 58%N :: rest => if is_ascii_alphabetic drive then rest else name
  | _ => name
  end.

Fixpoint strip_first_suffix (suffixes : list str) (name : str) : option str :=
  match suffixes with
  | [] => None
  | suffix :: suffixes =>
      match strip_suffix suffix name with Some stripped => Some stripped | None => strip_first_suffix suffixes name end
  end.

Definition executable_name_lookup_key (raw : str) (platform : DangerousCommandPlatform) : option str :=
  match platform with
  | PosixPlatform => last_part is_posix_separator raw
  | WindowsPlatform =>
      name ← last_part is_windows_separator raw;
      let name := to_ascii_lowercase (strip_drive name) in
      match strip_first_suffix [lit ".exe"; lit ".cmd"; lit ".bat"; lit ".com"] name with
      | Some stripped => Some stripped
      | None => if is_empty name then None else Some name
      end
  end.

Definition executable_basename (exe : str) : option str :=
  name ← last_part is_windows_separator exe;
  let name := strip_drive name in
  if is_empty name then None else Some (to_ascii_lowercase name).

Definition is_one_of (names : list str) (s : str) : bool := existsb (str_eqb s) names.

Definition is_powershell_executable (exe : str) : bool :=
  match executable_basename exe with
  | Some name => is_one_of [lit "powershell"; lit "powershell.exe"; lit "pwsh"; lit "pwsh.exe"] name
  | None => false
  end.

Definition is_browser_executable : str -> bool :=
  is_one_of [lit "chrome"; lit "chrome.exe"; lit "msedge"; lit "msedge.exe"; lit "firefox"; lit "firefox.exe";
             lit "iexplore"; lit "iexplore.exe"].

(** ** Removing by force *)

Fixpoint take_while {A} (f : A -> bool) (l : list A) : list A :=
  match l with [] => [] | x :: l => if f x then x :: take_while f l else [] end.

Definition is_force_option (arg : str) : bool :=
  str_eqb arg (lit "--force")
  || match strip_prefix (lit "-") arg with
     | Some flags => negb (starts_with (lit "-") flags) && contains_char 102%N flags
     | None => false
     end.

Definition rm_args_include_force_option (args : list str) : bool :=
  existsb is_force_option (take_while (fun arg => negb (str_eqb arg (lit "--"))) args).

(** ** Wrappers *)

(** The arguments of [env] before the command it runs *)
Definition is_env_assignment (argument : str) : bool :=
  str_eqb argument (lit "-i") || str_eqb argument (lit "--ignore-environment")
  || match split_once 61%N argument with
     | Some (name, _) => negb (is_empty name) && negb (starts_with (lit "-") name)
     | None => false
     end.

Fixpoint skip_env (args : list str) : list str :=
  match args with
  | [] => []
  | argument :: rest =>
      if str_eqb argument (lit "--") then rest
      else if is_env_assignment argument then skip_env rest
      else args
  end.

Definition trap_command (command : list str) : option (list str) :=
  let args := tail command in
  let args := match args with a :: rest => if str_eqb a (lit "--") then rest else args | [] => args end in
  action ← head args;
  if starts_with (lit "-") action then None else Some [lit "sh"; lit "-c"; action].

(** What a command runs in its place, if it is a wrapper: [None] where the
    classifier has nothing to look at. *)
Definition wrapped (command : list str) (platform : DangerousCommandPlatform) : option (list str) :=
  cmd0 ← (c ← head command; executable_name_lookup_key c platform);
  if str_eqb cmd0 (lit "rm") && rm_args_include_force_option (tail command) then None
  else if str_eqb cmd0 (lit "sudo") then Some (tail command)
  else if str_eqb cmd0 (lit "env") then Some (skip_env (tail command))
  else if str_eqb cmd0 (lit "trap") then trap_command command
  else None.

Definition is_forced_rm (command : list str) (platform : DangerousCommandPlatform) : bool :=
  match (c ← head command; executable_name_lookup_key c platform) with
  | Some cmd0 => str_eqb cmd0 (lit "rm") && rm_args_include_force_option (tail command)
  | None => false
  end.

(** ** Windows *)

Section Windows.
Context {WW : WindowsWords}.

Definition looks_like_url (token : str) : bool :=
  let lowercase_token := to_ascii_lowercase token in
  let urlish :=
    match find (lit "https://") lowercase_token with
    | Some idx => drop idx token
    | None => match find (lit "http://") lowercase_token with Some idx => drop idx token | None => token end
    end in
  match url_scheme (default urlish (url_capture urlish)) with
  | Some scheme => is_one_of [lit "http"; lit "https"] scheme
  | None => false
  end.
Definition args_have_url (args : list str) : bool := existsb looks_like_url args.

Definition DELETE_CMDLETS : list str :=
  [lit "remove-item"; lit "ri"; lit "rm"; lit "del"; lit "erase"; lit "rd"; lit "rmdir"].
Definition is_seg_sep (c : char) : bool := contains_char c ([59; 124; 38; 10; 13; 9]%N).
Definition is_soft_sep (c : char) : bool := contains_char c (lit "{}()[],;").

Definition push_word (s : str) (segments : list (list str)) : list (list str) :=
  let s := trim s in if is_empty s then segments else update_last (fun seg => seg ++ [s]) segments.
Definition new_segment (segments : list (list str)) : list (list str) :=
  match last segments with
  | Some seg => if is_empty seg then segments else segments ++ [[]]
  | None => segments
  end.

(** The characters of a token, [cur] those since the last separator *)
Fixpoint segment_token (tok cur : str) (segments : list (list str)) : list (list str) :=
  match tok with
  | [] => push_word cur segments
  | ch :: tok =>
      if is_seg_sep ch then segment_token tok [] (new_segment (push_word cur segments))
      else segment_token tok (cur ++ [ch]) segments
  end.

Definition atoms_of (seg : list str) : list str :=
  List.filter (fun s => negb (is_empty s)) (trim <$> (seg ≫= split_by is_soft_sep)).

Definition is_delete_atom (a : str) : bool := existsb (eq_ignore_ascii_case a) DELETE_CMDLETS.
Definition is_force_atom (a : str) : bool :=
  eq_ignore_ascii_case a (lit "-force") || eq_ignore_ascii_case (take 7 a) (lit "-force:").

Definition has_force_delete_cmdlet (tokens : list str) : bool :=
  existsb (fun seg => existsb is_delete_atom (atoms_of seg) && existsb is_force_atom (atoms_of seg))
    (foldl (fun segments tok => segment_token tok [] segments) [[]] tokens).

(** [str::trim_matches] with one character *)
Definition trim_char (c : char) (s : str) : str :=
  trim_start_matches (fun d => d =? c)%N (trim_end_matches (fun d => d =? c)%N s).

Definition is_dangerous_powershell_words (words : list str) : bool :=
  let tokens_lc := (fun t => to_ascii_lowercase (trim_char dquote (trim_char 39%N t))) <$> words in
  let has_url := args_have_url words in
  let any f := existsb f tokens_lc in
  (has_url && any (fun t => is_one_of [lit "start-process"; lit "start"; lit "saps"; lit "invoke-item"; lit "ii"] t
                            || contains (lit "start-process") t || contains (lit "invoke-item") t))
  || (has_url && any (fun t => contains (lit "shellexecute") t || contains (lit "shell.application") t))
  || match head tokens_lc with
     | Some first =>
         (str_eqb first (lit "rundll32") && any (contains (lit "url.dll,fileprotocolhandler")) && has_url)
         || (str_eqb first (lit "mshta") && has_url)
         || (is_browser_executable first && has_url)
         || (is_one_of [lit "explorer"; lit "explorer.exe"] first && has_url)
     | None => false
     end
  || has_force_delete_cmdlet tokens_lc.

Fixpoint parse_powershell_invocation (args : list str) : option (list str) :=
  match args with
  | [] => None
  | arg :: rest =>
      let lower := to_ascii_lowercase arg in
      if is_one_of [lit "-command"; lit "/command"; lit "-c"] lower then
        match rest with [script] => shlex_split script | _ => None end
      else if starts_with (lit "-command:") lower || starts_with (lit "/command:") lower then
        if is_empty rest then '(_, script) ← split_once 58%N arg; shlex_split script else None
      else if starts_with (lit "-") lower then parse_powershell_invocation rest
      else Some args
  end.

Definition is_dangerous_powershell (command : list str) : bool :=
  match command with
  | exe :: rest =>
      is_powershell_executable exe
      && match parse_powershell_invocation rest with Some tokens => is_dangerous_powershell_words tokens | None => false end
  | [] => false
  end.

(** The arguments of [cmd] after [/c]: nothing where there is none *)
Fixpoint cmd_body (args : list str) : list str :=
  match args with
  | [] => []
  | arg :: rest =>
      let lower := to_ascii_lowercase arg in
      if is_one_of [lit "/c"; lit "/r"; lit "-c"] lower then rest
      else if starts_with (lit "/") lower then cmd_body rest
      else []
  end.

Definition is_operator_char (c : char) : bool := (c =? 38)%N || (c =? 124)%N.

(** The parts of a token, [cur] the text since the last operator *)
Fixpoint split_operators (token cur : str) : list str :=
  match token with
  | [] => if is_empty cur then [] else [cur]
  | ch :: rest =>
      if is_operator_char ch then
        (if is_empty cur then [] else [cur]) ++
        match rest with
        | next :: rest' => if (next =? ch)%N then [ch; next] :: split_operators rest' [] else [ch] :: split_operators rest []
        | [] => [[ch]]
        end
      else split_operators rest (cur ++ [ch])
  end.
Definition split_embedded_cmd_operators (token : str) : list str :=
  List.filter (fun s => negb (is_empty (trim s))) (split_operators token []).

Definition CMD_SEPARATORS : list str := [lit "&"; lit "&&"; lit "|"; lit "||"].

(** [slice::split] *)
Fixpoint split_list {A} (f : A -> bool) (l : list A) : list (list A) :=
  match l with
  | [] => [[]]
  | x :: l =>
      if f x then [] :: split_list f l
      else match split_list f l with s :: ss => (x :: s) :: ss | [] => [[x]] end
  end.

Definition has_flag (flag : str) (args : list str) : bool := existsb (fun a => eq_ignore_ascii_case a flag) args.
Definition has_force_flag_cmd := has_flag (lit "/f").
Definition has_recursive_flag_cmd := has_flag (lit "/s").
Definition has_quiet_flag_cmd := has_flag (lit "/q").

Definition is_dangerous_segment (segment : list str) : bool :=
  match segment with
  | [] => false
  | cmd :: _ =>
      (eq_ignore_ascii_case cmd (lit "start") && args_have_url segment)
      || ((eq_ignore_ascii_case cmd (lit "del") || eq_ignore_ascii_case cmd (lit "erase")) && has_force_flag_cmd segment)
      || ((eq_ignore_ascii_case cmd (lit "rd") || eq_ignore_ascii_case cmd (lit "rmdir"))
          && has_recursive_flag_cmd segment && has_quiet_flag_cmd segment)
  end.

Definition is_dangerous_cmd (command : list str) : bool :=
  match command with
  | [] => false
  | exe :: rest =>
      match executable_basename exe with
      | Some base =>
          if is_one_of [lit "cmd"; lit "cmd.exe"] base then
            let remaining := cmd_body rest in
            let cmd_tokens :=
              match remaining with [only] => default [only] (shlex_split only) | _ => remaining end in
            existsb is_dangerous_segment
              (split_list (is_one_of CMD_SEPARATORS) (cmd_tokens ≫= split_embedded_cmd_operators))
          else false
      | None => false
      end
  end.

Definition is_direct_gui_launch (command : list str) : bool :=
  match command with
  | [] => false
  | exe :: rest =>
      match executable_basename exe with
      | Some base =>
          (is_one_of [lit "explorer"; lit "explorer.exe"] base && args_have_url rest)
          || (is_one_of [lit "mshta"; lit "mshta.exe"] base && args_have_url rest)
          || (is_one_of [lit "rundll32"; lit "rundll32.exe"] base
              && existsb (fun t => contains (lit "url.dll,fileprotocolhandler") (to_ascii_lowercase t)) rest
              && args_have_url rest)
          || (is_browser_executable base && args_have_url rest)
      | None => false
      end
  end.

Definition is_dangerous_command_windows (command : list str) : bool :=
  is_dangerous_powershell command || is_dangerous_cmd command || is_direct_gui_launch command.

(** ** The classifier *)

Context {SG : ShellGrammar}.

(** [levels] is how many wrappers may still be opened: the depth is
    [MAX_DANGEROUS_COMMAND_WRAPPER_DEPTH + 1 - levels]. *)
Fixpoint dangerous_command_match_with_depth (levels : nat) (command : list str) (platform : DangerousCommandPlatform)
    : option DangerousCommandMatch :=
  match levels with
  | 0 => Some OtherMatch
  | S levels =>
      let for_exec :=
        if is_forced_rm command platform then Some ForcedRm
        else match wrapped command platform with
             | Some inner => dangerous_command_match_with_depth levels inner platform
             | None => None
             end in
      match for_exec with
      | Some m => Some m
      | None =>
          match (commands ← parse_shell_lc_literal_commands command;
                 find_map (fun c => dangerous_command_match_with_depth levels c platform) commands) with
          | Some m => Some m
          | None =>
              if bool_decide (platform = WindowsPlatform) && is_dangerous_command_windows command
              then Some OtherMatch else None
          end
      end
  end.

Definition dangerous_command_match_for_platform (command : list str) (platform : DangerousCommandPlatform)
    : option DangerousCommandMatch :=
  dangerous_command_match_with_depth (S MAX_DANGEROUS_COMMAND_WRAPPER_DEPTH) command platform.

Definition dangerous_powershell_words_match (command : list str) (platform : DangerousCommandPlatform)
    : option DangerousCommandMatch :=
  if bool_decide (platform = WindowsPlatform) && is_dangerous_powershell_words command then Some OtherMatch else None.

End Windows.
