(* ===== verification/CommandTheorems.v ===== *)
(** * What the classifier of dangerous commands finds

    The recursion through wrappers and scripts, as reachability: a command passes
    exactly when nothing it runs, through at most
    [MAX_DANGEROUS_COMMAND_WRAPPER_DEPTH] wrappers, is dangerous and nothing is
    wrapped deeper. *)

From stdpp Require Import relations.
From S2P Require Import Prelude RustStr ShellSyntax ShellTheorems CommandSafety.

Section Classifier.
Context {WW : WindowsWords} {SG : ShellGrammar}.
Variable platform : DangerousCommandPlatform.

(** ** What a command runs *)

Inductive runs : list str -> list str -> Prop :=
  | runs_wrapped c inner : wrapped c platform = Some inner -> runs c inner
  | runs_script c shell script tree m inner :
      extract_bash_command c = Some (shell, script) -> try_parse_shell script = Some tree ->
      has_error tree = false -> within (root_node tree) m ->
      parse_literal_command_from_node m = Some inner -> runs c inner.

(** A command that is dangerous in itself *)
Definition dangerous_itself (c : list str) : bool :=
  is_forced_rm c platform || (bool_decide (platform = WindowsPlatform) && is_dangerous_command_windows c).

Lemma forced_rm_not_wrapped c : is_forced_rm c platform = true -> wrapped c platform = None.
Proof.
  unfold is_forced_rm, wrapped. destruct (_ ≫= _) as [cmd0|]; [|done]. simpl.
  by destruct (str_eqb cmd0 (lit "rm") && _).
Qed.

Lemma scripts_None c levels :
  (commands ← parse_shell_lc_literal_commands c;
   find_map (fun c => dangerous_command_match_with_depth levels c platform) commands) = None
  <-> forall shell script tree m d,
        extract_bash_command c = Some (shell, script) -> try_parse_shell script = Some tree ->
        has_error tree = false -> within (root_node tree) m -> parse_literal_command_from_node m = Some d ->
        dangerous_command_match_with_depth levels d platform = None.
Proof.
  destruct (parse_shell_lc_literal_commands c) as [cs|] eqn:Hcs; simpl.
  - rewrite find_map_None. split.
    + intros H shell script tree m d Hx Ht He Hw Hm. apply H. apply (literal_commands_elem c cs d Hcs).
      by exists shell, script, tree, m.
    + intros H d (shell & script & tree & m & Hx & Ht & He & Hw & Hm)%(literal_commands_elem c cs d Hcs). eauto.
  - split; [|done]. intros _ shell script tree m d Hx Ht He. exfalso. revert Hcs.
    unfold parse_shell_lc_literal_commands. rewrite Hx. simpl. rewrite Ht. simpl. by rewrite He.
Qed.

(** One level of the classifier *)
Lemma level_None levels c :
  dangerous_command_match_with_depth (S levels) c platform = None
  <-> dangerous_itself c = false /\ forall d, runs c d -> dangerous_command_match_with_depth levels d platform = None.
Proof.
  cbn [dangerous_command_match_with_depth]. unfold dangerous_itself.
  destruct (is_forced_rm c platform) eqn:Hrm; [split; [done|by intros [? _]]|]. simpl.
  pose proof (scripts_None c levels) as Hscripts.
  set (scripts := _ ≫= _) in Hscripts |- *. clearbody scripts.
  split.
  - intros H.
    assert (Hw : forall inner, wrapped c platform = Some inner -> dangerous_command_match_with_depth levels inner platform = None).
    { intros inner Hi. rewrite Hi in H. by destruct (dangerous_command_match_with_depth levels inner platform). }
    assert (Hs : scripts = None) by (by repeat case_match).
    assert (Hwin : (bool_decide (platform = WindowsPlatform) && is_dangerous_command_windows c) = false)
      by (by repeat case_match).
    split; [done|]. intros d Hd. destruct Hd as [c inner Hi|c shell script tree m inner Hx Ht He Hm Hp]; [by apply Hw|].
    rewrite Hscripts in Hs. eauto.
  - intros [Hwin Hruns].
    assert (Hs : scripts = None) by (apply Hscripts; intros; apply Hruns; eapply runs_script; eauto).
    rewrite Hs, Hwin. destruct (wrapped c platform) as [inner|] eqn:Hw; [|done].
    by rewrite Hruns by by apply runs_wrapped.
Qed.

Lemma levels_None levels c :
  dangerous_command_match_with_depth levels c platform = None
  <-> (forall n d, n < levels -> nsteps runs n c d -> dangerous_itself d = false)
      /\ forall d, ~ nsteps runs levels c d.
Proof.
  revert c; induction levels as [|levels IH]; intros c.
  - split; [done|]. intros [_ H]. destruct (H c). constructor.
  - rewrite level_None. split.
    + intros [Hc Hd]. split.
      * intros n d Hn Hsteps. destruct Hsteps as [|n x y z Hxy Hyz]; [done|].
        apply Hd in Hxy. apply IH in Hxy as [Hxy _]. apply (Hxy n); [lia|done].
      * intros d Hsteps. inversion Hsteps as [|n x y z Hxy Hyz]; subst.
        apply Hd in Hxy. apply IH in Hxy as [_ Hxy]. by eapply Hxy.
    + intros [Hd Hdeep]. split; [apply (Hd 0); [lia|constructor]|].
      intros d Hrun. apply IH. split.
      * intros n e Hn He. apply (Hd (S n)); [lia|]. by econstructor.
      * intros e He. apply (Hdeep e). by econstructor.
Qed.

Lemma level_ForcedRm levels c :
  dangerous_command_match_with_depth levels c platform = Some ForcedRm ->
  exists n d, n < levels /\ nsteps runs n c d /\ is_forced_rm d platform = true.
Proof.
  revert c; induction levels as [|levels IH]; intros c; [done|].
  cbn [dangerous_command_match_with_depth].
  destruct (is_forced_rm c platform) eqn:Hrm; [intros _; exists 0, c; split_and!; [lia|constructor|done]|].
  intros H.
  assert (Hnext : exists d, runs c d /\ dangerous_command_match_with_depth levels d platform = Some ForcedRm).
  { destruct (match wrapped c platform with Some _ => _ | None => _ end) as [m|] eqn:Hw.
    - simplify_eq. destruct (wrapped c platform) as [inner|] eqn:Hi; [|done]. exists inner. split; [by constructor|done].
    - destruct (_ ≫= _) as [m|] eqn:Hs; [|by case_match]. simplify_eq.
      apply bind_Some in Hs as (cs & Hcs & (d & Hd & Hm)%find_map_Some). exists d. split; [|done].
      apply (literal_commands_elem c cs d Hcs) in Hd as (shell & script & tree & m & Hx & Ht & He & Hin & Hp).
      by eapply runs_script. }
  destruct Hnext as (d & Hd & (n & e & Hn & Hsteps & He)%IH).
  exists (S n), e. split_and!; [lia|by econstructor|done].
Qed.


(** ** Commands behind [sudo] and [env] *)

Definition called (nm : String.string) (exe : str) : Prop := executable_name_lookup_key exe platform = Some (lit nm).

Arguments called _%_string_scope _.

(** A word that [env] takes for the command *)
Definition command_word (exe : str) : Prop := exe <> lit "--" /\ is_env_assignment exe = false.

Inductive wrapper_words : list str -> Prop :=
  | sudo_words exe : called "sudo" exe -> command_word exe -> wrapper_words [exe]
  | env_words exe assignments :
      called "env" exe -> command_word exe ->
      Forall (fun a => a <> lit "--" /\ is_env_assignment a = true) assignments -> wrapper_words (exe :: assignments)
  | env_words_end exe assignments :
      called "env" exe -> command_word exe ->
      Forall (fun a => a <> lit "--" /\ is_env_assignment a = true) assignments ->
      wrapper_words (exe :: assignments ++ [lit "--"]).

Definition forced_rm_words (words : list str) : Prop :=
  exists exe args, words = exe :: args /\ called "rm" exe /\ command_word exe
                   /\ rm_args_include_force_option args = true.

Lemma skip_env_assignments assignments rest :
  Forall (fun a => a <> lit "--" /\ is_env_assignment a = true) assignments ->
  skip_env (assignments ++ rest) = skip_env rest.
Proof.
  induction 1 as [|a assignments [Hne Ha] _ IH]; [done|]. cbn [skip_env app].
  destruct (str_eqb_spec a (lit "--")); [done|]. by rewrite Ha.
Qed.

Lemma skip_env_command exe rest : command_word exe -> skip_env (exe :: rest) = exe :: rest.
Proof.
  intros [Hne Ha]. cbn [skip_env]. destruct (str_eqb_spec exe (lit "--")); [done|]. by rewrite Ha.
Qed.

(** The classifier looks through such words, whatever follows. *)
Lemma wrapper_words_run words exe args :
  wrapper_words words -> command_word exe ->
  is_forced_rm (words ++ exe :: args) platform = false
  /\ wrapped (words ++ exe :: args) platform = Some (exe :: args).
Proof.
  intros Hw Hexe. unfold is_forced_rm, wrapped.
  destruct Hw as [s Hs _|e assignments Hs _ Ha|e assignments Hs _ Ha]; unfold called in Hs;
    cbn [app head]; cbn [option_bind mbind]; rewrite Hs; (split; [done|]); cbn [tail].
  - done.
  - change (Some (skip_env (assignments ++ exe :: args)) = Some (exe :: args)).
    by rewrite skip_env_assignments, skip_env_command.
  - change (Some (skip_env ((assignments ++ [lit "--"]) ++ exe :: args)) = Some (exe :: args)).
    by rewrite <- app_assoc, skip_env_assignments.
Qed.

Lemma wrapper_words_head words : wrapper_words words -> exists exe rest, words = exe :: rest /\ command_word exe.
Proof. intros [exe ? ?|exe a ? ? ?|exe a ? ? ?]; eauto. Qed.

Lemma wrapped_rm_levels levels wrappers words :
  Forall wrapper_words wrappers -> forced_rm_words words ->
  dangerous_command_match_with_depth levels (concat wrappers ++ words) platform
  = Some (if length wrappers <? levels then ForcedRm else OtherMatch).
Proof.
  intros Hall (exe & args & -> & Hrm & Hexe & Hforce). revert levels.
  induction Hall as [|w wrappers Hw Hall IH]; intros [|levels]; [done| |done|].
  - cbn [dangerous_command_match_with_depth concat app].
    assert (is_forced_rm (exe :: args) platform = true) as ->; [|done].
    unfold is_forced_rm. cbn [head option_bind mbind]. unfold called in Hrm. by rewrite Hrm.
  - cbn [concat]. rewrite <- app_assoc.
    assert (Hnext : exists e rest, concat wrappers ++ exe :: args = e :: rest /\ command_word e).
    { destruct wrappers as [|w' ws]; [by exists exe, args|]. cbn [concat].
      destruct (wrapper_words_head w') as (e & rest & -> & He); [by apply Forall_cons in Hall as [? _]|].
      by exists e, ((rest ++ concat ws) ++ exe :: args). }
    destruct Hnext as (e & rest & Heq & He). specialize (IH levels). rewrite Heq in IH |- *.
    destruct (wrapper_words_run w e rest Hw He) as [Hnot Hrun].
    cbn [dangerous_command_match_with_depth]. rewrite Hnot, Hrun, IH. reflexivity.
Qed.

(** A forced [rm] behind [sudo]s and [env]s, in any number and with any
    assignments, whatever the directory the executables are named in, is always
    reported: as a forced [rm] up to [MAX_DANGEROUS_COMMAND_WRAPPER_DEPTH]
    wrappers, and beyond them as dangerous without saying why. *)
Theorem wrapped_rm_found (wrappers : list (list str)) (words : list str) :
  Forall wrapper_words wrappers -> forced_rm_words words ->
  dangerous_command_match_for_platform (concat wrappers ++ words) platform
  = Some (if length wrappers <=? MAX_DANGEROUS_COMMAND_WRAPPER_DEPTH then ForcedRm else OtherMatch).
Proof. intros Hw Hrm. exact (wrapped_rm_levels _ _ _ Hw Hrm). Qed.

End Classifier.

(** ** Operators inside a token of [cmd] *)

Definition operator_free (s : str) : Prop := Forall (fun c => is_operator_char c = false) s.

Lemma flush_part (cur : str) : concat (if is_empty cur then [] else [cur]) = cur.
Proof. destruct cur; simpl; [done|]. by rewrite app_nil_r. Qed.

Lemma split_operators_spec token cur :
  operator_free cur ->
  concat (split_operators token cur) = cur ++ token
  /\ Forall (fun part => part ∈ CMD_SEPARATORS \/ part <> [] /\ operator_free part) (split_operators token cur).
Proof.
  remember (length token) as len eqn:Hlen. assert (Hle : length token <= len) by lia. clear Hlen.
  revert token cur Hle. induction len as [|len IH]; intros token cur Hle Hcur.
  { destruct token; [|simpl in Hle; lia]. cbn [split_operators]. rewrite flush_part, app_nil_r.
    split; [done|]. destruct cur; constructor; [by right|done]. }
  assert (Hflush : Forall (fun part => part ∈ CMD_SEPARATORS \/ part <> [] /\ operator_free part)
                     (if is_empty cur then [] else [cur])) by (destruct cur; constructor; [by right|done]).
  destruct token as [|ch token]; cbn [split_operators]; [rewrite flush_part, app_nil_r; done|].
  destruct (is_operator_char ch) eqn:Hop.
  - assert (Hch : ch = 38%N \/ ch = 124%N) by (unfold is_operator_char in Hop; lia).
    rewrite concat_app, flush_part, Forall_app.
    assert (Hone : [ch] ∈ CMD_SEPARATORS) by (destruct Hch as [-> | ->]; vm_compute; repeat (left || right)).
    assert (Htwo : [ch; ch] ∈ CMD_SEPARATORS) by (destruct Hch as [-> | ->]; vm_compute; repeat (left || right)).
    destruct token as [|next token]; [split; [done|split; [done|constructor; [by left|constructor]]]|].
    simpl in Hle. destruct (N.eqb_spec next ch) as [->|Hne].
    + destruct (IH token []) as [H1 H2]; [lia|constructor|]. cbn [concat]. rewrite H1.
      split; [done|]. split; [done|]. constructor; [by left|done].
    + destruct (IH (next :: token) []) as [H1 H2]; [simpl; lia|constructor|].
      cbn [concat]. rewrite H1. split; [done|]. split; [done|]. constructor; [by left|done].
  - destruct (IH token (cur ++ [ch])) as [H1 H2]; [simpl in Hle; lia|apply Forall_app; split; [done|by repeat constructor]|].
    rewrite H1, <- app_assoc. done.
Qed.

(** No separator is left inside a word, and none is lost. *)
Lemma split_embedded_separators token part :
  part ∈ split_embedded_cmd_operators token -> part ∈ CMD_SEPARATORS \/ operator_free part.
Proof.
  unfold split_embedded_cmd_operators. rewrite list_elem_of_In, List.filter_In, <- list_elem_of_In. intros [Hin _].
  destruct (split_operators_spec token []) as [_ Hall]; [constructor|].
  rewrite Forall_forall in Hall. destruct (Hall _ Hin) as [?|[_ ?]]; auto.
Qed.

(** ** Examples *)

Module CommandExamples.

Definition leaf (k : str) (is_named : bool) (at_byte : N) (text : str) : Node := mkNode k is_named at_byte (Some text) [].
Definition cmd_node (at_byte : N) (nm : str) (args : list Node) : Node :=
  mkNode (lit "command") true at_byte None
    (mkNode (lit "command_name") true at_byte (Some nm) [leaf (lit "word") true at_byte nm] :: args).

(** [ls && rm -rf x] *)
Definition ls_rm : Tree :=
  mkTree (mkNode (lit "program") true 0 None
    [mkNode (lit "list") true 0 None
       [cmd_node 0 (lit "ls") [];
        leaf (lit "&&") false 3 (lit "&&");
        cmd_node 6 (lit "rm") [leaf (lit "word") true 9 (lit "-rf"); leaf (lit "word") true 13 (lit "x")]]]) false.

#[export] Instance one_script : ShellGrammar :=
  { try_parse_shell script := if str_eqb script (lit "ls && rm -rf x") then Some ls_rm else None }.

#[export] Instance no_windows : WindowsWords :=
  { shlex_split s := Some (split_on 32%N s); url_capture _ := None; url_scheme _ := None }.

Definition run_script : list str := [lit "/bin/bash"; lit "-lc"; lit "ls && rm -rf x"].


Lemma wrapped_rm_found_witness :
  dangerous_command_match_for_platform
    (concat [[lit "sudo"]; lit "/usr/bin/env" :: [lit "A=b"; lit "-i"]] ++ [lit "/bin/rm"; lit "x"; lit "-rf"]) PosixPlatform
  = Some ForcedRm.
Proof.
  rewrite (wrapped_rm_found PosixPlatform [[lit "sudo"]; lit "/usr/bin/env" :: [lit "A=b"; lit "-i"]]
             [lit "/bin/rm"; lit "x"; lit "-rf"]); [reflexivity| |].
  - repeat constructor; done.
  - exists (lit "/bin/rm"), [lit "x"; lit "-rf"]. repeat split; done.
Defined.

(** A script's commands are looked at, and what is quoted is not a command. *)
Example script_reported : dangerous_command_match_for_platform run_script PosixPlatform = Some ForcedRm.
Proof. reflexivity. Qed.
Example trap_reported :
  dangerous_command_match_for_platform [lit "trap"; lit "ls && rm -rf x"; lit "EXIT"] PosixPlatform = Some ForcedRm.
Proof. reflexivity. Qed.
Example not_forced :
  dangerous_command_match_for_platform [lit "rm"; lit "--"; lit "-f"] PosixPlatform = None.
Proof. reflexivity. Qed.
Example options_of_sudo_hide :
  dangerous_command_match_for_platform [lit "sudo"; lit "-n"; lit "rm"; lit "-rf"; lit "x"] PosixPlatform = None.
Proof. reflexivity. Qed.
Example options_of_env_hide :
  dangerous_command_match_for_platform [lit "env"; lit "-u"; lit "A"; lit "rm"; lit "-rf"; lit "x"] PosixPlatform = None.
Proof. reflexivity. Qed.
Example del_forced :
  dangerous_command_match_for_platform [lit "CMD.EXE"; lit "/c"; lit "echo hi&del /F x"] WindowsPlatform = Some OtherMatch.
Proof. reflexivity. Qed.
Example remove_item_forced :
  dangerous_command_match_for_platform
    [lit "pwsh"; lit "-NoProfile"; lit "-Command"; lit "{Remove-Item x -Force:$true}"] WindowsPlatform = Some OtherMatch.
Proof. reflexivity. Qed.
Example separate_segments :
  dangerous_command_match_for_platform
    [lit "pwsh"; lit "-Command"; lit "Remove-Item x; Write-Host -Force"] WindowsPlatform = None.
Proof. reflexivity. Qed.

End CommandExamples.
