(* ===== verification/PowerShell.v ===== *)
(** * PowerShell scripts as commands

    shell-command/src/powershell.rs (the parts that start no process) and
    command_safety/powershell_tree_sitter.rs: a script made of literal commands is
    lowered to the words of each command, and everything else is refused. The
    grammar (tree-sitter) is a parameter. *)

From S2P Require Import Prelude RustStr ShellSyntax.

(** The tree of a masked source: the text of its nodes is that of the mask *)
Class PowerShellGrammar := { parse_powershell : str -> option Tree }.

(** ** Words *)

Definition backtick : char := 96%N.
Definition squote : char := 39%N.

Definition decode_backtick_escape (ch : char) : char :=
  if (ch =? 48)%N then 0%N
  else if (ch =? 97)%N then 7%N
  else if (ch =? 98)%N then 8%N
  else if (ch =? 102)%N then 12%N
  else if (ch =? 110)%N then 10%N
  else if (ch =? 114)%N then 13%N
  else if (ch =? 116)%N then 9%N
  else if (ch =? 118)%N then 11%N
  else ch.

(** The characters after the opening quote: the value and what follows *)
Fixpoint parse_single_quoted (chars value : str) : result str (str * str) :=
  match chars with
  | [] => Err (lit "unterminated single-quoted string")
  | c :: chars =>
      if (c =? squote)%N then
        match chars with
        | d :: chars' => if (d =? squote)%N then parse_single_quoted chars' (value ++ [squote]) else Ok (value, chars)
        | [] => Ok (value, [])
        end
      else parse_single_quoted chars (value ++ [c])
  end.

Fixpoint parse_double_quoted (chars value : str) : result str (str * str) :=
  match chars with
  | [] => Err (lit "unterminated double-quoted string")
  | c :: chars =>
      if (c =? dquote)%N then Ok (value, chars)
      else if (c =? 36)%N then Err (lit "expandable string contains variable syntax")
      else if (c =? backtick)%N then
        match chars with
        | [] => Err (lit "trailing PowerShell escape")
        | escaped :: chars =>
            if (escaped =? 101)%N then Err (lit "PowerShell-version-dependent escape")
            else if (escaped =? 117)%N && starts_with (lit "{") chars then Err (lit "PowerShell Unicode escape")
            else parse_double_quoted chars (value ++ [decode_backtick_escape escaped])
        end
      else parse_double_quoted chars (value ++ [c])
  end.

Definition is_rejected_bare_character (ch : char) : bool :=
  contains_char ch (lit "$@'(){}[];|&><," ++ [dquote]).

Fixpoint parse_bare_word (chars value : str) : result str (str * str) :=
  let finish chars := if is_empty value then Err (lit "empty bare word") else Ok (value, chars) in
  match chars with
  | [] => finish []
  | ch :: rest =>
      if is_whitespace ch then finish chars
      else if (ch =? backtick)%N then
        match rest with
        | [] => Err (lit "trailing PowerShell escape")
        | escaped :: rest =>
            if (escaped =? 101)%N then Err (lit "PowerShell-version-dependent escape")
            else parse_bare_word rest (value ++ [decode_backtick_escape escaped])
        end
      else if is_rejected_bare_character ch then Err (lit "dynamic or structural bare character")
      else parse_bare_word rest (value ++ [ch])
  end.

Definition reject_unsupported_bare_word (word : str) : result str unit :=
  if starts_with (lit "-") word && negb (starts_with (lit "--") word) && contains_char 58%N word
  then Err (lit "attached PowerShell parameter value")
  else if match head word with Some ch => is_ascii_digit ch | None => false end
          && negb (str_eqb word (lit "0") || negb (starts_with (lit "0") word) && forallb is_ascii_digit word)
  then Err (lit "non-canonical numeric-leading bare word")
  else Ok tt.

(** One word: its value, what follows, and whether it was bare *)
Definition lower_word (chars : str) : result str (str * str * bool) :=
  match chars with
  | [] => '(word, next) ← parse_bare_word [] []; Ok (word, next, true)
  | c :: rest =>
      if (c =? squote)%N then '(word, next) ← parse_single_quoted rest []; Ok (word, next, false)
      else if (c =? dquote)%N then '(word, next) ← parse_double_quoted rest []; Ok (word, next, false)
      else '(word, next) ← parse_bare_word chars []; Ok (word, next, true)
  end.

(** The loop over the words; each of them takes a character. *)
Fixpoint lower_words (fuel : nat) (chars : str) : result str (list str) :=
  match fuel with
  | 0 => Ok []
  | S fuel =>
      let chars := trim_start chars in
      match chars with
      | [] => Ok []
      | c :: _ =>
          if (c =? 35)%N then Ok []
          else
            '(word, next, is_bare) ← lower_word chars;
            if match next with d :: _ => negb (is_whitespace d) && negb (d =? 35)%N | [] => false end
            then Err (lit "adjacent/concatenated command elements")
            else if is_empty word then Err (lit "empty word")
            else
              _ ← if (is_bare : bool) then reject_unsupported_bare_word word else Ok tt;
              words ← lower_words fuel next;
              Ok (word :: words)
      end
  end.

Definition lower_command_text (command_text : str) : result str (list str) :=
  let chars := trim command_text in
  words ← lower_words (length chars) chars;
  if is_empty words then Err (lit "command lowered to no words") else Ok words.

(** ** Masking inline parameters *)

Definition is_inline_parameter_token_separator (ch : char) : bool :=
  is_whitespace ch || contains_char ch (lit "|&;#><(){}").
Definition is_rejected_inline_parameter_character (ch : char) : bool :=
  is_whitespace ch || is_rejected_bare_character ch || contains_char ch (backtick :: lit "#").

Definition push_inline_parameter_equals (token : str) (start : N) : list N :=
  if starts_with (lit "--") token && forallb (fun ch => negb (is_rejected_inline_parameter_character ch)) token then
    match split_once 61%N token with
    | Some (before, after) =>
        let relative_equals := blen before in
        if (2 <? relative_equals)%N && (relative_equals + 1 <? blen token)%N then [(start + relative_equals)%N] else []
    | None => []
    end
  else [].

(** [token] is the text from [start] to [index]. *)
Fixpoint inline_equals (rest token : str) (start index : N) : list N :=
  match rest with
  | [] => push_inline_parameter_equals token start
  | ch :: rest =>
      let next := (index + len_utf8 ch)%N in
      if is_inline_parameter_token_separator ch
      then push_inline_parameter_equals token start ++ inline_equals rest [] next next
      else inline_equals rest (token ++ [ch]) start next
  end.
Definition inline_double_dash_parameter_equals (script : str) : list N := inline_equals script [] 0 0.

Definition mask (script : str) : result str str :=
  map_err (fun _ => lit "masked command source is not UTF-8")
    (from_utf8 (foldl (fun bytes equals => <[N.to_nat equals := 32%N]> bytes) (as_bytes script)
                  (inline_double_dash_parameter_equals script))).

(** ** The tree *)

Definition ALLOWED_NAMED_KINDS : list str :=
  [lit "program"; lit "statement_list"; lit "pipeline"; lit "pipeline_chain"; lit "pipeline_chain_tail"; lit "command";
   lit "command_name"; lit "command_elements"; lit "command_argument_sep"; lit "command_parameter"; lit "generic_token";
   lit "array_literal_expression"; lit "unary_expression"; lit "string_literal"; lit "verbatim_string_characters";
   lit "expandable_string_literal"; lit "integer_literal"; lit "decimal_integer_literal"; lit "comment";
   lit "empty_statement"; lit "expression_with_unary_operator"].
Definition is_allowed_named_kind (k : str) : bool := existsb (str_eqb k) ALLOWED_NAMED_KINDS.

(** The bytes of the script a node stands for *)
Definition end_byte (n : Node) : N := (start_byte n + blen (default [] (utf8_text n)))%N.
Definition slice (script : str) (from to : N) : str := byte_prefix (to - from) (byte_drop from script).
Definition node_text (script : str) (n : Node) : option str :=
  _ ← utf8_text n; Some (slice script (start_byte n) (end_byte n)).

(** The first node of a walk for which [f] has a value *)
Fixpoint walk_find {A} (f : Node -> option A) (fuel : nat) (stack : list Node) : option A :=
  match fuel, stack with
  | S fuel, n :: stack =>
      match f n with
      | Some a => Some a
      | None => walk_find f fuel (reverse (named_children n) ++ stack)
      end
  | _, _ => None
  end.

Definition is_requires (script : str) (n : Node) : option unit :=
  if is_kind "comment" n
     && match node_text script n with
        | Some comment => starts_with (lit "#requires") (to_ascii_lowercase (trim_start comment))
        | None => false
        end
  then Some tt else None.
Definition has_requires_directive (root : Node) (script : str) : bool :=
  bool_decide (is_Some (walk_find (is_requires script) (size root) [root])).

Definition unrecognized_kind (n : Node) : option str :=
  if named n && negb (is_allowed_named_kind (kind n)) then Some (kind n) else None.
Definition first_unrecognized_named_kind (root : Node) : option str :=
  walk_find unrecognized_kind (size root) [root].

Fixpoint collect_commands (fuel : nat) (stack commands : list Node) : list Node :=
  match fuel, stack with
  | S fuel, n :: stack =>
      if is_kind "command" n then collect_commands fuel stack (commands ++ [n])
      else collect_commands fuel (named_children n ++ stack) commands
  | _, _ => commands
  end.
Definition collect_command_nodes (root : Node) : list Node := collect_commands (size root) [root] [].

(** ** What lies between the commands *)

Definition is_line_break (ch : char) : bool := (ch =? 13)%N || (ch =? 10)%N.

Fixpoint from_line_break (s : str) : str :=
  match s with
  | [] => []
  | c :: s' => if is_line_break c then s else from_line_break s'
  end.

(** A comment starts after a separator. *)
Definition at_boundary (previous : option char) : bool :=
  match previous with Some c => is_whitespace c || (c =? 59)%N | None => false end.

(** [rest] is the source from [index] on, [previous] the character before it. Every
    round takes a character or a range. *)
Fixpoint covered (fuel : nat) (index : N) (previous : option char) (rest : str) (ranges : list (N * N))
    (can_chain needs_command : bool) (paren_depth : N) : bool :=
  match fuel with
  | 0 => false
  | S fuel =>
      match rest with
      | [] => is_empty ranges && negb needs_command && (paren_depth =? 0)%N
      | ch :: next =>
          let go index consumed rest := covered fuel index (match last consumed with Some c => Some c | None => previous end) rest in
          match (match ranges with (s, e) :: ranges' => if (index =? s)%N then Some (e, ranges') else None | [] => None end) with
          | Some (e, ranges') =>
              go e (byte_prefix (e - index) rest) (byte_drop (e - index) rest) ranges' true false paren_depth
          | None =>
              let one := go (index + len_utf8 ch)%N [ch] next ranges in
              if is_line_break ch then one false needs_command paren_depth
              else if is_whitespace ch then one can_chain needs_command paren_depth
              else if (ch =? 59)%N then if needs_command then false else one false needs_command paren_depth
              else if (ch =? 40)%N && negb can_chain then one can_chain needs_command (paren_depth + 1)%N
              else if (ch =? 41)%N && (0 <? paren_depth)%N && negb needs_command
              then one can_chain needs_command (paren_depth - 1)%N
              else if (ch =? 124)%N && can_chain then
                match next with
                | d :: next' =>
                    if (d =? 124)%N then go (index + 2)%N [ch; d] next' ranges false true paren_depth
                    else one false true paren_depth
                | [] => one false true paren_depth
                end
              else if (ch =? 38)%N && can_chain && starts_with (lit "&") next
              then go (index + 2)%N (lit "&&") (drop 1 next) ranges false true paren_depth
              else if (ch =? 35)%N && negb needs_command then
                if (0 <? index)%N && negb (at_boundary previous) then false
                else
                  let rest' := from_line_break next in
                  go (index + (blen rest - blen rest'))%N (take (length rest - length rest') rest) rest' ranges
                    can_chain needs_command paren_depth
              else if starts_with (lit "<#") rest && negb needs_command && ((index =? 0)%N || at_boundary previous) then
                match find (lit "#>") next with
                | None => false
                | Some k =>
                    let consumed := take (k + 3) rest in
                    go (index + blen consumed)%N consumed (drop (k + 3) rest) ranges can_chain needs_command paren_depth
                end
              else false
          end
      end
  end.

Definition source_is_covered_by_commands (script : str) (command_ranges : list (N * N)) : bool :=
  covered (S (length script + length command_ranges)) 0 None script command_ranges false false 0.

(** ** Lowering a script *)

Section Lowering.
Context {PG : PowerShellGrammar}.

(** What stands for a quote or a dash although it is neither *)
Definition is_syntax_alias (ch : char) : bool := contains_char ch [8216; 8217; 8220; 8221; 8211; 8212; 8213]%N.

Definition lower_with_tree_sitter (script : str) : result str (list (list str)) :=
  if existsb is_syntax_alias script then Err (lit "PowerShell Unicode syntax alias")
  else
    parse_source ← mask script;
    tree ← ok_or (parse_powershell parse_source) (lit "tree-sitter returned no tree");
    let root := root_node tree in
    if has_error tree then Err (lit "tree contains ERROR or missing nodes")
    else if has_requires_directive root script then Err (lit "requires directives can execute before command lowering")
    else
      match first_unrecognized_named_kind root with
      | Some k => Err (lit "unrecognized named node: " ++ k)
      | None =>
          let command_nodes := collect_command_nodes root in
          if is_empty command_nodes then Err (lit "no literal command nodes")
          else
            commands ← try_map (fun node => text ← ok_or (node_text script node) (lit "command source is not UTF-8");
                                            lower_command_text text) command_nodes;
            let command_ranges := (fun node => (start_byte node, end_byte node)) <$> command_nodes in
            if negb (source_is_covered_by_commands script command_ranges)
            then Err (lit "source outside literal command nodes")
            else if existsb (fun command => match head command with
                                            | Some word => eq_ignore_ascii_case word (lit "using")
                                            | None => false
                                            end) commands
            then Err (lit "using declarations require the PowerShell AST oracle")
            else if existsb (fun command => is_empty command || existsb is_empty command) commands
            then Err (lit "empty lowered command or word")
            else Ok commands
      end.

Definition try_parse_powershell_commands (script : str) : option (list (list str)) := ok (lower_with_tree_sitter script).

(** ** Invocations *)

Definition POWERSHELL_FLAGS : list str := [lit "-nologo"; lit "-noprofile"; lit "-command"; lit "-c"].
Definition UTF8_OUTPUT_PREFIX : str :=
  lit "try { [Console]::OutputEncoding=[System.Text.Encoding]::UTF8 } catch {}" ++ [nl].

(** The arguments from the first on *)
Fixpoint script_argument (args : list str) : option str :=
  match args with
  | flag :: ((script :: _) as rest) =>
      if negb (existsb (str_eqb (to_ascii_lowercase flag)) POWERSHELL_FLAGS) then None
      else if eq_ignore_ascii_case flag (lit "-Command") || eq_ignore_ascii_case flag (lit "-c") then Some script
      else script_argument rest
  | _ => None
  end.

Definition extract_powershell_command (command : list str) : option (str * str) :=
  if length command <? 3 then None
  else
    match command with
    | [] => None
    | shell :: args =>
        if bool_decide (detect_shell_type shell = Some PowerShell) then pair shell <$> script_argument args else None
    end.

Definition prefix_powershell_script_with_utf8 (command : list str) : list str :=
  match extract_powershell_command command with
  | None => command
  | Some (_, script) =>
      let script :=
        if starts_with UTF8_OUTPUT_PREFIX (trim_start script) then script else UTF8_OUTPUT_PREFIX ++ script in
      take (length command - 1) command ++ [script]
  end.

Definition parse_powershell_command_into_plain_commands (command : list str) : option (list (list str)) :=
  '(_, script) ← extract_powershell_command command;
  try_parse_powershell_commands script.

Definition parse_powershell_script_into_plain_commands (script : str) : option (list (list str)) :=
  try_parse_powershell_commands script.

End Lowering.
