(* ===== verification/PowerShellTheorems.v ===== *)
(** * What the lowering of PowerShell scripts promises

    Words that are spelled literally are lowered to what they spell, and an
    accepted script consists of the lowered commands and of separators,
    parentheses and comments. *)

From S2P Require Import Prelude RustStr Truncate ShellSyntax ShellTheorems PowerShell.
From Stdlib Require Import ZifyBool.

(** ** Words *)

Definition spaces (s : str) : Prop := Forall (fun c => is_whitespace c = true) s.

(** Quotes are doubled inside single quotes. *)
Definition escape_quotes (w : str) : str := w ≫= fun c => if (c =? squote)%N then [squote; squote] else [c].

Definition bare_char (c : char) : Prop :=
  is_whitespace c = false /\ c <> backtick /\ is_rejected_bare_character c = false.

(** The spellings of a word *)
Inductive spelled : str -> str -> Prop :=
  | spelled_quoted w : w <> [] -> spelled (squote :: escape_quotes w ++ [squote]) w
  | spelled_bare w :
      w <> [] -> head w <> Some 35%N -> Forall bare_char w -> reject_unsupported_bare_word w = Ok tt -> spelled w w.

(** Words between white space *)
Inductive command_line : str -> list str -> Prop :=
  | line_end ws : spaces ws -> command_line ws []
  | line_word ws src w rest words :
      spaces ws -> spelled src w -> command_line rest words ->
      match rest with [] => True | c :: _ => is_whitespace c = true end ->
      command_line (ws ++ src ++ rest) (w :: words).

Lemma single_quoted_escaped w value rest :
  match rest with [] => True | c :: _ => c <> squote end ->
  parse_single_quoted (escape_quotes w ++ squote :: rest) value = Ok (value ++ w, rest).
Proof.
  intros Hrest. revert value. induction w as [|c w IH]; intros value.
  - cbn [escape_quotes mbind list_bind app parse_single_quoted]. rewrite app_nil_r. cbn [N.eqb squote Pos.eqb].
    destruct rest as [|d rest]; [done|]. by destruct (N.eqb_spec d squote).
  - unfold escape_quotes. csimpl. fold (escape_quotes w). destruct (N.eqb_spec c squote) as [->|Hc].
    + cbn [app parse_single_quoted]. rewrite N.eqb_refl. by rewrite IH, <- app_assoc.
    + cbn [app parse_single_quoted]. destruct (N.eqb_spec c squote); [done|]. by rewrite IH, <- app_assoc.
Qed.

Lemma bare_word_spec w value rest :
  Forall bare_char w -> value ++ w <> [] ->
  match rest with [] => True | c :: _ => is_whitespace c = true end ->
  parse_bare_word (w ++ rest) value = Ok (value ++ w, rest).
Proof.
  intros Hw Hne Hrest. revert value Hne. induction Hw as [|c w (Hs & Hb & Hr) _ IH]; intros value Hne.
  - rewrite app_nil_r in Hne |- *. destruct rest as [|d rest]; cbn [app parse_bare_word];
      [|rewrite Hrest]; by destruct value.
  - cbn [app parse_bare_word]. rewrite Hs, Hr. destruct (N.eqb_spec c backtick); [done|].
    rewrite IH, <- app_assoc; [done|]. by destruct value.
Qed.

Lemma squote_not_space : is_whitespace squote = false. Proof. done. Qed.

Lemma lower_word_spelled src w rest :
  spelled src w -> match rest with [] => True | c :: _ => is_whitespace c = true end ->
  exists is_bare, lower_word (src ++ rest) = Ok (w, rest, is_bare)
  /\ (is_bare = true -> reject_unsupported_bare_word w = Ok tt).
Proof.
  intros Hsp Hrest. destruct Hsp as [w Hne|w Hne Hhash Hbare Hok].
  - exists false. split; [|done]. cbn [app lower_word]. rewrite N.eqb_refl, <- app_assoc.
    cbn [app]. rewrite single_quoted_escaped; [done|]. destruct rest as [|c rest]; [done|]. by intros ->.
  - exists true. split; [|done]. destruct w as [|c w]; [done|].
    assert (Hc : bare_char c) by by apply Forall_cons in Hbare as [? _].
    pose proof (bare_word_spec (c :: w) [] rest Hbare Hne Hrest) as Hp. cbn [app] in Hp |- *.
    cbn [lower_word]. destruct Hc as (_ & _ & Hr). unfold is_rejected_bare_character in Hr.
    destruct (N.eqb_spec c squote) as [->|]; [done|]. destruct (N.eqb_spec c dquote) as [->|]; [done|].
    by rewrite Hp.
Qed.

Lemma trim_start_spaces ws s : spaces ws -> trim_start (ws ++ s) = trim_start s.
Proof. induction 1 as [|c ws Hc _ IH]; [done|]. unfold trim_start in *. cbn [app trim_start_matches]. by rewrite Hc. Qed.

Lemma trim_end_spaces ws : spaces ws -> trim_end ws = [].
Proof. induction 1 as [|c ws Hc _ IH]; [done|]. by rewrite trim_end_cons, IH, Hc. Qed.

(** A spelling starts and ends with other characters than white space, and not
    with a comment. *)
Lemma spelled_ends src w :
  spelled src w ->
  (exists c s, src = c :: s /\ is_whitespace c = false /\ c <> 35%N)
  /\ exists s d, src = s ++ [d] /\ is_whitespace d = false.
Proof.
  intros [w' Hne|w' Hne Hhash Hbare _].
  - split; [by eexists _, _|]. by exists (squote :: escape_quotes w'), squote.
  - split.
    + destruct w' as [|c s]; [done|]. apply Forall_cons in Hbare as [(Hc & _) _]. exists c, s.
      split_and!; [done|done|]. intros ->. done.
    + destruct w' as [|d s _] using rev_ind; [done|]. apply Forall_app in Hbare as [_ Hd].
      apply Forall_singleton in Hd as (Hd & _). eauto.
Qed.

Lemma lower_words_line fuel t words :
  command_line t words -> length t <= fuel -> lower_words fuel t = Ok words.
Proof.
  intros Hl. revert fuel. induction Hl as [ws Hws|ws src w rest words Hws Hsp Hl IH Hrest]; intros fuel Hfuel.
  - destruct fuel as [|fuel]; [done|]. cbn [lower_words]. rewrite <- (app_nil_r ws), (trim_start_spaces ws [] Hws). done.
  - destruct (spelled_ends _ _ Hsp) as [(c & s & -> & Hc & Hhash) _].
    rewrite !length_app in Hfuel. simpl in Hfuel. destruct fuel as [|fuel]; [lia|].
    cbn [lower_words]. rewrite (trim_start_spaces ws _ Hws). cbn [app]. rewrite trim_start_nonspace by done.
    destruct (N.eqb_spec c 35); [done|].
    destruct (lower_word_spelled _ _ _ Hsp Hrest) as (b & Hlow & Hok). cbn [app] in Hlow. rewrite Hlow.
    assert (Hadj : match rest with d :: _ => negb (is_whitespace d) && negb (d =? 35)%N | [] => false end = false)
      by (destruct rest as [|d rest]; [done|by rewrite Hrest]).
    change (lower_word (c :: s ++ rest)) with (lower_word (c :: s ++ rest)).
    cbn [mbind result_bind]. rewrite Hadj.
    assert (Hne : is_empty w = false) by (by destruct Hsp as [[] ?|[] ? ?]).
    rewrite Hne. destruct b; [rewrite Hok by done|]; cbn [mbind result_bind]; rewrite IH by lia; done.
Qed.

Definition starts_spaced (s : str) : Prop := match s with [] => True | c :: _ => is_whitespace c = true end.

Lemma trim_end_starts_spaced s : starts_spaced s -> starts_spaced (trim_end s).
Proof. destruct s as [|c s]; [done|]. simpl. intros Hc. rewrite trim_end_cons. by destruct (_ && _). Qed.

Lemma trim_end_word src w rest : spelled src w -> trim_end (src ++ rest) = src ++ trim_end rest.
Proof.
  intros [_ (s & d & -> & Hd)]%spelled_ends. rewrite <- !app_assoc. cbn [app].
  pose proof (trim_end_cons_nonspace d rest Hd) as E. by rewrite (trim_end_app_nonspace _ _ _ _ E), E.
Qed.

Lemma command_line_trim t words : command_line t words -> command_line (trim t) words.
Proof.
  intros Hl. assert (Hend : command_line (trim_end t) words).
  { induction Hl as [ws Hws|ws src w rest words Hws Hsp Hl IH Hrest]; [rewrite trim_end_spaces by done; apply line_end, Forall_nil_2|].
    destruct (spelled_ends _ _ Hsp) as [(c & s & Esrc & Hc & _) _].
    assert (E : trim_end (ws ++ src ++ rest) = ws ++ src ++ trim_end rest).
    { pose proof (trim_end_word _ _ rest Hsp) as E. rewrite <- E. rewrite Esrc in E |- *. cbn [app] in E |- *.
      by apply (trim_end_app_nonspace _ _ c (s ++ trim_end rest)). }
    rewrite E. constructor; [done|done|done|]. by apply trim_end_starts_spaced. }
  unfold trim. destruct Hend as [ws Hws|ws src w rest words' Hws Hsp Hl' Hrest].
  - rewrite <- (app_nil_r ws), (trim_start_spaces ws [] Hws). apply line_end, Forall_nil_2.
  - destruct (spelled_ends _ _ Hsp) as [(c & s & -> & Hc & _) _]. rewrite (trim_start_spaces ws _ Hws). cbn [app].
    rewrite trim_start_nonspace by done. by apply (line_word [] (c :: s)); [apply Forall_nil_2|..].
Qed.

(** Words spelled literally, bare or in single quotes with the quotes inside
    doubled, are lowered to exactly what they spell, whatever white space stands
    around and between them. *)
Theorem lowering_reads_spellings (text : str) (words : list str) :
  command_line text words -> words <> [] -> lower_command_text text = Ok words.
Proof.
  intros Hl Hne. unfold lower_command_text. rewrite (lower_words_line _ _ words); [|by apply command_line_trim|done].
  by destruct words.
Qed.

(** ** Masking *)

(** Masking changes no width, so that places in the mask are places in the script. *)
Definition same_widths (s t : str) : Prop := len_utf8 <$> s = len_utf8 <$> t.

Lemma same_widths_blen s t : same_widths s t -> blen s = blen t.
Proof.
  revert t. unfold same_widths. induction s as [|c s IH]; intros [|d t]; simpl; try done.
  intros [= H1 H2%IH]. by rewrite H1, H2.
Qed.

Lemma same_widths_app s t1 t2 :
  same_widths s (t1 ++ t2) -> exists s1 s2, s = s1 ++ s2 /\ same_widths s1 t1 /\ same_widths s2 t2.
Proof.
  unfold same_widths. rewrite fmap_app. intros (s1 & s2 & -> & H1 & H2)%fmap_app_inv. by exists s1, s2.
Qed.

(** [e] is the place of a character of one byte. *)
Definition narrow_at (s : str) (e : N) : Prop := exists a c b, s = a ++ c :: b /\ blen a = e /\ (c < 128)%N.

Lemma narrow_same_widths s t e : same_widths s t -> narrow_at t e -> narrow_at s e.
Proof.
  intros Hw (a & c & b & -> & <- & Hc). apply same_widths_app in Hw as (a' & s2 & -> & Ha & Hb).
  destruct s2 as [|c' b']; [done|]. exists a', c', b'. split_and!; [done|by apply same_widths_blen|].
  unfold same_widths in Hb. simpl in Hb. injection Hb as Hlen _. unfold len_utf8 in Hlen.
  rewrite (proj2 (N.ltb_lt c 128) Hc) in Hlen. repeat case_match; lia.
Qed.

Lemma mask_one s e :
  valid_str s -> narrow_at s e ->
  exists t, <[N.to_nat e := 32%N]> (as_bytes s) = as_bytes t /\ valid_str t /\ same_widths t s.
Proof.
  intros Hv (a & c & b & -> & <- & Hc). exists (a ++ 32%N :: b). split_and!.
  - rewrite !as_bytes_app, !as_bytes_cons, !encode_char_ascii by lia. cbn [app].
    replace (N.to_nat (blen a)) with (length (as_bytes a) + 0)
      by (rewrite <- length_as_bytes; unfold lenN; lia).
    rewrite insert_app_r. done.
  - unfold valid_str in *. rewrite Forall_app, Forall_cons in Hv |- *. naive_solver.
  - unfold same_widths. rewrite !fmap_app. simpl. unfold len_utf8 at 2 5. rewrite (proj2 (N.ltb_lt c 128) Hc). done.
Qed.

Lemma mask_all es s t :
  valid_str t -> same_widths t s -> Forall (narrow_at s) es ->
  exists u, foldl (fun bytes e => <[N.to_nat e := 32%N]> bytes) (as_bytes t) es = as_bytes u
            /\ valid_str u /\ same_widths u s.
Proof.
  intros Hv Hw Hes. revert t Hv Hw. induction Hes as [|e es He _ IH]; intros t Hv Hw; [by exists t|].
  simpl. destruct (mask_one t e Hv) as (u & -> & Hu & Huw); [by eapply narrow_same_widths|].
  apply IH; [done|]. unfold same_widths in *. congruence.
Qed.

Lemma push_equals_narrow before token rest e :
  e ∈ push_inline_parameter_equals token (blen before) -> narrow_at (before ++ token ++ rest) e.
Proof.
  unfold push_inline_parameter_equals. destruct (_ && _); [|by intros ?%not_elem_of_nil].
  destruct (split_once 61%N token) as [[a b]|] eqn:E; [|by intros ?%not_elem_of_nil].
  destruct (_ && _); [|by intros ?%not_elem_of_nil]. intros ->%list_elem_of_singleton.
  apply split_once_Some in E as [-> _]. exists (before ++ a), 61%N, (b ++ rest).
  rewrite <- !app_assoc, Truncation.blen_app. done.
Qed.

Lemma inline_equals_narrow rest token before e :
  e ∈ inline_equals rest token (blen before) (blen (before ++ token)) -> narrow_at (before ++ token ++ rest) e.
Proof.
  revert token before. induction rest as [|ch rest IH]; intros token before; cbn [inline_equals].
  - intros He. by apply push_equals_narrow.
  - assert (Hn : (blen (before ++ token) + len_utf8 ch)%N = blen ((before ++ token ++ [ch])))
      by (rewrite !Truncation.blen_app; simpl; lia).
    destruct (is_inline_parameter_token_separator ch).
    + intros [He|He]%elem_of_app; [by apply push_equals_narrow|].
      rewrite Hn in He. specialize (IH [] (before ++ token ++ [ch])). rewrite app_nil_r in IH. apply IH in He.
      by rewrite <- !app_assoc in He.
    + intros He. rewrite Hn in He. apply IH in He. by rewrite <- !app_assoc in He.
Qed.

Lemma mask_Ok script : valid_str script -> exists masked, mask script = Ok masked /\ same_widths masked script.
Proof.
  intros Hv. destruct (mask_all (inline_double_dash_parameter_equals script) script script) as (u & E & Hu & Hw);
    [done|done| |].
  - apply Forall_forall. intros e He. exact (inline_equals_narrow script [] [] e He).
  - exists u. unfold mask. rewrite E. assert (from_utf8 (as_bytes u) = Ok u) as -> by by apply from_utf8_Ok. done.
Qed.

(** ** What an accepted script consists of *)

Inductive gap : str -> Prop :=
  | gap_space c : is_whitespace c = true -> gap [c]
  | gap_separator s : s ∈ [lit ";"; lit "("; lit ")"; lit "|"; lit "||"; lit "&&"] -> gap s
  | gap_comment s : Forall (fun c => is_line_break c = false) s -> gap (35%N :: s)
  | gap_block s :
      find (lit "#>") (s ++ lit "#>") = Some (length s) -> starts_with (lit "<#") (60%N :: s ++ lit "#>") = true ->
      gap (60%N :: s ++ lit "#>").

(** Membership in a closed list *)
Ltac in_list := apply (bool_decide_unpack _); vm_compute; exact I.

(** A script made of the given commands, in their order, and of gaps *)
Inductive covering : str -> list str -> Prop :=
  | covering_end : covering [] []
  | covering_command c s cs : covering s cs -> covering (c ++ s) (c :: cs)
  | covering_gap g s cs : gap g -> covering s cs -> covering (g ++ s) cs.

(** A range of the script on character boundaries *)
Definition placed (script : str) (r : N * N) : Prop :=
  exists a t b, script = a ++ t ++ b /\ blen a = r.1 /\ (r.2 = r.1 + blen t)%N.

Lemma placed_slice a t b : slice (a ++ t ++ b) (blen a) (blen a + blen t) = t.
Proof.
  unfold slice. rewrite Truncation.byte_drop_exact. replace (blen a + blen t - blen a)%N with (blen t) by lia.
  apply Truncation.byte_prefix_exact.
Qed.

Lemma blen_inj_app a b c d : a ++ b = c ++ d -> blen a = blen c -> a = c /\ b = d.
Proof.
  intros E Hl. pose proof (Truncation.byte_prefix_exact a b) as Ha. rewrite E, Hl, Truncation.byte_prefix_exact in Ha.
  subst a. split; [done|]. by apply app_inv_head in E.
Qed.

Lemma from_line_break_spec s : exists u, s = u ++ from_line_break s /\ Forall (fun c => is_line_break c = false) u.
Proof.
  induction s as [|c s (u & Hu & Hb)]; simpl; [by exists []|].
  destruct (is_line_break c) eqn:Hc; [by exists []|]. exists (c :: u). rewrite Hu at 1. split; [done|by constructor].
Qed.

Lemma block_comment next k :
  find (lit "#>") next = Some k -> starts_with (lit "<#") (60%N :: next) = true ->
  exists s, take (k + 3) (60%N :: next) = 60%N :: s ++ lit "#>" /\ gap (60%N :: s ++ lit "#>").
Proof.
  intros Hf Hs. pose proof Hf as (Hk & [t Ht] & Hno)%find_Some.
  assert (Hlen : k + 2 <= length next) by (apply (f_equal length) in Ht; rewrite length_drop, length_app in Ht; simpl in Ht; lia).
  assert (Hnext : next = take k next ++ lit "#>" ++ t) by (rewrite <- Ht; by rewrite take_drop).
  exists (take k next). assert (Hl : length (take k next) = k) by (rewrite length_take; lia).
  replace (k + 3) with (S (k + 2)) by lia. split.
  - cbn [take]. f_equal. rewrite Hnext at 1. rewrite app_assoc, take_app_le by (rewrite length_app, Hl; simpl; lia).
    rewrite take_ge; [done|]. rewrite length_app, Hl. simpl. lia.
  - apply gap_block.
    + rewrite Hl. apply find_Some. split_and!.
      * rewrite length_app, Hl. lia.
      * exists []. by rewrite drop_app_length' by done.
      * intros j Hj Ho. apply (Hno j Hj). rewrite Hnext, app_assoc.
        apply occurs_app; [rewrite length_app, Hl; lia|done].
    + rewrite Hnext in Hs. revert Hs. destruct (take k next) as [|c u]; [done|]. unfold starts_with. cbn. by destruct c as [|p]; [|repeat (destruct p as [p|p|]; try done)].
Qed.

Lemma covered_sound fuel index previous pre rest ranges can_chain needs depth :
  blen pre = index -> Forall (placed (pre ++ rest)) ranges ->
  covered fuel index previous rest ranges can_chain needs depth = true ->
  covering rest ((fun r => slice (pre ++ rest) r.1 r.2) <$> ranges).
Proof.
  revert index previous pre rest ranges can_chain needs depth.
  induction fuel as [|fuel IH]; intros index previous pre rest ranges cc nc depth Hpre Hr; [done|].
  destruct rest as [|ch next]; cbn [covered].
  { destruct ranges; [intros _; constructor|done]. }
  destruct (match ranges with (s, e) :: ranges' => if (index =? s)%N then Some (e, ranges') else None | [] => None end)
    as [[e ranges']|] eqn:Hrange.
  { destruct ranges as [|[s e'] rs]; [done|]. destruct (N.eqb_spec index s) as [<-|]; [|done].
    injection Hrange as -> ->. apply Forall_cons in Hr as [(a & t & b & E & Ha & He) Hr]. simpl in Ha, He.
    destruct (blen_inj_app pre (ch :: next) a (t ++ b)) as [-> E2]; [done|congruence|].
    intros H. cbn [fmap list_fmap fst snd]. rewrite He, <- Hpre, E2, placed_slice.
    rewrite E2, He in H. replace (index + blen t - index)%N with (blen t) in H by lia.
    rewrite Truncation.byte_prefix_exact, Truncation.byte_drop_exact in H. constructor.
    rewrite app_assoc. eapply IH; [| |exact H]; [rewrite Truncation.blen_app; lia|]. by rewrite <- app_assoc, <- E2. }
  clear Hrange.
  assert (Hgap : forall g rest' previous' cc' nc' depth', ch :: next = g ++ rest' -> gap g ->
            covered fuel (index + blen g)%N previous' rest' ranges cc' nc' depth' = true ->
            covering (ch :: next) ((fun r => slice (pre ++ ch :: next) r.1 r.2) <$> ranges)).
  { intros g rest' previous' cc' nc' depth' E Hg H. rewrite E. apply covering_gap; [done|].
    rewrite app_assoc. eapply IH; [| |exact H]; [rewrite Truncation.blen_app; lia|]. by rewrite <- app_assoc, <- E. }
  assert (Hone : forall previous' cc' nc' depth', gap [ch] ->
            covered fuel (index + len_utf8 ch)%N previous' next ranges cc' nc' depth' = true ->
            covering (ch :: next) ((fun r => slice (pre ++ ch :: next) r.1 r.2) <$> ranges)).
  { intros previous' cc' nc' depth' Hg H. eapply (Hgap [ch] next); [done|done|].
    simpl. rewrite N.add_0_r. exact H. }
  assert (Hsep : forall c, c ∈ lit ";()|" -> ch = c -> gap [ch]).
  { intros c Hc ->. apply gap_separator. revert Hc. cbn. set_solver. }
  destruct (is_line_break ch) eqn:Hbreak.
  { apply Hone. apply gap_space. unfold is_line_break in Hbreak. destruct (N.eqb_spec ch 13) as [->|]; [done|].
    by destruct (N.eqb_spec ch 10) as [->|]. }
  destruct (is_whitespace ch) eqn:Hspace; [by apply Hone, gap_space|].
  destruct (N.eqb_spec ch 59); [destruct nc; [done|]; apply Hone; eapply Hsep; [|done]; in_list|].
  destruct (_ && negb cc) eqn:Hopen; [apply Hone; eapply (Hsep 40%N); [in_list|lia]|].
  destruct ((ch =? 41)%N && _ && _) eqn:Hclose; [apply Hone; eapply (Hsep 41%N); [in_list|lia]|].
  destruct ((ch =? 124)%N && cc) eqn:Hpipe.
  { assert (ch = 124%N) as Hch by lia. destruct next as [|d next']; [apply Hone; by eapply (Hsep 124%N); [in_list|]|].
    destruct (N.eqb_spec d 124) as [->|]; [|apply Hone; by eapply (Hsep 124%N); [in_list|]].
    intros H. eapply (Hgap [ch; 124%N] next'); [done| |rewrite Hch; exact H]. rewrite Hch. apply gap_separator. in_list. }
  destruct ((ch =? 38)%N && cc && _) eqn:Hamp.
  { destruct next as [|d next']; [by rewrite andb_false_r in Hamp|]. apply andb_true_iff in Hamp as [Hch Hd].
    apply starts_with_spec in Hd as [t Ht]. injection Ht as -> ->. assert (ch = 38%N) as -> by lia.
    intros H. eapply (Hgap (lit "&&") t); [done| |exact H]. apply gap_separator. in_list. }
  destruct ((ch =? 35)%N && negb nc) eqn:Hhash.
  { assert (ch = 35%N) as -> by lia. destruct ((0 <? index)%N && _); [done|].
    destruct (from_line_break_spec next) as (u & Hu & Hb). intros H.
    assert (Hlen : length (35%N :: next) - length (from_line_break next) = length (35%N :: u))
      by (rewrite Hu at 1; simpl; rewrite length_app; lia).
    rewrite Hlen in H. eapply (Hgap (35%N :: u) (from_line_break next)); [by rewrite Hu at 1|by apply gap_comment|].
    assert (Hbl : (blen (35%N :: next) - blen (from_line_break next) = blen (35%N :: u))%N)
      by (rewrite Hu at 1; simpl; rewrite Truncation.blen_app; lia).
    rewrite Hbl in H. exact H. }
  destruct (starts_with (lit "<#") (ch :: next) && negb nc && _) eqn:Hblock; [|done].
  apply andb_true_iff in Hblock as [[Hlt _]%andb_true_iff _].
  assert (ch = 60%N) as -> by (apply starts_with_spec in Hlt as [t Ht]; by injection Ht).
  destruct (find (lit "#>") next) as [k|] eqn:Hf; [|done].
  destruct (block_comment next k Hf Hlt) as (s & Hs & Hg). intros H.
  eapply (Hgap (60%N :: s ++ lit "#>") (drop (k + 3) (60%N :: next))); [by rewrite <- Hs, take_drop|done|].
  rewrite Hs in H. exact H.
Qed.

(** The rounds given to the scan are enough. *)
Lemma byte_drop_shorter n s : length (byte_drop n s) <= length s.
Proof. destruct (Truncation.byte_drop_suffix n s) as (t & Ht & _). rewrite Ht at 2. rewrite length_app. lia. Qed.

Lemma from_line_break_shorter s : length (from_line_break s) <= length s.
Proof. destruct (from_line_break_spec s) as (u & Hu & _). rewrite Hu at 2. rewrite length_app. lia. Qed.

Lemma covered_enough f1 f2 index previous rest ranges cc nc depth :
  length rest + length ranges < f1 -> length rest + length ranges < f2 ->
  covered f1 index previous rest ranges cc nc depth = covered f2 index previous rest ranges cc nc depth.
Proof.
  revert f2 index previous rest ranges cc nc depth.
  induction f1 as [|f1 IH]; intros [|f2] index previous rest ranges cc nc depth H1 H2; [lia..|].
  destruct rest as [|ch next]; [done|]. cbn [covered]. simpl in H1, H2.
  destruct ranges as [|[s e] ranges]; [|destruct (index =? s)%N].
  2:{ apply IH; pose proof (byte_drop_shorter (e - index) (ch :: next)); simpl in *; lia. }
  all: pose proof (from_line_break_shorter next); repeat (case_match; try done);
    apply IH; simpl in *; rewrite ?length_drop; simpl; lia.
Qed.

(** ** Scripts *)

(** What tree-sitter documents of a node: its text is the slice of the source at
    its byte range. *)
Class PowerShellLaws {PG : PowerShellGrammar} : Prop := node_placed source tree n :
  parse_powershell source = Some tree -> within (root_node tree) n ->
  exists before text after, source = before ++ text ++ after /\ start_byte n = blen before /\ utf8_text n = Some text.

Section Scripts.
Context {PG : PowerShellGrammar} {PL : PowerShellLaws}.

Lemma within_trans n m k : within n m -> within m k -> within n k.
Proof. induction 1 as [|n c m Hc _ IH]; [done|]. intros H. eapply within_child; [done|by apply IH]. Qed.

Lemma collect_commands_within root fuel stack acc n :
  Forall (within root) stack -> Forall (within root) acc ->
  n ∈ collect_commands fuel stack acc -> within root n.
Proof.
  revert stack acc. induction fuel as [|fuel IH]; intros [|m stack] acc Hs Ha Hn;
    try (rewrite Forall_forall in Ha; by apply Ha).
  apply Forall_cons in Hs as [Hm Hs]. cbn [collect_commands] in Hn. destruct (is_kind "command" m).
  - apply (IH stack (acc ++ [m])); [done| |done]. apply Forall_app. split; [done|by constructor].
  - apply (IH (named_children m ++ stack) acc); [|done|done]. apply Forall_app. split; [|done].
    apply Forall_forall. intros c Hc. eapply within_trans; [exact Hm|]. eapply within_child; [exact Hc|constructor].
Qed.

Lemma command_placed script source tree n :
  same_widths source script -> parse_powershell source = Some tree -> n ∈ collect_command_nodes (root_node tree) ->
  placed script (start_byte n, end_byte n).
Proof.
  intros Hw Hp Hn.
  assert (Hin : within (root_node tree) n).
  { eapply collect_commands_within; [| |exact Hn]; [|by constructor]. constructor; [constructor|constructor]. }
  destruct (node_placed _ _ _ Hp Hin) as (b & t & a & -> & Hs & Ht).
  assert (Hw' : same_widths script (b ++ t ++ a)) by by symmetry.
  apply same_widths_app in Hw' as (b' & s2 & -> & Hb & (t' & a' & -> & Ht' & _)%same_widths_app).
  exists b', t', a'. simpl. unfold end_byte. rewrite Ht, Hs. cbn [default].
  rewrite (same_widths_blen _ _ Hb), (same_widths_blen _ _ Ht'). done.
Qed.


End Scripts.

(** ** Invocations *)

Lemma prefixed_once script : starts_with UTF8_OUTPUT_PREFIX (trim_start (UTF8_OUTPUT_PREFIX ++ script)) = true.
Proof.
  change (UTF8_OUTPUT_PREFIX ++ script) with (116%N :: (drop 1 UTF8_OUTPUT_PREFIX ++ script)).
  rewrite trim_start_nonspace by done. apply starts_with_spec. by exists script.
Qed.

(** A script given last is prefixed, once. *)
Lemma prefix_last_argument shell flag script :
  detect_shell_type shell = Some PowerShell ->
  str_eqb (to_ascii_lowercase flag) (lit "-command") || str_eqb (to_ascii_lowercase flag) (lit "-c") = true ->
  prefix_powershell_script_with_utf8 [shell; flag; UTF8_OUTPUT_PREFIX ++ script] = [shell; flag; UTF8_OUTPUT_PREFIX ++ script]
  /\ (starts_with UTF8_OUTPUT_PREFIX (trim_start script) = false ->
      prefix_powershell_script_with_utf8 [shell; flag; script] = [shell; flag; UTF8_OUTPUT_PREFIX ++ script]).
Proof.
  intros Hs Hf.
  assert (Hx : forall s, extract_powershell_command [shell; flag; s] = Some (shell, s)).
  { intros s. unfold extract_powershell_command. cbn [length Nat.ltb Nat.leb]. rewrite bool_decide_eq_true_2 by done.
    cbn [script_argument].
    assert (existsb (str_eqb (to_ascii_lowercase flag)) POWERSHELL_FLAGS = true) as ->.
    { unfold POWERSHELL_FLAGS. cbn [existsb]. apply orb_true_iff in Hf as [-> | ->]; by rewrite ?orb_true_r. }
    cbn [negb].
    assert (eq_ignore_ascii_case flag (lit "-Command") || eq_ignore_ascii_case flag (lit "-c") = true) as -> by exact Hf.
    done. }
  split; [|intros Hn]; unfold prefix_powershell_script_with_utf8; rewrite Hx, ?prefixed_once, ?Hn; done.
Qed.

Lemma within_document n m : within n m -> m ∈ document n.
Proof.
  induction 1 as [n|n c m Hc _ IH]; rewrite document_unfold; [by left|]. right.
  apply list_elem_of_bind. exists c. split; [done|]. unfold named_children in Hc. by apply list_elem_of_filter in Hc as [_ ?].
Qed.

(** ** Examples *)

Module PowerShellExamples.

Definition ls_script : str := lit "ls # all" ++ [nl] ++ lit "cd 'x y' | gh --a=b".

Definition node (k : str) (at_byte : N) (text : str) (cs : list Node) : Node := mkNode k true at_byte (Some text) cs.
Definition ls_tree (source : str) : Tree :=
  mkTree (node (lit "program") 0 source
    [node (lit "pipeline") 0 (slice source 0 2) [node (lit "command") 0 (slice source 0 2) []];
     node (lit "comment") 3 (slice source 3 8) [];
     node (lit "pipeline") 9 (slice source 9 28)
       [node (lit "command") 9 (slice source 9 17) []; node (lit "command") 20 (slice source 20 28) []]]) false.

Definition masked : str := lit "ls # all" ++ [nl] ++ lit "cd 'x y' | gh --a b".
#[export] Instance one_grammar : PowerShellGrammar :=
  { parse_powershell source := if str_eqb source masked then Some (ls_tree source) else None }.

#[export] Instance one_grammar_laws : PowerShellLaws.
Proof.
  intros source tree n. unfold parse_powershell. simpl. destruct (str_eqb_spec source masked) as [->|]; [|done].
  intros [= <-] Hn%within_document.
  assert (Hall : Forall (fun m => masked = byte_prefix (start_byte m) masked ++ default [] (utf8_text m)
                                          ++ byte_drop (end_byte m) masked
                                 /\ start_byte m = blen (byte_prefix (start_byte m) masked)
                                 /\ utf8_text m = Some (default [] (utf8_text m))) (document (root_node (ls_tree masked))))
    by (repeat constructor).
  rewrite Forall_forall in Hall. destruct (Hall _ Hn) as (H1 & H2 & H3). eauto.
Qed.

Definition ls_commands : list (list str) := [[lit "ls"]; [lit "cd"; lit "x y"]; [lit "gh"; lit "--a=b"]].

Example ls_lowered : lower_with_tree_sitter ls_script = Ok ls_commands.
Proof. vm_compute. reflexivity. Qed.


Lemma lowering_reads_spellings_witness :
  lower_command_text (lit " echo 'it''s' --x=1 ") = Ok [lit "echo"; lit "it's"; lit "--x=1"].
Proof.
  apply lowering_reads_spellings; [|done].
  apply (line_word (lit " ") (lit "echo") (lit "echo")); [repeat constructor|apply spelled_bare; by repeat constructor| |done].
  apply (line_word (lit " ") (lit "'it''s'") (lit "it's")); [repeat constructor|by apply (spelled_quoted (lit "it's"))| |done].
  apply (line_word (lit " ") (lit "--x=1") (lit "--x=1")); [repeat constructor|apply spelled_bare; by repeat constructor| |done].
  apply line_end. repeat constructor.
Defined.

(** What is not literal is refused. *)
Example variable_refused : lower_command_text (lit "rm $x") = Err (lit "dynamic or structural bare character").
Proof. reflexivity. Qed.
Example operator_hidden_in_word : source_is_covered_by_commands (lit "ls & rm x") [(0, 2); (5, 9)]%N = false.
Proof. reflexivity. Qed.

(** With an argument behind the script the prefixed script replaces that argument,
    and the script itself stays as it was. *)
Example prefix_replaces_last_argument :
  prefix_powershell_script_with_utf8 [lit "pwsh"; lit "-c"; lit "echo"; lit "hi"]
  = [lit "pwsh"; lit "-c"; lit "echo"; UTF8_OUTPUT_PREFIX ++ lit "echo"].
Proof. reflexivity. Qed.

End PowerShellExamples.
