(* ===== verification/ExecApproval.v ===== *)
(** * Whether a command runs, is asked about or is refused

    core/src/exec_policy.rs with its model_policy.rs and executable_identity.rs:
    a command is taken apart into the commands it runs, each is checked against
    the policy or, where no rule matches, judged by the heuristics for dangerous
    commands and the sandbox, and the strictest verdict decides. The state is the
    policy in force, which accepted amendments extend together with the file of
    rules. Unix build. *)

From S2P Require Import Prelude RustStr PathUri Permissions PermissionTransforms.
From S2P Require Import ExecPolicy PolicyBuild ShellSyntax CommandSafety PowerShell.
Import Decisions Rules Policies.

(** [shlex::try_join] *)
Class ShellQuoting := { try_join : list str -> option str }.

(** ** Requests *)

Record GranularApprovalConfig := mkGranular {
  sandbox_approval : bool;
  rules_approval : bool;
  skill_approval : bool;
  request_permissions : bool;
  mcp_elicitations : bool;
}.
Inductive AskForApproval := UnlessTrusted | OnRequest | Granular (config : GranularApprovalConfig) | Never.
#[export] Instance GranularApprovalConfig_eq_dec : EqDecision GranularApprovalConfig.
Proof. solve_decision. Defined.
#[export] Instance AskForApproval_eq_dec : EqDecision AskForApproval.
Proof. solve_decision. Defined.

Inductive SandboxPermissions := UseDefault | RequireEscalated | WithAdditionalPermissions.
Definition requests_sandbox_override (p : SandboxPermissions) : bool :=
  match p with UseDefault => false | _ => true end.

Inductive WindowsSandboxLevel := WindowsSandboxDisabled | RestrictedToken | Elevated.
#[export] Instance WindowsSandboxLevel_eq_dec : EqDecision WindowsSandboxLevel.
Proof. solve_decision. Defined.

Inductive AllowPrefixRules := Honor | IgnoreForCyberModel.
#[export] Instance AllowPrefixRules_eq_dec : EqDecision AllowPrefixRules.
Proof. solve_decision. Defined.

Inductive ExecPolicyCommandOrigin := GenericOrigin | PowerShellOrigin.
Record ExecPolicyCommands := mkCommands { commands : list (list str); command_origin : ExecPolicyCommandOrigin }.

Inductive UnifiedExecShellMode := Direct | ZshFork.

(** [ExecPolicyAmendment] *)
Abbreviation ExecPolicyAmendment := (list str).

Inductive ExecApprovalRequirement :=
| Skip (bypass_sandbox : bool) (proposed_execpolicy_amendment : option ExecPolicyAmendment)
| NeedsApproval (reason : option str) (proposed_execpolicy_amendment : option ExecPolicyAmendment)
| ForbiddenCommand (reason : str).

Definition PROMPT_CONFLICT_REASON : str := lit "approval required by policy, but AskForApproval is set to Never".
Definition REJECT_SANDBOX_APPROVAL_REASON : str :=
  lit "approval required by policy, but AskForApproval::Granular.sandbox_approval is false".
Definition REJECT_RULES_APPROVAL_REASON : str :=
  lit "approval required by policy rule, but AskForApproval::Granular.rules is false".

(** The prefixes that are never suggested as a rule *)
Definition BANNED_PREFIX_SUGGESTIONS : list (list str) :=
  [[lit "/bin/bash"]; [lit "/bin/bash"; lit "-c"]; [lit "/bin/bash"; lit "-lc"]; [lit "/bin/sh"]; [lit "/bin/sh"; lit "-c"];
   [lit "/bin/sh"; lit "-lc"]; [lit "/bin/zsh"]; [lit "/bin/zsh"; lit "-c"]; [lit "/bin/zsh"; lit "-lc"]; [lit "Rscript"];
   [lit "bash"]; [lit "bash"; lit "-c"]; [lit "bash"; lit "-lc"]; [lit "bun"]; [lit "bun"; lit "-e"]; [lit "bun"; lit "run"];
   [lit "cmd"]; [lit "cmd"; lit "/c"]; [lit "cmd"; lit "/k"]; [lit "cmd.exe"]; [lit "cmd.exe"; lit "/c"];
   [lit "cmd.exe"; lit "/k"]; [lit "dash"]; [lit "dash"; lit "-c"]; [lit "deno"]; [lit "deno"; lit "eval"]; [lit "env"];
   [lit "fish"]; [lit "fish"; lit "-c"]; [lit "git"]; [lit "julia"]; [lit "julia"; lit "-e"]; [lit "ksh"]; [lit "ksh"; lit "-c"];
   [lit "lua"]; [lit "lua"; lit "-e"]; [lit "node"]; [lit "node"; lit "-e"]; [lit "nodejs"]; [lit "nodejs"; lit "-e"];
   [lit "npm"; lit "run"]; [lit "osascript"]; [lit "perl"]; [lit "perl"; lit "-e"]; [lit "php"]; [lit "php"; lit "-r"];
   [lit "pnpm"; lit "run"]; [lit "powershell"]; [lit "powershell"; lit "-Command"]; [lit "powershell"; lit "-EncodedCommand"];
   [lit "powershell"; lit "-File"]; [lit "powershell"; lit "-c"]; [lit "powershell.exe"]; [lit "powershell.exe"; lit "-Command"];
   [lit "powershell.exe"; lit "-EncodedCommand"]; [lit "powershell.exe"; lit "-File"]; [lit "powershell.exe"; lit "-c"];
   [lit "pwsh"]; [lit "pwsh"; lit "-Command"]; [lit "pwsh"; lit "-EncodedCommand"]; [lit "pwsh"; lit "-File"];
   [lit "pwsh"; lit "-c"]; [lit "pwsh"; lit "-e"]; [lit "pwsh"; lit "-ec"]; [lit "pwsh"; lit "-f"]; [lit "py"];
   [lit "py"; lit "-3"]; [lit "pypy"]; [lit "pypy3"]; [lit "python"]; [lit "python"; lit "-"]; [lit "python"; lit "-c"];
   [lit "python3"]; [lit "python3"; lit "-"]; [lit "python3"; lit "-c"]; [lit "pythonw"]; [lit "pyw"]; [lit "rm"]; [lit "ruby"];
   [lit "ruby"; lit "-e"]; [lit "sh"]; [lit "sh"; lit "-c"]; [lit "sh"; lit "-lc"]; [lit "sudo"]; [lit "yarn"; lit "run"];
   [lit "zsh"]; [lit "zsh"; lit "-c"]; [lit "zsh"; lit "-lc"]].

Definition prompt_is_rejected_by_policy (approval_policy : AskForApproval) (prompt_is_rule : bool) : option str :=
  match approval_policy with
  | Never => Some PROMPT_CONFLICT_REASON
  | OnRequest | UnlessTrusted => None
  | Granular config =>
      if prompt_is_rule then if negb (rules_approval config) then Some REJECT_RULES_APPROVAL_REASON else None
      else if negb (sandbox_approval config) then Some REJECT_SANDBOX_APPROVAL_REASON else None
  end.

Definition dangerous_command_rejection_reason (m : DangerousCommandMatch) : str :=
  match m with
  | ForcedRm => lit "rm -f style commands are not permitted. Use a safer approach"
  | OtherMatch => lit "blocked by policy"
  end.

Definition derive_rejected_prompt_reason (fallback_reason : str) (m : option DangerousCommandMatch) : str :=
  match m with
  | Some ForcedRm => dangerous_command_rejection_reason ForcedRm
  | Some OtherMatch | None => fallback_reason
  end.

(** [Iterator::max_by_key]: the last of the greatest elements *)
Definition max_by_length {A} (key : A -> nat) (l : list A) : option A :=
  foldl (fun best x => match best with
                       | None => Some x
                       | Some b => if key b <=? key x then Some x else Some b
                       end) None l.

#[export] Instance Component_eq_dec : EqDecision Builder.Component.
Proof. solve_decision. Defined.

(** [cfg!(windows)] *)
Definition cfg_windows : bool := false.

Section Approval.
Context {UL : UrlLib} {GL : GlobLib} {AbsolutePath : Type} {exec_paths : ExecPaths AbsolutePath}.
Context {WW : WindowsWords} {SG : ShellGrammar} {PG : PowerShellGrammar} {SQ : ShellQuoting}.

Record UnmatchedCommandContext := mkUnmatched {
  approval_policy : AskForApproval;
  permission_profile : PermissionProfile;
  windows_sandbox_level : WindowsSandboxLevel;
  sandbox_permissions : SandboxPermissions;
}.

Record ExecApprovalRequest := mkRequest {
  command : list str;
  context : UnmatchedCommandContext;
  environment_policy : option (Policy AbsolutePath);
  prefix_rule : option (list str);
  allow_prefix_rules : AllowPrefixRules;
}.

(** ** Heuristics *)

Definition dangerous_command_match_for_origin (cmd : list str) (origin : ExecPolicyCommandOrigin)
    (platform : DangerousCommandPlatform) : option DangerousCommandMatch :=
  match origin with
  | GenericOrigin => dangerous_command_match_for_platform cmd platform
  | PowerShellOrigin => dangerous_powershell_words_match cmd platform
  end.

Definition dangerous_command_match_for_heuristics (evaluation : Evaluation AbsolutePath) (d : Decision)
    (origin : ExecPolicyCommandOrigin) (platform : DangerousCommandPlatform) : option DangerousCommandMatch :=
  find_map (fun m => match m with
                     | HeuristicsRuleMatch cmd matched_decision =>
                         if bool_decide (matched_decision = d)
                         then dangerous_command_match_for_origin cmd origin platform else None
                     | PrefixRuleMatch _ _ _ _ => None
                     end) (matched_rules evaluation).

Definition profile_has_managed_filesystem_restrictions (p : PermissionProfile) : bool :=
  let policy := file_system_sandbox_policy p in
  match p with ProfileManaged _ _ => true | _ => false end
  && match Permissions.kind policy with Restricted => true | _ => false end
  && negb (has_full_disk_write_access_for_convention policy (Some Posix)).

(** What OnRequest and Granular do alike *)
Definition decision_in_sandbox (ctx : UnmatchedCommandContext) : Decision :=
  match Permissions.kind (file_system_sandbox_policy (permission_profile ctx)) with
  | Unrestricted | ExternalSandbox => Allow
  | Restricted => if requests_sandbox_override (sandbox_permissions ctx) then Prompt else Allow
  end.

Definition render_decision_for_unmatched_command_for_platform (cmd : list str) (ctx : UnmatchedCommandContext)
    (origin : ExecPolicyCommandOrigin) (platform : DangerousCommandPlatform) : Decision :=
  let dangerous_command_match := dangerous_command_match_for_origin cmd origin platform in
  let windows_managed_fs_restrictions_without_sandbox_backend :=
    cfg_windows && bool_decide (windows_sandbox_level ctx = WindowsSandboxDisabled)
    && profile_has_managed_filesystem_restrictions (permission_profile ctx) in
  if bool_decide (is_Some dangerous_command_match) || windows_managed_fs_restrictions_without_sandbox_backend then
    match approval_policy ctx with Never => Forbidden | OnRequest | UnlessTrusted | Granular _ => Prompt end
  else
    match approval_policy ctx with
    | Never => Allow
    | UnlessTrusted => Prompt
    | OnRequest => decision_in_sandbox ctx
    | Granular _ => decision_in_sandbox ctx
    end.

(** ** The commands of a command *)

Definition commands_for_exec_policy_for_platform (cmd : list str) (platform : DangerousCommandPlatform) : ExecPolicyCommands :=
  match parse_shell_lc_plain_commands cmd with
  | Some ((_ :: _) as cs) => mkCommands cs GenericOrigin
  | _ =>
      match (if bool_decide (platform = WindowsPlatform) then parse_powershell_command_into_plain_commands cmd else None) with
      | Some ((_ :: _) as cs) => mkCommands cs PowerShellOrigin
      | _ => mkCommands [cmd] GenericOrigin
      end
  end.

(** ** Amendments *)

Definition is_policy_match (m : RuleMatch AbsolutePath) : bool :=
  match m with PrefixRuleMatch _ _ _ _ => true | HeuristicsRuleMatch _ _ => false end.
Definition is_rule_with (d : Decision) (m : RuleMatch AbsolutePath) : bool :=
  is_policy_match m && bool_decide (match_decision m = d).
Definition heuristics_with (d : Decision) (m : RuleMatch AbsolutePath) : option ExecPolicyAmendment :=
  match m with
  | HeuristicsRuleMatch cmd d' => if bool_decide (d' = d) then Some cmd else None
  | PrefixRuleMatch _ _ _ _ => None
  end.

Definition try_derive_execpolicy_amendment_for_prompt_rules (ms : list (RuleMatch AbsolutePath)) : option ExecPolicyAmendment :=
  if existsb (is_rule_with Prompt) ms then None else find_map (heuristics_with Prompt) ms.

Definition try_derive_execpolicy_amendment_for_allow_rules (ms : list (RuleMatch AbsolutePath)) : option ExecPolicyAmendment :=
  if existsb is_policy_match ms then None else find_map (heuristics_with Allow) ms.

Definition match_options : MatchOptions := mkOptions true.

Definition prefix_rule_would_approve_all_commands (policy : Policy AbsolutePath) (prefix : list str) (cs : list (list str))
    (fallback : list str -> Decision) : bool :=
  match add_prefix_rule prefix Allow policy with
  | Err _ => false
  | Ok policy_with_prefix_rule =>
      forallb (fun c => match check_with_options policy_with_prefix_rule c fallback match_options with
                        | Return e => bool_decide (eval_decision e = Allow)
                        | _ => false
                        end) cs
  end.

Definition derive_requested_execpolicy_amendment_from_prefix_rule (prefix : option (list str))
    (ms : list (RuleMatch AbsolutePath)) (policy : Policy AbsolutePath) (cs : list (list str))
    (fallback : list str -> Decision) : option ExecPolicyAmendment :=
  prefix ← prefix;
  if is_empty prefix then None
  else if existsb (fun banned => bool_decide (prefix = banned)) BANNED_PREFIX_SUGGESTIONS then None
  else if existsb is_policy_match ms then None
  else if prefix_rule_would_approve_all_commands policy prefix cs fallback then Some prefix else None.

(** ** Reasons *)

Definition render_shlex_command (args : list str) : str := default (join (lit " ") args) (try_join args).

(** The prefix and the justification of a match with the decision *)
Definition prefix_with (d : Decision) (m : RuleMatch AbsolutePath) : option (list str * option str) :=
  match m with
  | PrefixRuleMatch matched d' _ j => if bool_decide (d' = d) then Some (matched, j) else None
  | HeuristicsRuleMatch _ _ => None
  end.

Definition quoted (s : str) : str := lit "`" ++ s ++ lit "`".

Definition derive_prompt_reason (command_args : list str) (evaluation : Evaluation AbsolutePath) : option str :=
  let cmd := render_shlex_command command_args in
  match max_by_length (fun x => length x.1) (omap (prefix_with Prompt) (matched_rules evaluation)) with
  | Some (_, Some j) => Some (quoted cmd ++ lit " requires approval: " ++ j)
  | Some (_, None) => Some (quoted cmd ++ lit " requires approval by policy")
  | None => None
  end.

Definition derive_forbidden_reason (command_args : list str) (evaluation : Evaluation AbsolutePath)
    (m : option DangerousCommandMatch) : str :=
  let cmd := render_shlex_command command_args in
  match max_by_length (fun x => length x.1) (omap (prefix_with Forbidden) (matched_rules evaluation)) with
  | Some (_, Some j) => quoted cmd ++ lit " rejected: " ++ j
  | Some (prefix, None) =>
      quoted cmd ++ lit " rejected: policy forbids commands starting with " ++ quoted (render_shlex_command prefix)
  | None =>
      match m with
      | Some m => quoted cmd ++ lit " rejected: " ++ dangerous_command_rejection_reason m
      | None => quoted cmd ++ lit " rejected: blocked by policy"
      end
  end.

(** ** The policy in force *)

(** [policy] of [ExecPolicyManager] *)
Definition current_for_prefix_rules (policy : Policy AbsolutePath) (allow : AllowPrefixRules) : Policy AbsolutePath :=
  match allow with
  | Honor => policy
  | IgnoreForCyberModel =>
      let keep (rules : list PrefixRule) := List.filter (fun r => negb (bool_decide (decision r = Allow))) rules in
      mkPolicy (omap (fun rules => if is_empty (keep rules) then None else Some (keep rules)) (rules_by_program policy))
        (network_rules policy) (host_executables_by_name policy)
  end.

Definition current_for_environment (policy : Policy AbsolutePath) (env : option (Policy AbsolutePath))
    (allow : AllowPrefixRules) : Policy AbsolutePath :=
  let policy := current_for_prefix_rules policy allow in
  match env with
  | Some env => merge_overlay (map_to_list (rules_by_program env)) policy env
  | None => policy
  end.

(** ** The requirement *)

Definition create_exec_approval_requirement_for_parsed_commands (policy : Policy AbsolutePath) (req : ExecApprovalRequest)
    (parsed : ExecPolicyCommands) (platform : DangerousCommandPlatform) : outcome Error ExecApprovalRequirement :=
  let exec_policy := current_for_environment policy (environment_policy req) (allow_prefix_rules req) in
  let auto_amendment_allowed := bool_decide (allow_prefix_rules req = Honor) in
  let fallback c :=
    render_decision_for_unmatched_command_for_platform c (context req) (command_origin parsed) platform in
  evaluation ← check_multiple_with_options exec_policy (commands parsed) fallback match_options;
  let ms := matched_rules evaluation in
  let dangerous d := dangerous_command_match_for_heuristics evaluation d (command_origin parsed) platform in
  let requested_amendment :=
    if auto_amendment_allowed
    then derive_requested_execpolicy_amendment_from_prefix_rule (prefix_rule req) ms exec_policy (commands parsed) fallback
    else None in
  Return
    match eval_decision evaluation with
    | Forbidden => ForbiddenCommand (derive_forbidden_reason (command req) evaluation (dangerous Forbidden))
    | Prompt =>
        let prompt_is_rule := existsb (is_rule_with Prompt) ms in
        match prompt_is_rejected_by_policy (approval_policy (context req)) prompt_is_rule with
        | Some reason =>
            if prompt_is_rule then ForbiddenCommand reason
            else ForbiddenCommand (derive_rejected_prompt_reason reason (dangerous Prompt))
        | None =>
            NeedsApproval (derive_prompt_reason (command req) evaluation)
              (match requested_amendment with
               | Some amendment => Some amendment
               | None => if auto_amendment_allowed then try_derive_execpolicy_amendment_for_prompt_rules ms else None
               end)
        end
    | Allow =>
        Skip (forallb (fun c => existsb (is_rule_with Allow) (matches_for_command_with_options exec_policy c None match_options))
                (commands parsed))
          (if auto_amendment_allowed then try_derive_execpolicy_amendment_for_allow_rules ms else None)
    end.

Definition create_exec_approval_requirement_for_command_platform (policy : Policy AbsolutePath) (req : ExecApprovalRequest)
    (platform : DangerousCommandPlatform) : outcome Error ExecApprovalRequirement :=
  create_exec_approval_requirement_for_parsed_commands policy req
    (commands_for_exec_policy_for_platform (command req) platform) platform.

(** ** Shells *)

Definition shell_approval_command (cmd : list str) (shell_path : str) (mode : UnifiedExecShellMode) : list str :=
  match cmd with
  | [] => cmd
  | executable :: _ =>
      let is_system_shell :=
        match Builder.path_parent executable with
        | Some parent =>
            bool_decide (parent = Builder.components (lit "/bin")) || bool_decide (parent = Builder.components (lit "/usr/bin"))
        | None => false
        end in
      let is_configured_shell := bool_decide (Builder.components executable = Builder.components shell_path) in
      if is_configured_shell || is_system_shell || match mode with ZshFork => true | Direct => false end
      then cmd else [executable]
  end.

Definition with_command (cmd : list str) (req : ExecApprovalRequest) : ExecApprovalRequest :=
  mkRequest cmd (context req) (environment_policy req) (prefix_rule req) (allow_prefix_rules req).

Definition create_exec_approval_requirement_for_shell (policy : Policy AbsolutePath) (req : ExecApprovalRequest)
    (shell_path : str) (mode : UnifiedExecShellMode) (platform : DangerousCommandPlatform)
    : outcome Error ExecApprovalRequirement :=
  let cmd := command req in
  let executable := shell_approval_command cmd shell_path mode in
  if length executable =? length cmd
  then create_exec_approval_requirement_for_command_platform policy req platform
  else
    let policy_commands :=
      if bool_decide (platform = WindowsPlatform) then
        match extract_powershell_command cmd with
        | Some (_, script) =>
            mkCommands (default [cmd] (parse_powershell_script_into_plain_commands script)) PowerShellOrigin
        | None => commands_for_exec_policy_for_platform cmd platform
        end
      else commands_for_exec_policy_for_platform cmd platform in
    create_exec_approval_requirement_for_parsed_commands policy (with_command executable req)
      (mkCommands (executable :: commands policy_commands) (command_origin policy_commands)) platform.

End Approval.
