(* ===== verification/ExecRules.v ===== *)
(** * The policy in force: loading and amending it

    The rest of core/src/exec_policy.rs: reading the rules of every configuration
    layer and laying the managed requirements over them, and accepting
    amendments, which go to the rules file and to the policy in memory. The files
    are functions of their paths; an update runs under the manager's lock, so it
    is one step. *)

From S2P Require Import Prelude RustStr ExecPolicy PolicyBuild ExecApproval.
Import Decisions Rules Policies Builder PolicyFiles.

Definition RULES_DIR_NAME : str := lit "rules".
Definition RULE_EXTENSION : str := lit "rules".
Definition DEFAULT_POLICY_FILE : str := lit "default.rules".

(** [Path::join] with a name *)
Definition join_name (dir nm : str) : str := if ends_with (lit "/") dir then dir ++ nm else dir ++ lit "/" ++ nm.
Definition default_policy_path (codex_home : str) : str := join_name (join_name codex_home RULES_DIR_NAME) DEFAULT_POLICY_FILE.

(** ** Loading *)

Inductive ExecPolicyError :=
| ReadDir (dir : str)
| ReadFile (path : str)
| ParsePolicy (path : str) (source : Error).

(** What listing a directory gives: entries, each of which may fail, with
    whether they are files, which may fail too *)
Inductive Listing := NotFound | ListingFailed | Listed (entries : list (option (str * option bool))).

(** [Path::extension] *)
Definition extension (nm : str) : option str :=
  match rsplit_once 46%N nm with
  | Some (before, after) => if is_empty before then None else Some after
  | None => None
  end.

Fixpoint collect_entries (dir : str) (es : list (option (str * option bool))) : result ExecPolicyError (list str) :=
  match es with
  | [] => Ok []
  | Some (nm, Some is_file) :: es =>
      paths ← collect_entries dir es;
      Ok (if bool_decide (extension nm = Some RULE_EXTENSION) && is_file then nm :: paths else paths)
  | _ => Err (ReadDir dir)
  end.

(** The names of the rule files of a directory, in order *)
Definition collect_policy_files (list_dir : str -> Listing) (dir : str) : result ExecPolicyError (list str) :=
  match list_dir dir with
  | NotFound => Ok []
  | ListingFailed => Err (ReadDir dir)
  | Listed es => names ← collect_entries dir es; Ok (join_name dir <$> sort str_cmp names)
  end.

Inductive ConfigLayerKind := UserLayer | ProjectLayer | OtherLayer.
Record ConfigLayer := mkLayer { layer_kind : ConfigLayerKind; config_folder : option str }.

Section Rules.
Context {AbsolutePath : Type} {exec_paths : ExecPaths AbsolutePath} {render : Render AbsolutePath}.

(** [ConfigLayerStack], as far as policies go *)
Record ConfigLayerStack := mkStack {
  layers_low_to_high : list ConfigLayer;
  ignore_user_and_project_exec_policy_rules : bool;
  requirements_exec_policy : option (Policy AbsolutePath);
}.

(** The file system and the evaluator of policy files *)
Record Files := mkFiles {
  list_dir : str -> Listing;
  read_to_string : str -> option str;
  interpret : str -> str -> list Call * option Error;
  report : Error -> Error;
}.

Definition skipped_layer (stack : ConfigLayerStack) (layer : ConfigLayer) : bool :=
  ignore_user_and_project_exec_policy_rules stack
  && match layer_kind layer with UserLayer | ProjectLayer => true | OtherLayer => false end.

Fixpoint policy_paths (fs : Files) (stack : ConfigLayerStack) (layers : list ConfigLayer) : result ExecPolicyError (list str) :=
  match layers with
  | [] => Ok []
  | layer :: layers =>
      if skipped_layer stack layer then policy_paths fs stack layers
      else
        paths ← match config_folder layer with
                | Some folder => collect_policy_files (list_dir fs) (join_name folder RULES_DIR_NAME)
                | None => Ok []
                end;
        rest ← policy_paths fs stack layers;
        Ok (paths ++ rest)
  end.

Fixpoint parse_all (fs : Files) (paths : list str) (parser : PolicyBuilder (AbsolutePath := AbsolutePath))
    : result ExecPolicyError (PolicyBuilder (AbsolutePath := AbsolutePath)) :=
  match paths with
  | [] => Ok parser
  | path :: paths =>
      contents ← ok_or (read_to_string fs path) (ReadFile path);
      match parse_policy (interpret fs) (report fs) path contents parser with
      | (parser, Ok _) => parse_all fs paths parser
      | (_, Err e) => Err (ParsePolicy path e)
      end
  end.

Definition with_requirements (stack : ConfigLayerStack) (policy : Policy AbsolutePath) : Policy AbsolutePath :=
  match requirements_exec_policy stack with
  | None => policy
  | Some requirements => merge_overlay (map_to_list (rules_by_program requirements)) policy requirements
  end.

Definition load_exec_policy (fs : Files) (stack : ConfigLayerStack) : result ExecPolicyError (Policy AbsolutePath) :=
  paths ← policy_paths fs stack (layers_low_to_high stack);
  parser ← parse_all fs paths new_builder;
  Ok (with_requirements stack (build parser)).

Definition load_exec_policy_with_warning (fs : Files) (stack : ConfigLayerStack)
    : result ExecPolicyError (Policy AbsolutePath * option ExecPolicyError) :=
  match load_exec_policy fs stack with
  | Ok policy => Ok (policy, None)
  | Err (ParsePolicy path e) => Ok (default empty_policy (requirements_exec_policy stack), Some (ParsePolicy path e))
  | Err e => Err e
  end.

(** ** Updates *)

Context {E : Type} {json : Json}.

Inductive ExecPolicyUpdateError :=
| AppendRule (path : str) (source : AmendError E)
| AddRule (source : Error).

(** The policy in memory and the default rules file *)
Record Manager := mkManager { policy : Policy AbsolutePath; rules_file : File }.

Definition already_allowed (p : Policy AbsolutePath) (amendment : list str) : bool :=
  match check_multiple_with_options p [amendment] (fun _ => Forbidden) match_options with
  | Return e => bool_decide (eval_decision e = Allow) && existsb (is_rule_with Allow) (matched_rules e)
  | _ => false
  end.

Definition append_amendment_and_update (f : Faults (E := E)) (already_exists : E -> bool) (codex_home : str)
    (amendment : list str) (m : Manager) : Manager * result ExecPolicyUpdateError unit :=
  let path := default_policy_path codex_home in
  match blocking_append_allow_prefix_rule f already_exists path amendment (rules_file m) with
  | (file, Err e) => (mkManager (policy m) file, Err (AppendRule path e))
  | (file, Ok _) =>
      if already_allowed (policy m) amendment then (mkManager (policy m) file, Ok tt)
      else
        match add_prefix_rule amendment Allow (policy m) with
        | Err e => (mkManager (policy m) file, Err (AddRule e))
        | Ok updated => (mkManager updated file, Ok tt)
        end
  end.

Definition append_network_rule_and_update (f : Faults (E := E)) (already_exists : E -> bool) (codex_home host : str)
    (protocol : NetworkRuleProtocol) (d : Decision) (j : option str) (m : Manager)
    : Manager * result ExecPolicyUpdateError unit :=
  let path := default_policy_path codex_home in
  match blocking_append_network_rule f already_exists path host protocol d j (rules_file m) with
  | (file, Err e) => (mkManager (policy m) file, Err (AppendRule path e))
  | (file, Ok _) =>
      match add_network_rule host protocol d j (policy m) with
      | Err e => (mkManager (policy m) file, Err (AddRule e))
      | Ok updated => (mkManager updated file, Ok tt)
      end
  end.

End Rules.
