(* ===== verification/ApprovalTheorems.v ===== *)
(** * What an approval requirement stands for

    The requirement of a command against the verdicts on the commands it runs;
    what amendments and managed requirements change. *)

From S2P Require Import Prelude RustStr PathUri Permissions PermissionTransforms.
From S2P Require Import ExecPolicy PolicyBuild ShellSyntax CommandSafety PowerShell ExecApproval ExecRules.
Import Decisions Rules Policies Builder PolicyFiles.

Section Verdicts.
Context {AbsolutePath : Type} {exec_paths : ExecPaths AbsolutePath}.
Implicit Types (p : Policy AbsolutePath) (c : list str).

(** ** Verdicts *)

(** The rules' matches for a command *)
Definition rule_matches_of p c : list (RuleMatch AbsolutePath) := matches_for_command_with_options p c None match_options.

(** What a command gets: the strictest rule that matches it, or the fallback's
    decision where none does *)
Definition command_verdict p (fallback : list str -> Decision) c : Decision :=
  match max_decision (match_decision <$> rule_matches_of p c) with Some d => d | None => fallback c end.

Lemma rule_matches_of_eq p c :
  rule_matches_of p c = match exact_matches p c with [] => match_host_executable_rules p c | ms => ms end.
Proof.
  unfold rule_matches_of, matches_for_command_with_options, match_exact_rules, exact_matches, rules_of.
  destruct c as [|w c]; [done|]. generalize (match_host_executable_rules p (w :: c)). intros host.
  destruct (rules_by_program p !! w) as [rs|]; simpl; [destruct (omap _ rs); simpl; [|done]|]; by destruct host.
Qed.

Lemma matches_with_fallback p c h :
  matches_for_command_with_options p c (Some h) match_options
  = match rule_matches_of p c with [] => [HeuristicsRuleMatch c (h c)] | ms => ms end.
Proof.
  unfold rule_matches_of, matches_for_command_with_options.
  generalize (match match_exact_rules p c with Some (_ :: _) => match_exact_rules p c | _ => None end).
  intros [ms|]; [by destruct ms|]. by destruct (default [] _).
Qed.

Lemma rule_matches_of_policy p c : Forall (fun m => is_policy_match m = true) (rule_matches_of p c).
Proof.
  rewrite rule_matches_of_eq. apply Forall_forall. intros m.
  assert (Hhost : m ∈ match_host_executable_rules p c -> is_policy_match m = true).
  { unfold match_host_executable_rules. repeat case_match; try (by intros ?%not_elem_of_nil);
      intros (m' & -> & (r & _ & Hm)%list_elem_of_omap)%list_elem_of_fmap; by apply fmap_Some in Hm as (? & _ & ->). }
  assert (Hexact : m ∈ exact_matches p c -> is_policy_match m = true).
  { pose proof (exact_matches_prefix p c) as H. rewrite Forall_forall in H. intros Hm%H. by destruct m. }
  destruct (exact_matches p c); auto.
Qed.

Lemma command_matches_verdict p h c :
  max_decision (match_decision <$> matches_for_command_with_options p c (Some h) match_options)
  = Some (command_verdict p h c).
Proof.
  rewrite matches_with_fallback. unfold command_verdict.
  destruct (rule_matches_of p c) as [|m ms]; [done|]. by cbn.
Qed.

Lemma check_verdict_of p h c e :
  check_with_options p c h match_options = Return e -> eval_decision e = command_verdict p h c.
Proof. intros [Hm Hd]%from_matches_Return. rewrite command_matches_verdict in Hd. by injection Hd. Qed.

(** Checking a list takes the strictest of the verdicts. *)
Lemma check_multiple_verdict p h cs :
  cs <> [] ->
  exists e, check_multiple_with_options p cs h match_options = Return e
    /\ matched_rules e = (cs ≫= fun c => matches_for_command_with_options p c (Some h) match_options)
    /\ max_decision (command_verdict p h <$> cs) = Some (eval_decision e).
Proof.
  intros Hne. set (ms := cs ≫= _).
  assert (Hmax : max_decision (match_decision <$> ms) = max_decision (command_verdict p h <$> cs)).
  { subst ms. clear Hne. induction cs as [|c cs IH]; [done|]. csimpl.
    rewrite fmap_app, max_decision_app, command_matches_verdict, IH. simpl. by case_match. }
  destruct (max_decision_ne (command_verdict p h <$> cs)) as [d Hd]; [by intros ?%fmap_nil_inv|].
  exists (mkEvaluation d ms). split_and!; [|done|done].
  apply from_matches_Return. split; [done|]. exact (eq_trans Hmax Hd).
Qed.

(** ** Bounds of the strictest verdict *)

Lemma decision_le_Allow d : decision_le d Allow -> d = Allow.
Proof. unfold decision_le. destruct d; simpl; intros; done || lia. Qed.

Lemma max_decision_Allow ds : ds <> [] -> max_decision ds = Some Allow <-> Forall (fun d => d = Allow) ds.
Proof.
  intros Hne. rewrite max_decision_spec. split.
  - intros [_ Hall]. eapply Forall_impl; [exact Hall|]. exact decision_le_Allow.
  - intros Hall. destruct Hall as [|d ds -> Hall]; [done|]. split; [by left|]. constructor; [done|].
    eapply Forall_impl; [exact Hall|]. by intros ? ->.
Qed.

Lemma verdict_no_rule p h c : rule_matches_of p c = [] -> command_verdict p h c = h c.
Proof. unfold command_verdict. by intros ->. Qed.

Lemma verdict_allow_rules p h c :
  rule_matches_of p c <> [] -> Forall (fun m => match_decision m = Allow) (rule_matches_of p c) -> command_verdict p h c = Allow.
Proof.
  intros Hne Hall. unfold command_verdict.
  assert (max_decision (match_decision <$> rule_matches_of p c) = Some Allow) as ->; [|done].
  apply max_decision_Allow; [by intros ?%fmap_nil_inv|]. by apply Forall_fmap.
Qed.

Lemma verdict_le_matches p h c m : m ∈ rule_matches_of p c -> decision_le (match_decision m) (command_verdict p h c).
Proof.
  intros Hm. unfold command_verdict. destruct (max_decision _) as [d|] eqn:Hd.
  - apply max_decision_spec in Hd as [_ Hall]. rewrite Forall_forall in Hall. by apply Hall, list_elem_of_fmap_2.
  - destruct (rule_matches_of p c); [by apply not_elem_of_nil in Hm|done].
Qed.

End Verdicts.

(** ** The requirement *)

Section Requirement.
Context {UL : UrlLib} {GL : GlobLib} {AbsolutePath : Type} {exec_paths : ExecPaths AbsolutePath}.
Context {WW : WindowsWords} {SG : ShellGrammar} {PG : PowerShellGrammar} {SQ : ShellQuoting}.
Implicit Types (policy : Policy AbsolutePath) (req : ExecApprovalRequest (AbsolutePath := AbsolutePath))
  (parsed : ExecPolicyCommands) (platform : DangerousCommandPlatform).

(** The policy and the fallback a request is judged by *)
Definition policy_of policy req : Policy AbsolutePath :=
  current_for_environment policy (environment_policy req) (allow_prefix_rules req).
Definition fallback_of req parsed platform (c : list str) : Decision :=
  render_decision_for_unmatched_command_for_platform c (context req) (command_origin parsed) platform.
Definition verdict_of policy req parsed platform (c : list str) : Decision :=
  command_verdict (policy_of policy req) (fallback_of req parsed platform) c.

(** A rule asks for one of the commands *)
Definition rule_asks policy req parsed : bool :=
  existsb (fun c => existsb (is_rule_with Prompt) (rule_matches_of (policy_of policy req) c)) (commands parsed).

Definition requirement_matches policy req parsed platform (r : ExecApprovalRequirement) : Prop :=
  match max_decision (verdict_of policy req parsed platform <$> commands parsed) with
  | Some Allow =>
      exists bypass amendment, r = Skip bypass amendment
        /\ (bypass = true <-> forall c, c ∈ commands parsed -> rule_matches_of (policy_of policy req) c <> [])
  | Some Prompt =>
      if bool_decide (is_Some (prompt_is_rejected_by_policy (approval_policy (context req)) (rule_asks policy req parsed)))
      then exists reason, r = ForbiddenCommand reason
      else exists reason amendment, r = NeedsApproval reason amendment
  | Some Forbidden => exists reason, r = ForbiddenCommand reason
  | None => False
  end.

Lemma existsb_rule_with policy h cs :
  existsb (is_rule_with Prompt) (cs ≫= fun c => matches_for_command_with_options policy c (Some h) match_options)
  = existsb (fun c => existsb (is_rule_with Prompt) (rule_matches_of policy c)) cs.
Proof.
  induction cs as [|c cs IH]; [done|]. csimpl. rewrite existsb_app, IH. f_equal.
  rewrite matches_with_fallback. by destruct (rule_matches_of policy c).
Qed.

Lemma bypass_spec p h cs :
  Forall (fun d => d = Allow) (command_verdict p h <$> cs) ->
  forallb (fun c => existsb (is_rule_with Allow) (rule_matches_of p c)) cs = true
  <-> forall c, c ∈ cs -> rule_matches_of p c <> [].
Proof.
  intros Hall. rewrite forallb_forall. setoid_rewrite <- list_elem_of_In. split; intros H c Hc.
  - specialize (H c Hc). by destruct (rule_matches_of p c).
  - specialize (H c Hc). rewrite Forall_fmap, Forall_forall in Hall. specialize (Hall c Hc). simpl in Hall.
    destruct (rule_matches_of p c) as [|m ms] eqn:Hm; [done|]. apply existsb_exists. exists m. split; [by left|].
    assert (Hin : m ∈ rule_matches_of p c) by (rewrite Hm; left).
    pose proof (verdict_le_matches p h c m Hin) as Hle. rewrite Hall in Hle.
    pose proof (rule_matches_of_policy p c) as Hp. rewrite Forall_forall in Hp. specialize (Hp m Hin).
    unfold is_rule_with. rewrite Hp. simpl. apply bool_decide_eq_true_2. by apply decision_le_Allow.
Qed.

Lemma requirement_spec policy req parsed platform :
  commands parsed <> [] ->
  exists r, create_exec_approval_requirement_for_parsed_commands policy req parsed platform = Return r
            /\ requirement_matches policy req parsed platform r.
Proof.
  intros Hne. unfold create_exec_approval_requirement_for_parsed_commands.
  destruct (check_multiple_verdict (policy_of policy req) (fallback_of req parsed platform) (commands parsed) Hne)
    as (e & He & Hms & Hd).
  fold (policy_of policy req). change (fun c => render_decision_for_unmatched_command_for_platform c _ _ _)
    with (fallback_of req parsed platform). rewrite He. cbn [mbind outcome_bind]. eexists. split; [reflexivity|].
  unfold requirement_matches. unfold verdict_of at 1. change (fun c => command_verdict _ _ c)
    with (command_verdict (policy_of policy req) (fallback_of req parsed platform)).
  rewrite Hd, Hms, existsb_rule_with. fold (rule_asks policy req parsed).
  destruct (eval_decision e).
  - eexists _, _. split; [reflexivity|]. apply (bypass_spec _ (fallback_of req parsed platform)).
    apply max_decision_Allow in Hd; [done|by intros ?%fmap_nil_inv].
  - destruct (prompt_is_rejected_by_policy _ _) as [reason|].
    + rewrite bool_decide_eq_true_2 by eauto. case_match; eauto.
    + rewrite bool_decide_eq_false_2 by (by intros [? ?]). eauto.
  - eauto.
Qed.

Lemma commands_for_nonempty cmd platform : commands (commands_for_exec_policy_for_platform cmd platform) <> [].
Proof. unfold commands_for_exec_policy_for_platform. by repeat case_match. Qed.

(** C29: every command gets a requirement, and it follows from the strictest of
    the verdicts on the commands that the command line runs: all allowed, it runs,
    outside the sandbox only if a rule allows each of them; one to be asked about,
    the user is asked unless the approval policy rules that out, which refuses it,
    for rules and for the sandbox separately; one forbidden, it is refused. *)
Theorem approval_exact policy req platform :
  exists r, create_exec_approval_requirement_for_command_platform policy req platform = Return r
    /\ requirement_matches policy req (commands_for_exec_policy_for_platform (command req) platform) platform r.
Proof. apply requirement_spec, commands_for_nonempty. Qed.

Lemma requirement_bound policy req parsed platform r c :
  requirement_matches policy req parsed platform r -> c ∈ commands parsed ->
  (forall bypass amendment, r = Skip bypass amendment -> verdict_of policy req parsed platform c = Allow)
  /\ (verdict_of policy req parsed platform c = Forbidden -> exists reason, r = ForbiddenCommand reason).
Proof.
  unfold requirement_matches. intros H Hc.
  destruct (max_decision _) as [d|] eqn:Hd; [|done]. pose proof Hd as [_ Hall]%max_decision_spec.
  rewrite Forall_fmap, Forall_forall in Hall. specialize (Hall c Hc). simpl in Hall. split.
  - intros b a ->. destruct d; [by apply decision_le_Allow| |].
    + case_bool_decide; naive_solver.
    + naive_solver.
  - intros Hv. rewrite Hv in Hall. destruct d; unfold decision_le in Hall; simpl in Hall; [lia|lia|done].
Qed.

(** What the fallback says of a dangerous command *)
Lemma fallback_dangerous req parsed platform c :
  is_Some (dangerous_command_match_for_origin c (command_origin parsed) platform) ->
  fallback_of req parsed platform c <> Allow
  /\ (approval_policy (context req) = Never -> fallback_of req parsed platform c = Forbidden).
Proof.
  intros Hd. unfold fallback_of, render_decision_for_unmatched_command_for_platform.
  rewrite bool_decide_eq_true_2 by done. simpl. by destruct (approval_policy (context req)).
Qed.

(** A command line in which a dangerous command is found that no rule covers
    never runs without being asked about: it is asked about or refused, and always
    refused where the user is never asked. *)
Theorem dangerous_never_skipped policy req platform (c : list str) :
  let parsed := commands_for_exec_policy_for_platform (command req) platform in
  c ∈ commands parsed -> rule_matches_of (policy_of policy req) c = [] ->
  is_Some (dangerous_command_match_for_origin c (command_origin parsed) platform) ->
  exists r, create_exec_approval_requirement_for_command_platform policy req platform = Return r
    /\ (forall bypass amendment, r <> Skip bypass amendment)
    /\ (approval_policy (context req) = Never -> exists reason, r = ForbiddenCommand reason).
Proof.
  intros parsed Hc Hno Hd. destruct (requirement_spec policy req parsed platform (commands_for_nonempty _ _)) as (r & Hr & Hm).
  exists r. split; [exact Hr|]. destruct (requirement_bound _ _ _ _ _ _ Hm Hc) as [Hskip Hforbid].
  destruct (fallback_dangerous req parsed platform c Hd) as [Hne Hnever].
  assert (Hv : verdict_of policy req parsed platform c = fallback_of req parsed platform c) by by apply verdict_no_rule.
  rewrite Hv in Hskip, Hforbid. split; [intros b a E; by apply Hne, (Hskip b a)|]. auto.
Qed.

(** A command run by an executable that is neither the configured nor a
    system shell is judged by that executable as well as by the commands it seems
    to run: they can only add restrictions. It runs unasked only if the executable
    alone is allowed, and outside the sandbox only if a rule allows it. *)
Theorem unfamiliar_shell_not_trusted policy req (shell_path : str) (mode : UnifiedExecShellMode) platform (exe : str) :
  shell_approval_command (command req) shell_path mode = [exe] -> length (command req) <> 1 ->
  exists parsed r,
    create_exec_approval_requirement_for_shell policy req shell_path mode platform = Return r
    /\ head (commands parsed) = Some [exe]
    /\ (platform = PosixPlatform ->
        tail (commands parsed) = commands (commands_for_exec_policy_for_platform (command req) platform))
    /\ requirement_matches policy req parsed platform r
    /\ forall bypass amendment, r = Skip bypass amendment ->
         verdict_of policy req parsed platform [exe] = Allow
         /\ (bypass = true -> rule_matches_of (policy_of policy req) [exe] <> []).
Proof.
  intros Hexe Hlen. unfold create_exec_approval_requirement_for_shell. rewrite Hexe.
  rewrite (proj2 (Nat.eqb_neq _ _)) by (simpl; lia). set (inner := if bool_decide _ then _ else _).
  set (parsed := mkCommands ([exe] :: commands inner) (command_origin inner)).
  destruct (requirement_spec policy (with_command [exe] req) parsed platform) as (r & Hr & Hm); [done|].
  exists parsed, r. split_and!; [exact Hr|done| |exact Hm|].
  - intros ->. done.
  - intros b a ->. destruct (requirement_bound _ _ _ _ _ [exe] Hm) as [Hskip _]; [by left|].
    split; [by apply (Hskip b a)|]. intros ->. unfold requirement_matches in Hm.
    destruct (max_decision _) as [[]|]; [|case_bool_decide; naive_solver|naive_solver|done].
    destruct Hm as (b & a' & [= <- <-] & Hb). apply Hb; [done|by left].
Qed.

End Requirement.

(** ** Amendments *)

Section Amendments.
Context {AbsolutePath : Type} {exec_paths : ExecPaths AbsolutePath}.
Implicit Types (p : Policy AbsolutePath) (c : list str).

(** A rule that matches a command matches every longer one. *)
Lemma rule_matches_longer r cmd rest (m : RuleMatch AbsolutePath) :
  rule_matches r cmd = Some m -> exists m' : RuleMatch AbsolutePath, rule_matches r (cmd ++ rest) = Some m'.
Proof.
  intros Hm. apply rule_matches_pattern in Hm as [_ (mt & toks & -> & Hp & H2)].
  destruct (pattern_rule_matches (AbsolutePath := AbsolutePath) r (cmd ++ rest) (first (pattern r) :: toks)) as (m' & Hm' & _); [|by exists m'].
  exists toks. split_and!; [done| |done]. by apply prefix_app_r.
Qed.

Lemma omap_matches_longer rs cmd rest :
  omap (fun r => @rule_matches AbsolutePath r cmd) rs <> [] ->
  omap (fun r => @rule_matches AbsolutePath r (cmd ++ rest)) rs <> [].
Proof.
  intros H E. destruct (omap _ rs) as [|m ms] eqn:Hm; [done|].
  assert (Hin : m ∈ m :: ms) by left. rewrite <- Hm in Hin. apply list_elem_of_omap in Hin as (r & Hr & Hrm).
  apply (rule_matches_longer _ _ rest) in Hrm as [m' Hm']. apply (not_elem_of_nil m'). rewrite <- E.
  apply list_elem_of_omap. eauto.
Qed.

Lemma rule_matches_of_longer p c rest : rule_matches_of p c <> [] -> rule_matches_of p (c ++ rest) <> [].
Proof.
  rewrite !rule_matches_of_eq. intros H. destruct c as [|w c]; [done|]. cbn [app].
  assert (Hexact : exact_matches p (w :: c) <> [] -> exact_matches p (w :: c ++ rest) <> []).
  { unfold exact_matches. apply (omap_matches_longer _ (w :: c)). }
  assert (Hhost : match_host_executable_rules p (w :: c) <> [] -> match_host_executable_rules p (w :: c ++ rest) <> []).
  { unfold match_host_executable_rules. repeat case_match; try done;
      intros Hne E%fmap_nil_inv; revert E; apply (omap_matches_longer _ (_ :: c)); intros E; by rewrite E in Hne. }
  destruct (exact_matches p (w :: c)); [|destruct (exact_matches p (w :: c ++ rest)); [|done]; by destruct (Hexact ltac:(done))].
  destruct (exact_matches p (w :: c ++ rest)); [|done]. by apply Hhost.
Qed.

(** What a new allow rule changes *)
Lemma add_allow_exact a p p1 c :
  add_prefix_rule a Allow p = Ok p1 ->
  exact_matches p1 c = exact_matches p c ++ (if decide (a `prefix_of` c) then [PrefixRuleMatch a Allow None None] else []).
Proof.
  destruct a as [|t ts]; [done|]. intros [= <-]. rewrite <- single_rule_matches. apply exact_matches_added.
Qed.

Lemma add_allow_host a p p1 c :
  add_prefix_rule a Allow p = Ok p1 ->
  (forall m, m ∈ match_host_executable_rules p1 c -> m ∈ match_host_executable_rules p c \/ match_decision m = Allow)
  /\ (match_host_executable_rules p1 c = [] -> match_host_executable_rules p c = []).
Proof.
  destruct a as [|t ts]; [done|]. intros [= <-]. unfold match_host_executable_rules.
  destruct c as [|w c]; [by split; [left|]|]. destruct (absolute_path w) as [prog|]; [|by split; [left|]].
  destruct (executable_path_lookup_key prog) as [k|]; [|by split; [left|]]. unfold multi_insert. cbn [rules_by_program host_executables_by_name].
  destruct (decide (t = k)) as [->|Hne]; [|rewrite lookup_insert_ne by done; by split; [left|]].
  rewrite lookup_insert_eq.
  assert (Hnew : forall rs m, m ∈ with_resolved_program prog <$> omap (fun r => rule_matches r (k :: c))
                  (rs ++ [mkRule (mkPattern k (Single <$> ts)) Allow None]) ->
                m ∈ with_resolved_program prog <$> omap (fun r => rule_matches r (k :: c)) rs \/ match_decision m = Allow).
  { intros rs m. rewrite omap_app, fmap_app. intros [?|Hm]%elem_of_app; [by left|]. right.
    apply list_elem_of_fmap in Hm as (m' & -> & (r & ->%list_elem_of_singleton & Hm)%list_elem_of_omap).
    by apply fmap_Some in Hm as (? & _ & ->). }
  destruct (rules_by_program p !! k) as [rs|]; cbn [default from_option id];
    (destruct (match host_executables_by_name p !! k with Some _ => _ | None => _ end); [by split; [left|]|]).
  - split; [apply Hnew|]. intros E. rewrite omap_app, fmap_app in E. by apply app_nil in E as [E _].
  - split; [|done]. intros m Hm. right. by apply (Hnew []) in Hm as [Hm%not_elem_of_nil|].
Qed.

Definition only_allowing p c : Prop := Forall (fun m => match_decision m = Allow) (rule_matches_of p c).

Lemma add_allow_matches a p p1 c :
  add_prefix_rule a Allow p = Ok p1 -> only_allowing p c ->
  only_allowing p1 c /\ (rule_matches_of p1 c = [] -> rule_matches_of p c = []) /\ (a `prefix_of` c -> rule_matches_of p1 c <> []).
Proof.
  intros Hadd. unfold only_allowing. rewrite !rule_matches_of_eq, (add_allow_exact a p p1 c Hadd).
  destruct (add_allow_host a p p1 c Hadd) as [Hhost Hnil].
  destruct (decide (a `prefix_of` c)) as [Hp|Hp]; [|rewrite app_nil_r]; destruct (exact_matches p c) as [|m ms]; intros Hall.
  - split_and!; [by constructor|done|done].
  - split_and!; [|done|done]. cbn [app]. rewrite app_comm_cons. apply Forall_app. split; [done|by constructor].
  - split_and!; [|done|done]. apply Forall_forall. rewrite Forall_forall in Hall. intros m [Hm|]%Hhost; [by apply Hall|done].
  - by split_and!.
Qed.

Lemma verdict_only_allowing p h c : command_verdict p h c = Allow -> only_allowing p c.
Proof.
  intros Hv. apply Forall_forall. intros m Hm. apply decision_le_Allow. rewrite <- Hv. by apply verdict_le_matches.
Qed.

Lemma add_allow_verdict a p p1 h c :
  add_prefix_rule a Allow p = Ok p1 -> only_allowing p c -> command_verdict p h c = Allow \/ a `prefix_of` c ->
  command_verdict p1 h c = Allow.
Proof.
  intros Hadd Hall Hor. destruct (add_allow_matches a p p1 c Hadd Hall) as (Hall1 & Hnil & Hpre).
  destruct (rule_matches_of p1 c) as [|m ms] eqn:E.
  - destruct Hor as [Hv|Hp]; [|by destruct (Hpre Hp)]. rewrite verdict_no_rule in Hv |- *; auto.
  - apply verdict_allow_rules; [by rewrite E|done].
Qed.

End Amendments.

Section Accepting.
Context {UL : UrlLib} {GL : GlobLib} {AbsolutePath : Type} {exec_paths : ExecPaths AbsolutePath}.
Context {WW : WindowsWords} {SG : ShellGrammar} {PG : PowerShellGrammar} {SQ : ShellQuoting}.
Context {E : Type} {json : Json}.
Implicit Types (policy : Policy AbsolutePath) (req : ExecApprovalRequest (AbsolutePath := AbsolutePath))
  (parsed : ExecPolicyCommands) (platform : DangerousCommandPlatform).

Lemma requested_no_rule prefix ms policy cs h a :
  derive_requested_execpolicy_amendment_from_prefix_rule (AbsolutePath := AbsolutePath) prefix ms policy cs h = Some a ->
  existsb is_policy_match ms = false.
Proof.
  unfold derive_requested_execpolicy_amendment_from_prefix_rule. destruct prefix as [pr|]; [|done]. simpl.
  destruct (is_empty pr); [done|]. case_match; [done|]. by destruct (existsb is_policy_match ms).
Qed.

Lemma matches_concat policy h cs c m :
  c ∈ cs -> m ∈ rule_matches_of policy c ->
  m ∈ (cs ≫= fun c => matches_for_command_with_options policy c (Some h) match_options).
Proof.
  intros Hc Hm. apply list_elem_of_bind. exists c. split; [|done]. rewrite matches_with_fallback.
  by destruct (rule_matches_of policy c); [apply not_elem_of_nil in Hm|].
Qed.

(** Where an amendment is proposed, rules are honoured and all that match allow. *)
Lemma proposed_amendment_inv policy req parsed platform reason a :
  create_exec_approval_requirement_for_parsed_commands policy req parsed platform = Return (NeedsApproval reason (Some a)) ->
  allow_prefix_rules req = Honor /\ commands parsed <> []
  /\ forall c, c ∈ commands parsed -> only_allowing (policy_of policy req) c.
Proof.
  intros H. destruct (decide (commands parsed = [])) as [Hnil|Hne].
  { unfold create_exec_approval_requirement_for_parsed_commands in H. by rewrite Hnil in H. }
  revert H. unfold create_exec_approval_requirement_for_parsed_commands.
  destruct (check_multiple_verdict (policy_of policy req) (fallback_of req parsed platform) (commands parsed) Hne)
    as (e & He & Hms & Hd).
  fold (policy_of policy req). change (fun c => render_decision_for_unmatched_command_for_platform c _ _ _)
    with (fallback_of req parsed platform). rewrite He. cbn [mbind outcome_bind].
  destruct (eval_decision e); [done| |done]. destruct (prompt_is_rejected_by_policy _ _); [by case_match|].
  intros Hr. injection Hr as _ Hr. destruct (bool_decide (allow_prefix_rules req = Honor)) eqn:Hhonor; [|done].
  apply bool_decide_eq_true in Hhonor. split_and!; [done|done|]. intros c Hc. apply Forall_forall. intros m Hm.
  pose proof (matches_concat _ (fallback_of req parsed platform) _ _ _ Hc Hm) as Hin. rewrite <- Hms in Hin.
  assert (Hpol : is_policy_match m = true).
  { pose proof (rule_matches_of_policy (policy_of policy req) c) as Hall. rewrite Forall_forall in Hall. by apply Hall. }
  assert (Hle : decision_le (match_decision m) Prompt).
  { apply max_decision_spec in Hd as [_ Hall]. rewrite Forall_fmap, Forall_forall in Hall.
    etrans; [by apply (verdict_le_matches (policy_of policy req) (fallback_of req parsed platform) c)|]. by apply (Hall c). }
  assert (Hnot : match_decision m <> Prompt).
  { intros Hp. destruct (derive_requested_execpolicy_amendment_from_prefix_rule (ExecApproval.prefix_rule req) (matched_rules e)
                           (policy_of policy req) (commands parsed) (fallback_of req parsed platform)) as [a'|] eqn:Hreq.
    - apply requested_no_rule in Hreq. rewrite <- not_true_iff_false, existsb_exists in Hreq. apply Hreq.
      exists m. by rewrite <- list_elem_of_In.
    - unfold try_derive_execpolicy_amendment_for_prompt_rules in Hr.
      destruct (existsb (is_rule_with Prompt) (matched_rules e)) eqn:Hex; [done|].
      rewrite <- not_true_iff_false, existsb_exists in Hex. apply Hex. exists m. rewrite <- list_elem_of_In. split; [done|].
      unfold is_rule_with. rewrite Hpol, bool_decide_eq_true_2 by done. done. }
  unfold decision_le in Hle. destruct (match_decision m); simpl in Hle; [done|done|lia].
Qed.

Lemma already_allowed_matches policy a : already_allowed policy a = true -> rule_matches_of policy a <> [].
Proof.
  unfold already_allowed. destruct (check_multiple_with_options _ _ _ _) as [e| |] eqn:He; [|done|done].
  intros [_ Hex]%andb_true_iff Hnil. apply from_matches_Return in He as [Hm _]. revert Hex. rewrite Hm. csimpl.
  by rewrite matches_with_fallback, Hnil.
Qed.

(** The policy in memory after an accepted amendment *)
Lemma accepted_policy (f : Faults (E := E)) ae home a policy file (m' : Manager) :
  append_amendment_and_update f ae home a (mkManager policy file) = (m', Ok tt) ->
  (ExecRules.policy m' = policy /\ rule_matches_of policy a <> []) \/ add_prefix_rule a Allow policy = Ok (ExecRules.policy m').
Proof.
  unfold append_amendment_and_update. cbn [ExecRules.policy rules_file].
  destruct (blocking_append_allow_prefix_rule _ _ _ _ _) as [file' [[]|]]; [|done].
  destruct (already_allowed policy a) eqn:Ha; [intros [= <-]; left; split; [done|by apply already_allowed_matches]|].
  destruct (add_prefix_rule a Allow policy) eqn:Hadd; [|done]. intros [= <-]. by right.
Qed.


(** ** Managed requirements *)

Lemma merged_matches policy overlay c m :
  m ∈ exact_matches overlay c ->
  m ∈ rule_matches_of (merge_overlay (map_to_list (rules_by_program overlay)) policy overlay) c.
Proof.
  intros Hm. rewrite rule_matches_of_eq, exact_matches_merge by done.
  destruct (exact_matches policy c ++ exact_matches overlay c) eqn:Eq.
  - apply app_nil in Eq as [_ Eq]. rewrite Eq in Hm. by apply not_elem_of_nil in Hm.
  - rewrite <- Eq. apply elem_of_app. by right.
Qed.


End Accepting.
