(* ===== verification/ApprovalExamples.v ===== *)
(** * Approval requirements on concrete command lines

    The theorems of ApprovalTheorems on a session with a small grammar, an empty
    or a small policy and a restricted sandbox, and what the code does at the
    corners. *)

From S2P Require Import Prelude RustStr PathUri PathTheorems Permissions PermissionTransforms.
From S2P Require Import ExecPolicy PolicyBuild ShellSyntax CommandSafety CommandTheorems PowerShell PowerShellTheorems.
From S2P Require Import ExecApproval ExecRules ApprovalTheorems.
Import Decisions Rules Policies Builder PolicyFiles.
Import PlainUrl PolicyExamples BuildExamples CommandExamples PowerShellExamples.

Module ApprovalExamples.

#[export] Instance literal_globs : GlobLib := {
  GlobMatcher := str;
  GlobError := unit;
  glob_build pattern _ := Ok pattern;
  is_match_candidate pattern bytes := str_eqb (as_bytes pattern) bytes;
}.
#[export] Instance blanks : ShellQuoting := { try_join args := Some (join (lit " ") args) }.

Definition in_sandbox (ask : AskForApproval) (p : SandboxPermissions) : UnmatchedCommandContext :=
  mkUnmatched ask (ProfileManaged (ManagedRestricted [] None) NetEnabled) WindowsSandboxDisabled p.
Definition asking (ask : AskForApproval) (p : SandboxPermissions) (cmd : list str) (prefix : option (list str))
    : ExecApprovalRequest (AbsolutePath := str) :=
  mkRequest cmd (in_sandbox ask p) None prefix Honor.
Definition no_rules : Policy str := empty_policy.

Definition requirement (policy : Policy str) (req : ExecApprovalRequest (AbsolutePath := str)) : outcome Error ExecApprovalRequirement :=
  create_exec_approval_requirement_for_command_platform policy req PosixPlatform.

Definition rm_x : list str := [lit "rm"; lit "-rf"; lit "x"].

Lemma dangerous_never_skipped_witness :
  exists r, requirement no_rules (asking Never UseDefault run_script None) = Return r
    /\ (forall bypass amendment, r <> Skip bypass amendment)
    /\ (approval_policy (in_sandbox Never UseDefault) = Never -> exists reason, r = ForbiddenCommand reason).
Proof.
  apply (dangerous_never_skipped no_rules (asking Never UseDefault run_script None) PosixPlatform rm_x).
  - vm_compute. right. left.
  - vm_compute. reflexivity.
  - vm_compute. eauto.
Defined.

Definition fake_bash : list str := [lit "/tmp/bash"; lit "-lc"; lit "ls && rm -rf x"].

Lemma unfamiliar_shell_not_trusted_witness :
  exists parsed r,
    create_exec_approval_requirement_for_shell no_rules (asking OnRequest UseDefault fake_bash None) (lit "/bin/zsh") Direct PosixPlatform
      = Return r
    /\ head (commands parsed) = Some [lit "/tmp/bash"]
    /\ (PosixPlatform = PosixPlatform -> tail (commands parsed) = commands (commands_for_exec_policy_for_platform fake_bash PosixPlatform))
    /\ requirement_matches no_rules (asking OnRequest UseDefault fake_bash None) parsed PosixPlatform r
    /\ forall bypass amendment, r = Skip bypass amendment ->
         verdict_of no_rules (asking OnRequest UseDefault fake_bash None) parsed PosixPlatform [lit "/tmp/bash"] = Allow
         /\ (bypass = true -> rule_matches_of (policy_of no_rules (asking OnRequest UseDefault fake_bash None)) [lit "/tmp/bash"] <> []).
Proof.
  apply (unfamiliar_shell_not_trusted no_rules (asking OnRequest UseDefault fake_bash None) (lit "/bin/zsh") Direct PosixPlatform
           (lit "/tmp/bash")); [vm_compute; reflexivity|discriminate].
Defined.

(** A command that leaves the sandbox, with a suggested prefix *)
Definition npm_test : list str := [lit "npm"; lit "test"].
Definition npm_request : ExecApprovalRequest (AbsolutePath := str) :=
  asking OnRequest RequireEscalated npm_test (Some [lit "npm"]).
Definition after_npm : Manager (AbsolutePath := str) :=
  (append_amendment_and_update (E := unit) no_faults (fun _ => false) (lit "/h") [lit "npm"] (mkManager no_rules None)).1.


Definition no_files : Files := mkFiles (fun _ => NotFound) (fun _ => None) (fun _ _ => ([], None)) id.
Definition managed : ConfigLayerStack (AbsolutePath := str) := mkStack [mkLayer UserLayer (Some (lit "/h"))] false (Some overlay).
Definition git_push_forbidden : RuleMatch str := PrefixRuleMatch [lit "git"; lit "push"] Forbidden None None.


(** A forced [rm] with a reason of its own *)
Example rm_refused :
  requirement no_rules (asking Never UseDefault rm_x None)
  = Return (ForbiddenCommand (lit "`rm -rf x` rejected: rm -f style commands are not permitted. Use a safer approach")).
Proof. vm_compute. reflexivity. Qed.

(** A suggestion as broad as [git] is not taken up: the command itself is proposed,
    also where it is as broad. *)
Example banned_not_suggested :
  requirement no_rules (asking OnRequest RequireEscalated [lit "git"; lit "status"] (Some [lit "git"]))
  = Return (NeedsApproval None (Some [lit "git"; lit "status"])).
Proof. vm_compute. reflexivity. Qed.

Example banned_still_derived :
  requirement no_rules (asking OnRequest RequireEscalated [lit "bash"] (Some [lit "bash"]))
  = Return (NeedsApproval None (Some [lit "bash"])).
Proof. vm_compute. reflexivity. Qed.

(** The managed rule for [git] is looked up by the name of the executable only
    where no rule names its path: a rule of the user for the path comes first. *)
Definition user_path : Policy str :=
  merge_overlay (map_to_list (rules_by_program overlay))
    (mkPolicy {[lit "/usr/bin/git" := [mkRule (mkPattern (lit "/usr/bin/git") []) Allow None]]} [] ∅) overlay.
Example path_rule_hides_managed_name :
  command_verdict overlay (fun _ => Prompt) [lit "/usr/bin/git"; lit "push"] = Forbidden
  /\ command_verdict user_path (fun _ => Prompt) [lit "/usr/bin/git"; lit "push"] = Allow.
Proof. split; vm_compute; reflexivity. Qed.

End ApprovalExamples.
