(* ===== verification/Interaction.v ===== *)
(** * Interaction: code that calls out and waits

    Asynchronous code asks a user, a hook or a reviewer, runs a tool, reads a
    store under its lock, and goes on with the answer. [prog] is such code as a
    tree of the calls it makes; its behaviours are the logs of calls with the
    answers they got, where the environment may answer anything and the task may
    be dropped while it waits. [always] is the proof rule for what holds of every
    log, [run_with] evaluates a program on given answers. *)

From S2P Require Import Prelude.

Section Interaction.
Context {call : Type} {answer : call -> Type}.

Inductive prog (R : Type) :=
| Done (r : R)
| Do (c : call) (k : answer c -> prog R).
Arguments Done {R} _.
Arguments Do {R} _ _.

Fixpoint prog_bind {A B} (f : A -> prog B) (p : prog A) : prog B :=
  match p with
  | Done r => f r
  | Do c k => Do c (fun x => prog_bind f (k x))
  end.

Definition perform (c : call) : prog (answer c) := Do c Done.

(** A call and its answer *)
Definition event : Type := { c : call & answer c }.

(** ** Behaviours *)

(** [behaves p log o]: the calls of [log] are made and answered, and then the
    program has returned [o] or, for [None], is dropped. *)
Fixpoint behaves {R} (p : prog R) (log : list event) (o : option R) : Prop :=
  match p with
  | Done r => log = [] /\ (o = None \/ o = Some r)
  | Do c k =>
      (log = [] /\ o = None) \/ exists x log', log = existT c x :: log' /\ behaves (k x) log' o
  end.

(** Every log reached, from [log] on, satisfies [I], and every result [Q]. *)
Fixpoint always {R} (I : list event -> Prop) (Q : R -> list event -> Prop) (p : prog R) (log : list event) : Prop :=
  I log /\ match p with
           | Done r => Q r log
           | Do c k => forall x, always I Q (k x) (log ++ [existT c x])
           end.

Lemma always_sound {R} I (Q : R -> list event -> Prop) p log log' o :
  always I Q p log -> behaves p log' o ->
  I (log ++ log') /\ forall r, o = Some r -> Q r (log ++ log').
Proof.
  revert log log'. induction p as [r|c k IH]; intros log log'; simpl.
  - intros [HI HQ] [-> Ho]. rewrite app_nil_r. split; [done|]. intros r' ->. by destruct Ho as [|[= ->]].
  - intros [HI Hk] [[-> ->]|(x & log'' & -> & H)]; [by rewrite app_nil_r|].
    destruct (IH x _ _ (Hk x) H) as [??]. by rewrite <- app_assoc in *.
Qed.

Lemma always_first {R} I (Q : R -> list event -> Prop) p log : always I Q p log -> I log.
Proof. by destruct p as [|c k]; intros [? _]. Qed.

Lemma always_mono {R} (I I' : list event -> Prop) (Q Q' : R -> list event -> Prop) p log :
  (forall l, I l -> I' l) -> (forall r l, I l -> Q r l -> Q' r l) -> always I Q p log -> always I' Q' p log.
Proof.
  intros HI HQ. revert log. induction p as [r|c k IH]; intros log [??]; split; auto.
Qed.

Lemma always_and {R} (I I' : list event -> Prop) (Q Q' : R -> list event -> Prop) p log :
  always I Q p log -> always I' Q' p log -> always (fun l => I l /\ I' l) (fun r l => Q r l /\ Q' r l) p log.
Proof.
  revert log. induction p as [r|c k IH]; intros log [? H1] [? H2]; split; auto.
Qed.

Lemma always_bind {A B} I (Q : B -> list event -> Prop) (f : A -> prog B) p log :
  always I (fun a l => always I Q (f a) l) p log <-> always I Q (prog_bind f p) log.
Proof.
  revert log. induction p as [r|c k IH]; intros log; simpl.
  - split; [tauto|]. intros H. split; [by eapply always_first|done].
  - by setoid_rewrite IH.
Qed.

(** What holds of the events of one program whatever was logged before. *)
Lemma always_frame {R} (I : list event -> Prop) (Q : R -> list event -> Prop) p log :
  always I Q p [] -> always (fun l => exists l', l = log ++ l' /\ I l') (fun r l => exists l', l = log ++ l' /\ Q r l') p log.
Proof.
  intros H. cut (forall l0, always I Q p l0 ->
    always (fun l => exists l', l = log ++ l' /\ I l') (fun r l => exists l', l = log ++ l' /\ Q r l') p (log ++ l0)).
  { intros Hc. specialize (Hc [] H). by rewrite app_nil_r in Hc. }
  clear H. induction p as [r|c k IH]; intros l0 [HI H]; split; eauto.
  intros x. rewrite <- app_assoc. by apply IH.
Qed.

(** A program that returns [r] after [log] behaves so. *)
Lemma behaves_bind {A B} (f : A -> prog B) p log o :
  behaves (prog_bind f p) log o ->
  (o = None /\ behaves p log None)
  \/ exists r log1 log2, log = log1 ++ log2 /\ behaves p log1 (Some r) /\ behaves (f r) log2 o.
Proof.
  revert log. induction p as [r|c k IH]; intros log; simpl.
  - intros H. right. exists r, [], log. split; [done|]. by split; [split; [|right]|].
  - intros [[-> ->]|(x & log' & -> & H)]; [by left; split; [|left]|].
    destruct (IH x log' H) as [[-> H']|(r & l1 & l2 & -> & H1 & H2)].
    + left. split; [done|]. right. by exists x, log'.
    + right. exists r, (existT c x :: l1), l2. split; [done|]. split; [|done]. right. by exists x, l1.
Qed.

(** ** Evaluation *)

(** [oracle] answers a call, given how many calls came before. *)
Fixpoint run_with {R} (oracle : nat -> forall c, answer c) (n : nat) (p : prog R) : R * list event :=
  match p with
  | Done r => (r, [])
  | Do c k =>
      let x := oracle n c in
      let '(r, log) := run_with oracle (S n) (k x) in (r, existT c x :: log)
  end.

Lemma run_with_behaves {R} oracle n (p : prog R) :
  behaves p (run_with oracle n p).2 (Some (run_with oracle n p).1).
Proof.
  revert n. induction p as [r|c k IH]; intros n; simpl; [by split; [|right]|].
  specialize (IH (oracle n c) (S n)). destruct (run_with _ _ _) as [r log]. right. by eexists _, _.
Qed.

End Interaction.

Arguments prog {call} answer R.
Arguments Done {call answer R} _.
Arguments Do {call answer R} _ _.
Arguments event {call} answer.

(** The [await] of the source and, on results, its [?] *)
#[export] Instance prog_ret {call} {answer : call -> Type} : MRet (prog answer) := fun A => Done.
#[export] Instance prog_mbind {call} {answer : call -> Type} : MBind (prog answer) := fun A B => prog_bind.

Definition lift_result {E A} (r : result E A) : outcome E A := match r with Ok a => Return a | Err e => Throw e end.
Definition try_bind {call} {answer : call -> Type} {E A B} (f : A -> prog answer (outcome E B)) (p : prog answer (outcome E A))
    : prog answer (outcome E B) :=
  prog_bind (fun r => match r with Return a => f a | Throw e => Done (Throw e) | Panic => Done Panic end) p.
Notation "x ←? p ; k" := (try_bind (fun x => k) p)
  (at level 20, p at level 100, k at level 200, format "x  ←?  p ;  '//' k") : codex_scope.

Section Rules.
Context {call : Type} {answer : call -> Type}.

Lemma always_await {A B} I (Q : B -> list (event answer) -> Prop) (f : A -> prog answer B) (p : prog answer A) log :
  always I (fun a l => always I Q (f a) l) p log -> always I Q (p ≫= f) log.
Proof. apply always_bind. Qed.

Lemma always_try {E A B} I (Q : outcome E B -> list (event answer) -> Prop) (f : A -> prog answer (outcome E B)) p log :
  always I (fun r l => match r with
                       | Return a => always I Q (f a) l
                       | Throw e => Q (Throw e) l
                       | Panic => Q Panic l
                       end) p log ->
  always I Q (try_bind f p) log.
Proof.
  intros H. apply always_bind. eapply always_mono; [done| |exact H]. intros [a|e|] l HI HQ; [done|by split..].
Qed.

Lemma behaves_try {E A B} (f : A -> prog answer (outcome E B)) p log o :
  behaves (try_bind f p) log o ->
  (exists o', behaves p log o' /\ forall b, o <> Some (Return b))
  \/ exists a log1 log2, log = log1 ++ log2 /\ behaves p log1 (Some (Return a)) /\ behaves (f a) log2 o.
Proof.
  intros [[-> H]|(r & l1 & l2 & -> & H1 & H2)]%behaves_bind; [left; by eexists|].
  destruct r as [a|e|]; [right; by exists a, l1, l2|left..]; destruct H2 as [-> Ho]; rewrite app_nil_r;
    (eexists; split; [exact H1|]); by destruct Ho as [-> | ->].
Qed.
End Rules.
