(* ===== verification/ExecutorPolicy.v ===== *)
(** * Policies with the paths of the execution host

    protocol/src/permissions/target.rs and deny_read_validator.rs: a strict
    matcher for denied reads that only uses the paths the executor reported, the
    policy an approved command runs under, the roots and patterns that may not be
    read, and the check that a selected policy keeps the denials an administrator
    requires. Error strings are the data they render. *)

From S2P Require Import Prelude RustStr PathUri NativePath Permissions.

Section ExecutorPolicy.
Context {UL : UrlLib} {GL : GlobLib}.

Inductive TargetError :=
| InvalidPath
| Shadowed
| TemporaryUnavailable
| TemporaryInvalid
| UnreportedTemporary
| DenyRead (e : DenyReadError).

(** ** The strict matcher *)

Definition denies (e : FileSystemSandboxEntry) : bool := access_eqb (access e) Deny.

Definition has_context_read_denials (policy : FileSystemSandboxPolicy) (ctx : FileSystemSandboxPolicyContext) : bool :=
  is_restricted (kind policy)
  && existsb (fun e =>
       denies e
       && negb (match entry_path e with
                | Special SlashTmp => negb (convention_opt_eqb (infer_path_convention (cwd ctx)) (Some Posix))
                | _ => false
                end)) (entries policy).

(** The closure [valid] of [validate_context_paths] *)
Definition valid_path (convention : PathConvention) (p : Url) : bool :=
  convention_opt_eqb (infer_path_convention p) (Some convention) && bool_decide (is_Some (lexical_depth p)).

Definition validate_entry_paths (convention : PathConvention) (ctx : FileSystemSandboxPolicyContext) (e : FileSystemSandboxEntry)
    : result TargetError unit :=
  match entry_path e with
  | Path p => if valid_path convention p then Ok tt else Err InvalidPath
  | Special Tmpdir =>
      match temporary_directories ctx with
      | None => Err TemporaryUnavailable
      | Some directories =>
          if existsb (fun p => negb (valid_path convention p)) directories then Err TemporaryInvalid else Ok tt
      end
  | Special (ProjectRoots (Some subpath)) =>
      if existsb (fun root => negb (bool_decide (is_Some (join_ok root subpath)))) (workspace_roots ctx)
      then Err InvalidPath else Ok tt
  | GlobPattern pattern =>
      if (starts_with (lit "~/") pattern || convention_eqb convention Windows && starts_with (lit "~\") pattern)
         && negb (match user_home_dir ctx with Some home => valid_path convention home | None => false end)
      then Err InvalidPath else Ok tt
  | _ => Ok tt
  end.

(** A loop that stops at the first error *)
Fixpoint for_each {E A} (f : A -> result E unit) (l : list A) : result E unit :=
  match l with [] => Ok tt | x :: l => _ ← f x; for_each f l end.

Definition validate_context_paths (policy : FileSystemSandboxPolicy) (ctx : FileSystemSandboxPolicyContext)
    : result TargetError unit :=
  match infer_path_convention (cwd ctx) with
  | None => Err InvalidPath
  | Some convention =>
      if negb (valid_path convention (cwd ctx)) || existsb (fun p => negb (valid_path convention p)) (workspace_roots ctx)
      then Err InvalidPath
      else for_each (validate_entry_paths convention ctx) (entries policy)
  end.

Definition try_new_with_context (policy : FileSystemSandboxPolicy) (ctx : FileSystemSandboxPolicyContext)
    : result TargetError (option PreparedReadDenyMatcher) :=
  if negb (has_context_read_denials policy ctx) then Ok None
  else
    _ ← validate_context_paths policy ctx;
    prepared ← map_err DenyRead (prepare_deny_read_matcher policy ctx ReturnError);
    Ok (Some prepared).

(** [matcher.is_some_and(|matcher| matcher.is_read_denied_uri(path, context))] *)
Definition denied_by (matcher : option PreparedReadDenyMatcher) (p : Url) (ctx : FileSystemSandboxPolicyContext) : bool :=
  match matcher with Some m => is_read_denied_uri m p ctx | None => false end.

(** ** The policy of an approved command *)

Definition workspace_symbol (e : FileSystemSandboxEntry) : bool :=
  match entry_path e with
  | Special (ProjectRoots _) => true
  | GlobPattern pattern => starts_with PROJECT_ROOTS_GLOB_PATTERN_PREFIX pattern
  | _ => false
  end.

(** The loop that opens the metadata directories of the root; [None] where a name
    cannot be joined. *)
Fixpoint open_metadata (root : Url) (matcher : option PreparedReadDenyMatcher) (ctx : FileSystemSandboxPolicyContext)
    (names : list str) : option (list FileSystemSandboxEntry) :=
  match names with
  | [] => Some []
  | name :: names =>
      match join_descendant_ok root name with
      | None => None
      | Some path =>
          rest ← open_metadata root matcher ctx names;
          Some (if denied_by matcher path ctx then rest else new_entry (Path path) Write :: rest)
      end
  end.

Definition for_approved_command (self : FileSystemSandboxPolicy) (ctx : FileSystemSandboxPolicyContext) : FileSystemSandboxPolicy :=
  if negb (is_restricted (kind self)) then self
  else
    let approved := preserve_deny_read_restrictions_from (restricted [new_entry (Special Root) Write]) self in
    if is_empty (workspace_roots ctx) && existsb workspace_symbol (entries approved) then self
    else
      match try_materialize_entries (entries approved) (workspace_roots ctx) with
      | None => self
      | Some es =>
          let approved := mkPolicy (kind approved) (glob_scan_max_depth approved) es in
          match file_system_root ctx, try_new_with_context approved ctx with
          | Some root, Ok matcher =>
              if negb (can_write (resolve_access approved root ctx)) || denied_by matcher root ctx then self
              else match open_metadata root matcher ctx PROTECTED_METADATA_PATH_NAMES with
                   | None => self
                   | Some opened => mkPolicy (kind approved) (glob_scan_max_depth approved) (entries approved ++ opened)
                   end
          | _, _ => self
          end
      end.

Definition can_read_path (self : FileSystemSandboxPolicy) (p : Url) (ctx : FileSystemSandboxPolicyContext) : bool :=
  can_read (resolve_access self p ctx).

(** ** Workspace symbols and unreadable roots *)

Definition with_materialized_project_roots_for_path_uris (self : FileSystemSandboxPolicy) (roots : list Url)
    : FileSystemSandboxPolicy :=
  match try_materialize_entries (entries self) roots with
  | None => restricted []
  | Some es => mkPolicy (kind self) (glob_scan_max_depth self) (foldl push_missing (entries self) es)
  end.

(** [seen.insert]: the first of equal paths *)
Fixpoint first_seen (seen ps : list Url) : list Url :=
  match ps with
  | [] => []
  | p :: ps => if existsb (path_uri_eqb p) seen then first_seen seen ps else p :: first_seen (p :: seen) ps
  end.

Definition get_unreadable_roots_with_context (self : FileSystemSandboxPolicy) (ctx : FileSystemSandboxPolicyContext)
    : result TargetError (list Url) :=
  if negb (is_restricted (kind self)) then Ok []
  else if negb (bool_decide (is_Some (temporary_directories ctx)))
          && existsb (fun e => denies e && match entry_path e with Special Tmpdir => true | _ => false end) (entries self)
  then Err UnreportedTemporary
  else Ok (first_seen [] (denied_entry_roots self ctx)).

Definition get_unreadable_globs_with_context (self : FileSystemSandboxPolicy) (ctx : FileSystemSandboxPolicyContext)
    : result DenyReadError (list str) :=
  deny_read_globs self ctx.

(** ** Mandatory denials *)

Record DenyReadValidator := mkValidator {
  required_entries : list FileSystemSandboxEntry;
  validator_matcher : option PreparedReadDenyMatcher;
}.
Inductive DenyReadViolation := MissingRequiredDeny | ReadablePath (p : Url).

Definition new_validator (required : FileSystemSandboxPolicy) (ctx : FileSystemSandboxPolicyContext)
    : result DenyReadError DenyReadValidator :=
  if has_context_read_denials required ctx
  then m ← prepare_deny_read_matcher required ctx ReturnError; Ok (mkValidator (entries required) (Some m))
  else Ok (mkValidator (entries required) None).

Definition violating_root (self : DenyReadValidator) (ctx : FileSystemSandboxPolicyContext) (e : FileSystemSandboxEntry) : option Url :=
  match entry_path e with
  | Path p =>
      if negb (convention_opt_eqb (infer_path_convention p) (infer_path_convention (cwd ctx))) then None
      else match validator_matcher self with
           | Some m => if matches_prepared_read_deny p ctx m then Some p else None
           | None => None
           end
  | _ => None
  end.

Definition validate (self : DenyReadValidator) (selected : FileSystemSandboxPolicy) (ctx : FileSystemSandboxPolicyContext)
    : result DenyReadViolation unit :=
  let missing_required_deny := existsb (fun e => negb (contains_entry (entries selected) e)) (required_entries self) in
  match find_map (violating_root self ctx) (List.filter (fun e => can_read (access e)) (entries selected)) with
  | Some p => Err (ReadablePath p)
  | None => if missing_required_deny then Err MissingRequiredDeny else Ok tt
  end.

Definition validate_managed_deny_read (self required : FileSystemSandboxPolicy) (ctx : FileSystemSandboxPolicyContext)
    : result TargetError unit :=
  validator ← map_err DenyRead (new_validator required ctx);
  map_err (fun _ => Shadowed) (validate validator self ctx).

End ExecutorPolicy.
