(* ===== verification/ToolSandbox.v ===== *)
(** * In which sandbox a tool runs

    The decisions of core/src/tools/sandboxing.rs about sandboxes, the selection
    of a sandbox in sandboxing/src/manager.rs, the Windows sandbox of
    protocol/src/sandbox.rs and the environment of a turn as far as the
    orchestrator reads it. The target of the build is an argument [os]. *)

From S2P Require Import Prelude RustStr PathUri Permissions PermissionTransforms ExecApproval ExecutorPolicy.

Inductive TargetOs := LinuxOs | MacOs | WindowsOs | OtherOs.
#[export] Instance TargetOs_eq_dec : EqDecision TargetOs.
Proof. solve_decision. Defined.

(** [PathConvention::native()] *)
Definition native_convention (os : TargetOs) : PathConvention :=
  match os with WindowsOs => Windows | _ => Posix end.

Inductive SandboxType := SandboxNone | MacosSeatbelt | LinuxSeccomp | WindowsRestrictedToken | WindowsMxc.
#[export] Instance SandboxType_eq_dec : EqDecision SandboxType.
Proof. solve_decision. Defined.

Inductive SandboxablePreference := Auto | Require | Forbid.
Inductive WindowsSandboxSelection := SelectionDisabled | SelectionRestrictedToken | SelectionElevated | SelectionMxc.

Definition effective_windows_sandbox_type (sandbox_type : SandboxType) (level : WindowsSandboxLevel) : SandboxType :=
  match sandbox_type, level with
  | WindowsMxc, _ => WindowsMxc
  | _, WindowsSandboxDisabled => SandboxNone
  | _, (RestrictedToken | Elevated) => WindowsRestrictedToken
  end.

Definition windows_sandbox_level_for_legacy_checks (sandbox_type : SandboxType) (level : WindowsSandboxLevel) : WindowsSandboxLevel :=
  if bool_decide (effective_windows_sandbox_type sandbox_type level = WindowsMxc) then RestrictedToken else level.

Definition get_platform_sandbox (os : TargetOs) (windows_sandbox_enabled : bool) : option SandboxType :=
  match os with
  | MacOs => Some MacosSeatbelt
  | LinuxOs => Some LinuxSeccomp
  | WindowsOs => if windows_sandbox_enabled then Some WindowsRestrictedToken else None
  | OtherOs => None
  end.

Definition requires_escalated_permissions (p : SandboxPermissions) : bool :=
  match p with RequireEscalated => true | _ => false end.
Definition uses_additional_permissions (p : SandboxPermissions) : bool :=
  match p with WithAdditionalPermissions => true | _ => false end.

Section ToolSandbox.
Context {UL : UrlLib} {GL : GlobLib}.

(** ** The sandbox manager *)

Definition should_sandbox (os : TargetOs) (profile : PermissionProfile) (pref : SandboxablePreference)
    (has_managed_network_requirements : bool) : bool :=
  match pref with
  | Forbid => false
  | Require => true
  | Auto =>
      let '(fs, net) := to_runtime_permissions profile in
      should_require_platform_sandbox (native_convention os) fs net has_managed_network_requirements
  end.

Definition select_initial (os : TargetOs) (profile : PermissionProfile) (pref : SandboxablePreference)
    (windows_sandbox_type : SandboxType) (has_managed_network_requirements : bool) : SandboxType :=
  if negb (should_sandbox os profile pref has_managed_network_requirements) then SandboxNone
  else if bool_decide (os = WindowsOs) && bool_decide (windows_sandbox_type = WindowsMxc) then WindowsMxc
  else default SandboxNone (get_platform_sandbox os (bool_decide (windows_sandbox_type <> SandboxNone))).

(** ** Approval by default *)

Definition default_exec_approval_requirement (policy : AskForApproval) (fs : FileSystemSandboxPolicy) : ExecApprovalRequirement :=
  let needs_approval :=
    match policy with
    | Never => false
    | OnRequest | Granular _ => is_restricted (kind fs)
    | UnlessTrusted => true
    end in
  if needs_approval && match policy with Granular config => negb (sandbox_approval config) | _ => false end
  then ForbiddenCommand (lit "approval policy disallowed sandbox approval prompt")
  else if needs_approval then NeedsApproval None None
  else ExecApproval.Skip false None.

Definition proposed_execpolicy_amendment (r : ExecApprovalRequirement) : option ExecPolicyAmendment :=
  match r with
  | NeedsApproval _ (Some prefix) => Some prefix
  | ExecApproval.Skip _ (Some prefix) => Some prefix
  | _ => None
  end.

(** ** Overrides *)

Inductive SandboxOverride := NoOverride | EscalatedSandboxWithRestrictions | BypassSandboxFirstAttempt.

Definition DENIED_READS_NEED_SANDBOX : str :=
  lit "command escalation with denied reads requires an available filesystem sandbox".
Definition ensure_native_sandbox (self : SandboxOverride) (sandbox : SandboxType) : result str unit :=
  match self, sandbox with
  | EscalatedSandboxWithRestrictions, SandboxNone => Err DENIED_READS_NEED_SANDBOX
  | _, _ => Ok tt
  end.

Definition unsandboxed_execution_allowed (os : TargetOs) (fs : FileSystemSandboxPolicy) : bool :=
  negb (has_denied_read_restrictions_for_convention fs (Some (native_convention os))).

Definition sandbox_override_for_first_attempt (os : TargetOs) (permissions : SandboxPermissions)
    (requirement : ExecApprovalRequirement) (fs : FileSystemSandboxPolicy) (already_approved : bool) : SandboxOverride :=
  if negb (unsandboxed_execution_allowed os fs) then
    if requires_escalated_permissions permissions && already_approved then EscalatedSandboxWithRestrictions else NoOverride
  else
    match requirement with
    | ExecApproval.Skip true _ => BypassSandboxFirstAttempt
    | _ => if requires_escalated_permissions permissions then BypassSandboxFirstAttempt else NoOverride
    end.

Definition sandbox_permissions_preserving_denied_reads (os : TargetOs) (permissions : SandboxPermissions)
    (fs : FileSystemSandboxPolicy) : SandboxPermissions :=
  if requires_escalated_permissions permissions && negb (unsandboxed_execution_allowed os fs) then UseDefault else permissions.

Definition managed_network_for_sandbox_permissions {Net} (network : option Net) (permissions : SandboxPermissions) : option Net :=
  if requires_escalated_permissions permissions then None else network.

(** ** Windows executors *)

Definition executor_windows_sandbox_level (sandbox_type : SandboxType) (level : WindowsSandboxLevel) (cwd : Url) : WindowsSandboxLevel :=
  if bool_decide (sandbox_type <> WindowsMxc) && bool_decide (level = WindowsSandboxDisabled)
     && convention_opt_eqb (infer_path_convention cwd) (Some Windows)
  then RestrictedToken else level.

Definition selection_of_level (level : WindowsSandboxLevel) : WindowsSandboxSelection :=
  match level with
  | WindowsSandboxDisabled => SelectionDisabled
  | RestrictedToken => SelectionRestrictedToken
  | Elevated => SelectionElevated
  end.

Definition configured_windows_sandbox_selection (sandbox_type : SandboxType) (level : WindowsSandboxLevel) (cwd : Url)
    : WindowsSandboxSelection :=
  if negb (convention_opt_eqb (infer_path_convention cwd) (Some Windows)) then SelectionDisabled
  else if bool_decide (sandbox_type = WindowsMxc) then SelectionMxc
  else selection_of_level level.

Definition executor_windows_sandbox_selection (sandbox_type : SandboxType) (level : WindowsSandboxLevel) (cwd : Url)
    : WindowsSandboxSelection :=
  configured_windows_sandbox_selection sandbox_type (executor_windows_sandbox_level sandbox_type level cwd) cwd.

(** ** The environment of a turn *)

(** [EnvironmentNetworkPolicy] as far as the orchestrator reads it *)
Record EnvironmentNetworkPolicy := mkNetworkPolicy { requires_proxy : bool }.

Record TurnEnvironment := mkEnvironment {
  environment_id : str;
  env_cwd : Url;
  env_workspace_roots : list Url;
  env_user_home_dir : option Url;
  env_temporary_directories : option (list Url);
  env_permission_profile : PermissionProfile;
  is_remote : bool;
  windows_sandbox_type : SandboxType;
  env_windows_sandbox_level : WindowsSandboxLevel;
  use_legacy_landlock : bool;
  network_policy : option EnvironmentNetworkPolicy;
}.

Definition profile_materialize_project_roots (p : PermissionProfile) (roots : list Url) : PermissionProfile :=
  match p with
  | ProfileManaged fs net =>
      let policy := materialize_project_roots_with_path_uris (to_sandbox_policy fs) roots in
      ProfileManaged
        (match kind policy with
         | Unrestricted => ManagedUnrestricted
         | Restricted | ExternalSandbox => ManagedRestricted (entries policy) (non_zero (glob_scan_max_depth policy))
         end) net
  | ProfileDisabled => ProfileDisabled
  | ProfileExternal net => ProfileExternal net
  end.

Definition permission_profile_with_workspace_roots (env : TurnEnvironment) : PermissionProfile :=
  profile_materialize_project_roots (env_permission_profile env) (env_workspace_roots env).

(** [sandbox_context(None).policy_context()] *)
Definition policy_context (env : TurnEnvironment) : FileSystemSandboxPolicyContext :=
  mkContext (env_cwd env) (env_workspace_roots env) (env_user_home_dir env) (env_temporary_directories env).

(** ** Attempts *)

(** [ActiveNetworkApproval] and [DeferredNetworkApproval], by their registration *)
Record ActiveNetworkApproval := mkActive { registration_id : option str }.
Record DeferredNetworkApproval := mkDeferred { deferred_registration_id : str }.
Definition into_deferred (a : ActiveNetworkApproval) : option DeferredNetworkApproval := mkDeferred <$> registration_id a.

Record SandboxAttempt := mkAttempt {
  attempt_sandbox : SandboxType;
  sandbox_requested : bool;
  attempt_permissions : PermissionProfile;
  exec_server_permissions : PermissionProfile;
  enforce_managed_network : bool;
  attempt_sandbox_cwd : Url;
  attempt_workspace_roots : list Url;
  sandbox_exe : option str;
  attempt_use_legacy_landlock : bool;
  attempt_windows_sandbox_type : SandboxType;
  attempt_windows_sandbox_level : WindowsSandboxLevel;
  execution_proxy : option ActiveNetworkApproval;
}.

Definition is_escalated (os : TargetOs) (a : SandboxAttempt) : bool :=
  negb (sandbox_requested a) && should_sandbox os (attempt_permissions a) Auto (enforce_managed_network a).

(** [SandboxAttempt::network_proxy] *)
Definition attempt_network_proxy {Net} (a : SandboxAttempt) (own fallback : option Net) : option Net :=
  if enforce_managed_network a then match own with Some n => Some n | None => fallback end else None.

(** Derived equality of policies *)
Definition policy_eqb (a b : FileSystemSandboxPolicy) : bool :=
  match kind a, kind b with
  | Restricted, Restricted | Unrestricted, Unrestricted | ExternalSandbox, ExternalSandbox => true
  | _, _ => false
  end
  && bool_decide (glob_scan_max_depth a = glob_scan_max_depth b)
  && (length (entries a) =? length (entries b))
  && forallb (fun '(x, y) => entry_eqb x y) (zip (entries a) (entries b)).

End ToolSandbox.
