(* ===== verification/ToolApprovals.v ===== *)
(** * Asking for approval

    core/src/tools/approvals.rs with the approval store of tools/sandboxing.rs
    and command_canonicalization.rs: an action that needs consent goes to the
    permission hooks, then to the automatic reviewer, then to the user, whose
    answer for the whole session is remembered under the keys of the action. What
    the hooks, the reviewer and the user say, and what other tasks do to the
    shared store between two critical sections, is up to the environment of the
    program ([Interaction.v]); telemetry is left out. JSON values that only travel
    through are the type [Value]; [serde_json] and the fingerprint of a policy are
    parameters. *)

From S2P Require Import Prelude RustStr PathUri Permissions PermissionTransforms.
From stdpp Require Import pretty.
From S2P Require Import ShellSyntax PowerShell CommandSafety ExecApproval Interaction ToolSandbox.

(** ** Decisions *)

Inductive NetworkPolicyRuleAction := NetworkAllow | NetworkDeny.
Record NetworkPolicyAmendment := mkAmendment { amendment_host : str; amendment_action : NetworkPolicyRuleAction }.

Inductive ReviewDecision :=
| Approved
| ApprovedExecpolicyAmendment (proposed : ExecPolicyAmendment)
| ApprovedForSession
| ApprovedMcpPolicyAmendment
| NetworkAmendment (amendment : NetworkPolicyAmendment)
| Denied (rejection : str)
| TimedOut
| Abort.
#[export] Instance NetworkPolicyRuleAction_eq_dec : EqDecision NetworkPolicyRuleAction.
Proof. solve_decision. Defined.
#[export] Instance NetworkPolicyAmendment_eq_dec : EqDecision NetworkPolicyAmendment.
Proof. solve_decision. Defined.
#[export] Instance ReviewDecision_eq_dec : EqDecision ReviewDecision.
Proof. solve_decision. Defined.

Inductive ApprovalsReviewer := ReviewerUser | ReviewerAuto.
Inductive PermissionRequestDecision := HookAllow | HookDeny (message : str).

Inductive NetworkApprovalProtocol := NetHttp | NetHttps | NetSocks5Tcp | NetSocks5Udp.
Record NetworkApprovalContext := mkNetworkContext { context_host : str; context_protocol : NetworkApprovalProtocol }.

Section Approvals.
Context {UL : UrlLib} {GL : GlobLib} {SG : ShellGrammar} {SQ : ShellQuoting}.
Context {Value Output Out : Type}.

Inductive FileChange :=
| FileAdd (content : str)
| FileDelete (content : str)
| FileUpdate (unified_diff : str) (move_path : option str).

(** [NetworkPolicyDecisionPayload]; [is_ask_from_decider] is in protocol. *)
Record NetworkPolicyDecisionPayload := mkPayload {
  is_ask_from_decider : bool;
  payload_protocol : option NetworkApprovalProtocol;
  payload_host : option str;
}.

(** [CodexErr] as far as it is taken apart *)
Inductive CodexErr :=
| TurnAborted
| SandboxDenied (output : Output) (network_policy_decision : option NetworkPolicyDecisionPayload)
| SandboxTimeout (output : Output)
| SandboxSignal (signal : Z)
| OtherError (message : str).
Inductive ToolError := Rejected (reason : str) | Codex (e : CodexErr).

(** ** Actions *)

Record HookToolName := mkHookToolName { hook_name : str; matcher_aliases : list str }.
Definition new_hook_name (name : str) : HookToolName := mkHookToolName name [].
Definition hook_apply_patch : HookToolName := mkHookToolName (lit "apply_patch") [lit "Write"; lit "Edit"].
Definition hook_bash : HookToolName := new_hook_name (lit "Bash").

Inductive ApprovalAction :=
| ExecCommand (id environment_id : str) (command : list str) (hook_command : str) (cwd : Url)
    (sandbox_permissions : SandboxPermissions) (additional_permissions : option AdditionalPermissionProfile)
    (justification : option str) (tty : bool) (proposed_execpolicy_amendment : option ExecPolicyAmendment)
| WriteStdin (id approval_id environment_id : str) (process_id : Z) (input : str) (cwd : Url) (tty : bool)
    (sandbox_permissions : SandboxPermissions) (additional_permissions : option AdditionalPermissionProfile)
| Execve (id approval_id environment_id program : str) (argv command : list str) (cwd : Url)
    (additional_permissions : option AdditionalPermissionProfile)
| ApplyPatch (id environment_id : str) (cwd : Url) (files : list Url) (patch : str) (changes : list (str * FileChange))
    (permissions_preapproved : bool)
| McpToolCall (id : str) (arguments : option Value) (hook_tool_name : HookToolName) (approval_policy : AskForApproval)
    (reviewer : ApprovalsReviewer)
| NetworkAccess (id environment_id target host : str) (protocol : NetworkApprovalProtocol) (hook_command hook_run_id : str)
    (command : list str) (cwd : Url)
| RequestPermissions (id environment_id : str) (reason : option str) (permissions : AdditionalPermissionProfile).

(** The JSON objects handed to the hooks, by their shape *)
Inductive ToolInput :=
| CommandInput (command : str) (description : option str)
| StdinInput (process_id : Z) (input id approval_id environment_id : str) (cwd : Url) (tty : bool)
    (sandbox_permissions : SandboxPermissions) (additional_permissions : option AdditionalPermissionProfile)
| McpInput (arguments : option Value)
| PermissionsInput (reason : option str) (permissions : AdditionalPermissionProfile).
Record PermissionRequestPayload := mkRequestPayload { payload_tool_name : HookToolName; tool_input : ToolInput }.

Definition bash_payload (command : str) (description : option str) : PermissionRequestPayload :=
  mkRequestPayload hook_bash (CommandInput command description).

Definition permission_request_payload (action : ApprovalAction) : PermissionRequestPayload :=
  match action with
  | ExecCommand _ _ _ hook_command _ _ _ justification _ _ => bash_payload hook_command justification
  | WriteStdin id approval_id environment_id process_id input cwd tty permissions additional =>
      mkRequestPayload (new_hook_name (lit "write_stdin"))
        (StdinInput process_id input id approval_id environment_id cwd tty permissions additional)
  | Execve _ _ _ _ _ command _ _ => bash_payload (render_shlex_command command) None
  | ApplyPatch _ _ _ _ patch _ _ => mkRequestPayload hook_apply_patch (CommandInput patch None)
  | McpToolCall _ arguments name _ _ => mkRequestPayload name (McpInput arguments)
  | NetworkAccess _ _ target _ _ hook_command _ _ _ => bash_payload hook_command (Some (lit "network-access " ++ target))
  | RequestPermissions _ _ reason permissions =>
      mkRequestPayload (new_hook_name (lit "request_permissions")) (PermissionsInput reason permissions)
  end.

(** ** Keys of the store *)

Definition CANONICAL_BASH_SCRIPT_PREFIX : str := lit "__codex_shell_script__".
Definition CANONICAL_POWERSHELL_SCRIPT_PREFIX : str := lit "__codex_powershell_script__".

Definition canonicalize_command_for_approval (command : list str) : list str :=
  match parse_shell_lc_plain_commands command with
  | Some [single_command] => single_command
  | _ =>
      match extract_bash_command command with
      | Some (_, script) => [CANONICAL_BASH_SCRIPT_PREFIX; default [] (command !! 1); script]
      | None =>
          match extract_powershell_command command with
          | Some (_, script) => [CANONICAL_POWERSHELL_SCRIPT_PREFIX; script]
          | None => command
          end
      end
  end.

Record UnifiedExecApprovalKey := mkExecKey {
  key_environment_id : str;
  key_executable : option str;
  key_command : list str;
  key_cwd : Url;
  key_tty : bool;
  key_sandbox_permissions : SandboxPermissions;
  key_additional_permissions : option AdditionalPermissionProfile;
}.
Record ApplyPatchApprovalKey := mkPatchKey { patch_environment_id : str; patch_path : Url }.
Inductive ApprovalCacheKey := ExecKey (k : UnifiedExecApprovalKey) | PatchKey (k : ApplyPatchApprovalKey).

Definition cache_keys (action : ApprovalAction) : list ApprovalCacheKey :=
  match action with
  | ExecCommand _ environment_id command _ cwd permissions additional _ tty _ =>
      [ExecKey (mkExecKey environment_id (head command) (canonicalize_command_for_approval command) cwd tty permissions additional)]
  | ApplyPatch _ environment_id _ files _ _ _ => (fun p => PatchKey (mkPatchKey environment_id p)) <$> files
  | Execve _ _ _ _ _ _ _ _ | McpToolCall _ _ _ _ _ | NetworkAccess _ _ _ _ _ _ _ _ _ | RequestPermissions _ _ _ _
  | WriteStdin _ _ _ _ _ _ _ _ _ => []
  end.

(** A command's key goes with the fingerprint of the environment's own policy. *)
Inductive StoreKey :=
| CommandStoreKey (k : ApprovalCacheKey) (policy_fingerprint : option str)
| PatchStoreKey (k : ApprovalCacheKey).

(** [serde_json::to_string] on keys *)
Class KeyJson := { key_json : StoreKey -> option str }.
Context {KJ : KeyJson}.

(** ** The store *)

Definition ApprovalStore : Type := gmap str ReviewDecision.

Definition store_get (store : ApprovalStore) (key : StoreKey) : option ReviewDecision :=
  s ← key_json key; store !! s.
Definition store_put (store : ApprovalStore) (key : StoreKey) (value : ReviewDecision) : ApprovalStore :=
  match key_json key with Some s => <[s := value]> store | None => store end.

(** ** Calls *)

Inductive ExecApprovalKind := CommandKind | WriteStdinKind.

(** The arguments of [request_command_approval], [request_patch_approval] and
    [request_mcp_tool_user_approval] *)
Inductive UserQuestion :=
| CommandQuestion (kind : ExecApprovalKind) (call_id : str) (approval_id : option str) (environment_id : str) (command : list str)
    (cwd : Url) (reason : option str) (network_approval_context : option NetworkApprovalContext)
    (proposed_execpolicy_amendment : option ExecPolicyAmendment) (additional_permissions : option AdditionalPermissionProfile)
    (available_decisions : option (list ReviewDecision))
| PatchQuestion (call_id : str) (changes : list (str * FileChange)) (reason : option str)
| McpQuestion (call_id : str) (action : ApprovalAction).

Record ApprovalContext := mkApprovalContext {
  (** the policy of the turn, and those the review starts from *)
  turn_approval_policy : AskForApproval;
  review_approval_policy : AskForApproval;
  review_approvals_reviewer : ApprovalsReviewer;
  call_id : str;
  has_cancellation_token : bool;
  strict_auto_review : bool;
  approval_reason : option str;
  retry_reason : option str;
  network_approval_context : option NetworkApprovalContext;
  (** of the environments of the turn, by their identifier: the fingerprint of
      the policy and the operating system *)
  environment_fingerprint : str -> option str;
  environment_platform : str -> option str;
  (** [timeout_instructions] of the model's messages *)
  timeout_instructions : str;
}.

(** The arguments of [decide_approval] *)
Record GuardianArgs := mkGuardianArgs {
  guardian_action : ApprovalAction;
  guardian_cwd_convention : option PathConvention;
  guardian_approval_policy : AskForApproval;
  guardian_reviewer : ApprovalsReviewer;
  guardian_reasons : option str * option str;
  require_guardian : bool;
}.

Record NetworkApprovalSpec := mkSpec {
  spec_has_network : bool;
  spec_command : str;
  spec_environment_id : str;
  spec_additional_permissions : option AdditionalPermissionProfile;
  spec_permission_profile : PermissionProfile;
  spec_network_policy : option EnvironmentNetworkPolicy;
}.

(** [platform_os] and [linux_approved_root_write_preserves_restrictions] *)
Record EnvironmentInfo := mkInfo { platform_os : option str; root_write_preserves_restrictions : bool }.

(** Why a network proxy for an execution is not set up *)
Inductive NetworkSetupError := SetupRejected (reason : str) | SetupIo (message : str).
Definition setup_error (e : NetworkSetupError) : ToolError :=
  match e with SetupRejected reason => Rejected reason | SetupIo message => Codex (OtherError message) end.

(** Everything the code waits for. A spawned review may fail to complete; the
    store is read under its lock, here with the keys that are looked up. *)
Inductive ToolCall :=
| RunHooks (run_id : str) (payload : PermissionRequestPayload)
| DecideApproval (args : GuardianArgs)
| SpawnApproval (args : GuardianArgs)
| AskUser (q : UserQuestion)
| ReadApprovals (keys : list StoreKey)
| PutApprovals (keys : list StoreKey)
| GetEnvironmentInfo
| BeginNetwork (spec : NetworkApprovalSpec)
| FinishNetwork (deferred : DeferredNetworkApproval)
| RunTool (attempt : SandboxAttempt).

Definition tool_answer (c : ToolCall) : Type :=
  match c with
  | RunHooks _ _ => option PermissionRequestDecision
  | DecideApproval _ => option ReviewDecision
  | SpawnApproval _ => result unit (option ReviewDecision)
  | AskUser _ => ReviewDecision
  | ReadApprovals _ => ApprovalStore
  | PutApprovals _ => unit
  | GetEnvironmentInfo => result str EnvironmentInfo
  | BeginNetwork _ => result NetworkSetupError (option ActiveNetworkApproval)
  | FinishNetwork _ => option str
  | RunTool _ => result ToolError Out
  end.
Abbreviation tool_prog := (prog tool_answer).

(** ** The store in use *)

Definition approved_for_session (store : ApprovalStore) (key : StoreKey) : bool :=
  bool_decide (store_get store key = Some ApprovedForSession).

Definition with_cached_approval (keys : list StoreKey) (fetch : tool_prog ReviewDecision) : tool_prog ReviewDecision :=
  if is_empty keys then fetch
  else
    store ← perform (ReadApprovals keys);
    if forallb (approved_for_session store) keys then Done ApprovedForSession
    else
      decision ← fetch;
      if bool_decide (decision = ApprovedForSession)
      then _ ← perform (PutApprovals keys); Done decision
      else Done decision.

(** ** Resolutions *)

Inductive ApprovalResolutionSource := SourceHook | SourceGuardian | SourceUser.
Record ApprovalResolution := mkResolution { resolution_decision : ReviewDecision; resolution_source : ApprovalResolutionSource }.

Definition into_tool_result (timeout_instructions : str) (self : ApprovalResolution) : result ToolError ReviewDecision :=
  match resolution_decision self with
  | ApprovedMcpPolicyAmendment => Err (Rejected (lit "Error while requesting approval"))
  | NetworkAmendment amendment =>
      match amendment_action amendment with
      | NetworkDeny =>
          Err (Rejected match resolution_source self with
                        | SourceHook => lit "rejected by configuration"
                        | SourceGuardian => lit "automatic approval review denied the action"
                        | SourceUser => lit "rejected by user"
                        end)
      | NetworkAllow => Ok (NetworkAmendment amendment)
      end
  | Denied rejection => Err (Rejected rejection)
  | TimedOut => Err (Rejected timeout_instructions)
  | Abort => Err (Codex TurnAborted)
  | decision => Ok decision
  end.

(** ** The reviewers *)

Definition NOT_COMPLETED : ReviewDecision := Denied (lit "automatic approval review could not complete").

Definition cwd_convention (ctx : ApprovalContext) (native : PathConvention) (action : ApprovalAction) : option PathConvention :=
  match action with
  | ExecCommand _ environment_id _ _ cwd _ _ _ _ _ =>
      Some match environment_platform ctx environment_id with
           | Some os => if str_eqb os (lit "windows") then Windows else Posix
           | None => default native (infer_path_convention cwd)
           end
  | _ => None
  end.

Definition is_network_access (action : ApprovalAction) : bool :=
  match action with NetworkAccess _ _ _ _ _ _ _ _ _ => true | _ => false end.
Definition is_mcp_tool_call (action : ApprovalAction) : bool :=
  match action with McpToolCall _ _ _ _ _ => true | _ => false end.

Definition request_guardian_approval (native : PathConvention) (action : ApprovalAction) (ctx : ApprovalContext)
    : tool_prog (option ReviewDecision) :=
  let '(policy, reviewer) :=
    match action with
    | McpToolCall _ _ _ policy reviewer => (policy, reviewer)
    | _ => (review_approval_policy ctx, review_approvals_reviewer ctx)
    end in
  let args :=
    mkGuardianArgs action (cwd_convention ctx native action) policy reviewer (approval_reason ctx, retry_reason ctx)
      (strict_auto_review ctx) in
  if has_cancellation_token ctx || is_network_access action then
    review ← perform (SpawnApproval args);
    Done match review with Ok decision => decision | Err _ => Some NOT_COMPLETED end
  else perform (DecideApproval args).

(** [or_else] *)
Definition or_else {A} (a b : option A) : option A := match a with Some x => Some x | None => b end.

Definition ask (q : UserQuestion) : tool_prog (outcome ToolError ReviewDecision) :=
  decision ← perform (AskUser q); Done (Return decision).
Definition cached (keys : list StoreKey) (q : UserQuestion) : tool_prog (outcome ToolError ReviewDecision) :=
  decision ← with_cached_approval keys (perform (AskUser q)); Done (Return decision).

Definition request_user_approval (action : ApprovalAction) (ctx : ApprovalContext) : tool_prog (outcome ToolError ReviewDecision) :=
  match action with
  | ExecCommand _ environment_id command _ cwd _ additional justification _ proposed =>
      let reason := or_else (retry_reason ctx) (or_else (approval_reason ctx) justification) in
      let fingerprint := environment_fingerprint ctx environment_id in
      cached ((fun key => CommandStoreKey key fingerprint) <$> cache_keys action)
        (CommandQuestion CommandKind (call_id ctx) None environment_id command cwd reason
           (network_approval_context ctx) proposed additional None)
  | WriteStdin id approval_id environment_id process_id input cwd _ _ additional =>
      ask (CommandQuestion WriteStdinKind id (Some approval_id) environment_id
             [lit "write_stdin"; lit "--session-id"; lit (pretty process_id); input] cwd (approval_reason ctx) None None additional
             (Some [Approved; Abort]))
  | Execve _ approval_id environment_id _ _ command cwd additional =>
      ask (CommandQuestion CommandKind (call_id ctx) (Some approval_id) environment_id command cwd None None None additional
             (Some [Approved; Abort]))
  | ApplyPatch _ _ _ _ _ changes permissions_preapproved =>
      let reason := or_else (retry_reason ctx) (approval_reason ctx) in
      match reason with
      | None =>
          if permissions_preapproved then Done (Return Approved)
          else cached (PatchStoreKey <$> cache_keys action) (PatchQuestion (call_id ctx) changes None)
      | Some _ => ask (PatchQuestion (call_id ctx) changes reason)
      end
  | McpToolCall _ _ _ _ _ => ask (McpQuestion (call_id ctx) action)
  | NetworkAccess _ environment_id _ _ _ _ _ command cwd =>
      ask (CommandQuestion CommandKind (call_id ctx) None environment_id command cwd (approval_reason ctx)
             (network_approval_context ctx) None None None)
  | RequestPermissions _ _ _ _ => Done Panic
  end.

Definition request_reviewer_approval (native : PathConvention) (action : ApprovalAction) (ctx : ApprovalContext)
    : tool_prog (outcome ToolError ApprovalResolution) :=
  review ← request_guardian_approval native action ctx;
  match review with
  | Some decision => Done (Return (mkResolution decision SourceGuardian))
  | None => decision ←? request_user_approval action ctx; Done (Return (mkResolution decision SourceUser))
  end.

(** ** Requests *)

Definition permission_request_run_id (action : ApprovalAction) (ctx : ApprovalContext) : str :=
  match action with
  | Execve _ approval_id _ _ _ _ _ _ => approval_id
  | NetworkAccess _ _ _ _ _ _ hook_run_id _ _ => hook_run_id
  | _ => match retry_reason ctx with Some _ => call_id ctx ++ lit ":retry" | None => call_id ctx end
  end.

(** Input to a running process that exceeds its permissions *)
Definition stdin_rejection (action : ApprovalAction) (ctx : ApprovalContext) : option str :=
  match action with
  | WriteStdin _ _ _ _ _ _ _ permissions _ =>
      if requests_sandbox_override permissions
         && negb (strict_auto_review ctx && bool_decide (turn_approval_policy ctx = Never))
      then prompt_is_rejected_by_policy (turn_approval_policy ctx) false
      else None
  | _ => None
  end.

(** The decisions that bypass [into_tool_result] *)
Definition resolve (action : ApprovalAction) (ctx : ApprovalContext) (resolution : ApprovalResolution) : result ToolError ReviewDecision :=
  if is_mcp_tool_call action && bool_decide (resolution_decision resolution = ApprovedMcpPolicyAmendment)
  then Ok (resolution_decision resolution)
  else
    match is_network_access action, resolution_decision resolution, resolution_source resolution with
    | true, NetworkAmendment (mkAmendment host NetworkDeny), _ => Ok (NetworkAmendment (mkAmendment host NetworkDeny))
    | true, Abort, SourceGuardian => Err (Rejected (lit "automatic approval review was cancelled"))
    | _, _, _ => into_tool_result (timeout_instructions ctx) resolution
    end.

Definition request_approval (native : PathConvention) (action : ApprovalAction) (ctx : ApprovalContext)
    : tool_prog (outcome ToolError ReviewDecision) :=
  match stdin_rejection action ctx with
  | Some reason => Done (Throw (Rejected reason))
  | None =>
      hooks ← perform (RunHooks (permission_request_run_id action ctx) (permission_request_payload action));
      resolution ←? match hooks with
                    | Some HookAllow => Done (Return (mkResolution Approved SourceHook))
                    | Some (HookDeny message) => Done (Return (mkResolution (Denied message) SourceHook))
                    | None => request_reviewer_approval native action ctx
                    end;
      Done (lift_result (resolve action ctx resolution))
  end.

End Approvals.
