(* ===== verification/Orchestrator.v ===== *)
(** * Running a tool: approval, sandbox, retry

    core/src/tools/orchestrator.rs: for every tool call the orchestrator settles
    the approval, selects the sandbox of the first attempt, runs it, and where the
    sandbox denied it may ask again and retry. The tool is the class
    [ToolRuntime], with the command and the patch runtime as instances
    (core/src/tools/runtimes/); running it, asking and the network registration
    are calls ([ToolApprovals.v]). *)

From S2P Require Import Prelude RustStr PathUri Permissions PermissionTransforms.
From S2P Require Import ShellSyntax ExecApproval Interaction ExecutorPolicy ToolSandbox ToolApprovals.

Section Orchestrator.
Context {UL : UrlLib} {GL : GlobLib} {SG : ShellGrammar} {SQ : ShellQuoting} {Value Output Out : Type}.
Abbreviation ApprovalAction := (ApprovalAction (Value := Value)).
Abbreviation ToolError := (ToolError (Output := Output)).
Abbreviation tool_prog := (prog (tool_answer (Value := Value) (Output := Output) (Out := Out))).

(** ** Tools *)

Definition default_should_bypass_approval (policy : AskForApproval) (already_approved : bool) : bool :=
  if already_approved then true else bool_decide (policy = Never).

Definition default_wants_no_sandbox_approval (policy : AskForApproval) : bool :=
  match policy with
  | UnlessTrusted => true
  | Never => false
  | OnRequest => false
  | Granular config => sandbox_approval config
  end.

(** The traits [Approvable], [Sandboxable] and [ToolRuntime] *)
Class ToolRuntime (Req : Type) := {
  turn_environment : Req -> TurnEnvironment;
  tool_sandbox_permissions : Req -> SandboxPermissions;
  should_bypass_approval : AskForApproval -> bool -> bool;
  tool_exec_approval_requirement : Req -> option ExecApprovalRequirement;
  wants_no_sandbox_approval : AskForApproval -> bool;
  approval_action : Req -> str -> result str ApprovalAction;
  sandbox_preference : SandboxablePreference;
  escalate_on_failure : bool;
  uses_executor_managed_process_sandbox : Req -> bool;
  network_approval_spec : Req -> option NetworkApprovalSpec;
  tool_sandbox_cwd : Req -> option Url;
}.

(** What the orchestrator reads of the turn, the step and the configuration *)
Record TurnSettings := mkSettings {
  step_approval_policy : AskForApproval;
  turn_policy : AskForApproval;
  step_reviewer : ApprovalsReviewer;
  turn_strict_auto_review : bool;
  tool_call_id : str;
  (** [config.permissions.network], by whether it is enabled, and [turn.network] *)
  controller_network : option bool;
  turn_network : bool;
  codex_self_exe : option str;
  codex_linux_sandbox_exe : option str;
  policy_fingerprints : str -> option str;
  executor_platforms : str -> option str;
  settings_timeout_instructions : str;
}.

Record OrchestratorRunResult := mkRunResult { run_output : Out; deferred_network_approval : option DeferredNetworkApproval }.

Definition approval_context (settings : TurnSettings) (approval retry : option str) (network : option NetworkApprovalContext)
    : ApprovalContext :=
  mkApprovalContext (turn_policy settings) (step_approval_policy settings) (step_reviewer settings) (tool_call_id settings) true
    (turn_strict_auto_review settings) approval retry network (policy_fingerprints settings) (executor_platforms settings)
    (settings_timeout_instructions settings).

(** ** One attempt *)

(** The registration of a network proxy; a rejection it ends with is truncated by
    [truncate_rejection_message] before it is handed back. *)

Definition begin_network_approval (managed_network_active : bool) (spec : option NetworkApprovalSpec)
    : tool_prog (result ToolError (option ActiveNetworkApproval)) :=
  match spec with
  | None => Done (Ok None)
  | Some spec =>
      if negb managed_network_active then Done (Ok None)
      else begun ← perform (BeginNetwork spec); Done (map_err setup_error begun)
  end.

Definition finish_deferred_network_approval (deferred : option DeferredNetworkApproval) : tool_prog (result ToolError unit) :=
  match deferred with
  | None => Done (Ok tt)
  | Some d =>
      rejection ← perform (FinishNetwork d);
      Done match rejection with Some reason => Err (Rejected reason) | None => Ok tt end
  end.

Definition with_network_approval (a : SandboxAttempt) (approval : option ActiveNetworkApproval) : SandboxAttempt :=
  mkAttempt (attempt_sandbox a) (sandbox_requested a) (attempt_permissions a) (exec_server_permissions a)
    (enforce_managed_network a) (attempt_sandbox_cwd a) (attempt_workspace_roots a) (sandbox_exe a)
    (attempt_use_legacy_landlock a) (attempt_windows_sandbox_type a) (attempt_windows_sandbox_level a) approval.

Definition run_attempt (attempt : SandboxAttempt) (spec : option NetworkApprovalSpec)
    : tool_prog (result ToolError Out * option DeferredNetworkApproval) :=
  begun ← begin_network_approval (enforce_managed_network attempt) spec;
  match begun with
  | Err e => Done (Err e, None)
  | Ok network_approval =>
      run_result ← perform (RunTool (with_network_approval attempt network_approval));
      match network_approval with
      | None => Done (run_result, None)
      | Some active =>
          let deferred := into_deferred active in
          match run_result with
          | Err e =>
              finalized ← finish_deferred_network_approval deferred;
              match finalized with
              | Err err => Done (Err err, None)
              | Ok _ => Done (Err e, None)
              end
          | Ok _ => Done (run_result, deferred)
          end
      end
  end.

(** ** The approved command with denied reads *)

(** [escalated_profile] and [writable_root_metadata] *)
Definition escalation (env : TurnEnvironment) (override : SandboxOverride) : option PermissionProfile * bool :=
  match override with
  | EscalatedSandboxWithRestrictions =>
      let ctx := policy_context env in
      let profile := env_permission_profile env in
      let baseline := file_system_sandbox_policy profile in
      let fs := for_approved_command baseline ctx in
      let writable_root_metadata :=
        match file_system_root ctx with
        | Some root =>
            can_write_path fs root ctx
            && existsb (fun name =>
                 match join_descendant_ok root name with Some path => can_write_path fs path ctx | None => false end)
                 PROTECTED_METADATA_PATH_NAMES
        | None => false
        end in
      let escalated_profile :=
        if negb (policy_eqb fs baseline)
           && negb (policy_eqb fs (materialize_project_roots_with_path_uris baseline (env_workspace_roots env)))
        then Some (from_runtime_permissions_with_enforcement (enforcement profile) fs (network_sandbox_policy profile))
        else None in
      (escalated_profile, writable_root_metadata)
  | _ => (None, false)
  end.

Definition UPGRADE_EXEC_SERVER : str :=
  lit "this exec-server cannot safely escalate with denied reads; upgrade the exec-server and retry".

Definition check_remote_escalation (env : TurnEnvironment) (escalated : option PermissionProfile * bool)
    : tool_prog (outcome ToolError unit) :=
  if (bool_decide (is_Some escalated.1) || escalated.2) && is_remote env then
    info ← perform GetEnvironmentInfo;
    match info with
    | Err e =>
        Done (Throw (Rejected (lit "could not verify exec-server support for escalation with denied reads: " ++ e)))
    | Ok info =>
        if negb (match platform_os info with
                 | Some os => str_eqb os (lit "windows") || str_eqb os (lit "macos")
                 | None => false
                 end)
           && negb (root_write_preserves_restrictions info)
        then Done (Throw (Rejected UPGRADE_EXEC_SERVER))
        else Done (Return tt)
    end
  else Done (Return tt).

(** ** The network *)

(** [network_approval_context_from_payload] *)
Definition network_approval_context_from_payload (payload : NetworkPolicyDecisionPayload) : option NetworkApprovalContext :=
  if negb (is_ask_from_decider payload) then None
  else
    protocol ← payload_protocol payload;
    host ← payload_host payload;
    if is_empty (trim host) then None else Some (mkNetworkContext (trim host) protocol).

Section Run.
Context {KJ : KeyJson} (os : TargetOs) {Req : Type} {tool : ToolRuntime Req}.

Definition managed_network_active (settings : TurnSettings) (req : Req) (spec : option NetworkApprovalSpec) : bool :=
  let env := turn_environment req in
  match network_policy env with
  | Some policy =>
      default false (controller_network settings)
      || requires_proxy policy
      || (bool_decide (is_Some spec) || requires_escalated_permissions (tool_sandbox_permissions req))
         && is_enabled (effective_network_sandbox_policy (network_sandbox_policy (env_permission_profile env))
                          (spec ≫= spec_additional_permissions))
  | None => turn_network settings
  end.

(** ** Approval *)

Definition COULD_NOT_PREPARE : str := lit "could not prepare approval action: ".

Definition ask_approval (settings : TurnSettings) (req : Req) (ctx : ApprovalContext) : tool_prog (outcome ToolError ReviewDecision) :=
  match approval_action req (tool_call_id settings) with
  | Err e => Done (Throw (Rejected (COULD_NOT_PREPARE ++ e)))
  | Ok action => request_approval (native_convention os) action ctx
  end.

(** Step 1; the result is [already_approved]. *)
Definition settle_approval (settings : TurnSettings) (req : Req) (requirement : ExecApprovalRequirement)
    : tool_prog (outcome ToolError bool) :=
  match requirement with
  | ExecApproval.Skip _ _ =>
      if turn_strict_auto_review settings
      then _ ←? ask_approval settings req (approval_context settings None None None); Done (Return true)
      else Done (Return false)
  | ForbiddenCommand reason => Done (Throw (Rejected reason))
  | NeedsApproval reason _ =>
      _ ←? ask_approval settings req (approval_context settings reason None None); Done (Return true)
  end.

(** ** Attempts *)

(** What both attempts share *)
Record AttemptPlan := mkPlan {
  plan_permissions : PermissionProfile;
  plan_exec_server_permissions : PermissionProfile;
  plan_managed_network : bool;
}.

Definition attempt_of (settings : TurnSettings) (req : Req) (plan : AttemptPlan) (sandbox : SandboxType) (requested : bool)
    (exe : option str) : SandboxAttempt :=
  let env := turn_environment req in
  mkAttempt sandbox requested (plan_permissions plan) (plan_exec_server_permissions plan) (plan_managed_network plan)
    (default (env_cwd env) (tool_sandbox_cwd req)) (env_workspace_roots env) exe (use_legacy_landlock env)
    (effective_windows_sandbox_type (windows_sandbox_type env) (env_windows_sandbox_level env))
    (env_windows_sandbox_level env) None.

Definition requested_sandbox (req : Req) (plan : AttemptPlan) (requested : bool) : SandboxType :=
  let env := turn_environment req in
  if requested && negb (uses_executor_managed_process_sandbox req)
  then select_initial os (plan_permissions plan) sandbox_preference
         (effective_windows_sandbox_type (windows_sandbox_type env) (env_windows_sandbox_level env))
         (plan_managed_network plan)
  else SandboxNone.

Definition codex_sandbox_exe (settings : TurnSettings) : option str :=
  if bool_decide (os = WindowsOs) then codex_self_exe settings else codex_linux_sandbox_exe settings.

Definition plan_requests_sandbox (plan : AttemptPlan) : bool :=
  should_sandbox os (plan_permissions plan) sandbox_preference (plan_managed_network plan).

Definition first_requested (override : SandboxOverride) (plan : AttemptPlan) : bool :=
  match override with
  | BypassSandboxFirstAttempt => false
  | NoOverride | EscalatedSandboxWithRestrictions => plan_requests_sandbox plan
  end.

Definition make_plan (settings : TurnSettings) (req : Req) (permissions : PermissionProfile)
    (escalated_profile : option PermissionProfile) : AttemptPlan :=
  let env := turn_environment req in
  let local profile :=
    if uses_executor_managed_process_sandbox req then profile
    else profile_materialize_project_roots profile (env_workspace_roots env) in
  mkPlan (default permissions (local <$> escalated_profile)) (default (env_permission_profile env) escalated_profile)
    (managed_network_active settings req (network_approval_spec req)).

(** ** The retry *)

Definition RETRY_WITHOUT_SANDBOX : str := lit "command failed; retry without sandbox?".
Definition blocked_host_reason (host : str) : str :=
  lit "Network access to " ++ [34%N] ++ host ++ [34%N] ++ lit " is blocked by policy.".

Definition network_context (plan : AttemptPlan) (decision : option NetworkPolicyDecisionPayload) : option NetworkApprovalContext :=
  if plan_managed_network plan then decision ≫= network_approval_context_from_payload else None.

(** Whether a denial of the sandbox is followed by another attempt *)
Definition may_retry (settings : TurnSettings) (fs : FileSystemSandboxPolicy) (decision : option NetworkPolicyDecisionPayload)
    (network : option NetworkApprovalContext) : bool :=
  negb (bool_decide (is_Some decision) && negb (bool_decide (is_Some network)))
  && escalate_on_failure
  && (wants_no_sandbox_approval (step_approval_policy settings)
      || bool_decide (step_approval_policy settings = OnRequest)
         && bool_decide (is_Some network)
         && match default_exec_approval_requirement (step_approval_policy settings) fs with
            | NeedsApproval _ _ => true
            | _ => false
            end)
  && (unsandboxed_execution_allowed os fs || bool_decide (is_Some network)).

Definition finish_run (r : result ToolError Out * option DeferredNetworkApproval) : outcome ToolError OrchestratorRunResult :=
  match r.1 with Ok out => Return (mkRunResult out r.2) | Err e => Throw e end.

Definition retry_run (settings : TurnSettings) (req : Req) (requirement : ExecApprovalRequirement) (fs : FileSystemSandboxPolicy)
    (plan : AttemptPlan) (already_approved : bool) (network : option NetworkApprovalContext)
    : tool_prog (outcome ToolError OrchestratorRunResult) :=
  let retry_reason :=
    match network with Some n => blocked_host_reason (context_host n) | None => RETRY_WITHOUT_SANDBOX end in
  let bypass_retry_approval :=
    negb (turn_strict_auto_review settings) && should_bypass_approval (step_approval_policy settings) already_approved
    && negb (bool_decide (is_Some network)) in
  let approval_reason := match requirement with NeedsApproval reason _ => reason | _ => None end in
  _ ←? (if bypass_retry_approval then Done (Return Approved)
        else ask_approval settings req (approval_context settings approval_reason (Some retry_reason) network));
  let unsandboxed_allowed := unsandboxed_execution_allowed os fs in
  let requested := negb unsandboxed_allowed && plan_requests_sandbox plan in
  let exe := if unsandboxed_allowed then None else codex_sandbox_exe settings in
  retried ← run_attempt (attempt_of settings req plan (requested_sandbox req plan requested) requested exe)
              (network_approval_spec req);
  Done (finish_run retried).

(** ** The whole run *)

Definition base_permissions (req : Req) : PermissionProfile :=
  let env := turn_environment req in
  if uses_executor_managed_process_sandbox req then env_permission_profile env else permission_profile_with_workspace_roots env.

Definition requirement_of (settings : TurnSettings) (req : Req) : ExecApprovalRequirement :=
  default (default_exec_approval_requirement (step_approval_policy settings) (file_system_sandbox_policy (base_permissions req)))
    (tool_exec_approval_requirement req).

Definition run (settings : TurnSettings) (req : Req) : tool_prog (outcome ToolError OrchestratorRunResult) :=
  let env := turn_environment req in
  let permissions := base_permissions req in
  let fs := file_system_sandbox_policy permissions in
  let requirement := requirement_of settings req in
  already_approved ←? settle_approval settings req requirement;
  let override := sandbox_override_for_first_attempt os (tool_sandbox_permissions req) requirement fs already_approved in
  let escalated := escalation env override in
  _ ←? check_remote_escalation env escalated;
  let plan := make_plan settings req permissions escalated.1 in
  let requested := first_requested override plan in
  let sandbox := requested_sandbox req plan requested in
  match (if uses_executor_managed_process_sandbox req then Ok tt else ensure_native_sandbox override sandbox) with
  | Err reason => Done (Throw (Rejected reason))
  | Ok _ =>
      first ← run_attempt (attempt_of settings req plan sandbox requested (codex_sandbox_exe settings)) (network_approval_spec req);
      match first.1 with
      | Err (Codex (SandboxDenied output decision)) =>
          let network := network_context plan decision in
          if may_retry settings fs decision network
          then retry_run settings req requirement fs plan already_approved network
          else Done (Throw (Codex (SandboxDenied output decision)))
      | _ => Done (finish_run first)
      end
  end.

End Run.
End Orchestrator.
