(* ===== verification/ToolRuntimes.v ===== *)
(** * The command and the patch tool

    How a call of [exec_command] or [apply_patch] reaches the orchestrator:
    core/src/safety.rs (whether a patch may be applied without asking),
    core/src/apply_patch.rs, the permissions of a call in tools/handlers/mod.rs,
    tools/handlers/apply_patch.rs and unified_exec/exec_command.rs, and the tools
    themselves in tools/runtimes/. The matcher for local paths (which follows
    links), the conversions to the host's path type and the heuristics that
    recognize a denial in the output are parameters. *)

From S2P Require Import Prelude RustStr PathUri Permissions PermissionTransforms.
From S2P Require Import ShellSyntax ExecApproval Interaction ExecutorPolicy ToolSandbox ToolApprovals Orchestrator.

Section Runtimes.
Context {UL : UrlLib} {GL : GlobLib} {SG : ShellGrammar} {SQ : ShellQuoting} {Value Output Out IoError : Type}.

(** ** Patches *)

Inductive ApplyPatchFileChange :=
| AddChange (content : str)
| DeleteChange (content : str)
| UpdateChange (unified_diff : str) (move_path : option Url) (new_content : str).
(** The changes by path, in the order of the iteration *)
Record ApplyPatchAction := mkPatchAction { changes : list (Url * ApplyPatchFileChange); patch : str; patch_cwd : Url }.

Inductive SafetyCheck := AutoApprove | AskUserFirst | Reject (reason : str).
Inductive PatchSandboxRoute := ExecutorManaged | Platform (level : WindowsSandboxLevel).

Record PatchPolicyMatcher := mkMatcher {
  configured_policy : FileSystemSandboxPolicy;
  matcher_context : FileSystemSandboxPolicyContext;
  sandbox_route : PatchSandboxRoute;
  local_matching : option (Url -> result IoError bool);
}.

Definition prepare_matching (local : FileSystemSandboxPolicy -> FileSystemSandboxPolicyContext -> result IoError (Url -> result IoError bool))
    (route : PatchSandboxRoute) (policy : FileSystemSandboxPolicy) (ctx : FileSystemSandboxPolicyContext)
    : result IoError PatchPolicyMatcher :=
  match route with
  | Platform _ => matching ← local policy ctx; Ok (mkMatcher policy ctx route (Some matching))
  | ExecutorManaged => Ok (mkMatcher policy ctx route None)
  end.

Definition matcher_can_write_path (m : PatchPolicyMatcher) (p : Url) : result IoError bool :=
  match local_matching m with
  | Some matching => matching p
  | None => Ok (can_write_path (configured_policy m) p (matcher_context m))
  end.

(** The paths a change writes *)
Definition touched (c : Url * ApplyPatchFileChange) : list Url :=
  match c with
  | (p, AddChange _) | (p, DeleteChange _) => [p]
  | (p, UpdateChange _ move_path _) => p :: option_list move_path
  end.

(** The loop over the changes, each with one or two checks *)
Fixpoint all_writable (m : PatchPolicyMatcher) (paths : list Url) : result IoError bool :=
  match paths with
  | [] => Ok true
  | p :: paths => w ← matcher_can_write_path m p; if negb w then Ok false else all_writable m paths
  end.

Definition is_write_patch_constrained_to_writable_paths (action : ApplyPatchAction) (m : PatchPolicyMatcher) : result IoError bool :=
  if has_full_disk_write_access_with_context (configured_policy m) (matcher_context m) then Ok true
  else all_writable m (changes action ≫= touched).

Definition has_configured_writable_roots (self : FileSystemSandboxPolicy) (ctx : FileSystemSandboxPolicyContext) : bool :=
  negb (has_full_disk_write_access_with_context self ctx)
  && existsb (fun e => can_write e.2 && can_write_path self e.1 ctx) (resolved_entries self ctx).

Definition PATCH_REJECTED_OUTSIDE_PROJECT_REASON : str :=
  lit "writing outside of the project; rejected by user approval settings".
Definition PATCH_REJECTED_READ_ONLY_REASON : str :=
  lit "writing is blocked by read-only sandbox; rejected by user approval settings".

Definition patch_rejection_reason (profile : PermissionProfile) (fs : FileSystemSandboxPolicy) (ctx : FileSystemSandboxPolicyContext) : str :=
  match profile with
  | ProfileManaged _ _ =>
      if negb (has_full_disk_write_access_with_context fs ctx) && negb (has_configured_writable_roots fs ctx)
      then PATCH_REJECTED_READ_ONLY_REASON else PATCH_REJECTED_OUTSIDE_PROJECT_REASON
  | ProfileDisabled | ProfileExternal _ => PATCH_REJECTED_OUTSIDE_PROJECT_REASON
  end.

Definition rejects_sandbox_approval (policy : AskForApproval) : bool :=
  match policy with
  | Never => true
  | Granular config => negb (sandbox_approval config)
  | OnRequest | UnlessTrusted => false
  end.

Definition sandbox_available (os : TargetOs) (m : PatchPolicyMatcher) : bool :=
  match sandbox_route m with
  | ExecutorManaged => true
  | Platform level => bool_decide (is_Some (get_platform_sandbox os (bool_decide (level <> WindowsSandboxDisabled))))
  end.

Definition without_outer_sandbox (profile : PermissionProfile) : bool :=
  match profile with ProfileDisabled | ProfileExternal _ => true | ProfileManaged _ _ => false end.

Definition assess_patch_safety (os : TargetOs) (action : ApplyPatchAction) (policy : AskForApproval) (profile : PermissionProfile)
    (m : PatchPolicyMatcher) : result IoError SafetyCheck :=
  if is_empty (changes action) then Ok (Reject (lit "empty patch"))
  else
    match policy with
    | UnlessTrusted => Ok AskUserFirst
    | Never | OnRequest | Granular _ =>
        constrained ← is_write_patch_constrained_to_writable_paths action m;
        if constrained && (without_outer_sandbox profile || sandbox_available os m) then Ok AutoApprove
        else if rejects_sandbox_approval policy
        then Ok (Reject (patch_rejection_reason profile (configured_policy m) (matcher_context m)))
        else Ok AskUserFirst
    end.

(** [FunctionCallError::RespondToModel], by what it reports *)
Inductive CallError :=
| PatchCheckFailed (e : IoError)
| PatchRejected (reason : str)
| PreparePermissionsFailed (e : IoError)
| CannotAskForEscalation (policy : AskForApproval)
| JustificationWithoutPermissions.

(** [ApplyPatchRuntimeInvocation]: whether it was approved automatically, and the requirement *)
Definition prepare_apply_patch (os : TargetOs) (policy : AskForApproval) (profile : PermissionProfile) (m : PatchPolicyMatcher)
    (action : ApplyPatchAction) : result CallError (bool * ExecApprovalRequirement) :=
  check ← map_err PatchCheckFailed (assess_patch_safety os action policy profile m);
  match check with
  | AutoApprove => Ok (true, ExecApproval.Skip false None)
  | AskUserFirst => Ok (false, NeedsApproval None None)
  | Reject reason => Err (PatchRejected reason)
  end.

Definition convert_apply_patch_to_protocol (to_path_buf : Url -> str) (action : ApplyPatchAction) : list (str * FileChange) :=
  (fun '(p, change) =>
     (to_path_buf p,
      match change with
      | AddChange content => FileAdd content
      | DeleteChange content => FileDelete content
      | UpdateChange unified_diff move_path _ => FileUpdate unified_diff (to_path_buf <$> move_path)
      end)) <$> changes action.

Definition file_paths_for_action (action : ApplyPatchAction) : list Url := changes action ≫= touched.

(** ** Permissions for the targets of a patch *)

(** [sort_by_key(PathUri::to_string)], stable, and [dedup] by the equality of paths *)
Fixpoint insert_by_text (p : Url) (ps : list Url) : list Url :=
  match ps with
  | [] => [p]
  | q :: ps => match lex N.compare (as_str p) (as_str q) with Gt => q :: insert_by_text p ps | _ => p :: q :: ps end
  end.
Definition sort_by_text (ps : list Url) : list Url := foldr insert_by_text [] ps.
Fixpoint dedup_paths (ps : list Url) : list Url :=
  match ps with
  | p :: (q :: _) as ps' => if path_uri_eqb p q then p :: tail (dedup_paths ps') else p :: dedup_paths ps'
  | _ => ps
  end.

Definition write_target (host_parent : Url -> option Url) (m : PatchPolicyMatcher) (p : Url) : result IoError (option Url) :=
  writable ← matcher_can_write_path m p;
  if writable : bool then Ok None
  else
    let up :=
      match parent p with
      | Some q => q
      | None => match sandbox_route m with
                | Platform _ => default p (host_parent p)
                | ExecutorManaged => p
                end
      end in
    parent_writable ← matcher_can_write_path m up;
    Ok (if parent_writable : bool then None else Some up).

(** [from_read_write_path_uris(Some(vec![]), Some(paths))] *)
Definition write_profile (paths : list Url) : AdditionalPermissionProfile :=
  mkProfile None (Some (mkFs ((fun p => new_entry (Path p) Write) <$> paths) None)).

Definition write_permissions_for_paths (host_parent : Url -> option Url) (file_paths : list Url) (m : PatchPolicyMatcher)
    : result IoError (option AdditionalPermissionProfile) :=
  targets ← try_map (write_target host_parent m) file_paths;
  let write_paths := dedup_paths (sort_by_text (omap id targets)) in
  Ok (if is_empty write_paths then None
      else match sandbox_route m with
           | Platform _ => ok (normalize_additional_permissions (write_profile write_paths))
           | ExecutorManaged => ok (normalize_additional_permissions_with_context (write_profile write_paths) (matcher_context m))
           end).

(** ** Permissions of a call *)

Definition resolve_sandbox_permissions (permissions : option SandboxPermissions) (justification : option str)
    : result CallError SandboxPermissions :=
  match justification, permissions with
  | Some _, None => Err JustificationWithoutPermissions
  | _, _ => Ok (default UseDefault permissions)
  end.

Record EffectiveAdditionalPermissions := mkEffective {
  eff_sandbox_permissions : SandboxPermissions;
  eff_additional_permissions : option AdditionalPermissionProfile;
  eff_permissions_preapproved : bool;
}.

(** [context.cwd = cwd] *)
Definition context_for_cwd (ctx : FileSystemSandboxPolicyContext) (cwd : Url) : FileSystemSandboxPolicyContext :=
  mkContext cwd (workspace_roots ctx) (user_home_dir ctx) (temporary_directories ctx).

Definition unresolvable_entry (ctx : FileSystemSandboxPolicyContext) (e : FileSystemSandboxEntry) : bool :=
  match entry_path e with
  | Special Tmpdir => match temporary_directories ctx with Some (_ :: _) => false | _ => true end
  | Special (ProjectRoots _) => is_empty (workspace_roots ctx)
  | _ => false
  end.

Definition net_eqb (a b : option NetworkPermissions) : bool :=
  match a, b with
  | Some a, Some b => bool_decide (enabled a = enabled b)
  | None, None => true
  | _, _ => false
  end.

Definition unchanged_file_system (effective granted : option FileSystemPermissions) : bool :=
  match effective, granted with
  | Some effective, Some granted =>
      bool_decide (fs_glob_scan_max_depth effective = fs_glob_scan_max_depth granted)
      && (length (fs_entries effective) =? length (fs_entries granted))
      && forallb (contains_entry (fs_entries granted)) (fs_entries effective)
  | None, None => true
  | _, _ => false
  end.

Definition preapproved_permission_profile (effective granted : AdditionalPermissionProfile) (ctx : FileSystemSandboxPolicyContext)
    : option AdditionalPermissionProfile :=
  if match file_system effective with
     | Some fs => existsb (unresolvable_entry ctx) (fs_entries fs)
     | None => false
     end
  then None
  else
    match materialize_additional_permissions_with_context effective ctx, materialize_additional_permissions_with_context granted ctx with
    | Ok e, Ok g =>
        if negb (net_eqb (network e) (network g)) then None
        else if unchanged_file_system (file_system e) (file_system g) then Some granted else None
    | _, _ => None
    end.

Definition apply_granted_turn_permissions (granted : option AdditionalPermissionProfile) (ctx : FileSystemSandboxPolicyContext)
    (permissions : SandboxPermissions) (additional : option AdditionalPermissionProfile) : EffectiveAdditionalPermissions :=
  if requires_escalated_permissions permissions then mkEffective permissions additional false
  else
    let effective := merge_permission_profiles additional granted in
    let preapproved :=
      match granted with
      | None => None
      | Some g =>
          match additional with
          | None => Some g
          | Some _ => effective ≫= (fun e => preapproved_permission_profile e g ctx)
          end
      end in
    let effective := match preapproved with Some p => Some p | None => effective end in
    mkEffective
      (if bool_decide (is_Some effective) && negb (uses_additional_permissions permissions)
       then WithAdditionalPermissions else permissions)
      effective (bool_decide (is_Some preapproved)).

Definition implicit_granted_permissions (permissions : SandboxPermissions) (additional : option AdditionalPermissionProfile)
    (effective : EffectiveAdditionalPermissions) : option AdditionalPermissionProfile :=
  if negb (uses_additional_permissions permissions) && negb (requires_escalated_permissions permissions)
     && negb (bool_decide (is_Some additional))
  then eff_additional_permissions effective else None.

Inductive AdditionalPermissionsError :=
| AdditionalDisabled
| NotOnRequest (policy : AskForApproval)
| AdditionalMissing
| AdditionalInvalid (e : NormalizeError)
| AdditionalEmpty
| AdditionalNotRequested.

(** The error strings are the data they render. *)
Definition normalize_and_validate_additional_permissions (allowed : bool) (policy : AskForApproval) (permissions : SandboxPermissions)
    (additional : option AdditionalPermissionProfile) (preapproved : bool) (ctx : FileSystemSandboxPolicyContext)
    : result AdditionalPermissionsError (option AdditionalPermissionProfile) :=
  let uses_additional := uses_additional_permissions permissions in
  if negb preapproved && negb allowed && (uses_additional || bool_decide (is_Some additional)) then Err AdditionalDisabled
  else if uses_additional then
    if negb preapproved && negb (bool_decide (policy = OnRequest)) then Err (NotOnRequest policy)
    else
      match additional with
      | None => Err AdditionalMissing
      | Some additional =>
          normalized ← map_err AdditionalInvalid (normalize_additional_permissions_with_context additional ctx);
          if profile_is_empty normalized then Err AdditionalEmpty else Ok (Some normalized)
      end
  else if bool_decide (is_Some additional) then Err AdditionalNotRequested
  else Ok None.

(** The check of [exec_command] that a call may ask for what it asks for *)
Definition escalation_gate (policy : AskForApproval) (effective : EffectiveAdditionalPermissions) : result CallError unit :=
  if requests_sandbox_override (eff_sandbox_permissions effective) && negb (eff_permissions_preapproved effective)
     && bool_decide (is_Some (prompt_is_rejected_by_policy policy false))
  then Err (CannotAskForEscalation policy)
  else Ok tt.

(** The permissions a command is judged by in [open_session_with_sandbox] *)
Definition judged_permissions (effective : EffectiveAdditionalPermissions) : SandboxPermissions :=
  if eff_permissions_preapproved effective then UseDefault else eff_sandbox_permissions effective.

(** ** The command tool *)

Record UnifiedExecRequest := mkExecRequest {
  exec_command : list str;
  exec_hook_command : str;
  exec_cwd : Url;
  exec_sandbox_cwd : Url;
  exec_environment : TurnEnvironment;
  exec_has_shell_snapshot : bool;
  exec_has_network : bool;
  exec_tty : bool;
  exec_sandbox_permissions : SandboxPermissions;
  exec_additional_permissions : option AdditionalPermissionProfile;
  exec_justification : option str;
  exec_requirement : ExecApprovalRequirement;
}.

Definition exec_approval_action (req : UnifiedExecRequest) (call_id : str) : ToolApprovals.ApprovalAction (Value := Value) :=
  ExecCommand call_id (environment_id (exec_environment req)) (exec_command req) (exec_hook_command req) (exec_cwd req)
    (exec_sandbox_permissions req) (exec_additional_permissions req) (exec_justification req) (exec_tty req)
    (proposed_execpolicy_amendment (exec_requirement req)).

Definition exec_network_approval_spec (os : TargetOs) (req : UnifiedExecRequest) : option NetworkApprovalSpec :=
  let env := exec_environment req in
  let permissions :=
    sandbox_permissions_preserving_denied_reads os (exec_sandbox_permissions req)
      (file_system_sandbox_policy (env_permission_profile env)) in
  if requires_escalated_permissions permissions then None
  else if negb (exec_has_network req) && negb (bool_decide (is_Some (network_policy env))) then None
  else Some (mkSpec (exec_has_network req) (exec_hook_command req) (environment_id env) (exec_additional_permissions req)
               (env_permission_profile env) (network_policy env)).

Definition UnifiedExecRuntime (os : TargetOs) : ToolRuntime (Value := Value) UnifiedExecRequest := {|
  turn_environment := exec_environment;
  tool_sandbox_permissions := exec_sandbox_permissions;
  should_bypass_approval := default_should_bypass_approval;
  tool_exec_approval_requirement req := Some (exec_requirement req);
  wants_no_sandbox_approval := default_wants_no_sandbox_approval;
  approval_action req call_id := Ok (exec_approval_action req call_id);
  sandbox_preference := Auto;
  escalate_on_failure := true;
  uses_executor_managed_process_sandbox req := is_remote (exec_environment req) || exec_has_shell_snapshot req;
  network_approval_spec := exec_network_approval_spec os;
  tool_sandbox_cwd req := Some (exec_sandbox_cwd req);
|}.

(** ** The patch tool *)

Record ApplyPatchRequest := mkPatchRequest {
  req_environment : TurnEnvironment;
  req_action : ApplyPatchAction;
  req_file_paths : list Url;
  req_changes : list (str * FileChange);
  req_requirement : ExecApprovalRequirement;
  req_additional_permissions : option AdditionalPermissionProfile;
  req_permissions_preapproved : bool;
}.

Definition build_approval_action (req : ApplyPatchRequest) (call_id : str) : ToolApprovals.ApprovalAction (Value := Value) :=
  ApplyPatch call_id (environment_id (req_environment req)) (patch_cwd (req_action req)) (req_file_paths req)
    (patch (req_action req)) (req_changes req) (req_permissions_preapproved req).

Definition patch_wants_no_sandbox_approval (policy : AskForApproval) : bool :=
  match policy with
  | Never => false
  | Granular config => sandbox_approval config
  | OnRequest => true
  | UnlessTrusted => true
  end.

Definition ApplyPatchRuntime : ToolRuntime (Value := Value) ApplyPatchRequest := {|
  turn_environment := req_environment;
  tool_sandbox_permissions _ := UseDefault;
  should_bypass_approval := default_should_bypass_approval;
  tool_exec_approval_requirement req := Some (req_requirement req);
  wants_no_sandbox_approval := patch_wants_no_sandbox_approval;
  approval_action req call_id := Ok (build_approval_action req call_id);
  sandbox_preference := Auto;
  escalate_on_failure := true;
  uses_executor_managed_process_sandbox req := is_remote (req_environment req);
  network_approval_spec _ := None;
  tool_sandbox_cwd req := Some (patch_cwd (req_action req));
|}.

(** The permissions of the sandbox an attempt applies the patch in; [None] without one *)
Definition file_system_sandbox_context_for_attempt (req : ApplyPatchRequest) (a : SandboxAttempt) : option PermissionProfile :=
  if negb (sandbox_requested a) then None
  else Some (effective_permission_profile (exec_server_permissions a) (req_additional_permissions req)).

Definition follow_symlinks (os : TargetOs) (a : SandboxAttempt) : bool :=
  sandbox_requested a || negb (should_sandbox os (attempt_permissions a) Auto (enforce_managed_network a)).

(** Whether a failed application counts as a denial of the sandbox *)
Definition patch_sandbox_denied (likely_executor_denied : bool) (likely_denied : SandboxType -> bool) (a : SandboxAttempt)
    (failed : bool) : bool :=
  failed
  && match attempt_sandbox a with
     | SandboxNone => sandbox_requested a && likely_executor_denied
     | sandbox => likely_denied sandbox
     end.

(** ** A verified patch *)

Record PatchCall := mkPatchCall {
  call_environment : TurnEnvironment;
  call_granted : option AdditionalPermissionProfile;
  call_policy : AskForApproval;
}.

(** [execute_verified_patch] up to the run *)
Definition patch_request (os : TargetOs)
    (local : FileSystemSandboxPolicy -> FileSystemSandboxPolicyContext -> result IoError (Url -> result IoError bool))
    (host_parent : Url -> option Url) (to_path_buf : Url -> str) (call : PatchCall) (action : ApplyPatchAction)
    : result CallError ApplyPatchRequest :=
  let env := call_environment call in
  let ctx := context_for_cwd (policy_context env) (patch_cwd action) in
  let route :=
    if is_remote env then ExecutorManaged
    else Platform (windows_sandbox_level_for_legacy_checks (windows_sandbox_type env) (env_windows_sandbox_level env)) in
  let file_paths := file_paths_for_action action in
  let policy :=
    effective_file_system_sandbox_policy (file_system_sandbox_policy (env_permission_profile env)) (call_granted call) in
  matching ← map_err PreparePermissionsFailed (prepare_matching local route policy ctx);
  additional ← map_err PatchCheckFailed (write_permissions_for_paths host_parent file_paths matching);
  let effective := apply_granted_turn_permissions (call_granted call) ctx UseDefault additional in
  '(_, requirement) ← prepare_apply_patch os (call_policy call) (env_permission_profile env) matching action;
  Ok (mkPatchRequest env action file_paths (convert_apply_patch_to_protocol to_path_buf action) requirement
        (eff_additional_permissions effective) (eff_permissions_preapproved effective)).

End Runtimes.
