(* ===== verification/ExecTool.v ===== *)
(** * A call of [exec_command]

    How the arguments of the model become a request for the orchestrator: the
    handler in core/src/tools/handlers/unified_exec/exec_command.rs with
    [get_command] of unified_exec.rs, the shells of core/src/shell.rs and
    [open_session_with_sandbox] of core/src/unified_exec/process_manager.rs, up to
    the run. A command that is a patch in disguise takes the way of
    [apply_patch] instead ([ToolRuntimes.v]). Finding an executable for a shell
    and the conversion to a path of the host are parameters. *)

From S2P Require Import Prelude RustStr ExecPolicy PolicyBuild ShellSyntax CommandSafety PowerShell.
From S2P Require Import PathUri Permissions PermissionTransforms.
From S2P Require Import ExecApproval Interaction ExecutorPolicy ToolSandbox ToolApprovals Orchestrator ToolRuntimes.
Import Decisions Rules Policies Builder.

Record Shell := mkShell { shell_type : ShellType; shell_path : str }.
Record ShellInvocation := mkInvocation { invoked_shell : Shell; use_login_shell : bool }.

Definition derive_exec_args (self : Shell) (command : str) (login : bool) : list str :=
  match shell_type self with
  | Zsh | Bash | Sh => [shell_path self; if login then lit "-lc" else lit "-c"; command]
  | PowerShell => [shell_path self] ++ (if negb login then [lit "-NoProfile"] else []) ++ [lit "-Command"; command]
  | Cmd => [shell_path self; lit "/c"; command]
  end.

Definition is_posix_login (self : ShellInvocation) : bool :=
  use_login_shell self && match shell_type (invoked_shell self) with Bash | Zsh | Sh => true | _ => false end.

(** The shells of a Unix build; [get_shell] looks for an executable *)
Definition ultimate_fallback_shell : Shell := mkShell Sh (lit "/bin/sh").
Definition get_shell_by_model_provided_path (get_shell : ShellType -> option Shell) (path : str) : Shell :=
  default ultimate_fallback_shell (detect_shell_type path ≫= get_shell).

(** [UnifiedExecShellMode] with the path of the forking zsh *)
Inductive TurnShellMode := DirectShell | ZshForkShell (shell_zsh_path : str).
Definition shell_mode_for_environment (mode : TurnShellMode) (remote : bool) : TurnShellMode :=
  if remote then DirectShell else mode.
Definition approval_mode (mode : TurnShellMode) : UnifiedExecShellMode :=
  match mode with DirectShell => Direct | ZshForkShell _ => ZshFork end.

Section ExecTool.
Context {UL : UrlLib} {GL : GlobLib} {AbsolutePath : Type} {exec_paths : ExecPaths AbsolutePath}.
Context {WW : WindowsWords} {SG : ShellGrammar} {PG : PowerShellGrammar} {SQ : ShellQuoting} {IoError : Type}.

Record ExecCommandArgs := mkArgs {
  cmd : str;
  workdir : option str;
  arg_shell : option str;
  login : option bool;
  tty : bool;
  arg_sandbox_permissions : option SandboxPermissions;
  additional_permissions : option AdditionalPermissionProfile;
  justification : option str;
  arg_prefix_rule : option (list str);
}.

Inductive ExecCallError :=
| CwdInvalid (e : PathUriParseError)
| CwdNotOnHost
| CwdForeignConvention
| TtyDisabled
| CallRefused (e : CallError (IoError := IoError))
| NoRemoteShell
| OnlyRemoteShell
| LoginDisabled
| ShellNotSupported
| PermissionsRefused (e : AdditionalPermissionsError).

(** What the handler reads of the session, the turn and the step *)
Record ExecTurn := mkExecTurn {
  exec_env : TurnEnvironment;
  env_shell : option Shell;
  user_shell : Shell;
  turn_shell_mode : TurnShellMode;
  allow_login_shell : bool;
  feature_tty : bool;
  feature_exec_permission_approvals : bool;
  feature_request_permissions : bool;
  feature_shell_snapshot : bool;
  shell_snapshot_supported : bool;
  one_shot : bool;
  exec_approval_policy : AskForApproval;
  exec_granted : option AdditionalPermissionProfile;
  exec_turn_network : bool;
  executor_platform_os : option str;
  env_exec_policy : option (Policy AbsolutePath);
  session_policy : Policy AbsolutePath;
  turn_allow_prefix_rules : AllowPrefixRules;
}.

(** ** The working directory *)

Definition command_cwd (env : TurnEnvironment) (workdir : option str) : outcome ExecCallError Url :=
  match workdir with
  | Some ((_ :: _) as dir) =>
      match uri_join (env_cwd env) dir with
      | Return cwd => Return cwd
      | Throw e => Throw (CwdInvalid e)
      | Panic => Panic
      end
  | _ => Return (env_cwd env)
  end.

(** A sandbox of this host needs a directory of this host. *)
Definition check_native_cwd (os : TargetOs) (to_abs_path : Url -> option str) (turn : ExecTurn) (cwd : Url) : outcome ExecCallError unit :=
  let env := exec_env turn in
  let requires_host_native_cwd :=
    negb (is_remote env)
    && bool_decide (select_initial os (env_permission_profile env) Auto
                      (effective_windows_sandbox_type (windows_sandbox_type env) (env_windows_sandbox_level env))
                      (exec_turn_network turn) <> SandboxNone) in
  match to_abs_path cwd with
  | Some _ =>
      if convention_opt_eqb (infer_path_convention cwd) (Some (native_convention os)) then Return tt
      else if negb requires_host_native_cwd then Return tt else Throw CwdForeignConvention
  | None => if negb requires_host_native_cwd then Return tt else Throw CwdNotOnHost
  end.

(** ** The command *)

Definition check_remote_shell (turn : ExecTurn) (requested : option str) : outcome ExecCallError unit :=
  if is_remote (exec_env turn) then
    match requested with
    | Some requested =>
        match env_shell turn with
        | None => Throw NoRemoteShell
        | Some remote =>
            if bool_decide (detect_shell_type requested = Some (shell_type remote)) then Return tt else Throw OnlyRemoteShell
        end
    | None => Return tt
    end
  else Return tt.

(** [args.shell] after the check above took it *)
Definition remaining_shell (turn : ExecTurn) (args : ExecCommandArgs) : option str :=
  if is_remote (exec_env turn) then None else arg_shell args.

Definition get_command (get_shell : ShellType -> option Shell) (args : ExecCommandArgs) (requested : option str) (session_shell : Shell)
    (mode : TurnShellMode) (allow_login : bool) : outcome ExecCallError (list str * ShellInvocation) :=
  use_login ← (match login args with
               | Some true => if negb allow_login then Throw LoginDisabled else Return true
               | Some false => Return false
               | None => Return allow_login
               end : outcome ExecCallError bool);
  shell ← (match mode with
           | DirectShell => Return (default session_shell (get_shell_by_model_provided_path get_shell <$> requested))
           | ZshForkShell zsh =>
               if bool_decide (is_Some requested) then Throw ShellNotSupported else Return (mkShell Zsh zsh)
           end : outcome ExecCallError Shell);
  Return (derive_exec_args shell (cmd args) use_login, mkInvocation shell use_login).

(** ** Permissions *)

Definition lift_call {A} (r : result (CallError (IoError := IoError)) A) : outcome ExecCallError A :=
  lift_result (map_err CallRefused r).

(** What the command may do, whether that is granted already, and its additional permissions *)
Definition command_permissions (turn : ExecTurn) (cwd : Url) (args : ExecCommandArgs)
    : outcome ExecCallError (EffectiveAdditionalPermissions * option AdditionalPermissionProfile) :=
  permissions ← lift_call (resolve_sandbox_permissions (arg_sandbox_permissions args) (justification args));
  let ctx := context_for_cwd (policy_context (exec_env turn)) cwd in
  let effective := apply_granted_turn_permissions (exec_granted turn) ctx permissions (additional_permissions args) in
  let allowed :=
    feature_exec_permission_approvals turn
    || feature_request_permissions turn && eff_permissions_preapproved effective in
  _ ← lift_call (escalation_gate (exec_approval_policy turn) effective);
  normalized ←
    (match implicit_granted_permissions permissions (additional_permissions args) effective with
     | Some granted => Return (Some granted)
     | None =>
         lift_result (map_err PermissionsRefused
           (normalize_and_validate_additional_permissions allowed (exec_approval_policy turn) (eff_sandbox_permissions effective)
              (eff_additional_permissions effective) (eff_permissions_preapproved effective) ctx))
     end : outcome ExecCallError (option AdditionalPermissionProfile));
  Return (effective, normalized).

(** ** The request *)

Definition command_platform (turn : ExecTurn) : DangerousCommandPlatform :=
  match executor_platform_os turn with
  | Some platform =>
      if str_eqb platform (lit "linux") || str_eqb platform (lit "macos") then PosixPlatform else WindowsPlatform
  | None => if cfg_windows then WindowsPlatform else PosixPlatform
  end.

Definition exec_approval_request (turn : ExecTurn) (command : list str) (effective : EffectiveAdditionalPermissions)
    (prefix : option (list str)) : ExecApprovalRequest (AbsolutePath := AbsolutePath) :=
  let env := exec_env turn in
  mkRequest command
    (mkUnmatched (exec_approval_policy turn) (env_permission_profile env)
       (windows_sandbox_level_for_legacy_checks (windows_sandbox_type env) (env_windows_sandbox_level env))
       (judged_permissions effective))
    (env_exec_policy turn) prefix (turn_allow_prefix_rules turn).

Definition snapshot_requested (turn : ExecTurn) (mode : TurnShellMode) (shell : ShellInvocation) (cwd : Url) : bool :=
  feature_shell_snapshot turn && shell_snapshot_supported turn && path_uri_eqb (env_cwd (exec_env turn)) cwd
  && match mode with DirectShell => true | ZshForkShell _ => false end && is_posix_login shell.

(** The configured shell and the requirement of [open_session_with_sandbox] *)
Definition exec_requirement_for (turn : ExecTurn) (command : list str) (mode : TurnShellMode)
    (effective : EffectiveAdditionalPermissions) (prefix : option (list str)) : outcome Error ExecApprovalRequirement :=
  create_exec_approval_requirement_for_shell (session_policy turn) (exec_approval_request turn command effective prefix)
    (shell_path (default (user_shell turn) (env_shell turn))) (approval_mode mode) (command_platform turn).

Definition exec_request (os : TargetOs) (to_abs_path : Url -> option str) (get_shell : ShellType -> option Shell) (turn : ExecTurn)
    (args : ExecCommandArgs) : outcome ExecCallError UnifiedExecRequest :=
  let env := exec_env turn in
  cwd ← command_cwd env (workdir args);
  _ ← check_native_cwd os to_abs_path turn cwd;
  if tty args && negb (feature_tty turn) then Throw TtyDisabled
  else
    _ ← lift_call (resolve_sandbox_permissions (arg_sandbox_permissions args) (justification args));
    let mode := shell_mode_for_environment (turn_shell_mode turn) (is_remote env) in
    _ ← check_remote_shell turn (arg_shell args);
    '(command, shell) ← get_command get_shell args (remaining_shell turn args) (default (user_shell turn) (env_shell turn)) mode
                          (allow_login_shell turn);
    '(effective, normalized) ← command_permissions turn cwd args;
    match exec_requirement_for turn command mode effective (arg_prefix_rule args) with
    | Return requirement =>
        Return (mkExecRequest command (cmd args) cwd (env_cwd env) env (snapshot_requested turn mode shell cwd)
                  (exec_turn_network turn) (if one_shot turn then false else tty args) (eff_sandbox_permissions effective) normalized
                  (justification args) requirement)
    | Throw _ | Panic => Panic
    end.

End ExecTool.
