(* ===== verification/ToolPhases.v ===== *)
(** * The phases of a tool call

    What every log of the orchestrator looks like: consent first where it is
    required, then one attempt, and after a denial of the sandbox at most one
    more. [ToolTheorems.v] draws the conclusions. *)

From S2P Require Import Prelude RustStr PathUri Permissions PermissionTransforms.
From S2P Require Import ShellSyntax ExecApproval Interaction ExecutorPolicy ToolSandbox ToolApprovals Orchestrator ToolRuntimes.

Section Phases.
Context {UL : UrlLib} {GL : GlobLib} {SG : ShellGrammar} {SQ : ShellQuoting} {KJ : KeyJson} {Value Output Out : Type}.
Abbreviation ApprovalAction := (ToolApprovals.ApprovalAction (Value := Value)).
Abbreviation ToolError := (ToolError (Output := Output)).
Abbreviation answer := (tool_answer (Value := Value) (Output := Output) (Out := Out)).
Abbreviation event := (event answer).

(** ** Consent *)

Definition approving (d : ReviewDecision) : bool :=
  match d with
  | Approved | ApprovedExecpolicyAmendment _ | ApprovedForSession => true
  | NetworkAmendment a => bool_decide (amendment_action a = NetworkAllow)
  | _ => false
  end.

(** An answer that lets an action pass: of a hook, of the reviewer, of the user, or
    of the store if every key asked for is approved for the session *)
Definition grants (e : event) : bool :=
  match e with
  | existT c x =>
      match c as c return answer c -> bool with
      | RunHooks _ _ => fun x => match x with Some HookAllow => true | _ => false end
      | DecideApproval _ => fun x => match x with Some d => approving d | None => false end
      | SpawnApproval _ => fun x => match x with Ok (Some d) => approving d | _ => false end
      | AskUser _ => approving
      | ReadApprovals keys => fun store => negb (is_empty keys) && forallb (approved_for_session store) keys
      | _ => fun _ => false
      end x
  end.

Definition run_event (a : SandboxAttempt) (x : result ToolError Out) : event := existT (RunTool a : ToolCall) x.
Definition is_run (e : event) : bool := match e with existT (RunTool _) _ => true | _ => false end.
Definition run_free (log : list event) : Prop := existsb is_run log = false.

(** A patch for whose targets the turn already has permissions, asked without a reason *)
Definition preapproved_patch (action : ApprovalAction) (ctx : ApprovalContext) : bool :=
  match action with
  | ApplyPatch _ _ _ _ _ _ true => negb (bool_decide (is_Some (or_else (retry_reason ctx) (approval_reason ctx))))
  | _ => false
  end.

(** The actions of the tools that run commands or change files *)
Definition plain_action (action : ApprovalAction) : bool :=
  match action with ExecCommand _ _ _ _ _ _ _ _ _ _ | ApplyPatch _ _ _ _ _ _ _ => true | _ => false end.

Lemma run_free_app l k : run_free (l ++ k) <-> run_free l /\ run_free k.
Proof. unfold run_free. by rewrite existsb_app, orb_false_iff. Qed.

Definition consented (action : ApprovalAction) (ctx : ApprovalContext) (log : list event) : Prop :=
  existsb grants log = true \/ preapproved_patch action ctx = true.

Lemma into_tool_result_Ok instructions d source d' :
  into_tool_result (Output := Output) instructions (mkResolution d source) = Ok d' -> d' = d /\ approving d = true.
Proof. destruct d as [| | | |[? []]| | |]; simpl; try done; by intros [= <-]. Qed.

Lemma resolve_plain action ctx d source d' :
  plain_action action = true -> resolve (Output := Output) action ctx (mkResolution d source) = Ok d' -> approving d = true.
Proof.
  intros Hp. unfold resolve. destruct action; try done; simpl; intros H; by apply into_tool_result_Ok in H as [_ ?].
Qed.

(** The user: an approving answer is on the log. *)
Definition answered (r : outcome ToolError ReviewDecision) (log : list event) : Prop :=
  run_free log /\ exists d, r = Return d /\ (approving d = true -> existsb grants log = true).

Lemma ask_spec q log : run_free log -> always run_free answered (ask (Value := Value) (Output := Output) (Out := Out) q) log.
Proof.
  intros Hlog. cbn. split; [done|]. intros d. unfold answered. rewrite run_free_app. split_and!; try done. eexists. split; [done|].
  intros Hd. rewrite existsb_app. simpl. by rewrite Hd, orb_true_r.
Qed.

Lemma cached_spec keys q log :
  run_free log -> always run_free answered (cached (Value := Value) (Output := Output) (Out := Out) keys q) log.
Proof.
  intros Hlog. unfold cached, with_cached_approval. destruct (is_empty keys) eqn:E; [by apply ask_spec|].
  cbn. split; [done|]. intros store. unfold answered.
  assert (Hf : run_free (log ++ [existT (ReadApprovals keys : ToolCall) store])) by by apply run_free_app.
  destruct (forallb (approved_for_session store) keys) eqn:Hall; cbn.
  - split_and!; [done|done|]. eexists. split; [done|]. intros _.
    rewrite existsb_app. simpl. by rewrite E, Hall, orb_true_r.
  - split; [done|]. intros d.
    assert (Hd : approving d = true -> existsb grants ((log ++ [existT (ReadApprovals keys : ToolCall) store]) ++ [existT (AskUser q : ToolCall) d]) = true).
    { intros Hd. rewrite !existsb_app. simpl. by rewrite Hd, !orb_true_r. }
    destruct (bool_decide (d = ApprovedForSession)); cbn; split_and?; try (intros []); rewrite ?run_free_app in *; split_and?; try done; eauto.
    eexists. split; [done|]. intros H. rewrite existsb_app, Hd; done.
Qed.

(** Hooks, reviewer, user in turn *)
Definition allowed (action : ApprovalAction) (ctx : ApprovalContext) (r : outcome ToolError ReviewDecision) (log : list event) : Prop :=
  run_free log /\ r <> Panic /\ forall d, r = Return d -> consented action ctx log.

Definition user_answer (action : ApprovalAction) (ctx : ApprovalContext) (r : outcome ToolError ReviewDecision) (log : list event) : Prop :=
  run_free log /\ exists d, r = Return d /\ (approving d = true -> consented action ctx log).

Lemma answered_user action ctx p log : always run_free answered p log -> always run_free (user_answer action ctx) p log.
Proof.
  apply always_mono; [done|]. intros r l _ (Hl & d & -> & Hd). split; [done|]. eexists. split; [done|]. intros H. left. auto.
Qed.

Lemma user_spec action ctx log :
  plain_action action = true -> run_free log ->
  always run_free (user_answer action ctx) (request_user_approval (Output := Output) (Out := Out) action ctx) log.
Proof.
  intros Hp Hlog. destruct action; try done; unfold request_user_approval.
  - by apply answered_user, cached_spec.
  - destruct (or_else (retry_reason ctx) (approval_reason ctx)) eqn:Hr; [by apply answered_user, ask_spec|].
    destruct permissions_preapproved; [|by apply answered_user, cached_spec].
    cbn. split; [done|]. split; [done|]. eexists. split; [done|]. intros _. right. simpl. by rewrite Hr.
Qed.

Lemma guardian_spec native action ctx log :
  run_free log ->
  always run_free (fun r l => run_free l /\ forall d, r = Some d -> approving d = true -> existsb grants l = true)
    (request_guardian_approval (Value := Value) (Output := Output) (Out := Out) native action ctx) log.
Proof.
  intros Hlog. unfold request_guardian_approval. destruct (match action with McpToolCall _ _ _ _ _ => _ | _ => _ end) as [policy reviewer].
  destruct (_ || _); cbn; (split; [done|]); intros x; rewrite run_free_app; (split_and!; [done|done|done|done|]); intros d Hx Hd;
    rewrite existsb_app; simpl; apply orb_true_iff; right; [|by rewrite Hx, Hd].
  destruct x as [x|[]]; [by rewrite Hx, Hd|]. injection Hx as <-. done.
Qed.

Lemma request_approval_spec native action ctx :
  plain_action action = true ->
  always run_free (allowed action ctx) (request_approval (Output := Output) (Out := Out) native action ctx) [].
Proof.
  intros Hp. unfold request_approval. assert (stdin_rejection action ctx = None) as -> by by destruct action.
  cbn -[try_bind]. split; [done|]. intros hooks. match goal with |- always _ _ _ ?l => set (log := l) end.
  assert (Hlog : run_free log) by done.
  assert (Hdone : forall d source l, run_free l -> (approving d = true -> consented action ctx l) ->
            always run_free (allowed action ctx) (Done (lift_result (resolve (Output := Output) action ctx (mkResolution d source)))) l).
  { intros d source l Hl Hd. cbn. split; [done|]. unfold allowed. destruct (resolve _ _ _) as [d'|e] eqn:E; simpl; split_and!; try done.
    intros ? _. apply Hd. by eapply resolve_plain. }
  destruct hooks as [[|message]|].
  - apply Hdone; [done|]. intros _. by left.
  - by apply Hdone.
  - apply always_try, always_await. eapply always_mono; [done| |by apply (guardian_spec native action ctx)].
    intros r l _ [Hl Hr]. destruct r as [d|].
    { split; [done|]. cbn beta iota. apply Hdone; [done|]. intros Hd. left. by apply (Hr d). }
    apply always_try. eapply always_mono; [done| |by apply user_spec].
    intros r' l' Hl' (_ & d & -> & Hd). split; [done|]. by apply Hdone.
Qed.

(** ** One attempt *)

Lemma behaves_perform c log o :
  behaves (perform (answer := answer) c) log o -> (log = [] /\ o = None) \/ exists x, log = [existT c x] /\ (o = None \/ o = Some x).
Proof. intros [?|(x & l & -> & -> & Ho)]; [by left|right]. by exists x. Qed.

Lemma begin_spec active spec log o :
  behaves (begin_network_approval (Value := Value) (Output := Output) (Out := Out) active spec) log o ->
  run_free log /\ forall e, o = Some (Err e) -> exists e', e = setup_error e'.
Proof.
  unfold begin_network_approval. destruct spec as [spec|]; [destruct active; simpl|]; cbn.
  - intros [[-> ->]|(x & l & -> & -> & Ho)]; [done|]. split; [done|]. intros e ->. destruct Ho as [|[= Hx]]; [done|].
    destruct x as [?|e']; [done|]. injection Hx as ->. eauto.
  - intros [-> [-> | ->]]; done.
  - intros [-> [-> | ->]]; done.
Qed.

Lemma finish_spec deferred log o :
  behaves (finish_deferred_network_approval (Value := Value) (Output := Output) (Out := Out) deferred) log o ->
  run_free log /\ forall e, o = Some (Err e) -> exists reason, e = Rejected reason.
Proof.
  unfold finish_deferred_network_approval. destruct deferred as [d|]; cbn.
  - intros [[-> ->]|(x & l & -> & -> & Ho)]; [done|]. split; [done|]. intros e ->. destruct Ho as [|[= Hx]]; [done|].
    destruct x as [reason|]; [|done]. injection Hx as ->. eauto.
  - intros [-> [-> | ->]]; done.
Qed.

(** What an attempt reports: its own result, or an error of the network set-up,
    which is never a denial of the sandbox *)
Definition is_denial (e : ToolError) : bool := match e with Codex (SandboxDenied _ _) => true | _ => false end.

Lemma run_attempt_spec a spec log o :
  behaves (run_attempt (Value := Value) (Output := Output) (Out := Out) a spec) log o ->
  (run_free log /\ forall r, o = Some r -> exists e, r.1 = Err e /\ is_denial e = false)
  \/ exists pre network x post,
       log = pre ++ run_event (with_network_approval a network) x :: post /\ run_free pre /\ run_free post
       /\ forall r, o = Some r -> r.1 = x \/ exists e, r.1 = Err e /\ is_denial e = false.
Proof.
  intros [[-> H]|(begun & l1 & l2 & -> & H1 & H2)]%behaves_bind.
  { left. by apply begin_spec in H as [? _]. }
  apply begin_spec in H1 as [Hl1 He]. destruct begun as [network|e].
  2: { destruct H2 as [-> Ho]. rewrite app_nil_r. left. split; [done|]. intros r ->. destruct Ho as [|[= ->]]; [done|].
       destruct (He e eq_refl) as [[] ->]; by eexists. }
  apply behaves_bind in H2 as [[-> H2]|(x & l3 & l4 & -> & H3 & H4)].
  { apply (behaves_perform (RunTool (with_network_approval a network))) in H2 as [[-> _]|(x & -> & _)]; [left; by rewrite app_nil_r|].
    right. by exists l1, network, x, []. }
  apply (behaves_perform (RunTool (with_network_approval a network))) in H3 as [[_ ?]|(x' & -> & [?|[= <-]])]; [done|done|].
  right. exists l1, network, x, l4. split; [done|]. split; [done|]. destruct network as [active|].
  2: { destruct H4 as [-> Ho]. split; [done|]. intros r ->. destruct Ho as [|[= ->]]; [done|]. by left. }
  destruct x as [out|e].
  { destruct H4 as [-> Ho]. split; [done|]. intros r ->. destruct Ho as [|[= ->]]; [done|]. by left. }
  apply behaves_bind in H4 as [[-> H4]|(fin & l5 & l6 & -> & H5 & H6)].
  { by apply finish_spec in H4 as [? _]. }
  apply finish_spec in H5 as [Hl5 Hf].
  destruct fin as [[]|err]; destruct H6 as [-> Ho]; rewrite app_nil_r; split; try done; intros r ->; destruct Ho as [|[= ->]];
    try done; [by left|right]. destruct (Hf err eq_refl) as [reason ->]. by eexists.
Qed.

(** ** The whole run *)

(** A tool that only asks for actions of its own kind *)
Class PlainTool {Req} (tool : ToolRuntime (Value := Value) Req) : Prop :=
  plain_actions : forall req id action, approval_action req id = Ok action -> plain_action action = true.

Section Run.
Context (os : TargetOs) {Req : Type} {tool : ToolRuntime (Value := Value) Req} {plain : PlainTool tool}.
Context (settings : TurnSettings) (req : Req).

Definition base_policy : FileSystemSandboxPolicy := file_system_sandbox_policy (base_permissions req).
Definition requirement : ExecApprovalRequirement := requirement_of settings req.

Definition granted (ctx : ApprovalContext) (log : list event) : Prop :=
  exists action, approval_action req (tool_call_id settings) = Ok action /\ consented action ctx log.

Lemma granted_app ctx l k : granted ctx l -> granted ctx (l ++ k).
Proof.
  intros (action & Ha & Hc). exists action. split; [done|]. destruct Hc as [Hc|?]; [left|by right]. by rewrite existsb_app, Hc.
Qed.

(** What was settled before the first attempt *)
Definition settled (approved : bool) (log : list event) : Prop :=
  match requirement with
  | ExecApproval.Skip _ _ =>
      if turn_strict_auto_review settings
      then approved = true /\ granted (approval_context settings None None None) log
      else approved = false
  | NeedsApproval reason _ => approved = true /\ granted (approval_context settings reason None None) log
  | ForbiddenCommand _ => False
  end.

Definition first_override (approved : bool) : SandboxOverride :=
  sandbox_override_for_first_attempt os (tool_sandbox_permissions req) requirement base_policy approved.
Definition first_plan (approved : bool) : AttemptPlan :=
  make_plan settings req (base_permissions req) (escalation (turn_environment req) (first_override approved)).1.
Definition first_attempt (approved : bool) : SandboxAttempt :=
  let plan := first_plan approved in
  let requested := first_requested os (first_override approved) plan in
  attempt_of settings req plan (requested_sandbox os req plan requested) requested (codex_sandbox_exe os settings).

Definition retry_attempt (approved : bool) : SandboxAttempt :=
  let plan := first_plan approved in
  let requested := negb (unsandboxed_execution_allowed os base_policy) && plan_requests_sandbox os plan in
  attempt_of settings req plan (requested_sandbox os req plan requested) requested
    (if unsandboxed_execution_allowed os base_policy then None else codex_sandbox_exe os settings).

Definition retry_context (network : option NetworkApprovalContext) : ApprovalContext :=
  approval_context settings (match requirement with NeedsApproval reason _ => reason | _ => None end)
    (Some match network with Some n => blocked_host_reason (context_host n) | None => RETRY_WITHOUT_SANDBOX end) network.

(** Whether the retry goes without another question *)
Definition retry_bypass (approved : bool) (network : option NetworkApprovalContext) : bool :=
  negb (turn_strict_auto_review settings) && should_bypass_approval (step_approval_policy settings) approved
  && negb (bool_decide (is_Some network)).

(** The logs of a tool call *)
Inductive tool_log : list event -> Prop :=
| log_waiting pre : run_free pre -> tool_log pre
| log_first approved pre network x post :
    run_free pre -> settled approved pre -> run_free post ->
    (uses_executor_managed_process_sandbox req = true
     \/ ensure_native_sandbox (first_override approved) (attempt_sandbox (first_attempt approved)) = Ok tt) ->
    tool_log (pre ++ run_event (with_network_approval (first_attempt approved) network) x :: post)
| log_retry approved pre network output decision mid network' x post :
    run_free pre -> settled approved pre -> run_free mid -> run_free post ->
    (uses_executor_managed_process_sandbox req = true
     \/ ensure_native_sandbox (first_override approved) (attempt_sandbox (first_attempt approved)) = Ok tt) ->
    let context := network_context (first_plan approved) decision in
    may_retry os settings base_policy decision context = true ->
    (retry_bypass approved context = true \/ granted (retry_context context) mid) ->
    tool_log (pre ++ run_event (with_network_approval (first_attempt approved) network) (Err (Codex (SandboxDenied output decision)))
                  :: mid ++ run_event (with_network_approval (retry_attempt approved) network') x :: post).

Lemma ask_approval_spec ctx log o :
  behaves (ask_approval (Out := Out) (Output := Output) os settings req ctx) log o ->
  run_free log /\ o <> Some Panic /\ forall d, o = Some (Return d) -> granted ctx log.
Proof.
  unfold ask_approval. destruct (approval_action req _) as [action|e] eqn:Ha.
  2: { intros [-> [-> | ->]]; done. }
  intros Hb. destruct (always_sound _ _ _ [] _ _ (request_approval_spec (native_convention os) action ctx (plain_actions _ _ _ Ha)) Hb)
    as [Hfree Hq]. simpl in *. split; [done|]. split.
  - intros ->. by destruct (Hq _ eq_refl) as (_ & ? & _).
  - intros d ->. destruct (Hq _ eq_refl) as (_ & _ & Hd). exists action. split; [done|]. by eapply Hd.
Qed.

Lemma settle_spec log o :
  behaves (settle_approval (Out := Out) (Output := Output) os settings req requirement) log o ->
  run_free log /\ o <> Some Panic /\ forall approved, o = Some (Return approved) -> settled approved log.
Proof.
  assert (Hask : forall ctx l o', behaves (_ ←? ask_approval (Out := Out) (Output := Output) os settings req ctx; Done (Return true)) l o' ->
    run_free l /\ o' <> Some Panic /\ forall approved, o' = Some (Return approved) -> approved = true /\ granted ctx l).
  { intros ctx l o' [[-> Hb]|(r & l1 & l2 & -> & H1 & H2)]%behaves_bind.
    { by apply ask_approval_spec in Hb as (? & _). }
    apply ask_approval_spec in H1 as (Hl & Hp & Hd). destruct r as [d|e|]; destruct H2 as [-> Ho]; rewrite app_nil_r;
      [..|done]; (split; [done|]); destruct Ho as [-> | ->]; try done.
    split; [done|]. intros b [= <-]. split; [done|]. by eapply Hd. }
  unfold settle_approval, settled. destruct requirement as [bypass am|reason am|reason].
  - destruct (turn_strict_auto_review settings); [apply Hask|]. intros [-> [-> | ->]]; try done.
    split; [done|]. split; [done|]. by intros ? [= <-].
  - apply Hask.
  - intros [-> [-> | ->]]; done.
Qed.

Lemma check_remote_spec env escalated log o :
  behaves (check_remote_escalation (Out := Out) (Output := Output) (Value := Value) env escalated) log o -> run_free log /\ o <> Some Panic.
Proof.
  unfold check_remote_escalation. destruct (_ && _); cbn.
  - intros [[-> ->]|(x & l & -> & H)]; [done|]. destruct x as [info|e]; [destruct (_ && _)|]; destruct H as [-> [-> | ->]]; done.
  - intros [-> [-> | ->]]; done.
Qed.

Lemma retry_spec approved network log o :
  behaves (retry_run (Out := Out) (Output := Output) os settings req requirement base_policy (first_plan approved) approved network) log o ->
  (run_free log /\ forall r, o = Some r -> exists e, r = Throw e)
  \/ exists mid network' x post,
       log = mid ++ run_event (with_network_approval (retry_attempt approved) network') x :: post
       /\ run_free mid /\ run_free post /\ (retry_bypass approved network = true \/ granted (retry_context network) mid)
       /\ (forall r, o = Some r -> r <> Panic) /\ forall res, o = Some (Return res) -> x = Ok (run_output res).
Proof.
  unfold retry_run. fold (retry_bypass approved network). fold (retry_context network).
  intros [[-> H]|(r & l1 & l2 & -> & H1 & H2)]%behaves_bind.
  { left. split; [|done]. destruct (retry_bypass _ _); [by destruct H as [-> _]|by apply ask_approval_spec in H as (? & _)]. }
  assert (Hl1 : run_free l1 /\ r <> Panic /\ forall d, r = Return d -> retry_bypass approved network = true \/ granted (retry_context network) l1).
  { destruct (retry_bypass _ _).
    - destruct H1 as [-> [|[= ->]]]; [done|]. split; [done|]. split; [done|]. by left.
    - apply ask_approval_spec in H1 as (? & Hp & Hd). split; [done|]. split; [congruence|]. intros d ->. right. by eapply Hd. }
  destruct Hl1 as (Hl1 & Hp & Hd). destruct r as [d|e|]; [|left|done].
  2: { destruct H2 as [-> Ho]. rewrite app_nil_r. split; [done|]. intros r ->. destruct Ho as [|[= ->]]; [done|]. by eexists. }
  specialize (Hd d eq_refl). cbv zeta in H2.
  fold (retry_attempt approved) in H2.
  apply behaves_bind in H2 as [[-> H2]|(res & l3 & l4 & -> & H3 & H4)].
  { apply run_attempt_spec in H2 as [[? _]|(pre & na & x & post & -> & Hpre & Hpost & _)].
    - left. by rewrite run_free_app.
    - right. exists (l1 ++ pre), na, x, post. rewrite <- app_assoc. split; [done|]. rewrite run_free_app. split; [done|]. split; [done|].
      split; [|done]. destruct Hd; [by left|right; by apply granted_app]. }
  destruct H4 as [-> Ho]. rewrite app_nil_r.
  apply run_attempt_spec in H3 as [[? He]|(pre & na & x & post & -> & Hpre & Hpost & He)].
  - left. rewrite run_free_app. split; [done|]. intros r ->. destruct Ho as [|[= ->]]; [done|].
    destruct (He _ eq_refl) as (e & Hres & _). unfold finish_run. rewrite Hres. by eexists.
  - right. exists (l1 ++ pre), na, x, post. rewrite <- app_assoc. split; [done|]. rewrite run_free_app. split; [done|]. split; [done|].
    split; [destruct Hd; [by left|right; by apply granted_app]|]. split.
    { intros r ->. destruct Ho as [|[= ->]]; [done|]. unfold finish_run. by destruct res.1. }
    intros out ->. destruct Ho as [|[= Hf]]; [done|]. unfold finish_run in Hf.
    destruct (He _ eq_refl) as [Hx|(e & Hx & _)]; rewrite Hx in Hf; [|done].
    destruct x as [y|]; [|done]. by injection Hf as ->.
Qed.

Lemma settled_app approved l k : settled approved l -> settled approved (l ++ k).
Proof.
  unfold settled. destruct requirement; [|..|done]; [destruct (turn_strict_auto_review settings); [|done]|]; intros [-> ?]; split; auto using granted_app.
Qed.

(** The part of [run] from the first attempt on *)
Definition from_first (approved : bool) : prog answer (outcome ToolError OrchestratorRunResult) :=
  first ← run_attempt (first_attempt approved) (network_approval_spec req);
  match first.1 with
  | Err (Codex (SandboxDenied output decision)) =>
      let network := network_context (first_plan approved) decision in
      if may_retry os settings base_policy decision network
      then retry_run os settings req requirement base_policy (first_plan approved) approved network
      else Done (Throw (Codex (SandboxDenied output decision)))
  | _ => Done (finish_run first)
  end.

Lemma first_phase approved pre log o :
  run_free pre -> settled approved pre ->
  (uses_executor_managed_process_sandbox req = true
   \/ ensure_native_sandbox (first_override approved) (attempt_sandbox (first_attempt approved)) = Ok tt) ->
  behaves (from_first approved) log o ->
  tool_log (pre ++ log) /\ o <> Some Panic
  /\ forall res, o = Some (Return res) -> exists a, run_event a (Ok (run_output res)) ∈ pre ++ log.
Proof.
  intros Hpre Hs' Hnative.
  intros [[-> H4]|(first & l5 & l6 & -> & H5 & H6)]%behaves_bind.
  { apply run_attempt_spec in H4 as [[? _]|(pre' & na & x & post & -> & Hpre' & Hpost & _)].
    - split; [by apply log_waiting, run_free_app|done].
    - rewrite app_assoc. split; [|done]. apply log_first; auto using settled_app. by apply run_free_app. }
  apply run_attempt_spec in H5 as [[Hl5 He]|(pre' & na & x & post & -> & Hpre' & Hpost & He)].
  { destruct (He _ eq_refl) as (e & Hfst & Hden). rewrite Hfst in H6.
    assert (l6 = [] /\ (o = None \/ o = Some (Throw e))) as [-> Ho].
    { destruct e as [|[]]; try done; destruct H6 as [-> Ho]; (split; [done|]); unfold finish_run in Ho; by rewrite Hfst in Ho. }
    rewrite app_nil_r. split; [by apply log_waiting, run_free_app|]. by destruct Ho as [-> | ->]. }
  specialize (He _ eq_refl). rewrite <- (app_assoc pre'), (app_assoc pre), <- (app_comm_cons post).
  assert (Hpre2 : run_free (pre ++ pre')) by by apply run_free_app.
  assert (Hs2 : settled approved (pre ++ pre')) by by apply settled_app.
  assert (Hend : l6 = [] -> (o = None \/ exists r, o = Some r /\ r <> Panic /\ forall res, r = Return res -> first.1 = Ok (run_output res)) ->
    tool_log ((pre ++ pre') ++ run_event (with_network_approval (first_attempt approved) na) x :: post ++ l6)
    /\ o <> Some Panic
    /\ forall res, o = Some (Return res) -> exists a, run_event a (Ok (run_output res))
          ∈ (pre ++ pre') ++ run_event (with_network_approval (first_attempt approved) na) x :: post ++ l6).
  { intros -> Ho. rewrite app_nil_r. split; [by apply log_first|]. destruct Ho as [->|(r & -> & Hnp & Hr)]; [done|].
    split; [congruence|]. intros res [= ->]. specialize (Hr _ eq_refl). destruct He as [Hx|(e & Hx & _)]; [|congruence].
    eexists. apply elem_of_app. right. rewrite <- Hr, Hx. left. }
  assert (Hfin : behaves (Done (finish_run first) : prog answer _) l6 o ->
            l6 = [] /\ (o = None \/ exists r, o = Some r /\ r <> Panic /\ forall res, r = Return res -> first.1 = Ok (run_output res))).
  { intros [-> Ho]. split; [done|]. destruct Ho as [->|Ho]; [by left|right]. eexists. split; [exact Ho|].
    unfold finish_run. destruct first.1; split; try done. by intros res [= <-]. }
  destruct first.1 as [out|[reason|[|output decision|output|signal|message]]] eqn:Hfst;
    try (apply Hfin in H6 as [??]; by apply Hend).
  destruct He as [<-|(e & [= <-] & ?)]; [|done].
  cbv zeta in H6. destruct (may_retry _ _ _ _ _) eqn:Hmay.
  2: { destruct H6 as [-> Ho]. apply Hend; [done|]. destruct Ho as [->|Ho]; [by left|right]. eexists. split; [exact Ho|]. done. }
  apply retry_spec in H6 as [[Hl6 Ho]|(mid & na' & x' & post' & -> & Hmid & Hpost' & Hgr & Hnp & Hres)].
  - split; [apply log_first; try done; by apply run_free_app|]. split.
    + intros ->. by destruct (Ho _ eq_refl) as [? ?].
    + intros res ->. by destruct (Ho _ eq_refl) as [? ?].
  - rewrite (app_assoc post mid). split.
    + apply log_retry; try done; [by apply run_free_app|]. destruct Hgr as [?|(action & ? & Hc)]; [by left|right].
      exists action. split; [done|]. destruct Hc as [Hc|?]; [left|by right]. by rewrite existsb_app, Hc, orb_true_r.
    + split; [intros ->; by eapply Hnp|]. intros res ->. rewrite (Hres _ eq_refl). eexists.
      apply elem_of_app. right. right. apply elem_of_app. right. left.
Qed.

(** Every log of a run is one of [tool_log]; a run never panics, and its output is
    that of an attempt. *)
Lemma run_phases log o :
  behaves (run (Out := Out) (Output := Output) os settings req) log o ->
  tool_log log /\ o <> Some Panic
  /\ forall res, o = Some (Return res) -> exists a, run_event a (Ok (run_output res)) ∈ log.
Proof.
  unfold run. cbv zeta. fold base_policy. fold requirement.
  intros [[-> H]|(r & l1 & l2 & -> & H1 & H2)]%behaves_bind.
  { apply settle_spec in H as (? & _). split; [by apply log_waiting|done]. }
  apply settle_spec in H1 as (Hl1 & Hp1 & Hs). destruct r as [approved|e|]; [|destruct H2 as [-> Ho]|done].
  2: { rewrite app_nil_r. split; [by apply log_waiting|]. by destruct Ho as [-> | ->]. }
  specialize (Hs approved eq_refl). fold (first_override approved) in H2. fold (first_plan approved) in H2.
  apply behaves_bind in H2 as [[-> H2]|(r & l3 & l4 & -> & H3 & H4)].
  { apply check_remote_spec in H2 as [? _]. split; [by apply log_waiting, run_free_app|done]. }
  apply check_remote_spec in H3 as [Hl3 Hp3]. rewrite (app_assoc l1 l3 l4).
  assert (Hpre : run_free (l1 ++ l3)) by by apply run_free_app. pose proof (settled_app _ _ l3 Hs) as Hs'.
  destruct r as [[]|e|]; [|destruct H4 as [-> Ho]|done].
  2: { rewrite app_nil_r. split; [by apply log_waiting|]. by destruct Ho as [-> | ->]. }
  destruct (if uses_executor_managed_process_sandbox req then _ else _) as [[]|reason] eqn:Hnat.
  2: { destruct H4 as [-> Ho]. rewrite app_nil_r. split; [by apply log_waiting|]. by destruct Ho as [-> | ->]. }
  apply (first_phase approved (l1 ++ l3) l4 o); [done|done| |exact H4].
  by destruct (uses_executor_managed_process_sandbox req); [left|right].
Qed.

End Run.
End Phases.
