(* ===== verification/ToolTheorems.v ===== *)
(** * What a tool call guarantees

    Consent comes before the attempt that needs it, the sandbox is left only with
    leave, and never by a policy that denies reads; what the store remembers was
    said by the user. *)

From S2P Require Import Prelude RustStr ShellSyntax PathUri PathLaws Permissions PermissionLaws PermissionTransforms.
From S2P Require Import ExecApproval Interaction ExecutorPolicy ToolSandbox ToolApprovals Orchestrator ToolRuntimes ToolPhases.

(** Splitting a log at an attempt *)
Section Split.
Context {A : Type} (f : A -> bool).

Lemma split_unique pre pre' x x' post post' :
  existsb f pre = false -> existsb f pre' = false -> f x = true -> f x' = true ->
  pre ++ x :: post = pre' ++ x' :: post' -> pre = pre' /\ x = x' /\ post = post'.
Proof.
  revert pre'. induction pre as [|y pre IH]; intros [|y' pre'] Hp Hp' Hx Hx' Heq; simpl in *.
  - by injection Heq as -> ->.
  - injection Heq as <- _. by rewrite Hx in Hp'.
  - injection Heq as <- _. by rewrite Hx' in Hp.
  - injection Heq as <- Heq. apply orb_false_iff in Hp as [_ Hp], Hp' as [_ Hp'].
    by destruct (IH pre' Hp Hp' Hx Hx' Heq) as (-> & ? & ?).
Qed.

(** The first element that satisfies [f], or the part after it *)
Lemma split_at_first pre x post before y after :
  existsb f pre = false -> f x = true -> f y = true -> pre ++ x :: post = before ++ y :: after ->
  (before = pre /\ y = x /\ after = post)
  \/ exists rest, before = pre ++ x :: rest /\ post = rest ++ y :: after.
Proof.
  revert before. induction pre as [|z pre IH]; intros [|b before] Hp Hx Hy Heq; simpl in *.
  - injection Heq as -> ->. by left.
  - injection Heq as <- ->. right. by exists before.
  - injection Heq as <- _. by rewrite Hy in Hp.
  - injection Heq as <- Heq. apply orb_false_iff in Hp as [_ Hp].
    destruct (IH before Hp Hx Hy Heq) as [(-> & -> & ->)|(rest & -> & ->)]; [by left|right; by exists rest].
Qed.

Lemma split_none l before y after : existsb f l = false -> f y = true -> l <> before ++ y :: after.
Proof. intros Hl Hy ->. rewrite existsb_app in Hl. simpl in Hl. by rewrite Hy, orb_true_r in Hl. Qed.
End Split.

Section Guarantees.
Context {UL : UrlLib} {GL : GlobLib} {SG : ShellGrammar} {SQ : ShellQuoting} {KJ : KeyJson} {Value Output Out : Type}.
Abbreviation answer := (tool_answer (Value := Value) (Output := Output) (Out := Out)).
Abbreviation event := (event answer).
Abbreviation ToolError := (ToolError (Output := Output)).

Section Run.
Context (os : TargetOs) {Req : Type} {tool : ToolRuntime (Value := Value) Req} {plain : PlainTool tool}.
Context (settings : TurnSettings) (req : Req).

Lemma run_event_attempt a b (x y : result ToolError Out) :
  run_event (Value := Value) a x = run_event b y -> a = b.
Proof. intros H. apply (f_equal (@projT1 ToolCall answer)) in H. simpl in H. by injection H. Qed.

(** An attempt on the log is the first one or follows the denial of the first *)
Lemma attempt_cases log before a (x : result ToolError Out) after :
  tool_log (Out := Out) (Output := Output) os settings req log -> log = before ++ run_event a x :: after ->
  exists approved pre network,
    settled settings req approved pre
    /\ (uses_executor_managed_process_sandbox req = true
        \/ ensure_native_sandbox (first_override os settings req approved)
             (attempt_sandbox (first_attempt os settings req approved)) = Ok tt)
    /\ ((before = pre /\ run_free pre /\ a = with_network_approval (first_attempt os settings req approved) network)
        \/ exists network' output decision mid,
             before = pre ++ run_event (with_network_approval (first_attempt os settings req approved) network')
                        (Err (Codex (SandboxDenied output decision))) :: mid
             /\ run_free pre /\ run_free mid
             /\ a = with_network_approval (retry_attempt os settings req approved) network
             /\ let context := network_context (first_plan os settings req approved) decision in
                may_retry os settings (base_policy req) decision context = true
                /\ (retry_bypass settings approved context = true \/ granted settings req (retry_context settings req context) mid)).
Proof.
  intros Hlog Heq.
  destruct Hlog as [pre Hf|approved pre network y post Hf Hs Hpost Hn|approved pre network output decision mid network' y post Hf Hs Hm Hpost Hn c Hmay Hg].
  - by apply (split_none is_run) in Heq.
  - apply (split_at_first is_run) in Heq as [(-> & Ha & ->)|(rest & -> & Heq)]; [| |done..].
    + apply run_event_attempt in Ha as ->. exists approved, pre, network. split; [done|]. split; [done|]. by left.
    + by apply (split_none is_run) in Heq.
  - apply (split_at_first is_run) in Heq as [(-> & Ha & ->)|(rest & -> & Heq)]; [| |done..].
    + apply run_event_attempt in Ha as ->. exists approved, pre, network. split; [done|]. split; [done|]. by left.
    + apply (split_at_first is_run) in Heq as [(-> & Ha & ->)|(rest' & -> & Heq)]; [| |done..].
      * apply run_event_attempt in Ha as ->. exists approved, pre, network'. split; [done|]. split; [done|]. right.
        exists network, output, decision, mid. by repeat split.
      * by apply (split_none is_run) in Heq.
Qed.

Lemma consent_spec log o before a (x : result ToolError Out) after :
  behaves (run (Out := Out) (Output := Output) os settings req) log o -> log = before ++ run_event a x :: after ->
  match requirement_of settings req with
  | ForbiddenCommand _ => False
  | NeedsApproval reason _ => granted settings req (approval_context settings reason None None) before
  | ExecApproval.Skip _ _ =>
      turn_strict_auto_review settings = true -> granted settings req (approval_context settings None None None) before
  end.
Proof.
  intros Hb Heq. destruct (run_phases os settings req log o Hb) as [Hlog _].
  destruct (attempt_cases _ _ _ _ _ Hlog Heq) as (approved & pre & network & Hs & _ & Hcase).
  assert (exists rest, before = pre ++ rest) as [rest ->].
  { destruct Hcase as [[-> _]|(? & ? & ? & ? & -> & _)]; [exists []; by rewrite app_nil_r|by eexists]. }
  apply (settled_app _ _ _ _ rest) in Hs. revert Hs. unfold settled, requirement.
  destruct (requirement_of settings req); [|by intros [_ ?]|done].
  destruct (turn_strict_auto_review settings); [by intros [_ ?]|done].
Qed.


(** ** Leaving the sandbox *)

(** A yes after the sandbox denied the first attempt, or none needed *)
Definition retry_leave (before : list event) : Prop :=
  exists approved pre first output decision mid,
    before = pre ++ run_event first (Err (Codex (SandboxDenied output decision))) :: mid
    /\ escalate_on_failure = true
    /\ settled settings req approved pre
    /\ let context := network_context (first_plan os settings req approved) decision in
       (wants_no_sandbox_approval (step_approval_policy settings) = true \/ is_Some context)
       /\ (granted settings req (retry_context settings req context) mid
           \/ turn_strict_auto_review settings = false /\ context = None
              /\ should_bypass_approval (step_approval_policy settings) approved = true).

Lemma may_retry_inv fs decision network :
  may_retry os settings fs decision network = true ->
  escalate_on_failure = true /\ (wants_no_sandbox_approval (step_approval_policy settings) = true \/ is_Some network).
Proof.
  unfold may_retry. rewrite !andb_true_iff, orb_true_iff, !andb_true_iff, !bool_decide_eq_true. intros [[[_ He] Hw] _].
  split; [done|]. destruct Hw as [?|[[_ ?] _]]; auto.
Qed.

Lemma leave_spec log o before a (x : result ToolError Out) after :
  behaves (run (Out := Out) (Output := Output) os settings req) log o -> log = before ++ run_event a x :: after ->
  sandbox_requested a = false ->
  should_sandbox os (attempt_permissions a) sandbox_preference (enforce_managed_network a) = true ->
  unsandboxed_execution_allowed os (base_policy req) = true
  /\ ((run_free before /\ ((exists amendment, requirement_of settings req = ExecApproval.Skip true amendment)
                          \/ tool_sandbox_permissions req = RequireEscalated))
      \/ retry_leave before).
Proof.
  intros Hb Heq Hreq Hshould. destruct (run_phases os settings req log o Hb) as [Hlog _].
  destruct (attempt_cases _ _ _ _ _ Hlog Heq) as (approved & pre & network & Hs & _ & Hcase).
  destruct Hcase as [(-> & Hf & ->)|(network' & output & decision & mid & -> & Hf & Hm & -> & Hmay & Hg)].
  - change (first_requested os (first_override os settings req approved) (first_plan os settings req approved) = false) in Hreq.
    change (plan_requests_sandbox os (first_plan os settings req approved) = true) in Hshould.
    unfold first_requested in Hreq. rewrite Hshould in Hreq.
    destruct (first_override os settings req approved) eqn:Ho; try done.
    unfold first_override, sandbox_override_for_first_attempt in Ho.
    destruct (unsandboxed_execution_allowed os (base_policy req)); [|simpl in Ho; by destruct (_ && _)]. split; [done|]. left.
    split; [done|]. simpl in Ho. fold (requirement settings req). destruct (requirement settings req) as [[] am|reason am|reason]; eauto;
      (destruct (tool_sandbox_permissions req); simpl in Ho; try done; by right).
  - change (negb (unsandboxed_execution_allowed os (base_policy req))
            && plan_requests_sandbox os (first_plan os settings req approved) = false) in Hreq.
    change (plan_requests_sandbox os (first_plan os settings req approved) = true) in Hshould.
    rewrite Hshould, andb_true_r in Hreq.
    apply negb_false_iff in Hreq. split; [done|]. right. apply may_retry_inv in Hmay as [He Hw].
    exists approved, pre. eexists _, output, decision, mid. split; [done|]. split; [done|]. split; [done|]. cbv zeta. split; [done|].
    destruct Hg as [Hg|Hg]; [right|by left]. unfold retry_bypass in Hg. rewrite !andb_true_iff, !negb_true_iff in Hg.
    destruct Hg as [[? ?] Hn]. apply bool_decide_eq_false in Hn. split; [done|]. split; [|done].
    destruct (network_context _ _); [|done]. destruct Hn. by eexists.
Qed.


End Run.
End Guarantees.

(** ** Denied reads *)

(** A denial that concerns some path on the platform: not one of the symbols that
    stand for nothing *)
Section DeniedReads.
Context {UL : UrlLib} {GL : GlobLib}.

Definition effective_deny (convention : PathConvention) (e : FileSystemSandboxEntry) : bool :=
  denies e
  && match entry_path e with
     | Special Minimal | Special (Unknown _ _) => false
     | Special SlashTmp => negb (convention_eqb convention Windows)
     | _ => true
     end.

Definition denies_reads (convention : PathConvention) (policy : FileSystemSandboxPolicy) : Prop :=
  kind policy = Restricted /\ exists e, e ∈ entries policy /\ effective_deny convention e = true.

Lemma access_eqb_eq a b : access_eqb a b = true -> a = b.
Proof. by destruct a, b. Qed.

Lemma deny_not_overridden policy e c : access e = Deny -> has_same_target_write_override policy e c = false.
Proof.
  intros Ha. unfold has_same_target_write_override. rewrite Ha. apply not_true_iff_false. intros (x & _ & Hx)%existsb_exists.
  by destruct (access x).
Qed.

Lemma denies_reads_narrows c policy : denies_reads c policy -> has_write_narrowing_entries policy c = true.
Proof.
  intros (Hk & e & He & Hd). unfold has_write_narrowing_entries. rewrite Hk. simpl. apply existsb_exists. exists e.
  split; [by apply list_elem_of_In|]. unfold effective_deny, denies in Hd. apply andb_true_iff in Hd as [Ha Hp].
  apply access_eqb_eq in Ha. rewrite Ha. simpl. rewrite !(deny_not_overridden policy e c Ha).
  by destruct (entry_path e) as [| |[]].
Qed.

Lemma denies_reads_restricts os policy :
  denies_reads (native_convention os) policy -> unsandboxed_execution_allowed os policy = false.
Proof.
  intros (Hk & e & He & Hd). unfold unsandboxed_execution_allowed, has_denied_read_restrictions_for_convention.
  rewrite Hk. apply negb_false_iff. simpl. apply existsb_exists. exists e. split; [by apply list_elem_of_In|].
  unfold effective_deny, denies in Hd. apply andb_true_iff in Hd as [-> Hp]. simpl. by destruct (entry_path e) as [| |[]].
Qed.

Lemma denies_reads_sandboxed os profile active :
  denies_reads (native_convention os) (file_system_sandbox_policy profile) -> should_sandbox os profile Auto active = true.
Proof.
  intros Hd. pose proof (denies_reads_narrows _ _ Hd) as Hn. destruct Hd as [Hk _].
  unfold should_sandbox, to_runtime_permissions, should_require_platform_sandbox. rewrite Hk. destruct active; [done|].
  destruct (is_enabled _); [|done]. simpl. unfold has_full_disk_write_access_for_convention. rewrite Hk, Hn. by rewrite andb_false_r.
Qed.

(** The policy of an approved command keeps a denial. *)
Lemma effective_eqb c e e' : entry_eqb e e' = true -> effective_deny c e = effective_deny c e'.
Proof.
  unfold entry_eqb, effective_deny, denies. rewrite !andb_true_iff. intros [[Hp Ha] _]. apply access_eqb_eq in Ha as ->. f_equal.
  destruct (entry_path e) as [| |[]], (entry_path e') as [| |[]]; try done.
Qed.

Lemma materialized_denial es roots es' c e :
  try_materialize_entries es roots = Some es' -> e ∈ es -> effective_deny c e = true ->
  (workspace_scoped (entry_path e) = None \/ roots <> []) ->
  exists e', e' ∈ es' /\ effective_deny c e' = true.
Proof.
  revert es'. induction es as [|x es IH]; intros es' Hm He Hd Hroots; [by apply elem_of_nil in He|]. simpl in Hm.
  destruct (workspace_scoped (entry_path x)) as [[sub glob]|] eqn:Hx.
  - destruct (_ && _); [done|]. destruct (try_materialize_entries es roots) as [rest|]; [|done]. injection Hm as <-.
    apply elem_of_cons in He as [->|He].
    2: { destruct (IH rest eq_refl He Hd Hroots) as (e' & ? & ?). exists e'. split; [apply elem_of_app; by right|done]. }
    destruct Hroots as [?|Hne]; [congruence|]. destruct roots as [|r roots]; [done|]. simpl.
    assert (Ha : access x = Deny) by (unfold effective_deny, denies in Hd; apply andb_true_iff in Hd as [? _]; by apply access_eqb_eq).
    assert (exists e', materialize_under x sub glob r = Some e' /\ effective_deny c e' = true) as (e' & -> & He').
    { unfold materialize_under. rewrite Ha. simpl. case_match; (eexists; split; [done|]); unfold effective_deny, denies; simpl; [|done].
      by destruct glob. }
    exists e'. split; [by left|done].
  - destruct (try_materialize_entries es roots) as [rest|]; [|done]. injection Hm as <-.
    apply elem_of_cons in He as [->|He]; [exists x; split; [by left|done]|].
    destruct (IH rest eq_refl He Hd Hroots) as (e' & ? & ?). exists e'. split; [by right|done].
Qed.

Lemma workspace_symbol_scoped e : workspace_symbol e = false -> workspace_scoped (entry_path e) = None.
Proof.
  unfold workspace_symbol, workspace_scoped. destruct (entry_path e) as [| |[]]; try done.
  unfold starts_with. by destruct (strip_prefix _ _).
Qed.

Lemma approved_denies_reads {laws : UrlLaws UL} c policy ctx : denies_reads c policy -> denies_reads c (for_approved_command policy ctx).
Proof.
  intros Hd. unfold for_approved_command. pose proof Hd as (Hk & e & He & Heff). rewrite Hk. cbn [is_restricted negb].
  set (approved := preserve_deny_read_restrictions_from (restricted [new_entry (Special Root) Write]) policy).
  destruct (preserve_keeps_denials (restricted [new_entry (Special Root) Write]) policy) as (Hkeep & _).
  assert (Ha : access e = Deny) by (unfold effective_deny, denies in Heff; apply andb_true_iff in Heff as [? _]; by apply access_eqb_eq).
  destruct (Hkeep (ltac:(done)) e He Ha) as [Hkr Hc]. fold approved in Hkr, Hc. clear Hkeep.
  apply existsb_exists in Hc as (e' & He'%list_elem_of_In & Heq). rewrite (effective_eqb c _ _ Heq) in Heff.
  destruct (is_empty (workspace_roots ctx) && existsb workspace_symbol (entries approved)) eqn:Hsym; [done|].
  destruct (try_materialize_entries (entries approved) (workspace_roots ctx)) as [es|] eqn:Hm; [|done].
  destruct (materialized_denial _ _ _ c e' Hm He' Heff) as (d & Hdes & Hdeff).
  { destruct (workspace_roots ctx) as [|r rs]; [left|by right]. simpl in Hsym. apply workspace_symbol_scoped.
    by apply (existsb_false workspace_symbol (entries approved)). }
  destruct (file_system_root ctx); [|done]. destruct (try_new_with_context _ _) as [matcher|]; [|done].
  destruct (_ || _); [done|]. destruct (open_metadata _ _ _ _) as [opened|]; [|done].
  split; [done|]. exists d. split; [apply elem_of_app; by left|done].
Qed.
End DeniedReads.

Section StaySandboxed.
Context {UL : UrlLib} {laws : UrlLaws UL} {GL : GlobLib} {SG : ShellGrammar} {SQ : ShellQuoting} {KJ : KeyJson} {Value Output Out : Type}.
Context (os : TargetOs) {Req : Type} {tool : ToolRuntime (Value := Value) Req} {plain : PlainTool tool}.
Context (settings : TurnSettings) (req : Req).
Abbreviation ToolError := (ToolError (Output := Output)).

Hypothesis auto : sandbox_preference = Auto.
Hypothesis denied : denies_reads (native_convention os) (base_policy req).

Lemma denied_override approved :
  first_override os settings req approved = NoOverride \/ first_override os settings req approved = EscalatedSandboxWithRestrictions.
Proof.
  unfold first_override, sandbox_override_for_first_attempt. rewrite (denies_reads_restricts os (base_policy req) denied). simpl.
  destruct (_ && _); auto.
Qed.

(** On this host the plan of a run that starts asks for a sandbox. *)
Lemma denied_plan_sandboxed approved :
  (uses_executor_managed_process_sandbox req = true
   \/ ensure_native_sandbox (first_override os settings req approved) (attempt_sandbox (first_attempt os settings req approved)) = Ok tt) ->
  plan_requests_sandbox os (first_plan os settings req approved) = true.
Proof.
  intros Hnat. unfold plan_requests_sandbox. rewrite auto.
  assert (Hbase : should_sandbox os (base_permissions req) Auto (plan_managed_network (first_plan os settings req approved)) = true)
    by by apply denies_reads_sandboxed.
  destruct (denied_override approved) as [Ho|Ho].
  { unfold first_plan, make_plan in *. rewrite Ho in *. exact Hbase. }
  destruct (uses_executor_managed_process_sandbox req) eqn:Hex.
  - unfold first_plan, make_plan in *. rewrite Hex in *. cbn [plan_permissions]. rewrite option_fmap_id.
    destruct (escalation _ _).1 as [p|] eqn:He; [|exact Hbase]. cbn [default]. apply denies_reads_sandboxed.
    assert (Hb : denies_reads (native_convention os) (file_system_sandbox_policy (env_permission_profile (turn_environment req)))).
    { revert denied. unfold base_policy, base_permissions. by rewrite Hex. }
    rewrite Ho in He. unfold escalation in He. cbn [fst] in He. destruct (_ && _); [|done]. injection He as <-.
    pose proof (approved_denies_reads _ _ (policy_context (turn_environment req)) Hb) as Hfs.
    destruct Hfs as (Hk & d & Hd & Heff). unfold from_runtime_permissions_with_enforcement. rewrite Hk.
    split; [done|]. by exists d.
  - destruct Hnat as [?|Hnat]; [done|]. rewrite Ho in Hnat. unfold ensure_native_sandbox in Hnat.
    unfold first_attempt, attempt_of, requested_sandbox in Hnat. cbn [attempt_sandbox] in Hnat. rewrite Ho in Hnat. cbn [first_requested] in Hnat.
    unfold plan_requests_sandbox in Hnat. rewrite auto in Hnat.
    destruct (should_sandbox os (plan_permissions (first_plan os settings req approved)) Auto _); [done|]. done.
Qed.


End StaySandboxed.
