(* ===== verification/SessionApprovals.v ===== *)
(** * Approvals for the session

    The store of approvals is shared by all tasks of a session. A session is any
    interleaving of questions that go through the store, each a run of [cached];
    what a task reads is what the writes before it left. An answer from the store
    always goes back to answers of the user. *)

From S2P Require Import Prelude RustStr PathUri Permissions PermissionTransforms.
From S2P Require Import ShellSyntax ExecApproval Interaction ToolSandbox ToolApprovals.

Section Session.
Context {UL : UrlLib} {GL : GlobLib} {SG : ShellGrammar} {SQ : ShellQuoting} {KJ : KeyJson} {Value Output Out : Type}.
Abbreviation answer := (tool_answer (Value := Value) (Output := Output) (Out := Out)).
Abbreviation event := (event answer).
Abbreviation call := (ToolCall (Value := Value)).

(** ** Sessions *)

Definition put_all (store : ApprovalStore) (keys : list StoreKey) : ApprovalStore :=
  foldl (fun s k => store_put s k ApprovedForSession) store keys.

Definition after_event (store : ApprovalStore) (e : event) : ApprovalStore :=
  match e with existT (PutApprovals keys) _ => put_all store keys | _ => store end.
Definition reads (store : ApprovalStore) (e : event) : Prop :=
  match e with
  | existT c x => match c as c return answer c -> Prop with
                  | ReadApprovals _ => fun s => s = store
                  | _ => fun _ => True
                  end x
  end.
Fixpoint coherent (store : ApprovalStore) (log : list event) : Prop :=
  match log with
  | [] => True
  | e :: log => reads store e /\ coherent (after_event store e) log
  end.

(** The events of one task *)
Definition project (i : nat) (log : list (nat * event)) : list event :=
  snd <$> List.filter (fun p => p.1 =? i) log.

Record session (tasks : list (list StoreKey * UserQuestion (Value := Value))) (log : list (nat * event)) : Prop := {
  session_tasks : forall i, match tasks !! i with
                            | Some (keys, q) => exists o, behaves (cached (Output := Output) keys q) (project i log) o
                            | None => project i log = []
                            end;
  session_store : coherent ∅ (snd <$> log);
}.

(** ** The store *)

Lemma store_put_lookup store key s d :
  store_put store key ApprovedForSession !! s = Some d -> key_json key = Some s \/ store !! s = Some d.
Proof.
  unfold store_put. destruct (key_json key) as [t|]; [|by right]. destruct (decide (t = s)) as [->|Hne]; [by left|].
  unfold ApprovalStore in *. rewrite lookup_insert_ne by done. by right.
Qed.

Lemma put_all_lookup keys store s d :
  put_all store keys !! s = Some d -> (exists key, key ∈ keys /\ key_json key = Some s) \/ store !! s = Some d.
Proof.
  revert store. induction keys as [|k keys IH]; intros store; [by right|]. simpl. intros [(key & ? & ?)|H]%IH.
  - left. exists key. split; [by right|done].
  - apply store_put_lookup in H as [?|?]; [left|by right]. exists k. split; [by left|done].
Qed.

(** A key is in the store that is read only if it was put there before. *)
Lemma coherent_read store log before (keys : list StoreKey) (s : ApprovalStore) after key d :
  coherent store log -> log = before ++ existT (ReadApprovals keys : call) s :: after -> s !! key = Some d ->
  store !! key = Some d
  \/ exists b ks u a, before = b ++ existT (PutApprovals ks : call) u :: a /\ exists k, k ∈ ks /\ key_json k = Some key.
Proof.
  revert store log. induction before as [|e before IH]; intros store log Hc -> Hs; simpl in Hc.
  - destruct Hc as [-> _]. by left.
  - destruct Hc as [_ Hc]. destruct (IH _ _ Hc eq_refl Hs) as [H|(b & ks & u & a & -> & Hk)].
    2: { right. by exists (e :: b), ks, u, a. }
    destruct e as [[] x]; try (by left). simpl in H. apply put_all_lookup in H as [(k & ? & ?)|?]; [|by left].
    right. exists [], keys0, x, before. split; [done|]. by exists k.
Qed.

(** ** One task *)

(** A task writes its keys only after the user said yes for the session. *)
Lemma cached_put keys q ks (u : unit) pre post o :
  behaves (cached (Value := Value) (Output := Output) (Out := Out) keys q) (pre ++ existT (PutApprovals ks : call) u :: post) o ->
  ks = keys /\ existT (AskUser q : call) ApprovedForSession ∈ pre.
Proof.
  assert (Hnil : forall (l : list event) e, l ++ e :: post <> []) by (intros [] ?; done).
  unfold cached, with_cached_approval. destruct (is_empty keys); cbn.
  - intros [[H _]|(d & l & H & -> & _)]; [by apply Hnil in H|]. destruct pre as [|? [|]]; by simplify_list_eq.
  - intros [[H _]|(s & l & H & Hb)]; [by apply Hnil in H|]. destruct pre as [|e pre]; [done|]. injection H as -> <-.
    destruct (forallb _ _); [by destruct Hb as [H _]; apply Hnil in H|].
    destruct Hb as [[H _]|(d & l & H & Hb)]; [by apply Hnil in H|]. destruct pre as [|e pre]; [done|]. injection H as -> <-.
    case_bool_decide as Hd; cbn in Hb; [|by destruct Hb as [H _]; apply Hnil in H].
    destruct Hb as [[H _]|(v & l & H & -> & _)]; [by apply Hnil in H|].
    destruct pre as [|e pre]; [|injection H as -> H; by apply Hnil in H].
    apply (f_equal head), (f_equal (option_map (@projT1 call answer))) in H. simpl in H. injection H as ->.
    split; [done|]. rewrite Hd. right. left.
Qed.

Lemma project_app i l k : project i (l ++ k) = project i l ++ project i k.
Proof. unfold project. by rewrite List.filter_app, fmap_app. Qed.
Lemma project_elem i log e : e ∈ project i log -> (i, e) ∈ log.
Proof.
  unfold project. intros ([j e'] & -> & Hin)%list_elem_of_fmap. apply list_elem_of_In, filter_In in Hin as [Hin Hj].
  apply Nat.eqb_eq in Hj as <-. by apply list_elem_of_In.
Qed.


End Session.
