(* ===== verification/ToolConsent.v ===== *)
(** * Commands and patches, from the call to the attempt

    The tools of [ToolRuntimes.v] and [ExecTool.v] in the orchestrator: who said
    yes before a command leaves the sandbox, and what a patch that nobody was
    asked about can write. *)

From S2P Require Import Prelude RustStr ExecPolicy PolicyBuild ShellSyntax CommandSafety PowerShell.
From S2P Require Import PathUri Permissions PermissionTransforms.
From S2P Require Import ExecApproval ExecRules ApprovalTheorems Interaction ExecutorPolicy ToolSandbox ToolApprovals Orchestrator.
From S2P Require Import ToolRuntimes ExecTool ToolPhases ToolTheorems.
Import Decisions Rules Policies Builder.

(** ** Patches that are applied without asking *)

Section Assess.
Context {UL : UrlLib} {GL : GlobLib} {IoError : Type}.
Implicit Types (m : PatchPolicyMatcher (IoError := IoError)) (action : ApplyPatchAction).

Definition may_write m (p : Url) : Prop := matcher_can_write_path m p = Ok true.

(** The policy lets a change write its path and, for a move, the destination *)
Definition change_within m (c : Url * ApplyPatchFileChange) : Prop :=
  may_write m c.1 /\ forall diff dest content, c.2 = UpdateChange diff (Some dest) content -> may_write m dest.

(** The first of the two checks that does not succeed *)
Inductive change_stops m : Url * ApplyPatchFileChange -> result IoError bool -> Prop :=
| path_stops p change r : matcher_can_write_path m p = r -> r <> Ok true -> change_stops m (p, change) r
| destination_stops p diff dest content r :
    may_write m p -> matcher_can_write_path m dest = r -> r <> Ok true ->
    change_stops m (p, UpdateChange diff (Some dest) content) r.

Definition full_disk_write m : bool := has_full_disk_write_access_with_context (configured_policy m) (matcher_context m).

(** The policy lets a patch write everything it touches *)
Definition patch_within m action : Prop := full_disk_write m = true \/ Forall (change_within m) (changes action).
(** A check of the patch does not succeed, after those before it did *)
Definition patch_stops m action (r : result IoError bool) : Prop :=
  full_disk_write m = false
  /\ exists before c after, changes action = before ++ c :: after /\ Forall (change_within m) before /\ change_stops m c r.
Definition patch_outside m action : Prop := patch_stops m action (Ok false).
Definition patch_check_fails m action (e : IoError) : Prop := patch_stops m action (Err e).

#[local] Instance ok_true_dec (r : result IoError bool) : base.Decision (r = Ok true).
Proof. destruct r as [[]|]; [by left|by right..]. Defined.

Lemma change_cases m c : change_within m c \/ exists r, change_stops m c r.
Proof.
  destruct c as [p change]. destruct (decide (matcher_can_write_path m p = Ok true)) as [Hp|Hp]; [|right; eexists; by apply path_stops].
  destruct change as [| |diff [dest|] content]; try (by left; split).
  destruct (decide (matcher_can_write_path m dest = Ok true)) as [Hd|Hd]; [left|right; eexists; by eapply destination_stops].
  split; [done|]. by intros ? ? ? [= -> -> ->].
Qed.

Lemma all_writable_within m c paths : change_within m c -> all_writable m (touched c ++ paths) = all_writable m paths.
Proof.
  destruct c as [p change]. intros [Hp Hd]. simpl in Hp.
  destruct change as [| |diff [dest|] content]; simpl; rewrite Hp; try done. simpl. by rewrite (Hd diff dest content eq_refl).
Qed.

Lemma all_writable_stops m c r paths : change_stops m c r -> all_writable m (touched c ++ paths) = r /\ r <> Ok true.
Proof.
  intros Hc. split; [|by destruct Hc].
  destruct Hc as [p change r <- Hr|p diff dest content r Hp <- Hr].
  - destruct change; simpl; by destruct (matcher_can_write_path m p) as [[]|].
  - simpl. rewrite Hp. simpl. by destruct (matcher_can_write_path m dest) as [[]|].
Qed.

Lemma all_writable_changes m before cs :
  Forall (change_within m) before -> all_writable m ((before ++ cs) ≫= touched) = all_writable m (cs ≫= touched).
Proof. induction 1 as [|c before Hc _ IH]; [done|]. csimpl. by rewrite all_writable_within. Qed.

Lemma constrained_within m action : patch_within m action -> is_write_patch_constrained_to_writable_paths action m = Ok true.
Proof.
  unfold is_write_patch_constrained_to_writable_paths. fold (full_disk_write m). intros [-> |Hall]; [done|].
  destruct (full_disk_write m); [done|]. rewrite <- (app_nil_r (changes action)). by rewrite all_writable_changes.
Qed.

Lemma constrained_stops m action r : patch_stops m action r -> is_write_patch_constrained_to_writable_paths action m = r.
Proof.
  unfold is_write_patch_constrained_to_writable_paths. fold (full_disk_write m). intros (-> & b & c & a & -> & Hb & Hc).
  rewrite all_writable_changes by done. csimpl. by apply all_writable_stops.
Qed.

Lemma patch_cases m action : patch_within m action \/ exists r, r <> Ok true /\ patch_stops m action r.
Proof.
  unfold patch_within, patch_stops. destruct (full_disk_write m); [by left; left|].
  induction (changes action) as [|c cs IH]; [left; right; constructor|].
  destruct (change_cases m c) as [Hc|[r Hr]].
  - destruct IH as [[?|IH]|(r & Hr & _ & b & c' & a & -> & Hb & Hc')]; [done|left; right; by constructor|].
    right. exists r. split; [done|]. split; [done|]. exists (c :: b), c', a. split; [done|]. split; [by constructor|done].
  - right. exists r. split; [by destruct Hr|]. split; [done|]. by exists [], c, cs.
Qed.

Lemma constrained_spec m action :
  match is_write_patch_constrained_to_writable_paths action m with
  | Ok true => patch_within m action
  | Ok false => patch_outside m action
  | Err e => patch_check_fails m action e
  end.
Proof.
  destruct (patch_cases m action) as [H|(r & Hr & H)]; [by rewrite constrained_within|].
  rewrite (constrained_stops _ _ _ H). by destruct r as [[]|].
Qed.

(** Where no one can be asked outside the sandbox *)
Definition safely_applied (os : TargetOs) (profile : PermissionProfile) m action : Prop :=
  patch_within m action /\ (without_outer_sandbox profile = true \/ sandbox_available os m = true).
Definition unsafe_or_unsandboxed (os : TargetOs) (profile : PermissionProfile) m action : Prop :=
  patch_outside m action
  \/ patch_within m action /\ without_outer_sandbox profile = false /\ sandbox_available os m = false.

Lemma assess_spec os action policy profile m :
  match assess_patch_safety os action policy profile m with
  | Ok AutoApprove => changes action <> [] /\ policy <> UnlessTrusted /\ safely_applied os profile m action
  | Ok AskUserFirst =>
      changes action <> []
      /\ (policy = UnlessTrusted
          \/ rejects_sandbox_approval policy = false /\ unsafe_or_unsandboxed os profile m action)
  | Ok (Reject _) =>
      changes action = []
      \/ policy <> UnlessTrusted /\ rejects_sandbox_approval policy = true /\ unsafe_or_unsandboxed os profile m action
  | Err e => changes action <> [] /\ policy <> UnlessTrusted /\ patch_check_fails m action e
  end.
Proof.
  unfold assess_patch_safety. destruct (changes action) as [|c cs] eqn:Hch; [by left|]. cbn [is_empty].
  assert (Hne : c :: cs <> []) by done.
  assert (Hchecked : policy <> UnlessTrusted ->
    match (constrained ← is_write_patch_constrained_to_writable_paths action m;
           if constrained && (without_outer_sandbox profile || sandbox_available os m) then Ok AutoApprove
           else if rejects_sandbox_approval policy
           then Ok (Reject (patch_rejection_reason profile (configured_policy m) (matcher_context m)))
           else Ok AskUserFirst) with
    | Ok AutoApprove => c :: cs <> [] /\ policy <> UnlessTrusted /\ safely_applied os profile m action
    | Ok AskUserFirst => c :: cs <> [] /\ (policy = UnlessTrusted
          \/ rejects_sandbox_approval policy = false /\ unsafe_or_unsandboxed os profile m action)
    | Ok (Reject _) => c :: cs = [] \/ policy <> UnlessTrusted /\ rejects_sandbox_approval policy = true
                                      /\ unsafe_or_unsandboxed os profile m action
    | Err e => c :: cs <> [] /\ policy <> UnlessTrusted /\ patch_check_fails m action e
    end).
  { intros Hp. pose proof (constrained_spec m action) as Hc. unfold safely_applied, unsafe_or_unsandboxed.
    destruct (is_write_patch_constrained_to_writable_paths action m) as [[]|e]; cbn; [|destruct (rejects_sandbox_approval policy); tauto|done].
    destruct (without_outer_sandbox profile), (sandbox_available os m), (rejects_sandbox_approval policy); cbn; tauto. }
  destruct policy; try (by apply Hchecked). split; [done|by left].
Qed.

(** C28: a patch is applied without asking exactly if it changes something, the
    policy is not to ask about everything, each path it touches may be written,
    the destinations of moves included, and a sandbox can enforce that or none is
    called for. Otherwise it is asked about, or rejected where asking is ruled
    out; an empty patch is rejected, and only a failed check is an error. *)
Theorem assess_patch_exact os action policy profile m :
  (assess_patch_safety os action policy profile m = Ok AutoApprove
   <-> changes action <> [] /\ policy <> UnlessTrusted /\ safely_applied os profile m action)
  /\ (assess_patch_safety os action policy profile m = Ok AskUserFirst
      <-> changes action <> []
          /\ (policy = UnlessTrusted \/ rejects_sandbox_approval policy = false /\ unsafe_or_unsandboxed os profile m action))
  /\ ((exists reason, assess_patch_safety os action policy profile m = Ok (Reject reason))
      <-> changes action = []
          \/ policy <> UnlessTrusted /\ rejects_sandbox_approval policy = true /\ unsafe_or_unsandboxed os profile m action)
  /\ forall e, assess_patch_safety os action policy profile m = Err e
       <-> changes action <> [] /\ policy <> UnlessTrusted /\ patch_check_fails m action e.
Proof.
  pose proof (assess_spec os action policy profile m) as H.
  assert (Hmake : changes action <> [] -> policy <> UnlessTrusted ->
    assess_patch_safety os action policy profile m
    = (constrained ← is_write_patch_constrained_to_writable_paths action m;
       if constrained && (without_outer_sandbox profile || sandbox_available os m) then Ok AutoApprove
       else if rejects_sandbox_approval policy
       then Ok (Reject (patch_rejection_reason profile (configured_policy m) (matcher_context m)))
       else Ok AskUserFirst)).
  { unfold assess_patch_safety. by destruct (changes action), policy. }
  assert (Hunsafe : changes action <> [] -> policy <> UnlessTrusted -> unsafe_or_unsandboxed os profile m action ->
    assess_patch_safety os action policy profile m
    = if rejects_sandbox_approval policy
      then Ok (Reject (patch_rejection_reason profile (configured_policy m) (matcher_context m))) else Ok AskUserFirst).
  { intros Hne Hp [Hout|(Hin & Hw & Ha)]; rewrite (Hmake Hne Hp);
      [by rewrite (constrained_stops m action _ Hout)|by rewrite (constrained_within m action Hin), Hw, Ha]. }
  assert (Htrusted : rejects_sandbox_approval policy = true -> policy <> UnlessTrusted) by by intros ? ->.
  split_and!; [split..|]; [intros Heq; by rewrite Heq in H| |intros Heq; by rewrite Heq in H| |intros [r Heq]; by rewrite Heq in H| |].
  - intros (Hne & Hp & Hin & Hor). rewrite (Hmake Hne Hp), (constrained_within m action Hin). cbn.
    by rewrite (proj2 (orb_true_iff _ _) Hor).
  - intros [Hne [->|[Hr Hu]]].
    + unfold assess_patch_safety. by destruct (changes action).
    + destruct (decide (policy = UnlessTrusted)) as [->|Hp]; [unfold assess_patch_safety; by destruct (changes action)|].
      by rewrite (Hunsafe Hne Hp Hu), Hr.
  - intros [Hnil|(Hp & Hr & Hu)]; [unfold assess_patch_safety; rewrite Hnil; by eexists|].
    destruct (decide (changes action = [])) as [Hnil|Hne]; [unfold assess_patch_safety; rewrite Hnil; by eexists|].
    rewrite (Hunsafe Hne Hp Hu), Hr. by eexists.
  - intros e. split; [intros Heq; by rewrite Heq in H|]. intros (Hne & Hp & Hf).
    by rewrite (Hmake Hne Hp), (constrained_stops m action _ Hf).
Qed.

End Assess.

(** ** The tools ask for their own actions *)

Section Consent.
Context {UL : UrlLib} {GL : GlobLib} {SG : ShellGrammar} {SQ : ShellQuoting} {KJ : KeyJson} {Value Output Out IoError : Type}.
Abbreviation answer := (tool_answer (Value := Value) (Output := Output) (Out := Out)).
Abbreviation event := (event answer).
Abbreviation ToolError := (ToolError (Output := Output)).

#[export] Instance exec_plain os : PlainTool (Value := Value) (UnifiedExecRuntime os).
Proof. by intros req id action [= <-]. Qed.
#[export] Instance patch_plain : PlainTool (Value := Value) ApplyPatchRuntime.
Proof. by intros req id action [= <-]. Qed.

(** Where nobody said yes, nothing was settled by consent, for an action that is
    not a patch with permissions *)
Lemma unsettled {Req} {tool : ToolRuntime (Value := Value) Req} settings (req : Req) approved (log : list event) :
  existsb grants log = false ->
  (forall ctx action, approval_action req (tool_call_id settings) = Ok action -> preapproved_patch action ctx = false) ->
  settled settings req approved log ->
  approved = false /\ exists bypass amendment, requirement_of settings req = ExecApproval.Skip bypass amendment.
Proof.
  intros Hno Hpre. assert (Hng : forall ctx, ~ granted settings req ctx log).
  { intros ctx (action & Ha & [Hc|Hc]); [by rewrite Hno in Hc|by rewrite (Hpre _ _ Ha) in Hc]. }
  unfold settled, requirement. destruct (requirement_of settings req); [|by intros [_ ?%Hng]|done].
  destruct (turn_strict_auto_review settings); [by intros [_ ?%Hng]|]. eauto.
Qed.

(** A retry outside the sandbox has a yes before it. *)
Lemma retry_leave_consent os {Req} {tool : ToolRuntime (Value := Value) Req} settings (req : Req) (before : list event) :
  should_bypass_approval = default_should_bypass_approval ->
  wants_no_sandbox_approval Never = false ->
  (forall ctx action, approval_action req (tool_call_id settings) = Ok action -> preapproved_patch action ctx = false) ->
  retry_leave os settings req before -> existsb grants before = true.
Proof.
  intros Hby Hwants Hpre (approved & pre & first & output & decision & mid & -> & _ & Hs & Hw & Hg).
  rewrite existsb_app. simpl. rewrite !orb_true_iff. destruct Hg as [(action & Ha & [Hc|Hc])|(_ & Hnone & Hb)].
  - by right.
  - by rewrite (Hpre _ _ Ha) in Hc.
  - destruct (existsb grants pre) eqn:Hno; [by left|]. destruct (unsettled _ _ _ _ Hno Hpre Hs) as [-> _].
    rewrite Hby in Hb. apply bool_decide_eq_true in Hb. rewrite Hb, Hwants in Hw. rewrite Hnone in Hw.
    by destruct Hw as [|[]].
Qed.

(** ** Patches *)

Definition call_context (call : PatchCall) (action : ApplyPatchAction) : FileSystemSandboxPolicyContext :=
  context_for_cwd (policy_context (call_environment call)) (patch_cwd action).
Definition call_route (call : PatchCall) : PatchSandboxRoute :=
  let env := call_environment call in
  if is_remote env then ExecutorManaged
  else Platform (windows_sandbox_level_for_legacy_checks (windows_sandbox_type env) (env_windows_sandbox_level env)).
(** The policy a patch is checked by: that of the environment with what the turn granted *)
Definition call_file_policy (call : PatchCall) : FileSystemSandboxPolicy :=
  effective_file_system_sandbox_policy (file_system_sandbox_policy (env_permission_profile (call_environment call))) (call_granted call).

Lemma patch_request_inv os (local : FileSystemSandboxPolicy -> FileSystemSandboxPolicyContext -> result IoError (Url -> result IoError bool))
    host_parent to_path_buf call action req :
  patch_request os local host_parent to_path_buf call action = Ok req ->
  exists m, prepare_matching local (call_route call) (call_file_policy call) (call_context call action) = Ok m
    /\ (req_requirement req = ExecApproval.Skip false None
          /\ assess_patch_safety os action (call_policy call) (env_permission_profile (call_environment call)) m = Ok AutoApprove
        \/ req_requirement req = NeedsApproval None None).
Proof.
  unfold patch_request. cbv zeta. fold (call_context call action). fold (call_route call). fold (call_file_policy call).
  destruct (prepare_matching _ _ _ _) as [m|]; [|done]. cbn [map_err mbind result_bind].
  destruct (write_permissions_for_paths _ _ _) as [additional|]; [|done]. cbn [map_err mbind result_bind].
  unfold prepare_apply_patch. destruct (assess_patch_safety _ _ _ _ _) as [[]|] eqn:Ha; try done; cbn; intros [= <-];
    exists m; (split; [done|]); [left|right]; done.
Qed.

(** C4: if nobody said yes to a patch and the turn has no permissions for it, an
    attempt to apply it touches only paths that the policy lets it write, the
    destinations of moves included, and runs in a sandbox wherever its permissions
    call for one: it was found safe, and it is never retried outside. *)
Theorem unasked_patch_contained os
    (local : FileSystemSandboxPolicy -> FileSystemSandboxPolicyContext -> result IoError (Url -> result IoError bool))
    host_parent to_path_buf settings call action req log o before a (x : result ToolError Out) after :
  patch_request os local host_parent to_path_buf call action = Ok req ->
  behaves (run (Value := Value) (Out := Out) (Output := Output) (tool := ApplyPatchRuntime) os settings req) log o ->
  log = before ++ run_event a x :: after ->
  existsb grants before = false -> req_permissions_preapproved req = false ->
  (sandbox_requested a = true \/ should_sandbox os (attempt_permissions a) Auto (enforce_managed_network a) = false)
  /\ exists m, prepare_matching local (call_route call) (call_file_policy call) (call_context call action) = Ok m
       /\ patch_within m action.
Proof.
  intros Hreq Hb Hlog Hno Hpre. destruct (patch_request_inv _ _ _ _ _ _ _ Hreq) as (m & Hm & Hreqs).
  assert (Hp : forall ctx a', approval_action (ToolRuntime := ApplyPatchRuntime (Value := Value)) req (tool_call_id settings) = Ok a' ->
            preapproved_patch a' ctx = false).
  { intros ctx a' [= <-]. simpl. by rewrite Hpre. }
  pose proof (consent_spec (tool := ApplyPatchRuntime) os settings req log o before a x after Hb Hlog) as Hc.
  change (requirement_of settings req) with (req_requirement req) in Hc.
  destruct Hreqs as [[Hskip Hauto]|Hneeds].
  2: { rewrite Hneeds in Hc. destruct Hc as (a' & Ha & [Hg|Hg]); [by rewrite Hno in Hg|by rewrite (Hp _ _ Ha) in Hg]. }
  split.
  - destruct (sandbox_requested a) eqn:Hs; [by left|right]. apply not_true_is_false. intros Hshould.
    destruct (leave_spec (tool := ApplyPatchRuntime) os settings req log o before a x after Hb Hlog Hs Hshould) as [_ [[_ [[am Ham]|?]]|Hl]].
    + change (req_requirement req = ExecApproval.Skip true am) in Ham. congruence.
    + done.
    + apply retry_leave_consent in Hl; [congruence|done|done|exact Hp].
  - exists m. split; [done|]. pose proof (assess_spec os action (call_policy call) (env_permission_profile (call_environment call)) m) as Has.
    rewrite Hauto in Has. apply Has.
Qed.

End Consent.

(** ** Commands *)

Section Commands.
Context {UL : UrlLib} {GL : GlobLib} {AbsolutePath : Type} {exec_paths : ExecPaths AbsolutePath}.
Context {WW : WindowsWords} {SG : ShellGrammar} {PG : PowerShellGrammar} {SQ : ShellQuoting} {KJ : KeyJson} {Value Output Out IoError : Type}.
Abbreviation answer := (tool_answer (Value := Value) (Output := Output) (Out := Out)).
Abbreviation event := (event answer).
Abbreviation ToolError := (ToolError (Output := Output)).
Implicit Types (policy : Policy AbsolutePath) (areq : ExecApprovalRequest (AbsolutePath := AbsolutePath)).

(** The commands a request is judged by, with those of a shell of its own *)
Definition shell_commands areq (shell : str) (mode : UnifiedExecShellMode) (platform : DangerousCommandPlatform) : ExecPolicyCommands :=
  let cmd := command areq in
  let executable := shell_approval_command cmd shell mode in
  if length executable =? length cmd then commands_for_exec_policy_for_platform cmd platform
  else
    let inner :=
      if bool_decide (platform = WindowsPlatform) then
        match extract_powershell_command cmd with
        | Some (_, script) => mkCommands (default [cmd] (parse_powershell_script_into_plain_commands script)) PowerShellOrigin
        | None => commands_for_exec_policy_for_platform cmd platform
        end
      else commands_for_exec_policy_for_platform cmd platform in
    mkCommands (executable :: commands inner) (command_origin inner).

Lemma shell_requirement_spec policy areq shell mode platform r :
  create_exec_approval_requirement_for_shell policy areq shell mode platform = Return r ->
  requirement_matches policy areq (shell_commands areq shell mode platform) platform r.
Proof.
  unfold create_exec_approval_requirement_for_shell, shell_commands. destruct (_ =? _).
  - intros Hr. destruct (requirement_spec policy areq (commands_for_exec_policy_for_platform (command areq) platform) platform)
      as (r' & Hr' & Hm); [apply commands_for_nonempty|].
    change (create_exec_approval_requirement_for_parsed_commands policy areq
              (commands_for_exec_policy_for_platform (command areq) platform) platform = Return r) in Hr.
    rewrite Hr in Hr'. injection Hr' as <-. exact Hm.
  - match goal with |- create_exec_approval_requirement_for_parsed_commands _ ?q ?parsed _ = _ -> _ =>
      intros Hr; destruct (requirement_spec policy q parsed platform) as (r' & Hr' & Hm); [done|] end.
    rewrite Hr in Hr'. injection Hr' as <-. exact Hm.
Qed.

(** Rules allow each of the commands *)
Definition rules_allow policy areq (parsed : ExecPolicyCommands) : Prop :=
  forall c, c ∈ commands parsed -> rule_matches_of (policy_of policy areq) c <> [] /\ only_allowing (policy_of policy areq) c.

Lemma skip_by_rules policy areq parsed platform bypass amendment :
  requirement_matches policy areq parsed platform (ExecApproval.Skip bypass amendment) ->
  (bypass = true \/ forall c, fallback_of areq parsed platform c <> Allow) -> rules_allow policy areq parsed.
Proof.
  intros Hm Hor c Hc. pose proof (proj1 (requirement_bound _ _ _ _ _ _ Hm Hc) _ _ eq_refl) as Hv.
  split; [|by apply (verdict_only_allowing _ _ _ Hv)]. destruct Hor as [->|Hf].
  - unfold requirement_matches in Hm. destruct (max_decision _) as [[]|]; [|case_bool_decide; naive_solver|naive_solver|done].
    destruct Hm as (b & a & [= <- <-] & Hb). by apply Hb.
  - intros Hnil. apply (Hf c). rewrite <- Hv. symmetry. by apply verdict_no_rule.
Qed.

(** A call that asks to leave the sandbox is not judged to be allowed by default. *)
Lemma escalated_fallback turn command effective prefix parsed platform c :
  exec_approval_policy turn <> Never ->
  Permissions.kind (file_system_sandbox_policy (env_permission_profile (exec_env turn))) = Restricted ->
  judged_permissions effective = RequireEscalated ->
  fallback_of (exec_approval_request (AbsolutePath := AbsolutePath) turn command effective prefix) parsed platform c <> Allow.
Proof.
  intros Hn Hk Hj. unfold fallback_of, render_decision_for_unmatched_command_for_platform, exec_approval_request, decision_in_sandbox.
  cbn [ExecApproval.context approval_policy permission_profile sandbox_permissions windows_sandbox_level].
  rewrite Hk, Hj. destruct (_ || _); by destruct (exec_approval_policy turn).
Qed.

Lemma escalation_not_preapproved granted ctx permissions additional :
  let effective := apply_granted_turn_permissions granted ctx permissions additional in
  eff_sandbox_permissions effective = RequireEscalated -> eff_permissions_preapproved effective = false.
Proof.
  unfold apply_granted_turn_permissions. destruct permissions; cbv zeta; unfold requires_escalated_permissions, eff_sandbox_permissions; [|done|];
    by destruct (bool_decide (is_Some (match _ with Some _ => _ | None => _ end)) && _).
Qed.

(** Escalation is neither granted in advance nor refused by the policy. *)
Lemma escalated_call turn cwd args effective normalized :
  command_permissions (AbsolutePath := AbsolutePath) (IoError := IoError) turn cwd args = Return (effective, normalized) ->
  eff_sandbox_permissions effective = RequireEscalated ->
  judged_permissions effective = RequireEscalated /\ exec_approval_policy turn <> Never.
Proof.
  unfold command_permissions. destruct (resolve_sandbox_permissions _ _) as [permissions|]; unfold lift_call;
    cbn [map_err lift_result mbind outcome_bind]; [|done].
  set (eff := apply_granted_turn_permissions _ _ _ _). destruct (escalation_gate _ _) eqn:Hgate;
    cbn [map_err lift_result mbind outcome_bind]; [|done].
  intros H Hesc. assert (effective = eff) as ->.
  { revert H. cbn. destruct (implicit_granted_permissions _ _ _); cbn; [by intros [= <- _]|].
    destruct (normalize_and_validate_additional_permissions _ _ _ _ _ _); cbn; [by intros [= <- _]|done]. }
  assert (Hpre : eff_permissions_preapproved eff = false) by by apply escalation_not_preapproved.
  unfold judged_permissions. rewrite Hpre, Hesc. split; [done|]. intros Hn. unfold escalation_gate in Hgate.
  by rewrite Hesc, Hpre, Hn in Hgate.
Qed.

Lemma exec_request_inv os to_abs_path get_shell turn args req :
  exec_request (AbsolutePath := AbsolutePath) (IoError := IoError) os to_abs_path get_shell turn args = Return req ->
  exists cwd effective normalized mode,
    command_permissions (IoError := IoError) turn cwd args = Return (effective, normalized)
    /\ exec_requirement_for turn (exec_command req) mode effective (arg_prefix_rule args) = Return (exec_requirement req)
    /\ exec_sandbox_permissions req = eff_sandbox_permissions effective
    /\ exec_environment req = exec_env turn.
Proof.
  unfold exec_request. destruct (command_cwd _ _) as [cwd| |]; [|done..]. cbn [mbind outcome_bind].
  destruct (check_native_cwd _ _ _ _); [|done..]. cbn [mbind outcome_bind]. destruct (tty args && _); [done|].
  destruct (lift_call _); [|done..]. cbn [mbind outcome_bind]. destruct (check_remote_shell _ _); [|done..]. cbn [mbind outcome_bind].
  destruct (get_command _ _ _ _ _ _) as [[cmd shell]| |]; [|done..]. cbn [mbind outcome_bind].
  destruct (command_permissions turn cwd args) as [[effective normalized]| |] eqn:Hp; [|done..]. cbn [mbind outcome_bind].
  destruct (exec_requirement_for _ _ _ _ _) as [r| |] eqn:Hr; [|done..]. intros [= <-].
  eexists cwd, effective, normalized, _. split_and!; [done|exact Hr|done|done].
Qed.

(** The requirement of a command that may leave the sandbox on its own *)
Lemma skipped_command_by_rules os to_abs_path get_shell turn args req :
  exec_request (AbsolutePath := AbsolutePath) (IoError := IoError) os to_abs_path get_shell turn args = Return req ->
  Permissions.kind (file_system_sandbox_policy (env_permission_profile (exec_env turn))) = Restricted ->
  forall bypass amendment, exec_requirement req = ExecApproval.Skip bypass amendment ->
  bypass = true \/ exec_sandbox_permissions req = RequireEscalated ->
  exists effective mode,
    let areq := exec_approval_request turn (exec_command req) effective (arg_prefix_rule args) in
    rules_allow (session_policy turn) areq
      (shell_commands areq (shell_path (default (user_shell turn) (env_shell turn))) (approval_mode mode) (command_platform turn)).
Proof.
  intros Hreq Hk bypass amendment Hskip Hor. destruct (exec_request_inv _ _ _ _ _ _ Hreq) as (cwd & eff & norm & mode & Hp & Hr & Hs & _).
  exists eff, mode. cbv zeta. rewrite Hskip in Hr. apply shell_requirement_spec in Hr. apply (skip_by_rules _ _ _ _ _ _ Hr).
  destruct Hor as [?|Hesc]; [by left|right]. intros c. rewrite Hs in Hesc. destruct (escalated_call _ _ _ _ _ Hp Hesc) as [Hj Hn].
  by apply escalated_fallback.
Qed.


End Commands.
