(* ===== verification/ToolExamples.v ===== *)
(** * Tool calls on concrete requests

    The theorems about tool calls on commands and a patch in a small environment,
    each evaluated against an environment that answers in a fixed way, and what
    the code does at the corners. *)

From S2P Require Import Prelude RustStr ExecPolicy PolicyBuild ShellSyntax CommandSafety CommandTheorems PowerShell PowerShellTheorems.
From S2P Require Import PathUri PathTheorems Permissions PermissionTransforms.
From S2P Require Import ExecApproval ExecRules ApprovalTheorems ApprovalExamples Interaction ExecutorPolicy ToolSandbox ToolApprovals Orchestrator.
From S2P Require Import ToolRuntimes ExecTool ToolPhases ToolTheorems SessionApprovals ToolConsent.
Import Decisions Rules Policies Builder.
Import PlainUrl PathExamples PolicyExamples BuildExamples CommandExamples PowerShellExamples ApprovalExamples.

Module ToolExamples.

#[export] Instance key_texts : KeyJson := {
  key_json k :=
    Some match k with
         | CommandStoreKey (ExecKey e) _ | PatchStoreKey (ExecKey e) => join (lit " ") (key_command e)
         | CommandStoreKey (PatchKey p) _ | PatchStoreKey (PatchKey p) => as_str (patch_path p)
         end
}.

Abbreviation answer := (tool_answer (Value := unit) (Output := unit) (Out := unit)).
Abbreviation tool_event := (event answer).

(** ** The environment *)

Definition w : Url := url_of "file:///w".
Definition env_with (profile : PermissionProfile) : TurnEnvironment :=
  mkEnvironment (lit "local") w [w] None None profile false SandboxNone WindowsSandboxDisabled false None.
Definition writable_w : list FileSystemSandboxEntry := [new_entry (Special Root) Read; new_entry (Path w) Write].
Definition work_profile : PermissionProfile := ProfileManaged (ManagedRestricted writable_w None) NetRestricted.

Definition settings : TurnSettings :=
  mkSettings OnRequest OnRequest ReviewerUser false (lit "call") None false None (Some (lit "/sandbox")) (fun _ => None) (fun _ => None) [].
Definition bash : Shell := mkShell Bash (lit "/bin/bash").
Definition turn (profile : PermissionProfile) : ExecTurn (AbsolutePath := str) :=
  mkExecTurn (env_with profile) None bash DirectShell true false false false false false false OnRequest None false None None no_rules Honor.
Definition call (p : SandboxPermissions) : ExecCommandArgs :=
  mkArgs (lit "make") None None (Some false) false (Some p) None None None.

(** The answers: no hook, no reviewer, the user says [d] *)
Definition saying (d : ReviewDecision) (n : nat) (c : ToolCall (Value := unit)) : answer c :=
  match c as c return answer c with
  | RunHooks _ _ => None
  | DecideApproval _ => None
  | SpawnApproval _ => Ok None
  | AskUser _ => d
  | ReadApprovals _ => ∅
  | PutApprovals _ => tt
  | GetEnvironmentInfo => Err []
  | BeginNetwork _ => Ok None
  | FinishNetwork _ => None
  | RunTool _ => Ok tt
  end.

Definition make_request (profile : PermissionProfile) (p : SandboxPermissions) : outcome (ExecCallError (IoError := unit)) UnifiedExecRequest :=
  exec_request LinuxOs (fun u => Some (as_str u)) (fun _ => None) (turn profile) (call p).

Definition make : list str := [lit "/bin/bash"; lit "-c"; lit "make"].
Definition make_with (profile : PermissionProfile) (p : SandboxPermissions) (r : ExecApprovalRequirement) : UnifiedExecRequest :=
  mkExecRequest make (lit "make") w w (env_with profile) false false false p None None r.
Definition play (req : UnifiedExecRequest) (d : ReviewDecision) : outcome (ToolError (Output := unit)) (OrchestratorRunResult (Out := unit)) * list tool_event :=
  run_with (saying d) 0 (run (tool := UnifiedExecRuntime LinuxOs) LinuxOs settings req).

Lemma play_behaves req d : behaves (run (tool := UnifiedExecRuntime LinuxOs) LinuxOs settings req) (play req d).2 (Some (play req d).1).
Proof. apply run_with_behaves. Qed.

(** ** A command that asks to leave the sandbox *)

Definition escalated : UnifiedExecRequest := make_with work_profile RequireEscalated (NeedsApproval None (Some make)).
Definition escalated_log : list tool_event := (play escalated Approved).2.
Definition escalated_attempt : SandboxAttempt := first_attempt (tool := UnifiedExecRuntime (Value := unit) LinuxOs) LinuxOs settings escalated true.

Example escalated_request : make_request work_profile RequireEscalated = Return escalated.
Proof. vm_cast_no_check (eq_refl (make_request work_profile RequireEscalated)). Qed.
Lemma escalated_runs : behaves (run (tool := UnifiedExecRuntime LinuxOs) LinuxOs settings escalated) escalated_log (Some (play escalated Approved).1).
Proof. unfold escalated_log. apply play_behaves. Qed.

(** Hooks, reviewer, store, user, and then the run *)
Example escalated_asked :
  escalated_log = take 4 escalated_log ++ [run_event escalated_attempt (Ok tt)] /\ existsb grants (take 4 escalated_log) = true.
Proof. split; [vm_cast_no_check (eq_refl escalated_log)|vm_compute; reflexivity]. Qed.




(** ** A denied read *)

Definition secret_profile : PermissionProfile :=
  ProfileManaged (ManagedRestricted (writable_w ++ [new_entry (Path (url_of "file:///w/secret")) Deny]) None) NetRestricted.
Definition guarded : UnifiedExecRequest := make_with secret_profile RequireEscalated (NeedsApproval None (Some make)).
Definition guarded_log : list tool_event := (play guarded Approved).2.
Definition guarded_attempt : SandboxAttempt := first_attempt (tool := UnifiedExecRuntime (Value := unit) LinuxOs) LinuxOs settings guarded true.

Lemma guarded_runs : behaves (run (tool := UnifiedExecRuntime LinuxOs) LinuxOs settings guarded) guarded_log (Some (play guarded Approved).1).
Proof. unfold guarded_log. apply play_behaves. Qed.


(** ** A patch in the workspace *)

Definition add_file : ApplyPatchAction := mkPatchAction [(url_of "file:///w/a", AddChange (lit "x"))] (lit "*** Begin Patch") w.
Definition patch_call : PatchCall := mkPatchCall (env_with work_profile) None OnRequest.
(** The matcher for local paths, without links *)
Definition no_links (policy : FileSystemSandboxPolicy) (ctx : FileSystemSandboxPolicyContext) : result unit (Url -> result unit bool) :=
  Ok (fun p => Ok (can_write_path policy p ctx)).
Definition add_request : ApplyPatchRequest :=
  mkPatchRequest (env_with work_profile) add_file [url_of "file:///w/a"] [(lit "file:///w/a", FileAdd (lit "x"))]
    (ExecApproval.Skip false None) None false.
Definition patch_run : prog answer (outcome (ToolError (Output := unit)) (OrchestratorRunResult (Out := unit))) :=
  run (tool := ApplyPatchRuntime) LinuxOs settings add_request.
Definition patch_log : list tool_event := (run_with (saying Approved) 0 patch_run).2.
Definition patch_attempt : SandboxAttempt := first_attempt (tool := ApplyPatchRuntime (Value := unit)) LinuxOs settings add_request false.

Example patch_requested : patch_request LinuxOs no_links (fun _ => None) as_str patch_call add_file = Ok add_request.
Proof. vm_cast_no_check (eq_refl (Ok add_request : result (CallError (IoError := unit)) _)). Qed.
Lemma patch_runs : behaves patch_run patch_log (Some (run_with (saying Approved) 0 patch_run).1).
Proof. unfold patch_log. apply run_with_behaves. Qed.

Lemma unasked_patch_contained_witness :
  (sandbox_requested patch_attempt = true
   \/ should_sandbox LinuxOs (attempt_permissions patch_attempt) Auto (enforce_managed_network patch_attempt) = false)
  /\ exists m, prepare_matching no_links (call_route patch_call) (call_file_policy patch_call) (call_context patch_call add_file) = Ok m
       /\ patch_within m add_file.
Proof.
  refine (unasked_patch_contained LinuxOs no_links (fun _ => None) as_str settings patch_call add_file add_request patch_log _ []
            patch_attempt (Ok tt) [] patch_requested patch_runs _ eq_refl eq_refl).
  vm_cast_no_check (eq_refl patch_log).
Defined.

(** ** A session with two tasks *)

Definition make_key : StoreKey :=
  CommandStoreKey (ExecKey (mkExecKey (lit "local") (Some (lit "/bin/bash")) make w false RequireEscalated None)) None.
Definition make_question : UserQuestion (Value := unit) :=
  CommandQuestion CommandKind (lit "call") None (lit "local") make w None None None None None.
Definition remembered : ApprovalStore := store_put ∅ make_key ApprovedForSession.
Definition first_task : list (nat * tool_event) :=
  [(0, existT (ReadApprovals [make_key] : ToolCall) ∅); (0, existT (AskUser make_question : ToolCall) ApprovedForSession);
   (0, existT (PutApprovals [make_key] : ToolCall) tt)].
Definition session_log : list (nat * tool_event) := first_task ++ [(1, existT (ReadApprovals [make_key] : ToolCall) remembered)].
Definition demo_tasks : list (list StoreKey * UserQuestion (Value := unit)) := [([make_key], make_question); ([make_key], make_question)].

Lemma two_tasks : session demo_tasks session_log.
Proof.
  split.
  - intros [|[|i]].
    + exists (Some (Return ApprovedForSession)). change (project 0 session_log) with (first_task.*2). simpl.
      right. exists ∅. eexists. split; [reflexivity|]. right. exists ApprovedForSession. eexists. split; [reflexivity|].
      right. exists tt. eexists. split; [reflexivity|]. split; [reflexivity|by right].
    + exists (Some (Return ApprovedForSession)). right. exists remembered. eexists. split; [reflexivity|]. split; [reflexivity|by right].
    + reflexivity.
  - repeat split.
Qed.


(** ** Corners *)

(** Where the file system is unrestricted but the network is not, a command that
    asks to leave the sandbox does so, and nobody is asked. *)
Definition no_network : PermissionProfile := ProfileManaged ManagedUnrestricted NetRestricted.
Definition network_request : UnifiedExecRequest := make_with no_network RequireEscalated (ExecApproval.Skip false (Some make)).
Definition network_attempt : SandboxAttempt :=
  first_attempt (tool := UnifiedExecRuntime (Value := unit) LinuxOs) LinuxOs settings network_request false.
Example network_left_unasked :
  make_request no_network RequireEscalated = Return network_request
  /\ (play network_request Abort).2 = [run_event network_attempt (Ok tt)]
  /\ sandbox_requested network_attempt = false
  /\ should_sandbox LinuxOs (attempt_permissions network_attempt) Auto (enforce_managed_network network_attempt) = true.
Proof.
  split_and!; [vm_cast_no_check (eq_refl (make_request no_network RequireEscalated))
              |vm_cast_no_check (eq_refl (play network_request Abort).2)|vm_compute; reflexivity..].
Qed.

(** A denied path below the home directory, inside the workspace, leaves no entry
    when the workspace is filled in: the escalated command runs without a sandbox,
    though reads were denied. *)
Definition home_denied : PermissionProfile :=
  ProfileManaged (ManagedRestricted (writable_w ++ [new_entry (Special (ProjectRoots (Some (lit "~/secret")))) Deny]) None) NetRestricted.
Definition home_request : UnifiedExecRequest := make_with home_denied RequireEscalated (NeedsApproval None (Some make)).
Definition home_attempt : SandboxAttempt :=
  first_attempt (tool := UnifiedExecRuntime (Value := unit) LinuxOs) LinuxOs settings home_request true.
Example home_denial_lost :
  unsandboxed_execution_allowed LinuxOs (file_system_sandbox_policy home_denied) = false
  /\ base_policy (tool := UnifiedExecRuntime (Value := unit) LinuxOs) home_request = restricted []
  /\ drop 4 (play home_request Approved).2 = [run_event home_attempt (Ok tt)]
  /\ sandbox_requested home_attempt = false.
Proof.
  split_and!; [vm_compute; reflexivity|vm_cast_no_check (eq_refl (restricted []))
              |vm_cast_no_check (eq_refl (drop 4 (play home_request Approved).2))|vm_compute; reflexivity].
Qed.

(** Any permission granted to the turn, here the network, counts as permission for
    a patch to writable files: a user who wants to be asked about everything is
    not asked. *)
Definition granted_network : AdditionalPermissionProfile := mkProfile (Some (mkNet (Some true))) None.
Definition unasked_call : PatchCall := mkPatchCall (env_with work_profile) (Some granted_network) UnlessTrusted.
Definition unasked_request : ApplyPatchRequest :=
  mkPatchRequest (env_with work_profile) add_file [url_of "file:///w/a"] [(lit "file:///w/a", FileAdd (lit "x"))]
    (NeedsApproval None None) (Some granted_network) true.
Definition is_question (e : tool_event) : bool := match e with existT (AskUser _) _ => true | _ => false end.
Definition unasked_log : list tool_event := (run_with (saying Abort) 0 (run (tool := ApplyPatchRuntime) LinuxOs settings unasked_request)).2.
Example granted_network_preapproves_patch :
  patch_request LinuxOs no_links (fun _ => None) as_str unasked_call add_file = Ok unasked_request
  /\ existsb is_question unasked_log = false /\ existsb is_run unasked_log = true.
Proof.
  split_and!; [vm_cast_no_check (eq_refl (Ok unasked_request : result (CallError (IoError := unit)) _))|vm_compute; reflexivity..].
Qed.

(** A script that is one command of the right words has the same key as a script
    that is not taken apart. *)
Definition forged_script : str := lit "__codex_shell_script__ -lc 'ls > x'".
Definition forged : ShellGrammar :=
  {| try_parse_shell script :=
       if str_eqb script forged_script then
         Some (mkTree (mkNode (lit "program") true 0 None
           [cmd_node 0 (lit "__codex_shell_script__")
              [leaf (lit "word") true 23 (lit "-lc"); leaf (lit "raw_string") true 27 (lit "'ls > x'")]]) false)
       else None |}.
Example forged_key :
  canonicalize_command_for_approval (SG := forged) [lit "/bin/bash"; lit "-lc"; forged_script]
  = canonicalize_command_for_approval (SG := forged) [lit "/bin/bash"; lit "-lc"; lit "ls > x"].
Proof. vm_compute. reflexivity. Qed.

End ToolExamples.
