(* ===== verification/Tasks.v ===== *)
(** * Tasks that share a state

    Asynchronous code in which every access to shared state is one operation. A
    [task] may be dropped where it awaits; what its guards then do is a program of
    operations that cannot be dropped itself. A configuration is the shared state,
    the tasks and the trace of what happened; a step lets one of the tasks do its
    next operation, drops a task, or starts one. [follows] is the proof rule: a
    task keeps to a protocol that says, from what the task has learned and still
    owes, what it may do next; [protocol_sound] lifts it to every interleaving. *)

From S2P Require Import Prelude Interaction.

Section Tasks.
Context {op : Type} {answer : op -> Type} {R : Type}.

Inductive task (A : Type) :=
| Finish (r : A)
| Atom (o : op) (k : answer o -> task A)
| Await (o : op) (k : answer o -> task A) (cleanup : prog answer unit).
Arguments Finish {A} _.
Arguments Atom {A} _ _.
Arguments Await {A} _ _ _.

Fixpoint task_bind {A B} (f : A -> task B) (t : task A) : task B :=
  match t with
  | Finish r => f r
  | Atom o k => Atom o (fun x => task_bind f (k x))
  | Await o k d => Await o (fun x => task_bind f (k x)) d
  end.

(** Code without a place to wait, and code that waits at every operation *)
Fixpoint sync {A} (p : prog answer A) : task A :=
  match p with Done r => Finish r | Do o k => Atom o (fun x => sync (k x)) end.
Fixpoint awaiting {A} (cleanup : prog answer unit) (p : prog answer A) : task A :=
  match p with Done r => Finish r | Do o k => Await o (fun x => awaiting cleanup (k x)) cleanup end.

Inductive thread := Live (t : task R) | Dropped (p : prog answer unit).

(** The next operation of a thread, and what it is when it is dropped *)
Definition offers (t : thread) : option { o : op & answer o -> thread } :=
  match t with
  | Live (Finish _) | Dropped (Done _) => None
  | Live (Atom o k) | Live (Await o k _) => Some (existT o (fun x => Live (k x)))
  | Dropped (Do o k) => Some (existT o (fun x => Dropped (k x)))
  end.
Definition dropped (t : thread) : option thread :=
  match t with Live (Await _ _ d) => Some (Dropped d) | _ => None end.
Definition finished (t : thread) : bool :=
  match t with Live (Finish _) | Dropped (Done _) => true | _ => false end.

Lemma offers_finished t : offers t = None <-> finished t = true.
Proof. by destruct t as [[]|[]]. Qed.

(** ** Configurations *)

Context {State Job : Type}.
(** [exec i o s x]: the answer to [o] in state [s] and the state after it, [x]
    being what the surroundings say where they are asked; [None] where thread [i]
    must wait *)
Variable exec : nat -> forall o, State -> answer o -> option (answer o * State).
Variable start : Job -> task R.

Inductive note := Spawned (j : Job) | Did (e : event answer) | WasDropped.
Record config := mkConfig { shared : State; threads : list thread; trace : list (nat * note) }.

Inductive step : config -> config -> Prop :=
| StepSpawn c j :
    step c (mkConfig (shared c) (threads c ++ [Live (start j)]) (trace c ++ [(length (threads c), Spawned j)]))
| StepOp c i t o k x a s :
    threads c !! i = Some t -> offers t = Some (existT o k) -> exec i o (shared c) x = Some (a, s) ->
    step c (mkConfig s (<[i := k a]> (threads c)) (trace c ++ [(i, Did (existT o a))]))
| StepDrop c i t t' :
    threads c !! i = Some t -> dropped t = Some t' ->
    step c (mkConfig (shared c) (<[i := t']> (threads c)) (trace c ++ [(i, WasDropped)])).

Definition initial (s : State) : config := mkConfig s [] [].
Definition reachable (s : State) (c : config) : Prop := rtc step (initial s) c.

(** A scheduler, to evaluate: who moves, and what the surroundings say *)
Inductive move := Spawn (j : Job) | Turn (i : nat) (says : forall o, answer o) | Drop (i : nat).
Definition play (c : config) (m : move) : option config :=
  match m with
  | Spawn j => Some (mkConfig (shared c) (threads c ++ [Live (start j)]) (trace c ++ [(length (threads c), Spawned j)]))
  | Turn i says =>
      t ← threads c !! i;
      match offers t with
      | Some (existT o k) =>
          '(a, s) ← exec i o (shared c) (says o);
          Some (mkConfig s (<[i := k a]> (threads c)) (trace c ++ [(i, Did (existT o a))]))
      | None => None
      end
  | Drop i =>
      t ← threads c !! i;
      t' ← dropped t;
      Some (mkConfig (shared c) (<[i := t']> (threads c)) (trace c ++ [(i, WasDropped)]))
  end.
Fixpoint plays (c : config) (ms : list move) : option config :=
  match ms with [] => Some c | m :: ms => c' ← play c m; plays c' ms end.

Lemma play_step c m c' : play c m = Some c' -> step c c'.
Proof.
  destruct m as [j|i says|i]; simpl; [intros [= <-]; constructor| |].
  - destruct (threads c !! i) as [t|] eqn:Ht; [simpl|done]. destruct (offers t) as [[o k]|] eqn:Ho; [|done].
    destruct (exec _ _ _ _) as [[a s]|] eqn:He; [|done]. intros [= <-]. by eapply StepOp.
  - destruct (threads c !! i) as [t|] eqn:Ht; [simpl|done]. destruct (dropped t) as [t'|] eqn:Hd; [|done].
    intros [= <-]. by eapply StepDrop.
Qed.
Lemma plays_steps c ms c' : plays c ms = Some c' -> rtc step c c'.
Proof.
  revert c. induction ms as [|m ms IH]; intros c; simpl; [by intros [= ->]|].
  destruct (play c m) as [d|] eqn:Hp; [|done]. intros H. eapply rtc_l; [by eapply play_step|by apply IH].
Qed.

(** Only what was dropped runs its clean-up. *)
Lemma offers_dropped t :
  match offers t with Some (existT o k) => forall a q, k a = Dropped q -> exists q', t = Dropped q' | None => True end.
Proof. destruct t as [[r|o k|o k d]|[u|o k]]; simpl; try done. eauto. Qed.
Definition drops_noted (c : config) : Prop := forall i p, threads c !! i = Some (Dropped p) -> (i, WasDropped) ∈ trace c.
Lemma step_noted c c' : step c c' -> drops_noted c -> drops_noted c'.
Proof.
  intros [c0 j|c0 i t o k x a s' Ht Ho He|c0 i t t' Ht Hd] Hc n q Hn; simpl in *; apply elem_of_app.
  - apply lookup_app_Some in Hn as [Hn|[_ Hn]]; [left; by eapply Hc|by apply list_lookup_singleton_Some in Hn as [_ ?]].
  - left. apply list_lookup_insert_Some in Hn as [(-> & Hk & _)|[_ Hn]]; [|by eapply Hc].
    pose proof (offers_dropped t) as H. rewrite Ho in H. destruct (H _ _ Hk) as [q' ->]. by eapply Hc.
  - apply list_lookup_insert_Some in Hn as [(-> & _ & _)|[_ Hn]]; [right; set_solver|left; by eapply Hc].
Qed.
Lemma reachable_noted s c : reachable s c -> drops_noted c.
Proof.
  intros Hr. cut (drops_noted (initial s)); [|done]. unfold reachable in Hr. induction Hr as [|c d e Hs Hr IH]; [done|].
  intros H. by eapply IH, step_noted.
Qed.

(** ** The work ends *)

(** A step of a thread there is *)
Definition works (c c' : config) : Prop := step c c' /\ length (threads c') = length (threads c).

Inductive child : thread -> thread -> Prop :=
| ChildOp t o k x : offers t = Some (existT o k) -> child (k x) t
| ChildDrop t t' : dropped t = Some t' -> child t' t.
Inductive one_child : list thread -> list thread -> Prop :=
| OneChild i t t' ts : ts !! i = Some t -> child t' t -> one_child (<[i := t']> ts) ts.

Lemma child_inv t' t :
  child t' t ->
  (match offers t with Some (existT o k) => exists x, t' = k x | None => False end) \/ dropped t = Some t'.
Proof. destruct 1 as [t o k x H|t t' H]; [left; rewrite H; by exists x|by right]. Qed.

Lemma child_wf t : Acc child t.
Proof.
  assert (Hc : forall p, Acc child (Dropped p)).
  { induction p as [r|o k IH]; constructor; intros t' [H|H]%child_inv; simpl in H; [contradiction|discriminate| |discriminate].
    destruct H as [x ->]. exact (IH x). }
  destruct t as [t|p]; [|exact (Hc p)].
  induction t as [r|o k IH|o k IH d]; constructor; intros t' [H|H]%child_inv; simpl in H;
    [contradiction|discriminate| |discriminate| |injection H as <-; exact (Hc d)]; destruct H as [x ->]; exact (IH x).
Qed.
Lemma one_child_cons t ts ts' :
  one_child ts' (t :: ts) -> (exists t', child t' t /\ ts' = t' :: ts) \/ exists us, one_child us ts /\ ts' = t :: us.
Proof.
  inversion 1 as [i u u' us Hi Hc]; subst. destruct i as [|i]; simpl in *; simplify_eq; [left; by exists u'|right].
  exists (<[i := u']> ts). split; [by econstructor|done].
Qed.
Lemma one_child_wf ts : Acc one_child ts.
Proof.
  induction ts as [|t ts IH]; [constructor; intros ts'; inversion 1; simplify_eq|].
  revert ts IH. induction (child_wf t) as [t _ IHt]. intros ts Hts. pose proof Hts as Hall.
  induction Hts as [ts _ IHts]. constructor.
  intros ts' [(t' & Hc & ->)|(us & Ho & ->)]%one_child_cons; [exact (IHt t' Hc ts Hall)|].
  apply IHts; [exact Ho|]. eapply Acc_inv; [exact Hall|exact Ho].
Qed.

Lemma works_wf c : Acc (flip works) c.
Proof.
  remember (threads c) as ts eqn:Ets. revert c Ets. induction (one_child_wf ts) as [ts _ IH]. intros c ->.
  constructor. intros c' [Hs Hlen]. unshelve eapply (IH (threads c') _ c' eq_refl).
  destruct Hs as [c j|c i t o k x a s Ht Ho He|c i t t' Ht Hd]; simpl in *.
  - rewrite length_app in Hlen. simpl in Hlen. lia.
  - eapply OneChild; [exact Ht|]. by eapply ChildOp.
  - eapply OneChild; [exact Ht|]. by eapply ChildDrop.
Qed.

(** ** Protocols *)

Context {Local : Type}.
Variable may : Local -> op -> Prop.
Variable possible : Local -> forall o, answer o -> Prop.
Variable after : Local -> forall o, answer o -> Local.
Variable drops : Local -> Local.
Variable entitled : Local -> R -> Prop.
Variable quit : Local -> Prop.

Fixpoint cleans (l : Local) (p : prog answer unit) : Prop :=
  match p with
  | Done _ => quit l
  | Do o k => may l o /\ forall x, possible l o x -> cleans (after l o x) (k x)
  end.
Fixpoint follows {A} (Q : Local -> A -> Prop) (l : Local) (t : task A) : Prop :=
  match t with
  | Finish r => Q l r
  | Atom o k => may l o /\ forall x, possible l o x -> follows Q (after l o x) (k x)
  | Await o k d => may l o /\ cleans (drops l) d /\ forall x, possible l o x -> follows Q (after l o x) (k x)
  end.
Definition behaving (l : Local) (t : thread) : Prop :=
  match t with Live t => follows entitled l t | Dropped p => cleans l p end.

Lemma follows_bind {A B} Q (f : A -> task B) l t :
  follows (fun l a => follows Q l (f a)) l t -> follows Q l (task_bind f t).
Proof.
  revert l. induction t as [r|o k IH|o k IH d]; intros l; simpl; [done| |].
  - intros [??]. split; auto.
  - intros (? & ? & ?). split_and!; auto.
Qed.

Lemma behaving_offers l t :
  behaving l t ->
  match offers t with
  | Some (existT o k) => may l o /\ forall x, possible l o x -> behaving (after l o x) (k x)
  | None => match t with Live (Finish r) => entitled l r | _ => quit l end
  end.
Proof. destruct t as [[r|o k|o k d]|[u|o k]]; simpl; tauto. Qed.

Lemma behaving_dropped l t t' : behaving l t -> dropped t = Some t' -> behaving (drops l) t'.
Proof. destruct t as [[r|o k|o k d]|p]; simpl; [done..| |done]. intros (_ & ? & _) [= <-]. done. Qed.

(** *** Every interleaving keeps to the protocol *)

Variable invariant : State -> list Local -> list (nat * note) -> Prop.
Variable begins : Job -> Local.

Record Sound (s0 : State) : Prop := {
  sound_initial : invariant s0 [] [];
  sound_start j : follows entitled (begins j) (start j);
  sound_spawn s ls tr j : invariant s ls tr -> invariant s (ls ++ [begins j]) (tr ++ [(length ls, Spawned j)]);
  sound_drop s ls tr i l : invariant s ls tr -> ls !! i = Some l -> invariant s (<[i := drops l]> ls) (tr ++ [(i, WasDropped)]);
  sound_op s ls tr i l o x a s' :
    invariant s ls tr -> ls !! i = Some l -> may l o -> exec i o s x = Some (a, s') ->
    possible l o a /\ invariant s' (<[i := after l o a]> ls) (tr ++ [(i, Did (existT o a))]);
}.

Definition kept (c : config) : Prop :=
  exists ls, invariant (shared c) ls (trace c) /\ Forall2 behaving ls (threads c).

Lemma step_kept s0 c c' : Sound s0 -> step c c' -> kept c -> kept c'.
Proof.
  intros HS Hstep (ls & HI & HF). destruct Hstep as [c j|c i t o k x a s Ht Ho He|c i t t' Ht Hd].
  - exists (ls ++ [begins j]). simpl. split.
    + rewrite <- (Forall2_length _ _ _ HF). by eapply sound_spawn.
    + apply Forall2_app; [done|]. constructor; [by eapply sound_start|done].
  - destruct (Forall2_lookup_r _ _ _ _ _ HF Ht) as (l & Hl & Hb). pose proof (behaving_offers _ _ Hb) as H. rewrite Ho in H.
    destruct H as [Hmay Hk]. destruct (sound_op _ HS _ _ _ _ _ _ _ _ _ HI Hl Hmay He) as [Hp HI'].
    eexists. split; [exact HI'|]. apply Forall2_insert; [done|]. by apply Hk.
  - destruct (Forall2_lookup_r _ _ _ _ _ HF Ht) as (l & Hl & Hb).
    eexists. split; [by eapply sound_drop|]. apply Forall2_insert; [done|]. by eapply behaving_dropped.
Qed.

Theorem protocol_sound s0 c : Sound s0 -> reachable s0 c -> kept c.
Proof.
  intros HS Hr. cut (kept (initial s0)).
  { induction Hr as [|c d e Hs Hr IH]; [done|]. intros H. apply IH. by eapply step_kept. }
  exists []. split; [by apply sound_initial|constructor].
Qed.

End Tasks.

Arguments task {op} answer A.
Arguments Finish {op answer A} _.
Arguments Atom {op answer A} _ _.
Arguments Await {op answer A} _ _ _.
Arguments thread {op} answer R.
Arguments note {op} answer Job.
Arguments Spawned {op answer Job} _.
Arguments Did {op answer Job} _.
Arguments WasDropped {op answer Job}.
Arguments config {op} answer R State Job.
Arguments mkConfig {op answer R State Job} _ _ _.

#[export] Instance task_ret {op} {answer : op -> Type} : MRet (task answer) := fun A => Finish.
#[export] Instance task_mbind {op} {answer : op -> Type} : MBind (task answer) := fun A B => task_bind.
