(* ===== verification/NetworkApproval.v ===== *)
(** * Asking about a host

    core/src/tools/network_approval.rs: a request of the network proxy that no
    list decides. The service attributes it to a running tool call, consults the
    hosts the session has approved or denied, joins a question that is already
    open or asks one ([ToolApprovals.request_approval]), and commits the answer
    under a lock, together with the amendment of the policy it may carry
    ([persist_network_policy_amendment] of core/src/session/mod.rs). Every critical
    section is one operation of a [task]; the requests of a session run
    concurrently and may be dropped where they wait, which runs their guards.

    The session, the running proxy, identifiers and clocks are operations with any
    answer, telemetry is left out. A token of cancellation is its number.
    [run_until_cancelled] is an alternative of every wait of the review. *)

From S2P Require Import Prelude RustStr ExecPolicy Truncate HostPattern PathUri Permissions PermissionTransforms.
From stdpp Require Import pretty.
From S2P Require Import ShellSyntax CommandSafety ExecApproval Interaction ToolSandbox ToolApprovals Tasks.
Import Truncation.

(** ** Requests and decisions *)

Inductive NetworkProtocol := ProtoHttp | ProtoHttpsConnect | ProtoSocks5Tcp | ProtoSocks5Udp.

Record NetworkPolicyRequest := mkRequest {
  req_protocol : NetworkProtocol;
  req_host : str;
  req_port : N;
  req_environment_id : option str;
  req_execution_id : option str;
  (** whether the transport reports a disconnect, the controller a cause *)
  req_disconnect : bool;
  req_cancellation : bool;
}.

Inductive NetworkPolicyDecision := PolicyDeny | PolicyAsk.
Inductive NetworkDecisionSource := BaselinePolicy | ModeGuard | ProxyState | Decider.
Inductive NetworkDecision :=
| NetAllow
| NetDeny (reason : str) (source : NetworkDecisionSource) (decision : NetworkPolicyDecision).
#[export] Instance NetworkPolicyDecision_eq_dec : EqDecision NetworkPolicyDecision.
Proof. solve_decision. Defined.

Definition REASON_POLICY_DENIED : str := lit "policy_denied".
Definition deny_with_source (reason : str) (source : NetworkDecisionSource) : NetworkDecision :=
  NetDeny (if is_empty reason then REASON_POLICY_DENIED else reason) source PolicyDeny.
Definition ask_with_source (reason : str) (source : NetworkDecisionSource) : NetworkDecision :=
  NetDeny (if is_empty reason then REASON_POLICY_DENIED else reason) source PolicyAsk.
Definition network_deny (reason : str) : NetworkDecision := deny_with_source reason Decider.
Definition network_ask (reason : str) : NetworkDecision := ask_with_source reason Decider.

Inductive NetworkRequestCancellationReason := ProcessFinished | ProcessCancelled | ConnectionClosed | CancelTimedOut.
#[export] Instance NetworkRequestCancellationReason_eq_dec : EqDecision NetworkRequestCancellationReason.
Proof. solve_decision. Defined.

(** The fields of [BlockedRequest] that are read here *)
Record BlockedRequest := mkBlocked {
  blocked_host : str;
  blocked_reason : str;
  blocked_execution_id : option str;
  blocked_decision : option str;
}.

(** ** network_policy_decision.rs *)

Definition parse_network_policy_decision (value : str) : option NetworkPolicyDecision :=
  if str_eqb value (lit "deny") then Some PolicyDeny else if str_eqb value (lit "ask") then Some PolicyAsk else None.

Definition quoted (s : str) : str := [34%N] ++ s ++ [34%N].

Definition denied_network_policy_message (b : BlockedRequest) : option str :=
  let decision := v ← blocked_decision b; parse_network_policy_decision v in
  if bool_decide (decision <> Some PolicyDeny) then None
  else
    let host := trim (blocked_host b) in
    if is_empty host then Some (lit "Network access was blocked by policy.")
    else
      let because := str_eqb (blocked_reason b) in
      let detail :=
        if because (lit "denied") then lit "domain is explicitly denied by policy and cannot be approved from this prompt"
        else if because (lit "not_allowed") then lit "domain is not on the allowlist for the current sandbox mode"
        else if because (lit "not_allowed_local") then lit "local/private network addresses are blocked by the sandbox policy"
        else if because (lit "method_not_allowed") then lit "request method is blocked by the current network mode"
        else if because (lit "proxy_disabled") then lit "network proxy is disabled"
        else lit "request is blocked by network policy" in
      Some (lit "Network access to " ++ quoted host ++ lit " was blocked: " ++ detail ++ lit ".").

Record ExecPolicyNetworkRuleAmendment := mkRuleAmendment {
  rule_protocol : Rules.NetworkRuleProtocol;
  rule_decision : Decisions.Decision;
  rule_justification : str;
}.

Definition execpolicy_network_rule_amendment (amendment : NetworkPolicyAmendment) (context : NetworkApprovalContext) (host : str)
    : ExecPolicyNetworkRuleAmendment :=
  let '(protocol, label) :=
    match context_protocol context with
    | NetHttp => (Rules.Http, lit "http")
    | NetHttps => (Rules.Https, lit "https_connect")
    | NetSocks5Tcp => (Rules.Socks5Tcp, lit "socks5_tcp")
    | NetSocks5Udp => (Rules.Socks5Udp, lit "socks5_udp")
    end in
  let '(decision, verb) :=
    match amendment_action amendment with
    | NetworkAllow => (Decisions.Allow, lit "Allow")
    | NetworkDeny => (Decisions.Forbidden, lit "Deny")
    end in
  mkRuleAmendment protocol decision (verb ++ lit " " ++ label ++ lit " access to " ++ host).

(** ** Keys *)

Record HostApprovalKey := mkHostKey { hk_environment_id : str; hk_host : str; hk_protocol : str; hk_port : N }.
Record PendingHostApprovalKey := mkPendingKey { pk_host : HostApprovalKey; pk_turn_id : str; pk_execution_id : option str }.
#[export] Instance HostApprovalKey_eq_dec : EqDecision HostApprovalKey.
Proof. solve_decision. Defined.
#[export] Instance HostApprovalKey_countable : Countable HostApprovalKey.
Proof.
  refine (inj_countable' (fun k => (hk_environment_id k, hk_host k, hk_protocol k, hk_port k))
                         (fun '(e, h, p, n) => mkHostKey e h p n) _); by intros [].
Defined.
#[export] Instance PendingHostApprovalKey_eq_dec : EqDecision PendingHostApprovalKey.
Proof. solve_decision. Defined.
#[export] Instance PendingHostApprovalKey_countable : Countable PendingHostApprovalKey.
Proof.
  refine (inj_countable' (fun k => (pk_host k, pk_turn_id k, pk_execution_id k)) (fun '(h, t, e) => mkPendingKey h t e) _); by intros [].
Defined.

Definition protocol_key_label (p : NetworkApprovalProtocol) : str :=
  match p with
  | NetHttp => lit "http"
  | NetHttps => lit "https"
  | NetSocks5Tcp => lit "socks5-tcp"
  | NetSocks5Udp => lit "socks5-udp"
  end.

Definition from_request (request : NetworkPolicyRequest) (protocol : NetworkApprovalProtocol) (environment_id : str) : HostApprovalKey :=
  mkHostKey environment_id (to_ascii_lowercase (req_host request)) (protocol_key_label protocol) (req_port request).

Definition approval_protocol (p : NetworkProtocol) : NetworkApprovalProtocol :=
  match p with
  | ProtoHttp => NetHttp
  | ProtoHttpsConnect => NetHttps
  | ProtoSocks5Tcp => NetSocks5Tcp
  | ProtoSocks5Udp => NetSocks5Udp
  end.

Definition format_network_target (protocol host : str) (port : N) : str :=
  protocol ++ lit "://" ++ host ++ lit ":" ++ lit (pretty port).
Definition approval_id_for_key (key : HostApprovalKey) : str :=
  lit "network#" ++ hk_environment_id key ++ lit "#" ++ hk_protocol key ++ lit "#" ++ hk_host key ++ lit "#" ++ lit (pretty (hk_port key)).

(** ** Open questions *)

Inductive PendingApprovalDecision := AllowOnce | AllowForSession | DenyPending.
#[export] Instance PendingApprovalDecision_eq_dec : EqDecision PendingApprovalDecision.
Proof. solve_decision. Defined.

Definition REASON_NOT_ALLOWED : str := lit "not_allowed".
Definition not_allowed : NetworkDecision := network_deny REASON_NOT_ALLOWED.
Definition to_network_decision (d : PendingApprovalDecision) : NetworkDecision :=
  match d with AllowOnce | AllowForSession => NetAllow | DenyPending => not_allowed end.

(** [notify] by how often it woke the waiters *)
Record PendingHostApproval := mkPending { pending_decision : option PendingApprovalDecision; notify : nat }.
Definition new_pending : PendingHostApproval := mkPending None 0.

Definition allows_network_approval_flow (policy : AskForApproval) : bool := negb (bool_decide (policy = Never)).
Definition ABANDONED_NETWORK_APPROVAL_MESSAGE : str := lit "network approval was cancelled before a decision was returned".
Definition abandoned_network_approval_outcome (cancelled : bool) : option str :=
  if cancelled then Some ABANDONED_NETWORK_APPROVAL_MESSAGE else None.

Definition truncate_rejection_message (message : str) : str := (truncate_middle_with_token_budget message 900).1.

Section NetworkApproval.
Context {UL : UrlLib} {GL : GlobLib} {SG : ShellGrammar} {SQ : ShellQuoting} {KJ : KeyJson} {Value Output Out : Type}.
Abbreviation ToolCall := (ToolCall (Value := Value)).
Abbreviation tool_answer := (tool_answer (Value := Value) (Output := Output) (Out := Out)).
Abbreviation ToolError := (ToolError (Output := Output)).
Abbreviation tool_prog := (prog tool_answer).

(** ** The session as far as it is read *)

(** [TurnEnvironmentSnapshot]: the ready environments; of an environment by its
    identifier, the fingerprint of its policy and its operating system *)
Record TurnEnvironmentSnapshot := mkSnapshot {
  turn_environments : list TurnEnvironment;
  snapshot_fingerprint : str -> option str;
  snapshot_platform : str -> option str;
}.
Definition find_environment (s : TurnEnvironmentSnapshot) (id : str) : option TurnEnvironment :=
  List.find (fun e => str_eqb (environment_id e) id) (turn_environments s).
Definition primary (s : TurnEnvironmentSnapshot) : option TurnEnvironment := head (turn_environments s).

(** [active_turn_context_and_strict_auto_review]: the turn with its settings *)
Record ActiveTurn := mkActiveTurn {
  turn_sub_id : str;
  turn_cwd : Url;
  turn_context_approval_policy : AskForApproval;
  settings_approval_policy : AskForApproval;
  settings_reviewer : ApprovalsReviewer;
  turn_timeout_instructions : str;
  active_environments : TurnEnvironmentSnapshot;
  turn_strict : bool;
}.

Record ActiveNetworkApprovalCall := mkCall {
  call_registration_id : str;
  call_turn_id : str;
  (** [trigger.cwd] *)
  call_cwd : Url;
  call_command : str;
  call_environment_id : str;
  call_permission_profile : PermissionProfile;
  call_environments : TurnEnvironmentSnapshot;
  call_cancellation_token : nat;
}.
Inductive ActiveNetworkApprovalAttribution := NoActiveCall | SingleCall (call : ActiveNetworkApprovalCall) | AmbiguousCalls.
Record NetworkRequestAttribution := mkAttribution { owner_call : option ActiveNetworkApprovalCall; attributed_environment_id : option str }.

(** ** The service *)

Record NetworkApprovalService := mkService {
  active_calls : list ActiveNetworkApprovalCall;
  call_outcomes : gmap str str;
  (** the tokens that were cancelled, the cells of [finish_outcome] *)
  cancelled : gset nat;
  finish_outcomes : gmap nat (option str);
  (** open questions by their place in [pending], where they stay *)
  pending_host_approvals : gmap PendingHostApprovalKey nat;
  pending : list PendingHostApproval;
  session_policy_commit_lock : option nat;
  session_approved_hosts : gset HostApprovalKey;
  session_denied_hosts : gset HostApprovalKey;
}.
Definition new_service : NetworkApprovalService := mkService [] ∅ ∅ ∅ ∅ [] None ∅ ∅.

Definition with_calls (s : NetworkApprovalService) calls outcomes : NetworkApprovalService :=
  mkService calls outcomes (cancelled s) (finish_outcomes s) (pending_host_approvals s) (pending s) (session_policy_commit_lock s)
    (session_approved_hosts s) (session_denied_hosts s).
Definition with_cancelled (s : NetworkApprovalService) c : NetworkApprovalService :=
  mkService (active_calls s) (call_outcomes s) c (finish_outcomes s) (pending_host_approvals s) (pending s) (session_policy_commit_lock s)
    (session_approved_hosts s) (session_denied_hosts s).
Definition with_finished (s : NetworkApprovalService) f : NetworkApprovalService :=
  mkService (active_calls s) (call_outcomes s) (cancelled s) f (pending_host_approvals s) (pending s) (session_policy_commit_lock s)
    (session_approved_hosts s) (session_denied_hosts s).
Definition with_pending (s : NetworkApprovalService) map ps : NetworkApprovalService :=
  mkService (active_calls s) (call_outcomes s) (cancelled s) (finish_outcomes s) map ps (session_policy_commit_lock s)
    (session_approved_hosts s) (session_denied_hosts s).
Definition with_lock (s : NetworkApprovalService) l : NetworkApprovalService :=
  mkService (active_calls s) (call_outcomes s) (cancelled s) (finish_outcomes s) (pending_host_approvals s) (pending s) l
    (session_approved_hosts s) (session_denied_hosts s).
Definition with_hosts (s : NetworkApprovalService) approved denied : NetworkApprovalService :=
  mkService (active_calls s) (call_outcomes s) (cancelled s) (finish_outcomes s) (pending_host_approvals s) (pending s)
    (session_policy_commit_lock s) approved denied.

Definition find_call (s : NetworkApprovalService) (id : str) : option ActiveNetworkApprovalCall :=
  List.find (fun c => str_eqb (call_registration_id c) id) (active_calls s).
(** [IndexMap::insert] and [shift_remove] *)
Definition insert_call (c : ActiveNetworkApprovalCall) (calls : list ActiveNetworkApprovalCall) : list ActiveNetworkApprovalCall :=
  if existsb (fun d => str_eqb (call_registration_id d) (call_registration_id c)) calls
  then (fun d => if str_eqb (call_registration_id d) (call_registration_id c) then c else d) <$> calls
  else calls ++ [c].
Definition remove_calls (id : str) (calls : list ActiveNetworkApprovalCall) : list ActiveNetworkApprovalCall :=
  List.filter (fun d => negb (str_eqb (call_registration_id d) id)) calls.

(** *** The critical sections *)

Definition resolve_single_active_call (s : NetworkApprovalService) : option ActiveNetworkApprovalCall :=
  match active_calls s with [call] => Some call | _ => None end.
Definition resolve_active_call_attribution (s : NetworkApprovalService) : ActiveNetworkApprovalAttribution :=
  match active_calls s with [] => NoActiveCall | [call] => SingleCall call | _ => AmbiguousCalls end.
Definition register_call (call : ActiveNetworkApprovalCall) (s : NetworkApprovalService) : NetworkApprovalService :=
  with_calls s (insert_call call (active_calls s)) (call_outcomes s).
Definition remove_call (id : str) (s : NetworkApprovalService) : option str * NetworkApprovalService :=
  (call_outcomes s !! id, with_calls s (remove_calls id (active_calls s)) (delete id (call_outcomes s))).

Definition store_call_outcome (id outcome : str) (s : NetworkApprovalService) : option nat * NetworkApprovalService :=
  match find_call s id with
  | Some call => (Some (call_cancellation_token call), with_calls s (active_calls s) (<[id := outcome]> (call_outcomes s)))
  | None => (None, s)
  end.
Definition store_call_outcome_if_absent (id outcome : str) (s : NetworkApprovalService) : option nat * NetworkApprovalService :=
  match find_call s id with
  | Some call =>
      (Some (call_cancellation_token call),
       with_calls s (active_calls s)
         (match call_outcomes s !! id with Some _ => call_outcomes s | None => <[id := outcome]> (call_outcomes s) end))
  | None => (None, s)
  end.

Definition get_or_create_pending_approval (key : PendingHostApprovalKey) (s : NetworkApprovalService)
    : (nat * bool) * NetworkApprovalService :=
  match pending_host_approvals s !! key with
  | Some existing => ((existing, false), s)
  | None =>
      let created := length (pending s) in
      ((created, true), with_pending s (<[key := created]> (pending_host_approvals s)) (pending s ++ [new_pending]))
  end.
(** The first half of [publish_and_remove] *)
Definition remove_pending (key : PendingHostApprovalKey) (p : nat) (s : NetworkApprovalService) : NetworkApprovalService :=
  if bool_decide (pending_host_approvals s !! key = Some p)
  then with_pending s (delete key (pending_host_approvals s)) (pending s) else s.
(** [OnceLock::set]: whether it was the first *)
Definition set_once (p : nat) (d : PendingApprovalDecision) (s : NetworkApprovalService) : bool * NetworkApprovalService :=
  match pending s !! p with
  | Some (mkPending None n) => (true, with_pending s (pending_host_approvals s) (<[p := mkPending (Some d) n]> (pending s)))
  | _ => (false, s)
  end.
Definition notify_waiters (p : nat) (s : NetworkApprovalService) : NetworkApprovalService :=
  with_pending s (pending_host_approvals s) (alter (fun q => mkPending (pending_decision q) (S (notify q))) p (pending s)).

(** [finish_outcome.get_or_init(finish_call_outcome)] *)
Definition finish_once (cell : nat) (id : str) (s : NetworkApprovalService) : option str * NetworkApprovalService :=
  match finish_outcomes s !! cell with
  | Some outcome => (outcome, s)
  | None =>
      let '(outcome, s) := remove_call id s in
      (outcome, with_finished s (<[cell := outcome]> (finish_outcomes s)))
  end.

(** ** Operations *)

Inductive NetOp :=
| ResolveByExecutionId (execution_id : str)
| ResolveSingle
| ResolveAttribution
| RegisterCall (call : ActiveNetworkApprovalCall)
| RemoveCall (id : str)
| FinishOnce (cell : nat) (id : str)
| StoreOutcome (id outcome : str)
| StoreOutcomeIfAbsent (id outcome : str)
| IsCancelled (token : nat)
| Cancel (token : nat)
| LockCommit
| UnlockCommit
| DeniedContains (key : HostApprovalKey)
| DeniedInsert (key : HostApprovalKey)
| DeniedRemove (key : HostApprovalKey)
| ApprovedContains (key : HostApprovalKey)
| ApprovedInsert (key : HostApprovalKey)
| ApprovedRemove (key : HostApprovalKey)
| ApprovedClone
| ApprovedReplace (keys : gset HostApprovalKey)
| GetOrCreatePending (key : PendingHostApprovalKey)
| RemovePending (key : PendingHostApprovalKey) (p : nat)
| SetOnce (p : nat) (d : PendingApprovalDecision)
| NotifyWaiters (p : nat)
| Notified (p : nat)
| GetDecision (p : nat)
| AwaitNotified (p n : nat)
(** of the surroundings: *)
| SessionAlive
| GetActiveTurn
| NewUuid
| CancellationReason
| DisconnectElapsed
| OtherReplaceApproved (keys : gset HostApprovalKey)
| ToolAwait (c : ToolCall)
| ToolUntil (token : nat) (c : ToolCall)
| AcquireRefresh
| ReadCodexHome
| LoadProxy
| AddDomain (action : NetworkPolicyRuleAction) (host : str)
| AppendNetworkRule (codex_home host : str) (rule : ExecPolicyNetworkRuleAmendment)
| RecordAmendmentMessage (sub_id : str) (amendment : NetworkPolicyAmendment)
| SendWarning (sub_id message : str).

Definition net_answer (o : NetOp) : Type :=
  match o with
  | ResolveByExecutionId _ | ResolveSingle => option ActiveNetworkApprovalCall
  | ResolveAttribution => ActiveNetworkApprovalAttribution
  | RemoveCall _ | FinishOnce _ _ => option str
  | StoreOutcome _ _ | StoreOutcomeIfAbsent _ _ => option nat
  | IsCancelled _ | DeniedContains _ | ApprovedContains _ | SetOnce _ _ | SessionAlive | LoadProxy => bool
  | ApprovedClone => gset HostApprovalKey
  | GetOrCreatePending _ => nat * bool
  | Notified _ => nat
  | GetDecision _ => option PendingApprovalDecision
  | GetActiveTurn => option ActiveTurn
  | NewUuid | ReadCodexHome => str
  | CancellationReason => option NetworkRequestCancellationReason
  | DisconnectElapsed => option N
  | ToolAwait c => tool_answer c
  | ToolUntil _ c => option (tool_answer c)
  | AcquireRefresh => result unit unit
  | AddDomain _ _ | AppendNetworkRule _ _ _ => result str unit
  | _ => unit
  end.
Abbreviation net_prog := (prog net_answer).
Abbreviation net_task := (task net_answer).
Abbreviation net_event := (event net_answer).

Definition exec (i : nat) (o : NetOp) (s : NetworkApprovalService) : net_answer o -> option (net_answer o * NetworkApprovalService) :=
  match o as o return net_answer o -> option (net_answer o * NetworkApprovalService) with
  | ResolveByExecutionId id => fun _ => Some (find_call s id, s)
  | ResolveSingle => fun _ => Some (resolve_single_active_call s, s)
  | ResolveAttribution => fun _ => Some (resolve_active_call_attribution s, s)
  | RegisterCall call => fun _ => Some (tt, register_call call s)
  | RemoveCall id => fun _ => Some (remove_call id s)
  | FinishOnce cell id => fun _ => Some (finish_once cell id s)
  | StoreOutcome id outcome => fun _ => Some (store_call_outcome id outcome s)
  | StoreOutcomeIfAbsent id outcome => fun _ => Some (store_call_outcome_if_absent id outcome s)
  | IsCancelled token => fun _ => Some (bool_decide (token ∈ cancelled s), s)
  | Cancel token => fun _ => Some (tt, with_cancelled s ({[token]} ∪ cancelled s))
  | LockCommit => fun _ => match session_policy_commit_lock s with
                           | None => Some (tt, with_lock s (Some i))
                           | Some _ => None
                           end
  | UnlockCommit => fun _ => Some (tt, with_lock s None)
  | DeniedContains key => fun _ => Some (bool_decide (key ∈ session_denied_hosts s), s)
  | DeniedInsert key => fun _ => Some (tt, with_hosts s (session_approved_hosts s) ({[key]} ∪ session_denied_hosts s))
  | DeniedRemove key => fun _ => Some (tt, with_hosts s (session_approved_hosts s) (session_denied_hosts s ∖ {[key]}))
  | ApprovedContains key => fun _ => Some (bool_decide (key ∈ session_approved_hosts s), s)
  | ApprovedInsert key => fun _ => Some (tt, with_hosts s ({[key]} ∪ session_approved_hosts s) (session_denied_hosts s))
  | ApprovedRemove key => fun _ => Some (tt, with_hosts s (session_approved_hosts s ∖ {[key]}) (session_denied_hosts s))
  | ApprovedClone => fun _ => Some (session_approved_hosts s, s)
  | ApprovedReplace keys => fun _ => Some (tt, with_hosts s keys (session_denied_hosts s))
  | GetOrCreatePending key => fun _ => Some (get_or_create_pending_approval key s)
  | RemovePending key p => fun _ => Some (tt, remove_pending key p s)
  | SetOnce p d => fun _ => Some (set_once p d s)
  | NotifyWaiters p => fun _ => Some (tt, notify_waiters p s)
  | Notified p => fun _ => Some (from_option notify 0 (pending s !! p), s)
  | GetDecision p => fun _ => Some (pending s !! p ≫= pending_decision, s)
  | AwaitNotified p n => fun _ => if n <? from_option notify 0 (pending s !! p) then Some (tt, s) else None
  | ToolUntil token c => fun x => match x with
                                  | Some _ => Some (x, s)
                                  | None => if bool_decide (token ∈ cancelled s) then Some (None, s) else None
                                  end
  | _ => fun x => Some (x, s)
  end.

(** ** Calls and their outcomes *)

Definition skip : net_prog unit := Done tt.

Definition record_call_outcome (id outcome : str) : net_prog unit :=
  token ← perform (StoreOutcome id outcome);
  match token with Some token => perform (Cancel token) | None => skip end.
Definition record_call_outcome_if_absent (id outcome : str) : net_prog unit :=
  token ← perform (StoreOutcomeIfAbsent id outcome);
  match token with Some token => perform (Cancel token) | None => skip end.
(** [if let Some(owner_call) = owner_call] *)
Definition record_for_owner (owner : option ActiveNetworkApprovalCall) (outcome : str) : net_prog unit :=
  match owner with Some call => record_call_outcome (call_registration_id call) outcome | None => skip end.

Definition record_blocked_request (b : BlockedRequest) : net_prog unit :=
  match denied_network_policy_message b with
  | None => skip
  | Some message =>
      owner ← match blocked_execution_id b with
              | Some id => perform (ResolveByExecutionId id)
              | None => perform ResolveSingle
              end;
      match owner with
      | Some call => record_call_outcome_if_absent (call_registration_id call) message
      | None => skip
      end
  end.

Definition network_approval_outcome_to_result (outcome : option str) : result ToolError unit :=
  match outcome with Some rejection => Err (Rejected (truncate_rejection_message rejection)) | None => Ok tt end.

(** [DeferredNetworkApproval::finish] *)
Definition finish (cell : nat) (id : str) (token : nat) : net_prog (result ToolError unit) :=
  outcome ← perform (FinishOnce cell id);
  match outcome with
  | Some _ => Done (network_approval_outcome_to_result outcome)
  | None =>
      was_cancelled ← perform (IsCancelled token);
      Done (network_approval_outcome_to_result (abandoned_network_approval_outcome was_cancelled))
  end.

(** ** Attribution *)

Definition resolve_request_attribution (request : NetworkPolicyRequest) : net_prog (option NetworkRequestAttribution) :=
  match req_execution_id request with
  | Some execution_id =>
      found ← perform (ResolveByExecutionId execution_id);
      Done (call ← found;
            let environment := default (call_environment_id call) (req_environment_id request) in
            if str_eqb (call_environment_id call) environment
            then Some (mkAttribution (Some call) (Some environment)) else None)
  | None =>
      match req_environment_id request with
      | Some environment =>
          active ← perform ResolveAttribution;
          Done (Some (mkAttribution
                        match active with
                        | SingleCall call => if str_eqb (call_environment_id call) environment then Some call else None
                        | NoActiveCall | AmbiguousCalls => None
                        end (Some environment)))
      | None =>
          active ← perform ResolveAttribution;
          Done match active with
               | NoActiveCall => Some (mkAttribution None None)
               | SingleCall call => Some (mkAttribution (Some call) (Some (call_environment_id call)))
               | AmbiguousCalls => None
               end
      end
  end.

(** ** The owner of an open question *)

Record PendingHostApprovalOwner := mkOwner {
  owner_key : PendingHostApprovalKey;
  owner_pending : nat;
  owner_execution_cancellation : option nat;
  owner_disconnect : bool;
  owner_cancellation : bool;
  decision_on_drop : PendingApprovalDecision;
}.
Definition set_decision_on_drop (owner : PendingHostApprovalOwner) (d : PendingApprovalDecision) : PendingHostApprovalOwner :=
  mkOwner (owner_key owner) (owner_pending owner) (owner_execution_cancellation owner) (owner_disconnect owner)
    (owner_cancellation owner) d.

Definition set_decision (p : nat) (d : PendingApprovalDecision) : net_prog unit :=
  first ← perform (SetOnce p d);
  if (first : bool) then perform (NotifyWaiters p) else skip.

Definition cancel_execution_if_denied (owner : PendingHostApprovalOwner) (d : PendingApprovalDecision) : net_prog unit :=
  match d, owner_execution_cancellation owner with
  | DenyPending, Some token => perform (Cancel token)
  | _, _ => skip
  end.
Definition publish_and_remove (owner : PendingHostApprovalOwner) (d : PendingApprovalDecision) : net_prog unit :=
  _ ← perform (RemovePending (owner_key owner) (owner_pending owner));
  set_decision (owner_pending owner) d.
Definition complete (owner : PendingHostApprovalOwner) (d : PendingApprovalDecision) : net_prog unit :=
  _ ← cancel_execution_if_denied owner d;
  publish_and_remove owner d.

(** [Drop for PendingHostApprovalOwner] *)
Definition drop_owner (owner : PendingHostApprovalOwner) : net_prog unit :=
  reason ← (if owner_cancellation owner then perform CancellationReason else Done None : net_prog (option NetworkRequestCancellationReason));
  if bool_decide (reason = Some ProcessFinished) then publish_and_remove owner (decision_on_drop owner)
  else
    _ ← match decision_on_drop owner, pk_execution_id (owner_key owner) with
        | DenyPending, Some id =>
            if owner_disconnect owner then
              elapsed ← perform DisconnectElapsed;
              match elapsed with
              | Some elapsed_ms =>
                  record_call_outcome_if_absent id
                    (lit "Network request disconnected after " ++ lit (pretty (elapsed_ms : N))
                     ++ lit " ms, before approval could complete")
              | None => skip
              end
            else skip
        | _, _ => skip
        end;
    _ ← cancel_execution_if_denied owner (decision_on_drop owner);
    publish_and_remove owner (decision_on_drop owner).

(** [wait_for_decision]; a waiter is woken only once the decision is there, so two
    rounds are enough ([None] is never returned). *)
Fixpoint wait_for_decision (rounds p : nat) : net_task (option PendingApprovalDecision) :=
  match rounds with
  | 0 => Finish None
  | S rounds =>
      Atom (Notified p) (fun n =>
      Atom (GetDecision p) (fun d =>
        match d with
        | Some decision => Finish (Some decision)
        | None => Await (AwaitNotified p n) (fun _ => wait_for_decision rounds p) skip
        end))
  end.

(** ** The hosts of the session *)

Definition unlock : net_prog unit := perform UnlockCommit.
Definition lock_commit (cleanup : net_prog unit) : net_task unit := awaiting cleanup (perform LockCommit).

Definition session_verdict (key : HostApprovalKey) : net_task (option NetworkDecision) :=
  _ ← lock_commit skip;
  denied ← awaiting unlock (perform (DeniedContains key));
  if (denied : bool) then _ ← sync unlock; Finish (Some not_allowed)
  else
    approved ← awaiting unlock (perform (ApprovedContains key));
    _ ← sync unlock;
    Finish (if (approved : bool) then Some NetAllow else None).

Definition sync_session_approved_hosts_to : net_task unit :=
  _ ← lock_commit skip;
  approved ← awaiting unlock (perform ApprovedClone);
  _ ← awaiting unlock (perform (OtherReplaceApproved approved));
  sync unlock.

(** ** Amending the policy *)

Definition validated_network_policy_amendment_host (amendment : NetworkPolicyAmendment) (context : NetworkApprovalContext) : result str str :=
  let approved_host := normalize_host (context_host context) in
  if str_eqb (normalize_host (amendment_host amendment)) approved_host then Ok approved_host
  else Err (lit "network policy amendment host '" ++ amendment_host amendment ++ lit "' does not match approved host '"
            ++ context_host context ++ lit "'").

(** The second component is whether [on_policy_applied] was called, which is when
    the clean-up changes from [before] to [applied]. *)
Definition persist_network_policy_amendment (before applied : net_prog unit) (amendment : NetworkPolicyAmendment)
    (context : NetworkApprovalContext) : net_task (result str unit * bool) :=
  permit ← awaiting before (perform AcquireRefresh);
  match permit with
  | Err _ => Finish (Err (lit "managed network proxy refresh semaphore closed"), false)
  | Ok _ =>
      match validated_network_policy_amendment_host amendment context with
      | Err e => Finish (Err e, false)
      | Ok host =>
          codex_home ← awaiting before (perform ReadCodexHome);
          let rule := execpolicy_network_rule_amendment amendment context host in
          let append cleanup := awaiting cleanup (perform (AppendNetworkRule codex_home host rule)) in
          let failed e := lit "failed to persist network policy amendment to execpolicy: " ++ e in
          proxy ← sync (perform LoadProxy);
          if (proxy : bool) then
            updated ← awaiting before (perform (AddDomain (amendment_action amendment) host));
            match updated with
            | Err e =>
                Finish (Err (match amendment_action amendment with
                             | NetworkAllow => lit "failed to update runtime allowlist: "
                             | NetworkDeny => lit "failed to update runtime denylist: "
                             end ++ e), false)
            | Ok _ => saved ← append applied; Finish (map_err failed saved, true)
            end
          else
            saved ← append before;
            Finish (map_err failed saved, is_ok (saved : result str unit))
      end
  end.

(** ** A request *)

(** [to_abs_path], and the text of an error *)
Context (native : PathConvention) (host_path : Url -> option Url) (render_error : CodexErr (Output := Output) -> str).

Definition permission_profile_allows_network_approval_flow (profile : PermissionProfile) : bool :=
  match profile with ProfileManaged _ _ => true | _ => false end.

(** What the question is about *)
Record Question := mkQuestion {
  q_request : NetworkPolicyRequest;
  q_owner_call : option ActiveNetworkApprovalCall;
  q_turn : ActiveTurn;
  q_environment_id : str;
}.
Definition q_protocol (q : Question) : NetworkApprovalProtocol := approval_protocol (req_protocol (q_request q)).
Definition q_key (q : Question) : HostApprovalKey := from_request (q_request q) (q_protocol q) (q_environment_id q).
Definition q_target (q : Question) : str :=
  format_network_target (hk_protocol (q_key q)) (req_host (q_request q)) (hk_port (q_key q)).
Definition policy_denial_message (target : str) : str :=
  lit "Network access to " ++ quoted target ++ lit " was blocked by policy.".
Definition q_pending_key (q : Question) : PendingHostApprovalKey :=
  mkPendingKey (q_key q) (from_option call_turn_id (turn_sub_id (q_turn q)) (q_owner_call q)) (call_registration_id <$> q_owner_call q).
Definition review_environments (q : Question) : TurnEnvironmentSnapshot :=
  from_option call_environments (active_environments (q_turn q)) (q_owner_call q).
Definition q_context (q : Question) : NetworkApprovalContext := mkNetworkContext (req_host (q_request q)) (q_protocol q).

Definition review_profile (q : Question) : option PermissionProfile :=
  match q_owner_call q with
  | Some call => Some (call_permission_profile call)
  | None => env_permission_profile <$> find_environment (review_environments q) (q_environment_id q)
  end.
Definition review_cwd (q : Question) : Url :=
  match call ← q_owner_call q; host_path (call_cwd call) with
  | Some cwd => cwd
  | None => default (turn_cwd (q_turn q)) (e ← find_environment (review_environments q) (q_environment_id q); host_path (env_cwd e))
  end.

Definition network_action (q : Question) : ApprovalAction (Value := Value) :=
  let approval_id := approval_id_for_key (q_key q) in
  let prompt_command := [lit "network-access"; q_target q] in
  NetworkAccess approval_id (q_environment_id q) (q_target q) (req_host (q_request q)) (q_protocol q)
    (from_option call_command (RustStr.join (lit " ") prompt_command) (q_owner_call q))
    (from_option (fun call => approval_id ++ lit "#" ++ call_registration_id call) approval_id (q_owner_call q))
    prompt_command (review_cwd q).
Definition network_approval_context_of (q : Question) (uuid : str) : ApprovalContext :=
  let environments := review_environments q in
  mkApprovalContext (turn_context_approval_policy (q_turn q)) (settings_approval_policy (q_turn q)) (settings_reviewer (q_turn q))
    (approval_id_for_key (q_key q) ++ lit "#" ++ uuid) false (turn_strict (q_turn q))
    (Some (req_host (q_request q) ++ lit " is not in the allowed_domains"))
    (Some (policy_denial_message (q_target q))) (Some (q_context q)) (snapshot_fingerprint environments)
    (snapshot_platform environments) (turn_timeout_instructions (q_turn q)).

(** [run_until_cancelled], or a plain [await] *)
Fixpoint until_cancelled {A} (token : option nat) (cleanup : net_prog unit) (p : tool_prog A) : net_task (option A) :=
  match p with
  | Done r => Finish (Some r)
  | Do c k =>
      match token with
      | Some t =>
          Await (ToolUntil t c) (fun x => match x with
                                          | Some x => until_cancelled token cleanup (k x)
                                          | None => Finish None
                                          end) cleanup
      | None => Await (ToolAwait c) (fun x => until_cancelled token cleanup (k x)) cleanup
      end
  end.

Definition respond (p : net_prog unit) (d : NetworkDecision) : net_task (option NetworkDecision) :=
  _ ← sync p; Finish (Some d).

Definition is_deny_amendment (d : ReviewDecision) : bool :=
  match d with NetworkAmendment (mkAmendment _ NetworkDeny) => true | _ => false end.

(** The amendment is saved, then announced *)
Definition amend (q : Question) (before applied : net_prog unit) (amendment : NetworkPolicyAmendment) : net_task bool :=
  persisted ← persist_network_policy_amendment before applied amendment (q_context q);
  let '(saved, was_applied) := persisted in
  let cleanup := if (was_applied : bool) then applied else before in
  _ ← match saved with
      | Ok _ => awaiting cleanup (perform (RecordAmendmentMessage (turn_sub_id (q_turn q)) amendment))
      | Err e =>
          awaiting cleanup (perform (SendWarning (turn_sub_id (q_turn q)) (lit "Failed to apply network policy amendment: " ++ e)))
      end;
  Finish was_applied.

(** The commit of a decision, under the lock. The clean-up releases the lock and
    then drops the owner. *)
Definition commit (q : Question) (owner : PendingHostApprovalOwner) (decision : ReviewDecision) : net_task PendingApprovalDecision :=
  let key := q_key q in
  let cleanup o := _ ← unlock; drop_owner o in
  let refuse outcome := _ ← sync (record_for_owner (q_owner_call q) outcome); Finish DenyPending in
  let blocked := policy_denial_message (q_target q) in
  match decision with
  | Approved | ApprovedExecpolicyAmendment _ =>
      denied ← awaiting (cleanup owner) (perform (DeniedContains key));
      if (denied : bool) then refuse blocked else Finish AllowOnce
  | ApprovedForSession =>
      denied ← awaiting (cleanup owner) (perform (DeniedContains key));
      if (denied : bool) then refuse blocked
      else _ ← awaiting (cleanup owner) (perform (ApprovedInsert key)); Finish AllowForSession
  | NetworkAmendment amendment =>
      match amendment_action amendment with
      | NetworkAllow =>
          let applied := set_decision_on_drop owner AllowForSession in
          was_applied ← amend q (cleanup owner) (cleanup applied) amendment;
          if (was_applied : bool) then
            _ ← awaiting (cleanup applied) (perform (DeniedRemove key));
            _ ← awaiting (cleanup applied) (perform (ApprovedInsert key));
            Finish AllowForSession
          else refuse blocked
      | NetworkDeny =>
          _ ← amend q (cleanup owner) (cleanup (set_decision_on_drop owner DenyPending)) amendment;
          _ ← sync (record_for_owner (q_owner_call q) (lit "rejected by user"));
          _ ← awaiting (cleanup owner) (perform (ApprovedRemove key));
          _ ← awaiting (cleanup owner) (perform (DeniedInsert key));
          Finish DenyPending
      end
  | _ => refuse (lit "Error while requesting approval")
  end.

Definition takes_commit_lock (d : ReviewDecision) : bool :=
  match d with
  | Approved | ApprovedExecpolicyAmendment _ | ApprovedForSession | NetworkAmendment _ => true
  | _ => false
  end.

(** From the decision of the review on *)
Definition apply_decision (q : Question) (owner : PendingHostApprovalOwner) (decision : ReviewDecision) : net_task (option NetworkDecision) :=
  _ ← sync (match q_owner_call q with
            | Some call =>
                if is_deny_amendment decision
                then _ ← perform (StoreOutcome (call_registration_id call) (lit "rejected by user")); skip
                else skip
            | None => skip
            end);
  if takes_commit_lock decision then
    _ ← lock_commit (drop_owner owner);
    resolved ← commit q owner decision;
    respond (_ ← complete owner resolved; unlock) (to_network_decision resolved)
  else
    resolved ← commit q owner decision;
    respond (complete owner resolved) (to_network_decision resolved).

Definition ask_about (q : Question) (owner : PendingHostApprovalOwner) : net_task (option NetworkDecision) :=
  let refuse outcome := respond (_ ← record_for_owner (q_owner_call q) outcome; complete owner DenyPending) not_allowed in
  if negb (from_option permission_profile_allows_network_approval_flow false (review_profile q))
  then refuse (policy_denial_message (q_target q))
  else if negb (allows_network_approval_flow (settings_approval_policy (q_turn q)))
  then refuse (policy_denial_message (q_target q))
  else
    uuid ← sync (perform NewUuid);
    review ← until_cancelled (call_cancellation_token <$> q_owner_call q) (drop_owner owner)
               (request_approval native (network_action q) (network_approval_context_of q uuid));
    match review with
    | None => respond (complete owner DenyPending) not_allowed
    | Some (Return decision) => apply_decision q owner decision
    | Some (Throw (Rejected rejection)) => refuse rejection
    | Some (Throw (Codex TurnAborted)) => refuse (lit "rejected by user")
    | Some (Throw (Codex err)) => refuse (lit "Error while requesting approval: " ++ render_error err)
    | Some Panic => _ ← sync (drop_owner owner); Finish None
    end.

Definition new_owner (q : Question) (p : nat) : PendingHostApprovalOwner :=
  mkOwner (q_pending_key q) p (call_cancellation_token <$> q_owner_call q) (req_disconnect (q_request q))
    (req_cancellation (q_request q)) DenyPending.

Definition join_or_ask (q : Question) : net_task (option NetworkDecision) :=
  attached ← sync (perform (GetOrCreatePending (q_pending_key q)) : net_prog (nat * bool));
  if (attached : nat * bool).2 then ask_about q (new_owner q attached.1)
  else decision ← wait_for_decision 2 attached.1; Finish (option_map to_network_decision decision).

(** [None] is a panic. *)
Definition handle_inline_policy_request (request : NetworkPolicyRequest) : net_task (option NetworkDecision) :=
  attribution ← sync (resolve_request_attribution request);
  match attribution with
  | None => Finish (Some not_allowed)
  | Some (mkAttribution owner active_environment_id) =>
      stopped ← sync (match owner with
                      | Some call => perform (IsCancelled (call_cancellation_token call))
                      | None => Done false
                      end : net_prog bool);
      if (stopped : bool) then Finish (Some not_allowed)
      else
        turn ← awaiting skip (perform GetActiveTurn);
        match or_else active_environment_id
                (environment_id <$> ((turn : option ActiveTurn) ≫= (fun t => primary (active_environments t)))) with
        | None => Finish (Some not_allowed)
        | Some environment =>
            let protocol := approval_protocol (req_protocol request) in
            let key := from_request request protocol environment in
            verdict ← session_verdict key;
            match verdict with
            | Some d => Finish (Some d)
            | None =>
                match turn with
                | None =>
                    respond (record_for_owner owner
                               (policy_denial_message (format_network_target (hk_protocol key) (req_host request) (hk_port key))))
                      not_allowed
                | Some turn => join_or_ask (mkQuestion request owner turn environment)
                end
            end
        end
  end.

(** [build_network_policy_decider] *)
Definition network_policy_decider (request : NetworkPolicyRequest) : net_task (option NetworkDecision) :=
  alive ← awaiting skip (perform SessionAlive);
  if (alive : bool) then handle_inline_policy_request request else Finish (Some (network_ask REASON_NOT_ALLOWED)).

(** ** Jobs *)

(** What runs on the service; [ReceiveApproved] is the other end of
    [sync_session_approved_hosts_to]. *)
Inductive Job :=
| Decide (request : NetworkPolicyRequest)
| Register (call : ActiveNetworkApprovalCall)
| Unregister (id : str)
| FinishDeferred (cell : nat) (id : str) (token : nat)
| ObserveBlocked (b : BlockedRequest)
| SendApproved
| ReceiveApproved (keys : gset HostApprovalKey).

(** The answer of a [Decide]; the others give none. *)
Definition job_task (j : Job) : net_task (option NetworkDecision) :=
  match j with
  | Decide request => network_policy_decider request
  | Register call => _ ← sync (perform (RegisterCall call)); Finish None
  | Unregister id => _ ← sync (perform (RemoveCall id)); Finish None
  | FinishDeferred cell id token => _ ← sync (finish cell id token); Finish None
  | ObserveBlocked b => _ ← sync (record_blocked_request b); Finish None
  | SendApproved => _ ← sync_session_approved_hosts_to; Finish None
  | ReceiveApproved keys => _ ← awaiting skip (perform (ApprovedReplace keys)); Finish None
  end.

End NetworkApproval.
