(* ===== verification/NetworkProtocol.v ===== *)
(** * The protocol of network approvals

    What a task of NetworkApproval.v has learned and still owes, what it may do
    next, and the invariant of the shared service under tasks that keep to it: the
    hosts of the session change only under the commit lock, every open question
    has one owner, and what is published was granted. *)

From S2P Require Import Prelude RustStr ExecPolicy Truncate HostPattern PathUri Permissions PermissionTransforms.
From S2P Require Import ShellSyntax CommandSafety ExecApproval Interaction ToolSandbox ToolApprovals Tasks NetworkApproval.

Section Protocol.
Context {UL : UrlLib} {GL : GlobLib} {SG : ShellGrammar} {SQ : ShellQuoting} {KJ : KeyJson} {Value Output Out : Type}.
Abbreviation net_op := (NetOp (Value := Value)).
Abbreviation net_answer := (net_answer (Value := Value) (Output := Output) (Out := Out)).
Abbreviation net_event := (event net_answer).
Abbreviation net_note := (note net_answer Job).
Abbreviation exec := (exec (Value := Value) (Output := Output) (Out := Out)).

(** ** Consent *)

Definition positive (d : ReviewDecision) : bool :=
  match d with
  | Approved | ApprovedExecpolicyAmendment _ | ApprovedForSession | NetworkAmendment (mkAmendment _ NetworkAllow) => true
  | _ => false
  end.
(** for more than one request *)
Definition lasting (d : ReviewDecision) : bool :=
  match d with ApprovedForSession | NetworkAmendment (mkAmendment _ NetworkAllow) => true | _ => false end.

(** The action asks about the host of the key, under its environment, protocol
    and port. *)
Definition about (K : HostApprovalKey) (action : ApprovalAction (Value := Value)) : Prop :=
  exists host protocol hook_command run_suffix cwd,
    let target := format_network_target (hk_protocol K) host (hk_port K) in
    action = NetworkAccess (approval_id_for_key K) (hk_environment_id K) target host protocol hook_command
               (approval_id_for_key K ++ run_suffix) [lit "network-access"; target] cwd
    /\ to_ascii_lowercase host = hk_host K /\ protocol_key_label protocol = hk_protocol K.

(** A hook, the reviewer or the user said yes to an action about the key. *)
Definition grants (good : ReviewDecision -> bool) (K : HostApprovalKey) (c : ToolCall (Value := Value))
    : tool_answer (Value := Value) (Output := Output) (Out := Out) c -> Prop :=
  match c with
  | RunHooks run_id payload => fun a =>
      exists action ctx, about K action /\ run_id = permission_request_run_id action ctx /\ payload = permission_request_payload action
                         /\ a = Some HookAllow /\ good Approved = true
  | SpawnApproval args => fun a => about K (guardian_action args) /\ exists d, a = Ok (Some d) /\ good d = true
  | AskUser question => fun d =>
      good d = true
      /\ exists host protocol call_id cwd reason,
           question = CommandQuestion CommandKind call_id None (hk_environment_id K)
                        [lit "network-access"; format_network_target (hk_protocol K) host (hk_port K)] cwd reason
                        (Some (mkNetworkContext host protocol)) None None None
           /\ to_ascii_lowercase host = hk_host K /\ protocol_key_label protocol = hk_protocol K
  | _ => fun _ => False
  end.
Definition consents (good : ReviewDecision -> bool) (K : HostApprovalKey) (e : net_event) : Prop :=
  match e with
  | existT o a =>
      match o as o return net_answer o -> Prop with
      | ToolAwait c => fun a => grants good K c a
      | ToolUntil _ c => fun a => match a with Some a => grants good K c a | None => False end
      | _ => fun _ => False
      end a
  end.

(** ** What the trace says *)

Definition denied_by (d : gset HostApprovalKey) (n : nat * net_note) : gset HostApprovalKey :=
  match n.2 with
  | Did (existT (DeniedInsert k) _) => {[k]} ∪ d
  | Did (existT (DeniedRemove k) _) => d ∖ {[k]}
  | _ => d
  end.
Definition denied_after (tr : list (nat * net_note)) : gset HostApprovalKey := foldl denied_by ∅ tr.

Lemma denied_after_snoc tr n : denied_after (tr ++ [n]) = denied_by (denied_after tr) n.
Proof. unfold denied_after. by rewrite foldl_app. Qed.

Definition did (i : nat) (e : net_event) (tr : list (nat * net_note)) : Prop := (i, Did e) ∈ tr.

(** The policy was amended to allow the host of the key. *)
Definition allows_host (K : HostApprovalKey) (e : net_event) : Prop :=
  exists host, to_ascii_lowercase host = hk_host K
  /\ match e with
     | existT o a =>
         match o as o return net_answer o -> Prop with
         | AddDomain NetworkAllow h => fun a => h = normalize_host host /\ a = Ok tt
         | AppendNetworkRule _ h rule => fun a => h = normalize_host host /\ rule_decision rule = Decisions.Allow /\ a = Ok tt
         | _ => fun _ => False
         end a
     end.

(** A moment since thread [i] was started when the session did not deny the key,
    or the policy had been amended to allow it by a task that was then dropped. *)
Definition moment (tr : list (nat * net_note)) (i : nat) (K : HostApprovalKey) : Prop :=
  exists tr1 tr2, tr = tr1 ++ tr2 /\ (exists j, (i, Spawned j) ∈ tr1)
  /\ (K ∉ denied_after tr1 \/ exists j e, (j, WasDropped) ∈ tr1 /\ did j e tr1 /\ allows_host K e).

Definition given_for_session (tr : list (nat * net_note)) (K : HostApprovalKey) : Prop :=
  (exists j e, did j e tr /\ consents lasting K e) \/ exists j keys, (j, Spawned (ReceiveApproved keys)) ∈ tr /\ K ∈ keys.

Lemma moment_mono tr i K n : moment tr i K -> moment (tr ++ n) i K.
Proof. intros (tr1 & tr2 & -> & ? & ?). exists tr1, (tr2 ++ n). by rewrite <- app_assoc. Qed.
Lemma did_mono i e tr n : did i e tr -> did i e (tr ++ n).
Proof. unfold did. set_solver. Qed.
Lemma given_mono tr K n : given_for_session tr K -> given_for_session (tr ++ n) K.
Proof. intros [(j & e & ? & ?)|(j & ks & ? & ?)]; [left|right]; [exists j, e|exists j, ks]; split; try done; [by apply did_mono|set_solver]. Qed.
Lemma moment_now tr i j K : (i, Spawned j) ∈ tr -> K ∉ denied_after tr -> moment tr i K.
Proof. intros ??. exists tr, []. rewrite app_nil_r. split_and!; eauto. Qed.

(** ** What a task has learned and owes *)

Inductive Hold :=
| NoQuestion
| Owns (pk : PendingHostApprovalKey) (p : nat)
| OwnsRemoved (pk : PendingHostApprovalKey) (p : nat)
| OwnsDecided (pk : PendingHostApprovalKey) (p : nat) (d : PendingApprovalDecision)
| Settled (pk : PendingHostApprovalKey) (p : nat) (d : PendingApprovalDecision)
| Joined (pk : PendingHostApprovalKey) (p : nat)
| Heard (pk : PendingHostApprovalKey) (p n : nat)
| Undecided (pk : PendingHostApprovalKey) (p n : nat)
| Woken (pk : PendingHostApprovalKey) (p : nat)
| HeardAgain (pk : PendingHostApprovalKey) (p : nat)
| Told (pk : PendingHostApprovalKey) (p : nat) (d : PendingApprovalDecision).

Definition owner_of (h : Hold) : option (PendingHostApprovalKey * nat) :=
  match h with Owns pk p | OwnsRemoved pk p | OwnsDecided pk p _ | Settled pk p _ => Some (pk, p) | _ => None end.
Definition waiter_of (h : Hold) : option (PendingHostApprovalKey * nat) :=
  match h with
  | Joined pk p | Heard pk p _ | Undecided pk p _ | Woken pk p | HeardAgain pk p | Told pk p _ => Some (pk, p)
  | _ => None
  end.
Definition state_of (h : Hold) : PendingHostApproval :=
  match h with
  | OwnsDecided _ _ d => mkPending (Some d) 0
  | Settled _ _ d => mkPending (Some d) 1
  | _ => mkPending None 0
  end.
Definition decided_of (h : Hold) : option PendingApprovalDecision :=
  match h with OwnsDecided _ _ d | Settled _ _ d => Some d | _ => None end.
Definition not_owning (h : Hold) : Prop := owner_of h = None \/ exists pk p d, h = Settled pk p d.

Record Local := mkLocal {
  l_job : Job;
  l_key : option HostApprovalKey;
  l_locked : bool;
  (** the key is known not to be denied *)
  l_clear : bool;
  (** the key was found among the approved ones *)
  l_hit : bool;
  l_dropped : bool;
  l_hold : Hold;
  l_log : list net_event;
}.

Definition begins (j : Job) : Local := mkLocal j None false false false false NoQuestion [].
Definition drops (l : Local) : Local := mkLocal (l_job l) (l_key l) (l_locked l) (l_clear l) (l_hit l) true (l_hold l) (l_log l).

(** The key is of the request of the job. *)
Definition fits (j : Job) (K : HostApprovalKey) : Prop :=
  match j with
  | Decide r =>
      hk_host K = to_ascii_lowercase (req_host r) /\ hk_protocol K = protocol_key_label (approval_protocol (req_protocol r))
      /\ hk_port K = req_port r /\ forall e, req_environment_id r = Some e -> hk_environment_id K = e
  | _ => False
  end.

Definition granted (good : ReviewDecision -> bool) (K : HostApprovalKey) (l : Local) : Prop := exists e, e ∈ l_log l /\ consents good K e.

Definition may (l : Local) (o : net_op) : Prop :=
  match o with
  | LockCommit => l_locked l = false
  | UnlockCommit => l_locked l = true
  | DeniedContains k => l_locked l = true /\ match l_key l with Some k' => k' = k | None => fits (l_job l) k end
  | ApprovedContains k => l_locked l = true /\ l_clear l = true /\ l_key l = Some k
  | ApprovedInsert k => l_locked l = true /\ l_key l = Some k /\ granted lasting k l
  | ApprovedRemove k | DeniedInsert k | DeniedRemove k => l_locked l = true /\ l_key l = Some k
  | ApprovedReplace keys => l_job l = ReceiveApproved keys
  | GetOrCreatePending pk => l_hold l = NoQuestion /\ l_key l = Some (pk_host pk)
  | RemovePending pk p => l_hold l = Owns pk p
  | SetOnce p d =>
      exists pk, l_hold l = OwnsRemoved pk p
      /\ (d <> DenyPending -> granted positive (pk_host pk) l
          /\ (l_clear l = true \/ l_dropped l = true /\ exists e, e ∈ l_log l /\ allows_host (pk_host pk) e))
  | NotifyWaiters p => exists pk d, l_hold l = OwnsDecided pk p d
  | Notified p => exists pk, l_hold l = Joined pk p \/ l_hold l = Woken pk p
  | GetDecision p => exists pk, (exists n, l_hold l = Heard pk p n) \/ l_hold l = HeardAgain pk p
  | AwaitNotified p n => l_locked l = false /\ exists pk, l_hold l = Undecided pk p n
  | _ => True
  end.

Definition possible (l : Local) (o : net_op) : net_answer o -> Prop :=
  match o with
  | SetOnce _ _ => fun first => first = true
  | GetDecision p => fun a => (exists pk, l_hold l = HeardAgain pk p) -> a <> None
  | _ => fun _ => True
  end.

Definition with_hold (l : Local) (h : Hold) : Local :=
  mkLocal (l_job l) (l_key l) (l_locked l) (l_clear l) (l_hit l) (l_dropped l) h (l_log l).
Definition with_flags (l : Local) (locked clear hit : bool) (key : option HostApprovalKey) : Local :=
  mkLocal (l_job l) key locked clear hit (l_dropped l) (l_hold l) (l_log l).
Definition logs (l : Local) (e : net_event) : Local :=
  mkLocal (l_job l) (l_key l) (l_locked l) (l_clear l) (l_hit l) (l_dropped l) (l_hold l) (l_log l ++ [e]).

Definition hold_after (h : Hold) (o : net_op) : net_answer o -> Hold :=
  match o with
  | GetOrCreatePending pk => fun a => if (a : nat * bool).2 then Owns pk a.1 else Joined pk a.1
  | RemovePending pk p => fun _ => OwnsRemoved pk p
  | SetOnce p d => fun _ => match h with OwnsRemoved pk _ => OwnsDecided pk p d | _ => h end
  | NotifyWaiters _ => fun _ => match h with OwnsDecided pk p d => Settled pk p d | _ => h end
  | Notified p => fun n => match h with Joined pk _ => Heard pk p n | Woken pk _ => HeardAgain pk p | _ => h end
  | GetDecision p => fun a => match a, h with
                              | Some d, Heard pk _ _ | Some d, HeardAgain pk _ => Told pk p d
                              | None, Heard pk _ n => Undecided pk p n
                              | _, _ => h
                              end
  | AwaitNotified p _ => fun _ => match h with Undecided pk _ _ => Woken pk p | _ => h end
  | _ => fun _ => h
  end.
Definition flags_after (l : Local) (o : net_op) : net_answer o -> Local :=
  let key := l_key l in
  let locked := l_locked l in
  let clear := l_clear l in
  let hit := l_hit l in
  match o with
  | LockCommit => fun _ => with_flags l true false hit key
  | UnlockCommit => fun _ => with_flags l false false hit key
  | DeniedContains k => fun denied => with_flags l locked (negb denied) hit (Some k)
  | DeniedInsert _ => fun _ => with_flags l locked false hit key
  | DeniedRemove _ => fun _ => with_flags l locked true hit key
  | ApprovedContains _ => fun found => with_flags l locked clear found key
  | _ => fun _ => l
  end.
Definition after (l : Local) (o : net_op) (a : net_answer o) : Local :=
  logs (with_hold (flags_after l o a) (hold_after (l_hold l) o a)) (existT o a).

Definition allowed (d : option PendingApprovalDecision) : Prop := exists d', d = Some d' /\ d' <> DenyPending.
Definition decision_told (h : Hold) : option PendingApprovalDecision :=
  match h with Settled _ _ d | Told _ _ d => Some d | _ => None end.

(** A request may end with an answer, which is yes only if the key was found
    approved or the question was answered so. *)
Definition entitled (l : Local) (r : option NetworkDecision) : Prop :=
  l_locked l = false /\ not_owning (l_hold l)
  /\ match l_job l with
     | Decide _ => exists d, r = Some d /\ (d = NetAllow -> l_hit l = true \/ allowed (decision_told (l_hold l)))
     | _ => True
     end.
Definition quit (l : Local) : Prop := l_locked l = false /\ not_owning (l_hold l).

(** ** The invariant *)

Record thread_ok (s : NetworkApprovalService) (tr : list (nat * net_note)) (i : nat) (l : Local) : Prop := {
  ok_spawned : (i, Spawned (l_job l)) ∈ tr;
  ok_log e : e ∈ l_log l -> did i e tr;
  ok_dropped : l_dropped l = true -> (i, WasDropped) ∈ tr;
  ok_key K : l_key l = Some K -> fits (l_job l) K /\ exists b : bool, existT (DeniedContains K : net_op) b ∈ l_log l;
  ok_clear : l_clear l = true -> l_locked l = true /\ exists K, l_key l = Some K /\ K ∉ session_denied_hosts s;
  ok_hit : l_hit l = true -> exists K, l_key l = Some K /\ moment tr i K /\ given_for_session tr K;
  ok_owner pk p : owner_of (l_hold l) = Some (pk, p) ->
    l_key l = Some (pk_host pk) /\ existT (GetOrCreatePending pk : net_op) (p, true) ∈ l_log l /\ pending s !! p = Some (state_of (l_hold l));
  ok_decided pk p : owner_of (l_hold l) = Some (pk, p) -> allowed (decided_of (l_hold l)) ->
    granted positive (pk_host pk) l /\ moment tr i (pk_host pk);
  ok_waiter pk p : waiter_of (l_hold l) = Some (pk, p) ->
    l_key l = Some (pk_host pk) /\ existT (GetOrCreatePending pk : net_op) (p, false) ∈ l_log l
    /\ exists q, pending s !! p = Some q
       /\ (allowed (pending_decision q) -> moment tr i (pk_host pk))
       /\ match l_hold l with
          | Heard _ _ n => n <= notify q
          | Undecided _ _ n => n = 0
          | Woken _ _ | HeardAgain _ _ => pending_decision q <> None
          | Told _ _ d => pending_decision q = Some d
          | _ => True
          end;
}.

Record Inv (s : NetworkApprovalService) (ls : list Local) (tr : list (nat * net_note)) : Prop := {
  inv_lock i : session_policy_commit_lock s = Some i <-> exists l, ls !! i = Some l /\ l_locked l = true;
  inv_denied : session_denied_hosts s = denied_after tr;
  inv_approved K : K ∈ session_approved_hosts s -> given_for_session tr K;
  inv_spawned i j : (i, Spawned j) ∈ tr -> exists l, ls !! i = Some l /\ l_job l = j;
  inv_open pk p : pending_host_approvals s !! pk = Some p -> exists i l, ls !! i = Some l /\ l_hold l = Owns pk p;
  inv_owned p : p < length (pending s) -> exists i l pk, ls !! i = Some l /\ owner_of (l_hold l) = Some (pk, p);
  inv_unique i i' l l' pk pk' p :
    ls !! i = Some l -> ls !! i' = Some l' -> owner_of (l_hold l) = Some (pk, p) -> owner_of (l_hold l') = Some (pk', p) -> i = i';
  inv_joined i l pk p : ls !! i = Some l -> waiter_of (l_hold l) = Some (pk, p) ->
    exists i' l', ls !! i' = Some l' /\ owner_of (l_hold l') = Some (pk, p);
  inv_thread i l : ls !! i = Some l -> thread_ok s tr i l;
}.

(** ** Stability *)

Definition later (q q' : PendingHostApproval) : Prop :=
  (pending_decision q <> None -> pending_decision q' = pending_decision q) /\ notify q <= notify q'.
#[local] Instance later_refl : Reflexive later.
Proof. by split. Qed.

(** What one thread knows outlives what the others do. *)
Lemma thread_ok_frame s s' tr n i l :
  thread_ok s tr i l ->
  (l_clear l = true -> session_denied_hosts s' = session_denied_hosts s) ->
  (forall pk p, owner_of (l_hold l) = Some (pk, p) -> pending s' !! p = pending s !! p) ->
  (forall pk p q, waiter_of (l_hold l) = Some (pk, p) -> pending s !! p = Some q ->
     exists q', pending s' !! p = Some q' /\ later q q'
     /\ (allowed (pending_decision q') -> allowed (pending_decision q) \/ moment (tr ++ n) i (pk_host pk))) ->
  thread_ok s' (tr ++ n) i l.
Proof.
  intros [] Hd Ho Hw. split; try done.
  - set_solver.
  - intros e ?. apply did_mono. auto.
  - set_solver.
  - intros Hc. destruct (ok_clear0 Hc) as (? & K & ? & ?). split; [done|]. exists K. by rewrite Hd.
  - intros Hh. destruct (ok_hit0 Hh) as (K & ? & ? & ?). exists K. split_and!; [done|by apply moment_mono|by apply given_mono].
  - intros pk p Hp. rewrite (Ho _ _ Hp). auto.
  - intros pk p Hp Ha. destruct (ok_decided0 _ _ Hp Ha). split; [done|by apply moment_mono].
  - intros pk p Hp. destruct (ok_waiter0 _ _ Hp) as (? & ? & q & Hq & Hm & Hh). split_and!; [done..|].
    destruct (Hw _ _ _ Hp Hq) as (q' & Hq' & [Hl Hn] & Hm'). exists q'. split_and!; [done| |].
    + intros [?|?]%Hm'; [|done]. apply moment_mono. auto.
    + destruct (l_hold l); try done; [lia|by rewrite Hl..|]. rewrite Hl; congruence.
Qed.

Lemma upd_lookup (ls : list Local) i l l' j m :
  ls !! i = Some l -> <[i := l']> ls !! j = Some m -> (j = i /\ m = l') \/ (j <> i /\ ls !! j = Some m).
Proof. intros Hi [(-> & -> & _)|[? ?]]%list_lookup_insert_Some; naive_solver. Qed.
Lemma upd_other (ls : list Local) i l l' j m :
  ls !! i = Some l -> ls !! j = Some m -> <[i := l']> ls !! j = Some (if decide (j = i) then l' else m).
Proof.
  intros Hi Hj. case_decide as H; [subst; apply list_lookup_insert_eq; by eapply lookup_lt_Some|by rewrite list_lookup_insert_ne].
Qed.

Section Update.
Context (s s' : NetworkApprovalService) (ls : list Local) (tr : list (nat * net_note)) (i : nat) (l l' : Local) (n : net_note).
Context (HI : Inv s ls tr) (Hi : ls !! i = Some l).
Context (Hjob : l_job l' = l_job l) (Hn : match n with Spawned _ => False | _ => True end).
Abbreviation ls' := (<[i := l']> ls).
Abbreviation tr' := (tr ++ [(i, n)]).

Lemma upd_spawned j jb : (j, Spawned jb) ∈ tr' -> exists m, ls' !! j = Some m /\ l_job m = jb.
Proof.
  intros [H|H]%elem_of_app; [|apply list_elem_of_singleton in H; simplify_eq; done].
  destruct (inv_spawned _ _ _ HI _ _ H) as (m & Hm & <-). eexists. split; [by eapply upd_other|]. by case_decide; simplify_eq.
Qed.

(** Steps that leave the questions alone *)
Lemma inv_flags :
  pending s' = pending s -> pending_host_approvals s' = pending_host_approvals s -> l_hold l' = l_hold l ->
  (forall j, session_policy_commit_lock s' = Some j <-> exists m, ls' !! j = Some m /\ l_locked m = true) ->
  session_denied_hosts s' = denied_by (session_denied_hosts s) (i, n) ->
  (l_locked l = true \/ session_denied_hosts s' = session_denied_hosts s) ->
  (forall K, K ∈ session_approved_hosts s' -> given_for_session tr' K) ->
  thread_ok s' tr' i l' ->
  Inv s' ls' tr'.
Proof.
  intros Hp Hm Hh Hl Hd Hd' Ha Hok. split; [done| |done|apply upd_spawned| | | | |].
  - by rewrite Hd, denied_after_snoc, (inv_denied _ _ _ HI).
  - intros pk p. rewrite Hm. intros (j & m & Hj & Ho)%(inv_open _ _ _ HI).
    exists j. eexists. split; [by eapply upd_other|]. case_decide; simplify_eq; congruence.
  - intros p. rewrite Hp. intros (j & m & pk & Hj & Ho)%(inv_owned _ _ _ HI).
    exists j. eexists _, pk. split; [by eapply upd_other|]. case_decide; simplify_eq; congruence.
  - intros j j' m m' pk pk' p Hj Hj' Ho Ho'.
    apply (upd_lookup _ _ _ _ _ _ Hi) in Hj as [[-> ->]|[? Hj]]; apply (upd_lookup _ _ _ _ _ _ Hi) in Hj' as [[-> ->]|[? Hj']];
      rewrite ?Hh in *; by eapply (inv_unique _ _ _ HI).
  - intros j m pk p Hj Hw.
    assert (exists m0, ls !! j = Some m0 /\ waiter_of (l_hold m0) = Some (pk, p)) as (m0 & Hj0 & Hw0).
    { apply (upd_lookup _ _ _ _ _ _ Hi) in Hj as [[-> ->]|[? Hj]]; [exists l; by rewrite <- Hh|by exists m]. }
    destruct (inv_joined _ _ _ HI _ _ _ _ Hj0 Hw0) as (j' & m' & Hj' & Ho).
    exists j'. eexists. split; [by eapply upd_other|]. case_decide; simplify_eq; congruence.
  - intros j m Hj. apply (upd_lookup _ _ _ _ _ _ Hi) in Hj as [[-> ->]|[Hne Hj]]; [done|].
    pose proof (inv_thread _ _ _ HI _ _ Hj) as Hok'. eapply thread_ok_frame; [exact Hok'| | |]; rewrite ?Hp; [|done|].
    + intros Hc. destruct Hd' as [Hlock|?]; [|done]. exfalso. apply Hne.
      destruct (ok_clear _ _ _ _ Hok' Hc) as [Hlock' _].
      assert (session_policy_commit_lock s = Some j) as H1 by (apply (inv_lock _ _ _ HI); eauto).
      assert (session_policy_commit_lock s = Some i) as H2 by (apply (inv_lock _ _ _ HI); eauto). congruence.
    + intros pk p q _ Hq. exists q. split_and!; [done|done|by left].
Qed.

(** Steps about a question *)
Lemma inv_hold :
  session_policy_commit_lock s' = session_policy_commit_lock s -> session_denied_hosts s' = session_denied_hosts s ->
  session_approved_hosts s' = session_approved_hosts s -> l_locked l' = l_locked l ->
  denied_by (session_denied_hosts s) (i, n) = session_denied_hosts s ->
  (forall pk p, pending_host_approvals s' !! pk = Some p -> exists j m, ls' !! j = Some m /\ l_hold m = Owns pk p) ->
  (forall p, p < length (pending s') -> exists j m pk, ls' !! j = Some m /\ owner_of (l_hold m) = Some (pk, p)) ->
  (forall pk p, owner_of (l_hold l) = Some (pk, p) -> owner_of (l_hold l') = Some (pk, p)) ->
  (forall pk p, owner_of (l_hold l') = Some (pk, p) -> owner_of (l_hold l) = Some (pk, p) \/ length (pending s) <= p) ->
  (forall pk p, waiter_of (l_hold l') = Some (pk, p) -> waiter_of (l_hold l) = Some (pk, p)
     \/ exists j m, j <> i /\ ls !! j = Some m /\ owner_of (l_hold m) = Some (pk, p)) ->
  (forall j m, j <> i -> ls !! j = Some m -> thread_ok s' tr' j m) ->
  thread_ok s' tr' i l' ->
  Inv s' ls' tr'.
Proof.
  intros Hl Hd Ha Hlk Hdn Hopen Howned Hkeep Hnew Hwait Hothers Hok.
  assert (Howner : forall j m pk p, ls !! j = Some m -> owner_of (l_hold m) = Some (pk, p) -> p < length (pending s)).
  { intros j m pk p Hj Ho. destruct (ok_owner _ _ _ _ (inv_thread _ _ _ HI _ _ Hj) _ _ Ho) as (_ & _ & H). by eapply lookup_lt_Some. }
  split; [| | |apply upd_spawned|done|done| | |].
  - intros j. rewrite Hl, (inv_lock _ _ _ HI). split.
    + intros (m & Hj & Hm). eexists. split; [by eapply upd_other|]. case_decide; simplify_eq; congruence.
    + intros (m & Hj & Hm). apply (upd_lookup _ _ _ _ _ _ Hi) in Hj as [[-> ->]|[? Hj]]; [exists l; by rewrite <- Hlk|by exists m].
  - by rewrite Hd, denied_after_snoc, <- (inv_denied _ _ _ HI).
  - intros K. rewrite Ha. intros ?%(inv_approved _ _ _ HI). by apply given_mono.
  - intros j j' m m' pk pk' p Hj Hj' Ho Ho'.
    apply (upd_lookup _ _ _ _ _ _ Hi) in Hj as [[-> ->]|[? Hj]]; apply (upd_lookup _ _ _ _ _ _ Hi) in Hj' as [[-> ->]|[? Hj']]; [done| | |].
    + apply Hnew in Ho as [Ho|?]; [by eapply (inv_unique _ _ _ HI)|]. pose proof (Howner _ _ _ _ Hj' Ho'). lia.
    + apply Hnew in Ho' as [Ho'|?]; [by eapply (inv_unique _ _ _ HI)|]. pose proof (Howner _ _ _ _ Hj Ho). lia.
    + by eapply (inv_unique _ _ _ HI).
  - intros j m pk p Hj Hw.
    assert (exists j' m', ls !! j' = Some m' /\ owner_of (l_hold m') = Some (pk, p)) as (j' & m' & Hj' & Ho).
    { apply (upd_lookup _ _ _ _ _ _ Hi) in Hj as [[-> ->]|[? Hj]]; [|by eapply (inv_joined _ _ _ HI)].
      apply Hwait in Hw as [Hw|(j' & m' & _ & ? & ?)]; [by eapply (inv_joined _ _ _ HI)|by exists j', m']. }
    exists j'. eexists. split; [by eapply upd_other|]. case_decide; simplify_eq; auto.
  - intros j m Hj. apply (upd_lookup _ _ _ _ _ _ Hi) in Hj as [[-> ->]|[Hne Hj]]; auto.
Qed.
End Update.

(** *** The thread that moves *)

Lemma own_flags s s' tr i l e locked clear hit key :
  thread_ok s tr i l -> pending s' = pending s ->
  (key = l_key l \/ (l_key l = None /\ exists K (b : bool), key = Some K /\ fits (l_job l) K /\ e = existT (DeniedContains K : net_op) b)) ->
  (clear = true -> locked = true /\ exists K, key = Some K /\ K ∉ session_denied_hosts s') ->
  (hit = true -> exists K, key = Some K /\ moment (tr ++ [(i, Did e)]) i K /\ given_for_session (tr ++ [(i, Did e)]) K) ->
  thread_ok s' (tr ++ [(i, Did e)]) i (logs (with_flags l locked clear hit key) e).
Proof.
  intros [] Hp Hkey Hc Hh. split; simpl; try done.
  - set_solver.
  - intros e' [?|?]%elem_of_app; [apply did_mono; auto|]. unfold did. set_solver.
  - set_solver.
  - intros K HK. destruct Hkey as [->|(_ & K' & b & -> & ? & ->)].
    + destruct (ok_key0 _ HK) as (? & b & ?). split; [done|]. exists b. set_solver.
    + simplify_eq. split; [done|]. exists b. set_solver.
  - intros pk p Ho. rewrite Hp. destruct (ok_owner0 _ _ Ho) as (HK & ? & ?). split_and!; [|set_solver|done].
    destruct Hkey as [->|(? & _)]; congruence.
  - intros pk p Ho Ha. destruct (ok_decided0 _ _ Ho Ha) as [(e' & ? & ?) ?]. split; [|by apply moment_mono].
    exists e'. split; [simpl; set_solver|done].
  - intros pk p Hw. rewrite Hp. destruct (ok_waiter0 _ _ Hw) as (HK & ? & q & ? & Hm & ?). split_and!; [|set_solver|].
    + destruct Hkey as [->|(? & _)]; congruence.
    + exists q. split_and!; [done| |done]. intros ?. apply moment_mono. auto.
Qed.

Lemma flags_step s s' ls tr i l e locked clear hit key :
  Inv s ls tr -> ls !! i = Some l ->
  pending s' = pending s -> pending_host_approvals s' = pending_host_approvals s ->
  (forall j, session_policy_commit_lock s' = Some j
             <-> exists m, <[i := logs (with_flags l locked clear hit key) e]> ls !! j = Some m /\ l_locked m = true) ->
  session_denied_hosts s' = denied_by (session_denied_hosts s) (i, Did e) ->
  (l_locked l = true \/ session_denied_hosts s' = session_denied_hosts s) ->
  (forall K, K ∈ session_approved_hosts s' -> given_for_session (tr ++ [(i, Did e)]) K) ->
  (key = l_key l \/ (l_key l = None /\ exists K (b : bool), key = Some K /\ fits (l_job l) K /\ e = existT (DeniedContains K : net_op) b)) ->
  (clear = true -> locked = true /\ exists K, key = Some K /\ K ∉ session_denied_hosts s') ->
  (hit = true -> exists K, key = Some K /\ moment (tr ++ [(i, Did e)]) i K /\ given_for_session (tr ++ [(i, Did e)]) K) ->
  Inv s' (<[i := logs (with_flags l locked clear hit key) e]> ls) (tr ++ [(i, Did e)]).
Proof.
  intros HI Hi Hp Hm Hl Hd Hd' Ha Hk Hc Hh. eapply (inv_flags s); try done.
  eapply own_flags; try done. by eapply (inv_thread _ _ _ HI).
Qed.

Lemma same_lock s ls tr i l l' :
  Inv s ls tr -> ls !! i = Some l -> l_locked l' = l_locked l ->
  forall j, session_policy_commit_lock s = Some j <-> exists m, <[i := l']> ls !! j = Some m /\ l_locked m = true.
Proof.
  intros HI Hi Hl j. rewrite (inv_lock _ _ _ HI). split.
  - intros (m & Hj & Hm). eexists. split; [by eapply upd_other|]. case_decide; simplify_eq; congruence.
  - intros (m & Hj & Hm). apply (upd_lookup _ _ _ _ _ _ Hi) in Hj as [[-> ->]|[? Hj]]; [exists l; by rewrite <- Hl|by exists m].
Qed.
Lemma same_hit s ls tr i l n :
  Inv s ls tr -> ls !! i = Some l -> l_hit l = true ->
  exists K, l_key l = Some K /\ moment (tr ++ n) i K /\ given_for_session (tr ++ n) K.
Proof.
  intros HI Hi Hh. destruct (ok_hit _ _ _ _ (inv_thread _ _ _ HI _ _ Hi) Hh) as (K & ? & ? & ?).
  exists K. split_and!; [done|by apply moment_mono|by apply given_mono].
Qed.
Lemma same_approved s ls tr n K : Inv s ls tr -> K ∈ session_approved_hosts s -> given_for_session (tr ++ n) K.
Proof. intros HI ?%(inv_approved _ _ _ HI). by apply given_mono. Qed.

(** An operation that neither the hosts nor the questions notice *)
Lemma neutral_step s s' ls tr i l e :
  Inv s ls tr -> ls !! i = Some l ->
  pending s' = pending s -> pending_host_approvals s' = pending_host_approvals s ->
  session_policy_commit_lock s' = session_policy_commit_lock s -> session_denied_hosts s' = session_denied_hosts s ->
  session_approved_hosts s' = session_approved_hosts s -> denied_by (session_denied_hosts s) (i, Did e) = session_denied_hosts s ->
  Inv s' (<[i := logs (with_flags l (l_locked l) (l_clear l) (l_hit l) (l_key l)) e]> ls) (tr ++ [(i, Did e)]).
Proof.
  intros HI Hi Hp Hm Hl Hd Ha He. eapply flags_step; try done; [|congruence|by right| |by left| |].
  - intros j. rewrite Hl. by eapply same_lock.
  - intros K. rewrite Ha. by eapply same_approved.
  - rewrite Hd. apply (ok_clear _ _ _ _ (inv_thread _ _ _ HI _ _ Hi)).
  - by eapply same_hit.
Qed.

Definition keeps (o : net_op) : Prop := forall s ls tr i l x a s',
  Inv s ls tr -> ls !! i = Some l -> may l o -> exec i o s x = Some (a, s') ->
  possible l o a /\ Inv s' (<[i := after l o a]> ls) (tr ++ [(i, Did (existT o a))]).

(** *** The lock and the hosts *)

Ltac by_flags HI Hi locked clear hit key :=
  lazymatch goal with
  | |- Inv ?s' _ (_ ++ [(_, Did ?e)]) => refine (flags_step _ s' _ _ _ _ e locked clear hit key HI Hi eq_refl eq_refl _ _ _ _ _ _ _); try done
  end.

Lemma keeps_lock : keeps LockCommit.
Proof.
  intros s ls tr i l x a s' HI Hi Hmay. simpl. destruct (session_policy_commit_lock s) eqn:Hl; [done|]. intros [= <- <-].
  split; [done|]. by_flags HI Hi true false (l_hit l) (l_key l); [|by right| |by left|by eapply same_hit].
  - intros j. simpl. split.
    + intros [= <-]. eexists. split; [by eapply upd_other|]. by case_decide.
    + intros (m & Hj & Hm). apply (upd_lookup _ _ _ _ _ _ Hi) in Hj as [[-> ->]|[? Hj]]; [done|].
      assert (session_policy_commit_lock s = Some j) by (apply (inv_lock _ _ _ HI); eauto). congruence.
  - intros K HK. exact (same_approved _ _ _ _ _ HI HK).
Qed.
Lemma keeps_unlock : keeps UnlockCommit.
Proof.
  intros s ls tr i l x a s' HI Hi Hmay. intros [= <- <-].
  split; [done|]. by_flags HI Hi false false (l_hit l) (l_key l); [|by right| |by left|by eapply same_hit].
  - intros j. simpl. split; [done|]. intros (m & Hj & Hm). apply (upd_lookup _ _ _ _ _ _ Hi) in Hj as [[-> ->]|[Hne Hj]]; [done|].
    assert (session_policy_commit_lock s = Some j) as H1 by (apply (inv_lock _ _ _ HI); eauto).
    assert (session_policy_commit_lock s = Some i) as H2 by (apply (inv_lock _ _ _ HI); eauto). congruence.
  - intros K HK. exact (same_approved _ _ _ _ _ HI HK).
Qed.
Lemma keeps_denied_contains k : keeps (DeniedContains k).
Proof.
  intros s ls tr i l x a s' HI Hi [Hlock Hkey]. intros [= <- <-]. pose proof (inv_thread _ _ _ HI _ _ Hi) as Hok.
  split; [done|]. by_flags HI Hi (l_locked l) (negb (bool_decide (k ∈ session_denied_hosts s))) (l_hit l) (Some k); [|by right| | | |].
  - by refine (same_lock s _ _ _ _ _ HI Hi _).
  - intros K HK. exact (same_approved _ _ _ _ _ HI HK).
  - destruct (l_key l) as [k'|]; [left; by rewrite Hkey|right]. split; [done|]. by eexists k, _.
  - case_bool_decide; [done|]. intros _. split; [done|]. by exists k.
  - intros Hh. destruct (same_hit _ _ _ _ _ [(i, Did (existT (DeniedContains k : net_op) (bool_decide (k ∈ session_denied_hosts s))))] HI Hi Hh)
      as (K & HK & ? & ?). rewrite HK in Hkey. subst K. by exists k.
Qed.
Lemma keeps_denied_insert k : keeps (DeniedInsert k).
Proof.
  intros s ls tr i l x a s' HI Hi [Hlock Hkey]. intros [= <- <-].
  split; [done|]. by_flags HI Hi (l_locked l) false (l_hit l) (l_key l); [|by left| |by left|by eapply same_hit].
  - by refine (same_lock s _ _ _ _ _ HI Hi _).
  - intros K HK. exact (same_approved _ _ _ _ _ HI HK).
Qed.
Lemma keeps_denied_remove k : keeps (DeniedRemove k).
Proof.
  intros s ls tr i l x a s' HI Hi [Hlock Hkey]. intros [= <- <-].
  split; [done|]. by_flags HI Hi (l_locked l) true (l_hit l) (l_key l); [|by left| |by left| |by eapply same_hit].
  - by refine (same_lock s _ _ _ _ _ HI Hi _).
  - intros K HK. exact (same_approved _ _ _ _ _ HI HK).
  - intros _. split; [done|]. exists k. split; [done|]. simpl. set_solver.
Qed.
Lemma keeps_approved_contains k : keeps (ApprovedContains k).
Proof.
  intros s ls tr i l x a s' HI Hi (Hlock & Hclear & Hkey). intros [= <- <-]. pose proof (inv_thread _ _ _ HI _ _ Hi) as Hok.
  destruct (ok_clear _ _ _ _ Hok Hclear) as (_ & K & HK & Hd).
  split; [done|]. by_flags HI Hi (l_locked l) (l_clear l) (bool_decide (k ∈ session_approved_hosts s)) (l_key l); [|by right| |by left| |].
  - by refine (same_lock s _ _ _ _ _ HI Hi _).
  - intros K' HK'. by eapply same_approved.
  - intros _. split; [done|]. by exists K.
  - case_bool_decide; [|done]. intros _. exists k. split_and!; [done| |by eapply same_approved].
    apply moment_mono, (moment_now _ _ (l_job l)); [apply (ok_spawned _ _ _ _ Hok)|]. rewrite <- (inv_denied _ _ _ HI). congruence.
Qed.
Lemma keeps_approved_insert k : keeps (ApprovedInsert k).
Proof.
  intros s ls tr i l x a s' HI Hi (Hlock & Hkey & e & He & Hc). intros [= <- <-]. pose proof (inv_thread _ _ _ HI _ _ Hi) as Hok.
  split; [done|]. by_flags HI Hi (l_locked l) (l_clear l) (l_hit l) (l_key l); [|by right| |by left| |by eapply same_hit].
  - by refine (same_lock s _ _ _ _ _ HI Hi _).
  - simpl. intros K [->%elem_of_singleton|HK]%elem_of_union; [|by eapply same_approved].
    left. exists i, e. split; [|done]. apply did_mono, (ok_log _ _ _ _ Hok), He.
  - apply (ok_clear _ _ _ _ Hok).
Qed.
Lemma keeps_approved_remove k : keeps (ApprovedRemove k).
Proof.
  intros s ls tr i l x a s' HI Hi [Hlock Hkey]. intros [= <- <-]. pose proof (inv_thread _ _ _ HI _ _ Hi) as Hok.
  split; [done|]. by_flags HI Hi (l_locked l) (l_clear l) (l_hit l) (l_key l); [|by right| |by left|apply (ok_clear _ _ _ _ Hok)|by eapply same_hit].
  - by refine (same_lock s _ _ _ _ _ HI Hi _).
  - simpl. intros K [HK _]%elem_of_difference. by eapply same_approved.
Qed.
Lemma keeps_approved_replace keys : keeps (ApprovedReplace keys).
Proof.
  intros s ls tr i l x a s' HI Hi Hjob. intros [= <- <-]. pose proof (inv_thread _ _ _ HI _ _ Hi) as Hok.
  split; [done|]. by_flags HI Hi (l_locked l) (l_clear l) (l_hit l) (l_key l); [|by right| |by left|apply (ok_clear _ _ _ _ Hok)|by eapply same_hit].
  - by refine (same_lock s _ _ _ _ _ HI Hi _).
  - intros K HK. right. exists i, keys. split; [|done]. pose proof (ok_spawned _ _ _ _ Hok) as H. rewrite Hjob in H. set_solver.
Qed.

(** *** The questions *)

Lemma own_hold s s' tr i l e h :
  thread_ok s tr i l -> session_denied_hosts s' = session_denied_hosts s ->
  (forall pk p, owner_of h = Some (pk, p) ->
     l_key l = Some (pk_host pk) /\ existT (GetOrCreatePending pk : net_op) (p, true) ∈ l_log l ++ [e] /\ pending s' !! p = Some (state_of h)) ->
  (forall pk p, owner_of h = Some (pk, p) -> allowed (decided_of h) ->
     granted positive (pk_host pk) l /\ moment (tr ++ [(i, Did e)]) i (pk_host pk)) ->
  (forall pk p, waiter_of h = Some (pk, p) ->
     l_key l = Some (pk_host pk) /\ existT (GetOrCreatePending pk : net_op) (p, false) ∈ l_log l ++ [e]
     /\ exists q, pending s' !! p = Some q
        /\ (allowed (pending_decision q) -> moment (tr ++ [(i, Did e)]) i (pk_host pk))
        /\ match h with
           | Heard _ _ n => n <= notify q
           | Undecided _ _ n => n = 0
           | Woken _ _ | HeardAgain _ _ => pending_decision q <> None
           | Told _ _ d => pending_decision q = Some d
           | _ => True
           end) ->
  thread_ok s' (tr ++ [(i, Did e)]) i (logs (with_hold l h) e).
Proof.
  intros [] Hd Ho Hdc Hw. split; simpl; try done.
  - set_solver.
  - intros e' [?|?]%elem_of_app; [apply did_mono; auto|]. unfold did. set_solver.
  - set_solver.
  - intros K HK. destruct (ok_key0 _ HK) as (? & b & ?). split; [done|]. exists b. set_solver.
  - by rewrite Hd.
  - intros Hh. destruct (ok_hit0 Hh) as (K & ? & ? & ?). exists K. split_and!; [done|by apply moment_mono|by apply given_mono].
  - intros pk p Hp Ha. destruct (Hdc _ _ Hp Ha) as [(e' & ? & ?) ?]. split; [|done]. exists e'. split; [simpl; set_solver|done].
Qed.

Lemma others_frame s s' ls tr i l n :
  Inv s ls tr -> ls !! i = Some l -> session_denied_hosts s' = session_denied_hosts s ->
  (forall p, (forall pk, owner_of (l_hold l) <> Some (pk, p)) -> p < length (pending s) -> pending s' !! p = pending s !! p) ->
  (forall pk p q, owner_of (l_hold l) = Some (pk, p) -> pending s !! p = Some q ->
     exists q', pending s' !! p = Some q' /\ later q q'
     /\ (allowed (pending_decision q') -> allowed (pending_decision q) \/ forall j jb, (j, Spawned jb) ∈ tr -> moment (tr ++ n) j (pk_host pk))) ->
  forall j m, j <> i -> ls !! j = Some m -> thread_ok s' (tr ++ n) j m.
Proof.
  intros HI Hi Hd Hsame Hmine j m Hne Hj. pose proof (inv_thread _ _ _ HI _ _ Hj) as Hok.
  eapply thread_ok_frame; [exact Hok|done| |].
  - intros pk p Ho. apply Hsame.
    + intros pk' Ho'. by apply Hne, (inv_unique _ _ _ HI j i m l pk pk' p).
    + destruct (ok_owner _ _ _ _ Hok _ _ Ho) as (_ & _ & ?). by eapply lookup_lt_Some.
  - intros pk p q Hw Hq. destruct (inv_joined _ _ _ HI _ _ _ _ Hj Hw) as (j' & m' & Hj' & Ho).
    destruct (decide (j' = i)) as [->|Hne'].
    + simplify_eq. destruct (Hmine _ _ _ Ho Hq) as (q' & ? & ? & Hm). exists q'. split_and!; [done..|].
      intros [?|Hall]%Hm; [by left|right]. eapply Hall, (ok_spawned _ _ _ _ Hok).
    + exists q. split_and!; [|done|by left]. rewrite <- Hq. apply Hsame; [|by eapply lookup_lt_Some].
      intros pk' Ho'. by apply Hne', (inv_unique _ _ _ HI j' i m' l pk pk' p).
Qed.
(** when nothing changes *)
Lemma others_same s ls tr i l n :
  Inv s ls tr -> ls !! i = Some l -> forall j m, j <> i -> ls !! j = Some m -> thread_ok s (tr ++ n) j m.
Proof.
  intros HI Hi. eapply (others_frame s s); try done. intros pk p q _ Hq. exists q. split_and!; [done|done|by left].
Qed.

Lemma still_open s ls tr i l l' :
  Inv s ls tr -> ls !! i = Some l -> (forall pk p, l_hold l = Owns pk p -> False) ->
  forall pk p, pending_host_approvals s !! pk = Some p -> exists j m, <[i := l']> ls !! j = Some m /\ l_hold m = Owns pk p.
Proof.
  intros HI Hi Hno pk p (j & m & Hj & Ho)%(inv_open _ _ _ HI). exists j. eexists. split; [by eapply upd_other|].
  case_decide; simplify_eq; [|done]. by destruct (Hno _ _ Ho).
Qed.
Lemma still_owned s ls tr i l l' :
  Inv s ls tr -> ls !! i = Some l -> (forall pk p, owner_of (l_hold l) = Some (pk, p) -> owner_of (l_hold l') = Some (pk, p)) ->
  forall p, p < length (pending s) -> exists j m pk, <[i := l']> ls !! j = Some m /\ owner_of (l_hold m) = Some (pk, p).
Proof.
  intros HI Hi Hkeep p (j & m & pk & Hj & Ho)%(inv_owned _ _ _ HI). exists j. eexists _, pk. split; [by eapply upd_other|].
  case_decide; simplify_eq; auto.
Qed.

(** Steps of a waiter *)
Lemma waiter_step s ls tr i l e pk p h :
  Inv s ls tr -> ls !! i = Some l -> waiter_of (l_hold l) = Some (pk, p) -> owner_of (l_hold l) = None ->
  waiter_of h = Some (pk, p) -> owner_of h = None -> denied_by (session_denied_hosts s) (i, Did e) = session_denied_hosts s ->
  (forall q, pending s !! p = Some q ->
     match h with
     | Heard _ _ n => n <= notify q
     | Undecided _ _ n => n = 0
     | Woken _ _ | HeardAgain _ _ => pending_decision q <> None
     | Told _ _ d => pending_decision q = Some d
     | _ => True
     end) ->
  Inv s (<[i := logs (with_hold l h) e]> ls) (tr ++ [(i, Did e)]).
Proof.
  intros HI Hi Hw Ho Hw' Ho' He Hh. pose proof (inv_thread _ _ _ HI _ _ Hi) as Hok.
  refine (inv_hold s s ls tr i l (logs (with_hold l h) e) (Did e) HI Hi eq_refl I eq_refl eq_refl eq_refl eq_refl He _ _ _ _ _ _ _).
  - eapply still_open; [exact HI|exact Hi|]. intros ?? E. by rewrite E in Ho.
  - eapply still_owned; [exact HI|exact Hi|]. intros ??. by rewrite Ho.
  - intros ??. by rewrite Ho.
  - simpl. intros ??. by rewrite Ho'.
  - simpl. intros ?? E. left. congruence.
  - by eapply others_same.
  - apply (own_hold s s); try done; rewrite ?Ho'; try done. intros pk' p' E. simplify_eq.
    destruct (ok_waiter _ _ _ _ Hok _ _ Hw) as (? & ? & q & Hq & Hm & _). split_and!; [done|set_solver|].
    exists q. split_and!; [done| |by apply Hh]. intros ?. apply moment_mono. auto.
Qed.

(** [inv_hold] with the new state, thread and event of the goal *)
Ltac by_hold HI Hi Hlk Hdn Hap :=
  lazymatch goal with
  | |- Inv ?s' (<[_ := ?l']> _) (_ ++ [(_, ?n)]) =>
      refine (inv_hold _ s' _ _ _ _ l' n HI Hi eq_refl I Hlk Hdn Hap eq_refl eq_refl _ _ _ _ _ _ _); simpl
  end.

Lemma waiter_owner s ls tr i l pk p q :
  Inv s ls tr -> ls !! i = Some l -> waiter_of (l_hold l) = Some (pk, p) -> pending s !! p = Some q ->
  exists j m, ls !! j = Some m /\ owner_of (l_hold m) = Some (pk, p) /\ q = state_of (l_hold m).
Proof.
  intros HI Hi Hw Hq. destruct (inv_joined _ _ _ HI _ _ _ _ Hi Hw) as (j & m & Hj & Ho). exists j, m. split_and!; [done..|].
  destruct (ok_owner _ _ _ _ (inv_thread _ _ _ HI _ _ Hj) _ _ Ho) as (_ & _ & ?). congruence.
Qed.

Lemma keeps_notified p : keeps (Notified p).
Proof.
  intros s ls tr i l x a s' HI Hi [pk Hh] [= <- <-]. split; [done|]. pose proof (inv_thread _ _ _ HI _ _ Hi) as Hok.
  assert (Hw : waiter_of (l_hold l) = Some (pk, p)) by (by destruct Hh as [-> | ->]).
  destruct (ok_waiter _ _ _ _ Hok _ _ Hw) as (_ & _ & q & Hq & _ & Hst).
  unfold after; destruct Hh as [Hh|Hh]; rewrite Hh in *; simpl; eapply waiter_step; try done; rewrite ?Hh; try done;
    intros q' Hq'; rewrite Hq in Hq'; injection Hq' as <-; simpl; rewrite ?Hq; done.
Qed.
Lemma keeps_get_decision p : keeps (GetDecision p).
Proof.
  intros s ls tr i l x a s' HI Hi [pk Hh] [= <- <-]. pose proof (inv_thread _ _ _ HI _ _ Hi) as Hok.
  assert (Hw : waiter_of (l_hold l) = Some (pk, p)) by (by destruct Hh as [[? ->] | ->]).
  destruct (ok_waiter _ _ _ _ Hok _ _ Hw) as (_ & _ & q & Hq & _ & Hst). split.
  - intros [pk' E]. rewrite E in Hst. by rewrite Hq.
  - rewrite Hq. simpl. destruct (waiter_owner _ _ _ _ _ _ _ _ HI Hi Hw Hq) as (j & m & _ & _ & Eq).
    unfold after; destruct Hh as [[n Hh]|Hh]; rewrite Hh in *; destruct (pending_decision q) as [d|] eqn:Hd; simpl; try done;
      eapply waiter_step; try done; rewrite ?Hh; try done; intros q' Hq'; simplify_eq; try done.
    destruct (l_hold m); simpl in *; try done; lia.
Qed.
Lemma keeps_await_notified p n : keeps (AwaitNotified p n).
Proof.
  intros s ls tr i l x a s' HI Hi (_ & pk & Hh). simpl. case_match eqn:Hn; [|done]. intros [= <- <-]. split; [done|].
  pose proof (inv_thread _ _ _ HI _ _ Hi) as Hok.
  assert (Hw : waiter_of (l_hold l) = Some (pk, p)) by (by rewrite Hh).
  destruct (ok_waiter _ _ _ _ Hok _ _ Hw) as (_ & _ & q & Hq & _ & Hst). rewrite Hq in Hn. apply Nat.ltb_lt in Hn. simpl in Hn.
  destruct (waiter_owner _ _ _ _ _ _ _ _ HI Hi Hw Hq) as (j & m & _ & _ & ->).
  unfold after; rewrite Hh in *; simpl; eapply waiter_step; try done; rewrite ?Hh; try done. intros q' Hq'. simplify_eq.
  destruct (l_hold m); simpl in *; try done; lia.
Qed.

Lemma keeps_get_or_create pk : keeps (GetOrCreatePending pk).
Proof.
  intros s ls tr i l x a s' HI Hi [Hh Hkey]. pose proof (inv_thread _ _ _ HI _ _ Hi) as Hok. simpl.
  unfold get_or_create_pending_approval. destruct (pending_host_approvals s !! pk) as [p|] eqn:Hp; intros [= <- <-]; (split; [done|]).
  - destruct (inv_open _ _ _ HI _ _ Hp) as (j & m & Hj & Hm). assert (Hne : j <> i) by (intros ->; simplify_eq; congruence).
    assert (Ho : owner_of (l_hold m) = Some (pk, p)) by (by rewrite Hm).
    destruct (ok_owner _ _ _ _ (inv_thread _ _ _ HI _ _ Hj) _ _ Ho) as (_ & _ & Hq). rewrite Hm in Hq.
    by_hold HI Hi (eq_refl (session_policy_commit_lock s)) (eq_refl (session_denied_hosts s)) (eq_refl (session_approved_hosts s)).
    + eapply still_open; [exact HI|exact Hi|]. intros ?? E. congruence.
    + eapply still_owned; [exact HI|exact Hi|]. intros ??. by rewrite Hh.
    + intros ??. by rewrite Hh.
    + done.
    + intros ?? [= <- <-]. right. by exists j, m.
    + by eapply others_same.
    + apply (own_hold s s); try done. intros pk' p' [= <- <-]. split_and!; [done|set_solver|].
      eexists. split_and!; [exact Hq| |done]. by intros (d & ? & _).
  - by_hold HI Hi (eq_refl (session_policy_commit_lock s)) (eq_refl (session_denied_hosts s)) (eq_refl (session_approved_hosts s)).
    + intros pk' p' [[<- <-]|[? E]]%lookup_insert_Some.
      * exists i. eexists. split; [by eapply upd_other|]. by case_decide.
      * eapply still_open; [exact HI|exact Hi| |exact E]. congruence.
    + intros p. rewrite length_app. simpl. intros Hlt. destruct (decide (p = length (pending s))) as [->|?].
      * exists i. eexists _, pk. split; [by eapply upd_other|]. by case_decide.
      * eapply still_owned; [exact HI|exact Hi|intros ??; by rewrite Hh|lia].
    + intros ??. by rewrite Hh.
    + intros ?? [= <- <-]. right. lia.
    + done.
    + eapply (others_frame s); [exact HI|exact Hi|done| |].
      * intros p _ ?. simpl. by rewrite lookup_app_l.
      * intros ???. by rewrite Hh.
    + apply (own_hold s); try done.
      * intros pk' p' [= <- <-]. split_and!; [done|set_solver|]. simpl. by rewrite lookup_app_r, Nat.sub_diag.
      * intros ?? _ (d & ? & _). done.
Qed.

Lemma keeps_remove_pending pk p : keeps (RemovePending pk p).
Proof.
  intros s ls tr i l x a s' HI Hi Hh [= <- <-]. split; [done|]. pose proof (inv_thread _ _ _ HI _ _ Hi) as Hok.
  assert (Ho : owner_of (l_hold l) = Some (pk, p)) by (by rewrite Hh).
  destruct (ok_owner _ _ _ _ Hok _ _ Ho) as (? & ? & Hq). rewrite Hh in Hq.
  assert (Hs : pending (remove_pending pk p s) = pending s /\ session_policy_commit_lock (remove_pending pk p s) = session_policy_commit_lock s
    /\ session_denied_hosts (remove_pending pk p s) = session_denied_hosts s
    /\ session_approved_hosts (remove_pending pk p s) = session_approved_hosts s) by (unfold remove_pending; by case_bool_decide).
  destruct Hs as (Hps & Hlk & Hdn & Hap).
  by_hold HI Hi Hlk Hdn Hap.
  - intros pk' p' E.
    assert (pending_host_approvals s !! pk' = Some p' /\ (pk', p') <> (pk, p)) as [E' Hne].
    { revert E. unfold remove_pending. case_bool_decide as Hb; simpl.
      - intros [? ?]%lookup_delete_Some. split; [done|congruence].
      - intros E. split; [done|congruence]. }
    destruct (inv_open _ _ _ HI _ _ E') as (j & m & Hj & Hm). exists j. eexists. split; [by eapply upd_other|].
    case_decide; simplify_eq; [|done]. congruence.
  - rewrite Hps. eapply still_owned; [exact HI|exact Hi|]. intros ??. by rewrite Hh.
  - intros ??. by rewrite Hh.
  - intros ??. rewrite Hh. by left.
  - done.
  - eapply (others_frame s); [exact HI|exact Hi|done| |]; rewrite Hps; [done|].
    intros ?? q _ Hq'. exists q. split_and!; [done|done|by left].
  - apply (own_hold s); try done.
    + intros pk' p' [= <- <-]. rewrite Hps. split_and!; [done|set_solver|done].
    + intros ?? _ (d & ? & _). done.
Qed.

(** The owner changes the state of its question, and nothing else *)
Lemma owner_step s ls tr i l e pk p h q :
  Inv s ls tr -> ls !! i = Some l -> owner_of (l_hold l) = Some (pk, p) -> (forall k n, l_hold l <> Owns k n) ->
  owner_of h = Some (pk, p) -> waiter_of h = None -> denied_by (session_denied_hosts s) (i, Did e) = session_denied_hosts s ->
  q = state_of h -> later (state_of (l_hold l)) q ->
  (allowed (pending_decision q) -> allowed (decided_of (l_hold l))
     \/ granted positive (pk_host pk) l /\ forall j jb, (j, Spawned jb) ∈ tr -> moment tr j (pk_host pk)) ->
  Inv (with_pending s (pending_host_approvals s) (<[p := q]> (pending s))) (<[i := logs (with_hold l h) e]> ls) (tr ++ [(i, Did e)]).
Proof.
  intros HI Hi Ho Hno Ho' Hw' He -> Hlater Hg. pose proof (inv_thread _ _ _ HI _ _ Hi) as Hok.
  destruct (ok_owner _ _ _ _ Hok _ _ Ho) as (Hk & Hlog & Hp).
  assert (Hset : <[p := state_of h]> (pending s) !! p = Some (state_of h)) by (apply list_lookup_insert_eq; by eapply lookup_lt_Some).
  refine (inv_hold s (with_pending s (pending_host_approvals s) (<[p := state_of h]> (pending s))) ls tr i l
            (logs (with_hold l h) e) (Did e) HI Hi eq_refl I eq_refl eq_refl eq_refl eq_refl He _ _ _ _ _ _ _); simpl.
  - eapply still_open; [exact HI|exact Hi|]. intros ?? E. by apply (Hno _ _ E).
  - intros p'. rewrite length_insert. eapply still_owned; [exact HI|exact Hi|]. simpl. intros ??. congruence.
  - intros ??. congruence.
  - intros ?? E. left. congruence.
  - intros ??. by rewrite Hw'.
  - eapply (others_frame s); [exact HI|exact Hi|done| |]; simpl.
    + intros p' Hne _. rewrite list_lookup_insert_ne; [done|]. intros ->. by apply (Hne pk).
    + intros pk' p' q' E Hq'. rewrite Ho in E. injection E as <- <-. rewrite Hp in Hq'. injection Hq' as <-.
      exists (state_of h). split_and!; [done|done|]. intros [?|[_ Hm]]%Hg; [left; by destruct (l_hold l)|right].
      intros j jb Hj. by eapply moment_mono, Hm.
  - apply (own_hold s); try done.
    + intros pk' p' E. rewrite Ho' in E. injection E as <- <-. split_and!; [done|set_solver|done].
    + intros pk' p' E Ha. rewrite Ho' in E. injection E as <- <-.
      assert (Ha' : allowed (pending_decision (state_of h))) by (by destruct h). destruct (Hg Ha') as [Hold|[? Hm]].
      * destruct (ok_decided _ _ _ _ Hok _ _ Ho Hold). split; [done|by apply moment_mono].
      * split; [done|]. eapply moment_mono, Hm, (ok_spawned _ _ _ _ Hok).
    + intros ??. by rewrite Hw'.
Qed.

Lemma keeps_set_once p d : keeps (SetOnce p d).
Proof.
  intros s ls tr i l x a s' HI Hi (pk & Hh & Hd) He. pose proof (inv_thread _ _ _ HI _ _ Hi) as Hok.
  assert (Ho : owner_of (l_hold l) = Some (pk, p)) by (by rewrite Hh).
  destruct (ok_owner _ _ _ _ Hok _ _ Ho) as (Hk & _ & Hp). rewrite Hh in Hp.
  simpl in He. unfold set_once in He. rewrite Hp in He. simpl in He. injection He as <- <-. split; [done|].
  unfold after; rewrite Hh; simpl. eapply owner_step; try done; [by rewrite Hh..|].
  simpl. intros (d' & [= <-] & Hne). right. destruct (Hd Hne) as [Hg Hc]. split; [done|]. intros j jb Hj.
  destruct Hc as [Hc|(Hdr & e & He & Ha)].
  - destruct (ok_clear _ _ _ _ Hok Hc) as (_ & K & HK & Hn). eapply moment_now; [exact Hj|].
    rewrite <- (inv_denied _ _ _ HI). congruence.
  - exists tr, []. rewrite app_nil_r. split_and!; [done|by exists jb|]. right. exists i, e.
    split_and!; [by apply (ok_dropped _ _ _ _ Hok)|by apply (ok_log _ _ _ _ Hok)|done].
Qed.
Lemma keeps_notify_waiters p : keeps (NotifyWaiters p).
Proof.
  intros s ls tr i l x a s' HI Hi (pk & d & Hh) He. pose proof (inv_thread _ _ _ HI _ _ Hi) as Hok.
  assert (Ho : owner_of (l_hold l) = Some (pk, p)) by (by rewrite Hh).
  destruct (ok_owner _ _ _ _ Hok _ _ Ho) as (Hk & _ & Hp). rewrite Hh in Hp.
  injection He as <- <-. split; [done|]. unfold notify_waiters.
  replace (alter _ p (pending s)) with (<[p := mkPending (Some d) 1]> (pending s)).
  2: { apply list_eq. intros j. destruct (decide (j = p)) as [->|Hne].
       - rewrite list_lookup_alter_eq, Hp. simpl. apply list_lookup_insert_eq. by eapply lookup_lt_Some.
       - by rewrite list_lookup_alter_ne, list_lookup_insert_ne. }
  unfold after; rewrite Hh; simpl. eapply owner_step; try done; try by rewrite Hh.
  - rewrite Hh. split; simpl; [done|lia].
  - simpl. intros Ha. left. by rewrite Hh.
Qed.

(** ** The protocol is kept *)

Lemma keeps_all o : keeps o.
Proof.
  destruct o; first
    [ apply keeps_lock | apply keeps_unlock | apply keeps_denied_contains | apply keeps_denied_insert | apply keeps_denied_remove
    | apply keeps_approved_contains | apply keeps_approved_insert | apply keeps_approved_remove | apply keeps_approved_replace
    | apply keeps_get_or_create | apply keeps_remove_pending | apply keeps_set_once | apply keeps_notify_waiters
    | apply keeps_notified | apply keeps_get_decision | apply keeps_await_notified | idtac ].
  all: intros s ls tr i l x a s' HI Hi _ He; (split; [done|]); simpl in He.
  all: assert (Hs : pending s' = pending s /\ pending_host_approvals s' = pending_host_approvals s
    /\ session_policy_commit_lock s' = session_policy_commit_lock s /\ session_denied_hosts s' = session_denied_hosts s
    /\ session_approved_hosts s' = session_approved_hosts s)
    by (unfold remove_call, finish_once, store_call_outcome, store_call_outcome_if_absent, remove_call in He;
        repeat case_match; simplify_eq; done).
  all: destruct Hs as (? & ? & ? & ? & ?); by apply neutral_step with s.
Qed.

Lemma spawn_keeps s ls tr j : Inv s ls tr -> Inv s (ls ++ [begins j]) (tr ++ [(length ls, Spawned j)]).
Proof.
  intros HI.
  assert (Hlook : forall i m, (ls ++ [begins j]) !! i = Some m -> ls !! i = Some m \/ (i = length ls /\ m = begins j)).
  { intros i m [?|[? H]]%lookup_app_Some; [by left|right]. apply list_lookup_singleton_Some in H as [? <-]. split; [lia|done]. }
  assert (Hold : forall i m, ls !! i = Some m -> (ls ++ [begins j]) !! i = Some m) by (intros i m ?; by apply lookup_app_l_Some).
  split.
  - intros i. rewrite (inv_lock _ _ _ HI). split; [intros (m & ? & ?); eauto|]. intros (m & [?|[_ ->]]%Hlook & ?); [eauto|done].
  - by rewrite denied_after_snoc, (inv_denied _ _ _ HI).
  - intros K ?%(inv_approved _ _ _ HI). by apply given_mono.
  - intros i jb [H|H]%elem_of_app.
    + destruct (inv_spawned _ _ _ HI _ _ H) as (m & ? & ?). eauto.
    + apply list_elem_of_singleton in H. injection H as -> ->. exists (begins j). split; [|done].
      by rewrite lookup_app_r, Nat.sub_diag.
  - intros pk p (i & m & ? & ?)%(inv_open _ _ _ HI). eauto.
  - intros p (i & m & pk & ? & ?)%(inv_owned _ _ _ HI). eauto 6.
  - intros i i' m m' pk pk' p [Hi|[_ ->]]%Hlook [Hi'|[_ ->]]%Hlook ? ?; [by eapply (inv_unique _ _ _ HI)|done..].
  - intros i m pk p [Hi|[_ ->]]%Hlook Hw; [|done]. destruct (inv_joined _ _ _ HI _ _ _ _ Hi Hw) as (i' & m' & ? & ?). eauto.
  - intros i m [Hi|[-> ->]]%Hlook.
    + eapply thread_ok_frame; [by eapply (inv_thread _ _ _ HI)|done|done|].
      intros pk p q _ Hq. exists q. split_and!; [done|done|by left].
    + split; simpl; try done; set_solver.
Qed.

Lemma drop_keeps s ls tr i l : Inv s ls tr -> ls !! i = Some l -> Inv s (<[i := drops l]> ls) (tr ++ [(i, WasDropped)]).
Proof.
  intros HI Hi. pose proof (inv_thread _ _ _ HI _ _ Hi) as Hok.
  refine (inv_flags s s ls tr i l (drops l) WasDropped HI Hi eq_refl I eq_refl eq_refl eq_refl _ eq_refl (or_intror eq_refl) _ _).
  - by eapply same_lock.
  - intros K ?. by eapply same_approved.
  - assert (Hok' : thread_ok s (tr ++ [(i, WasDropped)]) i l).
    { eapply thread_ok_frame; [exact Hok|done|done|]. intros pk p q _ Hq. exists q. split_and!; [done|done|by left]. }
    destruct Hok'. split; simpl; try done. intros _. set_solver.
Qed.

Lemma inv_new : Inv new_service [] [].
Proof.
  split; simpl; try done.
  - intros i. split; [done|]. by intros (? & ? & ?).
  - intros i j Hin. by apply not_elem_of_nil in Hin.
  - intros p ?. lia.
Qed.

End Protocol.
