(* ===== verification/NetworkConsent.v ===== *)
(** * What an answer of the network approvals goes back to

    The tasks of NetworkApproval.v keep to the protocol of NetworkProtocol.v, so
    its invariant holds in every interleaving: a host is allowed only after somebody
    said yes to it, never against a denial that stood throughout, and every request
    gets its answer. *)

From S2P Require Import Prelude RustStr ExecPolicy Truncate HostPattern PathUri Permissions PermissionTransforms.
From S2P Require Import ShellSyntax CommandSafety ExecApproval Interaction ToolSandbox ToolApprovals Tasks NetworkApproval NetworkProtocol.

Section Consent.
Context {UL : UrlLib} {GL : GlobLib} {SG : ShellGrammar} {SQ : ShellQuoting} {KJ : KeyJson} {Value Output Out : Type}.
Abbreviation net_op := (NetOp (Value := Value)).
Abbreviation net_answer := (net_answer (Value := Value) (Output := Output) (Out := Out)).
Abbreviation net_event := (event net_answer).
Abbreviation net_prog := (prog net_answer).
Abbreviation net_task := (task net_answer).
Abbreviation Local := (Local (Value := Value) (Output := Output) (Out := Out)).
Abbreviation F := (follows may possible after drops quit).
Abbreviation cleans := (cleans may possible after quit).

(** ** Rules for programs *)

Fixpoint runs {A} (Q : Local -> A -> Prop) (l : Local) (p : net_prog A) : Prop :=
  match p with
  | Done r => Q l r
  | Do o k => may l o /\ forall x, possible l o x -> runs Q (after l o x) (k x)
  end.

Lemma program_bind {A B} Q (f : A -> net_prog B) l p : runs (fun l a => runs Q l (f a)) l p -> runs Q l (p ≫= f).
Proof. revert l. induction p as [r|o k IH]; intros l; simpl; [done|]. intros [? Hk]. split; [done|]. intros x Hx. by apply IH, Hk. Qed.
Lemma runs_sync {A} (Q : Local -> A -> Prop) l p : runs Q l p -> F Q l (sync p).
Proof. revert l. induction p as [r|o k IH]; intros l; simpl; [done|]. intros [? Hk]. split; [done|]. intros x Hx. by apply IH, Hk. Qed.
Lemma runs_cleans l p : runs (fun l _ => quit l) l p -> cleans l p.
Proof. revert l. induction p as [r|o k IH]; intros l; simpl; [done|]. intros [? Hk]. split; [done|]. intros x Hx. by apply IH, Hk. Qed.
Lemma task_bind_rule {A B} Q (f : A -> net_task B) l t : F (fun l a => F Q l (f a)) l t -> F Q l (t ≫= f).
Proof. apply follows_bind. Qed.
Lemma sync_rule {A B} Q (f : A -> net_task B) l p : runs (fun l a => F Q l (f a)) l p -> F Q l (sync p ≫= f).
Proof. intros H. apply task_bind_rule, runs_sync, H. Qed.
Lemma await_rule {B} Q o (f : net_answer o -> net_task B) l cleanup :
  may l o -> cleans (drops l) cleanup -> (forall x, possible l o x -> F Q (after l o x) (f x)) ->
  F Q l (awaiting cleanup (perform o) ≫= f).
Proof. intros ???. by apply task_bind_rule. Qed.

Lemma follows_mono {A} (Q Q' : Local -> A -> Prop) l t : (forall l a, Q l a -> Q' l a) -> F Q l t -> F Q' l t.
Proof.
  intros HQ. revert l. induction t as [r|o k IH|o k IH d]; intros l; simpl; [auto| |].
  - intros [? ?]. auto.
  - intros (? & ? & ?). auto.
Qed.

(** [l'] is [l] with hold [h] and more in its log. *)
Record ext (h : Hold) (l l' : Local) : Prop := {
  ext_job : l_job l' = l_job l;
  ext_key : l_key l' = l_key l;
  ext_locked : l_locked l' = l_locked l;
  ext_clear : l_clear l' = l_clear l;
  ext_hit : l_hit l' = l_hit l;
  ext_dropped : l_dropped l' = l_dropped l;
  ext_hold : l_hold l' = h;
  ext_log e : e ∈ l_log l -> e ∈ l_log l';
}.
Lemma ext_refl l : ext (l_hold l) l l.
Proof. by split. Qed.
Lemma ext_trans h l l' l'' : ext (l_hold l) l l' -> ext h l' l'' -> ext h l l''.
Proof. intros [] []. split; try congruence. auto. Qed.
Lemma ext_granted h good K l l' : ext h l l' -> granted good K l -> granted good K l'.
Proof. intros Hx (e & ? & ?). exists e. split; [by apply (ext_log _ _ _ Hx)|done]. Qed.

(** Operations that the protocol does not look at *)
Definition neutral_op (o : net_op) : bool :=
  match o with
  | LockCommit | UnlockCommit | DeniedContains _ | DeniedInsert _ | DeniedRemove _ | ApprovedContains _ | ApprovedInsert _
  | ApprovedRemove _ | ApprovedReplace _ | GetOrCreatePending _ | RemovePending _ _ | SetOnce _ _ | NotifyWaiters _ | Notified _
  | GetDecision _ | AwaitNotified _ _ => false
  | _ => true
  end.
Fixpoint neutral {A} (p : net_prog A) : Prop :=
  match p with Done _ => True | Do o k => neutral_op o = true /\ forall x, neutral (k x) end.

Lemma neutral_may (l : Local) o : neutral_op o = true -> may l o.
Proof. by destruct o. Qed.
Lemma ext_after (l : Local) o x : neutral_op o = true -> ext (l_hold l) l (after l o x).
Proof. destruct o; try done; intros _; (split; [done..|]); simpl; set_solver. Qed.
Lemma runs_neutral {A} (Q : Local -> A -> Prop) l p :
  neutral p -> (forall l' a, ext (l_hold l) l l' -> Q l' a) -> runs Q l p.
Proof.
  revert l. induction p as [r|o k IH]; intros l; simpl; intros Hn HQ; [apply HQ, ext_refl|].
  destruct Hn as [Ho Hk]. split; [by apply neutral_may|]. intros x _. apply IH; [done|].
  intros l' a Hx. pose proof (ext_after l o x Ho) as H. apply HQ. eapply ext_trans; [exact H|]. by rewrite (ext_hold _ _ _ H) in Hx.
Qed.
Lemma neutral_bind {A B} (f : A -> net_prog B) p : neutral p -> (forall a, neutral (f a)) -> neutral (p ≫= f).
Proof. induction p as [r|o k IH]; simpl; [auto|]. intros [? ?] ?. split; [done|]. intros x. by apply IH. Qed.

Lemma neutral_record id outcome : neutral (record_call_outcome (Value := Value) (Output := Output) (Out := Out) id outcome).
Proof. split; [done|]. by intros [t|]. Qed.
Lemma neutral_record_if_absent id outcome : neutral (record_call_outcome_if_absent (Value := Value) (Output := Output) (Out := Out) id outcome).
Proof. split; [done|]. by intros [t|]. Qed.
Lemma neutral_record_owner owner outcome : neutral (record_for_owner (Value := Value) (Output := Output) (Out := Out) owner outcome).
Proof. destruct owner; [apply neutral_record|done]. Qed.
Lemma neutral_cancel owner d : neutral (cancel_execution_if_denied (Value := Value) (Output := Output) (Out := Out) owner d).
Proof. unfold cancel_execution_if_denied. by repeat case_match. Qed.
Lemma neutral_blocked b : neutral (record_blocked_request (Value := Value) (Output := Output) (Out := Out) b).
Proof.
  unfold record_blocked_request. case_match; [|done]. apply neutral_bind; [by case_match|].
  intros [call|]; [apply neutral_record_if_absent|done].
Qed.
Lemma neutral_finish cell id token : neutral (finish (Value := Value) (Output := Output) (Out := Out) cell id token).
Proof. split; [done|]. by intros [o|]. Qed.
Lemma neutral_attribution r : neutral (resolve_request_attribution (Value := Value) (Output := Output) (Out := Out) r).
Proof. unfold resolve_request_attribution. by repeat case_match. Qed.

(** ** The owner *)

Abbreviation owner := PendingHostApprovalOwner.
Definition owns (o : owner) (l : Local) : Prop := l_hold l = Owns (owner_key o) (owner_pending o).

(** What it takes to publish a decision *)
Definition may_publish (o : owner) (d : PendingApprovalDecision) (l : Local) : Prop :=
  d <> DenyPending ->
  granted positive (pk_host (owner_key o)) l
  /\ (l_clear l = true \/ l_dropped l = true /\ exists e, e ∈ l_log l /\ allows_host (pk_host (owner_key o)) e).

Lemma may_publish_ext o d h l l' : ext h l l' -> may_publish o d l -> may_publish o d l'.
Proof.
  intros Hx Hp Hd. destruct (Hp Hd) as [Hg Hc]. split; [by eapply ext_granted|].
  rewrite (ext_clear _ _ _ Hx), (ext_dropped _ _ _ Hx). destruct Hc as [?|(? & e & ? & ?)]; [by left|right].
  split; [done|]. exists e. split; [by apply (ext_log _ _ _ Hx)|done].
Qed.

Lemma runs_publish Q l o d :
  owns o l -> may_publish o d l -> (forall l', ext (Settled (owner_key o) (owner_pending o) d) l l' -> Q l' tt) ->
  runs Q l (publish_and_remove o d).
Proof.
  intros Ho Hp HQ. split; [exact Ho|]. intros u _. split.
  - exists (owner_key o). split; [done|]. intros Hd. destruct (Hp Hd) as [(e & ? & ?) Hc]. split; [exists e; split; [simpl; set_solver|done]|].
    destruct Hc as [?|(? & e' & ? & ?)]; [by left|right]. split; [done|]. exists e'. split; [simpl; set_solver|done].
  - intros first ->. simpl. split; [by eexists _, _|]. intros [] _. apply HQ. split; try done. simpl. set_solver.
Qed.
Lemma runs_complete Q l o d :
  owns o l -> may_publish o d l -> (forall l', ext (Settled (owner_key o) (owner_pending o) d) l l' -> Q l' tt) ->
  runs Q l (complete o d).
Proof.
  intros Ho Hp HQ. apply program_bind, runs_neutral; [apply neutral_cancel|]. intros l' _ Hx. apply runs_publish.
  - unfold owns. by rewrite (ext_hold _ _ _ Hx).
  - by eapply may_publish_ext.
  - intros l'' Hx'. apply HQ. by eapply ext_trans.
Qed.

Lemma settled_quit l l' pk p d : ext (Settled pk p d) l l' -> l_locked l = false -> quit l'.
Proof. intros [] ?. split; [congruence|]. right. eauto. Qed.

Lemma cleans_drop_owner l o : owns o l -> l_locked l = false -> may_publish o (decision_on_drop o) l -> cleans l (drop_owner o).
Proof.
  intros Ho Hl Hp. apply runs_cleans. unfold drop_owner. apply program_bind, runs_neutral; [by case_match|]. intros l1 reason Hx1.
  assert (Hpub : forall l2, ext (l_hold l) l l2 -> runs (fun l _ => quit l) l2 (publish_and_remove o (decision_on_drop o))).
  { intros l2 Hx. apply runs_publish; [unfold owns; by rewrite (ext_hold _ _ _ Hx)|by eapply may_publish_ext|].
    intros l3 Hx'. eapply settled_quit; [exact Hx'|]. by rewrite (ext_locked _ _ _ Hx). }
  case_bool_decide; [by apply Hpub|]. apply program_bind, runs_neutral.
  { repeat case_match; try done. split; [done|]. intros [ms|]; [apply neutral_record_if_absent|done]. }
  intros l2 _ Hx2. apply program_bind, runs_neutral; [apply neutral_cancel|]. intros l3 _ Hx3. apply Hpub.
  rewrite (ext_hold _ _ _ Hx2) in Hx3. rewrite (ext_hold _ _ _ Hx1) in Hx2, Hx3.
  eapply ext_trans; [exact Hx1|]. rewrite <- (ext_hold _ _ _ Hx1). eapply ext_trans; rewrite (ext_hold _ _ _ Hx1); [exact Hx2|exact Hx3].
Qed.

(** ** Waiting, and the hosts of the session *)

Lemma follows_wait r (l : Local) pk p :
  l_job l = Decide r -> l_locked l = false -> l_hold l = Joined pk p ->
  F entitled l (d ← wait_for_decision 2 p; Finish (option_map to_network_decision d)).
Proof.
  intros Hj Hl Hh.
  assert (Hend : forall (l' : Local) d, l_job l' = Decide r -> l_locked l' = false -> l_hold l' = Told pk p d ->
    entitled l' (Some (to_network_decision d))).
  { intros l' d Hj' Hl' Hh'. split_and!; [done|left; by rewrite Hh'|]. rewrite Hj'. eexists. split; [done|]. intros Hd. right.
    rewrite Hh'. exists d. split; [done|]. by intros ->. }
  split; [exists pk; by left|]. intros n _. split; [exists pk; left; simpl; rewrite Hh; by eexists|]. intros [d|] _.
  { apply Hend; simpl; rewrite ?Hh; done. }
  split; [split; [done|exists pk; simpl; by rewrite Hh]|]. split; [split; [done|left; simpl; by rewrite Hh]|]. intros u _.
  split; [exists pk; right; simpl; by rewrite Hh|]. intros m _. split; [exists pk; right; simpl; by rewrite Hh|].
  intros [d|] Hp; [apply Hend; simpl; rewrite ?Hh; done|].
  destruct Hp; [|done]. exists pk. simpl. by rewrite Hh.
Qed.

(** Before the key is known *)
Definition fresh (j : Job) (l : Local) : Prop := l_job l = j /\ l_key l = None /\ l_locked l = false /\ l_hold l = NoQuestion.
Lemma fresh_ext j l l' : ext (l_hold l) l l' -> fresh j l -> fresh j l'.
Proof. intros [] (? & ? & ? & ?). split_and!; congruence. Qed.
Lemma fresh_quit j l : fresh j l -> quit l.
Proof. intros (_ & _ & ? & Hh). split; [done|]. left. by rewrite Hh. Qed.

Definition keyed (r : NetworkPolicyRequest) (K : HostApprovalKey) (l : Local) : Prop :=
  l_job l = Decide r /\ l_key l = Some K /\ l_locked l = false /\ l_hold l = NoQuestion.

Lemma refuse_entitled (j : Job) (l : Local) reason source decision :
  l_locked l = false -> not_owning (l_hold l) -> entitled l (Some (NetDeny reason source decision)).
Proof. intros ??. split_and!; [done..|]. case_match; [|done..]. eexists. split; [done|]. done. Qed.
Lemma fresh_entitled j (l : Local) reason source decision : fresh j l -> entitled l (Some (NetDeny reason source decision)).
Proof. intros H. destruct (fresh_quit _ _ H). by apply (refuse_entitled j). Qed.

Lemma follows_verdict {B} Q (f : option NetworkDecision -> net_task B) r K (l : Local) :
  fresh (Decide r) l -> fits (Decide r) K ->
  (forall l' v, keyed r K l' -> (v = Some NetAllow -> l_hit l' = true) -> F Q l' (f v)) ->
  F Q l (session_verdict K ≫= f).
Proof.
  intros (Hj & Hk & Hl & Hh) HK Hf. apply task_bind_rule. unfold session_verdict.
  assert (Hun : forall l' : Local, l_locked l' = true -> l_hold l' = NoQuestion -> cleans (drops l') unlock).
  { intros l' Hlk Hh'. apply runs_cleans. split; [done|]. intros ? _. split; [done|]. left. simpl. by rewrite Hh'. }
  apply await_rule; [done|split; [done|]; left; simpl; by rewrite Hh|]. intros ? _.
  apply await_rule; [split; [done|]; simpl; by rewrite Hk, Hj|by apply Hun|]. intros denied _. destruct denied.
  - apply sync_rule. split; [done|]. intros ? _. apply Hf; [|done]. split_and!; done.
  - apply await_rule; [done|by apply Hun|]. intros approved _. apply sync_rule. split; [done|]. intros ? _.
    apply Hf; [split_and!; done|]. by destruct approved.
Qed.

(** ** The review *)

Definition heard (c : ToolCall (Value := Value)) (x : tool_answer (Value := Value) (Output := Output) (Out := Out) c) (l : Local) : Prop :=
  existT (ToolAwait c : net_op) x ∈ l_log l \/ exists t, existT (ToolUntil t c : net_op) (Some x) ∈ l_log l.
Lemma heard_granted good K c x l : heard c x l -> grants good K c x -> granted good K l.
Proof. intros [?|[t ?]] ?; eexists; (split; [done|]); done. Qed.

Fixpoint reviewed {A} (Q : Local -> option A -> Prop) (l : Local) (p : prog (tool_answer (Value := Value) (Output := Output) (Out := Out)) A) : Prop :=
  match p with
  | Done r => Q l (Some r)
  | Do c k => forall l' x, ext (l_hold l) l l' -> heard c x l' -> reviewed Q l' (k x)
  end.
Lemma follows_until {A} (Q : Local -> option A -> Prop) token cleanup (l0 l : Local) p :
  (forall l', ext (l_hold l0) l0 l' -> cleans (drops l') cleanup) -> (forall l', ext (l_hold l0) l0 l' -> Q l' None) ->
  ext (l_hold l0) l0 l -> reviewed Q l p -> F Q l (until_cancelled token cleanup p).
Proof.
  intros Hc Hnone. revert l. induction p as [r|c k IH]; intros l Hx Hr; [done|]. simpl in *.
  assert (Hx' : forall o x, neutral_op o = true -> ext (l_hold l0) l0 (after l o x)).
  { intros o x Ho. eapply ext_trans; [exact Hx|]. rewrite <- (ext_hold _ _ _ Hx). by apply ext_after. }
  destruct token as [t|]; (split_and!; [done|by apply Hc|]); intros x _.
  - destruct x as [x|]; [|by apply Hnone, Hx']. apply IH; [by apply Hx'|]. apply Hr; [by apply ext_after|].
    right. exists t. simpl. set_solver.
  - apply IH; [by apply Hx'|]. apply Hr; [by apply ext_after|]. left. simpl. set_solver.
Qed.

Context (native : PathConvention) (host_path : Url -> option Url) (render_error : CodexErr (Output := Output) -> str).

(** What a review that ends leaves behind *)
Definition review_result (K : HostApprovalKey) (l : Local) (res : outcome (ToolError (Output := Output)) ReviewDecision) : Prop :=
  match res with
  | Return d => (positive d = true -> granted positive K l) /\ (lasting d = true -> granted lasting K l)
  | Throw _ => True
  | Panic => False
  end.

Lemma network_action_about q : about (q_key q) (network_action (Value := Value) host_path q).
Proof.
  unfold about, network_action. destruct (q_owner_call q) as [call|]; simpl.
  - eexists _, _, _, _, _. split; [done|]. done.
  - eexists _, _, _, [], _. rewrite app_nil_r. split; [done|]. done.
Qed.

(** A decision that stands is the one that was made. *)
Lemma resolved_result q ctx d src K l :
  (positive d = true -> granted positive K l) -> (lasting d = true -> granted lasting K l) ->
  review_result K l (lift_result (resolve (network_action (Value := Value) host_path q) ctx (mkResolution d src))).
Proof. intros ??. cbn. by destruct d as [| | | |[h []]| | |], src. Qed.

Lemma network_reviewed (Q : Local -> option (outcome (ToolError (Output := Output)) ReviewDecision) -> Prop) q ctx l :
  network_approval_context ctx = Some (q_context q) ->
  (forall l' res, ext (l_hold l) l l' -> review_result (q_key q) l' res -> Q l' (Some res)) ->
  reviewed Q l (request_approval native (network_action host_path q) ctx).
Proof.
  intros Hctx HQ. unfold request_approval. change (stdin_rejection _ ctx) with (@None str). intros l1 hooks Hx1 Hh1.
  pose proof (network_action_about q) as Habout. destruct hooks as [[|message]|].
  - apply HQ; [done|]. apply resolved_result; [intros _|done]. eapply heard_granted; [exact Hh1|]. by eexists _, _.
  - by apply HQ.
  - change (reviewed Q l1 (try_bind (fun resolution => Done (lift_result (resolve (network_action (Value := Value) host_path q) ctx resolution)))
             (request_reviewer_approval native (network_action host_path q) ctx))).
    unfold request_reviewer_approval, request_guardian_approval. change (is_network_access _) with true. rewrite orb_true_r.
    intros l2 review Hx2 Hh2. assert (Hx : ext (l_hold l) l l2) by (eapply ext_trans; [exact Hx1|]; by rewrite <- (ext_hold _ _ _ Hx1)).
    destruct review as [[d|]|u].
    + apply HQ; [done|]. apply resolved_result; intros Hd; (eapply heard_granted; [exact Hh2|]); (split; [done|]); by exists d.
    + intros l3 d Hx3 Hh3. apply HQ; [eapply ext_trans; [exact Hx|]; by rewrite <- (ext_hold _ _ _ Hx)|].
      apply resolved_result; intros Hd; (eapply heard_granted; [exact Hh3|]); (split; [done|]); rewrite Hctx; by eexists _, _, _, _, _.
    + apply HQ; [done|]. by apply resolved_result.
Qed.

(** ** The commit *)

Definition amended (q : Question) (amendment : NetworkPolicyAmendment) (l : Local) : Prop :=
  amendment_action amendment = NetworkAllow -> exists e, e ∈ l_log l /\ allows_host (q_key q) e.

Lemma amended_ext q a h l l' : ext h l l' -> amended q a l -> amended q a l'.
Proof. intros Hx H Ha. destruct (H Ha) as (e & ? & ?). exists e. split; [by apply (ext_log _ _ _ Hx)|done]. Qed.
Lemma ext_step l l' o x : ext (l_hold l) l l' -> neutral_op o = true -> ext (l_hold l) l (after l' o x).
Proof. intros Hx Ho. eapply ext_trans; [exact Hx|]. rewrite <- (ext_hold _ _ _ Hx). by apply ext_after. Qed.

Lemma follows_persist Q q before applied amendment l :
  (forall l', ext (l_hold l) l l' -> cleans (drops l') before) ->
  (forall l', ext (l_hold l) l l' -> amended q amendment l' -> cleans (drops l') applied) ->
  (forall l' res b, ext (l_hold l) l l' -> (b = true -> amended q amendment l') -> Q l' (res, b)) ->
  F Q l (persist_network_policy_amendment before applied amendment (q_context q)).
Proof.
  intros Hbefore Happlied HQ. unfold persist_network_policy_amendment.
  apply await_rule; [done|by apply Hbefore, ext_refl|]. intros permit _.
  assert (Hx1 := ext_step l l AcquireRefresh permit (ext_refl l) eq_refl). destruct permit as [u|u]; [|by apply HQ].
  unfold validated_network_policy_amendment_host. cbv zeta. destruct (str_eqb _ _); [|by apply HQ].
  apply await_rule; [done|by apply Hbefore|]. intros home _. assert (Hx2 := ext_step _ _ ReadCodexHome home Hx1 eq_refl).
  apply sync_rule. split; [done|]. intros proxy _. assert (Hx3 := ext_step _ _ LoadProxy proxy Hx2 eq_refl).
  assert (Hrule : rule_decision (execpolicy_network_rule_amendment amendment (q_context q) (normalize_host (context_host (q_context q))))
                  = match amendment_action amendment with NetworkAllow => Decisions.Allow | NetworkDeny => Decisions.Forbidden end).
  { unfold execpolicy_network_rule_amendment. by destruct (context_protocol _), (amendment_action amendment). }
  destruct proxy.
  - apply await_rule; [done|by apply Hbefore|]. intros updated _.
    match goal with |- F _ ?l4 _ => assert (Hx4 : ext (l_hold l) l l4) by (by apply ext_step) end.
    destruct updated as [[]|e]; [|by apply HQ].
    match goal with |- F _ ?l4 _ => assert (Ha : amended q amendment l4) end.
    { intros Hact. eexists. split; [simpl; apply elem_of_app; right; by apply list_elem_of_singleton|].
      exists (req_host (q_request q)). split; [done|]. simpl. by rewrite Hact. }
    apply await_rule; [done|by apply Happlied|]. intros saved _. apply HQ; [by apply ext_step|]. intros _.
    eapply amended_ext; [by apply ext_after|done].
  - apply await_rule; [done|by apply Hbefore|]. intros saved _. apply HQ; [by apply ext_step|]. destruct saved as [[]|e]; [|done].
    intros _ Hact. eexists. split; [simpl; apply elem_of_app; right; by apply list_elem_of_singleton|].
    exists (req_host (q_request q)). split; [done|]. refine (conj eq_refl (conj _ eq_refl)).
    etransitivity; [exact Hrule|]. by rewrite Hact.
Qed.

Lemma follows_amend Q q before applied amendment l :
  (forall l', ext (l_hold l) l l' -> cleans (drops l') before) ->
  (forall l', ext (l_hold l) l l' -> amended q amendment l' -> cleans (drops l') applied) ->
  (forall l' b, ext (l_hold l) l l' -> (b = true -> amended q amendment l') -> Q l' b) ->
  F Q l (amend q before applied amendment).
Proof.
  intros Hbefore Happlied HQ. apply task_bind_rule. apply follows_persist; [done..|]. intros l' res b Hx Hb.
  assert (Hclean : cleans (drops l') (if b then applied else before)) by (destruct b; auto).
  destruct res as [u|e]; (apply await_rule; [done|exact Hclean|]); intros v _; (apply HQ; [by apply ext_step|]); intros Ht;
    (eapply amended_ext; [by apply ext_after|auto]).
Qed.

(** The lock is released, then the owner is dropped. *)
Lemma cleans_cleanup q p d l :
  l_locked l = true -> owns (new_owner q p) l ->
  (d <> DenyPending -> granted positive (q_key q) l /\ exists e, e ∈ l_log l /\ allows_host (q_key q) e) ->
  cleans (drops l) (_ ← unlock; drop_owner (set_decision_on_drop (new_owner q p) d)).
Proof.
  intros Hl Ho Hd. split; [done|]. intros u _. apply cleans_drop_owner; [done|done|].
  intros Hne. destruct (Hd Hne) as [(e & ? & ?) (e' & ? & ?)]. split; [exists e; split; [simpl; set_solver|done]|].
  right. split; [done|]. exists e'. split; [simpl; set_solver|done].
Qed.
Lemma cleans_cleanup_deny q p l :
  l_locked l = true -> owns (new_owner q p) l -> cleans (drops l) (_ ← unlock; drop_owner (new_owner q p)).
Proof. intros ??. by apply (cleans_cleanup q p DenyPending). Qed.

(** What the commit works on *)
Record committing (q : Question) (p : nat) (l : Local) : Prop := {
  committing_job : l_job l = Decide (q_request q);
  committing_key : l_key l = Some (q_key q);
  committing_locked : l_locked l = true;
  committing_owns : owns (new_owner q p) l;
}.
Lemma committing_ext q p l l' : ext (l_hold l) l l' -> committing q p l -> committing q p l'.
Proof. intros [] []. split; try congruence. Qed.

Lemma deny_publishable o l : may_publish o DenyPending l.
Proof. by intros []. Qed.

Lemma follows_refuse Q q p l outcome :
  committing q p l -> (forall l' d, committing q p l' -> may_publish (new_owner q p) d l' -> Q l' d) ->
  F Q l (_ ← sync (record_for_owner (q_owner_call q) outcome); Finish DenyPending).
Proof.
  intros Hc HQ. apply sync_rule, runs_neutral; [apply neutral_record_owner|]. intros l' _ Hx.
  apply HQ; [by eapply committing_ext|apply deny_publishable].
Qed.

(** the decision is backed by what was heard *)
Definition backed (q : Question) (decision : ReviewDecision) (l : Local) : Prop :=
  (positive decision = true -> granted positive (q_key q) l) /\ (lasting decision = true -> granted lasting (q_key q) l).
Lemma granted_after good K (l : Local) o x : granted good K l -> granted good K (after l o x).
Proof. intros (e & ? & ?). exists e. split; [|done]. destruct o; simpl; set_solver. Qed.
Lemma backed_after q decision (l : Local) o x : backed q decision l -> backed q decision (after l o x).
Proof. intros [??]. split; intros; apply granted_after; auto. Qed.
Lemma backed_ext q decision h l l' : ext h l l' -> backed q decision l -> backed q decision l'.
Proof. intros ? [??]. split; intros; eapply ext_granted; eauto. Qed.

Section Commit.
Context (Q : Local -> PendingApprovalDecision -> Prop) (q : Question) (p : nat) (l : Local) (decision : ReviewDecision).
Context (Hc : committing q p l) (Hb : backed q decision l).
Context (HQ : forall l' d, committing q p l' -> may_publish (new_owner q p) d l' -> Q l' d).

Lemma follows_denied_check (f : bool -> net_task PendingApprovalDecision) :
  (forall l' denied, committing q p l' -> backed q decision l' -> l_clear l' = negb denied -> F Q l' (f denied)) ->
  F Q l (awaiting (_ ← unlock; drop_owner (new_owner q p)) (perform (DeniedContains (q_key q))) ≫= f).
Proof.
  intros Hf. destruct Hc as [Hj Hk Hl Ho].
  apply await_rule; [split; [done|]; by rewrite Hk|by apply cleans_cleanup_deny|].
  intros denied _. apply Hf; [by split|by apply backed_after|done].
Qed.

Lemma follows_commit_once :
  positive decision = true ->
  F Q l (denied ← awaiting (_ ← unlock; drop_owner (new_owner q p)) (perform (DeniedContains (q_key q)));
         if (denied : bool)
         then _ ← sync (record_for_owner (q_owner_call q) (policy_denial_message (q_target q))); Finish DenyPending
         else Finish AllowOnce).
Proof.
  intros Hpos. apply follows_denied_check. intros l' [] Hc' Hb' Hclear; [by eapply follows_refuse|].
  apply HQ; [done|]. intros _. split; [by apply Hb'|by left].
Qed.

Lemma follows_commit_session :
  decision = ApprovedForSession -> F Q l (commit q (new_owner q p) ApprovedForSession).
Proof.
  intros E. apply follows_denied_check. intros l' [] Hc' Hb' Hclear; [by eapply follows_refuse|]. pose proof Hc' as [Hj Hk Hl Ho].
  rewrite E in Hb'.
  apply await_rule; [split_and!; [done|done|by apply Hb']|by apply cleans_cleanup_deny|]. intros u _.
  apply HQ; [by split|]. intros _. split; [|by left]. apply granted_after. by apply Hb'.
Qed.

Lemma follows_commit_allow host :
  decision = NetworkAmendment (mkAmendment host NetworkAllow) -> F Q l (commit q (new_owner q p) (NetworkAmendment (mkAmendment host NetworkAllow))).
Proof.
  intros E. pose proof Hb as Hb0. rewrite E in Hb0. apply task_bind_rule. apply follows_amend.
  - intros l' Hx. by destruct (committing_ext _ _ _ _ Hx Hc); apply cleans_cleanup_deny.
  - intros l' Hx Ha. destruct (committing_ext _ _ _ _ Hx Hc). apply (cleans_cleanup q p AllowForSession); [done..|].
    intros _. split; [by apply (backed_ext _ _ _ _ _ Hx Hb0)|by apply Ha].
  - intros l' b Hx Ha. pose proof (committing_ext _ _ _ _ Hx Hc) as Hc'. pose proof (backed_ext _ _ _ _ _ Hx Hb0) as Hb'.
    destruct b; [|by eapply follows_refuse]. destruct Hc' as [Hj' Hk' Hl' Ho']. specialize (Ha eq_refl).
    assert (Hclean : forall l1, l_locked l1 = true -> owns (new_owner q p) l1 -> backed q (NetworkAmendment (mkAmendment host NetworkAllow)) l1 ->
      amended q (mkAmendment host NetworkAllow) l1 ->
      cleans (drops l1) (_ ← unlock; drop_owner (set_decision_on_drop (new_owner q p) AllowForSession))).
    { intros l1 ?? Hb1 Ha1. apply cleans_cleanup; [done..|]. intros _. split; [by apply Hb1|by apply Ha1]. }
    apply await_rule; [done|by apply Hclean|]. intros u _.
    apply await_rule.
    + split_and!; [done|done|]. by apply granted_after, Hb'.
    + apply Hclean; [done|done|by apply backed_after|]. intros H. destruct (Ha H) as (e & ? & ?). exists e. split; [simpl; set_solver|done].
    + intros v _. apply HQ; [by split|]. intros _. split; [|by left]. by apply granted_after, granted_after, Hb'.
Qed.

Lemma follows_commit_deny host :
  decision = NetworkAmendment (mkAmendment host NetworkDeny) -> F Q l (commit q (new_owner q p) (NetworkAmendment (mkAmendment host NetworkDeny))).
Proof.
  intros E. apply task_bind_rule. apply follows_amend.
  - intros l' Hx. by destruct (committing_ext _ _ _ _ Hx Hc); apply cleans_cleanup_deny.
  - intros l' Hx _. by destruct (committing_ext _ _ _ _ Hx Hc); apply cleans_cleanup_deny.
  - intros l' b Hx _. pose proof (committing_ext _ _ _ _ Hx Hc) as Hc'. apply sync_rule, runs_neutral; [apply neutral_record_owner|].
    intros l1 _ Hx1. destruct (committing_ext _ _ _ _ Hx1 Hc') as [Hj1 Hk1 Hl1 Ho1].
    apply await_rule; [done|by apply cleans_cleanup_deny|]. intros u _.
    apply await_rule; [done|by apply cleans_cleanup_deny|]. intros v _. apply HQ; [by split|apply deny_publishable].
Qed.

Lemma follows_commit : takes_commit_lock decision = true -> F Q l (commit q (new_owner q p) decision).
Proof.
  assert (Hsplit : forall d, decision = d -> takes_commit_lock d = true -> F Q l (commit q (new_owner q p) d)); [|by apply Hsplit].
  intros [|prefix| | |[host []]|rejection| |] E Ht; try done.
  - apply follows_commit_once. by rewrite E.
  - apply follows_commit_once. by rewrite E.
  - by apply follows_commit_session.
  - by apply follows_commit_allow.
  - by apply follows_commit_deny.
Qed.
End Commit.

(** ** A request *)

Record asking (q : Question) (p : nat) (l : Local) : Prop := {
  asking_job : l_job l = Decide (q_request q);
  asking_key : l_key l = Some (q_key q);
  asking_unlocked : l_locked l = false;
  asking_owns : owns (new_owner q p) l;
}.
Lemma asking_ext q p l l' : ext (l_hold l) l l' -> asking q p l -> asking q p l'.
Proof. intros [] []. split; congruence. Qed.
Lemma asking_drop q p l : asking q p l -> cleans (drops l) (drop_owner (new_owner q p)).
Proof. intros []. apply cleans_drop_owner; [done|done|apply deny_publishable]. Qed.

Lemma settled_entitled r pk p d (l : Local) :
  l_job l = Decide r -> l_locked l = false -> l_hold l = Settled pk p d -> entitled l (Some (to_network_decision d)).
Proof.
  intros Hj Hl Hh. split_and!; [done|right; eauto|]. rewrite Hj. eexists. split; [done|]. intros Hd. right. rewrite Hh.
  exists d. split; [done|]. by intros ->.
Qed.

Lemma follows_complete q p d l (before : net_prog unit) :
  asking q p l -> neutral before -> may_publish (new_owner q p) d l ->
  F entitled l (respond (_ ← before; complete (new_owner q p) d) (to_network_decision d)).
Proof.
  intros Ha Hn Hp. apply sync_rule, program_bind, runs_neutral; [done|]. intros l1 _ Hx1. destruct (asking_ext _ _ _ _ Hx1 Ha).
  apply runs_complete; [done|by eapply may_publish_ext|]. intros l2 Hx2.
  eapply settled_entitled; [|by rewrite (ext_locked _ _ _ Hx2)|exact (ext_hold _ _ _ Hx2)]. by rewrite (ext_job _ _ _ Hx2).
Qed.
Lemma follows_deny q p l (before : net_prog unit) :
  asking q p l -> neutral before -> F entitled l (respond (_ ← before; complete (new_owner q p) DenyPending) not_allowed).
Proof. intros ??. apply (follows_complete q p DenyPending); [done..|]. apply deny_publishable. Qed.

Lemma follows_apply q p decision l :
  asking q p l -> backed q decision l -> F entitled l (apply_decision q (new_owner q p) decision).
Proof.
  intros Ha Hb. apply sync_rule, runs_neutral; [by repeat case_match|]. intros l1 _ Hx1.
  apply (asking_ext _ _ _ _ Hx1) in Ha. apply (backed_ext _ _ _ _ _ Hx1) in Hb. pose proof Ha as [Hj Hk Hl Ho].
  destruct (takes_commit_lock decision) eqn:Ht.
  - apply await_rule; [done|by apply asking_drop|]. intros u _. apply task_bind_rule, follows_commit; [by split|by apply backed_after| |done].
    intros l2 d [Hj2 Hk2 Hl2 Ho2] Hp. apply sync_rule, program_bind, runs_complete; [done|done|]. intros l3 Hx3.
    split; [simpl; by rewrite (ext_locked _ _ _ Hx3)|]. intros v _. eapply settled_entitled; [|done|exact (ext_hold _ _ _ Hx3)].
    simpl. by rewrite (ext_job _ _ _ Hx3).
  - assert (F entitled l1 (resolved ← (_ ← sync (record_for_owner (q_owner_call q) (lit "Error while requesting approval")); Finish DenyPending);
                           respond (complete (new_owner q p) resolved) (to_network_decision resolved))) as H.
    { apply task_bind_rule, sync_rule, runs_neutral; [apply neutral_record_owner|]. intros l2 _ Hx2.
      apply (follows_deny q p l2 skip); [by eapply asking_ext|done]. }
    by destruct decision as [|prefix| | |[host []]|rejection| |].
Qed.

Lemma follows_ask q p l : asking q p l -> F entitled l (ask_about native host_path render_error q (new_owner q p)).
Proof.
  intros Ha. unfold ask_about.
  destruct (negb (from_option _ _ _)); [apply follows_deny; [done|apply neutral_record_owner]|].
  destruct (negb (allows_network_approval_flow _)); [apply follows_deny; [done|apply neutral_record_owner]|].
  apply sync_rule. split; [done|]. intros uuid _. assert (Hx := ext_step l l NewUuid uuid (ext_refl l) eq_refl).
  apply (asking_ext _ _ _ _ Hx) in Ha. clear Hx. revert Ha. generalize (after l NewUuid uuid). clear l. intros l Ha.
  apply task_bind_rule. eapply (follows_until _ _ _ l); [| |apply ext_refl|apply network_reviewed; [done|]].
  - intros l' Hx. by eapply asking_drop, asking_ext.
  - intros l' Hx. apply (follows_deny q p l' skip); [by eapply asking_ext|done].
  - intros l' res Hx Hr. apply (asking_ext _ _ _ _ Hx) in Ha. destruct res as [d|[rejection|[]]|].
    + by apply follows_apply.
    + apply follows_deny; [done|apply neutral_record_owner].
    + apply follows_deny; [done|apply neutral_record_owner].
    + apply follows_deny; [done|apply neutral_record_owner].
    + apply follows_deny; [done|apply neutral_record_owner].
    + apply follows_deny; [done|apply neutral_record_owner].
    + apply follows_deny; [done|apply neutral_record_owner].
    + done.
Qed.

Lemma follows_join q l : keyed (q_request q) (q_key q) l -> F entitled l (join_or_ask native host_path render_error q).
Proof.
  intros (Hj & Hk & Hl & Hh). apply sync_rule. split; [done|]. intros [p is_owner] _. destruct is_owner.
  - apply follows_ask. by split.
  - by eapply follows_wait.
Qed.

(** The environment of the key is the one the request names. *)
Definition attribution_fits (r : NetworkPolicyRequest) (a : option NetworkRequestAttribution) : Prop :=
  forall owner env e, a = Some (mkAttribution owner env) -> req_environment_id r = Some e -> env = Some e.

Lemma runs_attribution Q r (l : Local) :
  (forall l' a, ext (l_hold l) l l' -> attribution_fits r a -> Q l' a) -> runs Q l (resolve_request_attribution r).
Proof.
  intros HQ. unfold resolve_request_attribution, attribution_fits in *.
  destruct (req_execution_id r) as [id|]; [|destruct (req_environment_id r) as [env|] eqn:He];
    (split; [done|]); intros found _; (apply HQ; [by apply ext_after|]).
  - destruct found as [call|]; [|done]. cbn. destruct (str_eqb _ _); [|done]. intros owner env e [= <- <-] E. by rewrite E.
  - by intros owner env' e [= <- <-] [= <-].
  - done.
Qed.

Lemma follows_handle r l : fresh (Decide r) l -> F entitled l (handle_inline_policy_request native host_path render_error r).
Proof.
  intros Hf. apply sync_rule, runs_attribution. intros l1 a Hx1 Hfits. apply (fresh_ext _ _ _ Hx1) in Hf.
  destruct a as [[owner env]|]; [|by eapply fresh_entitled].
  apply sync_rule, runs_neutral; [by destruct owner|]. intros l2 stopped Hx2. apply (fresh_ext _ _ _ Hx2) in Hf.
  destruct stopped; [by eapply fresh_entitled|].
  apply await_rule; [done|by apply (fresh_quit (Decide r))|]. intros turn _.
  apply (fresh_ext _ l2 (after l2 GetActiveTurn turn)) in Hf; [|by apply ext_after].
  destruct (or_else env _) as [environment|] eqn:Henv; [|by eapply fresh_entitled]. cbv zeta.
  eapply follows_verdict; [exact Hf| |].
  - split_and!; [done..|]. simpl. intros e He. pose proof (Hfits _ _ _ eq_refl He) as ->. simpl in Henv. congruence.
  - intros l3 v Hk Hv. destruct v as [d|].
    + destruct Hk as (Hj & Hk & Hl & Hh). split_and!; [done|left; by rewrite Hh|]. rewrite Hj. exists d. split; [done|].
      intros ->. left. by apply Hv.
    + destruct turn as [turn|]; [by apply follows_join|]. destruct Hk as (Hj & Hk & Hl & Hh).
      apply sync_rule, runs_neutral; [apply neutral_record_owner|]. intros l4 _ Hx4.
      apply (refuse_entitled (Decide r)); [by rewrite (ext_locked _ _ _ Hx4)|left; by rewrite (ext_hold _ _ _ Hx4), Hh].
Qed.

Lemma neutral_job {A} j (l : Local) (p : net_prog A) :
  fresh j l -> match j with Decide _ => False | _ => True end -> neutral p -> F entitled l (_ ← sync p; Finish (A := option NetworkDecision) None).
Proof.
  intros Hf Hj Hn. apply sync_rule, runs_neutral; [done|]. intros l' _ Hx. apply (fresh_ext _ _ _ Hx) in Hf.
  destruct (fresh_quit _ _ Hf). destruct Hf as (E & _). split_and!; [done..|]. rewrite E. by destruct j.
Qed.

Abbreviation start := (job_task (Value := Value) (Out := Out) native host_path render_error).
Abbreviation net_config := (config net_answer (option NetworkDecision) NetworkApprovalService Job).
Abbreviation net_exec := (exec (Value := Value) (Output := Output) (Out := Out)).

Lemma start_follows j : F entitled (begins j : Local) (start j).
Proof.
  assert (Hf : fresh j (begins j : Local)) by done. destruct j as [r|call|id|cell id token|b| |keys].
  - apply await_rule; [done|by split; [|left]|]. intros alive _.
    apply (fresh_ext _ _ (after (begins (Decide r)) SessionAlive alive)) in Hf; [|by apply ext_after].
    destruct alive; [by apply follows_handle|by eapply fresh_entitled].
  - by eapply neutral_job.
  - by eapply neutral_job.
  - eapply neutral_job; [done|done|apply neutral_finish].
  - eapply neutral_job; [done|done|apply neutral_blocked].
  - apply task_bind_rule. apply await_rule; [done|by split; [|left]|]. intros u _.
    assert (Hun : forall l : Local, l_locked l = true -> l_hold l = NoQuestion -> cleans (drops l) unlock).
    { intros l Hl Hh. apply runs_cleans. split; [done|]. intros v _. split; [done|]. left. simpl. by rewrite Hh. }
    apply await_rule; [done|by apply Hun|]. intros approved _. apply await_rule; [done|by apply Hun|]. intros v _.
    apply runs_sync. split; [done|]. intros w _. by split_and!; [|left|].
  - apply await_rule; [done|by split; [|left]|]. intros u _. by split_and!; [|left|].
Qed.

Lemma service_sound : Sound net_exec start may possible after drops entitled quit Inv begins new_service.
Proof.
  split; [apply inv_new|apply start_follows|intros; by apply spawn_keeps|intros; by eapply drop_keeps|].
  intros s ls tr i l o x a s' HI Hi Hmay He. by eapply keeps_all.
Qed.

Lemma reachable_kept (c : net_config) :
  reachable net_exec start new_service c ->
  exists ls, Inv (shared c) ls (trace c) /\ Forall2 (behaving may possible after drops entitled quit) ls (threads c).
Proof. intros Hr. eapply protocol_sound in Hr; [exact Hr|exact service_sound]. Qed.

(** ** Consent *)

(** Thread [i] took part in a question about the key to which somebody said yes. *)
Definition asked_together (tr : list (nat * note net_answer Job)) (i : nat) (K : HostApprovalKey) : Prop :=
  exists j pk p (b : bool) e,
    pk_host pk = K /\ did i (existT (GetOrCreatePending pk : net_op) (p, b)) tr
    /\ did j (existT (GetOrCreatePending pk : net_op) (p, true)) tr /\ did j e tr /\ consents positive K e.

(** What a yes goes back to: the key it is about, who granted it, and when it was
    not denied *)
Definition justified (tr : list (nat * note net_answer Job)) (i : nat) (r : NetworkPolicyRequest) : Prop :=
  exists K (b : bool), fits (Decide r) K /\ did i (existT (DeniedContains K : net_op) b) tr
  /\ (asked_together tr i K \/ given_for_session tr K) /\ moment tr i K.

Lemma allow_justified (c : net_config) i r :
  reachable net_exec start new_service c -> (i, Spawned (Decide r)) ∈ trace c ->
  threads c !! i = Some (Live (Finish (Some NetAllow))) -> justified (trace c) i r.
Proof.
  intros (ls & HI & HF)%reachable_kept Hsp Ht. destruct (Forall2_lookup_r _ _ _ _ _ HF Ht) as (l & Hi & Hb).
  destruct (inv_spawned _ _ _ HI _ _ Hsp) as (l' & Hi' & Hj). rewrite Hi in Hi'. injection Hi' as <-.
  simpl in Hb. destruct Hb as (_ & _ & Hd). rewrite Hj in Hd. destruct Hd as (d & [= <-] & Hd).
  pose proof (inv_thread _ _ _ HI _ _ Hi) as Hok.
  assert (Hkey : forall K, l_key l = Some K -> fits (Decide r) K /\ exists b : bool, did i (existT (DeniedContains K : net_op) b) (trace c)).
  { intros K HK. destruct (ok_key _ _ _ _ Hok _ HK) as (Hfit & b & Hlog). rewrite Hj in Hfit. split; [done|].
    exists b. by apply (ok_log _ _ _ _ Hok). }
  destruct (Hd eq_refl) as [Hhit|(d & Htold & Hne)].
  - destruct (ok_hit _ _ _ _ Hok Hhit) as (K & HK & Hm & Hg). destruct (Hkey _ HK) as (? & b & ?). exists K, b. auto.
  - destruct (l_hold l) as [| | | |pk p d'| | | | | |pk p d'] eqn:Hh; simpl in Htold; try done; injection Htold as ->.
    + destruct (ok_owner _ _ _ _ Hok pk p) as (HK & Hlog & _); [by rewrite Hh|].
      destruct (ok_decided _ _ _ _ Hok pk p) as [(e & He & Hc) Hm]; [by rewrite Hh|rewrite Hh; by exists d|].
      destruct (Hkey _ HK) as (? & b & ?). exists (pk_host pk), b. split_and!; [done|done|left|done].
      exists i, pk, p, true, e. split_and!; try done; by apply (ok_log _ _ _ _ Hok).
    + destruct (ok_waiter _ _ _ _ Hok pk p) as (HK & Hlog & q & Hq & Hm & Hst); [by rewrite Hh|]. rewrite Hh in Hst.
      destruct (waiter_owner _ _ _ _ _ pk p q HI Hi) as (j & m & Hjm & Ho & ->); [by rewrite Hh|done|].
      pose proof (inv_thread _ _ _ HI _ _ Hjm) as Hok'. destruct (ok_owner _ _ _ _ Hok' pk p Ho) as (_ & Hlog' & _).
      destruct (ok_decided _ _ _ _ Hok' pk p Ho) as [(e & He & Hc) _].
      { exists d. split; [|done]. by destruct (l_hold m). }
      destruct (Hkey _ HK) as (? & b & ?). exists (pk_host pk), b. split_and!; [done|done|left|].
      * exists j, pk, p, false, e. split_and!; try done; [by apply (ok_log _ _ _ _ Hok)|by apply (ok_log _ _ _ _ Hok')..].
      * apply Hm. exists d. by rewrite Hst.
Qed.

(** C23: in every interleaving of requests, registrations, drops and answers of the
    surroundings, a network request is allowed only after somebody granted its host,
    protocol, port and environment: a hook, the reviewer or the user said yes to a
    question this request took part in, of the same turn and execution; or said yes
    for the session or by an amendment; or the key came with the approvals of the
    parent session. *)
Theorem network_allow_was_granted (c : net_config) i r :
  reachable net_exec start new_service c -> (i, Spawned (Decide r)) ∈ trace c ->
  threads c !! i = Some (Live (Finish (Some NetAllow))) ->
  exists K, fits (Decide r) K /\ (asked_together (trace c) i K \/ given_for_session (trace c) K).
Proof. intros Hr Hs Ht. destruct (allow_justified c i r Hr Hs Ht) as (K & b & ? & _ & ? & _). by exists K. Qed.

(** C24: a network request is never allowed against a denial of the session that
    stood as long as the request ran: there was a moment since its start when the
    key it looked up was not among the denied hosts, whatever was committed
    concurrently, or the policy itself had been amended to allow the host by a task
    that was dropped before it could clear the denial. *)
Theorem denied_host_not_allowed (c : net_config) i r :
  reachable net_exec start new_service c -> (i, Spawned (Decide r)) ∈ trace c ->
  threads c !! i = Some (Live (Finish (Some NetAllow))) ->
  exists K (b : bool), fits (Decide r) K /\ did i (existT (DeniedContains K : net_op) b) (trace c) /\ moment (trace c) i K.
Proof. intros Hr Hs Ht. destruct (allow_justified c i r Hr Hs Ht) as (K & b & ? & ? & _ & ?). by exists K, b. Qed.

(** ** Every request is answered *)

Definition some_tool_answer (c : ToolCall (Value := Value)) : tool_answer (Value := Value) (Output := Output) (Out := Out) c :=
  match c with
  | RunHooks _ _ | DecideApproval _ | FinishNetwork _ => None
  | SpawnApproval _ => Err tt
  | AskUser _ => Abort
  | ReadApprovals _ => (∅ : gmap str ReviewDecision)
  | PutApprovals _ => tt
  | GetEnvironmentInfo => Err []
  | BeginNetwork _ => Ok None
  | RunTool _ => Err (Rejected [])
  end.
Definition some_answer (o : net_op) : net_answer o :=
  match o as o return net_answer o with
  | ResolveByExecutionId _ | ResolveSingle | RemoveCall _ | FinishOnce _ _ | StoreOutcome _ _ | StoreOutcomeIfAbsent _ _
  | GetActiveTurn | GetDecision _ | CancellationReason | DisconnectElapsed => None
  | ResolveAttribution => NoActiveCall
  | IsCancelled _ | DeniedContains _ | ApprovedContains _ | SetOnce _ _ | SessionAlive | LoadProxy => false
  | ApprovedClone => ∅
  | GetOrCreatePending _ => (0, false)
  | Notified _ => 0
  | NewUuid | ReadCodexHome => []
  | ToolAwait c => some_tool_answer c
  | ToolUntil _ c => Some (some_tool_answer c)
  | AcquireRefresh | AddDomain _ _ | AppendNetworkRule _ _ _ => Ok tt
  | _ => tt
  end.

(** Only the lock and the wait for a decision block. *)
Lemma exec_ready i o s :
  match o with
  | LockCommit => session_policy_commit_lock s = None
  | AwaitNotified p n => n < from_option notify 0 (pending s !! p)
  | _ => True
  end -> exists x a s', net_exec i o s x = Some (a, s').
Proof.
  intros Ho. exists (some_answer o). destruct o; simpl in *; try rewrite Ho; eauto.
  all: try (destruct (finish_once _ _ _); by eauto).
  all: try (destruct (store_call_outcome _ _ _); by eauto).
  all: try (destruct (store_call_outcome_if_absent _ _ _); by eauto).
  all: try (destruct (get_or_create_pending_approval _ _); by eauto).
  all: try (destruct (set_once _ _ _); by eauto).
  apply Nat.ltb_lt in Ho. rewrite Ho. eauto.
Qed.

Section Progress.
Context (c : net_config) (ls : list Local).
Context (HI : Inv (shared c) ls (trace c)) (HF : Forall2 (behaving may possible after drops entitled quit) ls (threads c)).
Abbreviation moves := (exists c', works net_exec start c c').

Lemma op_moves i t o k :
  threads c !! i = Some t -> offers t = Some (existT o k) ->
  match o with
  | LockCommit => session_policy_commit_lock (shared c) = None
  | AwaitNotified p n => n < from_option notify 0 (pending (shared c) !! p)
  | _ => True
  end -> moves.
Proof.
  intros Ht Ho Hr. destruct (exec_ready i o (shared c) Hr) as (x & a & s' & He). eexists. split; [by eapply StepOp|].
  simpl. by rewrite length_insert.
Qed.

(** A thread that owes something is not finished, and knows what it may do. *)
Lemma unfinished i l :
  ls !! i = Some l -> (l_locked l = true \/ ~ not_owning (l_hold l)) ->
  exists t o k, threads c !! i = Some t /\ offers t = Some (existT o k) /\ may l o.
Proof.
  intros Hi Howes. destruct (Forall2_lookup_l _ _ _ _ _ HF Hi) as (t & Ht & Hb). apply behaving_offers in Hb.
  destruct (offers t) as [[o k]|] eqn:Ho; [exists t, o, k; by destruct Hb|]. exfalso.
  assert (l_locked l = false /\ not_owning (l_hold l)) as [? ?].
  { destruct t as [[]|]; [destruct Hb as (? & ? & _); done|done..]. }
  destruct Howes; [congruence|done].
Qed.
Lemma holder_moves h : session_policy_commit_lock (shared c) = Some h -> moves.
Proof.
  intros Hl. destruct (proj1 (inv_lock _ _ _ HI h) Hl) as (l & Hi & Hlk).
  destruct (unfinished h l Hi) as (t & o & k & Ht & Ho & Hmay); [by left|]. eapply op_moves; [done..|].
  destruct o; try done; simpl in Hmay; [congruence|destruct Hmay; congruence].
Qed.
Lemma owner_moves j l pk p :
  ls !! j = Some l -> owner_of (l_hold l) = Some (pk, p) -> ~ not_owning (l_hold l) -> moves.
Proof.
  intros Hj Ho Hn. destruct (unfinished j l Hj) as (t & o & k & Ht & Hof & Hmay); [by right|].
  destruct (session_policy_commit_lock (shared c)) as [h|] eqn:Hl; [by eapply holder_moves|]. eapply op_moves; [done..|].
  destruct o; try done. simpl in Hmay. destruct Hmay as (_ & pk' & Hh). by rewrite Hh in Ho.
Qed.

Lemma offered_moves i t o k : threads c !! i = Some t -> offers t = Some (existT o k) -> moves.
Proof.
  intros Ht Ho. destruct (Forall2_lookup_r _ _ _ _ _ HF Ht) as (l & Hi & Hb). apply behaving_offers in Hb. rewrite Ho in Hb.
  destruct Hb as [Hmay _]. destruct o; try (by eapply op_moves; [exact Ht|exact Ho|]).
  - destruct (session_policy_commit_lock (shared c)) as [h|] eqn:Hl; [by eapply holder_moves|by eapply op_moves].
  - destruct Hmay as (_ & pk & Hh).
    destruct (ok_waiter _ _ _ _ (inv_thread _ _ _ HI _ _ Hi) pk p) as (_ & _ & q & Hq & _ & Hst); [by rewrite Hh|].
    rewrite Hh in Hst. subst n.
    destruct (waiter_owner _ _ _ _ _ pk p q HI Hi) as (j & m & Hj & Hown & Eq); [by rewrite Hh|done|].
    destruct (decide (0 < notify q)) as [Hlt|Hge]; [eapply op_moves; [exact Ht|exact Ho|]; simpl; by rewrite Hq|].
    eapply owner_moves; [exact Hj|exact Hown|]. intros [E|(? & ? & d & E)]; [congruence|]. rewrite E in Eq. subst q. simpl in Hge. lia.
Qed.
End Progress.

(** C25: every network request gets its answer. Whatever is running, the work in
    progress comes to an end without new requests; and when nothing can move any
    more, no request is left waiting, neither for the commit lock nor for a decision
    that never comes: each has returned a decision, unless it was dropped, and has
    not panicked. *)
Theorem requests_are_answered (c : net_config) :
  reachable net_exec start new_service c ->
  Acc (flip (works net_exec start)) c
  /\ ((forall c', ~ works net_exec start c c') ->
      forall i t, threads c !! i = Some t ->
      finished t = true
      /\ forall r, (i, Spawned (Decide r)) ∈ trace c -> (i, WasDropped) ∈ trace c \/ exists d, t = Live (Finish (Some d))).
Proof.
  intros Hr. split; [apply works_wf|]. intros Hstuck i t Ht. destruct (reachable_kept c Hr) as (ls & HI & HF).
  assert (Hfin : offers t = None).
  { destruct (offers t) as [[o k]|] eqn:Ho; [|done]. destruct (offered_moves c ls HI HF i t o k Ht Ho) as [c' Hc'].
    by destruct (Hstuck c'). }
  split; [by apply offers_finished|]. intros r Hs.
  destruct (Forall2_lookup_r _ _ _ _ _ HF Ht) as (l & Hi & Hb). destruct (inv_spawned _ _ _ HI _ _ Hs) as (l' & Hi' & Hj).
  rewrite Hi in Hi'. injection Hi' as <-. destruct t as [[res|o k|o k d]|p]; simpl in Hfin; try done.
  - right. destruct Hb as (_ & _ & Hd). rewrite Hj in Hd. destruct Hd as (d & -> & _). by exists d.
  - left. by eapply (reachable_noted _ _ _ _ Hr).
Qed.

End Consent.
