(* ===== verification/NetworkExamples.v ===== *)
(** * Network requests on concrete runs

    The theorems of NetworkConsent.v on requests that share a question, and what
    happens to a denial whose request is dropped while it is being saved. *)

From S2P Require Import Prelude RustStr ExecPolicy PolicyBuild ShellSyntax CommandSafety CommandTheorems PowerShell PowerShellTheorems.
From S2P Require Import PathUri PathTheorems Permissions PermissionTransforms.
From S2P Require Import ExecApproval ExecRules ApprovalTheorems ApprovalExamples Interaction ExecutorPolicy ToolSandbox ToolApprovals.
From S2P Require Import ToolExamples Tasks NetworkApproval NetworkProtocol NetworkConsent.
Import PlainUrl PathExamples PolicyExamples BuildExamples CommandExamples PowerShellExamples ApprovalExamples ToolExamples.

Module RequestExamples.

Abbreviation net_op := (NetOp (Value := unit)).
Abbreviation net_answer := (net_answer (Value := unit) (Output := unit) (Out := unit)).
Abbreviation net_exec := (exec (Value := unit) (Output := unit) (Out := unit)).
Abbreviation net_config := (config net_answer (option NetworkDecision) NetworkApprovalService Job).
Definition start : Job -> task net_answer (option NetworkDecision) := job_task Posix (fun u => Some u) (fun _ => []).

(** ** The surroundings *)

Definition snapshot : TurnEnvironmentSnapshot := mkSnapshot [env_with work_profile] (fun _ => None) (fun _ => None).
Definition turn (id : str) : ActiveTurn := mkActiveTurn id ToolExamples.w OnRequest OnRequest ReviewerUser [] snapshot false.

(** In the turn [id]; no hook, no reviewer, the user says [d]. *)
Definition saying (id : str) (d : ReviewDecision) (o : net_op) : net_answer o :=
  match o as o return net_answer o with
  | SessionAlive => true
  | GetActiveTurn => Some (turn id)
  | ToolAwait c =>
      match c as c return net_answer (ToolAwait c) with
      | SpawnApproval _ => Ok None
      | AskUser _ => d
      | c => some_tool_answer c
      end
  | o => some_answer o
  end.

Abbreviation net_move := (move (answer := net_answer) (Job := Job)).
Definition turns (n i : nat) (id : str) (d : ReviewDecision) : list net_move := repeat (Turn i (saying id d)) n.
Definition run (ms : list net_move) : option net_config := plays net_exec start (initial new_service) ms.

Definition request : NetworkPolicyRequest := mkRequest ProtoHttpsConnect (lit "Example.com") 443 (Some (lit "local")) None false false.
Definition key : HostApprovalKey := mkHostKey (lit "local") (lit "example.com") (lit "https") 443.

(** ** Two requests, one question *)

Definition shared_question : list net_move :=
  [Spawn (Decide request)] ++ turns 8 0 (lit "t1") Approved ++ [Spawn (Decide request)] ++ turns 10 1 (lit "t1") Approved
  ++ turns 10 0 (lit "t1") Approved ++ turns 3 1 (lit "t1") Approved.
(** What a finished request said *)
Definition said (t : thread net_answer (option NetworkDecision)) : option NetworkDecision :=
  match t with Live (Finish r) => r | _ => None end.
Definition answers (c : option net_config) : option (list (option NetworkDecision)) := (fun c => said <$> threads c) <$> c.

Definition after_run (ms : list net_move) : net_config := default (initial new_service) (run ms).
Lemma ran ms : bool_decide (is_Some (run ms)) = true -> reachable net_exec start new_service (after_run ms).
Proof.
  unfold after_run. case_bool_decide as H; [|done]. destruct H as [c Hc]. rewrite Hc. intros _. eapply plays_steps, Hc.
Qed.

Lemma second_allowed :
  threads (after_run shared_question) !! 1 = Some (Live (Finish (Some NetAllow)))
  /\ trace (after_run shared_question) !! 9 = Some (1, Spawned (Decide request)).
Proof.
  split.
  - vm_cast_no_check (eq_refl (Some (Live (Finish (Some NetAllow)) : thread net_answer (option NetworkDecision)))).
  - vm_cast_no_check (eq_refl (Some (1, Spawned (Decide request) : note net_answer Job))).
Qed.

Lemma network_allow_was_granted_witness :
  exists K, fits (Decide request) K
  /\ (asked_together (Value := unit) (Output := unit) (Out := unit) (trace (after_run shared_question)) 1 K
      \/ given_for_session (trace (after_run shared_question)) K).
Proof.
  apply (network_allow_was_granted Posix (fun u => Some u) (fun _ => []) (after_run shared_question) 1 request).
  - apply ran. vm_compute. reflexivity.
  - eapply list_elem_of_lookup_2, second_allowed.
  - apply second_allowed.
Defined.

Lemma denied_host_not_allowed_witness :
  exists K (b : bool), fits (Decide request) K
  /\ did 1 (existT (DeniedContains K : net_op) b) (trace (after_run shared_question))
  /\ moment (Value := unit) (Output := unit) (Out := unit) (trace (after_run shared_question)) 1 K.
Proof.
  apply (denied_host_not_allowed Posix (fun u => Some u) (fun _ => []) (after_run shared_question) 1 request).
  - apply ran. vm_compute. reflexivity.
  - eapply list_elem_of_lookup_2, second_allowed.
  - apply second_allowed.
Defined.

(** The first request is dropped while the second waits for its answer. *)
Definition dropped_question : list net_move :=
  [Spawn (Decide request)] ++ turns 11 0 (lit "t1") Approved ++ [Spawn (Decide request)] ++ turns 10 1 (lit "t1") Approved ++ [Drop 0].

Lemma requests_are_answered_witness :
  threads (after_run dropped_question) !! 1 <> None
  /\ Acc (flip (works net_exec start)) (after_run dropped_question).
Proof.
  split; [by intros H; apply (f_equal (fun o => bool_decide (is_Some o))) in H; vm_compute in H|].
  apply (requests_are_answered Posix (fun u => Some u) (fun _ => []) (after_run dropped_question)).
  apply ran. vm_compute. reflexivity.
Defined.

(** The waiter is refused. *)
Example waiter_of_dropped_refused :
  answers (run (dropped_question ++ turns 3 0 (lit "t1") Approved ++ turns 3 1 (lit "t1") Approved)) = Some [None; Some not_allowed].
Proof. vm_compute. reflexivity. Qed.

(** ** A denial that is forgotten

    Two requests ask about the same host in different turns. The user approves the
    one for the session, and denies the other by an amendment of the policy, which
    is saved; then the request is dropped before the session notes the denial. The
    next request is allowed from the approvals of the session. *)
Definition denial : ReviewDecision := NetworkAmendment (mkAmendment (lit "example.com") NetworkDeny).
Definition forgotten_denial : list net_move :=
  [Spawn (Decide request)] ++ turns 11 0 (lit "t1") denial ++ [Spawn (Decide request)] ++ turns 19 1 (lit "t2") ApprovedForSession
  ++ turns 6 0 (lit "t1") denial ++ [Drop 0] ++ turns 4 0 (lit "t1") denial ++ [Spawn (Decide request)] ++ turns 7 2 (lit "t3") denial.
Definition saved_denial (e : event net_answer) : bool :=
  match e with
  | existT o a =>
      match o as o return net_answer o -> bool with
      | AppendNetworkRule _ host rule => fun a =>
          str_eqb host (lit "example.com") && match rule_decision rule with Decisions.Forbidden => true | _ => false end && is_ok (a : result str unit)
      | _ => fun _ => false
      end a
  end.
Example saved_denial_forgotten :
  (fun c => existsb (fun n => match n with (0, Did e) => saved_denial e | _ => false end) (trace c)) <$> run forgotten_denial = Some true
  /\ answers (run forgotten_denial) = Some [None; Some NetAllow; Some NetAllow].
Proof. split; vm_compute; reflexivity. Qed.

End RequestExamples.
